(* ===== verification/_CoqProject ===== *)
-Q . S2P
Prelude.v
Policy.v
Lru.v
Lfu.v
DList.v
DHash.v
DSet.v
Text.v
Float64.v
Ring.v
Duration.v
Policies.v
Hashing.v
Shard.v
ShardTyped.v
Rehash.v
Cache.v
CacheSpec.v
CacheExt.v
CacheExtSpec.v
CacheMixed.v
CacheKeys.v
Bytes.v
Wire.v
WireSet.v
WireExt.v
WireExtSpec.v
Raft.v
RaftSafety.v
RaftLog.v
RaftLoop.v
RaftCmd.v
Server.v
Client.v
Network.v
Remote.v
ServerLoops.v
ServerSpec.v
Pipeline.v
Cluster.v
ClusterSpec.v
Failover.v
ClusterLife.v
Monitor.v
MonitorSpec.v
Cli.v
Repl.v
ReplSpec.v
Commands.v
CommandsSpec.v
Mbr.v
MbrScore.v
MbrSpec.v
Infra.v
Alerter.v
InfraSpec.v
RaftNet.v
RaftNetSpec.v
Listen.v
Display.v
Config.v
Boot.v
BootSpec.v
Sdk.v
SdkSpec.v
SdkLife.v
Process.v
