(* ===== verification/Prelude.v ===== *)
(** * mcache: a verification library

    mcache is a cache server in Go.  In the process it is a sharded map with deadlines,
    eviction policies, collections (sets, hashes, lists) and online resizing; a binary
    protocol over TCP makes it a server; a Raft log replicates the server's writes; a
    cluster package spreads keys over servers or keeps a master with replicas.  This
    library models these parts as Rocq definitions, translated function by function
    from the sources, and proves what makes them correct.

    ** The program's parts and the files that model them

    The cache in the process, from the bottom up:
    - policy.go, lru.go, lfu.go: Policy.v (the interface, a class with its laws, and the
      no-op policy), Lru.v, Lfu.v, Policies.v (the registry and the built-in policies as
      one type);
    - ds/list, ds/hash, ds/set: DList.v, DHash.v, DSet.v;
    - entry.go, shard.go: Shard.v (sub-shards, string entries, eviction, expiry, key
      management) and ShardTyped.v (collections), over the hash of Hashing.v;
    - rehash/: Rehash.v, with the shards behind an interface whose laws Shard.v proves;
    - options.go, cache.go, cache_ext.go, observer.go: Cache.v (creation, options, string
      operations, resizing, the calls of the observer) and CacheExt.v (collections and
      keys).  CacheSpec.v, CacheExtSpec.v, CacheMixed.v (both together) and CacheKeys.v
      (deadlines and the listing of keys) hold what they promise.

    The server and its client:
    - net/protocol.go, net/protocol_ext.go: Bytes.v (big-endian numbers and slices),
      Wire.v, WireSet.v, WireExt.v, WireExtSpec.v;
    - net/server.go, net/server_ext.go: Server.v, every handler with and without Raft and
      the loop of a connection, and ServerLoops.v, its read timeouts and the workers;
    - net/raft_cmd.go: RaftCmd.v, the replicated commands and what applying one does;
    - net/client.go, net/client_ext.go: Client.v, the methods as calls and the
      multiplexing of calls on a connection;
    - Network.v and Remote.v put client, bytes and server together; ServerSpec.v is
      about the replicated paths;
    - net/pipeline.go: Pipeline.v, with the pool of buffers of net/protocol.go;
    - Listen.v: the life of a server, its listener, connections and closing;
    - sdk/go, and the pool of connections of net/client.go: Sdk.v, SdkSpec.v and
      SdkLife.v (closing).

    Replication and clusters:
    - raft/: Raft.v (the handlers of a node), RaftSafety.v (the steps of a cluster, and
      elections), RaftLog.v (logs) and RaftLoop.v (the event loop with its channels);
    - net/raft_transport.go, raft/node.go: RaftNet.v (the transport over TCP and how a
      server is wired to it) and RaftNetSpec.v;
    - cluster/: Cluster.v (nodes, health checks, the three topologies, the manager),
      ClusterSpec.v (shards), Failover.v (master and replicas) and ClusterLife.v (the
      loops of checks, and closing).

    Around the cache:
    - mbr/: Mbr.v (features, scorecard, PID controller, decision loop, migrations),
      MbrScore.v (its arithmetic) and MbrSpec.v, over Float64.v (binary64 numbers as the
      standard library's SpecFloat has them) and Ring.v (what ring buffers share);
    - monitor/: Monitor.v (the samples and the /proc collector) and MonitorSpec.v;
    - cli/: Cli.v (the client of the commands, on one server or a cluster), Repl.v (the
      prompt), ReplSpec.v, Commands.v (the commands), CommandsSpec.v and Display.v (the
      monitor, the nodes of a cluster);
    - observer.go, infra/: Infra.v (log, counters, batches of events, options), Alerter.v
      (heartbeats and alerts) and InfraSpec.v;
    - config.go, cli/server.go, cli/logger.go: Config.v, Boot.v and BootSpec.v, from a
      configuration to a running server; cli/daemon_unix.go, cli/stop.go: Process.v;
    - Text.v and Duration.v: what the sources use of strings, bufio, strconv and
      time.ParseDuration.

    Prelude.v, this file, holds what they share: outcomes, 64-bit and 32-bit integers,
    results and errors, Go's unordered iteration, lemmas on lists and options, the hint
    database and the tactics.

    ** How code becomes definitions

    A Go function is a function of the same name on the state it changes; a method
    takes its receiver last and returns it with the result.  A run-time panic and a loop
    that has not ended are values of the type [outcome], so "returns" ([m ⇓ v]) excludes
    both.  Errors are values of [result].  Machine integers are [Z] with their wrap-around
    written out ([int64], [wrapU], [wrapS]), but for counters that start at 0 and grow by
    one per step (the terms and indices of Raft, the use counts of LFU): these are
    unbounded, which a run of fewer than 2^63 steps cannot notice.  Go's ordinary map is
    a [gmap], and a loop over it takes an order as an argument of the model ([MapIter]),
    a function of the map.  What is proved of one run holds for every such function.
    Where two runs are compared ([shard_count_unobservable], [replicas_agree]) each call of
    each run has an order of its own, so that equal maps may be listed differently, and
    results are compared up to the order Go leaves open.  Pointers matter in a
    few places, and there elements, buffers, sets or nodes have names.

    What the code takes from outside is an argument: the clock, random draws, the order
    of map iteration, the buffer a pool hands out and its old contents, the answers of
    health probes, what other connections do while a call waits, the glob matcher,
    JSON and the formatting of floating-point numbers (classes; the laws a theorem needs
    are named and have instances in the witnesses).

    Locks make the operations they protect atomic; an operation is one step.  Where
    several parties interleave the steps are explicit: the Raft cluster is a step
    relation on nodes and messages under way, a blocking pop sees what others do between
    two polls, a replicated write sees the commands applied while it waits, calls on a
    connection are in flight together, health checks form runs, and the accept loop of a
    server, its handlers and [Close] take one step per critical section.

    ** Fuel and bounds

    Loops over data are structural.  Fuel appears in the eviction loop of a shard (one
    more than the entries, and each turn removes one: [shard_run_safe] shows that it never
    runs out), in reading a stream of frames or of Raft's envelopes (one more than the bytes), and in the polls of a blocking
    pop, where [blocking_pop_ends] shows how much the clock allows; the loop of a connection
    takes one more pass than frames and timeouts ([timeouts_between_frames]).
    Theorems about runs of operations hold for runs of any length unless a counter of
    the code would wrap, which their hypotheses then exclude.

    ** What the theorems show

    - The cache is a map with deadlines ([cache_refines_map]), respects its capacity,
      counts its keys, finishes a migration, as long as a resize finds shards with all
      their sub-shards (no size limit, or room for 16 entries per shard; smaller caches
      panic), and its collections do not depend on the number of shards; strings and collections in one cache do not disturb each other's
      soundness ([strings_and_collections]); deadlines set, asked for and removed are those
      of a map ([deadlines_refine_map]), and [Keys], [Exists] and [Type] agree; policies
      refine recency and counts.
    - Encoding and decoding are inverse for requests and responses of every kind, and
      the decoders of hashes and lists survive any bytes.
    - A remote cache is a cache ([remote_cache_is_cache]), for any calls in flight.
    - Raft elects one leader per term; logs that agree on an entry agree before it
      ([log_matching]); each node applies its commands once each and in order; commits follow
      a majority; the event loops do nothing else than this protocol
      ([event_loops_refine]); replicated writes answer as direct ones, when JSON keeps the
      command; replicas agree on collections; no request is left waiting.
    - A cluster of shards is one map while no node's health changes; a failover happens
      after an outage and only then, and loses no node; closing a manager or a cluster
      client leaves no connection open.
    - The scores of the decision engine stay in their ranges; no migration is decided
      while one runs, each needs three windows, and each ends, given a positive check
      interval ([time.NewTicker] panics otherwise, also in the model).
    - A monitor is the list of its last samples; the use of the processor is a
      percentage; a session at the prompt is the sequence of the calls typed, and a
      command is the same words at the prompt.
    - A server keeps to its limit of connections between any two critical sections, and
      closing it leaves none open once its handlers have ended; the configurations that
      start one, exit, or panic are known exactly.
    - The counters count what callers were told, batches are the last events, and a
      component that falls silent is reported.
    - The SDK's cluster client is one map of values.
    - Raft's messages survive the transport, through the bytes of both directions and the
      bounded channel, over a connection of their own; but nothing reads what it receives, so servers
      wired by [InitRaft] replicate nothing ([tcp_cluster_replicates_nothing]).
    - Other theorems too record what the code does against its purpose, each with a
      concrete run: a committed Raft entry can be replaced, resizing loses collections,
      a pipeline can send one request twice, replicated writes on strings hide their
      results, a recovered shard serves old values, a master-slave read misses a write,
      a raft transport panics on closing, a connection accepted during a close can outlive it,
      a read timeout inside a frame makes the server run what the frame's value spells.

    ** What is not modelled

    Nodes of a Raft cluster that crash and start again: the code keeps nothing on disk, and
    a node that forgets its vote is outside the theorems on elections and logs.  The
    bytes of sockets below frames, time-outs of writes, and the durations of timers (a
    timer may fire at any moment); what a recovered panic leaves of a server, which is an
    argument; the text of logs and the HTTP server of metrics; signals to a server; the
    registration of commands and their help; YAML, JSON, flags and the Prometheus client, which belong to third
    parties and are arguments where their results matter; the SDKs in C, C++ and Python.
    They are input and output around the parts above. *)

From stdpp Require Import base tactics numbers list gmap sets fin_maps strings.
From Stdlib Require Import ZArith Lia Strings.Byte.

#[global] Open Scope Z_scope.

(** ** Outcomes of Go code

    A value, a run-time panic, or a loop that has not ended within the fuel its
    model gives it.  A theorem that a call is [Ret] says that it neither panics
    nor loops. *)

Inductive outcome (A : Type) : Type :=
| Ret (a : A)
| Panic
| NoFuel.
Arguments Ret {_} _.
Arguments Panic {_}.
Arguments NoFuel {_}.

#[global] Instance outcome_ret : MRet outcome := fun A a => Ret a.
#[global] Instance outcome_bind : MBind outcome := fun A B f m =>
  match m with Ret a => f a | Panic => Panic | NoFuel => NoFuel end.
#[global] Instance outcome_fmap : FMap outcome := fun A B f m =>
  match m with Ret a => Ret (f a) | Panic => Panic | NoFuel => NoFuel end.

(** The notations of the development. *)
Declare Scope mcache_scope.
Delimit Scope mcache_scope with mcache.
#[global] Open Scope mcache_scope.

(** [m ⇓ v]: the call [m] returns [v]. *)
Notation "m ⇓ v" := (m = Ret v) (at level 70, no associativity) : mcache_scope.

(** A pointer or index that must be valid: dereferencing an absent one panics. *)
Definition deref {A} (o : option A) : outcome A :=
  match o with Some a => Ret a | None => Panic end.

(** [time.NewTicker] panics when the interval is not positive. *)
Definition NewTicker (d : Z) : outcome unit := if d <=? 0 then Panic else Ret tt.

Lemma NewTicker_ok d : 0 < d -> NewTicker d ⇓ tt.
Proof. intros Hd. unfold NewTicker. by destruct (Z.leb_spec d 0); [lia|]. Qed.

(** Go's [(T, error)] results. *)
Inductive result (E A : Type) : Type :=
| Ok (a : A)
| Err (e : E).
Arguments Ok {_ _} _.
Arguments Err {_ _} _.

#[global] Instance result_ret {E} : MRet (result E) := fun A a => Ok a.
#[global] Instance result_bind {E} : MBind (result E) := fun A B f m =>
  match m with Ok a => f a | Err e => Err e end.

(** The error values of errors.go and net/errors.go, [*strconv.NumError] (invalid syntax or out of
    range), and errors made on the spot from a message. *)
Inductive error : Type :=
| ErrKeyNotFound
| ErrKeyEmpty
| ErrValueNil
| ErrNegativeTTL
| ErrCacheClosed
| ErrInvalidShards
| ErrUnknownPolicy
| ErrUnknownRehasher
| ErrFieldNotFound
| ErrIndexOutOfRange
| ErrInvalidIncr
| ErrNotLeader
| ErrServerClosed
| ErrInvalidCommand
| ErrReadTimeout
| ErrConnClosed
| ErrBadResponse
| NumError (fn input : string) (out_of_range : bool)
| ErrMsg (msg : string).

#[global] Instance error_eq_dec : EqDecision error.
Proof. solve_decision. Defined.

Notation bytes := (list Byte.byte).

(** ** Machine integers *)

Definition wrapU (w z : Z) : Z := z mod 2 ^ w.
Definition wrapS (w z : Z) : Z := (z + 2 ^ (w - 1)) mod 2 ^ w - 2 ^ (w - 1).

(** Go's [int] and [int64] on the 64-bit platforms mcache builds for. *)
Definition int64 (z : Z) : Z := wrapS 64 z.
Definition min_int64 : Z := - 2 ^ 63.
Definition max_int64 : Z := 2 ^ 63 - 1.
Definition in_int64 (z : Z) : Prop := min_int64 <= z <= max_int64.

(** [time.Time.Sub] saturates at the ends of [time.Duration]. *)
Definition sat64 (z : Z) : Z := Z.max min_int64 (Z.min max_int64 z).

Lemma wrapU_range w z : 0 <= w -> 0 <= wrapU w z < 2 ^ w.
Proof. intros Hw. apply Z.mod_pos_bound. apply Z.pow_pos_nonneg; lia. Qed.

Lemma wrapU_small w z : 0 <= z < 2 ^ w -> wrapU w z = z.
Proof. apply Z.mod_small. Qed.

Lemma wrapS_range w z : 0 < w -> - 2 ^ (w - 1) <= wrapS w z < 2 ^ (w - 1).
Proof.
  intros Hw. unfold wrapS.
  assert (2 ^ w = 2 * 2 ^ (w - 1)) as Hp.
  { rewrite <-Z.pow_succ_r by lia. f_equal. lia. }
  pose proof (Z.mod_pos_bound (z + 2 ^ (w - 1)) (2 ^ w)).
  pose proof (Z.pow_pos_nonneg 2 (w - 1)). lia.
Qed.

Lemma int64_range z : in_int64 (int64 z).
Proof.
  unfold in_int64, int64, min_int64, max_int64.
  pose proof (wrapS_range 64 z) as H. change (64 - 1) with 63 in H. lia.
Qed.

Lemma int64_id z : in_int64 z -> int64 z = z.
Proof.
  unfold in_int64, int64, wrapS, min_int64, max_int64. intros H.
  change (64 - 1) with 63. rewrite Z.mod_small by lia. lia.
Qed.

Lemma sat64_id z : in_int64 z -> sat64 z = z.
Proof. unfold in_int64, sat64. lia. Qed.

Lemma sat64_range z : in_int64 (sat64 z).
Proof. unfold in_int64, sat64, min_int64, max_int64. lia. Qed.

(** ** Options *)

(** [o1 ∪ o2] is the first of the two that is present. *)
Lemma option_or_Some {A} (a : A) o : Some a ∪ o = Some a.
Proof. by destruct o. Qed.

Lemma option_or_assoc {A} (o1 o2 o3 : option A) : o1 ∪ (o2 ∪ o3) = (o1 ∪ o2) ∪ o3.
Proof. by destruct o1, o2, o3. Qed.

Ltac or_else :=
  rewrite ?option_or_Some, ?(left_id_L None (∪)), ?(right_id_L None (∪)).

(** The facts that close the common side conditions: ranges of machine integers,
    iteration orders without repetition.  [mcache_auto] tries them and arithmetic. *)
Create HintDb mcache.
#[export] Hint Resolve int64_range sat64_range : mcache.

Ltac mcache_auto := auto with mcache; try lia.

(** ** Lists *)

Lemma NoDup_fst_filter {A B} (Q : A * B -> Prop) `{forall x, Decision (Q x)} (l : list (A * B)) :
  NoDup l.*1 -> NoDup (filter Q l).*1.
Proof.
  induction l as [|[a b] l IH]; [done|]. rewrite fmap_cons, NoDup_cons. intros [Hni Hnd].
  rewrite filter_cons. case_decide; [|by apply IH]. rewrite fmap_cons, NoDup_cons.
  split; [|by apply IH]. intros (y & Hy & [_ Hin]%list_elem_of_filter)%list_elem_of_fmap.
  apply Hni, list_elem_of_fmap. eauto.
Qed.

(** ** Iteration over a Go map

    The language fixes no order for [range] over a map, and it may differ from
    one loop to the next.  A model of a loop takes the order from this interface;
    the law is all that a proof may use, so that what is proved holds of every
    order.  One instance lists equal maps alike: a statement that compares two runs
    gives each call of each run an instance of its own. *)
Class MapIter := {
  map_iter : forall {K} `{Countable K} {V : Type}, gmap K V -> list (K * V);
  map_iter_perm : forall {K} `{Countable K} {V : Type} (m : gmap K V),
    map_iter m ≡ₚ map_to_list m;
}.

(** One order, to evaluate definitions with. *)
Definition trie_order : MapIter :=
  {| map_iter := fun K _ _ V m => map_to_list m;
     map_iter_perm := fun K _ _ V m => Permutation_refl _ |}.

Section MapIterFacts.
Context `{MI : MapIter} `{Countable K} {V : Type}.
Implicit Types (m : gmap K V).

Lemma elem_of_map_iter m k v : (k, v) ∈ map_iter m <-> m !! k = Some v.
Proof. rewrite map_iter_perm. apply elem_of_map_to_list. Qed.

Lemma NoDup_map_iter_keys m : NoDup (map_iter m).*1.
Proof. rewrite map_iter_perm. apply NoDup_fst_map_to_list. Qed.

Lemma length_map_iter m : length (map_iter m) = size m.
Proof. rewrite map_iter_perm. apply length_map_to_list. Qed.

Lemma list_to_map_map_iter m : list_to_map (map_iter m) = m.
Proof.
  rewrite <-(list_to_map_to_list m) at 2.
  apply list_to_map_proper; [apply NoDup_map_iter_keys|apply map_iter_perm].
Qed.

End MapIterFacts.

#[export] Hint Resolve NoDup_map_iter_keys : mcache.

(** [for e := range s] over a Go set, a [map[string]struct{}]. *)
Definition set_iter `{MI : MapIter} (s : gset string) : list string :=
  (map_iter (gset_to_gmap tt s)).*1.

Section SetIterFacts.
Context `{MI : MapIter}.
Implicit Types (s : gset string).

Lemma elem_of_set_iter s x : x ∈ set_iter s <-> x ∈ s.
Proof.
  unfold set_iter. rewrite list_elem_of_fmap. split.
  - intros ([y []] & -> & Hy%elem_of_map_iter).
    by apply lookup_gset_to_gmap_Some in Hy as [? _].
  - intros Hx. exists (x, tt). split; [done|].
    apply elem_of_map_iter. by apply lookup_gset_to_gmap_Some.
Qed.

Lemma NoDup_set_iter s : NoDup (set_iter s).
Proof. apply NoDup_map_iter_keys. Qed.

Lemma set_iter_perm s : set_iter s ≡ₚ elements s.
Proof.
  apply NoDup_Permutation; [apply NoDup_set_iter|apply NoDup_elements|].
  intros x. by rewrite elem_of_set_iter, elem_of_elements.
Qed.

Lemma length_set_iter s : length (set_iter s) = size s.
Proof. by rewrite set_iter_perm. Qed.

Lemma list_to_set_set_iter s : list_to_set (set_iter s) = s.
Proof. apply set_eq. intros x. by rewrite elem_of_list_to_set, elem_of_set_iter. Qed.

End SetIterFacts.

#[export] Hint Resolve NoDup_set_iter : mcache.
