(* ===== verification/Policy.v ===== *)
(** * Eviction policies (policy.go): the interface

    The interface [EvictionPolicy] as a class of operations, the laws a shard
    relies on as a second class, and the no-op policy.  The doubly linked lists of
    Go's [container/list] are lists of elements with an identity, because
    [LRUPolicy.nodes] and [LFUPolicy.items] hold pointers to elements. *)

From stdpp Require Import base tactics numbers list gmap sets fin_maps strings.
From S2P Require Import Prelude.

(** ** container/list *)

Module GoList.

Record element (A : Type) : Type := Element { el_id : nat; el_val : A }.
Arguments Element {_} _ _.
Arguments el_id {_} _.
Arguments el_val {_} _.

(** [l.Remove(e)]: by identity; nothing when [e] is not an element of [l]. *)
Definition remove {A} (e : element A) (l : list (element A)) : list (element A) :=
  filter (fun x => el_id x <> el_id e) l.

(** [l.MoveToFront(e)]: nothing when [e] is not an element of [l]. *)
Definition move_to_front {A} (e : element A) (l : list (element A)) : list (element A) :=
  if decide (el_id e ∈ el_id <$> l) then e :: remove e l else l.

Definition push_front {A} (e : element A) (l : list (element A)) := e :: l.
Definition push_back {A} (e : element A) (l : list (element A)) := l ++ [e].

End GoList.
Import GoList.

(** ** The interface *)

(** [type EvictionPolicy interface].  [Evict] returns [(key, true)] as
    [Some key] and [(_, false)] as [None]. *)
Class EvictionPolicy (P : Type) := {
  Name : P -> string;
  OnAccess : string -> P -> P;
  OnAdd : string -> P -> P;
  OnRemove : string -> P -> P;
  Evict : P -> option string * P;
  PolLen : P -> Z;
  Clear : P -> P;
}.

(** A run of policy calls, with the keys [Evict] returned. *)
Inductive pol_op : Type :=
| OpAccess (key : string)
| OpAdd (key : string)
| OpRemove (key : string)
| OpEvict
| OpClear.

Definition pol_step `{EP : EvictionPolicy P} (o : pol_op) (p : P) : list (option string) * P :=
  match o with
  | OpAccess key => ([], OnAccess key p)
  | OpAdd key => ([], OnAdd key p)
  | OpRemove key => ([], OnRemove key p)
  | OpEvict => let '(k, p') := Evict p in ([k], p')
  | OpClear => ([], Clear p)
  end.

Fixpoint pol_run `{EP : EvictionPolicy P} (ops : list pol_op) (p : P) : list (option string) * P :=
  match ops with
  | [] => ([], p)
  | o :: ops =>
      let '(out, p') := pol_step o p in
      let '(outs, p'') := pol_run ops p' in
      (out ++ outs, p'')
  end.

(** What a shard relies on: a policy knows a set of keys.  A policy that
    [policy_tracks] knows every key added and not removed, and finds one to evict
    whenever it knows one; the no-op policy knows none. *)
Class PolicyLaws (P : Type) `{EvictionPolicy P} := {
  policy_ok : P -> Prop;
  policy_tracks : P -> bool;
  policy_keys : P -> gset string;
  on_access_law k p : policy_ok p ->
    policy_ok (OnAccess k p) /\ policy_keys (OnAccess k p) = policy_keys p /\
    policy_tracks (OnAccess k p) = policy_tracks p;
  on_add_law k p : policy_ok p ->
    policy_ok (OnAdd k p) /\
    policy_keys (OnAdd k p) = (if policy_tracks p then {[k]} ∪ policy_keys p else ∅) /\
    policy_tracks (OnAdd k p) = policy_tracks p;
  on_remove_law k p : policy_ok p ->
    policy_ok (OnRemove k p) /\ policy_keys (OnRemove k p) = policy_keys p ∖ {[k]} /\
    policy_tracks (OnRemove k p) = policy_tracks p;
  evict_law p : policy_ok p ->
    policy_ok (Evict p).2 /\ policy_tracks (Evict p).2 = policy_tracks p /\
    match (Evict p).1 with
    | Some k => k ∈ policy_keys p /\ policy_keys (Evict p).2 = policy_keys p ∖ {[k]}
    | None => policy_keys p = ∅ /\ policy_keys (Evict p).2 = ∅
    end;
  untracked_law p : policy_ok p -> policy_tracks p = false -> policy_keys p = ∅;
}.

(** What the cache needs of a factory: a sound policy that holds no key. *)
Definition fresh_policy `{PL : PolicyLaws P} (p : P) : Prop :=
  policy_ok p /\ policy_keys p = ∅.

(** ** The no-op policy *)

Inductive noopPolicy : Type := NoopPolicy.

#[global] Instance noop_policy : EvictionPolicy noopPolicy := {|
  Name _ := "noop"%string;
  OnAccess _ p := p;
  OnAdd _ p := p;
  OnRemove _ p := p;
  Evict p := (None, p);
  PolLen _ := 0;
  Clear p := p;
|}.

#[global] Program Instance noop_laws : PolicyLaws noopPolicy := {|
  policy_ok _ := True;
  policy_tracks _ := false;
  policy_keys _ := ∅;
|}.
Next Obligation. done. Qed.
Next Obligation. done. Qed.
Next Obligation. intros; repeat split. set_solver. Qed.
Next Obligation. done. Qed.
Next Obligation. done. Qed.

(** ** Lemmas on lists of elements *)

Module GoListFacts.
Section Facts.
Context {A : Type}.
Implicit Types (e x : element A) (l : list (element A)).

Lemma elem_of_remove x e l : x ∈ remove e l <-> x ∈ l /\ el_id x <> el_id e.
Proof. unfold remove. rewrite list_elem_of_filter. tauto. Qed.

Lemma remove_not_in e l : el_id e ∉ el_id <$> l -> remove e l = l.
Proof.
  intros Hni. induction l as [|x l IH]; [done|].
  rewrite fmap_cons, not_elem_of_cons in Hni. destruct Hni as [Hne Hni].
  unfold remove. rewrite filter_cons_True by congruence.
  f_equal. apply IH, Hni.
Qed.

Lemma NoDup_remove e l : NoDup (el_id <$> l) -> NoDup (el_id <$> remove e l).
Proof.
  induction l as [|x l IH]; [done|]. rewrite fmap_cons, NoDup_cons.
  intros [Hni Hnd]. unfold remove. rewrite filter_cons. case_decide; [|by apply IH].
  rewrite fmap_cons, NoDup_cons. split; [|by apply IH].
  intros (y & Hid & [_ Hy]%list_elem_of_filter)%list_elem_of_fmap.
  apply Hni, list_elem_of_fmap. by exists y.
Qed.

Lemma elem_id_inj e x l :
  NoDup (el_id <$> l) -> e ∈ l -> x ∈ l -> el_id e = el_id x -> e = x.
Proof.
  intros Hnd (i & Hi)%list_elem_of_lookup (j & Hj)%list_elem_of_lookup Heq.
  assert (i = j) as ->; [|congruence].
  eapply (NoDup_lookup _ i j (el_id e)); [exact Hnd| |];
    rewrite list_lookup_fmap; [by rewrite Hi|by rewrite Hj, Heq].
Qed.

Lemma length_remove e l :
  NoDup (el_id <$> l) -> e ∈ l -> S (length (remove e l)) = length l.
Proof.
  induction l as [|x l IH]; [by intros _ ?%not_elem_of_nil|].
  rewrite fmap_cons, NoDup_cons, elem_of_cons. intros [Hni Hnd] Hin.
  unfold remove. rewrite filter_cons. case_decide as Hid.
  - simpl. f_equal. apply IH; [done|]. destruct Hin as [->|]; [done|done].
  - assert (el_id x = el_id e) as Heq by (destruct (decide (el_id x = el_id e)); tauto).
    simpl. f_equal. f_equal. apply remove_not_in. congruence.
Qed.

End Facts.
End GoListFacts.
