(* ===== verification/Lru.v ===== *)
(** * The LRU policy (lru.go)

    The operations of [LRUPolicy] on its pointer structure, and their refinement
    to the abstract recency order: the list of the keys, most recent first. *)

From stdpp Require Import base tactics numbers list gmap sets fin_maps strings.
From S2P Require Import Prelude.
From S2P Require Import Policy.
Import GoList GoListFacts.

(** ** LRU *)

(** [nodes] maps a key to its list element; [lru_next] numbers the elements
    allocated so far. *)
Record LRUPolicy : Type := mkLRU {
  order : list (element string);
  nodes : gmap string (element string);
  lru_next : nat;
}.

Definition NewLRU : LRUPolicy := mkLRU [] ∅ 0.

Definition lru_OnAccess (key : string) (p : LRUPolicy) : LRUPolicy :=
  match nodes p !! key with
  | Some e => mkLRU (move_to_front e (order p)) (nodes p) (lru_next p)
  | None => p
  end.

Definition lru_OnAdd (key : string) (p : LRUPolicy) : LRUPolicy :=
  match nodes p !! key with
  | Some e => mkLRU (move_to_front e (order p)) (nodes p) (lru_next p)
  | None =>
      let e := Element (lru_next p) key in
      mkLRU (push_front e (order p)) (<[key := e]> (nodes p)) (S (lru_next p))
  end.

Definition lru_OnRemove (key : string) (p : LRUPolicy) : LRUPolicy :=
  match nodes p !! key with
  | Some e => mkLRU (remove e (order p)) (delete key (nodes p)) (lru_next p)
  | None => p
  end.

Definition lru_Evict (p : LRUPolicy) : option string * LRUPolicy :=
  match last (order p) with
  | None => (None, p)
  | Some e =>
      let key := el_val e in
      (Some key, mkLRU (remove e (order p)) (delete key (nodes p)) (lru_next p))
  end.

Definition lru_Len (p : LRUPolicy) : Z := Z.of_nat (length (order p)).

Definition lru_Clear (p : LRUPolicy) : LRUPolicy := mkLRU [] ∅ (lru_next p).

#[global] Instance lru_policy : EvictionPolicy LRUPolicy := {|
  Name _ := "lru"%string;
  OnAccess := lru_OnAccess;
  OnAdd := lru_OnAdd;
  OnRemove := lru_OnRemove;
  Evict := lru_Evict;
  PolLen := lru_Len;
  Clear := lru_Clear;
|}.


(** ** The abstract recency order *)

Definition del_key (key : string) (l : list string) : list string :=
  filter (fun k => k <> key) l.

(** The specification: a list of keys, most recently used first. *)
#[global] Instance lru_spec : EvictionPolicy (list string) := {|
  Name _ := "lru"%string;
  OnAccess key l := if decide (key ∈ l) then key :: del_key key l else l;
  OnAdd key l := key :: del_key key l;
  OnRemove key l := del_key key l;
  Evict l := (last l, take (length l - 1) l);
  PolLen l := Z.of_nat (length l);
  Clear _ := [];
|}.

Definition lru_view (p : LRUPolicy) : list string := el_val <$> order p.

Record lru_ok (p : LRUPolicy) : Prop := {
  lru_ids : NoDup (el_id <$> order p);
  lru_fresh e : e ∈ order p -> (el_id e < lru_next p)%nat;
  lru_nodes k e : nodes p !! k = Some e <-> e ∈ order p /\ el_val e = k;
}.

(** ** Lemmas *)

Lemma elem_of_del_key k key l : k ∈ del_key key l <-> k ∈ l /\ k <> key.
Proof. unfold del_key. rewrite list_elem_of_filter. tauto. Qed.

Lemma del_key_not_in key l : key ∉ l -> del_key key l = l.
Proof.
  induction l as [|x l IH]; [done|]. rewrite not_elem_of_cons. intros [??].
  unfold del_key. rewrite filter_cons_True by congruence. f_equal. by apply IH.
Qed.

Lemma val_remove e (l : list (element string)) :
  (forall x, x ∈ l -> el_id x = el_id e <-> el_val x = el_val e) ->
  el_val <$> remove e l = del_key (el_val e) (el_val <$> l).
Proof.
  induction l as [|x l IH]; intros Hag; [done|].
  specialize (IH (fun y Hy => Hag y (list_elem_of_further _ _ _ Hy))).
  specialize (Hag x (list_elem_of_here _ _)).
  rewrite fmap_cons. unfold remove, del_key in *. rewrite !filter_cons.
  case_decide; case_decide; try tauto. rewrite fmap_cons, IH. done.
Qed.

Lemma last_elem_of {A} (l : list A) x : last l = Some x -> x ∈ l.
Proof. rewrite last_Some. intros [l' ->]. set_solver. Qed.

Lemma del_last key l :
  NoDup l -> last l = Some key -> del_key key l = take (length l - 1) l.
Proof.
  rewrite last_Some. intros Hnd [l' ->]. apply NoDup_app in Hnd as (Hnd & Hdis & _).
  rewrite length_app, Nat.add_sub, take_app_length. unfold del_key.
  rewrite filter_app, filter_cons_False, filter_nil, app_nil_r by tauto.
  apply del_key_not_in. intros Hin. apply (Hdis key Hin). set_solver.
Qed.

Section Facts.
Context (p : LRUPolicy) (Hok : lru_ok p).

Lemma lru_elem_val_inj e x :
  e ∈ order p -> x ∈ order p -> el_id x = el_id e <-> el_val x = el_val e.
Proof using Hok.
  intros He Hx. split; intros Heq.
  - f_equal. by eapply elem_id_inj; [apply lru_ids| | |].
  - assert (nodes p !! el_val x = Some x) as H1 by (by apply lru_nodes).
    assert (nodes p !! el_val e = Some e) as H2 by (by apply lru_nodes).
    congruence.
Qed.

Lemma lru_view_NoDup : NoDup (lru_view p).
Proof using Hok.
  apply NoDup_fmap_2_strong.
  - intros x y Hx Hy Heq. eapply elem_id_inj; [by apply lru_ids|done|done|].
    by apply lru_elem_val_inj.
  - eapply NoDup_fmap_1, lru_ids, Hok.
Qed.

Lemma lru_view_nodes key : key ∈ lru_view p <-> is_Some (nodes p !! key).
Proof using Hok.
  unfold lru_view. rewrite list_elem_of_fmap. split.
  - intros (e & -> & He). exists e. by apply lru_nodes.
  - intros [e [He <-]%lru_nodes]; [|done]. eauto.
Qed.

Lemma lru_view_remove e :
  e ∈ order p -> el_val <$> remove e (order p) = del_key (el_val e) (lru_view p).
Proof using Hok. intros He. apply val_remove. intros x Hx. by apply lru_elem_val_inj. Qed.

Lemma lru_touch_ok e key :
  nodes p !! key = Some e -> lru_ok (mkLRU (move_to_front e (order p)) (nodes p) (lru_next p)).
Proof using Hok.
  intros [He Hk]%lru_nodes; [|done]. unfold move_to_front.
  rewrite decide_True by (apply list_elem_of_fmap; eauto).
  split; simpl.
  - rewrite NoDup_cons. split; [|by apply NoDup_remove, lru_ids].
    intros (y & Hid & [_ Hne]%elem_of_remove)%list_elem_of_fmap. congruence.
  - intros x [->|[Hx _]%elem_of_remove]%elem_of_cons; by apply lru_fresh.
  - intros k x. rewrite lru_nodes by done. rewrite elem_of_cons, elem_of_remove.
    destruct (decide (el_id x = el_id e)) as [Hid|Hid]; [|intuition congruence].
    split; [|by intuition congruence].
    intros [Hx <-]. split; [|done]. left. by eapply elem_id_inj; [apply lru_ids| | |].
Qed.

Lemma lru_drop_ok e key :
  nodes p !! key = Some e -> lru_ok (mkLRU (remove e (order p)) (delete key (nodes p)) (lru_next p)).
Proof using Hok.
  intros [He Hk]%lru_nodes; [|done]. split; simpl.
  - by apply NoDup_remove, lru_ids.
  - intros x [Hx _]%elem_of_remove. by apply lru_fresh.
  - intros k x. rewrite elem_of_remove, lookup_delete_Some, lru_nodes by done. split.
    + intros (Hne & Hx & Hv). split_and!; [done| |done].
      intros Hid%lru_elem_val_inj; [congruence|done|done].
    + intros ((Hx & Hne) & Hv). split_and!; [|done|done]. intros <-.
      apply Hne, lru_elem_val_inj; congruence.
Qed.

Lemma lru_view_touch e key :
  nodes p !! key = Some e ->
  lru_view (mkLRU (move_to_front e (order p)) (nodes p) (lru_next p)) = key :: del_key key (lru_view p).
Proof using Hok.
  intros [He Hk]%lru_nodes; [|done]. unfold lru_view at 1, move_to_front. simpl.
  rewrite decide_True by (apply list_elem_of_fmap; eauto).
  rewrite fmap_cons, lru_view_remove by done. by rewrite Hk.
Qed.

End Facts.

(** One policy call on the pointers is one call on the recency order. *)
Lemma lru_step_refines o p :
  lru_ok p ->
  let '(out, p') := pol_step o p in
  lru_ok p' /\ pol_step o (lru_view p) = (out, lru_view p').
Proof.
  intros Hok. destruct o as [key|key|key| |]; cbn [pol_step OnAccess OnAdd OnRemove lru_policy lru_spec].
  - unfold lru_OnAccess. destruct (nodes p !! key) as [e|] eqn:He.
    + split; [by eapply lru_touch_ok|]. rewrite (lru_view_touch p Hok e key He).
      rewrite decide_True; [done|]. apply lru_view_nodes; eauto.
    + split; [done|]. rewrite decide_False; [done|].
      rewrite lru_view_nodes, He by done. by intros [].
  - unfold lru_OnAdd. destruct (nodes p !! key) as [e|] eqn:He.
    + split; [by eapply lru_touch_ok|]. by rewrite (lru_view_touch p Hok e key He).
    + assert (key ∉ lru_view p) as Hni by (rewrite lru_view_nodes, He by done; by intros []).
      split; [|by rewrite del_key_not_in]. split; unfold push_front; simpl.
      * rewrite NoDup_cons. split; [|by apply lru_ids].
        intros (y & Hid & Hy)%list_elem_of_fmap. apply lru_fresh in Hy; [lia|done].
      * intros x [->|Hx]%elem_of_cons; simpl; [lia|]. apply lru_fresh in Hx; [lia|done].
      * intros k x. rewrite lookup_insert, elem_of_cons. case_decide; subst.
        -- split; [by intros [= <-]; auto|]. intros [[->|Hx] Hv]; [done|].
           destruct Hni. apply list_elem_of_fmap. by exists x.
        -- rewrite lru_nodes by done. split; [tauto|]. intros [[->|Hx] Hv]; [done|done].
  - unfold lru_OnRemove. destruct (nodes p !! key) as [e|] eqn:He.
    + split; [by eapply lru_drop_ok|]. apply lru_nodes in He as [He <-]; [|done].
      by rewrite <-lru_view_remove.
    + split; [done|]. rewrite del_key_not_in; [done|].
      rewrite lru_view_nodes, He by done. by intros [].
  - unfold pol_step, Evict, lru_policy, lru_spec, lru_Evict.
    assert (last (lru_view p) = el_val <$> last (order p)) as Hv by apply fmap_last.
    destruct (last (order p)) as [e|] eqn:Hl; simpl in Hv.
    + assert (e ∈ order p) as He by by apply last_elem_of.
      split; [by eapply lru_drop_ok; [done|apply lru_nodes]|]. rewrite Hv.
      do 2 f_equal. unfold lru_view at 3; simpl. rewrite lru_view_remove by done.
      symmetry. by apply del_last; [apply lru_view_NoDup|].
    + split; [done|]. rewrite Hv. do 2 f_equal. by apply last_None in Hv as ->.
  - split; [|done]. split; simpl; [constructor|by intros ? ?%not_elem_of_nil|].
    intros k e. rewrite lookup_empty. split; [done|]. by intros [?%not_elem_of_nil _].
Qed.

Lemma NewLRU_ok : lru_ok NewLRU.
Proof.
  split; simpl; [constructor|by intros ? ?%not_elem_of_nil|].
  intros k e. rewrite lookup_empty. split; [done|]. by intros [?%not_elem_of_nil _].
Qed.

Lemma lru_run_refines ops p :
  lru_ok p ->
  let '(outs, p') := pol_run ops p in
  lru_ok p' /\ pol_run ops (lru_view p) = (outs, lru_view p').
Proof.
  revert p. induction ops as [|o ops IH]; intros p Hok; [done|]. cbn [pol_run].
  pose proof (lru_step_refines o p Hok) as Hs.
  destruct (pol_step o p) as [out p']. destruct Hs as [Hok' ->].
  specialize (IH p' Hok'). destruct (pol_run ops p') as [outs p'']. by destruct IH as [? ->].
Qed.

(** ** The laws a shard relies on *)

Lemma lru_view_set_del key l :
  list_to_set (C := gset string) (del_key key l) = list_to_set l ∖ {[key]}.
Proof. apply set_eq. intros k. rewrite elem_of_list_to_set, elem_of_del_key. set_solver. Qed.

Lemma lru_evict_view p :
  lru_ok p ->
  match (lru_Evict p).1 with
  | Some k => k ∈ lru_view p /\ lru_view (lru_Evict p).2 = del_key k (lru_view p)
  | None => lru_view p = [] /\ lru_view (lru_Evict p).2 = []
  end.
Proof.
  intros Hok. pose proof (lru_step_refines OpEvict p Hok) as Hs. cbn in Hs.
  destruct (lru_Evict p) as [[k|] p'] eqn:E; destruct Hs as [_ [= Hl Ht]]; simpl.
  - split; [by apply last_elem_of|]. by rewrite <-Ht, del_last; [|apply lru_view_NoDup|].
  - apply last_None in Hl. by rewrite Hl in *.
Qed.

#[global] Program Instance lru_laws : PolicyLaws LRUPolicy := {|
  policy_ok := lru_ok;
  policy_tracks _ := true;
  policy_keys p := list_to_set (lru_view p);
|}.
Next Obligation.
  intros k p Hok. destruct (lru_step_refines (OpAccess k) p Hok) as [? Hs].
  split; [done|]. injection Hs as Hs. cbn -[lru_OnAccess]. rewrite <-Hs.
  split; [|done]. case_decide; [|done]. rewrite list_to_set_cons, lru_view_set_del.
  apply set_eq. intros j. destruct (decide (j = k)); set_solver.
Qed.
Next Obligation.
  intros k p Hok. destruct (lru_step_refines (OpAdd k) p Hok) as [? Hs].
  split; [done|]. injection Hs as Hs. cbn -[lru_OnAdd]. rewrite <-Hs.
  split; [|done]. rewrite list_to_set_cons, lru_view_set_del. apply set_eq. intros j.
  destruct (decide (j = k)); set_solver.
Qed.
Next Obligation.
  intros k p Hok. destruct (lru_step_refines (OpRemove k) p Hok) as [? Hs].
  split; [done|]. injection Hs as Hs. cbn -[lru_OnRemove]. rewrite <-Hs.
  split; [|done]. apply lru_view_set_del.
Qed.
Next Obligation.
  intros p Hok. pose proof (lru_step_refines OpEvict p Hok) as Hs.
  pose proof (lru_evict_view p Hok) as Hv. cbn in Hs |- *.
  destruct (lru_Evict p) as [[k|] p'] eqn:E; simpl in *.
  - destruct Hs as [? _]. destruct Hv as [Hin ->]. split_and!; [done|done|set_solver|].
    apply lru_view_set_del.
  - destruct Hs as [? _]. destruct Hv as [-> ->]. done.
Qed.
Next Obligation. done. Qed.

(** ** Properties *)

(** C39 (refinement): over any sequence of OnAccess, OnAdd, OnRemove, Evict and
    Clear calls on a new LRU policy, the keys [Evict] returns are those of the
    abstract recency list (accessed or added keys move to the front, [Evict]
    takes the last), and the element list spells that recency list. *)
Theorem lru_refines_recency ops :
  let '(outs, p) := pol_run ops NewLRU in
  pol_run ops ([] : list string) = (outs, lru_view p).
Proof.
  pose proof (lru_run_refines ops NewLRU NewLRU_ok) as H.
  destruct (pol_run ops NewLRU) as [outs p]. apply H.
Qed.
