(* ===== verification/Lfu.v ===== *)
(** * The LFU policy (lfu.go)

    The operations of [LFUPolicy] on its maps of elements and buckets, the
    invariant that ties them, the frequency each operation leaves a key with, and
    what [Evict] returns. *)

From stdpp Require Import base tactics numbers list gmap sets fin_maps strings.
From S2P Require Import Prelude.
From S2P Require Import Policy.
Import GoList GoListFacts.

(** ** LFU *)

Record lfuItem : Type := mkItem { it_key : string; it_freq : Z }.

(** An element's item changes only in [bump], after the element has left its
    list and just before the item enters a new one: an element holds its item by
    value.  A frequency counts the accesses to one key, far below [int]'s range. *)
Record LFUPolicy : Type := mkLFU {
  items : gmap string (element lfuItem);
  freqLists : gmap Z (list (element lfuItem));
  minFreq : Z;
  lfu_next : nat;
}.

Definition NewLFU : LFUPolicy := mkLFU ∅ ∅ 0 0.

Section LFU.
Context `{MI : MapIter}.

(** The loop of [scanMinFreq] over the keys in iteration order. *)
Fixpoint scan_min (fs : list Z) (mn : Z) : Z :=
  match fs with
  | [] => mn
  | f :: fs => scan_min fs (if (mn <? 0) || (f <? mn) then f else mn)
  end.

Definition scanMinFreq (p : LFUPolicy) : Z :=
  if decide (size (freqLists p) = 0%nat) then 0
  else
    let mn := scan_min (map_iter (freqLists p)).*1 (-1) in
    if mn <? 0 then 0 else mn.

(** The bucket of an element is always present ([lfu_ok]); [default []] stands
    for the nil list that would be dereferenced otherwise. *)
Definition removeFromBucket (elem : element lfuItem) (freq : Z) (p : LFUPolicy) : LFUPolicy :=
  let bucket := remove elem (default [] (freqLists p !! freq)) in
  if decide (bucket = []) then
    let p := mkLFU (items p) (delete freq (freqLists p)) (minFreq p) (lfu_next p) in
    if minFreq p =? freq
    then mkLFU (items p) (freqLists p) (scanMinFreq p) (lfu_next p)
    else p
  else mkLFU (items p) (<[freq := bucket]> (freqLists p)) (minFreq p) (lfu_next p).

(** Go's [int] holds the frequency; 2^63 accesses would wrap it, which is left out. *)
Definition bump (key : string) (p : LFUPolicy) : LFUPolicy :=
  match items p !! key with
  | None => p
  | Some elem =>
      let item := el_val elem in
      let p := removeFromBucket elem (it_freq item) p in
      let item := mkItem (it_key item) (it_freq item + 1) in
      let bucket := default [] (freqLists p !! it_freq item) in
      let e := Element (lfu_next p) item in
      mkLFU (<[key := e]> (items p))
            (<[it_freq item := push_back e bucket]> (freqLists p))
            (minFreq p) (S (lfu_next p))
  end.

Definition lfu_OnAccess (key : string) (p : LFUPolicy) : LFUPolicy := bump key p.

Definition lfu_OnAdd (key : string) (p : LFUPolicy) : LFUPolicy :=
  match items p !! key with
  | Some _ => bump key p
  | None =>
      let item := mkItem key 1 in
      let bucket := default [] (freqLists p !! 1) in
      let e := Element (lfu_next p) item in
      mkLFU (<[key := e]> (items p)) (<[1 := push_back e bucket]> (freqLists p))
            1 (S (lfu_next p))
  end.

Definition lfu_OnRemove (key : string) (p : LFUPolicy) : LFUPolicy :=
  match items p !! key with
  | None => p
  | Some elem =>
      let p := removeFromBucket elem (it_freq (el_val elem)) p in
      mkLFU (delete key (items p)) (freqLists p) (minFreq p) (lfu_next p)
  end.

(** The tail of [Evict], once a bucket is chosen. *)
Definition lfu_evict_front (bucket : list (element lfuItem)) (p : LFUPolicy) :
    option string * LFUPolicy :=
  match bucket with
  | [] => (None, p)
  | elem :: _ =>
      let item := el_val elem in
      let p := removeFromBucket elem (it_freq item) p in
      (Some (it_key item),
       mkLFU (delete (it_key item) (items p)) (freqLists p) (minFreq p) (lfu_next p))
  end.

Definition lfu_Evict (p : LFUPolicy) : option string * LFUPolicy :=
  if decide (size (items p) = 0%nat) then (None, p)
  else
    match freqLists p !! minFreq p with
    | Some ((_ :: _) as bucket) => lfu_evict_front bucket p
    | _ =>
        let p := mkLFU (items p) (freqLists p) (scanMinFreq p) (lfu_next p) in
        if minFreq p =? 0 then (None, p)
        else lfu_evict_front (default [] (freqLists p !! minFreq p)) p
    end.

Definition lfu_Len (p : LFUPolicy) : Z := Z.of_nat (size (items p)).

Definition lfu_Clear (p : LFUPolicy) : LFUPolicy := mkLFU ∅ ∅ 0 (lfu_next p).

#[global] Instance lfu_policy : EvictionPolicy LFUPolicy := {|
  Name _ := "lfu"%string;
  OnAccess := lfu_OnAccess;
  OnAdd := lfu_OnAdd;
  OnRemove := lfu_OnRemove;
  Evict := lfu_Evict;
  PolLen := lfu_Len;
  Clear := lfu_Clear;
|}.

(** ** The abstract policy: how often each key was used *)

Definition lfu_counts (p : LFUPolicy) : gmap string Z :=
  (fun e => it_freq (el_val e)) <$> items p.

(** A step of a frequency map: an eviction takes some key, none only when there
    is no key. *)
Inductive lfu_spec_step : pol_op -> gmap string Z -> list (option string) -> gmap string Z -> Prop :=
| spec_access k m : lfu_spec_step (OpAccess k) m [] (alter Z.succ k m)
| spec_add_old k n m : m !! k = Some n ->
    lfu_spec_step (OpAdd k) m [] (<[k := n + 1]> m)
| spec_add_new k m : m !! k = None ->
    lfu_spec_step (OpAdd k) m [] (<[k := 1]> m)
| spec_remove k m : lfu_spec_step (OpRemove k) m [] (delete k m)
| spec_evict k m : is_Some (m !! k) ->
    lfu_spec_step OpEvict m [Some k] (delete k m)
| spec_evict_none : lfu_spec_step OpEvict ∅ [None] ∅
| spec_clear m : lfu_spec_step OpClear m [] ∅.

Inductive lfu_spec_run : list pol_op -> gmap string Z -> list (option string) -> gmap string Z -> Prop :=
| spec_run_nil m : lfu_spec_run [] m [] m
| spec_run_cons o ops m out m' outs m'' :
    lfu_spec_step o m out m' -> lfu_spec_run ops m' outs m'' ->
    lfu_spec_run (o :: ops) m (out ++ outs) m''.

(** ** The invariant *)

Record lfu_ok (p : LFUPolicy) : Prop := {
  lfu_item k e : items p !! k = Some e ->
    it_key (el_val e) = k /\
    exists b, freqLists p !! it_freq (el_val e) = Some b /\ e ∈ b;
  lfu_bucket f b e : freqLists p !! f = Some b -> e ∈ b ->
    it_freq (el_val e) = f /\ items p !! it_key (el_val e) = Some e;
  lfu_nonempty f b : freqLists p !! f = Some b ->
    b <> [] /\ 1 <= f /\ NoDup (el_id <$> b);
  lfu_fresh k e : items p !! k = Some e -> (el_id e < lfu_next p)%nat;
}.

(** ** Lemmas *)

Lemma removeFromBucket_items elem f p :
  items (removeFromBucket elem f p) = items p /\
  lfu_next (removeFromBucket elem f p) = lfu_next p.
Proof. unfold removeFromBucket. by repeat case_match. Qed.

Lemma removeFromBucket_lists elem f p g :
  freqLists (removeFromBucket elem f p) !! g =
  if decide (g = f) then
    let b := remove elem (default [] (freqLists p !! f)) in
    if decide (b = []) then None else Some b
  else freqLists p !! g.
Proof.
  unfold removeFromBucket. simpl. case_decide as Hb; case_decide; subst.
  - case_match; simpl; by rewrite lookup_delete_eq.
  - case_match; simpl; by rewrite lookup_delete_ne.
  - simpl. by rewrite lookup_insert_eq.
  - simpl. by rewrite lookup_insert_ne.
Qed.

(** Removing a key with its element keeps the invariant. *)
Lemma lfu_drop_ok p key elem mn nx :
  lfu_ok p -> items p !! key = Some elem -> (lfu_next p <= nx)%nat ->
  lfu_ok (mkLFU (delete key (items p))
            (freqLists (removeFromBucket elem (it_freq (el_val elem)) p)) mn nx).
Proof.
  intros Hok Hk Hnx. destruct (lfu_item p Hok _ _ Hk) as (Hkey & b & Hb & Hin).
  destruct (lfu_nonempty p Hok _ _ Hb) as (_ & _ & Hnd).
  split; simpl.
  - intros k e [Hne He]%lookup_delete_Some.
    destruct (lfu_item p Hok _ _ He) as (Hke & be & Hbe & Hine).
    split; [done|]. rewrite removeFromBucket_lists. case_decide as Hf; [|by eauto].
    rewrite Hb. rewrite Hf, Hb in Hbe. injection Hbe as <-. simpl.
    assert (e ∈ remove elem b) as Hr.
    { apply elem_of_remove. split; [done|]. intros Hid.
      apply Hne. rewrite <-Hke, <-Hkey. f_equal. f_equal. symmetry.
      by eapply elem_id_inj. }
    rewrite decide_False by (intros Heq; by rewrite Heq in Hr; apply not_elem_of_nil in Hr).
    eauto.
  - intros f b' e. rewrite removeFromBucket_lists. case_decide as Hf.
    + subst f. rewrite Hb. simpl. case_decide; [done|]. intros [= <-] [He Hid]%elem_of_remove.
      destruct (lfu_bucket p Hok _ _ _ Hb He) as [Hfe Hie]. split; [done|].
      apply lookup_delete_Some. split; [|done]. intros Heq. congruence.
    + intros Hb' He. destruct (lfu_bucket p Hok _ _ _ Hb' He) as [Hfe Hie]. split; [done|].
      apply lookup_delete_Some. split; [|done]. intros Heq. congruence.
  - intros f b'. rewrite removeFromBucket_lists. case_decide as Hf.
    + subst f. rewrite Hb. simpl. case_decide; [done|]. intros [= <-].
      split_and!; [done|by eapply lfu_nonempty|by apply NoDup_remove].
    + by apply lfu_nonempty.
  - intros k e [_ He]%lookup_delete_Some. apply lfu_fresh in He; [lia|done].
Qed.

(** Entering a new item at the end of its bucket keeps the invariant. *)
Lemma lfu_push_ok p key f mn nx :
  let e := Element nx (mkItem key f) in
  lfu_ok p -> items p !! key = None -> 1 <= f -> (lfu_next p <= nx)%nat ->
  lfu_ok (mkLFU (<[key := e]> (items p))
            (<[f := push_back e (default [] (freqLists p !! f))]> (freqLists p)) mn (S nx)).
Proof.
  intros e Hok Hk Hf Hnx. unfold push_back.
  assert (forall x, x ∈ default [] (freqLists p !! f) ->
    it_freq (el_val x) = f /\ items p !! it_key (el_val x) = Some x) as Hold.
  { intros x. destruct (freqLists p !! f) as [b|] eqn:Hb; simpl; [|by intros ?%not_elem_of_nil].
    intros Hx. by eapply lfu_bucket. }
  split; simpl.
  - intros k x. rewrite lookup_insert_Some. intros [[<- <-]|[Hne Hx]].
    + split; [done|]. simpl. rewrite lookup_insert_eq. eexists. split; [done|]. set_solver.
    + destruct (lfu_item p Hok _ _ Hx) as (? & b & Hb & Hin). split; [done|].
      rewrite lookup_insert. case_decide as Hg; [|by eauto].
      eexists. split; [done|]. rewrite Hg, Hb. set_solver.
  - intros g b x. rewrite lookup_insert_Some. intros [[<- <-]|[Hne Hb]] Hx.
    + apply elem_of_app in Hx as [Hx|Hx].
      * destruct (Hold _ Hx) as [? Hi]. split; [done|].
        rewrite lookup_insert_ne; [done|]. congruence.
      * apply list_elem_of_singleton in Hx as ->.
        split; [done|]. simpl. by rewrite lookup_insert_eq.
    + destruct (lfu_bucket p Hok _ _ _ Hb Hx) as [? Hi]. split; [done|].
      rewrite lookup_insert_ne; [done|]. congruence.
  - intros g b. rewrite lookup_insert_Some. intros [[<- <-]|[Hne Hb]]; [|by eapply lfu_nonempty].
    split_and!; [by destruct (default _ _)|done|].
    rewrite fmap_app, NoDup_app. split_and!; [|intros i Hi|simpl; apply NoDup_singleton].
    + destruct (freqLists p !! f) as [b|] eqn:Hb; simpl; [by eapply lfu_nonempty|constructor].
    + apply list_elem_of_fmap in Hi as (x & -> & [_ Hi]%Hold). simpl.
      rewrite list_elem_of_singleton. apply lfu_fresh in Hi; [lia|done].
  - intros k x. rewrite lookup_insert_Some. intros [[_ <-]|[_ Hx]]; simpl; [lia|].
    apply lfu_fresh in Hx; [lia|done].
Qed.

Lemma bump_ok p key : lfu_ok p -> lfu_ok (bump key p).
Proof.
  intros Hok. unfold bump. destruct (items p !! key) as [elem|] eqn:Hk; [|done].
  destruct (removeFromBucket_items elem (it_freq (el_val elem)) p) as [Hi Hn].
  destruct (lfu_item p Hok _ _ Hk) as (Hkey & b & Hb & Hin). rewrite Hi, Hn, Hkey. simpl.
  pose proof (lfu_drop_ok p key elem (minFreq p) _ Hok Hk (Nat.le_refl _)) as Hd.
  destruct (lfu_nonempty p Hok _ _ Hb) as (_ & Hf & _).
  pose proof (lfu_push_ok _ key (it_freq (el_val elem) + 1)
    (minFreq (removeFromBucket elem (it_freq (el_val elem)) p)) (lfu_next p) Hd) as Hp.
  simpl in Hp. rewrite insert_delete_eq in Hp.
  apply Hp; [by rewrite lookup_delete_eq|lia|lia].
Qed.

Lemma lfu_counts_lookup p k : lfu_counts p !! k = (fun e => it_freq (el_val e)) <$> items p !! k.
Proof. apply lookup_fmap. Qed.

Lemma bump_counts p key : lfu_counts (bump key p) = alter Z.succ key (lfu_counts p).
Proof.
  unfold bump. destruct (items p !! key) as [elem|] eqn:Hk.
  - destruct (removeFromBucket_items elem (it_freq (el_val elem)) p) as [Hi _].
    unfold lfu_counts; simpl. rewrite Hi, fmap_insert. simpl.
    apply map_eq. intros j. rewrite lookup_insert, lookup_alter, !lookup_fmap.
    case_decide; subst; [|done]. by rewrite Hk.
  - symmetry. apply alter_id. intros n. rewrite lfu_counts_lookup, Hk. done.
Qed.

(** *** The scan *)

Lemma scan_min_spec fs mn :
  Forall (Z.le 1) fs -> 0 <= mn ->
  (scan_min fs mn = mn \/ scan_min fs mn ∈ fs) /\ scan_min fs mn <= mn /\
  forall f, f ∈ fs -> scan_min fs mn <= f.
Proof.
  revert mn. induction fs as [|f fs IH]; intros mn Hfs Hmn; simpl.
  - split_and!; [by left|lia|by intros ? ?%not_elem_of_nil].
  - apply Forall_cons in Hfs as [Hf Hfs].
    assert ((if (mn <? 0) || (f <? mn) then f else mn) = Z.min f mn) as -> by
      (destruct (Z.ltb_spec mn 0), (Z.ltb_spec f mn); simpl; lia).
    destruct (IH (Z.min f mn) Hfs ltac:(lia)) as (Hin & Hle & Hall). split_and!.
    + destruct Hin as [->|Hin]; [|by right; right].
      destruct (Z.min_spec f mn) as [[_ ->]|[_ ->]]; [right; left|left]; done.
    + lia.
    + intros g [->|Hg]%elem_of_cons; [lia|by apply Hall].
Qed.

(** Every bucket's frequency is positive. *)
Definition freqs_pos (p : LFUPolicy) : Prop :=
  forall f, is_Some (freqLists p !! f) -> 1 <= f.

Lemma lfu_ok_pos p : lfu_ok p -> freqs_pos p.
Proof. intros Hok f [b Hb]. by eapply lfu_nonempty. Qed.

Lemma scanMinFreq_spec p :
  freqs_pos p ->
  (freqLists p = ∅ /\ scanMinFreq p = 0) \/
  (is_Some (freqLists p !! scanMinFreq p) /\
   forall g, is_Some (freqLists p !! g) -> scanMinFreq p <= g).
Proof.
  intros Hpos. unfold scanMinFreq. case_decide as Hsz.
  { left. by apply map_size_empty_inv in Hsz. }
  right.
  assert (forall g, g ∈ (map_iter (freqLists p)).*1 <-> is_Some (freqLists p !! g)) as Hdom.
  { intros g. rewrite list_elem_of_fmap. split.
    - intros ([g' b] & -> & Hin%elem_of_map_iter). eauto.
    - intros [b Hb]. exists (g, b). split; [done|]. by apply elem_of_map_iter. }
  assert (Forall (Z.le 1) (map_iter (freqLists p)).*1) as Hall.
  { apply Forall_forall. intros g Hg%Hdom. by apply Hpos. }
  destruct (map_iter (freqLists p)).*1 as [|f fs] eqn:Hfs.
  { apply (f_equal length) in Hfs. rewrite length_fmap, length_map_iter in Hfs. done. }
  simpl. apply Forall_cons in Hall as [Hf Hall].
  destruct (scan_min_spec fs f Hall ltac:(lia)) as (Hin & Hle & Hmin).
  assert (1 <= scan_min fs f) as Hge.
  { destruct Hin as [->|Hin]; [done|]. by eapply Forall_forall in Hall. }
  destruct (Z.ltb_spec (scan_min fs f) 0); [lia|]. split.
  - apply Hdom. set_solver.
  - intros g [->|Hg]%Hdom%elem_of_cons; [lia|by apply Hmin].
Qed.

Lemma lfu_lists_empty p : lfu_ok p -> freqLists p = ∅ <-> items p = ∅.
Proof.
  intros Hok. split; intros Hem; apply map_eq; intros x; rewrite lookup_empty.
  - destruct (items p !! x) as [e|] eqn:He; [|done].
    destruct (lfu_item p Hok _ _ He) as (_ & b & Hb & _). by rewrite Hem in Hb.
  - destruct (freqLists p !! x) as [b|] eqn:Hb; [|done].
    destruct (lfu_nonempty p Hok _ _ Hb) as (Hne & _). destruct b as [|e b]; [done|].
    destruct (lfu_bucket p Hok _ _ e Hb) as [_ Hi]; [by left|]. by rewrite Hem in Hi.
Qed.

(** The frequency [Evict] serves from. *)
Definition evict_freq (p : LFUPolicy) : Z :=
  if decide (is_Some (freqLists p !! minFreq p)) then minFreq p else scanMinFreq p.

Lemma lfu_ok_min p mn : lfu_ok p -> lfu_ok (mkLFU (items p) (freqLists p) mn (lfu_next p)).
Proof. intros []. by split. Qed.

Lemma lfu_evict_front_spec p f e b :
  lfu_ok p -> freqLists p !! f = Some (e :: b) ->
  let '(k, p') := lfu_evict_front (e :: b) p in
  k = Some (it_key (el_val e)) /\ it_freq (el_val e) = f /\ lfu_ok p' /\
  items p !! it_key (el_val e) = Some e /\
  items p' = delete (it_key (el_val e)) (items p).
Proof.
  intros Hok Hb. destruct (lfu_bucket p Hok _ _ e Hb) as [Hf Hi]; [by left|].
  simpl. destruct (removeFromBucket_items e (it_freq (el_val e)) p) as [-> ->].
  split_and!; [done|done| |done|done]. by eapply lfu_drop_ok.
Qed.

(** [Evict] serves the front of the bucket at [evict_freq]. *)
Lemma lfu_Evict_spec p :
  lfu_ok p ->
  (items p = ∅ /\ lfu_Evict p = (None, p)) \/
  exists e b p',
    freqLists p !! evict_freq p = Some (e :: b) /\ it_freq (el_val e) = evict_freq p /\
    items p !! it_key (el_val e) = Some e /\
    lfu_Evict p = (Some (it_key (el_val e)), p') /\ lfu_ok p' /\
    items p' = delete (it_key (el_val e)) (items p).
Proof.
  intros Hok. unfold lfu_Evict, evict_freq. case_decide as Hsz.
  { left. by apply map_size_empty_inv in Hsz. }
  right. assert (items p <> ∅) as Hne by (intros Heq; by rewrite Heq in Hsz).
  destruct (freqLists p !! minFreq p) as [[|e b]|] eqn:Hb.
  - by destruct (lfu_nonempty p Hok _ _ Hb).
  - pose proof (lfu_evict_front_spec p _ e b Hok Hb) as Hs.
    destruct (lfu_evict_front (e :: b) p) as [k p']. destruct Hs as (-> & Hf & Hok' & Hi & Hd).
    rewrite decide_True by eauto. exists e, b, p'. by split_and!.
  - rewrite decide_False by (by intros []). simpl.
    destruct (scanMinFreq_spec p (lfu_ok_pos p Hok)) as [[Hem _]|[[b' Hb'] Hmin]];
      [by apply lfu_lists_empty in Hem|].
    destruct (lfu_nonempty p Hok _ _ Hb') as (Hnil & Hpos & _).
    destruct (Z.eqb_spec (scanMinFreq p) 0); [lia|]. rewrite Hb'.
    destruct b' as [|e b]; [done|]. change (default [] (Some (e :: b))) with (e :: b).
    set (q := mkLFU _ _ _ _).
    pose proof (lfu_evict_front_spec q (scanMinFreq p) e b (lfu_ok_min p _ Hok) Hb') as Hs.
    destruct (lfu_evict_front (e :: b) q) as [k p']. destruct Hs as (-> & Hf & Hok' & Hi & Hd).
    exists e, b, p'. by split_and!.
Qed.

Lemma NewLFU_ok : lfu_ok NewLFU.
Proof. split; simpl; intros *; by rewrite lookup_empty. Qed.

Lemma lfu_Clear_ok p : lfu_ok (lfu_Clear p).
Proof. split; simpl; intros *; by rewrite lookup_empty. Qed.

Lemma lfu_OnAdd_ok p key : lfu_ok p -> lfu_ok (lfu_OnAdd key p).
Proof.
  intros Hok. unfold lfu_OnAdd. destruct (items p !! key) eqn:Hk; [by apply bump_ok|].
  by apply (lfu_push_ok p key 1 1 (lfu_next p)).
Qed.

Lemma lfu_OnRemove_ok p key : lfu_ok p -> lfu_ok (lfu_OnRemove key p).
Proof.
  intros Hok. unfold lfu_OnRemove. destruct (items p !! key) as [elem|] eqn:Hk; [|done].
  destruct (removeFromBucket_items elem (it_freq (el_val elem)) p) as [-> ->].
  by eapply lfu_drop_ok.
Qed.

Lemma lfu_OnRemove_items p key : items (lfu_OnRemove key p) = delete key (items p).
Proof.
  unfold lfu_OnRemove. destruct (items p !! key) as [elem|] eqn:Hk.
  - by destruct (removeFromBucket_items elem (it_freq (el_val elem)) p) as [-> _].
  - by rewrite delete_id.
Qed.

Lemma lfu_step_refines o p :
  lfu_ok p ->
  let '(out, p') := pol_step o p in
  lfu_ok p' /\ lfu_spec_step o (lfu_counts p) out (lfu_counts p').
Proof.
  intros Hok.
  destruct o as [key|key|key| |]; cbn [pol_step OnAccess OnAdd OnRemove Evict Clear lfu_policy].
  - split; [by apply bump_ok|]. unfold lfu_OnAccess. rewrite bump_counts. constructor.
  - split; [by apply lfu_OnAdd_ok|]. unfold lfu_OnAdd.
    destruct (items p !! key) as [elem|] eqn:Hk.
    + assert (lfu_counts p !! key = Some (it_freq (el_val elem))) as Hc
        by (by rewrite lfu_counts_lookup, Hk).
      rewrite bump_counts.
      replace (alter _ _ _) with (<[key := it_freq (el_val elem) + 1]> (lfu_counts p)).
      * by constructor.
      * apply map_eq. intros j. rewrite lookup_insert, lookup_alter.
        case_decide; [subst; by rewrite Hc|done].
    + unfold lfu_counts at 2. simpl. rewrite fmap_insert.
      constructor. by rewrite lookup_fmap, Hk.
  - split; [by apply lfu_OnRemove_ok|].
    unfold lfu_counts at 2. rewrite lfu_OnRemove_items, fmap_delete. constructor.
  - destruct (lfu_Evict_spec p Hok) as [[Hi ->]|(e & b & p' & Hb & Hf & Hi & -> & Hok' & Hd)].
    + split; [done|]. unfold lfu_counts. rewrite Hi, fmap_empty. constructor.
    + split; [done|]. unfold lfu_counts at 2. rewrite Hd, fmap_delete. constructor.
      rewrite lookup_fmap, Hi. by eexists.
  - split; [apply lfu_Clear_ok|]. unfold lfu_counts, lfu_Clear. simpl. rewrite fmap_empty. constructor.
Qed.

Lemma lfu_run_refines ops p :
  lfu_ok p ->
  let '(outs, p') := pol_run ops p in
  lfu_ok p' /\ lfu_spec_run ops (lfu_counts p) outs (lfu_counts p').
Proof.
  revert p. induction ops as [|o ops IH]; intros p Hok; [split; [done|constructor]|].
  cbn [pol_run]. pose proof (lfu_step_refines o p Hok) as Hs.
  destruct (pol_step o p) as [out p']. destruct Hs as [Hok' Hs].
  specialize (IH p' Hok'). destruct (pol_run ops p') as [outs p''].
  destruct IH as [? Hr]. split; [done|]. by econstructor.
Qed.

(** ** The laws a shard relies on *)

Lemma lfu_counts_dom p : dom (lfu_counts p) = dom (items p).
Proof. apply dom_fmap_L. Qed.

#[global] Program Instance lfu_laws : PolicyLaws LFUPolicy := {|
  policy_ok := lfu_ok;
  policy_tracks _ := true;
  policy_keys p := dom (items p);
|}.
Next Obligation.
  intros k p Hok. split; [by apply bump_ok|]. split; [|done].
  cbn [OnAccess lfu_policy]. unfold lfu_OnAccess.
  by rewrite <-!lfu_counts_dom, bump_counts, dom_alter_L.
Qed.
Next Obligation.
  intros k p Hok. split; [by apply lfu_OnAdd_ok|]. split; [|done].
  cbn [OnAdd lfu_policy]. unfold lfu_OnAdd. destruct (items p !! k) as [e|] eqn:Hk.
  - rewrite <-!lfu_counts_dom, bump_counts, dom_alter_L, lfu_counts_dom.
    apply elem_of_dom_2 in Hk. set_solver.
  - simpl. by rewrite dom_insert_L.
Qed.
Next Obligation.
  intros k p Hok. split; [by apply lfu_OnRemove_ok|]. split; [|done].
  cbn [OnRemove lfu_policy]. by rewrite lfu_OnRemove_items, dom_delete_L.
Qed.
Next Obligation.
  intros p Hok. cbn [Evict lfu_policy].
  destruct (lfu_Evict_spec p Hok) as [[Hi ->]|(e & b & p' & Hb & Hf & Hi & -> & Hok' & Hd)]; simpl.
  - rewrite Hi, dom_empty_L. done.
  - split_and!; [done|done|by eapply elem_of_dom_2|]. by rewrite Hd, dom_delete_L.
Qed.
Next Obligation. done. Qed.

(** ** Properties *)

(** C40 (refinement): over any sequence of policy calls on a new LFU policy, each
    key's frequency is 1 plus the number of times it was accessed or re-added
    since it entered, and [Evict] returns a key the policy holds, which it
    forgets, or none exactly when the policy holds no key. *)
Theorem lfu_refines_counts ops :
  let '(outs, p) := pol_run ops NewLFU in
  lfu_spec_run ops ∅ outs (lfu_counts p).
Proof.
  pose proof (lfu_run_refines ops NewLFU NewLFU_ok) as H.
  destruct (pol_run ops NewLFU) as [outs p]. destruct H as [_ H].
  unfold lfu_counts at 1 in H. simpl in H. by rewrite fmap_empty in H.
Qed.

(** In a policy built by policy calls, an [Evict] that follows
    the entry of a new key (what [shard.Set] does) returns the key that has been
    longest in the bucket of frequency 1, and no key has a lower frequency. *)
Theorem lfu_evict_after_add ops key :
  let p := (pol_run ops NewLFU).2 in
  items p !! key = None ->
  exists e b,
    freqLists (lfu_OnAdd key p) !! 1 = Some (e :: b) /\
    (lfu_Evict (lfu_OnAdd key p)).1 = Some (it_key (el_val e)) /\
    lfu_counts (lfu_OnAdd key p) !! it_key (el_val e) = Some 1 /\
    forall k n, lfu_counts (lfu_OnAdd key p) !! k = Some n -> 1 <= n.
Proof.
  intros p Hk. pose proof (lfu_run_refines ops NewLFU NewLFU_ok) as Hr. subst p.
  destruct (pol_run ops NewLFU) as [outs p]. destruct Hr as [Hok _]. simpl in *.
  assert (Hok' := lfu_OnAdd_ok p key Hok).
  assert (evict_freq (lfu_OnAdd key p) = 1) as Hef.
  { unfold evict_freq, lfu_OnAdd. rewrite Hk. simpl.
    rewrite decide_True; [done|]. rewrite lookup_insert_eq. eauto. }
  destruct (lfu_Evict_spec _ Hok') as [[Hi _]|(e & b & p' & Hb & Hf & Hi & -> & _)].
  { unfold lfu_OnAdd in Hi. rewrite Hk in Hi. simpl in Hi. by apply insert_non_empty in Hi. }
  rewrite Hef in Hb, Hf. exists e, b. split_and!; [done|done|by rewrite lfu_counts_lookup, Hi, <-Hf|].
  intros k n. rewrite lfu_counts_lookup, fmap_Some. intros (x & Hx & ->).
  destruct (lfu_item _ Hok' _ _ Hx) as (_ & bx & Hbx & _). by eapply lfu_nonempty.
Qed.

End LFU.

(** ** The map iteration order does not matter *)

Section Order.
Context (M1 M2 : MapIter).

Lemma scanMinFreq_order p : freqs_pos p -> @scanMinFreq M1 p = @scanMinFreq M2 p.
Proof.
  intros Hp.
  destruct (@scanMinFreq_spec M1 p Hp) as [[H1 ->]|[H1 Hm1]],
           (@scanMinFreq_spec M2 p Hp) as [[H2 ->]|[H2 Hm2]]; [done| | |].
  - rewrite H1, lookup_empty in H2. by destruct H2.
  - rewrite H2, lookup_empty in H1. by destruct H1.
  - apply Hm1 in H2. apply Hm2 in H1. lia.
Qed.

Lemma removeFromBucket_order elem f p :
  freqs_pos p -> @removeFromBucket M1 elem f p = @removeFromBucket M2 elem f p.
Proof.
  intros Hp. unfold removeFromBucket. case_decide; [|done]. simpl.
  rewrite scanMinFreq_order; [done|]. intros g. simpl.
  rewrite lookup_delete_is_Some. intros [_ Hg]. by apply Hp.
Qed.

Lemma lfu_evict_front_order b p :
  freqs_pos p -> @lfu_evict_front M1 b p = @lfu_evict_front M2 b p.
Proof. intros Hp. destruct b; [done|]. simpl. by rewrite removeFromBucket_order. Qed.

Lemma lfu_step_order o p :
  lfu_ok p -> pol_step (EP := @lfu_policy M1) o p = pol_step (EP := @lfu_policy M2) o p.
Proof.
  intros Hp%lfu_ok_pos.
  assert (forall key, @bump M1 key p = @bump M2 key p) as Hb.
  { intros key. unfold bump. case_match; [|done]. by rewrite removeFromBucket_order. }
  destruct o as [key|key|key| |]; simpl; [| | | |done].
  - unfold lfu_OnAccess. by rewrite Hb.
  - unfold lfu_OnAdd. by rewrite Hb.
  - unfold lfu_OnRemove. case_match; [|done]. by rewrite removeFromBucket_order.
  - assert (@lfu_Evict M1 p = @lfu_Evict M2 p) as ->; [|done].
    unfold lfu_Evict. rewrite scanMinFreq_order by done. case_decide; [done|].
    destruct (freqLists p !! minFreq p) as [[|e b]|];
      [|by apply lfu_evict_front_order|]; cbv zeta; simpl minFreq;
      (destruct (_ =? 0); [done|by apply lfu_evict_front_order]).
Qed.

Lemma lfu_run_order ops p :
  lfu_ok p -> pol_run (EP := @lfu_policy M1) ops p = pol_run (EP := @lfu_policy M2) ops p.
Proof.
  revert p. induction ops as [|o ops IH]; intros p Hok; [done|]. cbn [pol_run].
  rewrite lfu_step_order by done.
  pose proof (@lfu_step_refines M2 o p Hok) as Hs.
  destruct (pol_step o p) as [out p']. destruct Hs as [Hok' _]. by rewrite IH.
Qed.

End Order.

(** The policy's memory of the minimum is not the minimum: after [bump] empties
    the bucket at [minFreq], the rescan runs before the bumped item enters its
    new bucket. *)
Definition lfu_skew_ops : list pol_op :=
  [OpAdd "b"%string; OpAccess "b"%string; OpAccess "b"%string;
   OpAdd "a"%string; OpAccess "a"%string].

(** [Evict] is documented to return the key with the lowest
    frequency, and does not: with [b] used three times and then [a] twice, it
    returns [b], whatever the map iteration order. *)
Theorem lfu_evict_not_lowest `{MI : MapIter} :
  let p := (pol_run lfu_skew_ops NewLFU).2 in
  lfu_counts p !! "a"%string = Some 2 /\ lfu_counts p !! "b"%string = Some 3 /\
  (pol_run (lfu_skew_ops ++ [OpEvict]) NewLFU).1 = [Some "b"%string].
Proof.
  rewrite !(lfu_run_order MI trie_order) by apply NewLFU_ok. by vm_compute.
Qed.

Lemma lfu_evict_after_add_witness :
  (lfu_Evict (MI := trie_order) (lfu_OnAdd (MI := trie_order) "c"%string
     (pol_run (EP := lfu_policy (MI := trie_order)) lfu_skew_ops NewLFU).2)).1 = Some "c"%string.
Proof.
  destruct (lfu_evict_after_add (MI := trie_order) lfu_skew_ops "c"%string) as (e & b & Hb & -> & _);
    [by vm_compute|].
  vm_compute in Hb. by injection Hb as <- _.
Defined.
