(* ===== verification/DList.v ===== *)
(** * The list data structure (ds/list/list.go)

    A [List] is the sequence of its strings.  Loops over [container/list] nodes
    are recursions on that sequence; Go's [int] arguments are integers, with the
    wrap-around written out where an operation can leave the range. *)

From stdpp Require Import base tactics numbers list strings.
From S2P Require Import Prelude.

Notation GList := (list string).

Definition New : GList := [].

Definition LLen (l : GList) : Z := Z.of_nat (length l).

Definition LPush (elems : list string) (l : GList) : Z * GList :=
  let l := foldl (fun l e => e :: l) l elems in (LLen l, l).

Definition RPush (elems : list string) (l : GList) : Z * GList :=
  let l := foldl (fun l e => l ++ [e]) l elems in (LLen l, l).

Definition LPop (l : GList) : option string * GList :=
  match l with
  | [] => (None, l)
  | e :: l' => (Some e, l')
  end.

Definition RPop (l : GList) : option string * GList :=
  match last l with
  | None => (None, l)
  | Some e => (Some e, take (length l - 1) l)
  end.

Definition normalizeRange (start stop n : Z) : Z * Z :=
  let start := if start <? 0 then n + start else start in
  let stop := if stop <? 0 then n + stop else stop in
  let start := if start <? 0 then 0 else start in
  let stop := if stop >=? n then n - 1 else stop in
  (start, stop).

(** The first [n] elements of [e, e.Next(), ...]. *)
Fixpoint collect (n : nat) (e : list string) : list string :=
  match n, e with
  | S n, x :: e => x :: collect n e
  | _, _ => []
  end.

(** [n] steps of [e = e.Next()]. *)
Fixpoint advance (n : nat) (e : list string) : list string :=
  match n with
  | O => e
  | S n => advance n (tail e)
  end.

(** [None] is the nil slice. *)
Definition LRange (start stop : Z) (l : GList) : option (list string) :=
  let n := LLen l in
  if n =? 0 then None
  else
    let '(start, stop) := normalizeRange start stop n in
    if start >? stop then None
    else Some (collect (Z.to_nat (stop - start + 1)) (advance (Z.to_nat start) l)).

Definition LIndex (index : Z) (l : GList) : option string :=
  let n := LLen l in
  if n =? 0 then None
  else
    let index := if index <? 0 then n + index else index in
    if (index <? 0) || (index >=? n) then None
    else head (advance (Z.to_nat index) l).

Definition LSet (index : Z) (value : string) (l : GList) : bool * GList :=
  let n := LLen l in
  let index := if index <? 0 then n + index else index in
  if (index <? 0) || (index >=? n) then (false, l)
  else (true, <[Z.to_nat index := value]> l).

(** The removal loop, from the given end: stops at the end of the list or when
    [removed] reaches [maxRemove]. *)
Fixpoint rem_loop (value : string) (maxRemove removed : Z) (l : list string) : Z * list string :=
  match l with
  | [] => (removed, [])
  | x :: l' =>
      if removed <? maxRemove then
        if decide (x = value) then rem_loop value maxRemove (removed + 1) l'
        else let '(r, l'') := rem_loop value maxRemove removed l' in (r, x :: l'')
      else (removed, l)
  end.

Definition LRem (count : Z) (value : string) (l : GList) : Z * GList :=
  if LLen l =? 0 then (0, l)
  else if count >=? 0 then
    let maxRemove := if count =? 0 then LLen l else count in
    rem_loop value maxRemove 0 l
  else
    let maxRemove := int64 (- count) in
    let '(r, l') := rem_loop value maxRemove 0 (rev l) in (r, rev l').

Definition LTrim (start stop : Z) (l : GList) : GList :=
  let n := LLen l in
  if n =? 0 then l
  else
    let '(start, stop) := normalizeRange start stop n in
    if start >? stop then []
    else
      let l := Nat.iter (Z.to_nat start) tail l in
      Nat.iter (Z.to_nat (n - (stop + 1))) (fun l => take (length l - 1) l) l.

Fixpoint insert_at (before : bool) (pivot value : string) (l : list string) : option (list string) :=
  match l with
  | [] => None
  | x :: l' =>
      if decide (x = pivot) then
        Some (if before then value :: x :: l' else x :: value :: l')
      else cons x <$> insert_at before pivot value l'
  end.

Definition LInsert (before : bool) (pivot value : string) (l : GList) : Z * GList :=
  match insert_at before pivot value l with
  | Some l' => (LLen l', l')
  | None => (-1, l)
  end.

(** The search loop of [LPos]; [positions] grows at its end. *)
Fixpoint pos_loop (value : string) (rank count maxLen : Z) (allMatches : bool)
    (e : list string) (i found : Z) (positions : list Z) : list Z :=
  match e with
  | [] => positions
  | x :: e' =>
      if negb (i <? maxLen) then positions
      else if negb allMatches && (Z.of_nat (length positions) >=? count) then positions
      else if decide (x = value) then
        let found := found + 1 in
        let positions := if found >=? rank then positions ++ [i] else positions in
        pos_loop value rank count maxLen allMatches e' (i + 1) found positions
      else pos_loop value rank count maxLen allMatches e' (i + 1) found positions
  end.

Definition LPos (value : string) (rank count maxLen : Z) (l : GList) : list Z :=
  let n := LLen l in
  let maxLen := if (maxLen =? 0) || (maxLen >? n) then n else maxLen in
  let count := if count <? 0 then 1 else count in
  let allMatches := count =? 0 in
  pos_loop value rank count maxLen allMatches l 0 0 [].

(** [ForEach] with the accumulated effect of the callback as state. *)
Fixpoint ForEach {S} (fn : string -> S -> bool * S) (l : GList) (s : S) : S :=
  match l with
  | [] => s
  | x :: l' => let '(go, s') := fn x s in if go then ForEach fn l' s' else s'
  end.

(** ** Lemmas *)

Lemma collect_take n l : collect n l = take n l.
Proof. revert l. induction n as [|n IH]; intros [|x l]; simpl; congruence. Qed.

Lemma advance_drop n l : advance n l = drop n l.
Proof.
  revert l. induction n as [|n IH]; intros l; [done|]. simpl. rewrite IH.
  destruct l; simpl; [apply drop_nil|done].
Qed.

Lemma iter_tail_drop n (l : list string) : Nat.iter n tail l = drop n l.
Proof.
  induction n as [|n IH]; [done|]. simpl. rewrite IH. clear IH.
  revert l. induction n as [|n IH]; intros [|x l]; try done. apply IH.
Qed.

Lemma iter_drop_last n (l : list string) :
  Nat.iter n (fun l => take (length l - 1) l) l = take (length l - n) l.
Proof.
  induction n as [|n IH]; [by rewrite Nat.sub_0_r, take_ge|]. simpl. rewrite IH.
  rewrite take_take, length_take. f_equal. lia.
Qed.

Lemma LPush_spec elems l : LPush elems l = (Z.of_nat (length elems + length l), rev elems ++ l).
Proof.
  unfold LPush. replace (foldl _ l elems) with (rev elems ++ l).
  - unfold LLen. by rewrite length_app, length_rev.
  - revert l. induction elems as [|e es IH]; intros l; [done|]. simpl.
    rewrite <-IH, <-app_assoc. done.
Qed.

Lemma RPush_spec elems l : RPush elems l = (Z.of_nat (length l + length elems), l ++ elems).
Proof.
  unfold RPush. replace (foldl _ l elems) with (l ++ elems).
  - unfold LLen. by rewrite length_app.
  - revert l. induction elems as [|e es IH]; intros l; simpl; [by rewrite app_nil_r|].
    rewrite <-IH, <-app_assoc. done.
Qed.

Lemma normalizeRange_bounds start stop n :
  0 < n ->
  let '(a, b) := normalizeRange start stop n in 0 <= a /\ b < n.
Proof.
  intros Hn. unfold normalizeRange.
  repeat match goal with |- context [if ?b then _ else _] => destruct b eqn:? end; lia.
Qed.

(** The number of occurrences of [value]. *)
Definition occ (value : string) (l : list string) : nat :=
  length (filter (fun x => x = value) l).

Definition others (value : string) (l : list string) : list string :=
  filter (fun x => x <> value) l.

Lemma occ_app v l1 l2 : occ v (l1 ++ l2) = (occ v l1 + occ v l2)%nat.
Proof. unfold occ. by rewrite filter_app, length_app. Qed.

Lemma occ_rev v l : occ v (rev l) = occ v l.
Proof.
  induction l as [|x l IH]; [done|]. simpl. rewrite occ_app, IH. unfold occ.
  rewrite !filter_cons. case_decide; simpl; rewrite ?filter_nil; simpl; lia.
Qed.

Lemma others_rev v l : others v (rev l) = rev (others v l).
Proof.
  induction l as [|x l IH]; [done|]. simpl. unfold others in *. rewrite filter_app, IH.
  rewrite !filter_cons, filter_nil. case_decide; simpl; [done|by rewrite app_nil_r].
Qed.

Lemma occ_le v l : (occ v l <= length l)%nat.
Proof. apply length_filter. Qed.

(** What the removal loop does: it drops the first [min (max - removed) occ]
    occurrences and keeps everything after the last one it drops. *)
Lemma rem_loop_spec v mx r l :
  r <= mx ->
  let '(r', l') := rem_loop v mx r l in
  r' = Z.min mx (r + Z.of_nat (occ v l)) /\
  exists l1 l2, l = l1 ++ l2 /\ l' = others v l1 ++ l2 /\
    Z.of_nat (occ v l1) = r' - r.
Proof.
  revert r. induction l as [|x l IH]; intros r Hr; simpl.
  { split; [unfold occ; simpl; lia|]. exists [], []. unfold occ; simpl. split_and!; [done|done|lia]. }
  destruct (Z.ltb_spec r mx).
  - case_decide as Hx.
    + specialize (IH (r + 1) ltac:(lia)). destruct (rem_loop v mx (r + 1) l) as [r' l'].
      destruct IH as (-> & l1 & l2 & -> & -> & Ho).
      split; [unfold occ in *; rewrite filter_cons_True by done; simpl; lia|].
      exists (x :: l1), l2. split; [done|]. unfold others, occ in *.
      rewrite filter_cons_False by tauto. rewrite filter_cons_True by done.
      split; [done|]. simpl. lia.
    + specialize (IH r Hr). destruct (rem_loop v mx r l) as [r' l'].
      destruct IH as (-> & l1 & l2 & -> & -> & Ho).
      split; [unfold occ in *; by rewrite filter_cons_False|].
      exists (x :: l1), l2. split; [done|]. unfold others, occ in *.
      rewrite filter_cons_True by done. by rewrite filter_cons_False.
  - split; [unfold occ; lia|]. exists [], (x :: l). unfold occ; simpl. split_and!; [done|done|lia].
Qed.

(** The positions of [value] in [l], counted from [i]. *)
Fixpoint positions_from (value : string) (i : Z) (l : list string) : list Z :=
  match l with
  | [] => []
  | x :: l' =>
      (if decide (x = value) then [i] else []) ++ positions_from value (i + 1) l'
  end.

Lemma pos_loop_spec v rank count maxLen all e i found ps :
  i + Z.of_nat (length e) >= maxLen -> i <= maxLen ->
  (all = false -> Z.of_nat (length ps) <= count) ->
  let cand := positions_from v i (take (Z.to_nat (maxLen - i)) e) in
  let ms := drop (Z.to_nat (rank - 1 - found)) cand in
  pos_loop v rank count maxLen all e i found ps =
  ps ++ (if all then ms else take (Z.to_nat count - length ps) ms).
Proof.
  revert i found ps. induction e as [|x e IH]; intros i found ps Hlen Hi Hc; simpl.
  { rewrite take_nil. simpl. rewrite drop_nil. destruct all; by rewrite ?take_nil, ?app_nil_r. }
  destruct (Z.ltb_spec i maxLen) as [Hlt|]; simpl.
  2:{ replace (Z.to_nat (maxLen - i)) with 0%nat by lia. rewrite take_0. simpl.
      rewrite drop_nil. destruct all; by rewrite ?take_nil, ?app_nil_r. }
  replace (Z.to_nat (maxLen - i)) with (S (Z.to_nat (maxLen - (i + 1)))) by lia. simpl.
  destruct (negb all && (Z.of_nat (length ps) >=? count)) eqn:Hstop.
  { apply andb_prop in Hstop as [Ha Hge]. destruct all; [done|].
    replace (Z.to_nat count - length ps)%nat with 0%nat by lia. by rewrite take_0, app_nil_r. }
  assert (all = false -> Z.of_nat (length ps) < count) as Hc'.
  { intros ->. simpl in Hstop. lia. }
  simpl in Hlen. case_decide as Hx; simpl.
  - destruct (Z.geb_spec (found + 1) rank) as [Hge|Hlt'].
    + rewrite IH; [|lia|lia|intros Ha; specialize (Hc' Ha); rewrite length_app; simpl; lia].
      replace (Z.to_nat (rank - 1 - (found + 1))) with 0%nat by lia.
      replace (Z.to_nat (rank - 1 - found)) with 0%nat by lia. simpl.
      rewrite <-app_assoc, length_app. simpl. f_equal. destruct all; [done|].
      specialize (Hc' eq_refl).
      replace (Z.to_nat count - length ps)%nat
        with (S (Z.to_nat count - (length ps + 1))) by lia. done.
    + rewrite IH by (auto || lia).
      replace (Z.to_nat (rank - 1 - found)) with (S (Z.to_nat (rank - 1 - (found + 1)))) by lia.
      done.
  - rewrite IH by (auto || lia). done.
Qed.

(** ** Properties *)

(** [LTrim] keeps exactly the elements [LRange] returns for the
    same arguments, and [LRange] is the contiguous block of the list between the
    normalised bounds, every element of it inside the list. *)
Theorem ltrim_is_lrange start stop l :
  LTrim start stop l = default [] (LRange start stop l) /\
  forall r, LRange start stop l = Some r ->
    let '(a, b) := normalizeRange start stop (LLen l) in
    LLen r = b - a + 1 /\
    forall i, 0 <= i < LLen r -> r !! Z.to_nat i = l !! Z.to_nat (a + i).
Proof.
  unfold LTrim, LRange. destruct (Z.eqb_spec (LLen l) 0) as [H0|H0].
  { split; [|done]. destruct l; [done|]. by unfold LLen in H0. }
  pose proof (normalizeRange_bounds start stop (LLen l) ltac:(unfold LLen in *; lia)) as Hb.
  destruct (normalizeRange start stop (LLen l)) as [a b]. unfold LLen in *.
  destruct (Z.gtb_spec a b) as [|Hab]; [split; done|].
  rewrite collect_take, advance_drop, iter_tail_drop, iter_drop_last, length_drop. simpl.
  split; [f_equal; lia|]. intros r [= <-]. rewrite length_take, length_drop.
  split; [lia|]. intros i Hi. rewrite lookup_take_lt, lookup_drop by lia.
  by replace (Z.to_nat (a + i)) with (Z.to_nat a + Z.to_nat i)%nat by lia.
Qed.

(** [LRem] removes [count] occurrences of [value] (all of them
    for count 0, none beyond those present), the first ones for count > 0 and the
    last ones for count < 0, keeps every other element in order, and returns the
    number removed. *)
Theorem lrem_spec count value l :
  min_int64 < count ->
  let '(n, l') := LRem count value l in
  n = (if count =? 0 then Z.of_nat (occ value l)
       else Z.min (Z.abs count) (Z.of_nat (occ value l))) /\
  exists l1 l2, l = l1 ++ l2 /\
    l' = (if count >=? 0 then others value l1 ++ l2 else l1 ++ others value l2) /\
    Z.of_nat (occ value (if count >=? 0 then l1 else l2)) = n.
Proof.
  intros Hmin. unfold LRem. pose proof (occ_le value l) as Hocc.
  destruct (Z.eqb_spec (LLen l) 0) as [H0|H0].
  { assert (l = []) as -> by (destruct l; [done|by unfold LLen in H0]).
    unfold occ; simpl. split; [case_match; lia|]. exists [], []. by destruct (count >=? 0). }
  destruct (Z.geb_spec count 0) as [Hc|Hc].
  - pose proof (rem_loop_spec value (if count =? 0 then LLen l else count) 0 l) as H.
    destruct (rem_loop _ _ _ _) as [n l']. unfold LLen in *.
    destruct H as (-> & l1 & l2 & -> & -> & Ho); [case_match; lia|].
    split; [destruct (Z.eqb_spec count 0); lia|].
    exists l1, l2. split_and!; [done|done|lia].
  - pose proof (rem_loop_spec value (int64 (- count)) 0 (rev l)) as H.
    assert (int64 (- count) = - count) as Hn.
    { apply int64_id. unfold in_int64, min_int64, max_int64 in *. lia. }
    destruct (rem_loop _ _ _ _) as [n l']. rewrite Hn in H.
    destruct H as (-> & l1 & l2 & Hl & -> & Ho); [lia|]. rewrite occ_rev in *.
    split; [destruct (Z.eqb_spec count 0); lia|].
    exists (rev l2), (rev l1). split_and!.
    + by rewrite <-rev_app_distr, <-Hl, rev_involutive.
    + by rewrite rev_app_distr, others_rev.
    + rewrite occ_rev. lia.
Qed.

Lemma lrem_spec_witness :
  let '(n, l') := LRem (-2) "a" ["a"; "b"; "a"; "c"; "a"] in
  n = 2 /\ l' = ["a"; "b"; "c"] /\
  exists l1 l2, ["a"; "b"; "a"; "c"; "a"] = l1 ++ l2 /\ l' = l1 ++ others "a" l2.
Proof.
  pose proof (lrem_spec (-2) "a" ["a"; "b"; "a"; "c"; "a"] ltac:(done)) as [H1 (l1 & l2 & H2 & H3 & _)].
  split; [exact H1|]. split; [reflexivity|]. exists l1, l2. split; [exact H2|exact H3].
Defined.

(** [LPos] returns, of the positions of [value] among the first
    [maxLen] elements (all for 0), those from the [rank]-th on, at most [count] of
    them (all for 0, one for a negative count). *)
Theorem lpos_spec value rank count maxLen l :
  let lim := if (maxLen =? 0) || (maxLen >? LLen l) then LLen l else Z.max 0 maxLen in
  let ms := drop (Z.to_nat (rank - 1)) (positions_from value 0 (take (Z.to_nat lim) l)) in
  LPos value rank count maxLen l =
  (if count =? 0 then ms else take (Z.to_nat (if count <? 0 then 1 else count)) ms).
Proof.
  unfold LPos, LLen. destruct (Z.ltb_spec maxLen 0) as [Hneg|Hpos].
  - destruct (Z.eqb_spec maxLen 0), (Z.gtb_spec maxLen (Z.of_nat (length l))); try lia. simpl.
    rewrite Z.max_l by lia. rewrite take_0. cbn [positions_from]. rewrite drop_nil, take_nil.
    destruct l; simpl; [by case_match|]. destruct (Z.ltb_spec 0 maxLen); [lia|].
    simpl. by case_match.
  - rewrite pos_loop_spec.
    + rewrite !Z.sub_0_r. simpl. rewrite Nat.sub_0_r.
      replace (if (maxLen =? 0) || (maxLen >? Z.of_nat (length l)) then Z.of_nat (length l) else Z.max 0 maxLen)
        with (if (maxLen =? 0) || (maxLen >? Z.of_nat (length l)) then Z.of_nat (length l) else maxLen)
        by (case_match; lia).
      destruct (Z.ltb_spec count 0); destruct (Z.eqb_spec count 0); try lia; done.
    + destruct (Z.eqb_spec maxLen 0), (Z.gtb_spec maxLen (Z.of_nat (length l))); simpl; lia.
    + case_match; lia.
    + intros _. simpl. case_match; lia.
Qed.
