(* ===== verification/DHash.v ===== *)
(** * The hash data structure (ds/hash/hash.go)

    A [Hash] is its map of fields.  The decimal conversions of [strconv] that
    [HIncrBy] uses are written out; the floating-point ones of [HIncrByFloat] are
    an interface. *)

From stdpp Require Import base tactics numbers list gmap fin_maps strings pretty.
From Stdlib Require Import Strings.Ascii.
From S2P Require Import Prelude.

(** ** strconv *)

Module Strconv.

Definition digit (c : Ascii.ascii) : option N :=
  let n := Ascii.N_of_ascii c in
  if (48 <=? n)%N && (n <=? 57)%N then Some (n - 48)%N else None.

(** The digit loop of [ParseUint(s, 10, 64)]: the first bad digit is a syntax
    error, the first digit that leaves the range a range error. *)
Fixpoint parse_digits (s : string) (n : N) : result bool N :=
  match s with
  | EmptyString => Ok n
  | String c s =>
      match digit c with
      | None => Err false
      | Some d =>
          if (10 * n + d <? 2 ^ 64)%N then parse_digits s (10 * n + d)%N else Err true
      end
  end.

Definition ParseUint (s : string) : result bool N :=
  match s with
  | EmptyString => Err false
  | _ => parse_digits s 0
  end.

(** [strconv.ParseInt(s, 10, 64)]; an error value carries the input. *)
Definition ParseInt (s : string) : result error Z :=
  let err range := Err (NumError "ParseInt" s range) in
  let '(neg, rest) :=
    match s with
    | String c s' =>
        if decide (c = "+"%char) then (false, s')
        else if decide (c = "-"%char) then (true, s')
        else (false, s)
    | EmptyString => (false, s)
    end in
  match ParseUint rest with
  | Err range => err range
  | Ok un =>
      let cutoff := 2 ^ 63 in
      if negb neg && (Z.of_N un >=? cutoff) then err true
      else if neg && (Z.of_N un >? cutoff) then err true
      else Ok (if neg then - Z.of_N un else Z.of_N un)
  end.

(** [strconv.FormatInt(n, 10)]. *)
Definition FormatInt (n : Z) : string := pretty n.

End Strconv.
Import Strconv.

(** The float operations of [HIncrByFloat]: addition on float64,
    [strconv.ParseFloat(s, 64)] and [strconv.FormatFloat(f, 'f', -1, 64)]. *)
Class FloatOps (float64 : Type) := {
  fadd : float64 -> float64 -> float64;
  ParseFloat : string -> result error float64;
  FormatFloat : float64 -> string;
}.

(** ** Hash *)

Notation Hash := (gmap string string).

Definition New : Hash := ∅.

Definition HSet (field value : string) (h : Hash) : Z * Hash :=
  match h !! field with
  | Some _ => (0, <[field := value]> h)
  | None => (1, <[field := value]> h)
  end.

Definition HSetNX (field value : string) (h : Hash) : bool * Hash :=
  match h !! field with
  | Some _ => (false, h)
  | None => (true, <[field := value]> h)
  end.

Definition HGet (field : string) (h : Hash) : option string := h !! field.

Fixpoint HDel (fields : list string) (h : Hash) : Z * Hash :=
  match fields with
  | [] => (0, h)
  | f :: fields =>
      match h !! f with
      | Some _ => let '(removed, h') := HDel fields (delete f h) in (removed + 1, h')
      | None => HDel fields h
      end
  end.

Definition HExists (field : string) (h : Hash) : bool := bool_decide (is_Some (h !! field)).

Definition HGetAll (h : Hash) : gmap string string := h.

Definition HKeys `{MI : MapIter} (h : Hash) : list string := (map_iter h).*1.

Definition HVals `{MI : MapIter} (h : Hash) : list string := (map_iter h).*2.

Definition HLen (h : Hash) : Z := Z.of_nat (size h).

Definition HStrLen (field : string) (h : Hash) : Z :=
  match h !! field with
  | None => 0
  | Some v => Z.of_nat (String.length v)
  end.

Definition HIncrBy (field : string) (delta : Z) (h : Hash) : result error Z * Hash :=
  match h !! field with
  | None => (Ok delta, <[field := FormatInt delta]> h)
  | Some v =>
      match ParseInt v with
      | Err e => (Err e, h)
      | Ok n =>
          let n := int64 (n + delta) in
          (Ok n, <[field := FormatInt n]> h)
      end
  end.

Definition HIncrByFloat `{FO : FloatOps float64} (field : string) (delta : float64) (h : Hash) :
    result error float64 * Hash :=
  match h !! field with
  | None => (Ok delta, <[field := FormatFloat delta]> h)
  | Some v =>
      match ParseFloat v with
      | Err e => (Err e, h)
      | Ok n =>
          let n := fadd n delta in
          (Ok n, <[field := FormatFloat n]> h)
      end
  end.

(** A missing field is the nil value. *)
Definition HMGet (fields : list string) (h : Hash) : list (option string) :=
  (fun f => h !! f) <$> fields.

Fixpoint HMSet (fvPairs : list string) (h : Hash) : Hash :=
  match fvPairs with
  | f :: v :: rest => HMSet rest (<[f := v]> h)
  | _ => h
  end.

(** [ForEach] with the accumulated effect of the callback as state. *)
Definition ForEach `{MI : MapIter} {S} (fn : string -> string -> S -> bool * S) (h : Hash) (s : S) : S :=
  (fix go l s := match l with
    | [] => s
    | (k, v) :: l => let '(continue, s) := fn k v s in if continue then go l s else s
    end) (map_iter h) s.

Definition Fields (h : Hash) : Z := Z.of_nat (size h).

(** ** Lemmas: decimal conversion *)

Lemma digit_pretty_N_char n : (n < 10)%N -> digit (pretty_N_char n) = Some n.
Proof.
  intros Hn. destruct n as [|p]; [done|]. by do 4 (destruct p as [p|p|]; try done; try lia).
Qed.

Lemma parse_digits_pretty_go n s :
  (n < 2 ^ 64)%N ->
  parse_digits (pretty_N_go n s) 0 = parse_digits s n.
Proof.
  revert s. induction (N.lt_wf_0 n) as [n _ IH]. intros s Hn.
  destruct (decide (n = 0%N)) as [->|Hz]; [by rewrite pretty_N_go_0|].
  rewrite pretty_N_go_step by lia.
  pose proof (N.div_mod n 10 ltac:(done)) as Hdm.
  pose proof (N.mod_lt n 10 ltac:(done)) as Hm.
  rewrite IH; [|apply N.div_lt; lia|eapply N.le_lt_trans; [|exact Hn]; apply N.Div0.div_le_upper_bound; lia].
  cbn [parse_digits]. rewrite digit_pretty_N_char by done.
  rewrite <-Hdm. by destruct (N.ltb_spec n (2 ^ 64)); [|lia].
Qed.

Lemma pretty_N_go_head n s c :
  (exists c' s', s = String c' s' /\ c' <> c) ->
  (forall d, (d < 10)%N -> pretty_N_char d <> c) ->
  exists c' s', pretty_N_go n s = String c' s' /\ c' <> c.
Proof.
  intros Hs Hd. revert s Hs. induction (N.lt_wf_0 n) as [n _ IH]. intros s Hs.
  destruct (decide (n = 0%N)) as [->|Hz]; [by rewrite pretty_N_go_0|].
  rewrite pretty_N_go_step by lia. apply IH; [apply N.div_lt; lia|].
  eexists _, _. split; [done|]. apply Hd, N.mod_lt; lia.
Qed.

Lemma digit_not_sign c d : digit c = None -> (d < 10)%N -> pretty_N_char d <> c.
Proof. intros Hc Hd Heq. pose proof (digit_pretty_N_char d Hd). congruence. Qed.

Lemma pretty_N_head (n : N) c :
  digit c = None -> exists c' s', pretty n = String c' s' /\ c' <> c.
Proof.
  intros Hc. unfold pretty, pretty_N. case_decide as Hz.
  - eexists _, _. split; [done|]. intros Heq. subst. done.
  - assert (0 < n)%N as Hn by lia. rewrite pretty_N_go_step by done.
    apply pretty_N_go_head; [|intros; by apply digit_not_sign].
    eexists _, _. split; [done|]. by apply digit_not_sign, N.mod_lt.
Qed.

Lemma ParseUint_pretty (n : N) : (n < 2 ^ 64)%N -> ParseUint (pretty n) = Ok n.
Proof.
  intros Hn. destruct (pretty_N_head n "-"%char eq_refl) as (c & s & Hp & _).
  unfold ParseUint. rewrite Hp, <-Hp. unfold pretty, pretty_N. case_decide; [by subst|].
  by rewrite parse_digits_pretty_go.
Qed.

(** Printing and parsing an int64 is the identity. *)
Lemma ParseInt_FormatInt n : in_int64 n -> ParseInt (FormatInt n) = Ok n.
Proof.
  intros Hn. unfold in_int64, min_int64, max_int64 in Hn. unfold ParseInt, FormatInt.
  unfold pretty, pretty_Z. destruct n as [|p|p].
  - done.
  - destruct (pretty_N_head (N.pos p) "+"%char eq_refl) as (c & s & Hp & Hplus).
    destruct (pretty_N_head (N.pos p) "-"%char eq_refl) as (c' & s' & Hp' & Hminus).
    rewrite Hp in Hp'. injection Hp' as <- <-.
    change (pretty p) with (pretty (N.pos p)). rewrite Hp. rewrite !decide_False by done. rewrite <-Hp, ParseUint_pretty by lia.
    simpl. destruct (Z.geb_spec (Z.pos p) (2 ^ 63)); [lia|done].
  - cbn -[Z.pow pretty ParseUint]. change (pretty p) with (pretty (N.pos p)).
    cbv beta iota delta [String.append]. rewrite decide_False, decide_True by done.
    rewrite ParseUint_pretty by lia.
    cbn -[Z.pow]. destruct (Z.gtb_spec (Z.pos p) (2 ^ 63)); [lia|done].
Qed.

(** ** Lemmas: the operations *)

Lemma HSet_lookup f v h g :
  HGet g (HSet f v h).2 = if decide (g = f) then Some v else HGet g h.
Proof.
  unfold HGet, HSet. destruct (h !! f); simpl; rewrite lookup_insert; by repeat case_decide.
Qed.

Lemma HDel_spec fields h :
  (HDel fields h).2 = h ∖ (list_to_map ((fun f => (f, EmptyString)) <$> fields) : gmap string string) /\
  (HDel fields h).1 = HLen h - HLen (HDel fields h).2.
Proof.
  revert h. induction fields as [|f fs IH]; intros h; simpl.
  { split; [by rewrite map_difference_empty|]. unfold HLen. lia. }
  destruct (h !! f) as [v|] eqn:Hf.
  - specialize (IH (delete f h)). destruct (HDel fs (delete f h)) as [r h']. simpl in *.
    destruct IH as [-> ->]. split.
    + apply map_eq. intros k. apply option_eq. intros w.
      rewrite !lookup_difference_Some, lookup_delete_Some, lookup_insert_None. intuition congruence.
    + unfold HLen. rewrite map_size_delete_Some by eauto.
      assert (size h <> 0%nat); [|lia]. apply map_size_ne_0_lookup; eauto.
  - destruct (IH h) as [-> ->]. split; [|done].
    apply map_eq. intros k. apply option_eq. intros w.
    rewrite !lookup_difference_Some, lookup_insert_None. intuition congruence.
Qed.

(** One call after another: the stored value is always the decimal form of the
    wrapped sum. *)
Fixpoint HIncrBy_run (field : string) (deltas : list Z) (h : Hash) : list (result error Z) * Hash :=
  match deltas with
  | [] => ([], h)
  | d :: ds =>
      let '(r, h) := HIncrBy field d h in
      let '(rs, h) := HIncrBy_run field ds h in (r :: rs, h)
  end.

(** The running totals, wrapped to 64 bits. *)
Fixpoint sums (n : Z) (deltas : list Z) : list Z :=
  match deltas with
  | [] => []
  | d :: ds => int64 (n + d) :: sums (int64 (n + d)) ds
  end.

Lemma default_last_cons (n x : Z) l : default n (last (x :: l)) = default x (last l).
Proof. rewrite last_cons. by destruct (last l). Qed.

Lemma HIncrBy_run_spec field deltas h n :
  in_int64 n -> h !! field = Some (FormatInt n) ->
  HIncrBy_run field deltas h =
  (Ok <$> sums n deltas,
   <[field := FormatInt (default n (last (sums n deltas)))]> h).
Proof.
  revert h n. induction deltas as [|d ds IH]; intros h n Hn Hf; cbn [HIncrBy_run sums].
  { simpl. by rewrite insert_id. }
  unfold HIncrBy. rewrite Hf, ParseInt_FormatInt by done. simpl.
  rewrite (IH _ (int64 (n + d))); [|mcache_auto|by rewrite lookup_insert_eq].
  by rewrite insert_insert_eq, default_last_cons.
Qed.

Lemma wrap_sum_shift n d : int64 (int64 n + d) = int64 (n + d).
Proof.
  unfold int64, wrapS. change (64 - 1) with 63.
  replace ((n + 2 ^ 63) mod 2 ^ 64 - 2 ^ 63 + d + 2 ^ 63) with ((n + 2 ^ 63) mod 2 ^ 64 + d) by lia.
  rewrite Zplus_mod_idemp_l. do 2 f_equal. lia.
Qed.

Lemma last_sums n deltas :
  deltas <> [] -> last (sums n deltas) = Some (int64 (n + foldr Z.add 0 deltas)).
Proof.
  revert n. induction deltas as [|d ds IH]; intros n Hne; [done|].
  destruct ds as [|d' ds]; [simpl; do 2 f_equal; lia|].
  change (sums n (d :: d' :: ds)) with (int64 (n + d) :: sums (int64 (n + d)) (d' :: ds)).
  rewrite last_cons, IH by done. f_equal. rewrite wrap_sum_shift. f_equal. simpl. lia.
Qed.

(** ** Properties *)

(** Starting from a missing field, a sequence of [HIncrBy] calls
    returns the running totals and stores the decimal form of the last one, all
    of them wrapped to 64 bits; parsing what was printed never fails. *)
Theorem hincrby_accumulates field d deltas h :
  in_int64 d -> h !! field = None ->
  HIncrBy_run field (d :: deltas) h =
  (Ok <$> d :: sums d deltas,
   <[field := FormatInt (int64 (foldr Z.add 0 (d :: deltas)))]> h).
Proof.
  intros Hd Hf. cbn [HIncrBy_run]. unfold HIncrBy at 1. rewrite Hf.
  rewrite (HIncrBy_run_spec _ _ _ d) by (done || by rewrite lookup_insert_eq).
  rewrite insert_insert_eq. do 3 f_equal. f_equal.
  destruct (decide (deltas = [])) as [->|Hne]; simpl.
  - by rewrite Z.add_0_r, int64_id.
  - by rewrite last_sums.
Qed.

Lemma hincrby_accumulates_witness :
  HIncrBy_run "n" [max_int64; 1; 5] ∅ =
  (Ok <$> [max_int64; min_int64; min_int64 + 5],
   <["n"%string := FormatInt (min_int64 + 5)]> ∅).
Proof.
  rewrite (hincrby_accumulates "n" max_int64 [1; 5] ∅); [by vm_compute|done|done].
Defined.
