(* ===== verification/DSet.v ===== *)
(** * The set data structure (ds/set/set.go, ds/set/ops.go)

    A [Set] is its set of elements; a loop over it takes Go's unspecified map
    order.  The values [math/rand] returns are arguments.  The set operations of
    ops.go compare their arguments by pointer: they take pointers and a store. *)

From stdpp Require Import base tactics numbers list gmap sets fin_maps strings.
From S2P Require Import Prelude.

Notation GSet := (gset string).

Definition New : GSet := ∅.

Definition NewFrom (elems : list string) : GSet :=
  foldl (fun s e => {[e]} ∪ s) New elems.

Fixpoint Add (elems : list string) (s : GSet) : Z * GSet :=
  match elems with
  | [] => (0, s)
  | e :: elems =>
      if decide (e ∈ s) then Add elems s
      else let '(added, s') := Add elems ({[e]} ∪ s) in (added + 1, s')
  end.

Fixpoint Rem (elems : list string) (s : GSet) : Z * GSet :=
  match elems with
  | [] => (0, s)
  | e :: elems =>
      if decide (e ∈ s) then
        let '(removed, s') := Rem elems (s ∖ {[e]}) in (removed + 1, s')
      else Rem elems s
  end.

Definition IsMember (elem : string) (s : GSet) : bool := bool_decide (elem ∈ s).

Definition Card (s : GSet) : Z := Z.of_nat (size s).

Definition abs (n : Z) : Z := if n <? 0 then int64 (- n) else n.

Section Set_.
Context `{MI : MapIter}.

Definition Members (s : GSet) : list string := set_iter s.

(** [n] is what [rand.Intn(len(s.elements))] returns. *)
Definition Pop (n : nat) (s : GSet) : option string * GSet :=
  if decide (size s = 0%nat) then (None, s)
  else
    match set_iter s !! n with
    | Some e => (Some e, s ∖ {[e]})
    | None => (None, s)
    end.

(** [perm] is what [rand.Perm(len(elems))] returns, [draw i] what the [i]-th
    [rand.Intn(len(elems))] does.  [make] panics on a negative capacity; an index
    out of range panics.  The result [None] is the nil slice. *)
Definition RandMember (perm : list nat) (draw : nat -> nat) (count : Z) (s : GSet) :
    outcome (option (list string)) :=
  if decide (size s = 0%nat) then Ret None
  else if abs count <? 0 then Panic
  else
    let elems := set_iter s in
    let at_ i := deref (elems !! i) in
    out ← (if count >=? 0 then
             let count := if count >? Z.of_nat (length elems) then Z.of_nat (length elems) else count in
             foldl (fun out i =>
               out ← out; j ← deref (perm !! i); e ← at_ j; mret (out ++ [e]))
               (Ret []) (seq 0 (Z.to_nat count))
           else
             foldl (fun out i => out ← out; e ← at_ (draw i); mret (out ++ [e]))
               (Ret []) (seq 0 (Z.to_nat (- count))));
    mret (Some out).

Definition Clear (s : GSet) : GSet := ∅.

(** [ForEach] with the accumulated effect of the callback as state. *)
Fixpoint for_each {S} (fn : string -> S -> bool * S) (l : list string) (st : S) : S :=
  match l with
  | [] => st
  | e :: l => let '(go, st) := fn e st in if go then for_each fn l st else st
  end.

Definition ForEach {S} (fn : string -> S -> bool * S) (s : GSet) (st : S) : S :=
  for_each fn (set_iter s) st.

(** ** ops.go: operations on pointers to sets *)

Context {ptr : Type} `{EqDecision ptr}.
Variable deref_set : ptr -> GSet.

Definition Union (sets : list ptr) : GSet :=
  foldl (fun result p => foldl (fun r e => {[e]} ∪ r) result (set_iter (deref_set p))) New sets.

(** The loop that finds the smallest set. *)
Definition smallest_of (first : ptr) (rest : list ptr) : ptr :=
  foldl (fun smallest p =>
    if Card (deref_set p) <? Card (deref_set smallest) then p else smallest) first rest.

(** The inner loop of [Inter]: whether [elem] is in every set but [smallest]. *)
Fixpoint in_all (smallest : ptr) (elem : string) (sets : list ptr) : bool :=
  match sets with
  | [] => true
  | p :: sets =>
      if decide (p = smallest) then in_all smallest elem sets
      else if negb (IsMember elem (deref_set p)) then false
      else in_all smallest elem sets
  end.

Definition Inter (sets : list ptr) : GSet :=
  match sets with
  | [] => New
  | first :: rest =>
      let smallest := smallest_of first rest in
      ForEach (fun elem result =>
        (true, if in_all smallest elem sets then {[elem]} ∪ result else result))
        (deref_set smallest) New
  end.

(** The inner loop of [Diff]: whether [elem] is in none of the sets. *)
Fixpoint in_none (elem : string) (others : list ptr) : bool :=
  match others with
  | [] => true
  | p :: others => if IsMember elem (deref_set p) then false else in_none elem others
  end.

Definition Diff (sets : list ptr) : GSet :=
  match sets with
  | [] => New
  | [first] => Union [first]
  | first :: others =>
      ForEach (fun elem result =>
        (true, if in_none elem others then {[elem]} ∪ result else result))
        (deref_set first) New
  end.

(** ** Lemmas *)

Lemma foldl_union_elem (l : list string) (r : GSet) x :
  x ∈ foldl (fun r e => {[e]} ∪ r) r l <-> x ∈ l \/ x ∈ r.
Proof.
  revert r. induction l as [|e l IH]; intros r; simpl; [set_solver|].
  rewrite IH, elem_of_cons. set_solver.
Qed.

Lemma for_each_filter (f : string -> bool) l (r : GSet) x :
  x ∈ for_each (fun e r => (true, if f e then {[e]} ∪ r else r)) l r <->
  (x ∈ l /\ f x = true) \/ x ∈ r.
Proof.
  revert r. induction l as [|e l IH]; intros r; simpl; [set_solver|].
  rewrite IH, elem_of_cons. destruct (f e) eqn:He.
  - rewrite elem_of_union, elem_of_singleton. split; [intuition (subst; auto)|].
    intros [[[->|?] ?]|?]; tauto.
  - split; [tauto|]. intros [[[->|?] ?]|?]; [congruence|tauto|tauto].
Qed.

Lemma ForEach_filter (f : string -> bool) (s : GSet) x :
  x ∈ ForEach (fun e r => (true, if f e then {[e]} ∪ r else r)) s New <->
  x ∈ s /\ f x = true.
Proof. unfold ForEach, New. rewrite for_each_filter, elem_of_set_iter. set_solver. Qed.

Lemma elem_of_Union sets x : x ∈ Union sets <-> exists p, p ∈ sets /\ x ∈ deref_set p.
Proof.
  unfold Union, New.
  enough (forall r, x ∈ foldl (fun r p => foldl (fun r e => {[e]} ∪ r) r (set_iter (deref_set p))) r sets
    <-> (exists p, p ∈ sets /\ x ∈ deref_set p) \/ x ∈ r) as H by (rewrite H; set_solver).
  induction sets as [|p sets IH]; intros r; simpl; [set_solver|].
  rewrite IH, foldl_union_elem, elem_of_set_iter. set_solver.
Qed.

Lemma smallest_of_in first rest : smallest_of first rest ∈ first :: rest.
Proof.
  unfold smallest_of. revert first. induction rest as [|p rest IH]; intros first; simpl; [set_solver|].
  case_match; [specialize (IH p)|specialize (IH first)]; set_solver.
Qed.

Lemma in_all_spec smallest elem sets :
  in_all smallest elem sets = true <->
  forall p, p ∈ sets -> p = smallest \/ elem ∈ deref_set p.
Proof.
  induction sets as [|p sets IH]; simpl; [set_solver|]. unfold IsMember.
  case_decide as Hp; [rewrite IH; set_solver|].
  case_bool_decide as Hm; simpl; [rewrite IH; set_solver|].
  split; [done|]. intros Hall. destruct (Hall p) as [|]; [by left|done|done].
Qed.

Lemma in_none_spec elem others :
  in_none elem others = true <-> forall p, p ∈ others -> elem ∉ deref_set p.
Proof.
  induction others as [|p others IH]; simpl; [set_solver|]. unfold IsMember.
  setoid_rewrite elem_of_cons. case_bool_decide as Hm; [|rewrite IH; naive_solver].
  split; [done|]. intros Hall. by destruct (Hall p (or_introl eq_refl)).
Qed.

(** Counts of [Add] and [Rem]. *)
Lemma Add_spec elems s :
  (Add elems s).2 = s ∪ list_to_set elems /\
  (Add elems s).1 = Card (Add elems s).2 - Card s.
Proof.
  revert s. induction elems as [|e es IH]; intros s; simpl.
  { split; [set_solver|]. unfold Card. lia. }
  case_decide as He.
  - destruct (IH s) as [-> ->]. split; [set_solver|done].
  - specialize (IH ({[e]} ∪ s)). destruct (Add es ({[e]} ∪ s)) as [n s']. simpl in *.
    destruct IH as [-> ->]. split; [set_solver|].
    unfold Card. rewrite (size_union {[e]} s) by set_solver. rewrite size_singleton. lia.
Qed.

Lemma Rem_spec elems s :
  (Rem elems s).2 = s ∖ list_to_set elems /\
  (Rem elems s).1 = Card s - Card (Rem elems s).2.
Proof.
  revert s. induction elems as [|e es IH]; intros s; simpl.
  { split; [set_solver|]. unfold Card. lia. }
  case_decide as He.
  - specialize (IH (s ∖ {[e]})). destruct (Rem es (s ∖ {[e]})) as [n s']. simpl in *.
    destruct IH as [-> ->]. split; [set_solver|]. unfold Card.
    rewrite (size_difference s {[e]}) by set_solver. rewrite size_singleton.
    assert (size s <> 0%nat); [|lia]. apply size_non_empty_iff. set_solver.
  - destruct (IH s) as [-> ->]. split; [set_solver|done].
Qed.

Lemma Pop_spec n s :
  (n < size s)%nat ->
  exists e, Pop n s = (Some e, s ∖ {[e]}) /\ e ∈ s /\ Card (s ∖ {[e]}) = Card s - 1.
Proof.
  intros Hn. unfold Pop. rewrite decide_False by lia.
  destruct (set_iter s !! n) as [e|] eqn:He.
  - exists e. split; [done|].
    assert (e ∈ s) by (by apply elem_of_set_iter, list_elem_of_lookup_2 with n).
    split; [done|]. unfold Card. rewrite size_difference by set_solver.
    rewrite size_singleton. lia.
  - apply lookup_ge_None in He. rewrite length_set_iter in He. lia.
Qed.

(** ** Properties *)

Lemma elem_of_Inter sets x : x ∈ Inter sets <-> sets <> [] /\ forall p, p ∈ sets -> x ∈ deref_set p.
Proof.
  unfold Inter. destruct sets as [|first rest]; [set_solver|].
  pose proof (smallest_of_in first rest) as Hin.
  rewrite ForEach_filter, in_all_spec. split.
  - intros [Hx Hall]. split; [done|]. intros p Hp. by destruct (Hall p Hp) as [->|].
  - intros [_ Hall]. split; [by apply Hall|]. intros p Hp. right. by apply Hall.
Qed.

Lemma elem_of_Diff sets x :
  x ∈ Diff sets <-> exists p rest, sets = p :: rest /\ x ∈ deref_set p /\ forall q, q ∈ rest -> x ∉ deref_set q.
Proof.
  unfold Diff. destruct sets as [|first [|q rest]].
  - split; [set_solver|]. by intros (? & ? & ? & _).
  - rewrite elem_of_Union. setoid_rewrite list_elem_of_singleton. split.
    + intros (p & -> & Hx). exists first, []. split_and!; [done|done|by intros ? ?%not_elem_of_nil].
    + intros (p & rest & [= -> <-] & Hx & _). eauto.
  - rewrite ForEach_filter, in_none_spec. split; [by intros [??]; eauto|].
    by intros (p & rest' & [= -> <-] & Hx & Hall).
Qed.

(** [Union], [Inter] and [Diff] compute union, intersection and
    difference: an element is in [Union] iff it is in one of the sets, in [Inter]
    (which starts from the smallest set and skips it by pointer) iff there is a
    set and it is in all of them, in [Diff] iff it is in the first and in none of
    the others. *)
Theorem set_ops_spec sets x :
  (x ∈ Union sets <-> exists p, p ∈ sets /\ x ∈ deref_set p) /\
  (x ∈ Inter sets <-> sets <> [] /\ forall p, p ∈ sets -> x ∈ deref_set p) /\
  (x ∈ Diff sets <-> exists p rest, sets = p :: rest /\ x ∈ deref_set p /\
                       forall q, q ∈ rest -> x ∉ deref_set q).
Proof. split_and!; [apply elem_of_Union|apply elem_of_Inter|apply elem_of_Diff]. Qed.

End Set_.

(** [Add] and [Rem] return how many elements they added and
    removed and leave the union and the difference; [Pop] on a non-empty set
    removes and returns one of its elements for every random draw. *)
Theorem set_updates_spec `{MI : MapIter} elems s n :
  (n < size s)%nat ->
  Add elems s = (Card (s ∪ list_to_set elems) - Card s, s ∪ list_to_set elems) /\
  Rem elems s = (Card s - Card (s ∖ list_to_set elems), s ∖ list_to_set elems) /\
  exists e, Pop n s = (Some e, s ∖ {[e]}) /\ e ∈ s /\ Card (s ∖ {[e]}) = Card s - 1.
Proof.
  intros Hn. split_and!; [| |by apply Pop_spec].
  - destruct (Add_spec elems s) as [H1 H2]. rewrite H1 in H2.
    destruct (Add elems s). simpl in *. by subst.
  - destruct (Rem_spec elems s) as [H1 H2]. rewrite H1 in H2.
    destruct (Rem elems s). simpl in *. by subst.
Qed.

Lemma set_updates_spec_witness :
  (Add ["a"; "c"] (NewFrom ["a"; "b"])).1 = 1 /\
  exists e, Pop (MI := trie_order) 1 (NewFrom ["a"; "b"]) = (Some e, NewFrom ["a"; "b"] ∖ {[e]}).
Proof.
  destruct (set_updates_spec (MI := trie_order) ["a"; "c"] (NewFrom ["a"; "b"]) 1) as (H1 & _ & e & H2 & _);
    [vm_compute; lia|].
  split; [rewrite H1; by vm_compute|]. by exists e.
Defined.
