(* ===== verification/Text.v ===== *)
(** * Text (Go's strings, bufio and strconv as the program uses them)

    A Go string is a sequence of bytes, here characters.  White space is
    [unicode.IsSpace]: six ASCII characters, two of two bytes in UTF-8 and seventeen of three.
    A sequence of bytes that encodes a space cannot begin inside another character, so looking for
    one at every byte finds what decoding the characters finds. *)

From Stdlib Require Import Strings.String Strings.Ascii.
From stdpp Require Import base tactics numbers list strings pretty.
From S2P Require Import Prelude.
From S2P Require Import DHash.
Import Strconv.

Open Scope Z_scope.

Notation code := N_of_ascii (only parsing).

(** ** White space *)

Definition ascii_space (a : ascii) : bool := ((9 <=? code a)%N && (code a <=? 13)%N) || (code a =? 32)%N.

(** U+0085 and U+00A0. *)
Definition space2 (a b : ascii) : bool := (code a =? 194)%N && ((code b =? 133)%N || (code b =? 160)%N).

(** U+1680, U+2000 to U+200A, U+2028, U+2029, U+202F, U+205F and U+3000. *)
Definition space3 (a b c : ascii) : bool :=
  ((code a =? 225)%N && (code b =? 154)%N && (code c =? 128)%N) ||
  ((code a =? 226)%N && (code b =? 128)%N &&
     (((128 <=? code c)%N && (code c <=? 138)%N) || (code c =? 168)%N || (code c =? 169)%N || (code c =? 175)%N)) ||
  ((code a =? 226)%N && (code b =? 129)%N && (code c =? 159)%N) ||
  ((code a =? 227)%N && (code b =? 128)%N && (code c =? 128)%N).

(** The bytes of the space a string begins with, 0 when it begins with none. *)
Definition space_width (s : string) : nat :=
  match s with
  | EmptyString => 0
  | String a s =>
      if ascii_space a then 1
      else match s with
      | EmptyString => 0
      | String b s =>
          if space2 a b then 2
          else match s with
          | EmptyString => 0
          | String c _ => if space3 a b c then 3 else 0
          end
      end
  end%nat.

Definition cons_word (w : string) (ws : list string) : list string :=
  match w with EmptyString => ws | _ => w :: ws end.

(** The word a string begins with and the words after it; [skip] bytes of a space are left. *)
Fixpoint split_words (skip : nat) (s : string) : string * list string :=
  match s with
  | EmptyString => (EmptyString, [])
  | String a t =>
      match skip with
      | S skip => split_words skip t
      | O =>
          match space_width s with
          | O => let '(w, ws) := split_words 0 t in (String a w, ws)
          | S skip => let '(w, ws) := split_words skip t in (EmptyString, cons_word w ws)
          end
      end
  end.

(** [strings.Fields]. *)
Definition Fields (s : string) : list string := let '(w, ws) := split_words 0 s in cons_word w ws.

Definition all_space (s : string) : bool := bool_decide (Fields s = []).

Fixpoint trim_left (skip : nat) (s : string) : string :=
  match s with
  | EmptyString => EmptyString
  | String a t =>
      match skip with
      | S skip => trim_left skip t
      | O => match space_width s with O => s | S skip => trim_left skip t end
      end
  end.

Fixpoint trim_right (s : string) : string :=
  match s with
  | EmptyString => EmptyString
  | String a t => if all_space s then EmptyString else String a (trim_right t)
  end.

(** [strings.TrimSpace]. *)
Definition TrimSpace (s : string) : string := trim_right (trim_left 0 s).

(** [strings.Cut(s, sep)] for a separator of one byte. *)
Fixpoint Cut (sep : ascii) (s : string) : option (string * string) :=
  match s with
  | EmptyString => None
  | String a s => if decide (a = sep) then Some (EmptyString, s)
                  else '(before, after) ← Cut sep s; Some (String a before, after)
  end.

(** [strings.HasPrefix] and [strings.Join]. *)
Definition HasPrefix (s p : string) : bool := String.prefix p s.
Definition Join (parts : list string) (sep : string) : string := String.concat sep parts.

(** ** Lines *)

(** What reading a file gives: its bytes and the error that ended the reading, if any. *)
Record file : Type := mkFile { contents : string; read_error : option error }.

Definition newline : ascii := "010"%char.
Definition carriage_return : ascii := "013"%char.

Fixpoint dropCR (s : string) : string :=
  match s with
  | EmptyString => EmptyString
  | String a EmptyString => if decide (a = carriage_return) then EmptyString else s
  | String a t => String a (dropCR t)
  end.

(** The lines of a text; a last line without newline counts when it is not empty. *)
Fixpoint split_lines (s : string) : list string :=
  match s with
  | EmptyString => []
  | String a t =>
      if decide (a = newline) then EmptyString :: split_lines t
      else match split_lines t with
      | [] => [String a EmptyString]
      | l :: ls => String a l :: ls
      end
  end.

Definition MaxScanTokenSize : nat := 64 * 1024.

(** [bufio.Scanner] over lines: what [Scan] and [Text] give, and [Err] at the end.  A line that
    does not fit the buffer with its newline ends the scan. *)
Fixpoint scan_lines (ls : list string) (e : option error) : list string * option error :=
  match ls with
  | [] => ([], e)
  | l :: ls =>
      if (String.length l <? MaxScanTokenSize)%nat
      then let '(ts, e) := scan_lines ls e in (dropCR l :: ts, e)
      else ([], Some (ErrMsg "bufio.Scanner: token too long"))
  end.

Definition Scan (f : file) : list string * option error := scan_lines (split_lines (contents f)) (read_error f).

(** ** Numbers whose error is ignored

    [v, _ := strconv.ParseUint(s, 10, 64)]: a text that is no number gives 0, one out of range
    the nearest end of the range; so do [ParseInt] and [Atoi]. *)

Definition uint_of (s : string) : Z :=
  match ParseUint s with Ok n => Z.of_N n | Err range => if range : bool then 2 ^ 64 - 1 else 0 end.

Definition int_of (s : string) : Z :=
  match ParseInt s with
  | Ok n => n
  | Err (NumError _ _ true) => if HasPrefix s "-" then min_int64 else max_int64
  | Err _ => 0
  end.

Lemma uint_of_range s : 0 <= uint_of s < 2 ^ 64.
Proof.
  assert (forall s n m, (n < 2 ^ 64)%N -> parse_digits s n = Ok m -> (m < 2 ^ 64)%N) as Hd.
  { clear s. induction s as [|c s IH]; intros n m Hn H; cbn in H; [by simplify_eq|].
    destruct (digit c); [|done]. case_match eqn:Hlt; [|done]. eapply IH; [|exact H]. by apply N.ltb_lt. }
  unfold uint_of, ParseUint. destruct s as [|c s]; [lia|].
  destruct (parse_digits (String c s) 0) as [n|[]] eqn:H; [|lia..].
  apply Hd in H; [|lia]. change (2 ^ 64)%Z with (Z.of_N (2 ^ 64)). lia.
Qed.

Lemma int_of_FormatInt n : in_int64 n -> int_of (FormatInt n) = n.
Proof. intros Hn. unfold int_of. by rewrite ParseInt_FormatInt. Qed.

(** ** Words

    A word has no space in it; words joined by a space are the fields of the result. *)

Fixpoint no_space (w : string) : bool :=
  match w with EmptyString => true | String _ t => (space_width w =? 0)%nat && no_space t end.

Definition word (w : string) : bool := negb (bool_decide (w = EmptyString)) && no_space w.

(** White space of one byte. *)
Lemma ascii_space_small c : ascii_space c = true -> (code c < 128)%N.
Proof.
  unfold ascii_space. intros [[_ H%N.leb_le]%andb_true_iff|H%N.eqb_eq]%orb_true_iff; lia.
Qed.

Lemma code_neq c n : (code c < 128)%N -> (128 <= n)%N -> (code c =? n)%N = false.
Proof. intros. apply N.eqb_neq. lia. Qed.

Lemma space2_small a c : (code c < 128)%N -> space2 a c = false.
Proof. intros Hc. unfold space2. rewrite !(code_neq c) by lia. by rewrite andb_false_r. Qed.

Lemma space3_small2 a b c : (code b < 128)%N -> space3 a b c = false.
Proof. intros Hb. unfold space3. rewrite !(code_neq b) by lia. by rewrite !andb_false_r. Qed.

Lemma space3_small3 a b c : (code c < 128)%N -> space3 a b c = false.
Proof.
  intros Hc. unfold space3. rewrite !(code_neq c) by lia. rewrite (proj2 (N.leb_gt 128 (code c))) by lia.
  by rewrite ?andb_false_r.
Qed.

(** A space after a word does not make the word's end the begin of a longer space. *)
Lemma space_width_app a w c r : ascii_space c = true -> space_width (String a w) = 0%nat ->
  space_width (String a w +:+ String c r) = 0%nat.
Proof.
  intros Hc%ascii_space_small.
  destruct w as [|b [|d w]]; cbn [space_width]; (destruct (ascii_space a) eqn:Ha; [done|]).
  - intros _. change (space_width (String a (String c r)) = 0%nat). cbn [space_width].
    rewrite Ha, space2_small by done. destruct r as [|d r]; [done|]. by rewrite space3_small2.
  - destruct (space2 a b) eqn:H2; [done|]. intros _.
    change (space_width (String a (String b (String c r))) = 0%nat). cbn [space_width].
    by rewrite Ha, H2, space3_small3.
  - destruct (space2 a b) eqn:H2; [done|]. intros H3.
    change (space_width (String a (String b (String d (w +:+ String c r)))) = 0%nat). cbn [space_width].
    by rewrite Ha, H2.
Qed.

Lemma split_word w c r : ascii_space c = true -> no_space w = true ->
  split_words 0 (w +:+ String c r) = let '(v, vs) := split_words 0 r in (w, cons_word v vs).
Proof.
  intros Hc. induction w as [|a w IH]; intros H.
  { change (EmptyString +:+ String c r) with (String c r). cbn [split_words space_width]. by rewrite Hc. }
  cbn [no_space] in H. apply andb_true_iff in H as [Hw%Nat.eqb_eq H].
  change (String a w +:+ String c r) with (String a (w +:+ String c r)). cbn [split_words].
  rewrite (space_width_app a w c r Hc Hw : space_width (String a (w +:+ String c r)) = _), IH by done.
  by destruct (split_words 0 r).
Qed.

Lemma split_last_word w : no_space w = true -> split_words 0 w = (w, []).
Proof.
  induction w as [|a w IH]; intros H; [done|]. cbn [no_space] in H. apply andb_true_iff in H as [Hw%Nat.eqb_eq H].
  cbn [split_words]. by rewrite Hw, IH.
Qed.

Lemma cons_word_word w ws : word w = true -> cons_word w ws = w :: ws.
Proof. by destruct w. Qed.

Lemma word_no_space w : word w = true -> no_space w = true.
Proof. unfold word. by intros [_ ?]%andb_true_iff. Qed.

#[export] Hint Resolve word_no_space : mcache.

Lemma append_assoc a b c : (a +:+ b) +:+ c = a +:+ (b +:+ c).
Proof. induction a as [|x a IH]; [done|]. change (String x ((a +:+ b) +:+ c) = String x (a +:+ (b +:+ c))). by rewrite IH. Qed.

(** Words joined by spaces, up to an end that has no words. *)
Lemma Fields_join_end ws c r : ascii_space c = true -> Fields r = [] -> Forall (fun w => word w = true) ws ->
  Fields (Join ws " " +:+ String c r) = ws.
Proof.
  intros Hc Hr Hws. destruct Hws as [|w ws Hw Hws]; unfold Fields in *.
  { change (Join [] " " +:+ String c r) with (String c r). cbn [split_words space_width]. rewrite Hc. by destruct (split_words 0 r). }
  revert w Hw. induction Hws as [|v ws Hv Hws IH]; intros w Hw.
  - change (Join [w] " ") with w. rewrite split_word by auto with mcache. destruct (split_words 0 r) as [x xs].
    rewrite Hr. by apply cons_word_word.
  - replace (Join (w :: v :: ws) " " +:+ String c r) with (w +:+ String " " (Join (v :: ws) " " +:+ String c r)).
    + rewrite split_word by auto with mcache. specialize (IH v Hv).
      destruct (split_words 0 (Join (v :: ws) " " +:+ String c r)) as [x xs]. rewrite IH. by apply cons_word_word.
    + change (Join (w :: v :: ws) " ") with (w +:+ String " " (Join (v :: ws) " ")). by rewrite append_assoc.
Qed.

(** Trimming does not change the fields. *)
Lemma Fields_trim_left s : forall skip, (let '(w, ws) := split_words skip s in cons_word w ws) = Fields (trim_left skip s).
Proof.
  induction s as [|a s IH]; intros skip; [by destruct skip|]. destruct skip as [|skip]; cbn [split_words trim_left]; [|apply IH].
  destruct (space_width (String a s)) as [|skip] eqn:Hw.
  - unfold Fields. cbn [split_words]. by rewrite Hw.
  - rewrite <-IH. by destruct (split_words skip s).
Qed.

(** A continuation byte of UTF-8 does not begin a space. *)
Definition cont (c : ascii) : bool := (128 <=? code c)%N && (code c <? 192)%N.

Lemma cont_spec c : cont c = true <-> (128 <= code c < 192)%N.
Proof. unfold cont. rewrite andb_true_iff, N.leb_le, N.ltb_lt. done. Qed.

Lemma cont_no_space b t : cont b = true -> all_space (String b t) = false.
Proof.
  intros [Hlo Hhi]%cont_spec. unfold all_space. apply bool_decide_eq_false.
  assert (space_width (String b t) = 0%nat) as Hw.
  { assert (forall n, (n < 128 \/ 192 <= n)%N -> (code b =? n)%N = false) as Hn by (intros; apply N.eqb_neq; lia).
    cbn [space_width]. assert (ascii_space b = false) as ->.
    { unfold ascii_space. rewrite Hn by lia. rewrite (proj2 (N.leb_gt (code b) 13)) by lia. by rewrite andb_false_r. }
    destruct t as [|c t]; [done|]. unfold space2, space3. rewrite !Hn by lia. cbn. by destruct t. }
  unfold Fields. cbn [split_words]. rewrite Hw. by destruct (split_words 0 t).
Qed.

Ltac bytes_of_space H :=
  repeat first [rewrite orb_true_iff in H|rewrite andb_true_iff in H|rewrite N.eqb_eq in H|rewrite N.leb_le in H].

Lemma space2_cont a b : space2 a b = true -> cont b = true.
Proof. unfold space2. intros H. bytes_of_space H. apply cont_spec. lia. Qed.

Lemma space3_cont a b c : space3 a b c = true -> cont b = true /\ cont c = true.
Proof. unfold space3. intros H. bytes_of_space H. rewrite !cont_spec. lia. Qed.

(** The bytes of a space after the first are continuation bytes. *)
Fixpoint starts_cont (k : nat) (s : string) : bool :=
  match k, s with S k, String c t => cont c && starts_cont k t | _, _ => true end.

Lemma space_width_cont a t k : space_width (String a t) = S k -> starts_cont k t = true.
Proof.
  cbn [space_width]. destruct (ascii_space a); [by intros [= <-]|]. destruct t as [|b t]; [done|].
  destruct (space2 a b) eqn:H2; [intros [= <-]; cbn; by rewrite (space2_cont a b)|]. destruct t as [|c t]; [done|].
  destruct (space3 a b c) eqn:H3; [|done]. intros [= <-]. apply space3_cont in H3 as [Hb Hc]. cbn. by rewrite Hb, Hc.
Qed.

Lemma trim_right_cons b t : trim_right (String b t) = if all_space (String b t) then EmptyString else String b (trim_right t).
Proof. done. Qed.

Lemma space_width_trim a t : space_width (String a (trim_right t)) = space_width (String a t).
Proof.
  cbn [space_width]. destruct (ascii_space a); [done|]. destruct t as [|b t]; [done|]. rewrite trim_right_cons.
  destruct (all_space (String b t)) eqn:Hb.
  - destruct (space2 a b) eqn:H2; [apply space2_cont, (cont_no_space b t) in H2; congruence|].
    destruct t as [|c t]; [done|]. destruct (space3 a b c) eqn:H3; [|done].
    apply space3_cont in H3 as [H3 _]. apply (cont_no_space b (String c t)) in H3. congruence.
  - destruct (space2 a b); [done|]. destruct t as [|c t]; [done|]. rewrite trim_right_cons.
    destruct (all_space (String c t)) eqn:Hc; [|done]. destruct (space3 a b c) eqn:H3; [|done].
    apply space3_cont in H3 as [_ H3]. apply (cont_no_space c t) in H3. congruence.
Qed.

Lemma split_words_trim s : forall skip, starts_cont skip s = true -> split_words skip (trim_right s) = split_words skip s.
Proof.
  induction s as [|a s IH]; intros skip H; [done|]. rewrite trim_right_cons. destruct (all_space (String a s)) eqn:Hs.
  - destruct skip as [|skip].
    + unfold all_space in Hs. apply bool_decide_eq_true in Hs. unfold Fields in Hs.
      destruct (split_words 0 (String a s)) as [[|c w] ws]; [by cbn in *; subst|done].
    + cbn [starts_cont] in H. apply andb_true_iff in H as [Ha _]. apply (cont_no_space a s) in Ha. congruence.
  - destruct skip as [|skip]; cbn [split_words].
    + rewrite space_width_trim. destruct (space_width (String a s)) as [|skip] eqn:Hw; [by rewrite IH|].
      rewrite IH; [done|]. by eapply space_width_cont.
    + cbn [starts_cont] in H. apply andb_true_iff in H as [_ H]. by apply IH.
Qed.

Lemma Fields_TrimSpace s : Fields (TrimSpace s) = Fields s.
Proof.
  unfold TrimSpace. transitivity (Fields (trim_left 0 s)); [|symmetry; apply (Fields_trim_left s 0)].
  unfold Fields. by rewrite split_words_trim.
Qed.

(** Visible ASCII characters make words; so numbers are words. *)
Definition visible (c : ascii) : bool := (33 <=? code c)%N && (code c <=? 126)%N.

Fixpoint plain (s : string) : bool :=
  match s with EmptyString => true | String c s => visible c && plain s end.

Lemma visible_no_space c t : visible c = true -> space_width (String c t) = 0%nat.
Proof.
  unfold visible. intros [Hlo%N.leb_le Hhi%N.leb_le]%andb_true_iff. cbn [space_width].
  assert (ascii_space c = false) as ->.
  { unfold ascii_space. apply orb_false_iff. split; [apply andb_false_iff; right; apply N.leb_gt; lia|apply N.eqb_neq; lia]. }
  destruct t as [|b t]; [done|]. assert (forall n, (126 < n)%N -> (code c =? n)%N = false) as Hn by (intros; apply N.eqb_neq; lia).
  unfold space2, space3. rewrite !Hn by lia. cbn. by destruct t.
Qed.

Lemma plain_no_space s : plain s = true -> no_space s = true.
Proof.
  induction s as [|c s IH]; [done|]. cbn [plain no_space]. intros [Hc Hs]%andb_true_iff.
  by rewrite visible_no_space, IH by done.
Qed.

Lemma plain_word s : plain s = true -> s <> EmptyString -> word s = true.
Proof. intros Hp Hne. unfold word. rewrite plain_no_space by done. by rewrite bool_decide_false. Qed.

Lemma plain_pretty_go n : forall s, plain s = true -> plain (pretty_N_go n s) = true.
Proof.
  induction (N.lt_wf_0 n) as [n _ IH]. intros s Hs. destruct (decide (n = 0%N)) as [->|Hz]; [by rewrite pretty_N_go_0|].
  rewrite pretty_N_go_step by lia. apply IH; [apply N.div_lt; lia|]. cbn [plain]. rewrite Hs, andb_true_r.
  pose proof (N.mod_lt n 10 ltac:(done)) as Hm. destruct (n mod 10)%N as [|p]; [done|].
  by do 4 (destruct p as [p|p|]; try done; try lia).
Qed.

Lemma plain_pretty_N (n : N) : plain (pretty n) = true.
Proof. unfold pretty, pretty_N. case_decide; [done|]. by apply plain_pretty_go. Qed.

Lemma word_FormatInt n : word (FormatInt n) = true.
Proof.
  unfold FormatInt, pretty, pretty_Z. destruct n as [|p|p]; [done|..].
  - destruct (pretty_N_head (N.pos p) "-"%char eq_refl) as (c & s & Hp & _). pose proof (plain_pretty_N (N.pos p)) as Hpl.
    change (pretty p) with (pretty (N.pos p)). apply plain_word; [done|]. by rewrite Hp.
  - apply plain_word; [|done]. change (pretty p) with (pretty (N.pos p)).
    change (plain (String "-" (pretty (N.pos p))) = true). cbn [plain]. by rewrite plain_pretty_N.
Qed.

#[export] Hint Resolve word_FormatInt : mcache.
