(* ===== verification/Float64.v ===== *)
(** * float64

    Go's [float64] is IEEE 754 binary64.  Its values and its correctly rounded
    operations are those of the Standard Library's [SpecFloat] at 53 bits and exponent
    1024.  Here are the operations the code uses, and what the proofs need: results are
    well formed, comparison is comparison of values, and rounding never passes a
    float ([round_le]), which bounds products, quotients and differences. *)

From Stdlib Require Import ZArith Lia Floats.SpecFloat.
From stdpp Require Import base tactics numbers.
From S2P Require Import Prelude.

Open Scope Z_scope.

(** ** Operations *)

Notation float := spec_float.

Module F64.

Notation prec := 53 (only parsing).
Notation emax := 1024 (only parsing).

Definition add : float -> float -> float := SFadd 53 1024.
Definition sub : float -> float -> float := SFsub 53 1024.
Definition mul : float -> float -> float := SFmul 53 1024.
Definition div : float -> float -> float := SFdiv 53 1024.
Definition ltb : float -> float -> bool := SFltb.
Definition leb : float -> float -> bool := SFleb.
Definition eqb : float -> float -> bool := SFeqb.
Definition valid (x : float) : Prop := valid_binary 53 1024 x = true.

(** [float64(n)]. *)
Definition of_Z (n : Z) : float := binary_normalize 53 1024 n 0 false.

(** The constant [n/d], for [n] and [d] below 2^53. *)
Definition lit (n d : Z) : float := div (of_Z n) (of_Z d).

Definition zero : float := S754_zero false.
Definition one : float := of_Z 1.
Definition is_nan (x : float) : bool := match x with S754_nan => true | _ => false end.
Definition is_inf (x : float) : bool := match x with S754_infinity _ => true | _ => false end.

(** [math.Max]. *)
Definition max (x y : float) : float :=
  match x, y with
  | S754_infinity false, _ | _, S754_infinity false => S754_infinity false
  | S754_nan, _ | _, S754_nan => S754_nan
  | S754_zero true, S754_zero _ => y
  | S754_zero _, S754_zero _ => x
  | _, _ => if ltb y x then x else y
  end.

(** [int(x)]: towards zero; out of range the conversion of amd64. *)
Definition to_int (x : float) : Z :=
  match x with
  | S754_zero _ => 0
  | S754_finite s m e =>
      let n := if e <? 0 then Zpos m / 2 ^ (- e) else Zpos m * 2 ^ e in
      let n := if s then - n else n in
      if (min_int64 <=? n) && (n <=? max_int64) then n else min_int64
  | _ => min_int64
  end.

End F64.

Declare Scope f64_scope.
Delimit Scope f64_scope with f64.
Infix "+" := F64.add : f64_scope.
Infix "-" := F64.sub : f64_scope.
Infix "*" := F64.mul : f64_scope.
Infix "/" := F64.div : f64_scope.
Notation "x < y" := (F64.ltb x y) : f64_scope.
Notation "x <= y" := (F64.leb x y) : f64_scope.
Notation "x > y" := (F64.ltb y x) (only parsing) : f64_scope.
Notation "x >= y" := (F64.leb y x) (only parsing) : f64_scope.
(** Decimal constants: [pc n] is n hundredths. *)
Notation pc n := (F64.lit n%Z 100).
Notation int n := (F64.of_Z n%Z).

(** [d.Seconds()] of a duration in nanoseconds. *)
Definition Seconds (d : Z) : float := (int (Z.quot d 1000000000) + int (Z.rem d 1000000000) / int 1000000000)%f64.

(** ** Digits *)

Lemma digits_spec p : 2 ^ (Zpos (digits2_pos p) - 1) <= Zpos p < 2 ^ Zpos (digits2_pos p).
Proof.
  induction p as [p IH|p IH|]; cbn [digits2_pos]; [..|done];
    rewrite Pos2Z.inj_succ, <-Z.add_1_r, Z.add_simpl_r, Z.pow_add_r by lia;
    assert (2 ^ Zpos (digits2_pos p) = 2 * 2 ^ (Zpos (digits2_pos p) - 1)) as Hd
      by (rewrite <-Z.pow_succ_r by lia; f_equal; lia); lia.
Qed.

Lemma Zdigits_pos m : 0 < m -> 0 < Zdigits2 m /\ 2 ^ (Zdigits2 m - 1) <= m < 2 ^ Zdigits2 m.
Proof. intros Hm. destruct m as [|p|p]; [lia| |lia]. split; [done|apply digits_spec]. Qed.

Lemma Zdigits_le m d : 0 <= m -> 0 <= d -> m < 2 ^ d -> Zdigits2 m <= d.
Proof.
  intros Hm Hd Hlt. destruct (decide (m = 0)) as [->|Hne]; [done|]. destruct (Zdigits_pos m) as [Hp [Hge _]]; [lia|].
  apply Z.lt_succ_r. apply Z.nle_gt. intros Hle. pose proof (Z.pow_le_mono_r 2 d (Zdigits2 m - 1) ltac:(lia) ltac:(lia)). lia.
Qed.

Lemma Zdigits_ge m d : 2 ^ d <= m -> 0 <= d -> d < Zdigits2 m.
Proof.
  intros Hle Hd. assert (0 < m) as Hm by (pose proof (Z.pow_pos_nonneg 2 d); lia). destruct (Zdigits_pos m Hm) as [_ [_ Hlt]].
  apply Z.nle_gt. intros Hge. pose proof (Z.pow_le_mono_r 2 (Zdigits2 m) d ltac:(lia) Hge). lia.
Qed.

(** ** Shifts *)

(** [mrs] is [m], at location [l], shifted by [n]. *)
Record shifted (m : Z) (l : location) (n : Z) (mrs : shr_record) : Prop := {
  sh_m : shr_m mrs = m / 2 ^ n;
  sh_exact : m mod 2 ^ n = 0 -> l = loc_Exact -> loc_of_shr_record mrs = loc_Exact;
}.

Lemma shr_1_m mrs : 0 <= shr_m mrs -> shr_m (shr_1 mrs) = shr_m mrs / 2.
Proof.
  destruct mrs as [[|[p|p|]|p] r s]; cbn; intros Hm; try done; try lia; symmetry.
  - rewrite (Pos2Z.inj_xI p), Z.add_comm, Z.mul_comm. by apply Z.div_add.
  - rewrite (Pos2Z.inj_xO p), Z.mul_comm. by apply Z.div_mul.
Qed.

Lemma shr_1_exact mrs : 0 <= shr_m mrs -> loc_of_shr_record mrs = loc_Exact -> shr_m mrs mod 2 = 0 ->
  loc_of_shr_record (shr_1 mrs) = loc_Exact.
Proof.
  destruct mrs as [[|[p|p|]|p] [] []]; cbn; intros Hm H He; try done; try lia.
  by rewrite (Pos2Z.inj_xI p), Z.add_comm, Z.mul_comm, Z.mod_add in He.
Qed.

Lemma shifted_step m l n mrs : 0 <= m -> 0 <= n -> shifted m l n mrs -> shifted m l (n + 1) (shr_1 mrs).
Proof.
  intros Hm Hn [H1 H2]. assert (0 < 2 ^ n) by (apply Z.pow_pos_nonneg; lia).
  assert (0 <= shr_m mrs) as Hpos by (rewrite H1; by apply Z.div_pos). split.
  - rewrite shr_1_m, H1, Z.div_div by lia. by rewrite Z.pow_add_r by lia.
  - rewrite Z.pow_add_r, Z.rem_mul_r, <-H1 by lia. change (2 ^ 1) with 2. intros Hmod Hl.
    pose proof (Z.mod_pos_bound m (2 ^ n)). pose proof (Z.mod_pos_bound (shr_m mrs) 2).
    apply shr_1_exact; [done| |nia]. apply H2; [nia|done].
Qed.

Lemma shifted_iter m l p n mrs : 0 <= m -> 0 <= n -> shifted m l n mrs -> shifted m l (n + Zpos p) (SpecFloat.iter_pos shr_1 p mrs).
Proof.
  intros Hm. revert n mrs. induction p as [p IH|p IH|]; intros n mrs Hn H; cbn [SpecFloat.iter_pos].
  - rewrite Pos2Z.inj_xI. replace (n + (2 * Zpos p + 1)) with (n + 1 + Zpos p + Zpos p) by lia.
    apply IH; [lia|]. apply IH; [lia|]. by apply shifted_step.
  - rewrite Pos2Z.inj_xO. replace (n + 2 * Zpos p) with (n + Zpos p + Zpos p) by lia. apply IH; [lia|]. by apply IH.
  - by apply shifted_step.
Qed.

Notation fexp := (fexp 53 1024).
Notation shr_fexp := (shr_fexp 53 1024).
Notation binary_round_aux := (binary_round_aux 53 1024).

Lemma fexp_max e : fexp e = Z.max (e - 53) (-1074).
Proof. done. Qed.

Lemma shr_fexp_spec m e l : 0 <= m -> exists mrs,
  let e' := Z.max e (fexp (Zdigits2 m + e)) in shr_fexp m e l = (mrs, e') /\ shifted m l (e' - e) mrs.
Proof.
  intros Hm. assert (shifted m l 0 (shr_record_of_loc m l)) as H0.
  { split; [by destruct l as [|[]]; cbn; rewrite Z.div_1_r|]. by intros _ ->. }
  unfold SpecFloat.shr_fexp, shr. set (n := fexp (Zdigits2 m + e) - e).
  destruct n as [|p|p] eqn:Hn; subst n; eexists; (split; [f_equal; lia|]).
  - replace (Z.max _ _ - e) with 0 by lia. exact H0.
  - replace (Z.max _ _ - e) with (0 + Zpos p) by lia. by apply shifted_iter.
  - replace (Z.max _ _ - e) with 0 by lia. exact H0.
Qed.

Lemma round_bounds m l : m <= round_nearest_even m l <= m + 1 /\ (l = loc_Exact -> round_nearest_even m l = m).
Proof. destruct l as [|[]]; cbn; [..|]; try (split; [lia|done]). destruct (Z.even m); split; (lia || done). Qed.

(** ** Rounding *)

(** What [m], rounded, is: [m1] units of [2 ^ e'], the neighbour of [m] below or above,
    the one below if [m] is a whole number of units. *)
Record rounds_to (m e : Z) (l : location) (m1 e' : Z) : Prop := {
  rt_exp : e' = fexp (Zdigits2 m + e);
  rt_floor : m / 2 ^ (e' - e) <= m1 <= m / 2 ^ (e' - e) + 1;
  rt_exact : m mod 2 ^ (e' - e) = 0 -> l = loc_Exact -> m1 = m / 2 ^ (e' - e);
  rt_range : 0 <= m1 <= 2 ^ 53;
  rt_normal : 2 ^ 52 <= m1 \/ e' = -1074;
}.

Definition finite_or_inf (s : bool) (m e : Z) : float :=
  if e <=? 971 then S754_finite s (Z.to_pos m) e else S754_infinity s.

(** [m1] units of [2 ^ e'] as a float. *)
Definition packed (s : bool) (m1 e' : Z) : float :=
  if m1 =? 0 then S754_zero s else if m1 =? 2 ^ 53 then finite_or_inf s (2 ^ 52) (e' + 1) else finite_or_inf s m1 e'.

Lemma floor_range m e : 0 <= m -> e <= fexp (Zdigits2 m + e) ->
  let q := m / 2 ^ (fexp (Zdigits2 m + e) - e) in
  0 <= q < 2 ^ 53 /\ (2 ^ 52 <= q \/ fexp (Zdigits2 m + e) = -1074).
Proof.
  cbv zeta. intros Hm He. set (e' := fexp (Zdigits2 m + e)) in *. assert (0 < 2 ^ (e' - e)) as Hp by (apply Z.pow_pos_nonneg; lia).
  assert (e' = Z.max (Zdigits2 m + e - 53) (-1074)) as He' by apply fexp_max.
  destruct (decide (m = 0)) as [->|Hne].
  { rewrite Z.div_0_l by lia. split; [lia|]. right. cbn in He'. lia. }
  destruct (Zdigits_pos m ltac:(lia)) as (Hd & Hlo & Hhi). split; [split|].
  - apply Z.div_pos; lia.
  - apply Z.div_lt_upper_bound; [lia|]. rewrite <-Z.pow_add_r by lia.
    apply (Z.lt_le_trans _ _ _ Hhi). apply Z.pow_le_mono_r; lia.
  - destruct (decide (e' = -1074)) as [|Hn]; [by right|left]. apply Z.div_le_lower_bound; [lia|].
    rewrite <-Z.pow_add_r by lia. apply (Z.le_trans _ (2 ^ (Zdigits2 m - 1))); [|done]. apply Z.pow_le_mono_r; lia.
Qed.

Lemma pack_spec s m1 e' : 0 <= m1 <= 2 ^ 53 -> -1074 <= e' ->
  (let '(mrs'', e'') := shr_fexp m1 e' loc_Exact in
   match shr_m mrs'' with
   | Z0 => S754_zero s
   | Zpos m => if Z.leb e'' (Z.sub 1024 53) then S754_finite s m e'' else S754_infinity s
   | _ => S754_nan
   end) = packed s m1 e'.
Proof.
  intros Hm He. destruct (shr_fexp_spec m1 e' loc_Exact ltac:(lia)) as (mrs & -> & [Hq _]). rewrite Hq. clear Hq mrs.
  unfold packed, finite_or_inf. rewrite fexp_max. change (1024 - 53) with 971.
  destruct (Z.eqb_spec m1 0) as [->|Hn0]; [by rewrite Z.div_0_l by (apply Z.pow_nonzero; lia)|].
  destruct (Z.eqb_spec m1 (2 ^ 53)) as [->|Hn1].
  - change (Zdigits2 (2 ^ 53)) with 54. replace (Z.max _ _) with (e' + 1) by lia.
    replace (e' + 1 - e') with 1 by lia. done.
  - pose proof (Zdigits_le m1 53 ltac:(lia) ltac:(lia) ltac:(lia)) as Hd.
    replace (Z.max _ _) with e' by lia. rewrite Z.sub_diag, Z.div_1_r. by destruct m1; [lia| |lia].
Qed.

Lemma round_aux_spec s m e l : 0 <= m -> e <= fexp (Zdigits2 m + e) ->
  exists m1 e', rounds_to m e l m1 e' /\ binary_round_aux s m e l = packed s m1 e'.
Proof.
  intros Hm He. destruct (floor_range m e Hm He) as [Hq Hn]. unfold SpecFloat.binary_round_aux.
  destruct (shr_fexp_spec m e l Hm) as (mrs & -> & [Hmrs Hex]). rewrite Z.max_r in * by done.
  set (e' := fexp (Zdigits2 m + e)) in *. destruct (round_bounds (shr_m mrs) (loc_of_shr_record mrs)) as [Hb Hbe].
  set (m1 := round_nearest_even (shr_m mrs) (loc_of_shr_record mrs)) in *. rewrite Hmrs in Hb, Hbe.
  exists m1, e'. split; [|apply pack_spec; [lia|unfold e'; rewrite fexp_max; lia]].
  split; [done|lia| |lia|lia]. intros Hmod Hl. by apply Hbe, Hex.
Qed.

(** ** Well-formed floats *)

Lemma valid_finite s m e :
  F64.valid (S754_finite s m e) <-> Zpos m < 2 ^ 53 /\ -1074 <= e <= 971 /\ (2 ^ 52 <= Zpos m \/ e = -1074).
Proof.
  unfold F64.valid. cbn [valid_binary]. unfold bounded, canonical_mantissa. rewrite fexp_max, andb_true_iff, Z.eqb_eq, Z.leb_le.
  pose proof (digits_spec m) as [Hlo Hhi]. set (d := Zpos (digits2_pos m)) in *. split.
  - intros [He Hmax]. assert (d <= 53) as Hd by lia. pose proof (Z.pow_le_mono_r 2 d 53 ltac:(lia) Hd).
    split_and!; [lia|lia|lia|]. destruct (decide (e = -1074)) as [|Hne]; [by right|left].
    apply (Z.le_trans _ (2 ^ (d - 1))); [|done]. apply Z.pow_le_mono_r; lia.
  - intros (Hm & He & Hn). assert (d <= 53) as Hd by (apply (Zdigits_le (Zpos m) 53); lia). split; [|lia].
    destruct Hn as [Hn| ->]; [|lia]. assert (52 < d) as Hd' by (apply (Zdigits_ge (Zpos m) 52); lia). lia.
Qed.

Lemma packed_valid s m1 e' :
  0 <= m1 <= 2 ^ 53 -> 2 ^ 52 <= m1 \/ e' = -1074 -> -1074 <= e' -> F64.valid (packed s m1 e').
Proof.
  intros Hm Hn He. unfold packed, finite_or_inf. destruct (Z.eqb_spec m1 0); [done|]. destruct (Z.eqb_spec m1 (2 ^ 53)) as [->|].
  - destruct (Z.leb_spec (e' + 1) 971); [|done]. apply valid_finite. rewrite Z2Pos.id by lia. lia.
  - destruct (Z.leb_spec e' 971); [|done]. apply valid_finite. rewrite Z2Pos.id by lia. lia.
Qed.

Lemma round_aux_valid s m e l : 0 <= m -> e <= fexp (Zdigits2 m + e) -> F64.valid (binary_round_aux s m e l).
Proof.
  intros Hm He. destruct (round_aux_spec s m e l Hm He) as (m1 & e' & [-> _ _ Hr Hn] & ->).
  apply packed_valid; [lia|done|rewrite fexp_max; lia].
Qed.

(** *** Values

    A positive float [m * 2 ^ e], in units of [2 ^ -3000]. *)
Definition units (m e : Z) : Z := m * 2 ^ (e + 3000).

Lemma units_pos m e : 0 < m -> -3000 <= e -> 0 < units m e.
Proof. intros Hm He. unfold units. pose proof (Z.pow_pos_nonneg 2 (e + 3000)). nia. Qed.

Lemma units_shift m e n : -3000 <= e -> 0 <= n -> units m (e + n) = units (m * 2 ^ n) e.
Proof. intros He Hn. unfold units. replace (e + n + 3000) with (n + (e + 3000)) by lia. rewrite Z.pow_add_r by lia. lia. Qed.

Lemma units_le m m' e : -3000 <= e -> units m e <= units m' e <-> m <= m'.
Proof. intros He. unfold units. assert (0 < 2 ^ (e + 3000)) by (apply Z.pow_pos_nonneg; lia). nia. Qed.

Lemma units_lt m m' e : -3000 <= e -> units m e < units m' e <-> m < m'.
Proof. intros He. unfold units. assert (0 < 2 ^ (e + 3000)) by (apply Z.pow_pos_nonneg; lia). nia. Qed.

(** The exponents of well-formed floats decide first. *)
Lemma exponent_first s m e s' m' e' :
  F64.valid (S754_finite s m e) -> F64.valid (S754_finite s' m' e') -> e < e' -> units (Zpos m) e < units (Zpos m') e'.
Proof.
  rewrite !valid_finite. intros (Hm & He & _) (_ & He' & Hn) Hlt.
  replace e' with (e + (e' - e)) by lia. rewrite units_shift, units_lt by lia.
  assert (2 ^ 1 <= 2 ^ (e' - e)) as Hp by (apply Z.pow_le_mono_r; lia). nia.
Qed.

(** Comparison is comparison of values. *)
Lemma compare_units m e m' e' :
  F64.valid (S754_finite false m e) -> F64.valid (S754_finite false m' e') ->
  SFcompare (S754_finite false m e) (S754_finite false m' e') = Some (units (Zpos m) e ?= units (Zpos m') e').
Proof.
  intros H H'. cbn [SFcompare]. f_equal. destruct (Z.compare_spec e e') as [->|Hlt|Hgt]; symmetry.
  - change (Pos.compare_cont Eq m m') with (Zpos m ?= Zpos m'). apply valid_finite in H as (_ & He & _).
    destruct (Z.compare_spec (Zpos m) (Zpos m')) as [->|Hc|Hc]; [apply Z.compare_refl|apply Z.compare_lt_iff|apply Z.compare_gt_iff];
      apply units_lt; lia.
  - apply Z.compare_lt_iff. by eapply exponent_first.
  - apply Z.compare_gt_iff. by eapply exponent_first.
Qed.

Lemma leb_units m e m' e' :
  F64.valid (S754_finite false m e) -> F64.valid (S754_finite false m' e') ->
  F64.leb (S754_finite false m e) (S754_finite false m' e') = true <-> units (Zpos m) e <= units (Zpos m') e'.
Proof.
  intros H H'. unfold F64.leb, SFleb. rewrite compare_units by done.
  destruct (Z.compare_spec (units (Zpos m) e) (units (Zpos m') e')); split; (lia || done).
Qed.

Lemma ltb_units m e m' e' :
  F64.valid (S754_finite false m e) -> F64.valid (S754_finite false m' e') ->
  F64.ltb (S754_finite false m e) (S754_finite false m' e') = true <-> units (Zpos m) e < units (Zpos m') e'.
Proof.
  intros H H'. unfold F64.ltb, SFltb. rewrite compare_units by done.
  destruct (Z.compare_spec (units (Zpos m) e) (units (Zpos m') e')); split; (lia || done).
Qed.

(** *** Rounding does not pass a float *)

Lemma round_units m e l m1 e' my ey :
  0 <= m -> -3000 <= e -> e <= fexp (Zdigits2 m + e) -> rounds_to m e l m1 e' -> F64.valid (S754_finite false my ey) ->
  units m e <= units (Zpos my) ey -> (l <> loc_Exact -> units m e < units (Zpos my) ey) ->
  e' <= ey /\ units m1 e' <= units (Zpos my) ey.
Proof.
  intros Hm He Hfe [-> Hfl Hex Hr Hn] Hy Hle Hlt. set (e' := fexp (Zdigits2 m + e)) in *. apply valid_finite in Hy as (Hmy & Hey & Hny).
  assert (e' <= ey) as Hee.
  { destruct (decide (m = 0)) as [->|Hm0]; [unfold e' in *; rewrite fexp_max in *; change (Zdigits2 0) with 0 in *; lia|].
    destruct (Zdigits_pos m ltac:(lia)) as (Hd & Hlo & _). unfold e'. rewrite fexp_max. destruct (decide (Zdigits2 m + e - 53 <= ey)); [lia|].
    exfalso. assert (units (2 ^ 53) ey <= units m e); [|pose proof (proj2 (units_lt (Zpos my) (2 ^ 53) ey ltac:(lia)) Hmy); lia].
    unfold units. rewrite <-Z.pow_add_r by lia. apply (Z.le_trans _ (2 ^ (Zdigits2 m - 1) * 2 ^ (e + 3000))); [|nia].
    rewrite <-Z.pow_add_r by lia. apply Z.pow_le_mono_r; lia. }
  split; [done|]. replace ey with (e' + (ey - e')) by lia. rewrite units_shift by lia. apply units_le; [lia|].
  set (Y := Zpos my * 2 ^ (ey - e')). replace ey with (e + (e' - e) + (ey - e')) in Hle, Hlt by lia.
  rewrite !units_shift in Hle, Hlt by lia. fold Y in Hle, Hlt. rewrite units_le in Hle by lia. rewrite units_lt in Hlt by lia.
  assert (0 < 2 ^ (e' - e)) as Hp by (apply Z.pow_pos_nonneg; lia). pose proof (Z.div_mod m (2 ^ (e' - e)) ltac:(lia)) as Hdm.
  pose proof (Z.mod_pos_bound m (2 ^ (e' - e)) Hp) as Hmod. set (q := m / 2 ^ (e' - e)) in *.
  destruct (decide (m mod 2 ^ (e' - e) = 0)) as [H0|H0]; [destruct l as [|c]|].
  - rewrite Hex by done. nia.
  - specialize (Hlt ltac:(done)). nia.
  - nia.
Qed.

Lemma packed_units_le m1 e' my ey :
  0 <= m1 <= 2 ^ 53 -> -1074 <= e' -> 2 ^ 52 <= m1 \/ e' = -1074 -> F64.valid (S754_finite false my ey) ->
  e' <= ey -> units m1 e' <= units (Zpos my) ey -> F64.leb (packed false m1 e') (S754_finite false my ey) = true.
Proof.
  intros Hm He Hn Hy Hee Hle. pose proof (packed_valid false m1 e' Hm Hn He) as Hv. unfold packed, finite_or_inf in *.
  pose proof Hy as (Hmy & Hey & _)%valid_finite.
  destruct (Z.eqb_spec m1 0); [done|]. destruct (Z.eqb_spec m1 (2 ^ 53)) as [->|Hne].
  - assert (e' <> ey) as Hne.
    { intros ->. apply units_le in Hle; lia. }
    destruct (Z.leb_spec (e' + 1) 971); [|lia]. apply leb_units; [done|done|]. rewrite Z2Pos.id by lia.
    rewrite units_shift by lia. exact Hle.
  - destruct (Z.leb_spec e' 971); [|lia]. apply leb_units; [done|done|]. by rewrite Z2Pos.id by lia.
Qed.

Lemma round_le m e l my ey :
  0 <= m -> -3000 <= e -> e <= fexp (Zdigits2 m + e) -> F64.valid (S754_finite false my ey) ->
  units m e <= units (Zpos my) ey -> (l <> loc_Exact -> units m e < units (Zpos my) ey) ->
  F64.leb (binary_round_aux false m e l) (S754_finite false my ey) = true.
Proof.
  intros Hm He Hfe Hy Hle Hlt. destruct (round_aux_spec false m e l Hm Hfe) as (m1 & e' & Hr & ->).
  destruct (round_units m e l m1 e' my ey Hm He Hfe Hr Hy Hle Hlt) as [Hee Hu]. destruct Hr as [-> _ _ Hr Hn].
  apply packed_units_le; try done. rewrite fexp_max. lia.
Qed.

(** ** Operations: well-formed results *)

Lemma Zdigits_nonneg m : 0 <= Zdigits2 m.
Proof. by destruct m. Qed.

Lemma mul_pre s m e s' m' e' :
  F64.valid (S754_finite s m e) -> F64.valid (S754_finite s' m' e') ->
  e + e' <= fexp (Zdigits2 (Zpos (m * m')) + (e + e')).
Proof.
  rewrite !valid_finite, fexp_max, Pos2Z.inj_mul. intros (Hm & He & Hn) (Hm' & He' & Hn').
  destruct Hn as [Hn| ->]; [|destruct Hn' as [Hn'| ->]; [|lia]].
  - pose proof (Zdigits_ge (Zpos m * Zpos m') 52 ltac:(nia) ltac:(lia)). lia.
  - pose proof (Zdigits_ge (Zpos m * Zpos m') 52 ltac:(nia) ltac:(lia)). lia.
Qed.

Lemma mul_valid x y : F64.valid x -> F64.valid y -> F64.valid (F64.mul x y).
Proof.
  intros Hx Hy. destruct x as [sx|sx| |sx mx ex], y as [sy|sy| |sy my ey]; try done. cbn [F64.mul].
  apply round_aux_valid; [done|by eapply mul_pre].
Qed.

Lemma iter_xO m d : Zpos (Pos.iter xO m d) = Zpos m * 2 ^ Zpos d.
Proof.
  induction d as [|d IH] using Pos.peano_ind; [cbn; lia|]. rewrite Pos.iter_succ, Pos2Z.inj_xO, IH, Pos2Z.inj_succ, Z.pow_succ_r by lia. lia.
Qed.

Lemma shl_align_spec m e e' : exists m' e'', shl_align m e e' = (m', e'') /\ e'' = Z.min e e' /\ Zpos m' = Zpos m * 2 ^ (e - e'').
Proof.
  unfold shl_align. destruct (e' - e) as [|d|d] eqn:Hd; eexists _, _; (split; [done|]); split; try lia.
  - replace (e - e) with 0 by lia. lia.
  - replace (e - e) with 0 by lia. lia.
  - rewrite iter_xO. do 2 f_equal. lia.
Qed.

(** [m * 2 ^ e] rounded; the mantissa is widened first. *)
Lemma binary_round_widens s m e : -3000 <= e -> exists m' e',
  binary_round 53 1024 s m e = binary_round_aux s m' e' loc_Exact /\ 0 < m' /\ -3000 <= e' <= e /\
  e' <= fexp (Zdigits2 m' + e') /\ units m' e' = units (Zpos m) e.
Proof.
  intros He. unfold binary_round. set (f := fexp (Zpos (digits2_pos m) + e)).
  destruct (shl_align_spec m e f) as (m' & e' & -> & He' & Hm'). exists (Zpos m'), e'.
  assert (-1074 <= f) as Hf by (unfold f; rewrite fexp_max; lia).
  assert (units (Zpos m') e' = units (Zpos m) e) as Hu.
  { rewrite Hm'. replace e with (e' + (e - e')) at 2 by lia. by rewrite units_shift by lia. }
  split_and!; [done|lia|lia|lia| |done]. destruct (decide (f < e)) as [Hlt|Hge].
  - assert (e' = f) as -> by lia. apply (Z.le_trans _ (fexp (Zpos (digits2_pos m) + e))); [done|]. rewrite !fexp_max.
    pose proof (digits_spec m) as [Hlo _]. pose proof (Z.pow_pos_nonneg 2 (e - f) ltac:(lia) ltac:(lia)) as Hp.
    pose proof (Zdigits_ge (Zpos m') (Zpos (digits2_pos m) - 1 + (e - f))) as Hd.
    rewrite Hm' in Hd. rewrite Z.pow_add_r in Hd by lia. rewrite Hm'. specialize (Hd ltac:(nia) ltac:(lia)). lia.
  - assert (e' = e) as -> by lia. replace (e - e) with 0 in Hm' by lia. assert (m' = m) as -> by lia. unfold f in Hge. cbn. lia.
Qed.

Lemma binary_round_spec s m e : -3000 <= e -> exists m' e',
  binary_round 53 1024 s m e = binary_round_aux s m' e' loc_Exact /\ 0 < m' /\ -3000 <= e' /\
  e' <= fexp (Zdigits2 m' + e') /\ units m' e' = units (Zpos m) e.
Proof. intros He. destruct (binary_round_widens s m e He) as (m' & e' & H1 & H2 & [H3 _] & H4). eauto 8. Qed.

Lemma normalize_valid m e sz : -3000 <= e -> F64.valid (binary_normalize 53 1024 m e sz).
Proof.
  intros He. destruct m as [|p|p]; [done|..]; cbn [binary_normalize].
  - destruct (binary_round_spec false p e He) as (m' & e' & -> & Hm & _ & Hf & _). apply round_aux_valid; [lia|done].
  - destruct (binary_round_spec true p e He) as (m' & e' & -> & Hm & _ & Hf & _). apply round_aux_valid; [lia|done].
Qed.

Lemma valid_exp s m e : F64.valid (S754_finite s m e) -> -1074 <= e.
Proof. intros (_ & ? & _)%valid_finite. lia. Qed.

Lemma add_valid x y : F64.valid x -> F64.valid y -> F64.valid (F64.add x y).
Proof.
  intros Hx Hy. destruct x as [[]|[]| |sx mx ex], y as [[]|[]| |sy my ey]; try done. cbn [F64.add SFadd].
  apply valid_exp in Hx, Hy. apply normalize_valid. lia.
Qed.

Lemma sub_valid x y : F64.valid x -> F64.valid y -> F64.valid (F64.sub x y).
Proof.
  intros Hx Hy. destruct x as [[]|[]| |sx mx ex], y as [[]|[]| |sy my ey]; try done; cbn [F64.sub SFsub];
    [by apply valid_finite in Hy; apply valid_finite..|]. apply valid_exp in Hx, Hy. apply normalize_valid. lia.
Qed.

Lemma of_Z_valid n : F64.valid (F64.of_Z n).
Proof. apply normalize_valid. lia. Qed.

Lemma quotient_bound m1 m2 q r P E B A T :
  0 < m2 -> 0 < B -> 0 < E -> 0 < T -> 0 <= r -> m1 * P = m2 * q + r -> P * E * B = A * T -> m1 * A <= m2 * B ->
  q * E <= T /\ (r <> 0 -> q * E < T).
Proof.
  intros Hm2 HB HE HT Hr Hdm Hpow Hle. assert ((m2 * B) * (q * E) + r * (E * B) = (m1 * A) * T) as Heq.
  { replace (m1 * A * T) with (m1 * (A * T)) by lia. rewrite <-Hpow.
    replace (m1 * (P * E * B)) with (m1 * P * (E * B)) by lia. rewrite Hdm. lia. }
  assert ((m1 * A) * T <= (m2 * B) * T) as Hub by (apply Z.mul_le_mono_nonneg_r; lia).
  assert (0 < m2 * B) as HmB by (apply Z.mul_pos_pos; lia). assert (0 < E * B) as HEB by (apply Z.mul_pos_pos; lia).
  split.
  - apply (Z.mul_le_mono_pos_l _ _ (m2 * B)); [done|]. assert (0 <= r * (E * B)) by (apply Z.mul_nonneg_nonneg; lia). lia.
  - intros Hne. apply (Z.mul_lt_mono_pos_l (m2 * B)); [done|]. assert (0 < r * (E * B)) by (apply Z.mul_pos_pos; lia). lia.
Qed.

Lemma new_location_exact n : new_location n 0 = loc_Exact.
Proof. unfold new_location, new_location_even, new_location_odd. by destruct (Z.even n). Qed.

(** The quotient of mantissas, with the location of the rest. *)
Lemma div_core_spec s m1 e1 s' m2 e2 :
  F64.valid (S754_finite s m1 e1) -> F64.valid (S754_finite s' m2 e2) -> exists q e' l,
    SFdiv_core_binary 53 1024 (Zpos m1) e1 (Zpos m2) e2 = (q, e', l) /\ 0 <= q /\ -3000 <= e' /\
    e' <= fexp (Zdigits2 q + e') /\
    (units (Zpos m1) e1 <= units (Zpos m2) e2 -> units q e' <= units 1 0 /\ (l <> loc_Exact -> units q e' < units 1 0)).
Proof.
  rewrite !valid_finite. intros (_ & He1 & _) (_ & He2 & _). unfold SFdiv_core_binary.
  set (d1 := Zdigits2 (Zpos m1)). set (d2 := Zdigits2 (Zpos m2)). set (e' := Z.min (fexp (d1 + e1 - (d2 + e2))) (e1 - e2)).
  set (s0 := e1 - e2 - e'). assert (-3000 <= e' /\ 0 <= s0) as [He' Hs0] by (unfold s0, e'; rewrite fexp_max; lia).
  set (m' := match s0 with Z0 => _ | _ => _ end). assert (m' = Zpos m1 * 2 ^ s0) as Hm'.
  { unfold m'. destruct s0 as [|p|p]; [lia|apply Z.shiftl_mul_pow2; lia|lia]. }
  assert (0 < 2 ^ s0) as Hp by (apply Z.pow_pos_nonneg; lia).
  pose proof (Z_div_mod m' (Zpos m2) ltac:(lia)) as Hdm. destruct (Z.div_eucl m' (Zpos m2)) as [q r]. destruct Hdm as [Hdm Hr].
  exists q, e', (new_location (Zpos m2) r). assert (0 <= q) as Hq by nia.
  split_and!; [done|done|done| |].
  - apply (Z.le_trans _ (fexp (d1 + e1 - (d2 + e2)))); [unfold e'; lia|]. rewrite !fexp_max.
    enough (d1 + s0 - d2 <= Zdigits2 q) by (unfold s0 in *; lia).
    pose proof (Zdigits_nonneg q). destruct (decide (d1 + s0 - d2 <= 0)) as [|Hgt]; [lia|].
    assert (2 ^ (d1 + s0 - d2 - 1) <= q) as Hlow; [|pose proof (Zdigits_ge q _ Hlow); lia].
    pose proof (digits_spec m1) as [Hlo _]. pose proof (digits_spec m2) as [_ Hhi]. fold d1 d2 in Hlo, Hhi.
    change (Zpos (digits2_pos m1)) with d1 in Hlo. change (Zpos (digits2_pos m2)) with d2 in Hhi.
    assert (2 ^ (d1 - 1) * 2 ^ s0 = 2 ^ (d1 + s0 - d2 - 1) * 2 ^ d2) as Hsplit.
    { assert (0 < d1 /\ 0 < d2) by (split; done). rewrite <-!Z.pow_add_r by lia. f_equal. lia. }
    assert (0 < 2 ^ (d1 + s0 - d2 - 1)) by (apply Z.pow_pos_nonneg; lia). nia.
  - intros Hle. unfold units in *. set (B := 2 ^ (e2 + 3000)) in *.
    assert (2 ^ s0 * 2 ^ (e' + 3000) * B = 2 ^ (e1 + 3000) * 2 ^ 3000) as Hpow.
    { unfold B. rewrite <-!Z.pow_add_r by (unfold s0; lia). f_equal. unfold s0. lia. }
    destruct (quotient_bound (Zpos m1) (Zpos m2) q r (2 ^ s0) (2 ^ (e' + 3000)) B (2 ^ (e1 + 3000)) (2 ^ 3000)) as [H1 H2];
      try done; try (apply Z.pow_pos_nonneg; lia); [lia|lia|].
    change (0 + 3000) with 3000. split; [lia|]. intros Hl. assert (r <> 0) as Hr0.
    { intros ->. apply Hl, new_location_exact. }
    specialize (H2 Hr0). lia.
Qed.

Lemma div_valid x y : F64.valid x -> F64.valid y -> F64.valid (F64.div x y).
Proof.
  intros Hx Hy. destruct x as [sx|sx| |sx mx ex], y as [sy|sy| |sy my ey]; try done. cbn [F64.div SFdiv].
  destruct (div_core_spec _ _ _ _ _ _ Hx Hy) as (q & e' & l & -> & Hq & _ & Hf & _). by apply round_aux_valid.
Qed.

Lemma lit_valid n d : F64.valid (F64.lit n d).
Proof. apply div_valid; apply of_Z_valid. Qed.

Lemma max_valid x y : F64.valid x -> F64.valid y -> F64.valid (F64.max x y).
Proof. intros Hx Hy. destruct x as [[]|[]| |sx mx ex], y as [[]|[]| |sy my ey]; try done; cbn [F64.max]; by case_match. Qed.

(** ** Operations: bounds *)

Definition within (lo hi x : float) : Prop := F64.leb lo x = true /\ F64.leb x hi = true.

(** Floats that are at least zero. *)
Definition nonneg (x : float) : bool :=
  match x with S754_zero _ => true | S754_infinity s => negb s | S754_finite s _ _ => negb s | S754_nan => false end.

Lemma leb_zero x : F64.leb F64.zero x = nonneg x.
Proof. by destruct x as [|[]| |[]]. Qed.

Lemma packed_nonneg m1 e' : nonneg (packed false m1 e') = true.
Proof. unfold packed, finite_or_inf. by repeat case_match. Qed.

Lemma round_nonneg m e l : 0 <= m -> e <= fexp (Zdigits2 m + e) -> nonneg (binary_round_aux false m e l) = true.
Proof. intros Hm He. destruct (round_aux_spec false m e l Hm He) as (m1 & e' & _ & ->). apply packed_nonneg. Qed.

(** Between zero and a positive float. *)
Lemma within_inv c x : F64.valid x -> within F64.zero c x -> F64.is_inf c = false ->
  (exists s, x = S754_zero s) \/ exists m e, x = S754_finite false m e.
Proof.
  intros Hv [Hlo Hhi] Hc. rewrite leb_zero in Hlo. destruct x as [s|[]| |[] m e]; try done; eauto. by destruct c as [|[]| |[]].
Qed.

Lemma one_units : F64.one = S754_finite false 4503599627370496 (-52).
Proof. reflexivity. Qed.

Lemma units_one : units 4503599627370496 (-52) = units 1 0.
Proof. reflexivity. Qed.

Lemma mul_within x mc ec :
  F64.valid x -> F64.valid (S754_finite false mc ec) -> within F64.zero F64.one x ->
  within F64.zero (S754_finite false mc ec) (F64.mul x (S754_finite false mc ec)).
Proof.
  intros Hv Hc Hx. destruct (within_inv _ _ Hv Hx eq_refl) as [[s ->]|(m & e & ->)]; [by destruct s|].
  destruct Hx as [_ Hx]. rewrite one_units in Hx. apply leb_units in Hx; [|done|reflexivity].
  rewrite units_one in Hx. pose proof (mul_pre _ _ _ _ _ _ Hv Hc) as Hpre. cbn [F64.mul SFmul xorb].
  split; [rewrite leb_zero; by apply round_nonneg|]. pose proof (valid_exp _ _ _ Hv). pose proof (valid_exp _ _ _ Hc).
  apply round_le; [done|lia|done|done| |done]. unfold units in *. change (1 * 2 ^ (0 + 3000)) with (2 ^ 3000) in Hx.
  apply (Z.mul_le_mono_pos_r _ _ (2 ^ 3000)); [done|].
  replace (Zpos (m * mc) * 2 ^ (e + ec + 3000) * 2 ^ 3000) with ((Zpos m * 2 ^ (e + 3000)) * (Zpos mc * 2 ^ (ec + 3000))).
  - rewrite (Z.mul_comm (Zpos mc * 2 ^ (ec + 3000)) (2 ^ 3000)). apply Z.mul_le_mono_nonneg_r; [|done].
    apply Z.mul_nonneg_nonneg; [lia|]. apply Z.pow_nonneg. lia.
  - rewrite Pos2Z.inj_mul. replace (Zpos m * 2 ^ (e + 3000) * (Zpos mc * 2 ^ (ec + 3000))) with (Zpos m * Zpos mc * (2 ^ (e + 3000) * 2 ^ (ec + 3000))) by lia.
    rewrite <-!Z.mul_assoc, <-!Z.pow_add_r by lia. do 3 f_equal. lia.
Qed.

Lemma div_within x mc ec :
  F64.valid x -> F64.valid (S754_finite false mc ec) -> within F64.zero (S754_finite false mc ec) x ->
  within F64.zero F64.one (F64.div x (S754_finite false mc ec)).
Proof.
  intros Hv Hc Hx. destruct (within_inv _ _ Hv Hx eq_refl) as [[s ->]|(m & e & ->)]; [by destruct s|].
  destruct Hx as [_ Hx]. apply leb_units in Hx; [|done|done]. cbn [F64.div SFdiv xorb].
  destruct (div_core_spec _ _ _ _ _ _ Hv Hc) as (q & e' & l & -> & Hq & He' & Hf & Hb). destruct (Hb Hx) as [Hle Hlt].
  split; [rewrite leb_zero; by apply round_nonneg|]. rewrite one_units.
  apply round_le; done.
Qed.

(** The difference of two positive floats, the first not smaller. *)
Lemma sub_within mx ex my ey mz ez :
  F64.valid (S754_finite false mx ex) -> F64.valid (S754_finite false my ey) -> F64.valid (S754_finite false mz ez) ->
  units (Zpos my) ey <= units (Zpos mx) ex -> units (Zpos mx) ex - units (Zpos my) ey <= units (Zpos mz) ez ->
  within F64.zero (S754_finite false mz ez) (F64.sub (S754_finite false mx ex) (S754_finite false my ey)).
Proof.
  intros Hx Hy Hz Hle Hd. cbn [F64.sub SFsub cond_Zopp]. apply valid_exp in Hx, Hy. set (e := Z.min ex ey).
  destruct (shl_align_spec mx ex e) as (mx' & ex' & -> & Hex & Hmx). destruct (shl_align_spec my ey e) as (my' & ey' & -> & Hey & Hmy).
  cbn [fst]. assert (ex' = e /\ ey' = e) as [-> ->] by lia.
  assert (units (Zpos mx') e = units (Zpos mx) ex) as Hux by (rewrite Hmx, <-units_shift by lia; f_equal; lia).
  assert (units (Zpos my') e = units (Zpos my) ey) as Huy by (rewrite Hmy, <-units_shift by lia; f_equal; lia).
  assert (Zpos my' <= Zpos mx') as Hm by (apply (units_le _ _ e); lia).
  assert (units (Zpos mx' - Zpos my') e <= units (Zpos mz) ez) as Hu by (unfold units in *; lia).
  destruct (Zpos mx' - Zpos my') as [|p|p] eqn:Hp; [|clear Hp|lia]; cbn [binary_normalize]; [by destruct mz|].
  destruct (binary_round_spec false p e ltac:(lia)) as (m' & e' & -> & Hm' & He' & Hf & Hu').
  split; [rewrite leb_zero; apply round_nonneg; [lia|done]|]. apply round_le; [lia|done|done|done|lia|done].
Qed.

(** Signs. *)
Lemma round_aux_opp m e l : binary_round_aux true m e l = SFopp (binary_round_aux false m e l).
Proof.
  unfold SpecFloat.binary_round_aux. destruct (shr_fexp m e l) as [mrs' e']. destruct (shr_fexp _ e' loc_Exact) as [mrs'' e''].
  destruct (shr_m mrs''); [done|by case_match|done].
Qed.

Lemma opp_opp x : SFopp (SFopp x) = x.
Proof. by destruct x as [[]|[]| |[]]. Qed.

Definition nonpos (x : float) : bool := nonneg (SFopp x).

Lemma sub_nonpos x y : F64.valid x -> F64.valid y -> nonpos x = true -> nonneg y = true -> nonpos (F64.sub x y) = true.
Proof.
  intros Hx Hy Hnx Hny. destruct x as [[]|[]| |[] mx ex], y as [[]|[]| |[] my ey]; try done. cbn [F64.sub SFsub cond_Zopp].
  apply valid_exp in Hx, Hy. set (e := Z.min ex ey).
  destruct (shl_align mx ex e) as [mx' ex']. destruct (shl_align my ey e) as [my' ey']. cbn [fst].
  change (- Zpos mx' - Zpos my') with (Zneg (mx' + my')). cbn [binary_normalize].
  destruct (binary_round_spec true (mx' + my') e ltac:(lia)) as (m' & e' & -> & Hm' & He' & Hf & _).
  rewrite round_aux_opp. unfold nonpos. rewrite opp_opp. apply round_nonneg; [lia|done].
Qed.

Lemma div_nonneg x mc ec : F64.valid x -> F64.valid (S754_finite false mc ec) -> nonneg x = true ->
  nonneg (F64.div x (S754_finite false mc ec)) = true.
Proof.
  intros Hv Hc Hn. destruct x as [[]|[]| |[] m e]; try done. cbn [F64.div SFdiv xorb].
  destruct (div_core_spec _ _ _ _ _ _ Hv Hc) as (q & e' & l & -> & Hq & _ & Hf & _). by apply round_nonneg.
Qed.

(** ** Integers below 2^53 are floats *)

Lemma units_0 n e : -3000 <= e <= 0 -> units n 0 = units (n * 2 ^ (- e)) e.
Proof. intros He. replace 0 with (e + - e) at 1 by lia. apply units_shift; lia. Qed.

Lemma of_Z_exact n : 0 < n < 2 ^ 53 ->
  exists m e, F64.of_Z n = S754_finite false m e /\ units (Zpos m) e = units n 0.
Proof.
  intros [Hn Hlt]. destruct n as [|p|p]; [lia| |lia]. unfold F64.of_Z. cbn [binary_normalize].
  destruct (binary_round_widens false p 0 ltac:(lia)) as (m & e & -> & Hm & He & Hf & Hu).
  rewrite (units_0 _ e He) in Hu. apply Z.mul_cancel_r in Hu; [|apply Z.pow_nonzero; lia].
  assert (fexp (Zdigits2 m + e) <= 0) as He'.
  { rewrite fexp_max. enough (Zdigits2 m <= 53 - e) by lia. apply Zdigits_le; [lia|lia|].
    rewrite Hu. replace (53 - e) with (53 + - e) by lia. rewrite Z.pow_add_r by lia.
    apply Z.mul_lt_mono_pos_r; [apply Z.pow_pos_nonneg; lia|lia]. }
  destruct (round_aux_spec false m e loc_Exact ltac:(lia) Hf) as (m1 & e' & [Hexp _ Hex Hr _] & ->).
  rewrite <-Hexp in *. assert (-1074 <= e') as Hmin by (rewrite Hexp, fexp_max; lia).
  assert (m = Zpos p * 2 ^ (- e') * 2 ^ (e' - e)) as Hm1.
  { rewrite Hu, <-Z.mul_assoc, <-Z.pow_add_r by lia. do 2 f_equal. lia. }
  rewrite Hm1, Z.mod_mul, Z.div_mul in Hex by (apply Z.pow_nonzero; lia). specialize (Hex eq_refl eq_refl).
  assert (units m1 e' = units (Zpos p) 0) as Hu1 by (rewrite (units_0 _ e') by lia; by rewrite Hex).
  assert (0 < m1) as Hpos by (rewrite Hex; apply Z.mul_pos_pos; [lia|apply Z.pow_pos_nonneg; lia]).
  unfold packed, finite_or_inf. destruct (Z.eqb_spec m1 0); [lia|]. destruct (Z.eqb_spec m1 (2 ^ 53)) as [He53|He53].
  - destruct (Z.leb_spec (e' + 1) 971); [|lia]. eexists _, _. split; [done|]. rewrite <-Hu1, He53, Z2Pos.id by lia.
    rewrite units_shift by lia. done.
  - destruct (Z.leb_spec e' 971); [|lia]. eexists _, _. split; [done|]. by rewrite Z2Pos.id by lia.
Qed.

Lemma of_Z_within x t : 0 <= x <= t -> 0 < t < 2 ^ 53 -> within F64.zero (F64.of_Z t) (F64.of_Z x).
Proof.
  intros Hx Ht. destruct (of_Z_exact t Ht) as (mt & et & Het & Hut). pose proof (of_Z_valid t) as Hvt. rewrite Het in *.
  destruct (decide (x = 0)) as [->|Hne]; [done|].
  destruct (of_Z_exact x ltac:(lia)) as (mx & ex & Hex & Hux). pose proof (of_Z_valid x) as Hvx. rewrite Hex in *.
  split; [done|]. apply leb_units; [done|done|]. rewrite Hux, Hut. apply units_le; lia.
Qed.

(** A part of a whole in per cent. *)
Lemma percent_within x t : 0 <= x <= t -> 0 < t < 2 ^ 53 ->
  within F64.zero (int 100) (int x / int t * int 100)%f64.
Proof.
  intros Hx Ht. pose proof (of_Z_within x t Hx Ht) as Hw. destruct (of_Z_exact t Ht) as (mt & et & Het & _).
  pose proof (of_Z_valid t) as Hvt. pose proof (of_Z_valid x) as Hvx. rewrite Het in *.
  assert (int 100 = S754_finite false 7036874417766400 (-46)) as Hc by reflexivity.
  pose proof (of_Z_valid 100) as Hvc. rewrite Hc in *. apply mul_within; [by apply div_valid|done|by apply div_within].
Qed.

Definition is_finite (x : float) : bool := match x with S754_zero _ | S754_finite _ _ _ => true | _ => false end.

Lemma of_Z_finite n : - 2 ^ 64 <= n <= 2 ^ 64 -> is_finite (F64.of_Z n) = true.
Proof.
  intros Hn. assert (forall s p, Zpos p <= 2 ^ 64 -> is_finite (binary_round 53 1024 s p 0) = true) as H.
  { intros s p Hp. destruct (binary_round_widens s p 0 ltac:(lia)) as (m & e & -> & Hm & He & Hf & Hu).
    rewrite (units_0 _ e He) in Hu. apply Z.mul_cancel_r in Hu; [|apply Z.pow_nonzero; lia].
    assert (Zdigits2 m <= 65 - e) as Hd.
    { apply Zdigits_le; [lia|lia|]. rewrite Hu. replace (65 - e) with (65 + - e) by lia. rewrite Z.pow_add_r by lia.
      apply Z.mul_lt_mono_pos_r; [apply Z.pow_pos_nonneg; lia|lia]. }
    destruct (round_aux_spec s m e loc_Exact ltac:(lia) Hf) as (m1 & e' & [-> _ _ _ _] & ->). rewrite fexp_max.
    unfold packed, finite_or_inf. destruct (m1 =? 0); [done|].
    rewrite !(proj2 (Z.leb_le _ 971)) by lia. by destruct (m1 =? 2 ^ 53). }
  destruct n as [|p|p]; [done|apply H; lia|apply H; lia].
Qed.

Lemma finite_div_positive x y : F64.valid x -> F64.valid y -> is_finite x = true -> F64.ltb F64.zero y = true ->
  F64.is_nan (F64.div x y) = false.
Proof.
  intros Hx Hy Hf Hp. destruct x as [sx|sx| |sx mx ex], y as [sy|[]| |[] my ey]; try done. cbn [F64.div SFdiv].
  destruct (div_core_spec _ _ _ _ _ _ Hx Hy) as (q & e & l & -> & Hq & _ & Hf' & _).
  destruct (round_aux_spec (xorb sx false) q e l Hq Hf') as (m1 & e' & _ & ->). unfold packed, finite_or_inf. by repeat case_match.
Qed.

Lemma not_less_nonneg x : F64.is_nan x = false -> F64.ltb x F64.zero = false -> F64.leb F64.zero x = true.
Proof. by destruct x as [[]|[]| |[] m e]. Qed.

Lemma Seconds_valid d : F64.valid (Seconds d).
Proof. apply add_valid; [apply of_Z_valid|apply div_valid; apply of_Z_valid]. Qed.

(** ** Back to integers *)

Lemma to_int_within x w : F64.valid x -> 0 < w < 2 ^ 53 -> within F64.zero (F64.of_Z w) x -> 0 <= F64.to_int x <= w.
Proof.
  intros Hv Hw Hx. destruct (of_Z_exact w Hw) as (mw & ew & Hew & Huw). pose proof (of_Z_valid w) as Hvw. rewrite Hew in *.
  destruct (within_inv _ _ Hv Hx eq_refl) as [[s ->]|(m & e & ->)]; [cbn; lia|].
  destruct Hx as [_ Hx]. apply leb_units in Hx; [|done|done]. rewrite Huw in Hx. cbn [F64.to_int].
  set (n := if e <? 0 then _ else _). assert (0 <= n <= w) as Hn.
  { unfold n. apply valid_exp in Hv as Hexp. destruct (Z.ltb_spec e 0) as [He|He].
    - assert (0 < 2 ^ (- e)) as Hp by (apply Z.pow_pos_nonneg; lia). split; [apply Z.div_pos; lia|].
      rewrite (units_0 w e), units_le in Hx by lia. apply Z.div_le_upper_bound; lia.
    - assert (0 < 2 ^ e) as Hp by (apply Z.pow_pos_nonneg; lia). split; [lia|].
      replace e with (0 + e) in Hx at 1 by lia. rewrite units_shift, units_le in Hx by lia. lia. }
  unfold min_int64, max_int64. destruct (Z.leb_spec (- 2 ^ 63) n), (Z.leb_spec n (2 ^ 63 - 1)); cbn; lia.
Qed.

Lemma not_above x m e : F64.valid x -> F64.valid (S754_finite false m e) -> F64.leb F64.zero x = true ->
  F64.ltb (S754_finite false m e) x = false -> F64.leb x (S754_finite false m e) = true.
Proof.
  intros Hv Hc H0 Hlt. destruct x as [[]|[]| |[] mx ex]; try done. apply leb_units; [done|done|].
  destruct (decide (units (Zpos m) e < units (Zpos mx) ex)) as [Hl|]; [|lia]. apply ltb_units in Hl; [congruence|done|done].
Qed.
