(* ===== verification/Ring.v ===== *)
(** * Ring buffers

    The decision engine keeps its windows and the monitor its samples in a slice of bounded
    length that is overwritten in place once it is full.  Read from the oldest element on, such
    a buffer is the list of the last elements that were put into it. *)

From Stdlib Require Import ZArith Lia.
From stdpp Require Import base tactics numbers list.
From S2P Require Import Prelude.

Open Scope Z_scope.

(** The last [n] elements. *)
Definition recent {A} (n : nat) (h : list A) : list A := drop (length h - n) h.

(** A slice read from position [k] on, and around. *)
Definition rotation {A} (k : Z) (buf : list A) : list A := drop (Z.to_nat k) buf ++ take (Z.to_nat k) buf.

(** The buffer after the elements of [h]; [head] is where the next one goes once it is full. *)
Record ring_buffer {A} (buf : list A) (head cap : Z) (h : list A) : Prop := {
  rb_cap : 1 <= cap;
  rb_len : Z.of_nat (length buf) = Z.min (Z.of_nat (length h)) cap;
  rb_head : 0 <= head < cap;
  rb_start : Z.of_nat (length buf) < cap -> head = 0;
  rb_last : rotation head buf = recent (Z.to_nat cap) h;
}.

Section Ring.
Context {A : Type}.
Implicit Types (buf h : list A) (w : A).

Lemma length_recent n h : length (recent n h) = Nat.min n (length h).
Proof. unfold recent. rewrite length_drop. lia. Qed.

Lemma recent_snoc n h x : recent (S n) (h ++ [x]) = recent n h ++ [x].
Proof.
  unfold recent. rewrite length_app, drop_app_le by (cbn; lia). f_equal. f_equal. cbn. lia.
Qed.

Lemma recent_all n h : (length h <= n)%nat -> recent n h = h.
Proof. intros Hn. unfold recent. by replace (length h - n)%nat with 0%nat by lia. Qed.

Lemma recent_recent n k h : (n <= k)%nat -> recent n (recent k h) = recent n h.
Proof.
  intros Hle. unfold recent. rewrite length_drop, drop_drop. f_equal. lia.
Qed.

Lemma rotation_0 buf : rotation 0 buf = buf.
Proof. unfold rotation. cbn. by rewrite drop_0, app_nil_r. Qed.

Lemma length_rotation k buf : length (rotation k buf) = length buf.
Proof. unfold rotation. rewrite length_app, length_drop, length_take. lia. Qed.

(** Reading around the end of the slice. *)
Lemma rotation_lookup k buf i : 0 <= k < Z.of_nat (length buf) -> 0 <= i < Z.of_nat (length buf) ->
  buf !! Z.to_nat ((k + i) mod Z.of_nat (length buf)) = rotation k buf !! Z.to_nat i.
Proof.
  intros Hk Hi. unfold rotation. destruct (decide (k + i < Z.of_nat (length buf))) as [Hlt|Hge].
  - rewrite Z.mod_small, lookup_app_l, lookup_drop by (rewrite ?length_drop; lia). f_equal. lia.
  - rewrite lookup_app_r, lookup_take_lt by (rewrite ?length_drop; lia). f_equal. rewrite length_drop.
    rewrite <-(Z_mod_plus_full _ (-1)), Z.mod_small by lia. lia.
Qed.

(** Overwriting the oldest. *)
Lemma rotate_push buf h (k n : nat) w :
  length buf = S n -> (k < S n)%nat -> (S n <= length h)%nat -> drop k buf ++ take k buf = recent (S n) h ->
  let k' := if decide (k = n) then 0%nat else S k in
  drop k' (<[k := w]> buf) ++ take k' (<[k := w]> buf) = recent (S n) (h ++ [w]).
Proof.
  intros Hlen Hk Hh Hr. destruct (lookup_lt_is_Some_2 buf k ltac:(lia)) as [y Hy]. apply take_drop_middle in Hy as Hsplit.
  set (X := take k buf) in *. set (Y := drop (S k) buf) in *. assert (length X = k) as HX by (unfold X; rewrite length_take; lia).
  rewrite (drop_S _ _ _ Hy) in Hr. fold Y in Hr. rewrite recent_snoc.
  assert (recent n h = Y ++ X) as ->.
  { rewrite <-(recent_recent n (S n)), <-Hr by lia. unfold recent. rewrite <-app_comm_cons. cbn [length].
    assert (length (Y ++ X) = n) as -> by (pose proof (f_equal length Hr) as Hl; rewrite length_recent in Hl; cbn [length app] in Hl; lia).
    by replace (S n - n)%nat with 1%nat by lia. }
  assert (<[k := w]> buf = X ++ w :: Y) as ->.
  { rewrite <-Hsplit, insert_app_r_alt by lia. by replace (k - length X)%nat with 0%nat by lia. }
  cbv zeta. case_decide as Hkn.
  - assert (Y = []) as -> by (apply nil_length_inv; unfold Y; rewrite length_drop; lia). cbn. by rewrite app_nil_r.
  - change (X ++ w :: Y) with (X ++ [w] ++ Y). rewrite app_assoc, drop_app_length', take_app_length' by (rewrite length_app; cbn; lia). by rewrite app_assoc.
Qed.

Lemma ring_buffer_empty cap : 1 <= cap -> ring_buffer (A := A) [] 0 cap [].
Proof. intros Hc. split; cbn; try done; lia. Qed.

(** While it is not full the buffer is the list itself. *)
Lemma ring_buffer_filling buf head cap h : ring_buffer buf head cap h -> Z.of_nat (length buf) < cap -> buf = h.
Proof.
  intros [Hc Hl Hh Hst Hr] Hlt. rewrite (Hst Hlt), rotation_0, recent_all in Hr by lia. done.
Qed.

Lemma ring_buffer_append buf head cap h w : ring_buffer buf head cap h -> Z.of_nat (length buf) < cap ->
  ring_buffer (buf ++ [w]) head cap (h ++ [w]).
Proof.
  intros Hr Hlt. pose proof (ring_buffer_filling _ _ _ _ Hr Hlt) as ->. destruct Hr as [Hc Hl Hh Hst _].
  split; rewrite ?length_app; cbn [length]; try lia.
  rewrite (Hst Hlt), rotation_0, recent_all by (rewrite length_app; cbn; lia). done.
Qed.

Lemma ring_buffer_overwrite buf head cap h w : ring_buffer buf head cap h -> cap <= Z.of_nat (length buf) ->
  ring_buffer (<[Z.to_nat head := w]> buf) (Z.rem (head + 1) cap) cap (h ++ [w]).
Proof.
  intros [Hc Hl Hh Hst Hr] Hfull. rewrite Z.rem_mod_nonneg by lia. pose proof (Z.mod_pos_bound (head + 1) cap ltac:(lia)) as Hm.
  split; rewrite ?length_app, ?length_insert; cbn [length]; try lia.
  unfold rotation in *. set (k := Z.to_nat head) in *. set (n := (Z.to_nat cap - 1)%nat).
  replace (Z.to_nat cap) with (S n) in * by lia.
  replace (Z.to_nat ((head + 1) `mod` cap)) with (if decide (k = n) then 0%nat else S k).
  - apply rotate_push; [lia|lia|lia|done].
  - case_decide; [replace (head + 1) with cap by lia; by rewrite Z.mod_same by lia|rewrite Z.mod_small by lia; lia].
Qed.

(** Once it is full, the element at [head + i] is the [i]-th of the last ones. *)
Lemma ring_buffer_lookup buf head cap h i : ring_buffer buf head cap h -> cap <= Z.of_nat (length buf) -> 0 <= i < cap ->
  buf !! Z.to_nat (Z.rem (head + i) cap) = recent (Z.to_nat cap) h !! Z.to_nat i.
Proof.
  intros [Hc Hl Hh Hst Hr] Hfull Hi. rewrite <-Hr, Z.rem_mod_nonneg by lia.
  assert (cap = Z.of_nat (length buf)) as -> by lia. apply rotation_lookup; lia.
Qed.

Lemma recent_last n h : (0 < n)%nat -> last (recent n h) = last h.
Proof.
  intros Hn. destruct h as [|x h _] using rev_ind; [done|].
  destruct n; [lia|]. by rewrite recent_snoc, !last_snoc.
Qed.

End Ring.
