(* ===== verification/Duration.v ===== *)
(** * Durations as text (time.ParseDuration)

    The prompt and the configuration files read durations like 1h30m or 1.5s.  Durations are
    64-bit nanoseconds; the fraction of a number goes through float64. *)

From Stdlib Require Import Strings.String Strings.Ascii Floats.SpecFloat.
From stdpp Require Import base tactics numbers list strings pretty.
From S2P Require Import Prelude.
From S2P Require Import DHash.
From S2P Require Import Text.
From S2P Require Import Float64.
Import Strconv.

Open Scope Z_scope.

(** The digits a text begins with, and the rest; [None] when the number passes 2^63. *)
Fixpoint leadingInt (s : string) (x : Z) : option (Z * string) :=
  match s with
  | EmptyString => Some (x, s)
  | String c t =>
      match digit c with
      | None => Some (x, s)
      | Some d =>
          if x >? 2 ^ 63 ÷ 10 then None
          else let x := x * 10 + Z.of_N d in if x >? 2 ^ 63 then None else leadingInt t x
      end
  end.

(** Digits of a fraction: their number, the power of ten it is over, and the rest; digits that
    would overflow are skipped. *)
Fixpoint leadingFraction (s : string) (x : Z) (scale : float) (overflow : bool) : Z * float * string :=
  match s with
  | EmptyString => (x, scale, s)
  | String c t =>
      match digit c with
      | None => (x, scale, s)
      | Some d =>
          if overflow || (x >? (2 ^ 63 - 1) ÷ 10) then leadingFraction t x scale true
          else
            let y := x * 10 + Z.of_N d in
            if y >? 2 ^ 63 then leadingFraction t x scale true
            else leadingFraction t y (scale * int 10)%f64 false
      end
  end.

Definition dot : ascii := ".".
Definition starts_number (c : ascii) : bool := bool_decide (c = dot) || match digit c with Some _ => true | None => false end.

(** The unit: everything up to the next dot or digit. *)
Fixpoint take_unit (s : string) : string * string :=
  match s with
  | EmptyString => (EmptyString, EmptyString)
  | String c t => if starts_number c then (EmptyString, s) else let '(u, r) := take_unit t in (String c u, r)
  end.

(** Both spellings of the micro sign are accepted. *)
Definition unitMap (u : string) : option Z :=
  if decide (u = "ns"%string) then Some 1
  else if decide (u = "us"%string) then Some 1000
  else if decide (u = String "194" (String "181" "s")) then Some 1000
  else if decide (u = String "206" (String "188" "s")) then Some 1000
  else if decide (u = "ms"%string) then Some 1000000
  else if decide (u = "s"%string) then Some 1000000000
  else if decide (u = "m"%string) then Some (60 * 1000000000)
  else if decide (u = "h"%string) then Some (3600 * 1000000000)
  else None.

(** One number with its unit: its nanoseconds and the rest. *)
Definition parse_item (s : string) : option (Z * string) :=
  match s with
  | EmptyString => None
  | String c _ =>
      if negb (starts_number c) then None
      else
        '(v, s1) ← leadingInt s 0;
        let pre := negb (String.length s1 =? String.length s)%nat in
        let '(f, scale, s2, post) :=
          match s1 with
          | String c t =>
              if decide (c = dot) then
                let '(f, scale, r) := leadingFraction t 0 F64.one false in
                (f, scale, r, negb (String.length r =? String.length t)%nat)
              else (0, F64.one, s1, false)
          | EmptyString => (0, F64.one, s1, false)
          end in
        if negb pre && negb post then None
        else
          let '(u, rest) := take_unit s2 in
          if decide (u = EmptyString) then None
          else
            unit ← unitMap u;
            if v >? 2 ^ 63 ÷ unit then None
            else
              let v := v * unit in
              if f >? 0 then
                let v := wrapU 64 (v + F64.to_int (int f * (int unit / scale))%f64) in
                if v >? 2 ^ 63 then None else Some (v, rest)
              else Some (v, rest)
  end.

(** Every item takes at least two bytes, so as many turns as there are bytes are enough. *)
Fixpoint parse_items (fuel : nat) (s : string) (d : Z) : option Z :=
  match s, fuel with
  | EmptyString, _ => Some d
  | _, O => None
  | _, S fuel =>
      '(v, s) ← parse_item s;
      let d := wrapU 64 (d + v) in
      if d >? 2 ^ 63 then None else parse_items fuel s d
  end.

Definition ParseDuration (s : string) : option Z :=
  let '(neg, s) := match s with
    | String c t => if decide (c = "-"%char) then (true, t) else if decide (c = "+"%char) then (false, t) else (false, s)
    | EmptyString => (false, s) end in
  if decide (s = "0"%string) then Some 0
  else if decide (s = EmptyString) then None
  else
    d ← parse_items (String.length s) s 0;
    if neg : bool then Some (int64 (- int64 d))
    else if d >? 2 ^ 63 - 1 then None else Some d.

Example durations :
  ParseDuration <$> ["5m"; "1h30m"; "1.5s"; "-2ms"; "0"; "7"; "s"; "1.s"; ".s"; "10x"; "9223372036854775807ns"; "9223372036854775808ns"; "-9223372036854775808ns"]%string
  = [Some 300000000000; Some 5400000000000; Some 1500000000; Some (-2000000); Some 0; None; None; Some 1000000000; None; None;
     Some 9223372036854775807; None; Some (-9223372036854775808)].
Proof. vm_compute. reflexivity. Qed.

(** ** The fuel is enough *)

Lemma leadingInt_length s : forall x v r, leadingInt s x = Some (v, r) -> (String.length r <= String.length s)%nat.
Proof.
  induction s as [|c s IH]; intros x v r H; cbn [leadingInt] in H; [by simplify_eq|].
  destruct (digit c); [|by simplify_eq]. do 2 (case_match; [done|]). apply IH in H. cbn. lia.
Qed.

Lemma leadingFraction_length s : forall x sc o f sc' r, leadingFraction s x sc o = (f, sc', r) -> (String.length r <= String.length s)%nat.
Proof.
  induction s as [|c s IH]; intros x sc o f sc' r H; cbn [leadingFraction] in H; [by simplify_eq|].
  destruct (digit c); [|by simplify_eq]. repeat case_match; apply IH in H; cbn; lia.
Qed.

Lemma take_unit_length s : forall u r, take_unit s = (u, r) -> (String.length s = String.length u + String.length r)%nat.
Proof.
  induction s as [|c s IH]; intros u r H; cbn [take_unit] in H; [by simplify_eq|].
  destruct (starts_number c); [by simplify_eq|]. destruct (take_unit s) as [u' r'] eqn:Hu. simplify_eq.
  specialize (IH _ _ eq_refl). cbn. lia.
Qed.

Lemma parse_item_shorter s v r : parse_item s = Some (v, r) -> (String.length r < String.length s)%nat.
Proof.
  unfold parse_item. destruct s as [|c t] eqn:Hs; [done|]. destruct (negb _); [done|]. rewrite <-Hs in *.
  destruct (leadingInt s 0) as [[v1 s1]|] eqn:Hli; [cbn [mbind option_bind]|done].
  set (q := match s1 with EmptyString => _ | String c t => _ end). destruct q as [[[f sc] s2] post] eqn:Hq.
  assert (String.length s2 <= String.length s1)%nat as H2.
  { unfold q in Hq. destruct s1 as [|c1 t1]; [by simplify_eq|]. case_decide; [|by simplify_eq].
    destruct (leadingFraction t1 0 F64.one false) as [[f' sc'] r'] eqn:Hf. simplify_eq. apply leadingFraction_length in Hf. cbn. lia. }
  apply leadingInt_length in Hli. destruct (_ && _); [done|]. destruct (take_unit s2) as [u rest] eqn:Hu. apply take_unit_length in Hu.
  case_decide as Hne; [done|]. destruct u as [|cu u]; [done|]. cbn in Hu.
  destruct (unitMap _) as [un|]; [cbn [mbind option_bind]|done]. destruct (_ >? _); [done|]. cbv zeta.
  destruct (f >? 0); [|intros [= <- <-]; lia]. destruct (_ >? _); [done|]. intros [= <- <-]. lia.
Qed.

Lemma parse_items_fuel s : forall n d, (String.length s <= n)%nat -> parse_items n s d = parse_items (String.length s) s d.
Proof.
  assert (forall k s n d, (String.length s <= k)%nat -> (String.length s <= n)%nat -> parse_items n s d = parse_items k s d) as H.
  { induction k as [|k IH]; intros s' n d Hk Hn; destruct s' as [|c t], n as [|n]; try done; try (cbn in *; lia). cbn [parse_items].
    destruct (parse_item (String c t)) as [[v r]|] eqn:Hp; [cbn [mbind option_bind]|done]. apply parse_item_shorter in Hp.
    case_match; [done|]. cbn in *. apply IH; lia. }
  intros n d Hn. by apply H.
Qed.

(** ** Whole seconds *)

Lemma pretty_go_app n : forall a b, pretty_N_go n (a +:+ b) = pretty_N_go n a +:+ b.
Proof.
  induction (N.lt_wf_0 n) as [n _ IH]. intros a b. destruct (decide (n = 0%N)) as [->|Hz]; [by rewrite !pretty_N_go_0|].
  rewrite (pretty_N_go_step n a), (pretty_N_go_step n (a +:+ b)) by lia. assert (n / 10 < n)%N as Hd by (apply N.div_lt; lia). apply (IH _ Hd (String _ a) b).
Qed.

Lemma leadingInt_pretty_go n s : (Z.of_N n < 2 ^ 63) -> leadingInt (pretty_N_go n s) 0 = leadingInt s (Z.of_N n).
Proof.
  revert s. induction (N.lt_wf_0 n) as [n _ IH]. intros s Hn. destruct (decide (n = 0%N)) as [->|Hz]; [by rewrite pretty_N_go_0|].
  rewrite pretty_N_go_step by lia. pose proof (N.div_mod n 10 ltac:(done)) as Hdm. pose proof (N.mod_lt n 10 ltac:(done)) as Hm.
  assert (n / 10 <= n)%N as Hle by (apply N.Div0.div_le_upper_bound; lia).
  rewrite IH; [|apply N.div_lt; lia|lia]. cbn [leadingInt]. rewrite digit_pretty_N_char by done.
  assert (Z.of_N (n / 10) * 10 + Z.of_N (n mod 10) = Z.of_N n) as -> by lia.
  pose proof (N.Div0.mul_div_le n 10) as Hq. clear IH. assert (10 * Z.of_N (n / 10) <= Z.of_N n) as Hq' by (clear -Hq; lia). change (2 ^ 63) with 9223372036854775808 in *.
  destruct (Z.gtb_spec (Z.of_N (n / 10)) (9223372036854775808 ÷ 10)) as [H|_].
  { change (9223372036854775808 ÷ 10) with 922337203685477580 in H. lia. }
  destruct (Z.gtb_spec (Z.of_N n) 9223372036854775808); [lia|done].
Qed.

Lemma ParseDuration_seconds n : 0 < n <= 9223372036 -> ParseDuration (FormatInt n +:+ "s") = Some (n * 1000000000).
Proof.
  intros Hn. set (s := FormatInt n +:+ "s").
  assert (leadingInt s 0 = Some (n, "s"%string)) as Hl.
  { unfold s, FormatInt, pretty, pretty_Z. destruct n as [|p|p]; [lia| |lia].
    change (pretty p) with (pretty (N.pos p)). unfold pretty, pretty_N. rewrite decide_False by done.
    rewrite <-pretty_go_app, leadingInt_pretty_go by lia. done. }
  destruct s as [|c t] eqn:Hs; [done|]. destruct (digit c) as [d|] eqn:Hd; [|cbn [leadingInt] in Hl; rewrite Hd in Hl; simplify_eq; lia].
  assert (c <> "-"%char /\ c <> "+"%char) as [Hm Hp] by (split; intros ->; done).
  assert (String.length t <> 0%nat) as Ht.
  { intros H0. destruct t; [|done]. cbn [leadingInt] in Hl. rewrite Hd in Hl. repeat case_match; simplify_eq. }
  assert (parse_item (String c t) = Some (n * 1000000000, EmptyString)) as Hi.
  { unfold parse_item. rewrite Hl. cbn [mbind option_bind].
    assert (starts_number c = true) as -> by (unfold starts_number; rewrite Hd; apply orb_true_r).
    cbn [negb]. rewrite decide_False by done. cbv zeta.
    replace (String.length "s" =? String.length (String c t))%nat with false by (symmetry; apply Nat.eqb_neq; cbn; lia).
    change (take_unit "s") with ("s"%string, EmptyString). cbn [negb andb]. rewrite decide_False by done.
    change (unitMap "s") with (Some 1000000000). cbn [mbind option_bind].
    change (2 ^ 63 ÷ 1000000000) with 9223372036. by destruct (Z.gtb_spec n 9223372036); [lia|]. }
  unfold ParseDuration. rewrite !decide_False by done. rewrite decide_False by (intros Heq; rewrite Heq in Hl; cbn in Hl; simplify_eq).
  change (String.length (String c t)) with (S (String.length t)). cbn [parse_items]. rewrite Hi. cbn [mbind option_bind].
  rewrite wrapU_small by lia. destruct (Z.gtb_spec (0 + n * 1000000000) (2 ^ 63)); [lia|].
  replace (parse_items (String.length t) "" _) with (Some (n * 1000000000)) by (by destruct (String.length t)).
  cbn [mbind option_bind]. destruct (Z.gtb_spec (n * 1000000000) (2 ^ 63 - 1)); [lia|done].
Qed.
