(* ===== verification/Policies.v ===== *)
(** * The policy registry (policy.go)

    The built-in policies as one type, the registry of named factories, and the
    laws of whatever it hands out. *)

From stdpp Require Import base tactics numbers list gmap sets fin_maps strings.
From S2P Require Import Prelude.
From S2P Require Import Policy.
From S2P Require Import Lru.
From S2P Require Import Lfu.

(** ** The built-in policies *)

(** An [EvictionPolicy] value made by one of the built-in factories. *)
Inductive policy : Type :=
| PNoop (p : noopPolicy)
| PLRU (p : LRUPolicy)
| PLFU (p : LFUPolicy).

Section Builtin.
Context `{MI : MapIter}.

(** Method calls through the interface. *)
#[global] Instance builtin_policy : EvictionPolicy policy := {|
  Name p := match p with PNoop p => Name p | PLRU p => Name p | PLFU p => Name p end;
  OnAccess k p := match p with
    | PNoop p => PNoop (OnAccess k p) | PLRU p => PLRU (OnAccess k p) | PLFU p => PLFU (OnAccess k p) end;
  OnAdd k p := match p with
    | PNoop p => PNoop (OnAdd k p) | PLRU p => PLRU (OnAdd k p) | PLFU p => PLFU (OnAdd k p) end;
  OnRemove k p := match p with
    | PNoop p => PNoop (OnRemove k p) | PLRU p => PLRU (OnRemove k p) | PLFU p => PLFU (OnRemove k p) end;
  Evict p := match p with
    | PNoop p => prod_map id PNoop (Evict p)
    | PLRU p => prod_map id PLRU (Evict p)
    | PLFU p => prod_map id PLFU (Evict p) end;
  PolLen p := match p with PNoop p => PolLen p | PLRU p => PolLen p | PLFU p => PolLen p end;
  Clear p := match p with
    | PNoop p => PNoop (Clear p) | PLRU p => PLRU (Clear p) | PLFU p => PLFU (Clear p) end;
|}.

#[global] Program Instance builtin_laws : PolicyLaws policy := {|
  policy_ok p := match p with PNoop p => policy_ok p | PLRU p => policy_ok p | PLFU p => policy_ok p end;
  policy_tracks p := match p with
    | PNoop p => policy_tracks p | PLRU p => policy_tracks p | PLFU p => policy_tracks p end;
  policy_keys p := match p with
    | PNoop p => policy_keys p | PLRU p => policy_keys p | PLFU p => policy_keys p end;
|}.
Next Obligation. intros k [p|p|p] Hok; exact (on_access_law k p Hok). Qed.
Next Obligation. intros k [p|p|p] Hok; exact (on_add_law k p Hok). Qed.
Next Obligation. intros k [p|p|p] Hok; exact (on_remove_law k p Hok). Qed.
Next Obligation.
  intros [p|p|p] Hok; pose proof (evict_law p Hok) as Hl;
    cbn [Evict builtin_policy]; destruct (Evict p) as [[k|] p']; exact Hl.
Qed.
Next Obligation. intros [p|p|p] Hok; exact (untracked_law p Hok). Qed.

End Builtin.

(** ** The registry *)

(** A [PolicyFactory] is the policy it makes: each call returns a fresh one. *)
Definition registry (P : Type) : Type := gmap string P.

Definition policyRegistry : registry policy :=
  {[ "noop" := PNoop NoopPolicy; "lru" := PLRU NewLRU; "lfu" := PLFU NewLFU ]}%string.

(** [factory = None] is the nil function. *)
Definition RegisterPolicy {P} (name : string) (factory : option P) (r : registry P) :
    option error * registry P :=
  match factory with
  | Some f =>
      if decide (name = EmptyString) then (Some ErrUnknownPolicy, r)
      else (None, <[name := f]> (r : gmap string P))
  | None => (Some ErrUnknownPolicy, r)
  end.

Definition getPolicyFactory {P} (name : string) (r : registry P) : result error P :=
  match (r : gmap string P) !! name with
  | Some f => Ok f
  | None => Err ErrUnknownPolicy
  end.

Definition registry_ok `{PL : PolicyLaws P} (r : registry P) : Prop :=
  forall name p, getPolicyFactory name r = Ok p -> fresh_policy p.

Lemma policyRegistry_ok `{MI : MapIter} : registry_ok policyRegistry.
Proof.
  intros name p. unfold getPolicyFactory, policyRegistry.
  rewrite !lookup_insert, lookup_singleton.
  repeat case_decide; intros [= <-]; (split; [|done]);
    [done|apply NewLRU_ok|apply NewLFU_ok].
Qed.

Lemma RegisterPolicy_ok `{PL : PolicyLaws P} name (factory : option P) r :
  registry_ok r -> (forall p, factory = Some p -> fresh_policy p) ->
  registry_ok (RegisterPolicy name factory r).2.
Proof.
  intros Hr Hf. unfold RegisterPolicy. destruct factory as [f|]; [|done].
  case_decide; [done|]. intros n p. unfold getPolicyFactory. simpl.
  rewrite lookup_insert. case_decide; [intros [= <-]; by apply Hf|].
  intros Hp. by apply (Hr n p).
Qed.
