(* ===== verification/Hashing.v ===== *)
(** * Key hashing (hash/fnv as cache.go, shard.go and rehash/rehasher.go use it)

    FNV-1a on 32 bits, the shard index (a mask), the sub-shard index (a
    remainder) and their bounds. *)

From stdpp Require Import base tactics numbers list strings.
From Stdlib Require Import Strings.Ascii.
From S2P Require Import Prelude.

(** The loop of [fnv.New32a]'s [Write], and of [subIndex]. *)
Fixpoint fnv_loop (key : string) (h : Z) : Z :=
  match key with
  | EmptyString => h
  | String c key =>
      fnv_loop key (wrapU 32 (Z.lxor h (Z.of_N (N_of_ascii c)) * 16777619))
  end.

(** [h.Write([]byte(key)); h.Sum32()]. *)
Definition fnv32a (key : string) : Z := fnv_loop key 2166136261.

Definition shardIndexFor (key : string) (mask : Z) : Z := Z.land (fnv32a key) mask.

Definition OldShardIndex (key : string) (mask : Z) : Z := Z.land (fnv32a key) mask.

(** The test [n <= 0 || n & (n-1) != 0] of [New] and [Resize]. *)
Definition bad_shard_count (n : Z) : bool := (n <=? 0) || negb (Z.land n (n - 1) =? 0).

(** ** Lemmas *)

Lemma fnv_loop_range key h : 0 <= h < 2 ^ 32 -> 0 <= fnv_loop key h < 2 ^ 32.
Proof.
  revert h. induction key as [|c key IH]; intros h Hh; [done|].
  simpl. apply IH. by apply wrapU_range.
Qed.

Lemma fnv32a_range key : 0 <= fnv32a key < 2 ^ 32.
Proof. by apply fnv_loop_range. Qed.

Lemma land_pred_pow2 n : 0 < n -> Z.land n (n - 1) = 0 -> exists k, 0 <= k /\ n = 2 ^ k.
Proof.
  intros Hn Hland. exists (Z.log2 n). split; [apply Z.log2_nonneg|].
  pose proof (Z.log2_spec n Hn) as [Hlo Hhi].
  destruct (decide (n = 2 ^ Z.log2 n)) as [|Hne]; [done|]. exfalso.
  assert (Z.log2 (n - 1) = Z.log2 n) as Hl.
  { apply Z.log2_unique; [apply Z.log2_nonneg|lia]. }
  assert (Z.testbit (Z.land n (n - 1)) (Z.log2 n) = true) as Ht.
  { rewrite Z.land_spec, Z.bit_log2 by done. rewrite <-Hl at 1. rewrite Z.bit_log2; [done|].
    pose proof (Z.pow_pos_nonneg 2 (Z.log2 n) ltac:(done) (Z.log2_nonneg n)). lia. }
  rewrite Hland, Z.bits_0 in Ht. done.
Qed.

Lemma bad_shard_count_false n :
  bad_shard_count n = false <-> exists k, 0 <= k /\ n = 2 ^ k.
Proof.
  unfold bad_shard_count. split.
  - intros [Hn Hl]%orb_false_elim. apply land_pred_pow2; [lia|].
    destruct (Z.eqb_spec (Z.land n (n - 1)) 0); done.
  - intros (k & Hk & ->). pose proof (Z.pow_pos_nonneg 2 k ltac:(done) Hk).
    replace (2 ^ k - 1) with (Z.ones k) by (rewrite Z.ones_equiv; lia).
    rewrite Z.land_ones, Z.mod_same by lia. by destruct (Z.leb_spec (2 ^ k) 0); [lia|].
Qed.

(** The mask of a power of two selects the remainder. *)
Lemma shardIndexFor_mod key n :
  bad_shard_count n = false -> shardIndexFor key (n - 1) = fnv32a key mod n.
Proof.
  intros (k & Hk & ->)%bad_shard_count_false. unfold shardIndexFor.
  replace (2 ^ k - 1) with (Z.ones k) by (rewrite Z.ones_equiv; lia).
  by rewrite Z.land_ones.
Qed.

Lemma shardIndexFor_range key n :
  bad_shard_count n = false -> 0 <= shardIndexFor key (n - 1) < n.
Proof.
  intros Hn. rewrite shardIndexFor_mod by done. apply Z.mod_pos_bound.
  unfold bad_shard_count in Hn. apply orb_false_elim in Hn. lia.
Qed.
