(* ===== verification/Shard.v ===== *)
(** * A cache shard (entry.go, shard.go): string entries and key management

    A shard has up to eight sub-shards, each with its entries and its policy, and
    the maps of sets, hashes and lists.  Every operation holds the locks it needs
    for its whole body, so it is a function on the state.  An operation takes the
    instant [now] (Unix nanoseconds) at which it reads the clock.  The [observer]
    field is written and never read by a shard: it is left out. *)

From stdpp Require Import base tactics numbers list gmap sets fin_maps strings.
From Stdlib Require Import Strings.Byte.
From S2P Require Import Prelude.
From S2P Require Import Policy.
From S2P Require Import Hashing.

(** ** Entries *)

Record cacheEntry : Type := mkEntry {
  value : bytes;
  expiresAt : Z;
}.

Definition newEntry (now : Z) (value : bytes) (ttl : Z) : cacheEntry :=
  mkEntry value (if ttl >? 0 then int64 (now + ttl) else 0).

Definition isExpired (now : Z) (e : cacheEntry) : bool :=
  if expiresAt e =? 0 then false else now >=? expiresAt e.

(** [time.Until(time.Unix(0, expiresAt))]. *)
Definition until (now : Z) (e : cacheEntry) : Z := sat64 (expiresAt e - now).

(** [rehash.Item]. *)
Record Item : Type := mkIt { Key : string; Value : bytes; TTL : Z }.

(** ** The state *)

Definition subShardsPerShard : Z := 8.

Record subShard (P : Type) : Type := mkSub {
  entries : gmap string cacheEntry;
  policy : P;
}.
Arguments mkSub {_} _ _.
Arguments entries {_} _.
Arguments policy {_} _.

(** [None] is a nil sub-shard pointer. *)
Record shard (P : Type) : Type := mkShard {
  subs : list (option (subShard P));
  numSubs : Z;
  maxSubSize : Z;
  sets : gmap string (gset string);
  hashes : gmap string (gmap string string);
  lists : gmap string (list string);
}.
Arguments mkShard {_} _ _ _ _ _ _.
Arguments subs {_} _.
Arguments numSubs {_} _.
Arguments maxSubSize {_} _.
Arguments sets {_} _.
Arguments hashes {_} _.
Arguments lists {_} _.

Definition effectiveSubShards (maxSize : Z) : Z :=
  if maxSize <=? 0 then subShardsPerShard
  else
    let n := maxSize ÷ 2 in
    let n := if n <? 1 then 1 else n in
    let n := if n >? subShardsPerShard then subShardsPerShard else n in
    n.

Section Shard.
Context `{MI : MapIter} `{EP : EvictionPolicy P}.
Notation shard := (shard P).
Notation subShard := (subShard P).

(** [policyFactory] is the policy each of its calls makes. *)
Definition newShard (policyFactory : P) (maxSize : Z) : shard :=
  let nSub := effectiveSubShards maxSize in
  let subMax := maxSize ÷ nSub in
  let subMax := if (subMax <? 1) && (maxSize >? 0) then 1 else subMax in
  mkShard
    (replicate (Z.to_nat nSub) (Some (mkSub ∅ policyFactory)) ++
     replicate (Z.to_nat (subShardsPerShard - nSub)) None)
    nSub subMax ∅ ∅ ∅.

Definition subIndex (s : shard) (key : string) : Z := fnv32a key mod numSubs s.

(** [s.subs[s.subIndex(key)]]: a remainder by zero, an index out of range and a
    nil pointer panic. *)
Definition get_sub (s : shard) (key : string) : outcome subShard :=
  if numSubs s =? 0 then Panic
  else deref (mjoin (subs s !! Z.to_nat (subIndex s key))).

Definition set_subs (l : list (option subShard)) (s : shard) : shard :=
  mkShard l (numSubs s) (maxSubSize s) (sets s) (hashes s) (lists s).

Definition set_sub (key : string) (sub : subShard) (s : shard) : shard :=
  set_subs (<[Z.to_nat (subIndex s key) := Some sub]> (subs s)) s.

(** An operation on the sub-shard of [key], under its lock. *)
Definition with_sub {A} (key : string) (f : subShard -> outcome (A * subShard)) (s : shard) :
    outcome (A * shard) :=
  sub ← get_sub s key;
  '(a, sub') ← f sub;
  mret (a, set_sub key sub' s).

(** ** String entries *)

Definition sub_remove (key : string) (sub : subShard) : subShard :=
  mkSub (delete key (entries sub)) (OnRemove key (policy sub)).

Definition sub_get (now : Z) (key : string) (sub : subShard) : outcome (option bytes * subShard) :=
  match entries sub !! key with
  | None => Ret (None, sub)
  | Some entry =>
      if isExpired now entry then Ret (None, sub_remove key sub)
      else Ret (Some (value entry), sub)
  end.

Definition get (now : Z) (key : string) : shard -> outcome (option bytes * shard) :=
  with_sub key (sub_get now key).

(** [for s.maxSubSize > 0 && len(sub.entries) > s.maxSubSize { ... }]. *)
Fixpoint evict_loop (fuel : nat) (maxSubSize : Z) (sub : subShard) (evicted : list string) :
    outcome (list string * subShard) :=
  if (maxSubSize >? 0) && (Z.of_nat (size (entries sub)) >? maxSubSize) then
    match fuel with
    | O => NoFuel
    | S fuel =>
        match Evict (policy sub) with
        | (None, p) => Ret (evicted, mkSub (entries sub) p)
        | (Some evictKey, p) =>
            evict_loop fuel maxSubSize (mkSub (delete evictKey (entries sub)) p)
              (evicted ++ [evictKey])
        end
    end
  else Ret (evicted, sub).

Definition sub_Set (now : Z) (key : string) (value : bytes) (ttl : Z) (maxSubSize : Z) (sub : subShard) :
    outcome (list string * subShard) :=
  let existed := bool_decide (is_Some (entries sub !! key)) in
  let entries' := <[key := newEntry now value ttl]> (entries sub) in
  if existed then Ret ([], mkSub entries' (OnAccess key (policy sub)))
  else
    evict_loop (S (size entries')) maxSubSize (mkSub entries' (OnAdd key (policy sub))) [].

Definition Set_ (now : Z) (key : string) (value : bytes) (ttl : Z) (s : shard) :
    outcome (list string * shard) :=
  with_sub key (sub_Set now key value ttl (maxSubSize s)) s.

Definition sub_Del (key : string) (sub : subShard) : outcome (unit * subShard) :=
  match entries sub !! key with
  | Some _ => Ret (tt, sub_remove key sub)
  | None => Ret (tt, sub)
  end.

Definition Del (key : string) (s : shard) : outcome shard :=
  '(_, s) ← with_sub key (sub_Del key) s;
  mret (mkShard (subs s) (numSubs s) (maxSubSize s)
          (delete key (sets s)) (delete key (hashes s)) (delete key (lists s))).

(** [for i := 0; i < n; i++ { sub := s.subs[i]; ... }] with an accumulator. *)
Fixpoint on_subs {A} (f : subShard -> A -> A * subShard) (n : nat)
    (l : list (option subShard)) (a : A) : outcome (A * list (option subShard)) :=
  match n, l with
  | O, _ => Ret (a, l)
  | S n, Some sub :: l =>
      let '(a, sub') := f sub a in
      '(a, l') ← on_subs f n l a;
      mret (a, Some sub' :: l')
  | S _, _ => Panic
  end.

Definition all_subs {A} (f : subShard -> A -> A * subShard) (a : A) (s : shard) :
    outcome (A * shard) :=
  '(a, l) ← on_subs f (Z.to_nat (numSubs s)) (subs s) a;
  mret (a, set_subs l s).

Definition Len (now : Z) (s : shard) : outcome Z :=
  fst <$> all_subs (fun sub count =>
    (foldl (fun count '(_, e) => if isExpired now e then count else count + 1)
       count (map_iter (entries sub)), sub)) 0 s.

Definition sub_cleanup (now : Z) (sub : subShard) (removed : Z) : Z * subShard :=
  foldl (fun '(removed, sub) '(k, e) =>
    if isExpired now e then (removed + 1, sub_remove k sub) else (removed, sub))
    (removed, sub) (map_iter (entries sub)).

Definition cleanup (now : Z) (s : shard) : outcome (Z * shard) := all_subs (sub_cleanup now) 0 s.

Definition swapPolicy (newPolicyFunc : P) (s : shard) : outcome shard :=
  snd <$> all_subs (fun sub _ =>
    (tt, mkSub (entries sub)
           (foldl (fun p '(k, _) => OnAdd k p) newPolicyFunc (map_iter (entries sub))))) tt s.

(** The loop over one sub-shard's entries in [ExtractN]. *)
Fixpoint extract_loop (now n : Z) (l : list (string * cacheEntry)) (items : list Item)
    (sub : subShard) : list Item * subShard :=
  match l with
  | [] => (items, sub)
  | (k, e) :: l =>
      if (expiresAt e >? 0) && (now >=? expiresAt e)
      then extract_loop now n l items (sub_remove k sub)
      else
        let ttl := if expiresAt e >? 0 then until now e else 0 in
        if (expiresAt e >? 0) && (ttl <=? 0)
        then extract_loop now n l items (sub_remove k sub)
        else
          let items := items ++ [mkIt k (value e) ttl] in
          let sub := sub_remove k sub in
          if Z.of_nat (length items) >=? n then (items, sub)
          else extract_loop now n l items sub
  end.

(** The loop over all eight sub-shard slots. *)
Fixpoint extract_subs (now n : Z) (i : nat) (l : list (option subShard)) (items : list Item) :
    outcome (list Item * list (option subShard)) :=
  match i with
  | O => Ret (items, l)
  | S i =>
      if Z.of_nat (length items) <? n then
        match l with
        | Some sub :: l =>
            let '(items, sub') := extract_loop now n (map_iter (entries sub)) items sub in
            '(items, l') ← extract_subs now n i l items;
            mret (items, Some sub' :: l')
        | _ => Panic
        end
      else Ret (items, l)
  end.

Definition ExtractN (now n : Z) (s : shard) : outcome (list Item * shard) :=
  '(items, l) ← extract_subs now n (Z.to_nat subShardsPerShard) (subs s) [];
  mret (items, set_subs l s).

(** ** Key management *)

Definition keyExists (now : Z) (key : string) (s : shard) : outcome bool :=
  sub ← get_sub s key;
  mret (
    match entries sub !! key with
    | Some e => if negb (isExpired now e) then true else false
    | None => false
    end
    || bool_decide (is_Some (sets s !! key))
    || bool_decide (is_Some (hashes s !! key))
    || bool_decide (is_Some (lists s !! key))).

Definition keyType (now : Z) (key : string) (s : shard) : outcome Z :=
  sub ← get_sub s key;
  mret (
    if match entries sub !! key with Some e => negb (isExpired now e) | None => false end then 1
    else if bool_decide (is_Some (sets s !! key)) then 2
    else if bool_decide (is_Some (hashes s !! key)) then 3
    else if bool_decide (is_Some (lists s !! key)) then 4
    else 0).

(** Rewrites a live entry. *)
Definition sub_update_live (now : Z) (key : string) (f : cacheEntry -> cacheEntry) (sub : subShard) :
    outcome (bool * subShard) :=
  match entries sub !! key with
  | None => Ret (false, sub)
  | Some e =>
      if isExpired now e then Ret (false, sub)
      else Ret (true, mkSub (<[key := f e]> (entries sub)) (policy sub))
  end.

Definition update_live (now : Z) (key : string) (f : cacheEntry -> cacheEntry) :
    shard -> outcome (bool * shard) :=
  with_sub key (sub_update_live now key f).

Definition expire (now : Z) (key : string) (ttl : Z) : shard -> outcome (bool * shard) :=
  update_live now key (fun e => mkEntry (value e) (int64 (now + ttl))).

Definition persist (now : Z) (key : string) : shard -> outcome (bool * shard) :=
  update_live now key (fun e => mkEntry (value e) 0).

(** The remaining time of a key in units of [unit] nanoseconds. *)
Definition ttl_in (unit : Z) (now : Z) (key : string) (s : shard) : outcome Z :=
  sub ← get_sub s key;
  mret (
    match entries sub !! key with
    | None => -2
    | Some e =>
        if expiresAt e <=? 0 then -1
        else
          let remaining := until now e in
          if remaining <=? 0 then -2 else remaining ÷ unit
    end).

Definition ttlSeconds : Z -> string -> shard -> outcome Z := ttl_in 1000000000.
Definition ttlMillis : Z -> string -> shard -> outcome Z := ttl_in 1000000.

(** [Match] is [filepath.Match(pattern, k)] with its error dropped. *)
Definition matchKeys (Match : string -> string -> bool) (now : Z) (pattern : string) (s : shard) :
    outcome (list string) :=
  '(matched, _) ← all_subs (fun sub matched =>
    (foldl (fun matched '(k, e) =>
       if isExpired now e then matched
       else if Match pattern k then matched ++ [k] else matched)
       matched (map_iter (entries sub)), sub)) [] s;
  let add_keys keys matched :=
    foldl (fun matched k => if Match pattern k then matched ++ [k] else matched) matched keys in
  mret (add_keys (map_iter (lists s)).*1
         (add_keys (map_iter (hashes s)).*1
           (add_keys (map_iter (sets s)).*1 matched))).

(** ** The invariant *)

Context `{PL : !PolicyLaws P}.

(** A tracking policy knows exactly the keys of its sub-shard. *)
Definition sub_ok (sub : subShard) : Prop :=
  policy_ok (policy sub) /\
  (policy_tracks (policy sub) = true -> policy_keys (policy sub) = dom (entries sub)).

(** The first [numSubs] slots are sound and hold the keys that hash to them; the
    others are nil. *)
Record shard_ok (s : shard) : Prop := {
  so_len : length (subs s) = Z.to_nat subShardsPerShard;
  so_num : 1 <= numSubs s <= subShardsPerShard;
  so_some i : (i < Z.to_nat (numSubs s))%nat ->
    exists sub, subs s !! i = Some (Some sub) /\ sub_ok sub /\
      forall k, is_Some (entries sub !! k) -> Z.to_nat (subIndex s k) = i;
  so_none i : (Z.to_nat (numSubs s) <= i < Z.to_nat subShardsPerShard)%nat ->
    subs s !! i = Some None;
}.

(** All the entries of a shard as one map. *)
Definition subs_entries (l : list (option subShard)) : gmap string cacheEntry :=
  foldr (fun o m => match o with Some sub => entries sub ∪ m | None => m end) ∅ l.

Definition shard_entries (s : shard) : gmap string cacheEntry := subs_entries (subs s).

(** Within the capacity: the policies all track ([tracks]) or none does, and
    under tracking policies no sub-shard holds more than [maxSubSize] entries. *)
Definition sub_cap (tracks : bool) (maxSubSize : Z) (sub : subShard) : Prop :=
  policy_tracks (policy sub) = tracks /\
  (maxSubSize > 0 -> tracks = true -> Z.of_nat (size (entries sub)) <= maxSubSize).

Definition shard_cap (tracks : bool) (s : shard) : Prop :=
  forall i sub, subs s !! i = Some (Some sub) -> sub_cap tracks (maxSubSize s) sub.

(** What keeps a sub-shard or a shard within its capacity. *)
Definition keeps_sub_cap (maxSubSize : Z) (sub sub' : subShard) : Prop :=
  forall tracks, sub_cap tracks maxSubSize sub -> sub_cap tracks maxSubSize sub'.

Definition keeps_cap (s s' : shard) : Prop :=
  forall tracks, shard_cap tracks s -> shard_cap tracks s'.

(** ** Lemmas: sub-shards *)

Lemma keeps_sub_cap_refl mx sub : keeps_sub_cap mx sub sub.
Proof. by intros ?. Qed.

Lemma keeps_cap_refl s : keeps_cap s s.
Proof. by intros ?. Qed.

Lemma keeps_cap_trans s1 s2 s3 : keeps_cap s1 s2 -> keeps_cap s2 s3 -> keeps_cap s1 s3.
Proof. intros H1 H2 tr Hc. by apply H2, H1. Qed.

#[local] Hint Resolve keeps_sub_cap_refl keeps_cap_refl : core.

Lemma sub_remove_ok key sub : sub_ok sub -> sub_ok (sub_remove key sub).
Proof.
  intros [Hp Hk]. destruct (on_remove_law key _ Hp) as (? & Hk' & Ht).
  split; [done|]. simpl. rewrite Ht, Hk'. intros Htr. by rewrite dom_delete_L, Hk.
Qed.

Lemma sub_insert_ok key e sub :
  sub_ok sub -> sub_ok (mkSub (<[key := e]> (entries sub)) (OnAdd key (policy sub))).
Proof.
  intros [Hp Hk]. destruct (on_add_law key _ Hp) as (? & Hk' & Ht).
  split; [done|]. simpl. rewrite Ht, Hk'. intros Htr. by rewrite Htr, dom_insert_L, Hk.
Qed.

Lemma sub_update_ok key e sub :
  sub_ok sub -> is_Some (entries sub !! key) ->
  sub_ok (mkSub (<[key := e]> (entries sub)) (policy sub)).
Proof.
  intros [Hp Hk] Hs. split; [done|]. simpl. intros Htr. rewrite dom_insert_L, Hk by done.
  apply elem_of_dom in Hs. set_solver.
Qed.

Lemma sub_access_ok key sub :
  sub_ok sub -> sub_ok (mkSub (entries sub) (OnAccess key (policy sub))).
Proof.
  intros [Hp Hk]. destruct (on_access_law key _ Hp) as (? & Hk' & Ht).
  split; [done|]. simpl. rewrite Ht, Hk'. done.
Qed.

(** The eviction loop ends, evicts known keys, as many as are over the limit. *)
Lemma evict_loop_spec fuel mx sub ev :
  sub_ok sub -> (size (entries sub) <= fuel)%nat ->
  exists ev' sub',
    evict_loop fuel mx sub ev ⇓ (ev ++ ev', sub') /\ sub_ok sub' /\
    policy_tracks (policy sub') = policy_tracks (policy sub) /\
    NoDup ev' /\ (forall k, k ∈ ev' -> is_Some (entries sub !! k)) /\
    (forall k, entries sub' !! k = if decide (k ∈ ev') then None else entries sub !! k) /\
    Z.of_nat (length ev') =
      (if (mx >? 0) && policy_tracks (policy sub) then Z.max 0 (Z.of_nat (size (entries sub)) - mx)
       else 0) /\
    sub_cap (policy_tracks (policy sub)) mx sub'.
Proof.
  revert sub ev. induction fuel as [|fuel IH]; intros sub ev Hok Hfuel;
    (assert (policy_tracks (policy sub) = false \/ policy_tracks (policy sub) = true) as Htr
       by (destruct (policy_tracks _); auto)).
  all: cbn [evict_loop]; destruct (mx >? 0) eqn:Hmx; simpl;
    [|exists [], sub; rewrite app_nil_r; split_and!;
      [done|done|done|constructor|set_solver|done|done|split; [done|lia]]].
  all: destruct (Z.gtb_spec (Z.of_nat (size (entries sub))) mx) as [Hgt|Hle];
    [|exists [], sub; rewrite app_nil_r; split_and!;
      [done|done|done|constructor|set_solver|done|simpl; case_match; lia|split; [done|lia]]].
  { lia. }
  destruct Hok as [Hp Hk]. destruct (evict_law _ Hp) as (Hp' & Ht & Hev).
  destruct (Evict (policy sub)) as [[k|] p']; simpl in *.
  - destruct Hev as [Hin Hks].
    assert (policy_tracks (policy sub) = true) as Htrue.
    { destruct Htr as [Hf|]; [|done]. by rewrite (untracked_law _ Hp Hf) in Hin. }
    specialize (Hk Htrue). rewrite Hk in Hin.
    destruct (IH (mkSub (delete k (entries sub)) p') (ev ++ [k])) as
      (ev' & sub' & Hl & Hok' & Ht' & Hnd & Hsub & Hlook & Hlen & Hcap).
    { split; [done|]. simpl. intros _. by rewrite Hks, Hk, dom_delete_L. }
    { simpl. rewrite map_size_delete_Some by (by apply elem_of_dom). lia. }
    simpl in *. rewrite map_size_delete_Some in Hlen by (by apply elem_of_dom).
    exists (k :: ev'), sub'. rewrite <-app_assoc in Hl.
    assert (k ∉ ev') as Hkn.
    { intros Hk'%Hsub. rewrite lookup_delete_eq in Hk'. by destruct Hk'. }
    split_and!; [done|done|congruence|by constructor| | | |by rewrite <-Ht].
    + intros j [->|Hj]%elem_of_cons; [by apply elem_of_dom|].
      apply Hsub in Hj. by apply lookup_delete_is_Some in Hj as [_ ?].
    + intros j. rewrite Hlook. destruct (decide (j = k)) as [->|Hjk].
      * rewrite (decide_True (P := k ∈ k :: ev')) by set_solver.
        rewrite lookup_delete_eq. by case_decide.
      * rewrite lookup_delete_ne by done. do 2 case_decide; set_solver.
    + rewrite Htrue. rewrite Ht, Htrue in Hlen. simpl in *. lia.
  - destruct Hev as [Hks Hks']. exists [], (mkSub (entries sub) p'). rewrite app_nil_r.
    assert (policy_tracks (policy sub) = false) as Hfalse.
    { destruct Htr as [|Htrue]; [done|]. specialize (Hk Htrue). rewrite Hks in Hk.
      symmetry in Hk. apply dom_empty_inv_L in Hk. rewrite Hk, map_size_empty in Hgt. lia. }
    split_and!; [done| |done|constructor|set_solver|done| |].
    + split; [done|]. simpl. rewrite Ht, Hfalse. done.
    + by rewrite Hfalse.
    + unfold sub_cap. simpl. rewrite Ht, Hfalse. done.
Qed.

(** ** Lemmas: the shard as one map *)

Lemma subs_entries_lookup l j k :
  (forall i sub, l !! i = Some (Some sub) -> is_Some (entries sub !! k) -> i = j) ->
  subs_entries l !! k = mjoin (l !! j) ≫= (fun sub => entries sub !! k).
Proof.
  revert j. induction l as [|o l IH]; intros j Huniq; [by destruct j|]. simpl.
  assert (forall j', (forall i sub, l !! i = Some (Some sub) -> is_Some (entries sub !! k) -> i = j') ->
    match o with Some sub => entries sub ∪ subs_entries l | None => subs_entries l end !! k =
    match o ≫= (fun sub => entries sub !! k) with
    | Some e => Some e | None => mjoin (l !! j') ≫= (fun sub => entries sub !! k) end) as Hstep.
  { intros j' Hj'. rewrite <-(IH j' Hj'). destruct o as [sub|]; simpl; [|done].
    rewrite lookup_union. destruct (entries sub !! k); simpl; [by destruct (subs_entries l !! k)|].
    by destruct (subs_entries l !! k). }
  destruct j as [|j]; simpl.
  - rewrite (Hstep (length l)).
    + rewrite (lookup_ge_None_2 l) by done. simpl. by destruct (o ≫= _).
    + intros i sub Hi Hs. specialize (Huniq (S i) sub Hi Hs). done.
  - rewrite (Hstep j).
    + destruct o as [sub|]; simpl; [|done]. destruct (entries sub !! k) eqn:He; [|done].
      specialize (Huniq 0%nat sub eq_refl ltac:(eauto)). done.
    + intros i sub Hi Hs. specialize (Huniq (S i) sub Hi Hs). congruence.
Qed.

Lemma subIndex_range s key : shard_ok s -> 0 <= subIndex s key < numSubs s.
Proof. intros Hok. apply Z.mod_pos_bound. pose proof (so_num s Hok). lia. Qed.

Lemma so_keys s i sub k :
  shard_ok s -> subs s !! i = Some (Some sub) -> is_Some (entries sub !! k) ->
  i = Z.to_nat (subIndex s k).
Proof.
  intros Hok Hi Hk. destruct (decide (i < Z.to_nat (numSubs s))%nat) as [Hlt|Hge].
  - destruct (so_some s Hok i Hlt) as (sub' & Hi' & _ & Hkeys). rewrite Hi in Hi'.
    injection Hi' as ->. symmetry. by apply Hkeys.
  - rewrite so_none in Hi; [done|done|]. split; [lia|].
    rewrite <-(so_len s Hok). by apply lookup_lt_Some in Hi.
Qed.

Lemma shard_entries_lookup s k :
  shard_ok s ->
  shard_entries s !! k =
  mjoin (subs s !! Z.to_nat (subIndex s k)) ≫= (fun sub => entries sub !! k).
Proof. intros Hok. apply subs_entries_lookup. intros i sub Hi Hs. by eapply so_keys. Qed.

(** The sub-shard of a key exists. *)
Lemma get_sub_ok s key :
  shard_ok s ->
  exists sub, get_sub s key ⇓ sub /\
    subs s !! Z.to_nat (subIndex s key) = Some (Some sub) /\ sub_ok sub /\
    (forall k, is_Some (entries sub !! k) -> subIndex s k = subIndex s key) /\
    forall k, subIndex s k = subIndex s key -> shard_entries s !! k = entries sub !! k.
Proof.
  intros Hok. pose proof (subIndex_range s key Hok) as Hr.
  destruct (so_some s Hok (Z.to_nat (subIndex s key))) as (sub & Hsub & Hsok & Hkeys); [lia|].
  exists sub. unfold get_sub. rewrite Hsub. simpl. split_and!; [|done|done| |].
  - pose proof (so_num s Hok). by destruct (Z.eqb_spec (numSubs s) 0); [lia|].
  - intros k Hk%Hkeys. pose proof (subIndex_range s k Hok). lia.
  - intros k Hk. by rewrite shard_entries_lookup, Hk, Hsub.
Qed.

Lemma subIndex_set_subs l s key : subIndex (set_subs l s) key = subIndex s key.
Proof. done. Qed.

Lemma set_sub_ok s key sub' :
  shard_ok s -> sub_ok sub' ->
  (forall k, is_Some (entries sub' !! k) -> subIndex s k = subIndex s key) ->
  shard_ok (set_sub key sub' s) /\
  forall k, shard_entries (set_sub key sub' s) !! k =
    if decide (subIndex s k = subIndex s key) then entries sub' !! k else shard_entries s !! k.
Proof.
  intros Hok Hsub Hkeys. pose proof (subIndex_range s key Hok) as Hr.
  pose proof (so_num s Hok) as Hn. pose proof (so_len s Hok) as Hl.
  assert (Z.to_nat (subIndex s key) < length (subs s))%nat as Hlt by lia.
  assert (shard_ok (set_sub key sub' s)) as Hok'.
  { split; simpl; [by rewrite length_insert|done| |].
    - intros i Hi. destruct (decide (i = Z.to_nat (subIndex s key))) as [->|Hne].
      + exists sub'. rewrite list_lookup_insert_eq by done. split_and!; [done|done|].
        intros k Hk%Hkeys. unfold set_sub. by rewrite subIndex_set_subs, Hk.
      + rewrite list_lookup_insert_ne by done. exact (so_some s Hok i Hi).
    - intros i Hi. rewrite list_lookup_insert_ne by lia. exact (so_none s Hok i Hi). }
  split; [done|]. intros k. rewrite !shard_entries_lookup by done.
  unfold set_sub. rewrite subIndex_set_subs. simpl.
  pose proof (subIndex_range s k Hok). case_decide as Hk.
  - rewrite Hk, list_lookup_insert_eq by done. done.
  - by rewrite list_lookup_insert_ne by lia.
Qed.

(** What an operation on the sub-shard of [key] does to the shard, from what it
    does to the sub-shard. *)
Lemma with_sub_ok {A} key (f : subShard -> outcome (A * subShard)) s
    (R : subShard -> A -> subShard -> Prop) :
  shard_ok s ->
  (forall sub, sub_ok sub -> exists a sub', f sub ⇓ (a, sub') /\ R sub a sub' /\ sub_ok sub' /\
     forall k, is_Some (entries sub' !! k) -> k = key \/ is_Some (entries sub !! k)) ->
  exists a sub sub', with_sub key f s ⇓ (a, set_sub key sub' s) /\
    get_sub s key ⇓ sub /\ sub_ok sub /\
    R sub a sub' /\ shard_ok (set_sub key sub' s) /\
    (forall k, subIndex s k = subIndex s key -> shard_entries s !! k = entries sub !! k) /\
    forall k, shard_entries (set_sub key sub' s) !! k =
      if decide (subIndex s k = subIndex s key) then entries sub' !! k else shard_entries s !! k.
Proof.
  intros Hok Hf. destruct (get_sub_ok s key Hok) as (sub & Hg & Hat & Hsok & Hkeys & Hlook).
  destruct (Hf sub Hsok) as (a & sub' & Hfs & HR & Hsok' & Hdom).
  destruct (set_sub_ok s key sub' Hok Hsok') as [Hok' Hlook'].
  { intros k [->|Hk]%Hdom; [done|by apply Hkeys]. }
  exists a, sub, sub'. split_and!; try done.
  unfold with_sub. rewrite Hg. simpl. rewrite Hfs. done.
Qed.

(** The parts an operation on string entries leaves alone. *)
Definition same_frame (s s' : shard) : Prop :=
  numSubs s' = numSubs s /\ maxSubSize s' = maxSubSize s /\ length (subs s') = length (subs s) /\
  sets s' = sets s /\ hashes s' = hashes s /\ lists s' = lists s.

Lemma set_sub_frame key sub s : same_frame s (set_sub key sub s).
Proof. unfold same_frame; simpl. by rewrite length_insert. Qed.

Lemma set_sub_cap tracks s key sub sub' :
  shard_ok s -> get_sub s key ⇓ sub -> shard_cap tracks s ->
  keeps_sub_cap (maxSubSize s) sub sub' -> shard_cap tracks (set_sub key sub' s).
Proof.
  intros Hok Hg Hcap Hsub i sub''. simpl.
  destruct (get_sub_ok s key Hok) as (x & Hg' & Hat & _). rewrite Hg in Hg'. injection Hg' as <-.
  rewrite list_lookup_insert_Some. intros [(_ & [= <-] & _)|[_ Hi]].
  - apply Hsub. by eapply Hcap.
  - by eapply Hcap.
Qed.

(** ** Specifications of the operations on one key *)

Lemma sub_cap_sub mx sub sub' :
  policy_tracks (policy sub') = policy_tracks (policy sub) ->
  (size (entries sub') <= size (entries sub))%nat -> keeps_sub_cap mx sub sub'.
Proof. intros Ht Hs tr [Ht' Hc]. split; [congruence|]. intros Hm Htr. specialize (Hc Hm Htr). lia. Qed.

Lemma sub_remove_cap mx key sub : sub_ok sub -> keeps_sub_cap mx sub (sub_remove key sub).
Proof.
  intros [Hp _]. apply sub_cap_sub; simpl; [apply on_remove_law, Hp|].
  apply map_subseteq_size, delete_subseteq.
Qed.

(** An entry as [get] and [cleanup] leave it. *)
Definition keep_live (now : Z) (e : cacheEntry) : option cacheEntry :=
  if isExpired now e then None else Some e.

Lemma sub_get_spec now key sub mx :
  sub_ok sub ->
  exists r sub', sub_get now key sub ⇓ (r, sub') /\
   (r = (value <$> (entries sub !! key ≫= keep_live now)) /\ keeps_sub_cap mx sub sub' /\
    entries sub' = partial_alter (fun o => o ≫= keep_live now) key (entries sub)) /\
   sub_ok sub' /\ forall k, is_Some (entries sub' !! k) -> k = key \/ is_Some (entries sub !! k).
Proof.
  intros Hsub. unfold sub_get, keep_live. destruct (entries sub !! key) as [e|] eqn:He.
  - destruct (isExpired now e) eqn:Hx; eexists _, _; (split; [done|]); simpl; rewrite Hx;
      split_and!; simpl; auto.
    + by apply sub_remove_cap.
    + apply map_eq. intros k. rewrite lookup_delete, lookup_partial_alter.
      case_decide; subst; [|done]. by rewrite He; simpl; rewrite Hx.
    + by apply sub_remove_ok.
    + intros k. rewrite lookup_delete_is_Some. tauto.
    + apply map_eq. intros k. rewrite lookup_partial_alter.
      case_decide; subst; [|done]. by rewrite He; simpl; rewrite Hx.
  - eexists _, _; split; [done|]. split_and!; auto.
    apply map_eq. intros k. rewrite lookup_partial_alter. case_decide; subst; [|done]. by rewrite He.
Qed.

Lemma get_spec now key s :
  shard_ok s ->
  exists s', get now key s ⇓ (value <$> (shard_entries s !! key ≫= keep_live now), s') /\
    shard_ok s' /\ same_frame s s' /\ keeps_cap s s' /\
    shard_entries s' = partial_alter (fun o => o ≫= keep_live now) key (shard_entries s).
Proof.
  intros Hok. destruct (with_sub_ok key (sub_get now key) s _ Hok
    (fun sub Hsub => sub_get_spec now key sub (maxSubSize s) Hsub)) as
    (r & sub & sub' & Hw & Hg & Hsok & (Hr & Hcap & HR) & Hok' & Hl & Hl').
  exists (set_sub key sub' s). split_and!; [|done|apply set_sub_frame| |].
  - unfold get. by rewrite Hw, Hr, (Hl key eq_refl).
  - intros tr Hc. by eapply set_sub_cap.
  - apply map_eq. intros k. rewrite Hl', lookup_partial_alter, HR, lookup_partial_alter.
    destruct (decide (key = k)) as [<-|]; [by rewrite decide_True, Hl by done|].
    case_decide as Hk; [|done]. by rewrite Hl.
Qed.

(** The keys evicted by a [Set], and the entries it leaves. *)
Record sub_set_result (now : Z) (key : string) (value : bytes) (ttl mx : Z) (sub : subShard)
    (ev : list string) (sub' : subShard) : Prop := {
  ssr_nodup : NoDup ev;
  ssr_sub k : k ∈ ev -> k = key \/ is_Some (entries sub !! k);
  ssr_entries k : entries sub' !! k =
    if decide (k ∈ ev) then None
    else if decide (k = key) then Some (newEntry now value ttl) else entries sub !! k;
  ssr_old : is_Some (entries sub !! key) -> ev = [];
  ssr_unlimited : mx <= 0 -> ev = [];
  ssr_cap tracks : sub_cap tracks mx sub -> sub_cap tracks mx sub' /\ (length ev <= 1)%nat;
}.

Lemma sub_Set_spec now key value ttl mx sub :
  sub_ok sub ->
  exists ev sub', sub_Set now key value ttl mx sub ⇓ (ev, sub') /\
    sub_set_result now key value ttl mx sub ev sub' /\ sub_ok sub' /\
    forall k, is_Some (entries sub' !! k) -> k = key \/ is_Some (entries sub !! k).
Proof.
  intros Hsub. unfold sub_Set. case_bool_decide as Hex.
  - eexists _, _. split; [done|]. split_and!.
    + split; [constructor|set_solver| |done|done|].
      * intros k. rewrite decide_False by set_solver. simpl. rewrite lookup_insert. by repeat case_decide.
      * intros tr Hc. split; [|simpl; lia]. revert tr Hc. apply sub_cap_sub; simpl.
        -- apply on_access_law, Hsub.
        -- by rewrite map_size_insert_Some.
    + apply (sub_access_ok key (mkSub _ (policy sub))). by apply sub_update_ok.
    + intros k. simpl. rewrite lookup_insert_is_Some. naive_solver.
  - pose proof (sub_insert_ok key (newEntry now value ttl) sub Hsub) as Hins.
    edestruct (evict_loop_spec _ mx _ [] Hins (Nat.le_succ_diag_r _)) as
      (ev & sub' & Hev & Hok' & Ht & Hnd & Hdom & Hlook & Hlen & Hcap). simpl in Hlook, Hlen.
    exists ev, sub'. split; [exact Hev|]. split_and!; [split; [done| | |tauto| |]|done|].
    + intros k Hk%Hdom. simpl in Hk. apply lookup_insert_is_Some in Hk as [->|[_ ?]]; auto.
    + intros k. rewrite Hlook, lookup_insert. by repeat case_decide.
    + intros Hm. destruct (Z.gtb_spec mx 0); [lia|]. simpl in Hlen. by destruct ev; simpl in Hlen; [|lia].
    + intros tr [<- Hc]. simpl in Hcap.
      destruct (on_add_law key _ (proj1 Hsub)) as (_ & _ & Ht'). rewrite Ht' in Hlen, Hcap.
      split; [done|].
      rewrite map_size_insert_None in Hlen by (by apply eq_None_not_Some).
      destruct (Z.gtb_spec mx 0); simpl in Hlen; [|lia].
      destruct (policy_tracks (policy sub)); [|lia]. specialize (Hc ltac:(lia) eq_refl). lia.
    + intros k. rewrite Hlook. case_decide; [by intros []|]. rewrite lookup_insert_is_Some. naive_solver.
Qed.

Record set_result (now : Z) (key : string) (value : bytes) (ttl : Z) (s : shard)
    (ev : list string) (s' : shard) : Prop := {
  sr_ok : shard_ok s';
  sr_frame : same_frame s s';
  sr_cap : keeps_cap s s';
  sr_nodup : NoDup ev;
  sr_sub k : k ∈ ev -> subIndex s k = subIndex s key /\
    (k = key \/ is_Some (shard_entries s !! k));
  sr_entries k : shard_entries s' !! k =
    if decide (k ∈ ev) then None
    else if decide (k = key) then Some (newEntry now value ttl) else shard_entries s !! k;
  sr_old : is_Some (shard_entries s !! key) -> ev = [];
  sr_unlimited : maxSubSize s <= 0 -> ev = [];
  sr_one tracks : shard_cap tracks s -> (length ev <= 1)%nat;
}.

Lemma Set_spec now key value ttl s :
  shard_ok s ->
  exists ev s', Set_ now key value ttl s ⇓ (ev, s') /\ set_result now key value ttl s ev s'.
Proof.
  intros Hok. destruct (with_sub_ok key (sub_Set now key value ttl (maxSubSize s)) s _ Hok
    (fun sub Hsub => sub_Set_spec now key value ttl (maxSubSize s) sub Hsub)) as
    (ev & sub & sub' & Hw & Hg & Hsok & HR & Hok' & Hl & Hl').
  destruct (get_sub_ok s key Hok) as (x & Hg' & Hat & _ & Hkeys & _).
  rewrite Hg in Hg'. injection Hg' as <-.
  exists ev, (set_sub key sub' s). split; [done|]. split.
  - done.
  - apply set_sub_frame.
  - intros tr Hc. eapply set_sub_cap; [done|done|done|]. intros tr' Hsc. by eapply ssr_cap.
  - by eapply ssr_nodup.
  - intros k Hk. destruct (ssr_sub _ _ _ _ _ _ _ _ HR k Hk) as [->|Hs]; [by auto|].
    rewrite Hl by (by apply Hkeys). auto.
  - intros k. rewrite Hl'. case_decide as Hk; [by rewrite (ssr_entries _ _ _ _ _ _ _ _ HR), (Hl k Hk)|].
    rewrite (decide_False (P := k = key)) by congruence.
    rewrite decide_False; [done|]. intros Hev.
    destruct (ssr_sub _ _ _ _ _ _ _ _ HR k Hev) as [->|Hs%Hkeys]; done.
  - intros Hs. eapply ssr_old; [done|]. by rewrite <-Hl.
  - by eapply ssr_unlimited.
  - intros tr Hc. eapply ssr_cap; [done|]. by eapply Hc.
Qed.

Lemma sub_Del_spec key sub mx :
  sub_ok sub ->
  exists r sub', sub_Del key sub ⇓ (r, sub') /\
   (keeps_sub_cap mx sub sub' /\ entries sub' = delete key (entries sub)) /\
   sub_ok sub' /\ forall k, is_Some (entries sub' !! k) -> k = key \/ is_Some (entries sub !! k).
Proof.
  intros Hsub. unfold sub_Del. destruct (entries sub !! key) eqn:He; eexists _, _; (split; [done|]);
    split_and!; auto.
  - by apply sub_remove_cap.
  - by apply sub_remove_ok.
  - intros k. simpl. rewrite lookup_delete_is_Some. tauto.
  - by rewrite delete_id.
Qed.

Lemma Del_spec key s :
  shard_ok s ->
  exists s', Del key s ⇓ s' /\ shard_ok s' /\ keeps_cap s s' /\
    shard_entries s' = delete key (shard_entries s) /\
    numSubs s' = numSubs s /\ maxSubSize s' = maxSubSize s /\
    sets s' = delete key (sets s) /\ hashes s' = delete key (hashes s) /\
    lists s' = delete key (lists s).
Proof.
  intros Hok. destruct (with_sub_ok key (sub_Del key) s _ Hok
    (fun sub Hsub => sub_Del_spec key sub (maxSubSize s) Hsub)) as
    (r & sub & sub' & Hw & Hg & Hsok & (Hcap & HR) & Hok' & Hl & Hl').
  unfold Del. rewrite Hw. simpl. eexists. split; [done|]. split_and!; try done.
  - destruct Hok'. by split.
  - intros tr Hc. by eapply (set_sub_cap tr s key sub sub').
  - apply map_eq. intros k. etransitivity; [exact (Hl' k)|]. rewrite HR, !lookup_delete. destruct (decide (key = k)) as [<-|].
    + by rewrite decide_True.
    + case_decide as Hk; [|done]. by rewrite Hl.
Qed.

Lemma sub_update_live_spec now key f sub mx :
  sub_ok sub ->
  exists r sub', sub_update_live now key f sub ⇓ (r, sub') /\
   (r = bool_decide (is_Some (entries sub !! key ≫= keep_live now)) /\
    keeps_sub_cap mx sub sub' /\
    entries sub' = alter (fun e => if isExpired now e then e else f e) key (entries sub)) /\
   sub_ok sub' /\ forall k, is_Some (entries sub' !! k) -> k = key \/ is_Some (entries sub !! k).
Proof.
  intros Hsub. unfold sub_update_live, keep_live. destruct (entries sub !! key) as [e|] eqn:He; simpl.
  - destruct (isExpired now e) eqn:Hx; eexists _, _; (split; [done|]); split_and!; auto.
    + symmetry. apply alter_id. intros x. rewrite He. intros [= <-]. by rewrite Hx.
    + apply sub_cap_sub; simpl; [done|]. rewrite map_size_insert_Some; eauto.
    + simpl. apply map_eq. intros k. rewrite lookup_insert, lookup_alter.
      case_decide; subst; [|done]. rewrite He. simpl. by rewrite Hx.
    + apply sub_update_ok; eauto.
    + intros k. simpl. rewrite lookup_insert_is_Some. naive_solver.
  - eexists _, _. split; [done|]. split_and!; auto.
    symmetry. apply alter_id. intros x. by rewrite He.
Qed.

Lemma update_live_spec now key f s :
  shard_ok s ->
  exists s', update_live now key f s =
      Ret (bool_decide (is_Some (shard_entries s !! key ≫= keep_live now)), s') /\
    shard_ok s' /\ same_frame s s' /\ keeps_cap s s' /\
    shard_entries s' = alter (fun e => if isExpired now e then e else f e) key (shard_entries s).
Proof.
  intros Hok. destruct (with_sub_ok key (sub_update_live now key f) s _ Hok
    (fun sub Hsub => sub_update_live_spec now key f sub (maxSubSize s) Hsub)) as
    (r & sub & sub' & Hw & Hg & Hsok & (Hr & Hcap & HR) & Hok' & Hl & Hl').
  exists (set_sub key sub' s). split_and!; [|done|apply set_sub_frame| |].
  - unfold update_live. by rewrite Hw, Hr, (Hl key eq_refl).
  - intros tr Hc. by eapply set_sub_cap.
  - apply map_eq. intros k. rewrite Hl', HR, !lookup_alter.
    destruct (decide (key = k)) as [<-|]; [by rewrite decide_True, Hl|].
    case_decide as Hk; [|done]. by rewrite Hl.
Qed.

(** ** Lemmas: loops over the sub-shards *)

(** The sub-shards in use. *)
Lemma shard_subs s :
  shard_ok s ->
  exists l, subs s = (Some <$> l) ++ replicate (Z.to_nat (subShardsPerShard - numSubs s)) None /\
    length l = Z.to_nat (numSubs s) /\ Forall sub_ok l.
Proof.
  intros Hok. pose proof (so_num s Hok) as Hn. pose proof (so_len s Hok) as Hlen.
  exists (omap id (take (Z.to_nat (numSubs s)) (subs s))).
  assert (forall n, (n <= Z.to_nat (numSubs s))%nat ->
    Some <$> omap id (take n (subs s)) = take n (subs s) /\
    Forall sub_ok (omap id (take n (subs s)))) as Htake.
  { induction n as [|n IH]; intros Hle; [done|]. destruct IH as [IH1 IH2]; [lia|].
    destruct (so_some s Hok n) as (sub & Hsub & Hsok & _); [lia|].
    rewrite (take_S_r _ _ _ Hsub), omap_app, fmap_app, IH1. simpl. split; [done|].
    apply Forall_app. auto. }
  destruct (Htake (Z.to_nat (numSubs s)) (Nat.le_refl _)) as [Ht Hall]. split_and!; [|
    rewrite <-(length_fmap Some), Ht, length_take; lia|done].
  rewrite Ht. rewrite <-(take_drop (Z.to_nat (numSubs s)) (subs s)) at 1. f_equal.
  apply list_eq. intros i. rewrite lookup_drop.
  destruct (decide (i < Z.to_nat (subShardsPerShard - numSubs s))%nat) as [Hi|Hi].
  - rewrite lookup_replicate_2 by done. apply so_none; [done|lia].
  - rewrite (lookup_ge_None_2 (replicate _ _)) by (rewrite length_replicate; lia).
    apply lookup_ge_None_2. lia.
Qed.

(** The loop as a pure traversal. *)
Fixpoint sub_fold {A} (f : subShard -> A -> A * subShard) (l : list subShard) (a : A) :
    A * list subShard :=
  match l with
  | [] => (a, [])
  | sub :: l =>
      let '(a, sub') := f sub a in
      let '(a, l') := sub_fold f l a in (a, sub' :: l')
  end.

Lemma on_subs_fold {A} (f : subShard -> A -> A * subShard) l rest a :
  on_subs f (length l) ((Some <$> l) ++ rest) a =
  Ret (let '(a, l') := sub_fold f l a in (a, (Some <$> l') ++ rest)).
Proof.
  revert a. induction l as [|sub l IH]; intros a; [done|]. simpl.
  destruct (f sub a) as [a' sub']. rewrite IH. simpl. by destruct (sub_fold f l a') as [a'' l'].
Qed.

Lemma sub_fold_pure {A} (g : subShard -> A -> A) (h : subShard -> subShard) l a :
  sub_fold (fun sub a => (g sub a, h sub)) l a = (foldl (fun a sub => g sub a) a l, h <$> l).
Proof. revert a. induction l as [|sub l IH]; intros a; [done|]. simpl. by rewrite IH. Qed.

(** Replacing every sub-shard by one with no more keys. *)
Lemma set_subs_ok s (l l' : list subShard) :
  shard_ok s ->
  subs s = (Some <$> l) ++ replicate (Z.to_nat (subShardsPerShard - numSubs s)) None ->
  length l = Z.to_nat (numSubs s) ->
  Forall2 (fun sub sub' => sub_ok sub' /\
    forall k, is_Some (entries sub' !! k) -> is_Some (entries sub !! k)) l l' ->
  shard_ok (set_subs ((Some <$> l') ++ replicate (Z.to_nat (subShardsPerShard - numSubs s)) None) s).
Proof.
  intros Hok Hsubs Hlen Hall.
  pose proof (so_num s Hok) as Hn. pose proof (Forall2_length _ _ _ Hall) as Hlen'.
  split; simpl.
  - rewrite length_app, length_fmap, length_replicate. lia.
  - done.
  - intros i Hi. destruct (lookup_lt_is_Some_2 l' i) as [sub' Hsub']; [lia|].
    destruct (Forall2_lookup_r _ _ _ _ _ Hall Hsub') as (sub & Hsub & Hsok & Hlook).
    exists sub'. rewrite lookup_app_l by (rewrite length_fmap; lia).
    rewrite list_lookup_fmap, Hsub'. split_and!; [done|done|]. intros k Hk.
    symmetry. apply (so_keys s i sub k Hok); [|by apply Hlook].
    rewrite Hsubs, lookup_app_l, list_lookup_fmap, Hsub; [done|].
    rewrite length_fmap. by eapply lookup_lt_Some.
  - intros i Hi. rewrite lookup_app_r by (rewrite length_fmap; lia).
    apply lookup_replicate_2. rewrite length_fmap. lia.
Qed.

Lemma set_subs_map_ok s (l l' : list subShard) (F : string -> option cacheEntry -> option cacheEntry) :
  shard_ok s ->
  subs s = (Some <$> l) ++ replicate (Z.to_nat (subShardsPerShard - numSubs s)) None ->
  length l = Z.to_nat (numSubs s) ->
  Forall2 (fun sub sub' => sub_ok sub' /\ forall k, entries sub' !! k = F k (entries sub !! k)) l l' ->
  (forall k, F k None = None) ->
  let s' := set_subs ((Some <$> l') ++ replicate (Z.to_nat (subShardsPerShard - numSubs s)) None) s in
  shard_ok s' /\ (forall k, shard_entries s' !! k = F k (shard_entries s !! k)).
Proof.
  intros Hok Hsubs Hlen Hall HF s'. pose proof (Forall2_length _ _ _ Hall) as Hlen'.
  assert (shard_ok s') as Hok'.
  { eapply set_subs_ok; [done|done|done|]. eapply Forall2_impl; [exact Hall|].
    intros sub sub' [Hsok Hlook]. split; [done|]. intros k. rewrite Hlook.
    destruct (entries sub !! k); [eauto|]. rewrite HF. done. }
  split; [done|]. intros k. rewrite !shard_entries_lookup by done.
  change (subIndex s' k) with (subIndex s k). simpl.
  pose proof (subIndex_range s k Hok) as Hr.
  destruct (lookup_lt_is_Some_2 l (Z.to_nat (subIndex s k))) as [sub Hsub]; [lia|].
  destruct (Forall2_lookup_l _ _ _ _ _ Hall Hsub) as (sub' & Hsub' & _ & Hlook).
  rewrite Hsubs, !lookup_app_l by (rewrite length_fmap; lia).
  rewrite !list_lookup_fmap, Hsub, Hsub'. simpl. apply Hlook.
Qed.

(** The unexpired part of a map of entries. *)
Definition live (now : Z) (m : gmap string cacheEntry) : gmap string cacheEntry :=
  filter (fun '(_, e) => isExpired now e = false) m.

Lemma live_lookup now m k : live now m !! k = m !! k ≫= keep_live now.
Proof.
  unfold live, keep_live. rewrite map_lookup_filter. destruct (m !! k) as [e|]; simpl; [|done].
  by destruct (isExpired now e).
Qed.

Lemma length_filter_map_iter (Q : string * cacheEntry -> Prop) `{forall x, Decision (Q x)} m :
  length (filter Q (map_iter m)) = size (filter Q m).
Proof.
  rewrite map_iter_perm. rewrite map_filter_alt, <-length_map_to_list, map_to_list_to_map; [done|].
  apply NoDup_fst_filter, NoDup_fst_map_to_list.
Qed.

Lemma subs_entries_cons sub l : subs_entries (Some sub :: l) = entries sub ∪ subs_entries l.
Proof. done. Qed.

Lemma subs_entries_nones n : subs_entries (replicate n None) = ∅.
Proof. induction n; done. Qed.

(** Sub-shards whose keys [h] tells apart. *)
Definition told_apart (h : string -> nat) (l : list subShard) : Prop :=
  forall i sub k, l !! i = Some sub -> is_Some (entries sub !! k) -> h k = i.

Lemma told_apart_tail h sub l : told_apart h (sub :: l) -> told_apart (pred ∘ h) l.
Proof. intros Hh i sub' k Hi Hk. simpl. by rewrite (Hh (S i) sub' k Hi Hk). Qed.

Lemma told_apart_disjoint h sub l n :
  told_apart h (sub :: l) -> entries sub ##ₘ subs_entries ((Some <$> l) ++ replicate n None).
Proof.
  intros Hh. apply map_disjoint_spec. intros k x y Hx Hy.
  assert (h k = 0%nat) as H0 by (apply (Hh 0%nat sub k eq_refl); eauto).
  assert (forall i sub', l !! i = Some sub' -> entries sub' !! k = None) as Hnone.
  { intros i sub' Hi. apply eq_None_not_Some. intros Hk. by rewrite (Hh (S i) sub' k Hi Hk) in H0. }
  clear Hh. induction l as [|sub' l IH].
  - by rewrite fmap_nil, app_nil_l, subs_entries_nones in Hy.
  - simpl in Hy. apply lookup_union_Some_raw in Hy as [Hy|[_ Hy]]; [by rewrite (Hnone 0%nat sub') in Hy|].
    apply IH; [done|]. intros i. apply (Hnone (S i)).
Qed.

(** The entries of disjoint sub-shards add up. *)
Lemma subs_size (Q : string * cacheEntry -> Prop) `{forall x, Decision (Q x)}
    (l : list subShard) n (h : string -> nat) :
  told_apart h l ->
  size (filter Q (subs_entries ((Some <$> l) ++ replicate n None))) =
  sum_list_with (fun sub => size (filter Q (entries sub))) l.
Proof.
  revert h. induction l as [|sub l IH]; intros h Hh.
  { rewrite fmap_nil, app_nil_l, subs_entries_nones, map_filter_empty. apply map_size_empty. }
  simpl. rewrite <-(IH (pred ∘ h)) by (by eapply told_apart_tail).
  pose proof (told_apart_disjoint h sub l n Hh) as Hd.
  rewrite map_filter_union by done. by apply map_size_disj_union, map_disjoint_filter.
Qed.

Lemma shard_told_apart s l :
  shard_ok s ->
  subs s = (Some <$> l) ++ replicate (Z.to_nat (subShardsPerShard - numSubs s)) None ->
  told_apart (fun k => Z.to_nat (subIndex s k)) l.
Proof.
  intros Hok Hsubs i sub k Hi Hk. symmetry.
  eapply so_keys; [done| |done]. rewrite Hsubs, lookup_app_l, list_lookup_fmap, Hi; [done|].
  rewrite length_fmap. by eapply lookup_lt_Some.
Qed.

Lemma shard_size (Q : string * cacheEntry -> Prop) `{forall x, Decision (Q x)} s l :
  shard_ok s ->
  subs s = (Some <$> l) ++ replicate (Z.to_nat (subShardsPerShard - numSubs s)) None ->
  size (filter Q (shard_entries s)) = sum_list_with (fun sub => size (filter Q (entries sub))) l.
Proof.
  intros Hok Hsubs. unfold shard_entries. rewrite Hsubs.
  eapply subs_size. by apply shard_told_apart.
Qed.

Lemma all_subs_fold {A} (f : subShard -> A -> A * subShard) a s l :
  subs s = (Some <$> l) ++ replicate (Z.to_nat (subShardsPerShard - numSubs s)) None ->
  length l = Z.to_nat (numSubs s) ->
  all_subs f a s =
  Ret (let '(a, l') := sub_fold f l a in
       (a, set_subs ((Some <$> l') ++ replicate (Z.to_nat (subShardsPerShard - numSubs s)) None) s)).
Proof.
  intros Hsubs Hlen. unfold all_subs. rewrite <-Hlen, Hsubs, on_subs_fold. simpl.
  by destruct (sub_fold f l a).
Qed.

Lemma count_live now l c :
  foldl (fun count '(_, e) => if isExpired now e then count else count + 1) c l =
  c + Z.of_nat (length (filter (fun '(_, e) => isExpired now e = false) (l : list (string * cacheEntry)))).
Proof.
  revert c. induction l as [|[k e] l IH]; intros c; [simpl; lia|].
  simpl foldl. rewrite IH, filter_cons. case_decide as Hd.
  - rewrite Hd. simpl. lia.
  - apply not_false_is_true in Hd. rewrite Hd. lia.
Qed.

Lemma Len_spec now s :
  shard_ok s -> Len now s ⇓ (Z.of_nat (size (live now (shard_entries s)))).
Proof.
  intros Hok. destruct (shard_subs s Hok) as (l & Hsubs & Hlen & _).
  unfold Len. rewrite (all_subs_fold _ _ _ l Hsubs Hlen), (sub_fold_pure _ (fun sub => sub)). simpl.
  do 2 f_equal. unfold live. rewrite (shard_size _ s l Hok Hsubs). clear Hsubs Hlen.
  enough (forall c, foldl (fun a sub => foldl (fun count '(_, e) =>
      if isExpired now e then count else count + 1) a (map_iter (entries sub))) c l =
    c + Z.of_nat (sum_list_with (fun sub => size (filter (fun '(_, e) => isExpired now e = false) (entries sub))) l))
    as Hc by (rewrite Hc; lia).
  induction l as [|sub l IH]; intros c; simpl; [lia|].
  rewrite IH, count_live, length_filter_map_iter. lia.
Qed.

(** Two filters split a map. *)
Lemma size_live_expired now (m : gmap string cacheEntry) :
  (size (live now m) + size (filter (fun '(_, e) => isExpired now e = true) m) = size m)%nat.
Proof.
  unfold live. rewrite <-map_size_disj_union.
  - f_equal. rewrite <-(map_filter_union_complement (fun '(_, e) => isExpired now e = false) m) at 3.
    f_equal. apply map_filter_ext. intros k e _. simpl. by destruct (isExpired now e).
  - apply map_disjoint_spec. intros k x y. rewrite !map_lookup_filter_Some. intros [? Hx] [? Hy]. by simplify_eq/=; congruence.
Qed.

(** The loop of [cleanup] over one sub-shard. *)
Lemma cleanup_fold now l r sub mx :
  sub_ok sub -> NoDup l.*1 ->
  (forall k e, (k, e) ∈ l -> entries sub !! k = Some e) ->
  exists sub',
    foldl (fun '(removed, sub) '(k, e) =>
      if isExpired now e then (removed + 1, sub_remove k sub) else (removed, sub)) (r, sub) l =
    (r + Z.of_nat (length (filter (fun '(_, e) => isExpired now e = true) l)), sub') /\
    sub_ok sub' /\ keeps_sub_cap mx sub sub' /\
    forall k, entries sub' !! k =
      if decide (k ∈ l.*1) then entries sub !! k ≫= keep_live now else entries sub !! k.
Proof.
  revert r sub. induction l as [|[k e] l IH]; intros r sub Hok Hnd Hl.
  { exists sub. split_and!; [simpl; by rewrite Z.add_0_r|done|done|].
    intros k. by rewrite decide_False by (apply not_elem_of_nil). }
  rewrite fmap_cons, NoDup_cons in Hnd. destruct Hnd as [Hni Hnd]. simpl in Hni.
  assert (entries sub !! k = Some e) as Hk by (apply Hl; left).
  simpl foldl. rewrite filter_cons. case_decide as Hx; simpl in Hx.
  - rewrite Hx. destruct (IH (r + 1) (sub_remove k sub)) as (sub' & -> & Hok' & Hcap & Hlook);
      [by apply sub_remove_ok|done| |].
    { intros k' e' Hin. simpl. rewrite lookup_delete_ne; [apply Hl; by right|].
      intros <-. apply Hni, list_elem_of_fmap. by exists (k, e'). }
    exists sub'. split_and!; [|done|intros tr Htr; by apply Hcap, sub_remove_cap|].
    + f_equal. simpl. lia.
    + intros j. rewrite Hlook. cbn [entries sub_remove]. destruct (decide (j = k)) as [->|Hjk].
      * rewrite lookup_delete_eq, Hk. destruct (decide (k ∈ ((k, e) :: l).*1)) as [_|[]]; [|left].
        unfold keep_live. cbn. rewrite Hx. by case_decide.
      * rewrite lookup_delete_ne by done.
        destruct (decide (j ∈ l.*1)), (decide (j ∈ ((k, e) :: l).*1)); set_solver.
  - apply not_true_is_false in Hx. rewrite Hx.
    destruct (IH r sub Hok Hnd) as (sub' & -> & Hok' & Hcap & Hlook); [intros; apply Hl; by right|].
    exists sub'. split_and!; [done|done|done|].
    intros j. rewrite Hlook. destruct (decide (j = k)) as [->|Hjk].
    + rewrite Hk. unfold keep_live. cbn. rewrite Hx. by repeat case_decide.
    + destruct (decide (j ∈ l.*1)), (decide (j ∈ ((k, e) :: l).*1)); set_solver.
Qed.

Lemma elem_of_map_iter_keys (m : gmap string cacheEntry) k : k ∈ (map_iter m).*1 <-> is_Some (m !! k).
Proof.
  rewrite list_elem_of_fmap. split.
  - intros ([k' e] & -> & Hin%elem_of_map_iter). eauto.
  - intros [e He]. exists (k, e). split; [done|]. by apply elem_of_map_iter.
Qed.

Lemma sub_cleanup_spec now sub r mx :
  sub_ok sub ->
  exists sub', sub_cleanup now sub r =
      (r + (Z.of_nat (size (entries sub)) - Z.of_nat (size (live now (entries sub)))), sub') /\
    sub_ok sub' /\ keeps_sub_cap mx sub sub' /\
    forall k, entries sub' !! k = entries sub !! k ≫= keep_live now.
Proof.
  intros Hok. destruct (cleanup_fold now (map_iter (entries sub)) r sub mx Hok) as (sub' & Hf & Hok' & Hc & Hlook).
  { mcache_auto. }
  { intros k e. apply elem_of_map_iter. }
  exists sub'. split_and!; [|done|done|].
  - unfold sub_cleanup. rewrite Hf, length_filter_map_iter.
    pose proof (size_live_expired now (entries sub)). f_equal. lia.
  - intros k. rewrite Hlook. case_decide as Hd; [done|]. rewrite elem_of_map_iter_keys in Hd.
    apply eq_None_not_Some in Hd. by rewrite Hd.
Qed.

Lemma Forall2_cap tracks s l l' n :
  shard_cap tracks s -> subs s = (Some <$> l) ++ replicate n None ->
  Forall2 (keeps_sub_cap (maxSubSize s)) l l' ->
  shard_cap tracks (set_subs ((Some <$> l') ++ replicate n None) s).
Proof.
  intros Hc Hs Hall i sub'. simpl. rewrite lookup_app_Some. intros [Hi|[_ Hi]].
  - rewrite list_lookup_fmap, fmap_Some in Hi. destruct Hi as (x & Hi & [= <-]).
    destruct (Forall2_lookup_r _ _ _ _ _ Hall Hi) as (sub & Hsub & Hcap).
    apply Hcap, (Hc i). rewrite Hs, lookup_app_l, list_lookup_fmap, Hsub; [done|].
    rewrite length_fmap. by eapply lookup_lt_Some.
  - by apply lookup_replicate in Hi as [? _].
Qed.

Lemma map_filter_true (m : gmap string cacheEntry) : filter (fun _ => True) m = m.
Proof. apply map_filter_id. done. Qed.

Lemma shard_total s l :
  shard_ok s -> subs s = (Some <$> l) ++ replicate (Z.to_nat (subShardsPerShard - numSubs s)) None ->
  size (shard_entries s) = sum_list_with (fun sub => size (entries sub)) l.
Proof.
  intros Hok Hs. pose proof (shard_size (fun _ => True) s l Hok Hs) as H.
  rewrite map_filter_true in H. rewrite H. clear. induction l; simpl; [done|]. by rewrite map_filter_true, IHl.
Qed.

Lemma cleanup_spec now s :
  shard_ok s ->
  exists s', cleanup now s =
      Ret (Z.of_nat (size (shard_entries s)) - Z.of_nat (size (live now (shard_entries s))), s') /\
    shard_ok s' /\ same_frame s s' /\ keeps_cap s s' /\
    shard_entries s' = live now (shard_entries s).
Proof.
  intros Hok. destruct (shard_subs s Hok) as (l & Hsubs & Hlen & Hall).
  assert (forall r, exists l', sub_fold (sub_cleanup now) l r =
      (r + (Z.of_nat (sum_list_with (fun sub => size (entries sub)) l) -
            Z.of_nat (sum_list_with (fun sub => size (live now (entries sub))) l)), l') /\
      Forall2 (fun sub sub' => sub_ok sub' /\ forall k, entries sub' !! k = entries sub !! k ≫= keep_live now) l l' /\
      Forall2 (keeps_sub_cap (maxSubSize s)) l l') as Hfold.
  { clear Hsubs Hlen. induction l as [|sub l IH]; intros r.
    { exists []. simpl. split_and!; [f_equal; lia|constructor|constructor]. }
    apply Forall_cons in Hall as [Hsok Hall].
    destruct (sub_cleanup_spec now sub r (maxSubSize s) Hsok) as (sub' & Hc & Hok' & Hcap & Hlook).
    cbn [sub_fold]. rewrite Hc.
    destruct (IH Hall (r + (Z.of_nat (size (entries sub)) - Z.of_nat (size (live now (entries sub))))))
      as (l' & -> & H2 & H3).
    exists (sub' :: l'). split_and!; [|by constructor|by constructor]. f_equal. simpl. lia. }
  destruct (Hfold 0) as (l' & Hf & H2 & H3).
  destruct (set_subs_map_ok s l l' (fun _ o => o ≫= keep_live now) Hok Hsubs Hlen H2) as [Hok' Hlook];
    [done|].
  eexists. split_and!; [|exact Hok'| | |].
  - unfold cleanup. rewrite (all_subs_fold _ _ _ l Hsubs Hlen), Hf.
    rewrite (shard_total s l Hok Hsubs). unfold live at 2. rewrite (shard_size _ s l Hok Hsubs). done.
  - unfold same_frame; simpl. split_and!; try done.
    rewrite Hsubs, !length_app, !length_fmap. by rewrite (Forall2_length _ _ _ H2).
  - intros tr Hc. by eapply Forall2_cap.
  - apply map_eq. intros k. by rewrite Hlook, live_lookup.
Qed.

Lemma swap_fold p l :
  policy_ok p ->
  policy_ok (foldl (fun p '(k, _) => OnAdd k p) p (l : list (string * cacheEntry))) /\
  policy_tracks (foldl (fun p '(k, _) => OnAdd k p) p l) = policy_tracks p /\
  (policy_tracks p = true ->
   policy_keys (foldl (fun p '(k, _) => OnAdd k p) p l) = policy_keys p ∪ list_to_set l.*1).
Proof.
  revert p. induction l as [|[k e] l IH]; intros p Hp; simpl; [split_and!; [done|done|set_solver]|].
  destruct (on_add_law k p Hp) as (Hp' & Hk & Ht). destruct (IH _ Hp') as (? & ? & Hks).
  split_and!; [done|congruence|]. intros Htr. rewrite Hks by congruence. rewrite Hk, Htr. set_solver.
Qed.

Lemma swapPolicy_spec p s :
  shard_ok s -> fresh_policy p ->
  exists s', swapPolicy p s ⇓ s' /\ shard_ok s' /\ same_frame s s' /\
    shard_entries s' = shard_entries s.
Proof.
  intros Hok [Hp Hem]. destruct (shard_subs s Hok) as (l & Hsubs & Hlen & Hall).
  unfold swapPolicy. rewrite (all_subs_fold _ _ _ l Hsubs Hlen), (sub_fold_pure (fun _ _ => tt)). simpl.
  set (h := fun sub : subShard => mkSub (entries sub) _).
  destruct (set_subs_map_ok s l (h <$> l) (fun _ o => o) Hok Hsubs Hlen) as [Hok' Hlook]; [|done|].
  { apply Forall2_fmap_r, Forall_Forall2_diag, Forall_forall. intros sub Hin. split; [|done].
    destruct (swap_fold p (map_iter (entries sub)) Hp) as (Hp' & Ht & Hk).
    split; [exact Hp'|]. simpl. rewrite Ht. intros Htr. rewrite Hk, Hem by done.
    apply set_eq. intros k. rewrite elem_of_union, elem_of_list_to_set, elem_of_map_iter_keys, elem_of_dom.
    set_solver. }
  eexists. split; [done|]. split_and!; [exact Hok'| |apply map_eq; exact Hlook].
  unfold same_frame; simpl. by rewrite Hsubs, !length_app, !length_fmap.
Qed.

(** A new shard is sound, empty, and within the capacity it was asked for. *)
Lemma effectiveSubShards_range maxSize : 1 <= effectiveSubShards maxSize <= subShardsPerShard.
Proof.
  unfold effectiveSubShards, subShardsPerShard.
  repeat match goal with |- context [if ?b then _ else _] => destruct b eqn:? end; lia.
Qed.

Lemma newShard_ok p maxSize : fresh_policy p -> shard_ok (newShard p maxSize).
Proof.
  intros [Hp Hem]. pose proof (effectiveSubShards_range maxSize) as Hn. split; simpl.
  - rewrite length_app, !length_replicate. lia.
  - done.
  - intros i Hi. exists (mkSub ∅ p). rewrite lookup_app_l by (by rewrite length_replicate).
    rewrite lookup_replicate_2 by done. split_and!; [done| |].
    + split; [done|]. intros _. simpl. by rewrite Hem, dom_empty_L.
    + intros k [e He]. simpl in He. by rewrite lookup_empty in He.
  - intros i Hi. rewrite lookup_app_r by (rewrite length_replicate; lia).
    apply lookup_replicate_2. rewrite length_replicate. lia.
Qed.

Lemma newShard_entries p maxSize : shard_entries (newShard p maxSize) = ∅.
Proof.
  unfold shard_entries, newShard. simpl. induction (Z.to_nat (effectiveSubShards maxSize)) as [|n IH]; simpl.
  - apply subs_entries_nones.
  - rewrite IH. apply map_union_empty.
Qed.

Lemma newShard_cap p maxSize : shard_cap (policy_tracks p) (newShard p maxSize).
Proof.
  intros i sub. unfold newShard. simpl. rewrite lookup_app_Some.
  intros [[[= ->] _]%lookup_replicate|[_ [[=] _]%lookup_replicate]].
  split; [done|]. intros Hm _. simpl. rewrite map_size_empty. lia.
Qed.

(** The limits of a new shard never add up to more than was asked for. *)
Lemma newShard_limit p maxSize :
  0 < maxSize ->
  0 < maxSubSize (newShard p maxSize) /\
  numSubs (newShard p maxSize) * maxSubSize (newShard p maxSize) <= maxSize.
Proof.
  intros Hm. simpl. unfold effectiveSubShards, subShardsPerShard.
  destruct (Z.leb_spec maxSize 0); [lia|]. set (n := maxSize ÷ 2).
  assert (2 * n <= maxSize) as Hn by (unfold n; rewrite Z.quot_div_nonneg by lia; apply Z.mul_div_le; lia).
  assert (0 <= n) as Hn0 by (unfold n; apply Z.quot_pos; lia).
  destruct (Z.ltb_spec n 1); simpl.
  - rewrite Z.quot_1_r. destruct (Z.ltb_spec maxSize 1); simpl; lia.
  - assert (forall d, 1 <= d <= maxSize ->
      0 < (if (maxSize ÷ d <? 1) && (maxSize >? 0) then 1 else maxSize ÷ d) /\
      d * (if (maxSize ÷ d <? 1) && (maxSize >? 0) then 1 else maxSize ÷ d) <= maxSize) as Hd.
    { intros d Hd. rewrite Z.quot_div_nonneg by lia. pose proof (Z.mul_div_le maxSize d ltac:(lia)).
      pose proof (Z.div_str_pos maxSize d ltac:(lia)). destruct (Z.ltb_spec (maxSize `div` d) 1); simpl; lia. }
    destruct (Z.gtb_spec n 8); apply Hd; lia.
Qed.

(** A shard within its limits holds at most their sum. *)
Lemma shard_cap_total s :
  shard_ok s -> shard_cap true s -> 0 < maxSubSize s ->
  Z.of_nat (size (shard_entries s)) <= numSubs s * maxSubSize s.
Proof.
  intros Hok Hc Hm. destruct (shard_subs s Hok) as (l & Hsubs & Hlen & _).
  rewrite (shard_total s l Hok Hsubs). pose proof (so_num s Hok).
  replace (numSubs s) with (Z.of_nat (length l)) by lia.
  assert (forall i sub, l !! i = Some sub -> Z.of_nat (size (entries sub)) <= maxSubSize s) as Hl.
  { intros i sub Hi. assert (subs s !! i = Some (Some sub)) as Hs.
    { rewrite Hsubs, lookup_app_l, list_lookup_fmap, Hi; [done|]. rewrite length_fmap. by eapply lookup_lt_Some. }
    apply (Hc i sub Hs); [lia|done]. }
  clear -Hl. induction l as [|sub l IH]; simpl; [lia|].
  pose proof (Hl 0%nat sub eq_refl). specialize (IH (fun i => Hl (S i))). lia.
Qed.

(** ** Lemmas: extraction for a rehash *)

(** The item of a live entry, and the entries [ExtractN] drops. *)
Definition item_of (now : Z) (k : string) (e : cacheEntry) : Item :=
  mkIt k (value e) (if expiresAt e >? 0 then until now e else 0).

Definition dead (now : Z) (e : cacheEntry) : bool := (expiresAt e >? 0) && (now >=? expiresAt e).

(** [m] is split into the items taken, the dead entries dropped and [m']. *)
Record extracted (now : Z) (m : gmap string cacheEntry) (items : list Item)
    (m' : gmap string cacheEntry) : Prop := {
  ex_nodup : NoDup (Key <$> items);
  ex_item it : it ∈ items ->
    exists e, m !! Key it = Some e /\ dead now e = false /\ it = item_of now (Key it) e /\
      m' !! Key it = None;
  ex_other k : k ∉ Key <$> items ->
    m' !! k = m !! k \/ (m' !! k = None /\ exists e, m !! k = Some e /\ dead now e = true);
}.

Lemma extracted_refl now m : extracted now m [] m.
Proof. split; [constructor|by intros ? ?%not_elem_of_nil|by left]. Qed.

Lemma extracted_sub now m items m' k :
  extracted now m items m' -> is_Some (m' !! k) -> m' !! k = m !! k.
Proof.
  intros Hex [e He]. destruct (decide (k ∈ Key <$> items)) as [Hin|Hin].
  - apply list_elem_of_fmap in Hin as (it & -> & Hit).
    destruct (ex_item _ _ _ _ Hex it Hit) as (? & _ & _ & _ & Hn). congruence.
  - destruct (ex_other _ _ _ _ Hex k Hin) as [|[Hn _]]; congruence.
Qed.

Lemma extracted_none now m items m' k :
  extracted now m items m' -> m !! k = None -> k ∉ Key <$> items /\ m' !! k = None.
Proof.
  intros Hex Hk. split.
  - intros (it & -> & Hit)%list_elem_of_fmap. destruct (ex_item _ _ _ _ Hex it Hit) as (? & ? & _). congruence.
  - destruct (m' !! k) eqn:Hk'; [|done].
    by rewrite (extracted_sub now m items m' k Hex) in Hk'; [congruence|eauto].
Qed.

Lemma extracted_union now m1 i1 m1' m2 i2 m2' :
  m1 ##ₘ m2 -> extracted now m1 i1 m1' -> extracted now m2 i2 m2' ->
  extracted now (m1 ∪ m2) (i1 ++ i2) (m1' ∪ m2').
Proof.
  intros Hd H1 H2.
  assert (forall k, m1 !! k = None \/ m2 !! k = None) as Hcase.
  { intros k. destruct (m1 !! k) eqn:E1, (m2 !! k) eqn:E2; auto. exfalso. by eapply map_disjoint_spec. }
  split.
  - rewrite fmap_app, NoDup_app. split_and!; [by eapply ex_nodup| |by eapply ex_nodup].
    intros k Hk1 Hk2. destruct (Hcase k) as [Hn|Hn].
    + by destruct (extracted_none _ _ _ _ _ H1 Hn).
    + by destruct (extracted_none _ _ _ _ _ H2 Hn).
  - intros it [Hit|Hit]%elem_of_app.
    + destruct (ex_item _ _ _ _ H1 it Hit) as (e & He & Hdead & Hitem & Hn).
      exists e. destruct (Hcase (Key it)) as [?|Hn2]; [congruence|].
      destruct (extracted_none _ _ _ _ _ H2 Hn2) as [_ Hn2'].
      rewrite !lookup_union, He, Hn, Hn2, Hn2'. done.
    + destruct (ex_item _ _ _ _ H2 it Hit) as (e & He & Hdead & Hitem & Hn).
      exists e. destruct (Hcase (Key it)) as [Hn1|?]; [|congruence].
      destruct (extracted_none _ _ _ _ _ H1 Hn1) as [_ Hn1'].
      rewrite !lookup_union, He, Hn, Hn1, Hn1'. done.
  - intros k. rewrite fmap_app, not_elem_of_app. intros [Hk1 Hk2]. rewrite !lookup_union.
    destruct (Hcase k) as [Hn|Hn].
    + destruct (extracted_none _ _ _ _ _ H1 Hn) as [_ ->]. rewrite Hn, !(left_id_L None _).
      by destruct (ex_other _ _ _ _ H2 k Hk2) as [->|[-> ?]]; auto.
    + destruct (extracted_none _ _ _ _ _ H2 Hn) as [_ ->]. rewrite Hn, !(right_id_L None _).
      by destruct (ex_other _ _ _ _ H1 k Hk1) as [->|[-> ?]]; auto.
Qed.

(** Taking one more entry out. *)
Lemma extracted_take now m k e items m' :
  m !! k = Some e -> dead now e = false ->
  extracted now (delete k m) items m' -> extracted now m (item_of now k e :: items) m'.
Proof.
  intros Hk Hd Hex.
  destruct (extracted_none _ _ _ _ k Hex (lookup_delete_eq _ _)) as [Hni Hn]. split.
  - rewrite fmap_cons, NoDup_cons. split; [done|by eapply ex_nodup].
  - intros it [->|Hit]%elem_of_cons; [by exists e|].
    destruct (ex_item _ _ _ _ Hex it Hit) as (e' & He' & ?).
    apply lookup_delete_Some in He' as [_ ?]. eauto.
  - intros j. rewrite fmap_cons, not_elem_of_cons. intros [Hj Hj']. simpl in Hj.
    destruct (ex_other _ _ _ _ Hex j Hj') as [->|[-> (e' & He' & ?)]].
    + left. by rewrite lookup_delete_ne.
    + apply lookup_delete_Some in He' as [_ ?]. right. eauto.
Qed.

Lemma extracted_drop now m k e items m' :
  m !! k = Some e -> dead now e = true ->
  extracted now (delete k m) items m' -> extracted now m items m'.
Proof.
  intros Hk Hd Hex.
  destruct (extracted_none _ _ _ _ k Hex (lookup_delete_eq _ _)) as [Hni Hn]. split.
  - by eapply ex_nodup.
  - intros it Hit. destruct (ex_item _ _ _ _ Hex it Hit) as (e' & He' & ?).
    apply lookup_delete_Some in He' as [_ ?]. eauto.
  - intros j Hj'. destruct (decide (j = k)) as [->|Hj]; [right; eauto|].
    destruct (ex_other _ _ _ _ Hex j Hj') as [->|[-> (e' & He' & ?)]].
    + left. by rewrite lookup_delete_ne.
    + apply lookup_delete_Some in He' as [_ ?]. right. eauto.
Qed.

Lemma sat64_pos z : 0 < z -> 0 < sat64 z.
Proof. unfold sat64, min_int64, max_int64. lia. Qed.

Lemma extract_loop_spec now n l items sub mx :
  sub_ok sub -> NoDup l.*1 -> (forall k e, (k, e) ∈ l -> entries sub !! k = Some e) ->
  Z.of_nat (length items) < n ->
  exists new sub', extract_loop now n l items sub = (items ++ new, sub') /\
    sub_ok sub' /\ keeps_sub_cap mx sub sub' /\ extracted now (entries sub) new (entries sub') /\
    Z.of_nat (length (items ++ new)) <= n /\
    (Z.of_nat (length (items ++ new)) < n -> forall k, k ∈ l.*1 -> entries sub' !! k = None).
Proof.
  revert items sub. induction l as [|[k e] l IH]; intros items sub Hok Hnd Hl Hlen.
  { exists [], sub. rewrite app_nil_r.
    split_and!; [done|done|done|apply extracted_refl|lia|by intros _ ? ?%not_elem_of_nil]. }
  rewrite fmap_cons, NoDup_cons in Hnd. destruct Hnd as [Hni Hnd].
  assert (entries sub !! k = Some e) as Hk by (apply Hl; left).
  assert (forall k' e', (k', e') ∈ l -> entries (sub_remove k sub) !! k' = Some e') as Hl'.
  { intros k' e' Hin. simpl. rewrite lookup_delete_ne; [apply Hl; by right|].
    intros <-. apply Hni, list_elem_of_fmap. by exists (k, e'). }
  pose proof (sub_remove_ok k sub Hok) as Hok1. pose proof (sub_remove_cap mx k sub Hok) as Hc1.
  assert (forall new (sub' : subShard), extracted now (entries (sub_remove k sub)) new (entries sub') ->
    entries sub' !! k = None) as Hnone.
  { intros new sub' Hex. apply (extracted_none _ _ _ _ k Hex). apply lookup_delete_eq. }
  cbn [extract_loop]. fold (dead now e). destruct (dead now e) eqn:Hdead.
  - destruct (IH items (sub_remove k sub) Hok1 Hnd Hl' Hlen) as (new & sub' & -> & Hok' & Hc & Hex & Hle & Hall).
    exists new, sub'. split_and!; [done|done|by intros ? ?; apply Hc, Hc1|by eapply extracted_drop|done|].
    intros Hlt j [->|Hj]%elem_of_cons; [by eapply Hnone|by apply Hall].
  - assert ((expiresAt e >? 0) && ((if expiresAt e >? 0 then until now e else 0) <=? 0) = false) as ->.
    { unfold dead in Hdead. destruct (Z.gtb_spec (expiresAt e) 0); [|done]. simpl in *.
      apply Z.leb_gt, sat64_pos. destruct (Z.geb_spec now (expiresAt e)); [done|lia]. }
    cbv zeta. fold (item_of now k e).
    destruct (Z.geb_spec (Z.of_nat (length (items ++ [item_of now k e]))) n) as [Hge|Hlt].
    + rewrite length_app in Hge. simpl in Hge.
      exists [item_of now k e], (sub_remove k sub).
      split_and!; [done|done|done| |rewrite length_app; simpl; lia|rewrite length_app; simpl; lia].
      eapply extracted_take; [done|done|apply extracted_refl].
    + destruct (IH _ (sub_remove k sub) Hok1 Hnd Hl' Hlt) as (new & sub' & -> & Hok' & Hc & Hex & Hle & Hall).
      rewrite <-app_assoc in *. exists (item_of now k e :: new), sub'.
      split_and!; [done|done|by intros ? ?; apply Hc, Hc1|by eapply extracted_take|done|].
      intros Hlt' j [->|Hj]%elem_of_cons; [by eapply Hnone|by apply Hall].
Qed.

Lemma extract_subs_spec now n h l items mx :
  Forall sub_ok l -> told_apart h l -> 
  Z.of_nat (length items) <= n ->
  exists new l', extract_subs now n (length l) (Some <$> l) items ⇓ (items ++ new, Some <$> l') /\
    Forall2 (fun sub sub' => sub_ok sub' /\
      forall k, is_Some (entries sub' !! k) -> is_Some (entries sub !! k)) l l' /\
    Forall2 (keeps_sub_cap mx) l l' /\
    extracted now (subs_entries (Some <$> l)) new (subs_entries (Some <$> l')) /\
    Z.of_nat (length (items ++ new)) <= n /\
    (Z.of_nat (length (items ++ new)) < n -> subs_entries (Some <$> l') = ∅).
Proof.
  revert h items. induction l as [|sub l IH]; intros h items Hall Hh Hle.
  { exists [], []. rewrite app_nil_r. split_and!; try done. apply extracted_refl. }
  rewrite fmap_cons. cbn [length extract_subs]. pose proof Hall as Hall'.
  apply Forall_cons in Hall as [Hok Hall].
  destruct (Z.ltb_spec (Z.of_nat (length items)) n) as [Hlt|Hge].
  - destruct (extract_loop_spec now n (map_iter (entries sub)) items sub mx Hok)
      as (new1 & sub' & -> & Hok' & Hc1 & Hex1 & Hle1 & Hall1);
      [mcache_auto|intros k e; apply elem_of_map_iter|done|].
    destruct (IH (pred ∘ h) (items ++ new1) Hall (told_apart_tail _ _ _ Hh) Hle1)
      as (new2 & l' & -> & H2 & Hc2 & Hex2 & Hle2 & Hall2).
    exists (new1 ++ new2), (sub' :: l'). rewrite <-app_assoc in *.
    rewrite fmap_cons, !subs_entries_cons. split_and!; [done| |by constructor| |done|].
    + constructor; [|done]. split; [done|]. intros k Hk. by rewrite <-(extracted_sub _ _ _ _ _ Hex1 Hk).
    + apply extracted_union; [|done|done].
      pose proof (told_apart_disjoint h sub l 0 Hh) as Hd. by rewrite app_nil_r in Hd.
    + intros Hlt2. rewrite Hall2, (right_id_L ∅ (∪)) by done. apply map_eq. intros k. rewrite lookup_empty.
      destruct (entries sub !! k) eqn:Hk; [|by eapply extracted_none].
      apply Hall1; [rewrite !length_app in *; lia|]. apply elem_of_map_iter_keys; eauto.
  - exists [], (sub :: l). rewrite app_nil_r.
    split_and!; [done| | |apply extracted_refl|done|lia].
    + apply Forall_Forall2_diag, (Forall_impl _ _ _ Hall'). auto.
    + apply Forall_Forall2_diag, Forall_true. auto.
Qed.

Lemma ExtractN_spec now n s :
  shard_ok s -> numSubs s = subShardsPerShard -> 0 <= n ->
  exists items s', ExtractN now n s ⇓ (items, s') /\
    shard_ok s' /\ same_frame s s' /\ keeps_cap s s' /\
    extracted now (shard_entries s) items (shard_entries s') /\
    Z.of_nat (length items) <= n /\
    (Z.of_nat (length items) < n -> shard_entries s' = ∅).
Proof.
  intros Hok Hnum Hn. destruct (shard_subs s Hok) as (l & Hsubs & Hlen & Hall).
  pose proof (shard_told_apart s l Hok Hsubs) as Hh.
  destruct (extract_subs_spec now n _ l [] (maxSubSize s) Hall Hh Hn)
    as (new & l' & Hx & H2 & Hc & Hex & Hle & Hall').
  pose proof (set_subs_ok s l l' Hok Hsubs Hlen H2) as Hok'.
  pose proof (fun tr Hcap => Forall2_cap tr s l l' _ Hcap Hsubs Hc) as Hcap'.
  rewrite Hnum, Z.sub_diag in Hok', Hcap', Hsubs. simpl in Hok', Hcap', Hsubs. rewrite app_nil_r in *.
  exists new, (set_subs (Some <$> l') s). split_and!; [|done| |done| |done|done].
  - unfold ExtractN. by rewrite Hsubs, <-Hnum, <-Hlen, Hx.
  - unfold same_frame; simpl. by rewrite Hsubs, !length_fmap, (Forall2_length _ _ _ H2).
  - unfold shard_entries. by rewrite Hsubs.
Qed.

(** With a nil slot in reach, [ExtractN] panics. *)
Lemma extract_subs_panics now n l m :
  Forall (fun sub : subShard => entries sub = ∅) l -> 0 < n ->
  extract_subs now n (length l + S m) ((Some <$> l) ++ replicate (S m) None) [] = Panic.
Proof.
  intros Hem Hn. induction l as [|sub l IH].
  - simpl. by destruct (Z.ltb_spec (Z.of_nat 0) n); [|lia].
  - apply Forall_cons in Hem as [Hs Hem]. rewrite fmap_cons, <-app_comm_cons.
    cbn [length Nat.add extract_subs]. destruct (Z.ltb_spec (Z.of_nat 0) n); [|lia].
    assert (map_iter (entries sub) = []) as ->.
    { rewrite Hs. apply nil_length_inv. by rewrite length_map_iter, map_size_empty. }
    cbn [extract_loop]. by rewrite IH.
Qed.

(** ** Runs of operations *)

Inductive shard_op : Type :=
| DoGet (key : string)
| DoSet (key : string) (value : bytes) (ttl : Z)
| DoDel (key : string)
| DoCleanup
| DoExpire (key : string) (ttl : Z)
| DoPersist (key : string).

Definition shard_step (now : Z) (o : shard_op) (s : shard) : outcome shard :=
  match o with
  | DoGet key => snd <$> get now key s
  | DoSet key value ttl => snd <$> Set_ now key value ttl s
  | DoDel key => Del key s
  | DoCleanup => snd <$> cleanup now s
  | DoExpire key ttl => snd <$> expire now key ttl s
  | DoPersist key => snd <$> persist now key s
  end.

Fixpoint shard_run (ops : list (Z * shard_op)) (s : shard) : outcome shard :=
  match ops with
  | [] => Ret s
  | (now, o) :: ops => s ← shard_step now o s; shard_run ops s
  end.

Lemma shard_step_ok now o s :
  shard_ok s ->
  exists s', shard_step now o s ⇓ s' /\ shard_ok s' /\ keeps_cap s s' /\
    numSubs s' = numSubs s /\ maxSubSize s' = maxSubSize s.
Proof.
  intros Hok. destruct o as [key|key v ttl|key| |key ttl|key]; cbn [shard_step].
  - destruct (get_spec now key s Hok) as (s' & -> & ? & (? & ? & _) & ? & _). by exists s'.
  - destruct (Set_spec now key v ttl s Hok) as (ev & s' & -> & []).
    exists s'. split_and!; [done|done|done|apply sr_frame0|apply sr_frame0].
  - destruct (Del_spec key s Hok) as (s' & -> & ? & ? & _ & ? & ? & _). by exists s'.
  - destruct (cleanup_spec now s Hok) as (s' & -> & ? & (? & ? & _) & ? & _). by exists s'.
  - destruct (update_live_spec now key (fun e => mkEntry (value e) (int64 (now + ttl))) s Hok)
      as (s' & Hu & ? & (? & ? & _) & ? & _). exists s'. unfold expire. by rewrite Hu.
  - destruct (update_live_spec now key (fun e => mkEntry (value e) 0) s Hok)
      as (s' & Hu & ? & (? & ? & _) & ? & _). exists s'. unfold persist. by rewrite Hu.
Qed.

Lemma shard_run_ok ops s :
  shard_ok s ->
  exists s', shard_run ops s ⇓ s' /\ shard_ok s' /\ keeps_cap s s' /\
    numSubs s' = numSubs s /\ maxSubSize s' = maxSubSize s.
Proof.
  revert s. induction ops as [|[now o] ops IH]; intros s Hok; [by exists s|].
  cbn [shard_run]. destruct (shard_step_ok now o s Hok) as (s1 & -> & Hok1 & Hc1 & <- & <-). cbn.
  destruct (IH s1 Hok1) as (s2 & -> & Hok2 & Hc2 & Hn & Hm).
  exists s2. split_and!; [done|done|by eapply keeps_cap_trans|done|done].
Qed.

(** The remaining time an entry set at [t0] shows at [t]. *)
Lemma newEntry_live t0 t v ttl :
  0 <= t0 -> in_int64 (t0 + ttl) ->
  isExpired t (newEntry t0 v ttl) = (ttl >? 0) && (t >=? t0 + ttl).
Proof.
  intros H0 Hr. unfold isExpired, newEntry. simpl. destruct (Z.gtb_spec ttl 0); simpl; [|done].
  rewrite int64_id by done. destruct (Z.eqb_spec (t0 + ttl) 0); [lia|done].
Qed.

(** ** Properties *)

(** Whatever sequence of Get, Set, Del, cleanup, Expire and Persist
    calls runs on a new shard, at whatever instants, no call panics (the nil
    sub-shards are never reached) and every eviction loop ends; the policies know
    exactly the keys held, and under a tracking policy the shard never holds more
    than the [maxSize] entries it was created for. *)
Theorem shard_run_safe p maxSize ops :
  fresh_policy p ->
  exists s, shard_run ops (newShard p maxSize) ⇓ s /\ shard_ok s /\
    (0 < maxSize -> policy_tracks p = true -> Z.of_nat (size (shard_entries s)) <= maxSize).
Proof.
  intros Hp. destruct (shard_run_ok ops (newShard p maxSize) (newShard_ok p maxSize Hp))
    as (s & Hr & Hok & Hc & Hn & Hm).
  exists s. split_and!; [done|done|]. intros Hpos Ht.
  destruct (newShard_limit p maxSize Hpos) as [Hpos' Hlim].
  specialize (Hc _ (newShard_cap p maxSize)). rewrite Ht in Hc.
  pose proof (shard_cap_total s Hok Hc ltac:(lia)). lia.
Qed.

(** In a sound shard, a value stored at [t0] is read back at
    [t], unless the store itself evicted it, exactly while its time to live has
    not run out: always without one, before [t0 + ttl] with one. *)
Theorem shard_set_get t0 t key v ttl s :
  shard_ok s -> 0 <= t0 -> in_int64 (t0 + ttl) ->
  exists ev s1 s2, Set_ t0 key v ttl s ⇓ (ev, s1) /\
    get t key s1 =
      Ret (if bool_decide (key ∈ ev) || (ttl >? 0) && (t >=? t0 + ttl) then None else Some v, s2) /\
    (is_Some (shard_entries s !! key) -> ev = []) /\ (maxSubSize s <= 0 -> ev = []).
Proof.
  intros Hok Ht0 Hr. destruct (Set_spec t0 key v ttl s Hok) as (ev & s1 & Hs & HS).
  destruct (get_spec t key s1 (sr_ok _ _ _ _ _ _ _ HS)) as (s2 & Hg & _).
  exists ev, s1, s2. split_and!; [done| |by eapply sr_old|by eapply sr_unlimited].
  rewrite Hg, (sr_entries _ _ _ _ _ _ _ HS). do 2 f_equal.
  case_bool_decide; case_decide; try done. rewrite decide_True by done. simpl.
  unfold keep_live. rewrite newEntry_live by done. by destruct ((ttl >? 0) && (t >=? t0 + ttl)).
Qed.

(** A shard created for 1 to 15 entries uses fewer than eight
    sub-shards, and [ExtractN], which walks all eight slots, dereferences a nil
    one and panics as soon as the shard is empty. *)
Theorem extract_small_shard_panics p maxSize now n :
  0 < maxSize < 16 -> 0 < n -> ExtractN now n (newShard p maxSize) = Panic.
Proof.
  intros Hm Hn. unfold ExtractN, newShard. cbv zeta. cbn [subs].
  pose proof (effectiveSubShards_range maxSize) as Hr.
  assert (effectiveSubShards maxSize < subShardsPerShard) as Hlt.
  { unfold effectiveSubShards, subShardsPerShard. rewrite Z.quot_div_nonneg by lia.
    pose proof (Z.div_lt_upper_bound maxSize 2 8 ltac:(lia) ltac:(lia)).
    destruct (Z.leb_spec maxSize 0); [lia|]. destruct (Z.ltb_spec (maxSize `div` 2) 1); simpl; [lia|].
    destruct (Z.gtb_spec (maxSize `div` 2) 8); lia. }
  unfold subShardsPerShard in *. set (k := effectiveSubShards maxSize) in *.
  pose proof (extract_subs_panics now n (replicate (Z.to_nat k) (mkSub ∅ p))
    (Z.to_nat (8 - k) - 1)) as Hx.
  rewrite fmap_replicate, length_replicate in Hx.
  replace (Z.to_nat k + S (Z.to_nat (8 - k) - 1))%nat with (Z.to_nat 8) in Hx by lia.
  replace (S (Z.to_nat (8 - k) - 1)) with (Z.to_nat (8 - k)) in Hx by lia.
  rewrite Hx; [done| |done]. by apply Forall_replicate.
Qed.

End Shard.

Lemma shard_run_safe_witness :
  exists s, shard_run (MI := trie_order) [(1, DoSet "a" [] 5); (2, DoSet "b" [] 0); (9, DoGet "a")]
      (newShard NoopPolicy 2) ⇓ s /\ shard_ok s.
Proof.
  destruct (shard_run_safe (MI := trie_order) NoopPolicy 2
    [(1, DoSet "a" [] 5); (2, DoSet "b" [] 0); (9, DoGet "a")]) as (s & Hs & Hok & _); [done|].
  by exists s.
Defined.

Lemma shard_set_get_witness :
  exists s1 s2, Set_ 1 "a" [x2a] 5 (newShard NoopPolicy 0) ⇓ ([], s1) /\
    get 5 "a" s1 ⇓ (Some [x2a], s2).
Proof.
  destruct (shard_set_get 1 5 "a" [x2a] 5 (newShard NoopPolicy 0)) as (ev & s1 & s2 & H1 & H2 & _ & H3);
    [by apply newShard_ok|done|done|].
  rewrite (H3 ltac:(done)) in *. exists s1, s2. split; [exact H1|exact H2].
Defined.

Lemma extract_small_shard_panics_witness :
  ExtractN (MI := trie_order) 0 16 (newShard NoopPolicy 10) = Panic.
Proof. apply extract_small_shard_panics; lia. Defined.

(** The deadline wraps: with a time to live that passes the end of
    the 64-bit clock, the entry is expired at the very instant it is stored, and
    its remaining time is reported as "no expiry". *)
Theorem newEntry_overflow now v ttl :
  0 < now <= max_int64 -> 0 < ttl <= max_int64 -> max_int64 < now + ttl ->
  isExpired now (newEntry now v ttl) = true /\ expiresAt (newEntry now v ttl) < 0.
Proof.
  intros Hn Ht Ho. unfold newEntry, isExpired. simpl. destruct (Z.gtb_spec ttl 0); [|lia].
  assert (int64 (now + ttl) = now + ttl - 2 ^ 64) as ->.
  { unfold int64, wrapS, max_int64 in *. change (64 - 1) with 63.
    replace (now + ttl + 2 ^ 63) with (now + ttl - 2 ^ 63 + 1 * 2 ^ 64) by lia.
    rewrite Z.mod_add by lia. rewrite Z.mod_small by lia. lia. }
  unfold max_int64 in *. split; [|lia].
  destruct (Z.eqb_spec (now + ttl - 2 ^ 64) 0); [lia|]. destruct (Z.geb_spec now (now + ttl - 2 ^ 64)); [done|lia].
Qed.

Lemma newEntry_overflow_witness :
  isExpired 1700000000000000000 (newEntry 1700000000000000000 [] max_int64) = true.
Proof. apply newEntry_overflow; unfold max_int64; lia. Defined.
