(* ===== verification/ShardTyped.v ===== *)
(** * A cache shard: sets, hashes and lists (shard.go)

    The operations of a shard on its three maps of collections.  They hold the
    map's lock for their whole body and touch nothing else of the shard. *)

From stdpp Require Import base tactics numbers list gmap sets fin_maps strings.
From S2P Require Import Prelude.
From S2P Require Import Policy.
From S2P Require Import DSet.
From S2P Require Import DHash.
From S2P Require Import DList.
From S2P Require Import Shard.

Section Typed.
Context `{MI : MapIter} {P : Type}.
Notation shard := (shard P).

Definition with_sets (m : gmap string (gset string)) (s : shard) : shard :=
  mkShard (subs s) (numSubs s) (maxSubSize s) m (hashes s) (lists s).

Definition with_hashes (m : gmap string (gmap string string)) (s : shard) : shard :=
  mkShard (subs s) (numSubs s) (maxSubSize s) (sets s) m (lists s).

Definition with_lists (m : gmap string (list string)) (s : shard) : shard :=
  mkShard (subs s) (numSubs s) (maxSubSize s) (sets s) (hashes s) m.

(** ** Sets *)

Definition sAdd (key : string) (elems : list string) (s : shard) : Z * shard :=
  let ss := default DSet.New (sets s !! key) in
  let '(n, ss) := DSet.Add elems ss in
  (n, with_sets (<[key := ss]> (sets s)) s).

(** [if ss.Card() == 0 { delete(s.sets, key) }] after an update of [key]'s set. *)
Definition put_set (key : string) (ss : gset string) (s : shard) : shard :=
  if DSet.Card ss =? 0 then with_sets (delete key (sets s)) s
  else with_sets (<[key := ss]> (sets s)) s.

Definition sRem (key : string) (elems : list string) (s : shard) : Z * shard :=
  match sets s !! key with
  | None => (0, s)
  | Some ss => let '(n, ss) := DSet.Rem elems ss in (n, put_set key ss s)
  end.

Definition sIsMember (key elem : string) (s : shard) : bool :=
  match sets s !! key with None => false | Some ss => DSet.IsMember elem ss end.

(** [None] is the nil slice. *)
Definition sMembers (key : string) (s : shard) : option (list string) :=
  match sets s !! key with None => None | Some ss => Some (DSet.Members ss) end.

Definition sCard (key : string) (s : shard) : Z :=
  match sets s !! key with None => 0 | Some ss => DSet.Card ss end.

Definition sPop (rnd : nat) (key : string) (s : shard) : option string * shard :=
  match sets s !! key with
  | None => (None, s)
  | Some ss =>
      match DSet.Pop rnd ss with
      | (None, _) => (None, s)
      | (Some elem, ss) => (Some elem, put_set key ss s)
      end
  end.

Definition sRandMember (perm : list nat) (draw : nat -> nat) (key : string) (count : Z) (s : shard) :
    outcome (option (list string)) :=
  match sets s !! key with
  | None => Ret None
  | Some ss => DSet.RandMember perm draw count ss
  end.

(** [None] is the nil pointer. *)
Definition getSet (key : string) (s : shard) : option (gset string) := sets s !! key.

(** ** Hashes *)

(** Runs [f] on the hash of [key], created when missing. *)
Definition in_hash {A} (key : string) (f : gmap string string -> A * gmap string string) (s : shard) : A * shard :=
  let h := default DHash.New (hashes s !! key) in
  let '(a, h) := f h in
  (a, with_hashes (<[key := h]> (hashes s)) s).

Definition hSet (key field value : string) : shard -> Z * shard := in_hash key (DHash.HSet field value).

Definition hSetNX (key field value : string) : shard -> bool * shard := in_hash key (DHash.HSetNX field value).

Definition hGet (key field : string) (s : shard) : option string :=
  match hashes s !! key with None => None | Some h => DHash.HGet field h end.

Definition hDel (key : string) (fields : list string) (s : shard) : Z * shard :=
  match hashes s !! key with
  | None => (0, s)
  | Some h =>
      let '(n, h) := DHash.HDel fields h in
      (n, if DHash.HLen h =? 0 then with_hashes (delete key (hashes s)) s
          else with_hashes (<[key := h]> (hashes s)) s)
  end.

Definition hExists (key field : string) (s : shard) : bool :=
  match hashes s !! key with None => false | Some h => DHash.HExists field h end.

(** [None] is the nil map. *)
Definition hGetAll (key : string) (s : shard) : option (gmap string string) :=
  match hashes s !! key with None => None | Some h => Some (DHash.HGetAll h) end.

Definition hKeys (key : string) (s : shard) : option (list string) :=
  match hashes s !! key with None => None | Some h => Some (DHash.HKeys h) end.

Definition hVals (key : string) (s : shard) : option (list string) :=
  match hashes s !! key with None => None | Some h => Some (DHash.HVals h) end.

Definition hLen (key : string) (s : shard) : Z :=
  match hashes s !! key with None => 0 | Some h => DHash.HLen h end.

Definition hStrLen (key field : string) (s : shard) : Z :=
  match hashes s !! key with None => 0 | Some h => DHash.HStrLen field h end.

Definition hIncrBy (key field : string) (delta : Z) : shard -> result error Z * shard :=
  in_hash key (DHash.HIncrBy field delta).

Definition hIncrByFloat `{FO : FloatOps float64} (key field : string) (delta : float64) :
    shard -> result error float64 * shard :=
  in_hash key (DHash.HIncrByFloat field delta).

Definition hmGet (key : string) (fields : list string) (s : shard) : list (option string) :=
  match hashes s !! key with
  | None => replicate (length fields) None
  | Some h => DHash.HMGet fields h
  end.

Definition hmSet (key : string) (fvPairs : list string) (s : shard) : shard :=
  snd (in_hash key (fun h => (tt, DHash.HMSet fvPairs h)) s).

(** ** Lists *)

(** Runs [f] on the list of [key], created when missing. *)
Definition in_list {A} (key : string) (f : list string -> A * list string) (s : shard) : A * shard :=
  let l := default DList.New (lists s !! key) in
  let '(a, l) := f l in
  (a, with_lists (<[key := l]> (lists s)) s).

(** [if l.LLen() == 0 { delete(s.lists, key) }] after an update of [key]'s list. *)
Definition put_list (key : string) (l : list string) (s : shard) : shard :=
  if DList.LLen l =? 0 then with_lists (delete key (lists s)) s
  else with_lists (<[key := l]> (lists s)) s.

Definition lPush (key : string) (elems : list string) : shard -> Z * shard := in_list key (DList.LPush elems).

Definition rPush (key : string) (elems : list string) : shard -> Z * shard := in_list key (DList.RPush elems).

Definition lPop (key : string) (s : shard) : option string * shard :=
  match lists s !! key with
  | None => (None, s)
  | Some l =>
      match DList.LPop l with
      | (None, _) => (None, s)
      | (Some elem, l) => (Some elem, put_list key l s)
      end
  end.

Definition rPop (key : string) (s : shard) : option string * shard :=
  match lists s !! key with
  | None => (None, s)
  | Some l =>
      match DList.RPop l with
      | (None, _) => (None, s)
      | (Some elem, l) => (Some elem, put_list key l s)
      end
  end.

Definition lLen (key : string) (s : shard) : Z :=
  match lists s !! key with None => 0 | Some l => DList.LLen l end.

Definition lRange (key : string) (start stop : Z) (s : shard) : option (list string) :=
  match lists s !! key with None => None | Some l => DList.LRange start stop l end.

Definition lIndex (key : string) (index : Z) (s : shard) : option string :=
  match lists s !! key with None => None | Some l => DList.LIndex index l end.

Definition lSet (key : string) (index : Z) (value : string) (s : shard) : bool * shard :=
  match lists s !! key with
  | None => (false, s)
  | Some l =>
      let '(ok, l) := DList.LSet index value l in (ok, with_lists (<[key := l]> (lists s)) s)
  end.

Definition lRem (key : string) (count : Z) (value : string) (s : shard) : Z * shard :=
  match lists s !! key with
  | None => (0, s)
  | Some l => let '(n, l) := DList.LRem count value l in (n, put_list key l s)
  end.

Definition lTrim (key : string) (start stop : Z) (s : shard) : shard :=
  match lists s !! key with
  | None => s
  | Some l => put_list key (DList.LTrim start stop l) s
  end.

Definition lInsert (key : string) (before : bool) (pivot value : string) (s : shard) : Z * shard :=
  match lists s !! key with
  | None => (0, s)
  | Some l =>
      let '(n, l) := DList.LInsert before pivot value l in (n, with_lists (<[key := l]> (lists s)) s)
  end.

Definition lPos (key value : string) (rank count maxLen : Z) (s : shard) : list Z :=
  match lists s !! key with None => [] | Some l => DList.LPos value rank count maxLen l end.

(** ** Collections are not empty *)

(** The updates of a shard's collections. *)
Inductive coll_op : Type :=
| CSAdd (key : string) (elems : list string)
| CSRem (key : string) (elems : list string)
| CSPop (rnd : nat) (key : string)
| CHSet (key field value : string)
| CHSetNX (key field value : string)
| CHDel (key : string) (fields : list string)
| CHIncrBy (key field : string) (delta : Z)
| CHMSet (key : string) (fvPairs : list string)
| CLPush (key : string) (elems : list string)
| CRPush (key : string) (elems : list string)
| CLPop (key : string)
| CRPop (key : string)
| CLSet (key : string) (index : Z) (value : string)
| CLRem (key : string) (count : Z) (value : string)
| CLTrim (key : string) (start stop : Z)
| CLInsert (key : string) (before : bool) (pivot value : string).

Definition coll_step (o : coll_op) (s : shard) : shard :=
  match o with
  | CSAdd key elems => (sAdd key elems s).2
  | CSRem key elems => (sRem key elems s).2
  | CSPop rnd key => (sPop rnd key s).2
  | CHSet key field value => (hSet key field value s).2
  | CHSetNX key field value => (hSetNX key field value s).2
  | CHDel key fields => (hDel key fields s).2
  | CHIncrBy key field delta => (hIncrBy key field delta s).2
  | CHMSet key fvPairs => hmSet key fvPairs s
  | CLPush key elems => (lPush key elems s).2
  | CRPush key elems => (rPush key elems s).2
  | CLPop key => (lPop key s).2
  | CRPop key => (rPop key s).2
  | CLSet key index value => (lSet key index value s).2
  | CLRem key count value => (lRem key count value s).2
  | CLTrim key start stop => lTrim key start stop s
  | CLInsert key before pivot value => (lInsert key before pivot value s).2
  end.

(** Calls that bring at least one element, field or pair. *)
Definition brings_elems (o : coll_op) : Prop :=
  match o with
  | CSAdd _ elems | CLPush _ elems | CRPush _ elems => elems <> []
  | CHMSet _ fvPairs => (2 <= length fvPairs)%nat
  | _ => True
  end.

Record no_empty (s : shard) : Prop := {
  ne_sets k ss : sets s !! k = Some ss -> ss <> ∅;
  ne_hashes k h : hashes s !! k = Some h -> h <> ∅;
  ne_lists k l : lists s !! k = Some l -> l <> [];
}.

(** ** Lemmas *)

Lemma no_empty_sets m s :
  no_empty s -> (forall k ss, m !! k = Some ss -> ss <> ∅) -> no_empty (with_sets m s).
Proof. intros [] ?. by split. Qed.

Lemma no_empty_hashes m s :
  no_empty s -> (forall k h, m !! k = Some h -> h <> ∅) -> no_empty (with_hashes m s).
Proof. intros [] ?. by split. Qed.

Lemma no_empty_lists m s :
  no_empty s -> (forall k l, m !! k = Some l -> l <> []) -> no_empty (with_lists m s).
Proof. intros [] ?. by split. Qed.

Lemma no_empty_insert {A} (m : gmap string A) (Q : A -> Prop) k a :
  Q a -> (forall j b, m !! j = Some b -> Q b) -> forall j b, <[k := a]> m !! j = Some b -> Q b.
Proof. intros Ha Hm j b [[_ <-]|[_ Hj]]%lookup_insert_Some; eauto. Qed.

Lemma no_empty_delete {A} (m : gmap string A) (Q : A -> Prop) k :
  (forall j b, m !! j = Some b -> Q b) -> forall j b, delete k m !! j = Some b -> Q b.
Proof. intros Hm j b [_ Hj]%lookup_delete_Some. eauto. Qed.

Lemma put_set_no_empty key ss s : no_empty s -> no_empty (put_set key ss s).
Proof.
  intros Hne. unfold put_set, DSet.Card. destruct (Z.eqb_spec (Z.of_nat (size ss)) 0).
  - apply no_empty_sets, no_empty_delete, Hne. done.
  - apply no_empty_sets; [done|]. apply no_empty_insert; [|apply Hne]. intros ->. by rewrite size_empty in *.
Qed.

Lemma put_list_no_empty key l s : no_empty s -> no_empty (put_list key l s).
Proof.
  intros Hne. unfold put_list, DList.LLen. destruct (Z.eqb_spec (Z.of_nat (length l)) 0).
  - apply no_empty_lists, no_empty_delete, Hne. done.
  - apply no_empty_lists; [done|]. apply no_empty_insert; [|apply Hne]. by intros ->.
Qed.

Lemma in_hash_no_empty {A} key (f : gmap string string -> A * gmap string string) s :
  no_empty s -> (forall h, (f h).2 <> ∅) -> no_empty (in_hash key f s).2.
Proof.
  intros Hne Hf. unfold in_hash. specialize (Hf (default DHash.New (hashes s !! key))).
  destruct (f _) as [a h]. apply no_empty_hashes; [done|]. apply no_empty_insert; [done|apply Hne].
Qed.

Lemma in_list_no_empty {A} key (f : list string -> A * list string) s :
  no_empty s -> (forall l, (f l).2 <> []) -> no_empty (in_list key f s).2.
Proof.
  intros Hne Hf. unfold in_list. specialize (Hf (default DList.New (lists s !! key))).
  destruct (f _) as [a l]. apply no_empty_lists; [done|]. apply no_empty_insert; [done|apply Hne].
Qed.

Lemma HIncrBy_not_empty field delta h : (DHash.HIncrBy field delta h).2 <> ∅.
Proof.
  unfold DHash.HIncrBy. destruct (h !! field) eqn:Hf; [|apply insert_non_empty].
  case_match; simpl; [apply insert_non_empty|]. intros ->. done.
Qed.

Lemma HMSet_keeps pairs (h : gmap string string) : h <> ∅ -> DHash.HMSet pairs h <> ∅.
Proof.
  assert (forall n pairs (h : gmap string string), (length pairs <= n)%nat -> h <> ∅ -> DHash.HMSet pairs h <> ∅) as Hn.
  { clear. induction n as [|n IH]; intros [|f [|v rest]] h Hl Hh; try done; simpl in *; [lia|].
    apply IH; [lia|apply insert_non_empty]. }
  by apply (Hn (length pairs)).
Qed.

Lemma HMSet_not_empty pairs (h : gmap string string) :
  (2 <= length pairs)%nat -> DHash.HMSet pairs h <> ∅.
Proof. destruct pairs as [|f [|v rest]]; simpl; try lia. intros _. apply HMSet_keeps, insert_non_empty. Qed.

Lemma LSet_not_empty index v l : l <> [] -> (DList.LSet index v l).2 <> [].
Proof.
  intros Hl. unfold DList.LSet. case_match; simpl; [done|]. intros Heq%(f_equal length).
  rewrite length_insert in Heq. by destruct l.
Qed.

Lemma LInsert_not_empty before pivot v l : l <> [] -> (DList.LInsert before pivot v l).2 <> [].
Proof.
  intros Hl. unfold DList.LInsert. destruct (DList.insert_at before pivot v l) as [l'|] eqn:Hi; [|done].
  simpl. intros ->. destruct l as [|x l]; [done|]. simpl in Hi. case_decide; [by destruct before|].
  by destruct (DList.insert_at before pivot v l).
Qed.

Lemma coll_step_no_empty o s : brings_elems o -> no_empty s -> no_empty (coll_step o s).
Proof.
  intros Hb Hne. destruct o; cbn [coll_step] in *.
  - unfold sAdd. destruct (DSet.Add_spec elems (default DSet.New (sets s !! key))) as [Heq _].
    destruct (DSet.Add _ _) as [n ss]. simpl in Heq. apply no_empty_sets; [done|].
    apply no_empty_insert; [|apply Hne]. subst. destruct elems as [|e es]; [done|]. simpl. set_solver.
  - unfold sRem. case_match; [|done]. destruct (DSet.Rem _ _). by apply put_set_no_empty.
  - unfold sPop. case_match; [|done]. destruct (DSet.Pop _ _) as [[e|] ss]; [|done].
    by apply put_set_no_empty.
  - apply in_hash_no_empty; [done|]. intros h. unfold DHash.HSet. case_match; apply insert_non_empty.
  - apply in_hash_no_empty; [done|]. intros h. unfold DHash.HSetNX.
    destruct (h !! field) eqn:Hh; [|apply insert_non_empty]. simpl; intros ->; done.
  - unfold hDel. case_match; [|done]. destruct (DHash.HDel _ _) as [n h]. unfold DHash.HLen.
    destruct (Z.eqb_spec (Z.of_nat (size h)) 0).
    + apply no_empty_hashes, no_empty_delete, Hne. done.
    + apply no_empty_hashes; [done|]. apply no_empty_insert; [|apply Hne]. by intros ->.
  - apply in_hash_no_empty; [done|]. intros h. apply HIncrBy_not_empty.
  - apply in_hash_no_empty; [done|]. intros h. by apply HMSet_not_empty.
  - apply in_list_no_empty; [done|]. intros l. rewrite DList.LPush_spec. simpl.
    intros [Hr _]%app_eq_nil. apply Hb. by rewrite <-(rev_involutive elems), Hr.
  - apply in_list_no_empty; [done|]. intros l. rewrite DList.RPush_spec. simpl. by intros [_ ?]%app_eq_nil.
  - unfold lPop. case_match; [|done]. destruct (DList.LPop _) as [[e|] ss]; [|done].
    by apply put_list_no_empty.
  - unfold rPop. case_match; [|done]. destruct (DList.RPop _) as [[e|] ss]; [|done].
    by apply put_list_no_empty.
  - unfold lSet. case_match eqn:Hl; [|done]. pose proof (LSet_not_empty index value l (ne_lists s Hne _ _ Hl)).
    destruct (DList.LSet _ _ _) as [ok l']. apply no_empty_lists; [done|].
    apply no_empty_insert; [done|apply Hne].
  - unfold lRem. case_match; [|done]. destruct (DList.LRem _ _ _). by apply put_list_no_empty.
  - unfold lTrim. case_match; [|done]. by apply put_list_no_empty.
  - unfold lInsert. case_match eqn:Hl; [|done].
    pose proof (LInsert_not_empty before pivot value l (ne_lists s Hne _ _ Hl)).
    destruct (DList.LInsert _ _ _ _) as [n l']. apply no_empty_lists; [done|].
    apply no_empty_insert; [done|apply Hne].
Qed.

(** ** Properties *)

(** No update that brings at least one element leaves an empty
    collection behind: removing the last element of a set, hash or list removes
    its key, over any sequence of updates. *)
Theorem collections_not_empty ops s :
  Forall brings_elems ops -> no_empty s -> no_empty (foldl (fun s o => coll_step o s) s ops).
Proof.
  revert s. induction ops as [|o ops IH]; intros s Hall Hne; [done|].
  apply Forall_cons in Hall as [Ho Hall]. apply IH; [done|]. by apply coll_step_no_empty.
Qed.

(** An [SAdd] without elements on a missing key creates an empty set
    that stays: it reports 0 elements added and the key then exists, with type
    "set" and no member. *)
Theorem sadd_nothing_creates_key key s :
  sets s !! key = None ->
  (sAdd key [] s).1 = 0 /\ getSet key (sAdd key [] s).2 = Some ∅ /\
  sMembers key (sAdd key [] s).2 = Some [] /\ ~ no_empty (sAdd key [] s).2.
Proof.
  intros Hk. unfold sAdd, getSet, sMembers. rewrite Hk. simpl. rewrite lookup_insert_eq.
  split_and!; [done|done| |].
  - f_equal. unfold DSet.Members, DSet.New. apply nil_length_inv. by rewrite length_set_iter, size_empty.
  - intros Hne. by apply (ne_sets _ Hne key ∅); [simpl; rewrite lookup_insert_eq|].
Qed.

End Typed.

Lemma collections_not_empty_witness :
  no_empty (foldl (fun s o => coll_step (MI := trie_order) o s)
    (mkShard (P := unit) [] 1 0 ∅ ∅ ∅) [CSAdd "s" ["a"]; CSRem "s" ["a"]; CRPush "l" ["x"; "y"]; CLPop "l"]).
Proof.
  apply (collections_not_empty (MI := trie_order)); [by repeat constructor|].
  split; intros k x; simpl; by rewrite lookup_empty.
Defined.

Lemma sadd_nothing_creates_key_witness :
  getSet "k" (sAdd "k" [] (mkShard (P := unit) [] 1 0 ∅ ∅ ∅)).2 = Some ∅.
Proof. by apply (sadd_nothing_creates_key (MI := trie_order) "k" (mkShard (P := unit) [] 1 0 ∅ ∅ ∅)). Defined.
