(* ===== verification/Rehash.v ===== *)
(** * Rehashing strategies (rehash/*.go)

    The shard interface a rehasher works on, as a class of operations and a class
    of laws; the incremental, batch and no-op rehashers against it; and what a
    migration step does to the contents of the two tables.  Calls are sequential:
    the checks a rehasher repeats after taking its lock find what the first ones
    found. *)

From stdpp Require Import base tactics numbers list gmap sets fin_maps strings.
From S2P Require Import Prelude.
From S2P Require Import Policy.
From S2P Require Import Hashing.
From S2P Require Import Shard.

(** ** The shard interface *)

(** [type Shard interface]; [rs_size] is the number of entries held, the fuel of
    loops that take entries out. *)
Class RehashShard (S : Type) := {
  rs_ExtractN : Z -> Z -> S -> outcome (list Item * S);
  rs_Set : Z -> string -> bytes -> Z -> S -> outcome (list string * S);
  rs_Del : string -> S -> outcome S;
  rs_Len : Z -> S -> outcome Z;
  rs_size : S -> nat;
}.

(** What a rehash relies on.  [rs_full]: [ExtractN] can reach every slot;
    [rs_unlimited]: [Set] evicts nothing; [rs_frame]: what no operation changes. *)
Class RehashShardLaws (S : Type) `{RehashShard S} := {
  rs_ok : S -> Prop;
  rs_full : S -> Prop;
  rs_unlimited : S -> Prop;
  rs_entries : S -> gmap string cacheEntry;
  rs_frame : S -> S -> Prop;
  rs_frame_pre : PreOrder rs_frame;
  rs_frame_full s s' : rs_frame s s' -> rs_full s -> rs_full s';
  rs_frame_unlimited s s' : rs_frame s s' -> rs_unlimited s -> rs_unlimited s';
  rs_size_law s : rs_ok s -> rs_size s = size (rs_entries s);
  rs_extract_law now n s : rs_ok s -> rs_full s -> 0 <= n ->
    exists items s', rs_ExtractN now n s ⇓ (items, s') /\ rs_ok s' /\ rs_frame s s' /\
      extracted now (rs_entries s) items (rs_entries s') /\
      Z.of_nat (length items) <= n /\
      (Z.of_nat (length items) < n -> rs_entries s' = ∅);
  rs_set_law now key value ttl s : rs_ok s ->
    exists ev s', rs_Set now key value ttl s ⇓ (ev, s') /\ rs_ok s' /\ rs_frame s s' /\
      (rs_unlimited s -> ev = []) /\
      (forall k, k ∈ ev -> k = key \/ is_Some (rs_entries s !! k)) /\
      forall k, rs_entries s' !! k =
        if decide (k ∈ ev) then None
        else if decide (k = key) then Some (newEntry now value ttl) else rs_entries s !! k;
  rs_del_law key s : rs_ok s ->
    exists s', rs_Del key s ⇓ s' /\ rs_ok s' /\ rs_frame s s' /\
      rs_entries s' = delete key (rs_entries s);
}.
#[global] Existing Instance rs_frame_pre.

(** ** The rehashers *)

Record IncrementalRehasher (S : Type) : Type := mkInc {
  inc_rehashing : bool;
  inc_oldShards : list S;
  inc_oldMask : Z;
  inc_rehashIdx : Z;
  inc_batchSize : Z;
}.
Arguments mkInc {_} _ _ _ _ _.
Arguments inc_rehashing {_} _.
Arguments inc_oldShards {_} _.
Arguments inc_oldMask {_} _.
Arguments inc_rehashIdx {_} _.
Arguments inc_batchSize {_} _.

Record BatchRehasher (S : Type) : Type := mkBatch {
  bat_rehashing : bool;
  bat_oldShards : list S;
  bat_oldMask : Z;
}.
Arguments mkBatch {_} _ _ _.
Arguments bat_rehashing {_} _.
Arguments bat_oldShards {_} _.
Arguments bat_oldMask {_} _.

(** A [Rehasher] value made by one of the built-in factories. *)
Inductive Rehasher (S : Type) : Type :=
| RIncremental (r : IncrementalRehasher S)
| RBatch (r : BatchRehasher S)
| RNoop.
Arguments RIncremental {_} _.
Arguments RBatch {_} _.
Arguments RNoop {_}.

Definition NewIncrementalRehasher {S} : IncrementalRehasher S := mkInc false [] 0 0 16.
Definition NewBatchRehasher {S} : BatchRehasher S := mkBatch false [] 0.

Section Rehasher.
Context {S : Type} `{RS : RehashShard S}.

Definition Name (r : Rehasher S) : string :=
  match r with RIncremental _ => "incremental" | RBatch _ => "batch" | RNoop => "noop" end.

Definition Start (oldShards : list S) (oldMask : Z) (r : Rehasher S) : Rehasher S :=
  match r with
  | RIncremental r => RIncremental (mkInc true oldShards oldMask 0 (inc_batchSize r))
  | RBatch r => RBatch (mkBatch true oldShards oldMask)
  | RNoop => RNoop
  end.

Definition IsRehashing (r : Rehasher S) : bool :=
  match r with
  | RIncremental r => inc_rehashing r
  | RBatch r => bat_rehashing r
  | RNoop => false
  end.

(** The items taken out are set in the new table one by one; what that evicts is
    dropped. *)
Fixpoint migrate (now : Z) (indexFunc : string -> Z) (items : list Item) (newShards : list S) :
    outcome (list S) :=
  match items with
  | [] => Ret newShards
  | it :: items =>
      let i := Z.to_nat (indexFunc (Key it)) in
      s ← deref (newShards !! i);
      '(_, s') ← rs_Set now (Key it) (Value it) (TTL it) s;
      migrate now indexFunc items (<[i := s']> newShards)
  end.

(** [Step] returns (done, justCompleted), the new table and the rehasher. *)
Definition inc_Step (now : Z) (newShards : list S) (indexFunc : string -> Z) (r : IncrementalRehasher S) :
    outcome (bool * bool * list S * IncrementalRehasher S) :=
  if negb (inc_rehashing r) then Ret (true, false, newShards, r)
  else
    let idx := inc_rehashIdx r in
    oldShard ← deref (inc_oldShards r !! Z.to_nat idx);
    '(items, oldShard') ← rs_ExtractN now (inc_batchSize r) oldShard;
    newShards ← migrate now indexFunc items newShards;
    let old := <[Z.to_nat idx := oldShard']> (inc_oldShards r) in
    if Z.of_nat (length items) =? 0 then
      if idx + 1 >=? Z.of_nat (length old) then
        Ret (true, true, newShards, mkInc false [] (inc_oldMask r) (idx + 1) (inc_batchSize r))
      else Ret (false, false, newShards, mkInc true old (inc_oldMask r) (idx + 1) (inc_batchSize r))
    else Ret (false, false, newShards, mkInc true old (inc_oldMask r) idx (inc_batchSize r)).

(** [for { items := oldShard.ExtractN(1000); if len(items) == 0 { break }; ... }]. *)
Fixpoint drain (fuel : nat) (now : Z) (indexFunc : string -> Z) (oldShard : S) (newShards : list S) :
    outcome (list S) :=
  match fuel with
  | O => NoFuel
  | Datatypes.S fuel =>
      '(items, oldShard) ← rs_ExtractN now 1000 oldShard;
      if Z.of_nat (length items) =? 0 then Ret newShards
      else
        newShards ← migrate now indexFunc items newShards;
        drain fuel now indexFunc oldShard newShards
  end.

Fixpoint drain_all (now : Z) (indexFunc : string -> Z) (old newShards : list S) : outcome (list S) :=
  match old with
  | [] => Ret newShards
  | oldShard :: old =>
      newShards ← drain (Datatypes.S (rs_size oldShard)) now indexFunc oldShard newShards;
      drain_all now indexFunc old newShards
  end.

Definition bat_Step (now : Z) (newShards : list S) (indexFunc : string -> Z) (r : BatchRehasher S) :
    outcome (bool * bool * list S * BatchRehasher S) :=
  if negb (bat_rehashing r) then Ret (true, false, newShards, r)
  else
    newShards ← drain_all now indexFunc (bat_oldShards r) newShards;
    Ret (true, true, newShards, mkBatch false [] (bat_oldMask r)).

Definition Step (now : Z) (newShards : list S) (indexFunc : string -> Z) (r : Rehasher S) :
    outcome (bool * bool * list S * Rehasher S) :=
  match r with
  | RIncremental r =>
      '(d, j, newShards, r) ← inc_Step now newShards indexFunc r; mret (d, j, newShards, RIncremental r)
  | RBatch r =>
      '(d, j, newShards, r) ← bat_Step now newShards indexFunc r; mret (d, j, newShards, RBatch r)
  | RNoop => Ret (true, false, newShards, RNoop)
  end.

(** [OldShards]; [[]] is the nil slice. *)
Definition OldShards (r : Rehasher S) : list S :=
  match r with
  | RIncremental r => if inc_rehashing r then inc_oldShards r else []
  | RBatch r => if bat_rehashing r then bat_oldShards r else []
  | RNoop => []
  end.

Definition oldMask (r : Rehasher S) : Z :=
  match r with RIncremental r => inc_oldMask r | RBatch r => bat_oldMask r | RNoop => 0 end.

(** [OldShard(key)]: the position of the old shard responsible for [key] and the
    shard, or nil. *)
Definition OldShard (key : string) (r : Rehasher S) : outcome (option (nat * S)) :=
  match OldShards r with
  | [] => Ret None
  | old =>
      let i := Z.to_nat (OldShardIndex key (oldMask r)) in
      s ← deref (old !! i); mret (Some (i, s))
  end.

(** A mutation of the shards [OldShards] and [OldShard] return. *)
Definition set_old (old : list S) (r : Rehasher S) : Rehasher S :=
  match r with
  | RIncremental r =>
      RIncremental (mkInc (inc_rehashing r) old (inc_oldMask r) (inc_rehashIdx r) (inc_batchSize r))
  | RBatch r => RBatch (mkBatch (bat_rehashing r) old (bat_oldMask r))
  | RNoop => RNoop
  end.

Definition Stop (r : Rehasher S) : Rehasher S :=
  match r with
  | RIncremental r => RIncremental (mkInc false [] (inc_oldMask r) 0 (inc_batchSize r))
  | RBatch r => RBatch (mkBatch false [] (bat_oldMask r))
  | RNoop => RNoop
  end.

(** The registry: a factory is the fresh rehasher it makes. *)
Definition rehash_registry : gmap string (Rehasher S) :=
  {[ "incremental" := RIncremental NewIncrementalRehasher; "batch" := RBatch NewBatchRehasher;
     "noop" := RNoop ]}%string.

Definition Register (name : string) (factory : option (Rehasher S)) (reg : gmap string (Rehasher S)) :
    option error * gmap string (Rehasher S) :=
  match factory with
  | Some f =>
      if decide (name = EmptyString) then (Some ErrUnknownRehasher, reg) else (None, <[name := f]> reg)
  | None => (Some ErrUnknownRehasher, reg)
  end.

Definition GetFactory (name : string) (reg : gmap string (Rehasher S)) : result error (Rehasher S) :=
  match reg !! name with Some f => Ok f | None => Err ErrUnknownRehasher end.

(** ** Tables *)

Context `{RL : !RehashShardLaws S}.

(** The entry of [k] in a table whose index function is [idx]. *)
Definition tbl (idx : string -> Z) (l : list S) (k : string) : option cacheEntry :=
  l !! Z.to_nat (idx k) ≫= (fun s => rs_entries s !! k).

(** A sound table: every key is in the shard its index names. *)
Record table_ok (idx : string -> Z) (l : list S) : Prop := {
  to_idx k : 0 <= idx k < Z.of_nat (length l);
  to_ok s : s ∈ l -> rs_ok s;
  to_keys i s k : l !! i = Some s -> is_Some (rs_entries s !! k) -> Z.to_nat (idx k) = i;
}.

(** An entry is what it was, or gone because its new shard evicts or because it
    was past its deadline. *)
Definition step_kept (now : Z) (unlimited : Prop) (o' o : option cacheEntry) : Prop :=
  o' = o \/ (o' = None /\ (~ unlimited \/ exists e, o = Some e /\ dead now e = true)).

Definition deadline_ok (e : cacheEntry) : Prop := 0 <= expiresAt e <= max_int64.

(** ** Lemmas *)

Lemma step_kept_refl now u o : step_kept now u o o.
Proof. by left. Qed.

Lemma step_kept_trans now (u1 u2 : Prop) o1 o2 o3 :
  (u2 -> u1) -> step_kept now u1 o2 o1 -> step_kept now u2 o3 o2 -> step_kept now u2 o3 o1 .
Proof.
  intros Hu [->|[-> H1]] [->|[-> H2]]; [by left|by right| |].
  - right. split; [done|]. destruct H1 as [?|?]; [left; tauto|by right].
  - right. split; [done|]. destruct H1 as [?|?]; [left; tauto|by right].
Qed.

Lemma table_shard idx l k : table_ok idx l -> exists s, l !! Z.to_nat (idx k) = Some s /\ rs_ok s.
Proof.
  intros Hok. pose proof (to_idx idx l Hok k).
  destruct (lookup_lt_is_Some_2 l (Z.to_nat (idx k))) as [s Hs]; [lia|].
  exists s. split; [done|]. eapply to_ok; [done|]. by eapply list_elem_of_lookup_2.
Qed.

Lemma table_update idx l i s s' :
  table_ok idx l -> l !! i = Some s -> rs_ok s' ->
  (forall k, is_Some (rs_entries s' !! k) -> is_Some (rs_entries s !! k) \/ Z.to_nat (idx k) = i) ->
  table_ok idx (<[i := s']> l) /\
  forall k, tbl idx (<[i := s']> l) k =
    if decide (Z.to_nat (idx k) = i) then rs_entries s' !! k else tbl idx l k.
Proof.
  intros Hok Hi Hs' Hk. assert (i < length l)%nat as Hlt by (by eapply lookup_lt_Some). split.
  - split.
    + intros k. rewrite length_insert. by apply to_idx.
    + intros x (j & Hj)%list_elem_of_lookup. apply list_lookup_insert_Some in Hj as [(_ & <- & _)|[_ Hj]]; [done|].
      eapply to_ok; [done|]. by eapply list_elem_of_lookup_2.
    + intros j x k. rewrite list_lookup_insert_Some. intros [(<- & <- & _)|[_ Hj]] Hx.
      * destruct (Hk k Hx) as [Hs|]; [by eapply to_keys|done].
      * by eapply to_keys.
  - intros k. unfold tbl. case_decide as Hd.
    + by rewrite Hd, list_lookup_insert_eq.
    + by rewrite list_lookup_insert_ne.
Qed.

Lemma tbl_at idx l i s k :
  table_ok idx l -> l !! i = Some s -> is_Some (rs_entries s !! k) -> tbl idx l k = rs_entries s !! k.
Proof. intros Hok Hi Hk. unfold tbl. by rewrite (to_keys _ _ Hok i s k Hi Hk), Hi. Qed.

(** The entries a list of items becomes. *)
Definition items_map (now : Z) (items : list Item) : gmap string cacheEntry :=
  list_to_map ((fun it => (Key it, newEntry now (Value it) (TTL it))) <$> items).

Lemma frame_unlimited l l' : Forall2 rs_frame l l' -> Forall rs_unlimited l -> Forall rs_unlimited l'.
Proof.
  intros Hf Hu. apply Forall_forall. intros s' (i & Hi)%list_elem_of_lookup.
  destruct (Forall2_lookup_r _ _ _ _ _ Hf Hi) as (s & Hs & Hfr).
  eapply rs_frame_unlimited; [done|]. eapply Forall_forall; [done|]. by eapply list_elem_of_lookup_2.
Qed.

Lemma frame_full l l' : Forall2 rs_frame l l' -> Forall rs_full l -> Forall rs_full l'.
Proof.
  intros Hf Hu. apply Forall_forall. intros s' (i & Hi)%list_elem_of_lookup.
  destruct (Forall2_lookup_r _ _ _ _ _ Hf Hi) as (s & Hs & Hfr).
  eapply rs_frame_full; [done|]. eapply Forall_forall; [done|]. by eapply list_elem_of_lookup_2.
Qed.

Lemma frame_refl l : Forall2 rs_frame l l.
Proof. apply Forall_Forall2_diag, Forall_true. reflexivity. Qed.

Lemma frame_trans l1 l2 l3 : Forall2 rs_frame l1 l2 -> Forall2 rs_frame l2 l3 -> Forall2 rs_frame l1 l3.
Proof.
  intros H1. revert l3. induction H1 as [|x y l1 l2 Hxy H1 IH]; intros l3 H2; inversion H2; subst; constructor.
  - by etransitivity.
  - by apply IH.
Qed.

Lemma frame_insert l i s s' : l !! i = Some s -> rs_frame s s' -> Forall2 rs_frame l (<[i := s']> l).
Proof.
  intros Hi Hf. apply Forall2_same_length_lookup. split; [by rewrite length_insert|].
  intros j x y Hx Hy. apply list_lookup_insert_Some in Hy as [(<- & <- & _)|[_ Hy]].
  - rewrite Hi in Hx. by injection Hx as <-.
  - rewrite Hy in Hx. injection Hx as <-. reflexivity.
Qed.

Lemma items_map_cons now it items :
  items_map now (it :: items) = <[Key it := newEntry now (Value it) (TTL it)]> (items_map now items).
Proof. done. Qed.

(** Setting items that are not in the table yet. *)
Lemma migrate_spec now idx items l :
  table_ok idx l -> NoDup (Key <$> items) ->
  exists l', migrate now idx items l ⇓ l' /\ table_ok idx l' /\ Forall2 rs_frame l l' /\
    forall k, step_kept now (Forall rs_unlimited l) (tbl idx l' k) (items_map now items !! k ∪ tbl idx l k).
Proof.
  revert l. induction items as [|it items IH]; intros l Hok Hnd; cbn [migrate].
  { exists l. split_and!; [done|done|apply frame_refl|].
    intros k. left. unfold items_map. simpl. rewrite lookup_empty. by destruct (tbl idx l k). }
  rewrite fmap_cons, NoDup_cons in Hnd. destruct Hnd as [Hni Hnd].
  destruct (table_shard idx l (Key it) Hok) as (s & Hs & Hsok). rewrite Hs. cbn.
  destruct (rs_set_law now (Key it) (Value it) (TTL it) s Hsok)
    as (ev & s' & -> & Hsok' & Hf & Hun & Hev & Hlook). cbn.
  destruct (table_update idx l (Z.to_nat (idx (Key it))) s s' Hok Hs Hsok') as [Hok1 Htbl1].
  { intros k. rewrite Hlook. case_decide; [by intros []|]. case_decide; [subst; by right|by left]. }
  pose proof (frame_insert l _ s s' Hs Hf) as Hf1.
  destruct (IH _ Hok1 Hnd) as (l' & -> & Hok' & Hf' & Hk').
  exists l'. split_and!; [done|done|by eapply frame_trans|]. intros k.
  assert (step_kept now (Forall rs_unlimited l) (items_map now items !! k ∪ tbl idx (<[Z.to_nat (idx (Key it)) := s']> l) k)
            (items_map now (it :: items) !! k ∪ tbl idx l k)) as H1.
  { rewrite items_map_cons, lookup_insert, Htbl1.
    destruct (items_map now items !! k) as [e|] eqn:He.
    { left. rewrite (decide_False (P := Key it = k)); [by or_else|]. intros <-. apply Hni.
      apply elem_of_list_to_map_2 in He. apply list_elem_of_fmap in He as (x & [= ? ?] & Hx).
      apply list_elem_of_fmap. eauto. }
    assert (Forall rs_unlimited l -> ev = []) as Hun'.
    { intros Hall. apply Hun. eapply Forall_forall; [done|]. by eapply list_elem_of_lookup_2. }
    destruct (decide (Z.to_nat (idx k) = Z.to_nat (idx (Key it)))) as [Hi|Hi].
    - rewrite Hlook. destruct (decide (k ∈ ev)) as [Hin|Hin].
      + right. split; [by or_else|]. left. intros Hall. by rewrite Hun' in Hin; [apply not_elem_of_nil in Hin|].
      + left. repeat case_decide; subst; try done; or_else; [done|]. unfold tbl. by rewrite Hi, Hs.
    - left. rewrite (decide_False (P := Key it = k)) by congruence. by or_else. }
  eapply step_kept_trans; [|exact H1|].
  - done.
  - destruct (Hk' k) as [->|[-> Hr]]; [by left|right]. split; [done|].
    destruct Hr as [Hnu|]; [left|by right]. intros Hall. by apply Hnu, (frame_unlimited l).
Qed.

(** A live entry goes through an item unchanged. *)
Lemma item_roundtrip now k e :
  0 <= now -> deadline_ok e -> dead now e = false ->
  newEntry now (Value (item_of now k e)) (TTL (item_of now k e)) = e.
Proof.
  intros Hnow [H0 Hmax] Hd. unfold newEntry, item_of, dead, until in *. simpl.
  destruct e as [v x]. simpl in *. f_equal. destruct (Z.gtb_spec x 0) as [Hx|Hx]; simpl in *; [|lia].
  destruct (Z.geb_spec now x) as [|Hlt]; [done|].
  assert (in_int64 x) by (unfold in_int64, min_int64, max_int64 in *; lia).
  rewrite sat64_id by (unfold in_int64, min_int64, max_int64 in *; lia).
  destruct (Z.gtb_spec (x - now) 0); [|lia]. rewrite int64_id; [lia|].
  by replace (now + (x - now)) with x by lia.
Qed.

Lemma items_map_extracted now m items m' k :
  0 <= now -> (forall j e, m !! j = Some e -> deadline_ok e) -> extracted now m items m' ->
  items_map now items !! k = if decide (k ∈ Key <$> items) then m !! k else None.
Proof.
  intros Hnow Hdl Hex. case_decide as Hk.
  - apply list_elem_of_fmap in Hk as (it & -> & Hit).
    destruct (ex_item _ _ _ _ Hex it Hit) as (e & He & Hd & Heq & _). rewrite He.
    apply elem_of_list_to_map_1.
    + rewrite <-list_fmap_compose. apply (ex_nodup _ _ _ _ Hex).
    + apply list_elem_of_fmap. exists it. split; [|done]. f_equal. rewrite Heq.
      rewrite item_roundtrip; eauto.
  - apply not_elem_of_list_to_map_1. by rewrite <-list_fmap_compose.
Qed.

Lemma extracted_size now m items m' :
  extracted now m items m' -> (size m' + length items <= size m)%nat.
Proof.
  intros Hex. rewrite <-!size_dom, <-(length_fmap Key items).
  rewrite <-(size_list_to_set (C := gset string) (Key <$> items)) by (by eapply ex_nodup).
  rewrite <-size_union.
  - apply subseteq_size. intros k. rewrite elem_of_union, elem_of_list_to_set, !elem_of_dom. intros [Hk|Hk].
    + by rewrite <-(extracted_sub _ _ _ _ _ Hex Hk).
    + apply list_elem_of_fmap in Hk as (it & -> & Hit).
      destruct (ex_item _ _ _ _ Hex it Hit) as (e & He & _). eauto.
  - intros k. rewrite elem_of_list_to_set, elem_of_dom. intros [x Hx] Hk.
    apply list_elem_of_fmap in Hk as (it & -> & Hit).
    destruct (ex_item _ _ _ _ Hex it Hit) as (e & _ & _ & _ & Hn). congruence.
Qed.

(** The two sides of a migration share no key. *)
Definition apart (idx : string -> Z) (l : list S) (m : gmap string cacheEntry) : Prop :=
  forall k, is_Some (m !! k) -> tbl idx l k = None.

(** One batch from the old shard [s] into the table [l]. *)
Lemma move_spec now n idx s l :
  0 <= now -> 0 < n -> rs_ok s -> rs_full s -> table_ok idx l -> apart idx l (rs_entries s) ->
  (forall k e, rs_entries s !! k = Some e -> deadline_ok e) ->
  exists items s' l', rs_ExtractN now n s ⇓ (items, s') /\ migrate now idx items l ⇓ l' /\
    rs_ok s' /\ rs_frame s s' /\ table_ok idx l' /\ Forall2 rs_frame l l' /\
    apart idx l' (rs_entries s') /\
    (forall k, is_Some (rs_entries s' !! k) -> rs_entries s' !! k = rs_entries s !! k) /\
    (forall k, step_kept now (Forall rs_unlimited l)
       (tbl idx l' k ∪ rs_entries s' !! k) (tbl idx l k ∪ rs_entries s !! k)) /\
    (items = [] -> rs_entries s' = ∅) /\
    (size (rs_entries s') + length items <= size (rs_entries s))%nat.
Proof.
  intros Hnow Hn Hs Hfull Hl Hap Hdl.
  destruct (rs_extract_law now n s Hs Hfull ltac:(lia)) as (items & s' & Hx & Hs' & Hf & Hex & Hlen & Hend).
  destruct (migrate_spec now idx items l Hl (ex_nodup _ _ _ _ Hex)) as (l' & Hm & Hl' & Hfl & Hk).
  exists items, s', l'. split_and!; try done.
  - intros k Hk'. destruct (Hk k) as [->|[-> _]]; [|done].
    rewrite (items_map_extracted now _ _ _ k Hnow Hdl Hex). case_decide as Hin.
    + apply list_elem_of_fmap in Hin as (it & -> & Hit).
      destruct (ex_item _ _ _ _ Hex it Hit) as (e & _ & _ & _ & Hn'). rewrite Hn' in Hk'. by destruct Hk'.
    + or_else. apply Hap. by rewrite <-(extracted_sub _ _ _ _ _ Hex Hk').
  - intros k Hk'. by eapply extracted_sub.
  - intros k. specialize (Hk k). rewrite (items_map_extracted now _ _ _ k Hnow Hdl Hex) in Hk.
    case_decide as Hin.
    + apply list_elem_of_fmap in Hin as (it & -> & Hit).
      destruct (ex_item _ _ _ _ Hex it Hit) as (e & He & _ & _ & ->).
      rewrite He in *. rewrite (Hap (Key it)) in * by eauto. or_else. by rewrite option_or_Some in Hk.
    + rewrite (left_id_L None (∪)) in Hk. destruct (ex_other _ _ _ _ Hex k Hin) as [->|[-> (e & He & Hd)]].
      * destruct Hk as [->|[-> Hr]]; [by left|]. destruct (tbl idx l k) as [x|] eqn:Ht; [|by left; or_else].
        assert (rs_entries s !! k = None) as ->.
        { destruct (rs_entries s !! k) eqn:?; [|done]. rewrite Hap in Ht by eauto. done. }
        or_else. by right.
      * rewrite He. rewrite (Hap k) in Hk |- * by eauto. or_else. right. split; [|by eauto].
        by destruct Hk as [->|[-> _]].
  - intros ->. apply Hend. simpl. lia.
  - by eapply extracted_size.
Qed.

(** ** A step of a rehash *)

Definition oidx (r : Rehasher S) (k : string) : Z := OldShardIndex k (oldMask r).

Definition old_tbl (r : Rehasher S) (k : string) : option cacheEntry := tbl (oidx r) (OldShards r) k.

(** The entry of a key during a rehash: in the new table, else in the old one. *)
Definition comb (idx : string -> Z) (l : list S) (r : Rehasher S) (k : string) : option cacheEntry :=
  tbl idx l k ∪ old_tbl r k.

(** The incremental rehasher has emptied the shards before its position. *)
Definition inc_part_ok (r : Rehasher S) : Prop :=
  match r with
  | RIncremental r => 0 < inc_batchSize r /\
      (inc_rehashing r = true ->
       0 <= inc_rehashIdx r < Z.of_nat (length (inc_oldShards r)) /\
       forall i s, (i < Z.to_nat (inc_rehashIdx r))%nat -> inc_oldShards r !! i = Some s -> rs_entries s = ∅)
  | _ => True
  end.

(** The old table is sound and shares no key with the new one. *)
Record rehash_ok (idx : string -> Z) (l : list S) (r : Rehasher S) : Prop := {
  ro_table : IsRehashing r = true -> table_ok (oidx r) (OldShards r);
  ro_full : Forall rs_full (OldShards r);
  ro_apart k : is_Some (old_tbl r k) -> tbl idx l k = None;
  ro_inc : inc_part_ok r;
}.

(** What is left to do: entries to move and shards to pass. *)
Definition todo (r : Rehasher S) : nat :=
  if IsRehashing r then
    match r with
    | RIncremental r =>
        sum_list_with (fun s => size (rs_entries s)) (inc_oldShards r) +
        (length (inc_oldShards r) - Z.to_nat (inc_rehashIdx r))
    | _ => 1
    end
  else 0.

Lemma old_tbl_idle r k : IsRehashing r = false -> old_tbl r k = None.
Proof.
  intros Hr. unfold old_tbl, tbl, OldShards. destruct r as [r|r|]; simpl in Hr; try rewrite Hr; done.
Qed.

Lemma sum_list_insert (f : S -> nat) l i s s' :
  l !! i = Some s -> (sum_list_with f (<[i := s']> l) + f s = sum_list_with f l + f s')%nat.
Proof.
  revert i. induction l as [|x l IH]; intros [|i] Hi; simpl in *; [done|done| |].
  - injection Hi as ->. lia.
  - specialize (IH i Hi). lia.
Qed.

Section OneStep.
Context (now : Z) (idx : string -> Z) (l : list S).
Context (Hnow : 0 <= now) (Hl : table_ok idx l).

(** What every step guarantees. *)
Record step_result (r : Rehasher S) (d j : bool) (l' : list S) (r' : Rehasher S) : Prop := {
  st_table : table_ok idx l';
  st_frame : Forall2 rs_frame l l';
  st_ok : rehash_ok idx l' r';
  st_kept k : step_kept now (Forall rs_unlimited l) (comb idx l' r' k) (comb idx l r k);
  st_todo : IsRehashing r = true -> (todo r' < todo r)%nat;
  st_done : d = negb (IsRehashing r');
  st_completed : j = IsRehashing r && negb (IsRehashing r');
}.

Lemma step_idle r :
  rehash_ok idx l r -> IsRehashing r = false -> step_result r true false l r.
Proof using Hl.
  intros Hok Hr. split; [done|apply frame_refl|done|intros k; by left| |by rewrite Hr|by rewrite Hr].
  by rewrite Hr.
Qed.

(** Moving a batch out of shard [i] of an old table, seen from both tables. *)
Lemma move_tables n oi old i s :
  0 < n -> table_ok oi old -> Forall rs_full old ->
  (forall k, is_Some (tbl oi old k) -> tbl idx l k = None) ->
  (forall k e, tbl oi old k = Some e -> deadline_ok e) ->
  old !! i = Some s ->
  exists items s' l', rs_ExtractN now n s ⇓ (items, s') /\ migrate now idx items l ⇓ l' /\
    table_ok idx l' /\ Forall2 rs_frame l l' /\
    table_ok oi (<[i := s']> old) /\ Forall rs_full (<[i := s']> old) /\
    (forall k, is_Some (tbl oi (<[i := s']> old) k) -> tbl idx l' k = None) /\
    (forall k, step_kept now (Forall rs_unlimited l)
       (tbl idx l' k ∪ tbl oi (<[i := s']> old) k) (tbl idx l k ∪ tbl oi old k)) /\
    (items = [] -> rs_entries s' = ∅) /\
    (size (rs_entries s') + length items <= size (rs_entries s))%nat.
Proof using Hl Hnow.
  intros Hn Hot Hof Hap Hdl Hs.
  pose proof (fun k Hk => tbl_at _ _ _ s k Hot Hs Hk) as Hat.
  destruct (move_spec now n idx s l Hnow Hn) as
    (items & s' & l' & Hx & Hm & Hsok' & Hsfr & Hl' & Hlfr & Hap' & Hsub & Hkept & Hend & Hsize); [| |done| | |].
  { eapply to_ok; [done|]; by eapply list_elem_of_lookup_2. }
  { eapply Forall_forall; [done|]; by eapply list_elem_of_lookup_2. }
  { intros k Hk. apply Hap. by rewrite Hat. }
  { intros k e He. apply (Hdl k). by rewrite Hat by eauto. }
  destruct (table_update oi old i s s' Hot Hs Hsok') as [Hot' Htbl'].
  { intros k Hk. left. by rewrite <-Hsub. }
  assert (forall k, Z.to_nat (oi k) <> i -> rs_entries s !! k = None /\ rs_entries s' !! k = None) as Helse.
  { intros k Hk. assert (rs_entries s !! k = None) as Hn1.
    { apply eq_None_not_Some. intros Hy. by apply Hk, (to_keys _ _ Hot _ s). }
    split; [done|]. apply eq_None_not_Some. intros Hy. rewrite (Hsub k Hy), Hn1 in Hy. by destruct Hy. }
  exists items, s', l'. split_and!; try done.
  - eapply frame_full; [|exact Hof]. by eapply frame_insert.
  - intros k. rewrite Htbl'. case_decide as Hk; [apply Hap'|]. intros Hs2. specialize (Hkept k).
    destruct (Helse k Hk) as [Hn1 Hn2].
    rewrite Hn1, Hn2, (Hap k Hs2), !(right_id_L None (∪)) in Hkept. by destruct Hkept as [->|[-> _]].
  - intros k. specialize (Hkept k). rewrite Htbl'.
    case_decide as Hk; [by unfold tbl at 3; rewrite Hk, Hs|]. destruct (Helse k Hk) as [Hn1 Hn2].
    rewrite Hn1, Hn2, !(right_id_L None (∪)) in Hkept. destruct Hkept as [->|[-> Hr']]; [by left|].
    destruct (tbl oi old k) eqn:Ho; [|or_else; by right]. rewrite (Hap k) by eauto. by left.
Qed.

Lemma empty_tbl oi old k : (forall i x, old !! i = Some x -> rs_entries x = ∅) -> tbl oi old k = None.
Proof.
  intros Hem. unfold tbl. destruct (old !! Z.to_nat (oi k)) as [x|] eqn:Hx; [|done].
  cbn. rewrite (Hem _ _ Hx). apply lookup_empty.
Qed.

Lemma inc_Step_spec r :
  rehash_ok idx l (RIncremental r) ->
  (forall k e, old_tbl (RIncremental r) k = Some e -> deadline_ok e) ->
  exists d j l' r', inc_Step now l idx r ⇓ (d, j, l', r') /\
    step_result (RIncremental r) d j l' (RIncremental r').
Proof using Hl Hnow.
  intros Hok Hdl. unfold inc_Step. destruct (inc_rehashing r) eqn:Hr; cbn [negb].
  2:{ eexists _, _, _, _. split; [done|]. by apply step_idle. }
  destruct (ro_inc _ _ _ Hok) as [Hbs Hinc]. destruct (Hinc Hr) as [Hi Hbelow].
  destruct Hok as [Hot Hof Hap _]. specialize (Hot Hr).
  unfold old_tbl in *. cbn [OldShards] in *. rewrite Hr in *.
  destruct (lookup_lt_is_Some_2 (inc_oldShards r) (Z.to_nat (inc_rehashIdx r))) as [s Hs]; [lia|].
  rewrite Hs. cbn [deref mbind outcome_bind].
  destruct (move_tables _ _ _ _ s Hbs Hot Hof Hap Hdl Hs) as
    (items & s' & l' & -> & Hm & Hl' & Hlfr & Hot' & Hof' & Hap' & Hkept & Hend & Hsize).
  cbn [mbind outcome_bind]. rewrite Hm.
  pose proof (sum_list_insert (fun s => size (rs_entries s)) _ _ s s' Hs) as Hsum. cbv beta in Hsum.
  pose proof (length_insert (inc_oldShards r) (Z.to_nat (inc_rehashIdx r)) s') as Hlen.
  set (old' := <[Z.to_nat (inc_rehashIdx r) := s']> (inc_oldShards r)) in *.
  assert (forall k, step_kept now (Forall rs_unlimited l)
    (tbl idx l' k ∪ tbl (oidx (RIncremental r)) old' k) (comb idx l (RIncremental r) k)) as Hkept'.
  { intros k. unfold comb, old_tbl. cbn [OldShards]. rewrite Hr. apply Hkept. }
  destruct (Z.eqb_spec (Z.of_nat (length items)) 0) as [Hz|Hz].
  - assert (items = []) as -> by (by destruct items). specialize (Hend eq_refl).
    assert (forall i x, (i < Z.to_nat (inc_rehashIdx r + 1))%nat -> old' !! i = Some x -> rs_entries x = ∅) as Hbelow'.
    { intros i x Hlt Hx. apply list_lookup_insert_Some in Hx as [(_ & <- & _)|[Hne Hx]]; [done|].
      eapply Hbelow; [|done]. lia. }
    destruct (Z.geb_spec (inc_rehashIdx r + 1) (Z.of_nat (length old'))) as [Hge|Hlt];
      eexists _, _, _, _; (split; [done|]).
    + split; [done|done| | | |done|by simpl; rewrite Hr].
      * split; [done|constructor|by intros k []|done].
      * intros k. specialize (Hkept' k). rewrite (empty_tbl _ old' k) in Hkept'.
        { unfold comb at 1. by rewrite old_tbl_idle. }
        intros i x Hx. eapply Hbelow'; [|done]. apply lookup_lt_Some in Hx. lia.
      * intros _. unfold todo. simpl. rewrite Hr. lia.
    + split; [done|done| |exact Hkept'| |done|by simpl; rewrite Hr].
      * split; [done|done|done|]. simpl. split; [done|]. intros _. split; [lia|done].
      * intros _. unfold todo. simpl. rewrite Hr, Hlen. rewrite Hend, map_size_empty in Hsum. lia.
  - eexists _, _, _, _. split; [done|]. split; [done|done| |exact Hkept'| |done|by simpl; rewrite Hr].
    + split; [done|done|done|]. simpl. split; [done|]. intros _. split; [lia|].
      intros i x Hlt Hx. apply list_lookup_insert_Some in Hx as [(<- & _)|[_ Hx]]; [lia|]. by eapply Hbelow.
    + intros _. unfold todo. simpl. rewrite Hr, Hlen. lia.
Qed.

End OneStep.

Lemma step_kept_weaken now (u u' : Prop) o' o :
  (u -> u') -> step_kept now u' o' o -> step_kept now u o' o.
Proof. intros Hu [->|[-> [Hn|He]]]; [by left|right; split; [done|left; tauto]|right; auto]. Qed.

Lemma step_kept_frame now l l' o' o :
  Forall2 rs_frame l l' -> step_kept now (Forall rs_unlimited l') o' o ->
  step_kept now (Forall rs_unlimited l) o' o.
Proof. intros Hf. apply step_kept_weaken. by apply frame_unlimited. Qed.

Section Batch.
Context (now : Z) (idx : string -> Z) (Hnow : 0 <= now).

Lemma drain_spec fuel s l :
  table_ok idx l -> rs_ok s -> rs_full s -> apart idx l (rs_entries s) ->
  (forall k e, rs_entries s !! k = Some e -> deadline_ok e) -> (size (rs_entries s) < fuel)%nat ->
  exists l', drain fuel now idx s l ⇓ l' /\ table_ok idx l' /\ Forall2 rs_frame l l' /\
    forall k, step_kept now (Forall rs_unlimited l) (tbl idx l' k) (tbl idx l k ∪ rs_entries s !! k).
Proof using Hnow.
  revert s l. induction fuel as [|fuel IH]; intros s l Hl Hs Hf Hap Hdl Hlt; [lia|]. cbn [drain].
  destruct (move_spec now 1000 idx s l Hnow ltac:(lia) Hs Hf Hl Hap Hdl) as
    (items & s' & l1 & -> & Hm & Hs' & Hfr & Hl1 & Hlfr & Hap1 & Hsub & Hkept & Hend & Hsize).
  cbn [mbind outcome_bind]. destruct (Z.eqb_spec (Z.of_nat (length items)) 0) as [Hz|Hz].
  - assert (items = []) as -> by (by destruct items). injection Hm as <-.
    exists l. split_and!; [done|done|done|]. intros k. specialize (Hkept k).
    by rewrite (Hend eq_refl), lookup_empty, (right_id_L None (∪)) in Hkept.
  - rewrite Hm. cbn [mbind outcome_bind].
    destruct (IH s' l1 Hl1 Hs' (rs_frame_full _ _ Hfr Hf) Hap1) as (l2 & -> & Hl2 & Hlfr2 & Hkept2).
    { intros k e He. apply (Hdl k). rewrite <-Hsub; eauto. }
    { lia. }
    exists l2. split_and!; [done|done|by eapply frame_trans|]. intros k.
    eapply step_kept_trans; [|exact (Hkept k)|]; [done|]. eapply step_kept_frame; [done|apply Hkept2].
Qed.

(** The first entry of [k] in a list of shards. *)
Definition any_tbl (old : list S) (k : string) : option cacheEntry :=
  foldr (fun s o => rs_entries s !! k ∪ o) None old.

Definition told (h : string -> nat) (old : list S) : Prop :=
  forall i s k, old !! i = Some s -> is_Some (rs_entries s !! k) -> h k = i.

Lemma told_tail h s old : told h (s :: old) -> told (pred ∘ h) old.
Proof. intros Hh i s' k Hi Hk. simpl. by rewrite (Hh (Datatypes.S i) s' k Hi Hk). Qed.

Lemma told_head h s old k : told h (s :: old) -> is_Some (rs_entries s !! k) -> any_tbl old k = None.
Proof.
  intros Hh Hs. assert (h k = 0%nat) as H0 by (by apply (Hh 0%nat s)).
  assert (forall i s', old !! i = Some s' -> rs_entries s' !! k = None) as Hno.
  { intros i s' Hi. apply eq_None_not_Some. intros Hk. by rewrite (Hh (Datatypes.S i) s' k Hi Hk) in H0. }
  clear Hh. induction old as [|s' old IH]; [done|]. simpl. rewrite (Hno 0%nat s' eq_refl). or_else.
  apply IH. intros i. apply (Hno (Datatypes.S i)).
Qed.

Lemma any_tbl_elem old k : is_Some (any_tbl old k) -> exists s, s ∈ old /\ any_tbl old k = rs_entries s !! k.
Proof.
  induction old as [|s old IH]; simpl; [by intros []|]. destruct (rs_entries s !! k) as [e|] eqn:He.
  - intros _. exists s. split; [left|]. or_else. done.
  - or_else. intros Hs. destruct (IH Hs) as (s' & Hin & Heq). exists s'. split; [by right|done].
Qed.

Lemma tbl_any oi old k : table_ok oi old -> tbl oi old k = any_tbl old k.
Proof.
  intros Hok.
  assert (forall h old, told h old -> any_tbl old k = old !! h k ≫= (fun s => rs_entries s !! k)) as Hgen.
  { clear. intros h old. revert h. induction old as [|s old IH]; intros h Hh; [done|].
    simpl. rewrite (IH _ (told_tail _ _ _ Hh)). destruct (rs_entries s !! k) eqn:He.
    - rewrite (Hh 0%nat s k eq_refl) by eauto. simpl. or_else. by rewrite He.
    - or_else. destruct (h k) as [|i] eqn:Hk; simpl; rewrite Hk; [|done]. rewrite He. simpl.
      destruct old as [|s' old]; [done|]. simpl. destruct (rs_entries s' !! k) eqn:He'; [|done].
      specialize (Hh 1%nat s' k eq_refl). rewrite Hk in Hh. rewrite He' in Hh. by discriminate Hh; eauto. }
  unfold tbl. rewrite (Hgen (fun k => Z.to_nat (oi k))); [done|]. intros i s k' Hi Hk. by eapply to_keys.
Qed.

Lemma drain_all_spec h old l :
  table_ok idx l -> told h old -> (forall s, s ∈ old -> rs_ok s /\ rs_full s) ->
  (forall k, is_Some (any_tbl old k) -> tbl idx l k = None) ->
  (forall s k e, s ∈ old -> rs_entries s !! k = Some e -> deadline_ok e) ->
  exists l', drain_all now idx old l ⇓ l' /\ table_ok idx l' /\ Forall2 rs_frame l l' /\
    forall k, step_kept now (Forall rs_unlimited l) (tbl idx l' k) (tbl idx l k ∪ any_tbl old k).
Proof using Hnow.
  revert h l. induction old as [|s old IH]; intros h l Hl Hh Hok Hap Hdl; cbn [drain_all].
  { exists l. split_and!; [done|done|apply frame_refl|]. intros k. left. simpl. by or_else. }
  destruct (Hok s (list_elem_of_here _ _)) as [Hs Hf].
  destruct (drain_spec (Datatypes.S (rs_size s)) s l Hl Hs Hf) as (l1 & -> & Hl1 & Hf1 & Hk1).
  { intros k Hk. apply Hap. simpl. destruct Hk as [e ->]. or_else. eauto. }
  { intros k e. apply Hdl. left. }
  { rewrite rs_size_law by done. lia. }
  cbn [mbind outcome_bind].
  destruct (IH _ l1 Hl1 (told_tail _ _ _ Hh)) as (l2 & -> & Hl2 & Hf2 & Hk2).
  { intros s' Hin. apply Hok. by right. }
  { intros k Hk. specialize (Hk1 k). specialize (Hap k). simpl in Hap.
    assert (rs_entries s !! k = None) as Hn.
    { apply eq_None_not_Some. intros Hx. rewrite (told_head _ _ _ _ Hh Hx) in Hk. by destruct Hk. }
    rewrite Hn in *. rewrite (left_id_L None (∪)) in Hap.
    rewrite (Hap Hk), (left_id_L None (∪)) in Hk1. by destruct Hk1 as [->|[-> _]]. }
  { intros s' k e Hin. apply Hdl. by right. }
  exists l2. split_and!; [done|done|by eapply frame_trans|]. intros k. simpl. rewrite option_or_assoc.
  specialize (Hk1 k). specialize (Hk2 k). apply (step_kept_frame _ _ _ _ _ Hf1) in Hk2.
  eapply step_kept_trans; [| |exact Hk2]; [done|].
  destruct Hk1 as [->|[-> Hr]]; [by left|]. or_else.
  destruct (tbl idx l k ∪ rs_entries s !! k) as [e|] eqn:He; [|by left; or_else].
  assert (any_tbl old k = None) as ->; [|or_else; by right].
  apply eq_None_not_Some. intros Hx. destruct (rs_entries s !! k) as [e'|] eqn:Hs'.
  - by rewrite (told_head _ _ _ _ Hh) in Hx; [destruct Hx|eauto].
  - rewrite (right_id_L None (∪)) in He. rewrite Hap in He; [done|]. simpl. by rewrite Hs', (left_id_L None (∪)).
Qed.

Lemma bat_Step_spec l r :
  table_ok idx l -> rehash_ok idx l (RBatch r) ->
  (forall k e, old_tbl (RBatch r) k = Some e -> deadline_ok e) ->
  exists d j l' r', bat_Step now l idx r ⇓ (d, j, l', r') /\
    step_result now idx l (RBatch r) d j l' (RBatch r').
Proof using Hnow.
  intros Hl Hok Hdl. unfold bat_Step. destruct (bat_rehashing r) eqn:Hr; cbn [negb].
  2:{ eexists _, _, _, _. split; [done|]. by apply step_idle. }
  destruct Hok as [Hot Hof Hap _]. specialize (Hot Hr).
  pose proof (fun k => tbl_any _ _ k Hot) as Hany.
  unfold old_tbl in *. cbn [OldShards] in *. rewrite Hr in *.
  destruct (drain_all_spec (fun k => Z.to_nat (oidx (RBatch r) k)) (bat_oldShards r) l Hl) as
    (l' & -> & Hl' & Hf' & Hk').
  { intros i s k Hi Hk. by eapply to_keys. }
  { intros s Hin. split; [by eapply to_ok|by eapply Forall_forall]. }
  { intros k. rewrite <-Hany. apply Hap. }
  { intros s k e (i & Hi)%list_elem_of_lookup He. apply (Hdl k). by rewrite (tbl_at _ _ i s k Hot Hi); eauto. }
  eexists _, _, _, _. split; [done|]. split; [done|done| | | |done|by simpl; rewrite Hr].
  - split; [done|constructor|by intros k []|done].
  - intros k. unfold comb at 1. rewrite old_tbl_idle by done. or_else.
    unfold comb, old_tbl. cbn [OldShards]. rewrite Hr, Hany. apply Hk'.
  - intros _. unfold todo. simpl. rewrite Hr. lia.
Qed.

(** Every strategy, one call. *)
Lemma Step_spec l r :
  table_ok idx l -> rehash_ok idx l r -> (forall k e, old_tbl r k = Some e -> deadline_ok e) ->
  exists d j l' r', Step now l idx r ⇓ (d, j, l', r') /\ step_result now idx l r d j l' r'.
Proof using Hnow.
  intros Hl Hok Hdl. destruct r as [r|r|]; cbn [Step].
  - destruct (inc_Step_spec now idx l Hnow Hl r Hok Hdl) as (d & j & l' & r' & -> & Hr). eauto 6.
  - destruct (bat_Step_spec l r Hl Hok Hdl) as (d & j & l' & r' & -> & Hr). eauto 6.
  - eexists _, _, _, _. split; [done|]. by apply step_idle.
Qed.

End Batch.

(** ** Changes to an old shard during a rehash *)

Lemma OldShard_ok idx l r key :
  rehash_ok idx l r -> IsRehashing r = true ->
  exists s, OldShard key r ⇓ (Some (Z.to_nat (oidx r key), s)) /\
    OldShards r !! Z.to_nat (oidx r key) = Some s /\ rs_ok s /\
    forall k, Z.to_nat (oidx r k) = Z.to_nat (oidx r key) -> old_tbl r k = rs_entries s !! k.
Proof.
  intros Hok Hr. pose proof (ro_table _ _ _ Hok Hr) as Hot.
  destruct (table_shard _ _ key Hot) as (s & Hs & Hsok). exists s. split_and!; [|done|done|].
  - unfold OldShard. destruct (OldShards r) eqn:Ho; [done|]. unfold oidx in Hs. rewrite Hs. done.
  - intros k Hk. unfold old_tbl, tbl. by rewrite Hk, Hs.
Qed.

Lemma sub_empty (m m' : gmap string cacheEntry) :
  (forall k, is_Some (m' !! k) -> is_Some (m !! k)) -> m = ∅ -> m' = ∅.
Proof.
  intros Hsub ->. apply map_eq. intros k. rewrite lookup_empty. apply eq_None_not_Some.
  intros Hk%Hsub. by rewrite lookup_empty in Hk; destruct Hk.
Qed.

Lemma set_old_ok idx l r i s s' :
  rehash_ok idx l r -> IsRehashing r = true -> OldShards r !! i = Some s -> rs_ok s' -> rs_frame s s' ->
  (forall k, is_Some (rs_entries s' !! k) -> is_Some (rs_entries s !! k)) ->
  let r' := set_old (<[i := s']> (OldShards r)) r in
  IsRehashing r' = true /\ (forall k, oidx r' k = oidx r k) /\
  table_ok (oidx r') (OldShards r') /\ Forall rs_full (OldShards r') /\ inc_part_ok r' /\
  (forall k, old_tbl r' k = if decide (Z.to_nat (oidx r k) = i) then rs_entries s' !! k else old_tbl r k) /\
  (todo r' <= todo r)%nat.
Proof.
  intros Hok Hr Hi Hs' Hf Hsub r'. pose proof (ro_table _ _ _ Hok Hr) as Hot.
  assert (IsRehashing r' = true) as Hr' by (by destruct r).
  assert (forall k, oidx r' k = oidx r k) as Hoi by (by destruct r).
  assert (OldShards r' = <[i := s']> (OldShards r)) as Ho'.
  { unfold r'. destruct r as [r|r|]; simpl in *; [| |done]; by rewrite Hr. }
  destruct (table_update _ _ i s s' Hot Hi Hs') as [Hot' Htbl]; [by auto|].
  split_and!; [done|done| | | | |].
  - rewrite Ho'. destruct Hot' as [H1 H2 H3]. split; [by intros; rewrite Hoi|done|by intros; rewrite Hoi; eapply H3].
  - rewrite Ho'. eapply frame_full; [by eapply frame_insert|]. by eapply ro_full.
  - pose proof (ro_inc _ _ _ Hok) as Hinc. unfold r'. destruct r as [r|r|]; [|done|done].
    simpl in Hr, Hi |- *. rewrite Hr in *. destruct Hinc as [Hb Hinc]. destruct (Hinc ltac:(done)) as [Hx Hbelow].
    split; [done|]. intros _. rewrite length_insert. split; [done|]. intros j x Hj Hjx.
    apply list_lookup_insert_Some in Hjx as [(<- & <- & _)|[_ Hjx]]; [|by eapply Hbelow].
    eapply sub_empty; [exact Hsub|]. by eapply Hbelow.
  - intros k. rewrite <-Htbl. unfold old_tbl, tbl. by rewrite Hoi, Ho'.
  - unfold todo, r'. rewrite Hr. fold r'. rewrite Hr'. destruct r as [r|r|]; simpl in *; [|done|done].
    rewrite Hr in *. rewrite length_insert.
    pose proof (sum_list_insert (fun s => size (rs_entries s)) _ _ s s' Hi) as Hsum. cbv beta in Hsum.
    assert (size (rs_entries s') <= size (rs_entries s))%nat; [|lia].
    rewrite <-!size_dom. apply subseteq_size. intros k. rewrite !elem_of_dom. apply Hsub.
Qed.

End Rehasher.

(** ** Cache shards as the rehasher sees them *)

Section Instance_.
Context `{MI : MapIter} `{EP : EvictionPolicy P}.

#[global] Instance shard_rehash : RehashShard (shard P) := {|
  rs_ExtractN := ExtractN;
  rs_Set := Set_;
  rs_Del := Del;
  rs_Len := Len;
  rs_size s := size (shard_entries s);
|}.

Context `{PL : !PolicyLaws P}.

Definition shard_frame (s s' : shard P) : Prop :=
  numSubs s' = numSubs s /\ maxSubSize s' = maxSubSize s /\ keeps_cap s s'.

#[global] Program Instance shard_rehash_laws : RehashShardLaws (shard P) := {|
  rs_ok := shard_ok;
  rs_full s := numSubs s = subShardsPerShard;
  rs_unlimited s := maxSubSize s <= 0;
  rs_entries := shard_entries;
  rs_frame := shard_frame;
|}.
Next Obligation.
  split; [intros s; split_and!; [done|done|apply keeps_cap_refl]|].
  intros s1 s2 s3 (? & ? & H1) (? & ? & H2). split_and!; [congruence|congruence|by eapply keeps_cap_trans].
Qed.
Next Obligation. intros s s' (-> & _). done. Qed.
Next Obligation. intros s s' (_ & -> & _). done. Qed.
Next Obligation. done. Qed.
Next Obligation.
  intros now n s Hok Hfull Hn.
  destruct (ExtractN_spec now n s Hok Hfull Hn) as (items & s' & ? & ? & (? & ? & _) & ? & ? & ? & ?).
  by exists items, s'.
Qed.
Next Obligation.
  intros now key v ttl s Hok. destruct (Set_spec now key v ttl s Hok) as (ev & s' & Hs & HS).
  destruct (sr_frame _ _ _ _ _ _ _ HS) as (Hn & Hm & _).
  exists ev, s'. split; [done|]. split; [apply HS|]. split; [split; [done|split; [done|apply HS]]|].
  split; [apply HS|]. split; [|apply HS]. intros k Hk. by apply (sr_sub _ _ _ _ _ _ _ HS).
Qed.
Next Obligation.
  intros key s Hok. destruct (Del_spec key s Hok) as (s' & ? & ? & ? & ? & ? & ? & _).
  by exists s'.
Qed.

End Instance_.
