(* ===== verification/Cache.v ===== *)
(** * The cache (options.go, cache.go)

    A cache is a table of shards, a rehasher that may hold an older table, the
    eviction policy in force and the observer.  An operation takes the instant it
    reads the clock, runs to its end (the locks of the code serialise the parts
    that matter for one key) and returns its result with the new state.  The
    registries of policies and rehashers are arguments. *)

From stdpp Require Import base tactics numbers list gmap sets fin_maps strings.
From S2P Require Import Prelude.
From S2P Require Import Policy.
From S2P Require Import Policies.
From S2P Require Import Hashing.
From S2P Require Import Shard.
From S2P Require Import Rehash.

(** ** Options *)

(** [observer = None] is nil. *)
Record Options : Type := mkOptions {
  shardCount : Z;
  maxSize : Z;
  defaultTTL : Z;
  evictionPolicy : string;
  o_rehasher : string;
  o_observer : option nat;
}.

Definition NewOptions : Options := mkOptions 16 0 0 "lru" "incremental" None.

Definition WithShards (count : Z) (o : Options) : Options :=
  mkOptions count (maxSize o) (defaultTTL o) (evictionPolicy o) (o_rehasher o) (o_observer o).
Definition WithMaxSize (size : Z) (o : Options) : Options :=
  mkOptions (shardCount o) size (defaultTTL o) (evictionPolicy o) (o_rehasher o) (o_observer o).
Definition WithDefaultTTL (ttl : Z) (o : Options) : Options :=
  mkOptions (shardCount o) (maxSize o) ttl (evictionPolicy o) (o_rehasher o) (o_observer o).
Definition WithEvictionPolicy (name : string) (o : Options) : Options :=
  mkOptions (shardCount o) (maxSize o) (defaultTTL o) name (o_rehasher o) (o_observer o).
Definition WithObserver (obs : option nat) (o : Options) : Options :=
  mkOptions (shardCount o) (maxSize o) (defaultTTL o) (evictionPolicy o) (o_rehasher o) obs.
Definition WithRehasher (name : string) (o : Options) : Options :=
  mkOptions (shardCount o) (maxSize o) (defaultTTL o) (evictionPolicy o) name (o_observer o).

(** ** The state *)

(** The calls an observer receives. *)
Inductive event : Type :=
| OnHit (key : string)
| OnMiss (key : string)
| OnSet (key : string)
| OnDel (key : string)
| OnEvict (key : string)
| OnRehashStart (oldShards newShards : Z)
| OnRehashDone.

#[global] Instance event_eq_dec : EqDecision event.
Proof. solve_decision. Defined.

(** [observer] names the observer installed, [0] the no-op one; [trace] holds the
    calls observers received, the latest last. *)
Record Cache (P : Type) : Type := mkCache {
  table : list (shard P);
  mask : Z;
  opts : Options;
  closed : bool;
  rehasher : Rehasher (shard P);
  policyName : string;
  policyFactory : P;
  perShardMax : Z;
  observer : nat;
  trace : list (nat * event);
}.
Arguments mkCache {_} _ _ _ _ _ _ _ _ _ _.
Arguments table {_} _.
Arguments mask {_} _.
Arguments opts {_} _.
Arguments closed {_} _.
Arguments rehasher {_} _.
Arguments policyName {_} _.
Arguments policyFactory {_} _.
Arguments perShardMax {_} _.
Arguments observer {_} _.
Arguments trace {_} _.

(** A shard's share of [maxSize]. *)
Definition shard_max (maxSize shardCount : Z) : Z :=
  if maxSize >? 0 then
    let perShardMax := maxSize ÷ shardCount in
    if perShardMax <? 1 then 1 else perShardMax
  else 0.

Section Cache.
Context `{MI : MapIter} `{EP : EvictionPolicy P}.
Notation shard := (shard P).
Notation Cache := (Cache P).

Definition with_table (l : list shard) (c : Cache) : Cache :=
  mkCache l (mask c) (opts c) (closed c) (rehasher c) (policyName c) (policyFactory c)
    (perShardMax c) (observer c) (trace c).
Definition with_rehasher (r : Rehasher shard) (c : Cache) : Cache :=
  mkCache (table c) (mask c) (opts c) (closed c) r (policyName c) (policyFactory c)
    (perShardMax c) (observer c) (trace c).
Definition emit (e : event) (c : Cache) : Cache :=
  mkCache (table c) (mask c) (opts c) (closed c) (rehasher c) (policyName c) (policyFactory c)
    (perShardMax c) (observer c) (trace c ++ [(observer c, e)]).

Definition New (policies : registry P) (rehashers : gmap string (Rehasher shard)) (o : Options) :
    result error Cache :=
  if bad_shard_count (shardCount o) then Err ErrInvalidShards
  else
    let o := if maxSize o <? 0 then WithMaxSize 0 o else o in
    if defaultTTL o <? 0 then Err ErrNegativeTTL
    else
      let o := if decide (evictionPolicy o = EmptyString) then WithEvictionPolicy "noop" o else o in
      factory ← getPolicyFactory (evictionPolicy o) policies;
      let o := if decide (o_rehasher o = EmptyString) then WithRehasher "incremental" o else o in
      rFactory ← GetFactory (o_rehasher o) rehashers;
      let perShardMax := shard_max (maxSize o) (shardCount o) in
      let obs := default 0%nat (o_observer o) in
      mret (mkCache (replicate (Z.to_nat (shardCount o)) (newShard factory perShardMax))
              (wrapU 32 (shardCount o - 1)) o false rFactory (evictionPolicy o) factory
              perShardMax obs []).

Definition validateOpen (c : Cache) : option error :=
  if closed c then Some ErrCacheClosed else None.

(** A nil value is [None]. *)
Definition validateKeyValue (key : string) (value : option bytes) : option error :=
  if decide (key = EmptyString) then Some ErrKeyEmpty
  else match value with None => Some ErrValueNil | Some _ => None end.

Definition shardIndex (c : Cache) (key : string) : Z := shardIndexFor key (mask c).

Definition getShard (c : Cache) (key : string) : outcome shard :=
  deref (table c !! Z.to_nat (shardIndex c key)).

Definition put_shard (key : string) (s : shard) (c : Cache) : Cache :=
  with_table (<[Z.to_nat (shardIndex c key) := s]> (table c)) c.

(** An operation on the shard of [key]. *)
Definition on_shard {A} (key : string) (f : shard -> outcome (A * shard)) (c : Cache) : outcome (A * Cache) :=
  s ← getShard c key;
  '(a, s') ← f s;
  mret (a, put_shard key s' c).

(** [for _, s := range shards { ... }] with an accumulator. *)
Fixpoint each_shard {A} (f : shard -> A -> outcome (A * shard)) (l : list shard) (a : A) :
    outcome (A * list shard) :=
  match l with
  | [] => Ret (a, [])
  | s :: l =>
      '(a, s') ← f s a;
      '(a, l') ← each_shard f l a;
      mret (a, s' :: l')
  end.

(** ** Rehash steps on the hot path *)

(** [table := c.loadShardTable(); _, justCompleted := c.rehasher.Step(...)] and the
    event that ends a rehash. *)
Definition do_step (now : Z) (c : Cache) : outcome Cache :=
  '(_, justCompleted, l, r) ← Step now (table c) (shardIndex c) (rehasher c);
  let c := with_rehasher r (with_table l c) in
  mret (if (justCompleted : bool) then emit OnRehashDone c else c).

Definition step_if_rehashing (now : Z) (c : Cache) : outcome Cache :=
  if IsRehashing (rehasher c) then do_step now c else Ret c.

(** [if oldShard := c.rehasher.OldShard(key); oldShard != nil { oldShard.Del(key) }]. *)
Definition del_old (key : string) (c : Cache) : outcome Cache :=
  o ← OldShard key (rehasher c);
  match o with
  | None => Ret c
  | Some (i, s) =>
      s' ← Del key s;
      mret (with_rehasher (set_old (<[i := s']> (OldShards (rehasher c))) (rehasher c)) c)
  end.

(** ** String operations *)

(** [ttl = None]: the argument is omitted. *)
Definition Set_ (now : Z) (key : string) (value : option bytes) (ttl : option Z) (c : Cache) :
    outcome (option error * Cache) :=
  match validateOpen c with
  | Some e => Ret (Some e, c)
  | None =>
      match validateKeyValue key value, value with
      | Some e, _ => Ret (Some e, c)
      | None, None => Ret (Some ErrValueNil, c)
      | None, Some value =>
          let d := match ttl with Some t => Z.max t 0 | None => defaultTTL (opts c) end in
          '(evicted, c) ← on_shard key (Shard.Set_ now key value d) c;
          let c := emit (OnSet key) c in
          let c := foldl (fun c ek => emit (OnEvict ek) c) c evicted in
          if IsRehashing (rehasher c) then
            c ← del_old key c;
            c ← do_step now c;
            mret (None, c)
          else Ret (None, c)
      end
  end.

(** [get(key)] on the old shard of [key], if there is one. *)
Definition get_old (now : Z) (key : string) (c : Cache) : outcome (option bytes * Cache) :=
  o ← OldShard key (rehasher c);
  match o with
  | None => Ret (None, c)
  | Some (i, s) =>
      '(v, s') ← get now key s;
      mret (v, with_rehasher (set_old (<[i := s']> (OldShards (rehasher c))) (rehasher c)) c)
  end.

Definition Get (now : Z) (key : string) (c : Cache) : outcome (result error bytes * Cache) :=
  match validateOpen c with
  | Some e => Ret (Err e, c)
  | None =>
      if decide (key = EmptyString) then Ret (Err ErrKeyEmpty, c)
      else
        '(val, c) ← on_shard key (get now key) c;
        match val with
        | Some v =>
            let c := emit (OnHit key) c in
            c ← step_if_rehashing now c;
            mret (Ok v, c)
        | None =>
            '(val, c) ← (if IsRehashing (rehasher c) then get_old now key c else Ret (None, c));
            match val with
            | Some v =>
                let c := emit (OnHit key) c in
                c ← do_step now c;
                mret (Ok v, c)
            | None =>
                let c := emit (OnMiss key) c in
                c ← step_if_rehashing now c;
                mret (Err ErrKeyNotFound, c)
            end
        end
  end.

Definition Del (now : Z) (key : string) (c : Cache) : outcome (option error * Cache) :=
  match validateOpen c with
  | Some e => Ret (Some e, c)
  | None =>
      if decide (key = EmptyString) then Ret (Some ErrKeyEmpty, c)
      else
        '(_, c) ← on_shard key (fun s => s' ← Shard.Del key s; mret (tt, s')) c;
        let c := emit (OnDel key) c in
        if IsRehashing (rehasher c) then
          c ← del_old key c;
          c ← do_step now c;
          mret (None, c)
        else Ret (None, c)
  end.

(** ** The whole cache *)

Definition Len (now : Z) (c : Cache) : outcome Z :=
  if closed c then Ret 0
  else
    let add s total := n ← Shard.Len now s; mret (total + n, s) in
    '(total, _) ← each_shard add (table c) 0;
    '(total, _) ← each_shard add (OldShards (rehasher c)) total;
    mret total.

Definition ShardCount (c : Cache) : Z := if closed c then 0 else Z.of_nat (length (table c)).

Definition Close (c : Cache) : option error * Cache :=
  if closed c then (Some ErrCacheClosed, c)
  else
    (None, mkCache [] 0 (opts c) true (Stop (rehasher c)) (policyName c) (policyFactory c)
             (perShardMax c) (observer c) (trace c)).

Definition SetObserver (obs : option nat) (c : Cache) : Cache :=
  mkCache (table c) (mask c) (opts c) (closed c) (rehasher c) (policyName c) (policyFactory c)
    (perShardMax c) (default 0%nat obs) (trace c).

Definition Cleanup (now : Z) (c : Cache) : outcome (Z * Cache) :=
  if closed c then Ret (0, c)
  else
    let add s total := '(n, s') ← cleanup now s; mret (total + n, s') in
    '(total, l) ← each_shard add (table c) 0;
    '(total, old) ← each_shard add (OldShards (rehasher c)) total;
    mret (total, with_rehasher (set_old old (rehasher c)) (with_table l c)).

Definition SetEvictionPolicy (policies : registry P) (name : string) (c : Cache) :
    outcome (option error * Cache) :=
  match getPolicyFactory name policies with
  | Err e => Ret (Some e, c)
  | Ok factory =>
      match validateOpen c with
      | Some e => Ret (Some e, c)
      | None =>
          let swap s (_ : unit) := s' ← swapPolicy factory s; mret (tt, s') in
          '(_, l) ← each_shard swap (table c) tt;
          '(_, old) ← each_shard swap (OldShards (rehasher c)) tt;
          mret (None, mkCache l (mask c) (opts c) (closed c) (set_old old (rehasher c)) name factory
                        (perShardMax c) (observer c) (trace c))
      end
  end.

Definition SetRehasher (rehashers : gmap string (Rehasher shard)) (name : string) (c : Cache) :
    option error * Cache :=
  match GetFactory name rehashers with
  | Err e => (Some e, c)
  | Ok factory =>
      match validateOpen c with
      | Some e => (Some e, c)
      | None => (None, with_rehasher factory c)
      end
  end.

Definition RehasherName (c : Cache) : string := Rehash.Name (rehasher c).
Definition EvictionPolicyName (c : Cache) : string := policyName c.

Definition Resize (shardCount : Z) (c : Cache) : option error * Cache :=
  match validateOpen c with
  | Some e => (Some e, c)
  | None =>
      if bad_shard_count shardCount then (Some ErrInvalidShards, c)
      else if IsRehashing (rehasher c) then (Some (ErrMsg "rehash already in progress"), c)
      else
        let perShardMax := shard_max (maxSize (opts c)) shardCount in
        let c' := emit (OnRehashStart (Z.of_nat (length (table c))) shardCount) c in
        (None,
         mkCache (replicate (Z.to_nat shardCount) (newShard (policyFactory c) perShardMax))
           (wrapU 32 (shardCount - 1)) (opts c) (closed c)
           (Start (table c) (mask c) (rehasher c)) (policyName c) (policyFactory c)
           (Cache.perShardMax c) (observer c) (trace c'))
  end.

End Cache.
