(* ===== verification/CacheSpec.v ===== *)
(** * The cache refines a map with deadlines

    The invariant of a cache, what each operation on strings does to its contents
    seen as one map (through both tables during a rehash), and the refinement of
    any run of operations to the abstract map. *)

From Stdlib Require Import Strings.Byte.
From stdpp Require Import base tactics numbers list gmap sets fin_maps strings.
From S2P Require Import Prelude.
From S2P Require Import Policy.
From S2P Require Import Policies.
From S2P Require Import Hashing.
From S2P Require Import Shard.
From S2P Require Import Rehash.
From S2P Require Import Cache.

(** ** Contents and invariant *)

(** An entry is what it was, or gone: evicted, or past its deadline. *)
Definition raw_kept (unlimited : Prop) (now : Z) (o' o : option cacheEntry) : Prop :=
  o' = o \/ (o' = None /\ (~ unlimited \/ exists e, o = Some e /\ isExpired now e = true)).

Section Spec.
Context `{MI : MapIter} `{EP : EvictionPolicy P} `{PL : !PolicyLaws P}.
Notation shard := (shard P).
Notation Cache := (Cache P).

(** The entry a key has in the cache. *)
Definition view (c : Cache) (k : string) : option cacheEntry :=
  comb (shardIndex c) (table c) (rehasher c) k.

(** No size limit. *)
Definition unlimited (c : Cache) : Prop := maxSize (opts c) <= 0.

Record cache_ok (c : Cache) : Prop := {
  co_open : closed c = false;
  co_table : table_ok (shardIndex c) (table c);
  co_unl : unlimited c -> Forall rs_unlimited (table c);
  co_rehash : rehash_ok (shardIndex c) (table c) (rehasher c);
  co_deadline k e : view c k = Some e -> deadline_ok e;
  co_factory : fresh_policy (policyFactory c);
}.

(** Every shard uses its eight sub-shards: a resize can extract from them. *)
Definition resizable (c : Cache) : Prop := Forall rs_full (table c).

(** What the hot path does not change. *)
Record same_config (c c' : Cache) : Prop := {
  sc_mask : mask c' = mask c;
  sc_opts : opts c' = opts c;
  sc_closed : closed c' = closed c;
  sc_factory : policyFactory c' = policyFactory c;
  sc_frame : Forall2 rs_frame (table c) (table c');
  sc_kind : rehasher c <> RNoop -> rehasher c' <> RNoop;
}.

(** ** Lemmas: [raw_kept] *)

Lemma raw_kept_refl u now o : raw_kept u now o o.
Proof. by left. Qed.

Lemma raw_kept_trans u now o1 o2 o3 : raw_kept u now o2 o1 -> raw_kept u now o3 o2 -> raw_kept u now o3 o1.
Proof. intros [->|[-> H1]] [->|[-> H2]]; [by left|by right|by right|by right]. Qed.

Lemma dead_expired now e : dead now e = true -> isExpired now e = true.
Proof.
  unfold dead, isExpired. intros [H1 H2]%andb_prop. destruct (Z.eqb_spec (expiresAt e) 0); [lia|done].
Qed.

Lemma step_raw_kept (u u' : Prop) now o' o : (u -> u') -> step_kept now u' o' o -> raw_kept u now o' o.
Proof.
  intros Hu [->|[-> [Hn|(e & He & Hd)]]]; [by left|right; split; [done|left; tauto]|].
  right. split; [done|]. right. exists e. split; [done|]. by apply dead_expired.
Qed.

Lemma isExpired_mono now t e : now <= t -> isExpired now e = true -> isExpired t e = true.
Proof. unfold isExpired. destruct (expiresAt e =? 0); [done|]. lia. Qed.

(** What a reader sees from [now] on. *)
Lemma raw_kept_live u now t o' o :
  now <= t -> raw_kept u now o' o ->
  o' ≫= keep_live t = o ≫= keep_live t \/ (~ u /\ o' ≫= keep_live t = None).
Proof.
  intros Ht [->|[-> [Hn|(e & -> & He)]]]; [by left|by right|].
  left. simpl. unfold keep_live. by rewrite (isExpired_mono now t e Ht He).
Qed.

Lemma raw_kept_deadline u now o' o :
  raw_kept u now o' o -> (forall e, o = Some e -> deadline_ok e) -> forall e, o' = Some e -> deadline_ok e.
Proof. intros [->|[-> _]] H e He; [by apply H|done]. Qed.

(** ** Lemmas: configuration *)

Lemma same_config_refl c : same_config c c.
Proof. split; try done; apply frame_refl. Qed.

Lemma same_config_trans c1 c2 c3 : same_config c1 c2 -> same_config c2 c3 -> same_config c1 c3.
Proof. intros [] []. split; try congruence; [by eapply frame_trans|auto]. Qed.

Lemma same_config_index c c' k : same_config c c' -> shardIndex c' k = shardIndex c k.
Proof. intros []. unfold shardIndex. congruence. Qed.

Lemma emit_ok e c : cache_ok c -> cache_ok (emit e c).
Proof. intros []. by split. Qed.

Lemma emit_config e c : same_config c (emit e c).
Proof. split; try done; apply frame_refl. Qed.

Lemma emit_all_ok evs c :
  cache_ok c -> cache_ok (foldl (fun c ek => emit (OnEvict ek) c) c evs) /\
  same_config c (foldl (fun c ek => emit (OnEvict ek) c) c evs) /\
  rehasher (foldl (fun c ek => emit (OnEvict ek) c) c evs) = rehasher c /\
  forall k, view (foldl (fun c ek => emit (OnEvict ek) c) c evs) k = view c k.
Proof.
  revert c. induction evs as [|e evs IH]; intros c Hok; simpl; [split_and!; try done; apply same_config_refl|].
  destruct (IH (emit (OnEvict e) c) (emit_ok _ _ Hok)) as (? & Hs & ? & Hv).
  split_and!; [done| |done|exact Hv]. eapply same_config_trans; [apply emit_config|done].
Qed.

(** ** Lemmas: one rehash step *)

Lemma Step_kind now l idx (r : Rehasher shard) d j l' r' :
  r <> RNoop -> Step now l idx r ⇓ (d, j, l', r') -> r' <> RNoop.
Proof.
  intros Hr. destruct r as [r|r|]; [| |done]; cbn [Step].
  - destruct (inc_Step now l idx r) as [[[[? ?] ?] ?]| |]; [|done|done]. by intros [= <- <- <- <-].
  - destruct (bat_Step now l idx r) as [[[[? ?] ?] ?]| |]; [|done|done]. by intros [= <- <- <- <-].
Qed.

Lemma set_old_kind old (r : Rehasher shard) : r <> RNoop -> set_old old r <> RNoop.
Proof. by destruct r. Qed.

Lemma do_step_ok now c :
  0 <= now -> cache_ok c ->
  exists c', do_step now c ⇓ c' /\ cache_ok c' /\ same_config c c' /\
    (forall k, raw_kept (unlimited c) now (view c' k) (view c k)) /\
    (IsRehashing (rehasher c) = true -> (todo (rehasher c') < todo (rehasher c))%nat).
Proof.
  intros Hnow Hok.
  assert (forall k e, old_tbl (rehasher c) k = Some e -> deadline_ok e) as Hdl.
  { intros k e He. apply (co_deadline c Hok k). unfold view, comb.
    rewrite (ro_apart _ _ _ (co_rehash c Hok) k) by eauto. by or_else. }
  destruct (Step_spec now (shardIndex c) Hnow (table c) (rehasher c) (co_table c Hok) (co_rehash c Hok) Hdl)
    as (d & j & l' & r' & Hs & HS).
  assert (forall k, raw_kept (unlimited c) now (comb (shardIndex c) l' r' k) (view c k)) as Hkept.
  { intros k. eapply step_raw_kept; [|apply (st_kept _ _ _ _ _ _ _ _ HS)]. apply co_unl, Hok. }
  set (c1 := with_rehasher r' (with_table l' c)).
  assert (cache_ok c1) as Hok1.
  { split; [apply Hok|apply HS| |apply HS| |apply Hok].
    - intros Hu. exact (frame_unlimited _ _ (st_frame _ _ _ _ _ _ _ _ HS) (co_unl c Hok Hu)).
    - intros k. eapply raw_kept_deadline; [exact (Hkept k)|]. by apply co_deadline. }
  assert (same_config c c1) as Hsc by (split; try done; [apply HS|intros Hkd; by eapply Step_kind]).
  unfold do_step. rewrite Hs. cbn [mbind outcome_bind mret outcome_ret]. fold c1.
  exists (if j then emit OnRehashDone c1 else c1).
  split_and!; [done|by destruct j; [apply emit_ok|]| |by destruct j; exact Hkept|].
  - destruct j; [|done]. eapply same_config_trans; [done|apply emit_config].
  - intros Hr. by destruct j; apply (st_todo _ _ _ _ _ _ _ _ HS).
Qed.

Lemma step_if_rehashing_ok now c :
  0 <= now -> cache_ok c ->
  exists c', step_if_rehashing now c ⇓ c' /\ cache_ok c' /\ same_config c c' /\
    (forall k, raw_kept (unlimited c) now (view c' k) (view c k)) /\
    (IsRehashing (rehasher c) = true -> (todo (rehasher c') < todo (rehasher c))%nat) /\
    (IsRehashing (rehasher c) = false -> rehasher c' = rehasher c).
Proof.
  intros Hnow Hok. unfold step_if_rehashing. destruct (IsRehashing (rehasher c)) eqn:Hr.
  - destruct (do_step_ok now c Hnow Hok) as (c' & ? & ? & ? & ? & Ht). exists c'. rewrite Hr in Ht. by split_and!.
  - exists c. split_and!; try done; auto using same_config_refl, raw_kept_refl.
Qed.

(** ** Lemmas: operations on the shard of a key *)

Lemma on_shard_ok {A} key (f : shard -> outcome (A * shard)) c (R : shard -> A -> shard -> Prop) :
  cache_ok c ->
  (forall s, shard_ok s -> exists a s', f s ⇓ (a, s') /\ R s a s' /\ shard_ok s' /\ shard_frame s s' /\
     forall k, is_Some (shard_entries s' !! k) -> k = key \/ is_Some (shard_entries s !! k)) ->
  exists a s s', on_shard key f c ⇓ (a, put_shard key s' c) /\ R s a s' /\ s ∈ table c /\
    table_ok (shardIndex c) (table (put_shard key s' c)) /\
    Forall2 rs_frame (table c) (table (put_shard key s' c)) /\
    tbl (shardIndex c) (table c) key = shard_entries s !! key /\
    (forall k, is_Some (shard_entries s !! k) -> tbl (shardIndex c) (table c) k = shard_entries s !! k) /\
    forall k, (tbl (shardIndex c) (table (put_shard key s' c)) k = tbl (shardIndex c) (table c) k /\
               shard_entries s !! k = None /\ k <> key) \/
              (tbl (shardIndex c) (table (put_shard key s' c)) k = shard_entries s' !! k /\
               tbl (shardIndex c) (table c) k = shard_entries s !! k).
Proof.
  intros Hok Hf. destruct (table_shard _ _ key (co_table c Hok)) as (s & Hs & Hsok).
  destruct (Hf s Hsok) as (a & s' & Hfs & HR & Hsok' & Hfr & Hdom).
  destruct (table_update (shardIndex c) (table c) _ s s' (co_table c Hok) Hs Hsok') as [Hok' Htbl].
  { intros k Hk. destruct (Hdom k Hk) as [->|]; auto. }
  exists a, s, s'. split_and!.
  - unfold on_shard, getShard. rewrite Hs. cbn. rewrite Hfs. done.
  - done.
  - by eapply list_elem_of_lookup_2.
  - exact Hok'.
  - by eapply frame_insert.
  - unfold tbl. by rewrite Hs.
  - intros k Hk. exact (tbl_at _ _ _ s k (co_table c Hok) Hs Hk).
  - intros k. rewrite (Htbl k : tbl (shardIndex c) (table (put_shard key s' c)) k = _). case_decide as Hk.
    + right. split; [done|]. unfold tbl. by rewrite Hk, Hs.
    + left. split_and!; [done| |congruence]. apply eq_None_not_Some. intros Hx.
      by apply Hk, (to_keys _ _ (co_table c Hok) _ s).
Qed.

(** A cache whose tables are sound again. *)
Lemma cache_ok_intro c c' :
  cache_ok c -> same_config c c' -> table_ok (shardIndex c) (table c') ->
  rehash_ok (shardIndex c) (table c') (rehasher c') ->
  (forall k e, view c' k = Some e -> deadline_ok e) -> cache_ok c'.
Proof.
  intros Hok Hsc Ht Hr Hd.
  assert (forall k, shardIndex c' k = shardIndex c k) as Hix by (intros k; by apply same_config_index).
  destruct Hsc as [_ Hopts Hcl Hfac Hfr _]. split.
  - rewrite Hcl. apply Hok.
  - destruct Ht as [H1 H2 H3]. split; [by intros; rewrite Hix|done|by intros; rewrite Hix; eapply H3].
  - unfold unlimited. rewrite Hopts. intros Hu. eapply frame_unlimited; [done|by apply co_unl].
  - destruct Hr as [H1 H2 H3 H4]. split; [done|done| |done]. intros k Hk. unfold tbl. rewrite Hix. by apply H3.
  - done.
  - rewrite Hfac. apply Hok.
Qed.

Lemma view_config c c' k :
  same_config c c' -> view c' k = tbl (shardIndex c) (table c') k ∪ old_tbl (rehasher c') k.
Proof. intros Hsc. unfold view, comb, tbl. by rewrite (same_config_index c c' k Hsc). Qed.

Lemma put_shard_config key s c :
  Forall2 rs_frame (table c) (table (put_shard key s c)) -> same_config c (put_shard key s c).
Proof. by split. Qed.

Lemma rehash_ok_idle idx l l' (r : Rehasher shard) :
  IsRehashing r = false -> rehash_ok idx l r -> rehash_ok idx l' r.
Proof.
  intros Hr [H1 H2 _ H4]. split; [done|done| |done]. intros k. rewrite old_tbl_idle by done. by intros [].
Qed.

(** A state between the write to the new table and the end of an operation. *)
Record written (key : string) (c c1 : Cache) : Prop := {
  wr_config : same_config c c1;
  wr_rehasher : rehasher c1 = rehasher c;
  wr_table : table_ok (shardIndex c) (table c1);
  wr_others k : k <> key -> is_Some (tbl (shardIndex c) (table c1) k) ->
    is_Some (tbl (shardIndex c) (table c) k);
}.

Lemma written_emit key c c1 e : written key c c1 -> written key c (emit e c1).
Proof. intros [Hsc]. split; try done. eapply same_config_trans; [done|apply emit_config]. Qed.

Lemma written_emits key c c1 evs :
  written key c c1 -> written key c (foldl (fun c ek => emit (OnEvict ek) c) c1 evs) /\
  table (foldl (fun c ek => emit (OnEvict ek) c) c1 evs) = table c1.
Proof.
  revert c1. induction evs as [|e evs IH]; intros c1 Hw; [done|]. simpl.
  destruct (IH (emit (OnEvict e) c1)) as [? ->]; [by apply written_emit|done].
Qed.

(** Deleting the key from its old shard makes the tables disjoint again. *)
Lemma del_old_ok key c c1 :
  cache_ok c -> written key c c1 -> IsRehashing (rehasher c) = true ->
  exists c2, del_old key c1 ⇓ c2 /\ same_config c c2 /\ table c2 = table c1 /\
    rehash_ok (shardIndex c) (table c2) (rehasher c2) /\ IsRehashing (rehasher c2) = true /\
    (forall k, old_tbl (rehasher c2) k = if decide (k = key) then None else old_tbl (rehasher c) k) /\
    (todo (rehasher c2) <= todo (rehasher c))%nat.
Proof.
  intros Hok Hw Hr. pose proof (co_rehash c Hok) as Hro.
  destruct (OldShard_ok _ _ _ key Hro Hr) as (s & Hold & Hs & Hsok & Hat).
  destruct (rs_del_law key s Hsok) as (s' & Hdel & Hsok' & Hfr & Hent).
  destruct (set_old_ok _ _ _ _ s s' Hro Hr Hs Hsok' Hfr) as (Hr' & Hoi & Hot' & Hof' & Hinc' & Htbl' & Htodo).
  { intros k. rewrite Hent, lookup_delete_is_Some. tauto. }
  set (r' := set_old _ (rehasher c)) in *.
  assert (forall k, old_tbl r' k = if decide (k = key) then None else old_tbl (rehasher c) k) as Hold'.
  { intros k. rewrite Htbl', Hent, lookup_delete. destruct (decide (k = key)) as [->|Hk].
    - by rewrite !decide_True.
    - rewrite (decide_False (P := key = k)) by done. case_decide as Hi; [|done]. by rewrite (Hat k Hi). }
  exists (with_rehasher r' c1). split_and!; try done.
  - unfold del_old. rewrite (wr_rehasher _ _ _ Hw), Hold. cbn [mbind outcome_bind].
    change (Shard.Del key s) with (rs_Del key s). by rewrite Hdel.
  - destruct (wr_config _ _ _ Hw). split; try done. intros Hkd. by apply set_old_kind.
  - split; [done|done| |done]. intros k. rewrite Hold'. case_decide as Hk; [by intros []|]. intros Hx.
    apply eq_None_not_Some. intros Hy%(wr_others _ _ _ Hw); [|done].
    rewrite (ro_apart _ _ _ Hro k Hx) in Hy. by destruct Hy.
Qed.

(** The end of [Set] and [Del]. *)
Lemma finish_write now key c c1 (new : option cacheEntry) :
  0 <= now -> cache_ok c -> written key c c1 ->
  (forall e, new = Some e -> deadline_ok e) ->
  (forall k, raw_kept (unlimited c) now (tbl (shardIndex c) (table c1) k)
     (if decide (k = key) then new else tbl (shardIndex c) (table c) k)) ->
  exists c', (if IsRehashing (rehasher c1) then
                c ← del_old key c1; c ← do_step now c; mret (@None error, c)
              else Ret (None, c1)) ⇓ (None, c') /\ cache_ok c' /\ same_config c c' /\
    (forall k, raw_kept (unlimited c) now (view c' k) (if decide (k = key) then new else view c k)) /\
    (IsRehashing (rehasher c) = true -> (todo (rehasher c') < todo (rehasher c))%nat) /\
    (IsRehashing (rehasher c) = false -> rehasher c' = rehasher c).
Proof.
  intros Hnow Hok Hw Hnew Hk1. rewrite (wr_rehasher _ _ _ Hw).
  assert (forall c2, same_config c c2 -> table c2 = table c1 ->
    (forall k, old_tbl (rehasher c2) k = if decide (k = key) then None else old_tbl (rehasher c) k) ->
    forall k, raw_kept (unlimited c) now (view c2 k) (if decide (k = key) then new else view c k)) as Hview.
  { intros c2 Hsc Ht Hold k. rewrite (view_config c c2 k Hsc), Ht, Hold. specialize (Hk1 k).
    case_decide as Hk; [by or_else|]. unfold view, comb.
    destruct (tbl (shardIndex c) (table c) k) as [e|] eqn:He.
    - assert (old_tbl (rehasher c) k = None) as ->; [|by or_else].
      apply eq_None_not_Some. intros Hx. rewrite (ro_apart _ _ _ (co_rehash c Hok) k Hx) in He. done.
    - destruct Hk1 as [->|[-> _]]; by left. }
  assert (forall c2, (forall k, raw_kept (unlimited c) now (view c2 k) (if decide (k = key) then new else view c k)) ->
    forall k e, view c2 k = Some e -> deadline_ok e) as Hdl.
  { intros c2 Hv k. eapply raw_kept_deadline; [apply Hv|]. case_decide; [done|]. by apply co_deadline. }
  destruct (IsRehashing (rehasher c)) eqn:Hr.
  - destruct (del_old_ok key c c1 Hok Hw Hr) as (c2 & -> & Hsc & Ht & Hro & Hr2 & Hold & Htodo).
    specialize (Hview c2 Hsc Ht Hold).
    assert (cache_ok c2) as Hok2.
    { eapply cache_ok_intro; [done|done|rewrite Ht; apply Hw|done|by apply Hdl]. }
    destruct (do_step_ok now c2 Hnow Hok2) as (c3 & Hs & Hok3 & Hsc3 & Hk3 & Htodo3).
    cbn [mbind outcome_bind]. rewrite Hs. exists c3. split_and!; [done|done|by eapply same_config_trans| | |done].
    + intros k. eapply raw_kept_trans; [apply Hview|].
      replace (unlimited c) with (unlimited c2) by (unfold unlimited; by rewrite (sc_opts _ _ Hsc)). apply Hk3.
    + intros _. specialize (Htodo3 Hr2). lia.
  - exists c1. assert (forall k, raw_kept (unlimited c) now (view c1 k) (if decide (k = key) then new else view c k)) as Hv.
    { apply Hview; [apply Hw|done|]. intros k. rewrite (wr_rehasher _ _ _ Hw), old_tbl_idle by done. by case_decide. }
    split_and!; [done| |apply Hw|done|done|intros _; apply Hw].
    eapply cache_ok_intro; [done|apply Hw|apply Hw| |by apply Hdl].
    rewrite (wr_rehasher _ _ _ Hw). eapply rehash_ok_idle; [done|apply Hok].
Qed.

(** ** The operations on strings *)

Lemma newEntry_deadline now v d : 0 <= now -> now + d <= max_int64 -> deadline_ok (newEntry now v d).
Proof.
  intros Hnow Hd. unfold deadline_ok, newEntry. simpl. destruct (Z.gtb_spec d 0); [|unfold max_int64; lia].
  rewrite int64_id; [lia|]. unfold in_int64, min_int64, max_int64 in *. lia.
Qed.

(** The time to live a [Set] uses. *)
Definition effective_ttl (ttl : option Z) (c : Cache) : Z :=
  match ttl with Some t => Z.max t 0 | None => defaultTTL (opts c) end.

(** What [Set], [Get] and [Del] have in common: a sound cache again, and a rehash
    one step closer to its end. *)
Definition advances (c c' : Cache) : Prop :=
  cache_ok c' /\ same_config c c' /\
  (IsRehashing (rehasher c) = true -> (todo (rehasher c') < todo (rehasher c))%nat) /\
  (IsRehashing (rehasher c) = false -> rehasher c' = rehasher c).

Lemma Set_ok now key v ttl c :
  0 <= now -> cache_ok c -> key <> EmptyString -> now + effective_ttl ttl c <= max_int64 ->
  exists c', Cache.Set_ now key (Some v) ttl c ⇓ (None, c') /\ advances c c' /\
    forall k, raw_kept (unlimited c) now (view c' k)
      (if decide (k = key) then Some (newEntry now v (effective_ttl ttl c)) else view c k).
Proof.
  intros Hnow Hok Hkey Httl. unfold Cache.Set_, validateOpen, validateKeyValue.
  rewrite (co_open c Hok), decide_False by done. set (d := effective_ttl ttl c) in *.
  change (match ttl with Some t => Z.max t 0 | None => defaultTTL (opts c) end) with d.
  destruct (on_shard_ok key (Shard.Set_ now key v d) c (set_result now key v d) Hok) as
    (ev & s & s' & -> & HR & Hin & Ht1 & Hf1 & _ & Hat & Hk1).
  { intros s Hs. destruct (Shard.Set_spec now key v d s Hs) as (ev & s' & Hset & HS).
    destruct (sr_frame _ _ _ _ _ _ _ HS) as (? & ? & _).
    exists ev, s'. split; [done|]. split; [done|]. split; [apply HS|]. split; [split_and!; [done|done|apply HS]|].
    intros k. rewrite (sr_entries _ _ _ _ _ _ _ HS). case_decide; [by intros []|]. case_decide; auto. }
  cbn [mbind outcome_bind]. set (c1 := put_shard key s' c) in *.
  assert (forall k, raw_kept (unlimited c) now (tbl (shardIndex c) (table c1) k)
     (if decide (k = key) then Some (newEntry now v d) else tbl (shardIndex c) (table c) k)) as Hraw.
  { intros k. destruct (Hk1 k) as [(-> & _ & Hne)|[-> Hold]]; [left; by rewrite decide_False|].
    rewrite (sr_entries _ _ _ _ _ _ _ HR). destruct (decide (k ∈ ev)) as [Hev|]; [|by rewrite Hold; left].
    right. split; [done|]. left. intros Hu. enough (ev = []) as -> by (by apply not_elem_of_nil in Hev).
    apply (sr_unlimited _ _ _ _ _ _ _ HR). exact (proj1 (Forall_forall _ _) (co_unl c Hok Hu) s Hin). }
  assert (written key c c1) as Hw.
  { split; [by apply put_shard_config|done|done|]. intros k Hne Hx. specialize (Hraw k).
    rewrite decide_False in Hraw by done. destruct Hraw as [<-|[Hn _]]; [done|]. rewrite Hn in Hx. by destruct Hx. }
  apply (written_emit _ _ _ (OnSet key)) in Hw. destruct (written_emits _ _ _ ev Hw) as [Hw2 Ht2].
  destruct (finish_write now key c _ (Some (newEntry now v d)) Hnow Hok Hw2) as (c' & Hfin & Hok' & Hsc & Hv & Htodo & Hidle).
  { intros e [= <-]. by apply newEntry_deadline. }
  { rewrite Ht2. exact Hraw. }
  exists c'. split; [exact Hfin|]. split; [by split_and!|exact Hv].
Qed.

Lemma Del_ok now key c :
  0 <= now -> cache_ok c -> key <> EmptyString ->
  exists c', Cache.Del now key c ⇓ (None, c') /\ advances c c' /\
    forall k, raw_kept (unlimited c) now (view c' k) (if decide (k = key) then None else view c k).
Proof.
  intros Hnow Hok Hkey. unfold Cache.Del, validateOpen. rewrite (co_open c Hok), decide_False by done.
  destruct (on_shard_ok key (fun s => s' ← Shard.Del key s; mret (tt, s')) c
    (fun s _ s' => shard_entries s' = delete key (shard_entries s)) Hok) as
    (ev & s & s' & -> & HR & Hin & Ht1 & Hf1 & _ & Hat & Hk1).
  { intros s Hs. destruct (Shard.Del_spec key s Hs) as (s' & Hdel & ? & ? & Hent & ? & ? & _).
    exists tt, s'. rewrite Hdel. split; [done|]. split; [done|]. split; [done|]. split; [by split_and!|].
    intros k. rewrite Hent, lookup_delete_is_Some. tauto. }
  cbn [mbind outcome_bind]. set (c1 := put_shard key s' c) in *.
  assert (forall k, tbl (shardIndex c) (table c1) k =
     if decide (k = key) then None else tbl (shardIndex c) (table c) k) as Hraw.
  { intros k. destruct (Hk1 k) as [(-> & _ & Hne)|[-> ->]]; [by rewrite decide_False|].
    rewrite HR, lookup_delete. repeat case_decide; congruence. }
  assert (written key c c1) as Hw.
  { split; [by apply put_shard_config|done|done|]. intros k Hne. by rewrite Hraw, decide_False. }
  apply (written_emit _ _ _ (OnDel key)) in Hw.
  destruct (finish_write now key c _ None Hnow Hok Hw) as (c' & Hfin & Hok' & Hsc & Hv & Htodo & Hidle); [done| |].
  { intros k. simpl. left. apply Hraw. }
  exists c'. split; [exact Hfin|]. split; [by split_and!|exact Hv].
Qed.

(** Reading the old shard during a rehash. *)
Lemma get_old_ok now key c :
  cache_ok c -> IsRehashing (rehasher c) = true ->
  exists c', get_old now key c ⇓ (value <$> (old_tbl (rehasher c) key ≫= keep_live now), c') /\
    cache_ok c' /\ same_config c c' /\ IsRehashing (rehasher c') = true /\
    (todo (rehasher c') <= todo (rehasher c))%nat /\
    forall k, raw_kept (unlimited c) now (view c' k) (view c k).
Proof.
  intros Hok Hr. pose proof (co_rehash c Hok) as Hro.
  destruct (OldShard_ok _ _ _ key Hro Hr) as (s & Hold & Hs & Hsok & Hat).
  destruct (get_spec now key s Hsok) as (s' & Hget & Hsok' & (Hf1 & Hf2 & _) & Hcap & Hent).
  assert (forall k, raw_kept (unlimited c) now (shard_entries s' !! k) (shard_entries s !! k)) as Hraw.
  { intros k. rewrite Hent, lookup_partial_alter. case_decide; [subst|by left].
    destruct (shard_entries s !! k) as [e|]; simpl; [|by left]. unfold keep_live.
    destruct (isExpired now e) eqn:He; [right; eauto|by left]. }
  destruct (set_old_ok _ _ _ _ s s' Hro Hr Hs Hsok') as (Hr' & Hoi & Hot' & Hof' & Hinc' & Htbl' & Htodo).
  { by split_and!. }
  { intros k [e He]. destruct (Hraw k) as [Heq|[Hn _]]; [|cbn in He; congruence]. cbn in He |- *. rewrite <-Heq. eauto. }
  set (r' := set_old _ (rehasher c)) in *.
  assert (forall k, raw_kept (unlimited c) now (old_tbl r' k) (old_tbl (rehasher c) k)) as Hkept.
  { intros k. rewrite Htbl'. case_decide as Hi; [|by left]. rewrite (Hat k Hi). apply Hraw. }
  assert (same_config c (with_rehasher r' c)) as Hsc
    by (split; try done; apply set_old_kind).
  assert (forall k, raw_kept (unlimited c) now (view (with_rehasher r' c) k) (view c k)) as Hview.
  { intros k. rewrite (view_config c _ k Hsc). unfold view, comb. cbn [table rehasher with_rehasher].
    destruct (tbl (shardIndex c) (table c) k); or_else; [by left|apply Hkept]. }
  exists (with_rehasher r' c). split_and!; [| |done|done|done|done].
  - unfold get_old. rewrite Hold. cbn [mbind outcome_bind]. rewrite Hget. cbn. by rewrite (Hat key eq_refl).
  - eapply cache_ok_intro; [done|done|apply Hok| |].
    + split; [done|done| |done]. intros k Hk. apply (ro_apart _ _ _ Hro k).
      destruct (Hkept k) as [<-|[Hn _]]; [done|]. simpl in Hk. rewrite Hn in Hk. by destruct Hk.
    + intros k. eapply raw_kept_deadline; [apply Hview|]. by apply co_deadline.
Qed.

Lemma get_new_ok now key c :
  cache_ok c ->
  exists c1, on_shard key (get now key) c =
      Ret (value <$> (tbl (shardIndex c) (table c) key ≫= keep_live now), c1) /\
    cache_ok c1 /\ same_config c c1 /\ rehasher c1 = rehasher c /\
    forall k, raw_kept (unlimited c) now (view c1 k) (view c k).
Proof.
  intros Hok.
  destruct (on_shard_ok key (get now key) c (fun s r s' =>
      r = value <$> (shard_entries s !! key ≫= keep_live now) /\
      forall k, raw_kept (unlimited c) now (shard_entries s' !! k) (shard_entries s !! k)) Hok) as
    (r & s & s' & -> & (-> & HR) & Hin & Ht1 & Hf1 & Htk & Hat & Hk1).
  { intros s Hs. destruct (get_spec now key s Hs) as (s' & Hg & Hs' & (Hf1 & Hf2 & _) & Hc & Hent).
    assert (forall k, raw_kept (unlimited c) now (shard_entries s' !! k) (shard_entries s !! k)) as Hraw.
    { intros k. rewrite Hent, lookup_partial_alter. case_decide; [subst|by left].
      destruct (shard_entries s !! k) as [e|]; simpl; [|by left]. unfold keep_live.
      destruct (isExpired now e) eqn:He; [right; eauto|by left]. }
    eexists _, s'. split; [done|]. split; [done|]. split; [done|]. split; [by split_and!|].
    intros k Hk. right. destruct (Hraw k) as [<-|[Hn _]]; [done|]. rewrite Hn in Hk. by destruct Hk. }
  set (c1 := put_shard key s' c) in *.
  assert (same_config c c1) as Hsc by (by apply put_shard_config).
  assert (forall k, raw_kept (unlimited c) now (tbl (shardIndex c) (table c1) k) (tbl (shardIndex c) (table c) k)) as Hraw.
  { intros k. destruct (Hk1 k) as [[-> _]|[-> ->]]; [by left|apply HR]. }
  assert (forall k, raw_kept (unlimited c) now (view c1 k) (view c k)) as Hview.
  { intros k. rewrite (view_config c c1 k Hsc). unfold view, comb. change (rehasher c1) with (rehasher c).
    destruct (tbl (shardIndex c) (table c) k) as [e|] eqn:He.
    - assert (old_tbl (rehasher c) k = None) as ->.
      { apply eq_None_not_Some. intros Hx. rewrite (ro_apart _ _ _ (co_rehash c Hok) k Hx) in He. done. }
      or_else. rewrite <-He. apply Hraw.
    - destruct (Hraw k) as [->|[-> _]]; rewrite ?He; by left. }
  exists c1. split_and!; [by rewrite Htk| |done|done|done].
  eapply cache_ok_intro; [done|done|done| |].
  - destruct (co_rehash c Hok) as [H1 H2 H3 H4]. split; [done|done| |done].
    intros k Hk. destruct (Hraw k) as [->|[-> _]]; [by apply H3|done].
  - intros k. eapply raw_kept_deadline; [apply Hview|]. by apply co_deadline.
Qed.

(** The end of [Get]. *)
Lemma finish_read now c c2 (r : result error bytes) e :
  0 <= now -> cache_ok c2 -> same_config c c2 ->
  (forall k, raw_kept (unlimited c) now (view c2 k) (view c k)) ->
  IsRehashing (rehasher c2) = IsRehashing (rehasher c) -> (todo (rehasher c2) <= todo (rehasher c))%nat ->
  (IsRehashing (rehasher c) = false -> rehasher c2 = rehasher c) ->
  exists c', (c ← step_if_rehashing now (emit e c2); mret (r, c)) ⇓ (r, c') /\
    advances c c' /\ forall k, raw_kept (unlimited c) now (view c' k) (view c k).
Proof.
  intros Hnow Hok2 Hsc2 Hk2 Hr2 Ht2 Hi2.
  destruct (step_if_rehashing_ok now (emit e c2) Hnow (emit_ok e c2 Hok2)) as (c3 & -> & Hok3 & Hsc3 & Hk3 & Ht3 & Hi3).
  exists c3. assert (same_config c c3) by (eapply same_config_trans; [done|]; eapply same_config_trans; [apply emit_config|done]).
  simpl in Ht3, Hi3. rewrite Hr2 in Ht3, Hi3. split; [done|]. split.
  - split_and!; [done|done| |].
    + intros Hr. specialize (Ht3 Hr). lia.
    + intros Hr. rewrite (Hi3 Hr). by apply Hi2.
  - intros k. eapply raw_kept_trans; [apply Hk2|].
    replace (unlimited c) with (unlimited (emit e c2)) by (unfold unlimited; simpl; by rewrite (sc_opts _ _ Hsc2)).
    apply Hk3.
Qed.

Lemma Get_ok now key c :
  0 <= now -> cache_ok c -> key <> EmptyString ->
  exists c', Get now key c =
      Ret (match view c key ≫= keep_live now with Some e => Ok (value e) | None => Err ErrKeyNotFound end, c') /\
    advances c c' /\ forall k, raw_kept (unlimited c) now (view c' k) (view c k).
Proof.
  intros Hnow Hok Hkey. unfold Get, validateOpen. rewrite (co_open c Hok), decide_False by done.
  destruct (get_new_ok now key c Hok) as (c1 & -> & Hok1 & Hsc1 & Hr1 & Hk1).
  cbn [mbind outcome_bind]. unfold view at 1, comb.
  destruct (tbl (shardIndex c) (table c) key ≫= keep_live now) as [e|] eqn:He; cbn [fmap option_fmap option_map].
  - destruct (tbl (shardIndex c) (table c) key) as [e0|] eqn:Ht; [|done]. or_else. rewrite He.
    by apply finish_read; rewrite ?Hr1.
  - destruct (IsRehashing (rehasher c1)) eqn:Hr.
    + destruct (get_old_ok now key c1 Hok1 Hr) as (c2 & -> & Hok2 & Hsc2 & Hr2 & Ht2 & Hk2).
      cbn [mbind outcome_bind]. rewrite Hr1.
      assert (forall k, raw_kept (unlimited c) now (view c2 k) (view c k)) as Hk12.
      { intros k. eapply raw_kept_trans; [apply Hk1|].
        replace (unlimited c) with (unlimited c1) by (unfold unlimited; by rewrite (sc_opts _ _ Hsc1)). apply Hk2. }
      assert ((tbl (shardIndex c) (table c) key ∪ old_tbl (rehasher c) key) ≫= keep_live now =
              old_tbl (rehasher c) key ≫= keep_live now) as ->.
      { destruct (tbl (shardIndex c) (table c) key) as [e0|] eqn:Ht; [|by or_else]. or_else. rewrite He.
        destruct (old_tbl (rehasher c) key) eqn:Ho; [|done].
        rewrite (ro_apart _ _ _ (co_rehash c Hok) key) in Ht by eauto. done. }
      assert (same_config c c2) by (by eapply same_config_trans).
      rewrite Hr1 in *. destruct (old_tbl (rehasher c) key ≫= keep_live now) as [e|]; cbn [fmap option_fmap option_map].
      * destruct (finish_read now c c2 (Ok (value e)) (OnHit key)) as (c' & Hfin & Hrest); [done|done|done|done|by rewrite Hr|done|by rewrite Hr|].
        exists c'. split; [|done]. rewrite <-Hfin. unfold step_if_rehashing. simpl. by rewrite Hr2.
      * apply finish_read; [done|done|done|done|by rewrite Hr|done|by rewrite Hr].
    + cbn [mbind outcome_bind]. rewrite Hr1 in Hr. rewrite old_tbl_idle by done. or_else. rewrite He.
      by apply finish_read; rewrite ?Hr1.
Qed.

(** ** New tables *)

(** Sizes for which every shard uses its eight sub-shards. *)
Definition roomy (maxSize n : Z) : Prop := maxSize <= 0 \/ 16 * n <= maxSize.

Lemma shardIndexFor_wrap key m : shardIndexFor key (wrapU 32 m) = shardIndexFor key m.
Proof.
  unfold shardIndexFor, wrapU. pose proof (fnv32a_range key) as Hr.
  replace (m mod 2 ^ 32) with (Z.land m (Z.ones 32)) by (rewrite Z.land_ones; done || lia).
  rewrite Z.land_assoc, (Z.land_comm (Z.land _ m)), Z.land_assoc.
  rewrite (Z.land_comm (Z.ones 32)), Z.land_ones by lia. by rewrite Z.mod_small.
Qed.

Lemma shard_max_unlimited maxSize n : maxSize <= 0 -> shard_max maxSize n = 0.
Proof. intros Hm. unfold shard_max. destruct (Z.gtb_spec maxSize 0); lia. Qed.

Lemma shard_max_roomy maxSize n :
  0 < n -> roomy maxSize n -> shard_max maxSize n = 0 \/ 16 <= shard_max maxSize n.
Proof.
  intros Hn [Hle|Hge]; [left; by apply shard_max_unlimited|]. unfold shard_max.
  destruct (Z.gtb_spec maxSize 0); [|auto]. right. assert (16 <= maxSize ÷ n) as Hq.
  { rewrite Z.quot_div_nonneg by lia. apply Z.div_le_lower_bound; lia. }
  destruct (Z.ltb_spec (maxSize ÷ n) 1); lia.
Qed.

Lemma bad_shard_count_pos n : bad_shard_count n = false -> 0 < n.
Proof. unfold bad_shard_count. intros [? _]%orb_false_elim. lia. Qed.

Lemma fresh_table n factory maxSize :
  bad_shard_count n = false -> fresh_policy factory ->
  let idx := fun k => shardIndexFor k (wrapU 32 (n - 1)) in
  let l := replicate (Z.to_nat n) (newShard factory (shard_max maxSize n)) in
  table_ok idx l /\ (roomy maxSize n -> Forall rs_full l) /\ (maxSize <= 0 -> Forall rs_unlimited l) /\
  forall k, tbl idx l k = None.
Proof.
  intros Hn Hf idx l. pose proof (bad_shard_count_pos n Hn) as Hpos.
  assert (forall i s, l !! i = Some s -> s = newShard factory (shard_max maxSize n)) as Hl.
  { intros i s [-> _]%lookup_replicate. done. }
  assert (forall s, s ∈ l -> s = newShard factory (shard_max maxSize n)) as Hl'.
  { intros s (i & Hi)%list_elem_of_lookup. by eapply Hl. }
  assert (rs_entries (newShard factory (shard_max maxSize n)) = ∅) as Hem by apply newShard_entries.
  split_and!.
  - split.
    + intros k. unfold idx, l. rewrite shardIndexFor_wrap, length_replicate.
      pose proof (shardIndexFor_range k n Hn). lia.
    + intros s ->%Hl'. by apply newShard_ok.
    + intros i s k ->%Hl. rewrite Hem, lookup_empty. by intros [].
  - intros Hroom. apply Forall_forall. intros s ->%Hl'. cbn. unfold effectiveSubShards, subShardsPerShard.
    destruct (shard_max_roomy maxSize n Hpos Hroom) as [->|Hge]; [done|]. destruct (Z.leb_spec (shard_max maxSize n) 0); [lia|].
    assert (8 <= shard_max maxSize n ÷ 2) as Hq.
    { rewrite Z.quot_div_nonneg by lia. apply Z.div_le_lower_bound; lia. }
    destruct (Z.ltb_spec (shard_max maxSize n ÷ 2) 1); [lia|].
    destruct (Z.gtb_spec (shard_max maxSize n ÷ 2) 8); lia.
  - intros Hu. apply Forall_forall. intros s ->%Hl'. by rewrite (shard_max_unlimited maxSize n Hu).
  - intros k. unfold tbl. destruct (l !! _) as [s|] eqn:Hs; [|done]. apply Hl in Hs as ->.
    cbn [mbind option_bind]. rewrite Hem. apply lookup_empty.
Qed.

(** Resizing keeps the contents, with a rehasher that migrates. *)
Lemma Resize_ok n c :
  cache_ok c -> resizable c -> rehasher c <> RNoop ->
  let c' := (Resize n c).2 in
  cache_ok c' /\ (forall k, view c' k = view c k) /\ opts c' = opts c /\ rehasher c' <> RNoop /\
  ((bad_shard_count n = false -> roomy (maxSize (opts c)) n) -> resizable c').
Proof.
  intros Hok Hres Hno. unfold Resize, validateOpen. rewrite (co_open c Hok).
  destruct (bad_shard_count n) eqn:Hn; [done|].
  destruct (IsRehashing (rehasher c)) eqn:Hr; [done|]. cbv zeta. simpl snd.
  destruct (fresh_table n (policyFactory c) (maxSize (opts c)) Hn (co_factory c Hok)) as (Ht & Hf & Hu & He).
  set (c' := mkCache _ _ _ _ _ _ _ _ _ _).
  assert (forall k, old_tbl (rehasher c') k = tbl (shardIndex c) (table c) k /\
    Forall rs_full (OldShards (rehasher c')) /\ inc_part_ok (rehasher c') /\
    table_ok (oidx (rehasher c')) (OldShards (rehasher c'))) as Hold.
  { intros k. pose proof (ro_inc _ _ _ (co_rehash c Hok)) as Hinc.
    pose proof (to_idx _ _ (co_table c Hok) k) as Hlen. pose proof (co_table c Hok).
    unfold c'. simpl. destruct (rehasher c) as [r|r|]; [| |done]; (split_and!; [done|done| |done]).
    - simpl in Hinc |- *. destruct Hinc as [Hb _]. split; [done|]. intros _. split; [lia|].
      intros i s Hi. lia.
    - done. }
  assert (forall k, view c' k = view c k) as Hview.
  { intros k. unfold view, comb. destruct (Hold k) as [-> _]. rewrite (old_tbl_idle (rehasher c)) by done.
    change (tbl (shardIndex c') (table c') k) with
      (tbl (fun k => shardIndexFor k (wrapU 32 (n - 1)))
         (replicate (Z.to_nat n) (newShard (policyFactory c) (shard_max (maxSize (opts c)) n))) k).
    rewrite He. by or_else. }
  split_and!; [|done|done|by destruct (rehasher c)|intros Hroom; exact (Hf (Hroom eq_refl))].
  destruct (Hold EmptyString) as (_ & H2 & H3 & H4).
  split; [done|exact Ht|exact Hu| | |apply (co_factory c Hok)].
  - split; [done|done| |done]. intros k _. apply He.
  - intros k e. rewrite Hview. by apply co_deadline.
Qed.

Lemma New_ok policies o c :
  registry_ok policies ->
  New policies rehash_registry o = Ok c ->
  cache_ok c /\ (forall k, view c k = None) /\ maxSize (opts c) = Z.max 0 (maxSize o) /\
  defaultTTL (opts c) = defaultTTL o /\ 0 <= defaultTTL o /\
  (o_rehasher o <> "noop"%string -> rehasher c <> RNoop) /\
  (roomy (maxSize o) (shardCount o) -> resizable c) /\
  (exists p, getPolicyFactory (evictionPolicy (opts c)) policies = Ok p /\ policyFactory c = p) /\
  table c = replicate (Z.to_nat (shardCount o)) (newShard (policyFactory c) (shard_max (Z.max 0 (maxSize o)) (shardCount o))) /\
  0 < shardCount o /\ IsRehashing (rehasher c) = false /\ OldShards (rehasher c) = [].
Proof.
  intros Hreg. unfold New. destruct (bad_shard_count (shardCount o)) eqn:Hn; [done|].
  set (o1 := if maxSize o <? 0 then WithMaxSize 0 o else o).
  assert (shardCount o1 = shardCount o /\ maxSize o1 = Z.max 0 (maxSize o) /\ defaultTTL o1 = defaultTTL o /\
          o_rehasher o1 = o_rehasher o) as (H1 & H2 & H3 & H4).
  { unfold o1. destruct (Z.ltb_spec (maxSize o) 0); simpl; split_and!; try done; lia. }
  destruct (Z.ltb_spec (defaultTTL o1) 0); [done|].
  set (o2 := if decide (evictionPolicy o1 = EmptyString) then WithEvictionPolicy "noop" o1 else o1).
  assert (shardCount o2 = shardCount o1 /\ maxSize o2 = maxSize o1 /\ defaultTTL o2 = defaultTTL o1 /\
          o_rehasher o2 = o_rehasher o1) as (G1 & G2 & G3 & G4) by (unfold o2; by case_decide).
  destruct (getPolicyFactory (evictionPolicy o2) policies) as [f|] eqn:Hf; [|done]. cbn [mbind result_bind].
  set (o3 := if decide (o_rehasher o2 = EmptyString) then WithRehasher "incremental" o2 else o2).
  assert (shardCount o3 = shardCount o /\ maxSize o3 = Z.max 0 (maxSize o) /\ defaultTTL o3 = defaultTTL o /\
          (o_rehasher o <> "noop"%string -> o_rehasher o3 <> "noop"%string) /\ evictionPolicy o3 = evictionPolicy o2)
    as (F1 & F2 & F3 & F4 & F5).
  { unfold o3. case_decide; simpl; split_and!; congruence. }
  destruct (GetFactory (o_rehasher o3) rehash_registry) as [r|] eqn:Hr; [|done]. cbn [mbind result_bind].
  intros [= <-]. rewrite !F1, !F2.
  assert (roomy (maxSize o) (shardCount o) -> roomy (Z.max 0 (maxSize o)) (shardCount o)) as Hroom'.
  { unfold roomy. pose proof (bad_shard_count_pos _ Hn). lia. }
  destruct (fresh_table (shardCount o) f (Z.max 0 (maxSize o)) Hn (Hreg _ _ Hf)) as (Ht & Hfu & Hu & He).
  assert (IsRehashing r = false /\ inc_part_ok r /\ OldShards r = [] /\ (o_rehasher o3 <> "noop"%string -> r <> RNoop))
    as (Hidle & Hinc & Hos & Hnoop).
  { unfold GetFactory, rehash_registry in Hr. rewrite !lookup_insert, lookup_singleton in Hr.
    repeat case_decide; simplify_eq; split_and!; done. }
  assert (forall k, old_tbl r k = None) as Hot by (intros; by apply old_tbl_idle).
  set (c0 := mkCache _ _ _ _ _ _ _ _ _ _).
  assert (forall k, view c0 k = None) as Hview.
  { intros k. unfold view, comb. change (rehasher c0) with r. rewrite Hot, (right_id_L None (∪)). exact (He k). }
  split_and!; [|done|done|done|lia|auto|intros Hr'; apply Hfu, Hroom', Hr'| |done|by apply bad_shard_count_pos|done|done].
  2:{ exists f. split; [|done]. change (evictionPolicy (opts c0)) with (evictionPolicy o3). by rewrite F5. }
  split; [done|exact Ht| | | |by eapply Hreg].
  - unfold unlimited. change (maxSize (opts c0)) with (maxSize o3). rewrite F2. exact Hu.
  - change (rehasher c0) with r. split; [by rewrite Hidle|by rewrite Hos| |done]. intros k. rewrite Hot. by intros [].
  - intros k e. by rewrite Hview.
Qed.

(** ** Operations on every shard *)

(** A shard operation that keeps the limits and maps every entry by [F]. *)
Definition maps_shard (F : option cacheEntry -> option cacheEntry) (s s' : shard) : Prop :=
  shard_ok s' /\ numSubs s' = numSubs s /\ maxSubSize s' = maxSubSize s /\
  forall k, shard_entries s' !! k = F (shard_entries s !! k).

Lemma each_shard_ok {A} (f : shard -> A -> outcome (A * shard)) (Q : shard -> shard -> Prop) l a :
  (forall s a, s ∈ l -> exists a' s', f s a ⇓ (a', s') /\ Q s s') ->
  exists a' l', each_shard f l a ⇓ (a', l') /\ Forall2 Q l l'.
Proof.
  revert a. induction l as [|s l IH]; intros a Hf; [by eexists _, []|]. cbn [each_shard].
  destruct (Hf s a) as (a1 & s' & -> & Hq); [left|]. cbn [mbind outcome_bind].
  destruct (IH a1) as (a2 & l' & -> & Hq'); [intros; apply Hf; by right|]. eexists _, (s' :: l'). split; [done|].
  by constructor.
Qed.

Lemma table_map F idx (l l' : list shard) :
  F None = None -> table_ok idx l -> Forall2 (maps_shard F) l l' ->
  table_ok idx l' /\ (forall k, tbl idx l' k = F (tbl idx l k)) /\
  (Forall rs_full l -> Forall rs_full l') /\ (Forall rs_unlimited l -> Forall rs_unlimited l').
Proof.
  intros HF Hok Hall. pose proof (Forall2_length _ _ _ Hall) as Hlen. split_and!.
  - split.
    + intros k. rewrite <-Hlen. by apply to_idx.
    + intros s' (i & Hi)%list_elem_of_lookup. by destruct (Forall2_lookup_r _ _ _ _ _ Hall Hi) as (s & _ & ? & _).
    + intros i s' k Hi Hk. destruct (Forall2_lookup_r _ _ _ _ _ Hall Hi) as (s & Hs & _ & _ & _ & Hent).
      cbn in Hk. rewrite Hent in Hk. apply (to_keys _ _ Hok i s k Hs). cbn.
      destruct (shard_entries s !! k); [eauto|]. by rewrite HF in Hk.
  - intros k. unfold tbl. destruct (table_shard _ _ k Hok) as (s & Hs & _).
    destruct (Forall2_lookup_l _ _ _ _ _ Hall Hs) as (s' & Hs' & _ & _ & _ & Hent). rewrite Hs, Hs'. apply Hent.
  - intros Hf. apply Forall_forall. intros s' (i & Hi)%list_elem_of_lookup.
    destruct (Forall2_lookup_r _ _ _ _ _ Hall Hi) as (s & Hs & _ & Hn & _). cbn. rewrite Hn.
    exact (Forall_lookup_1 _ _ _ _ Hf Hs).
  - intros Hf. apply Forall_forall. intros s' (i & Hi)%list_elem_of_lookup.
    destruct (Forall2_lookup_r _ _ _ _ _ Hall Hi) as (s & Hs & _ & _ & Hm & _). cbn. rewrite Hm.
    exact (Forall_lookup_1 _ _ _ _ Hf Hs).
Qed.

Lemma set_old_map F idx l (r : Rehasher shard) old' :
  F None = None -> rehash_ok idx l r -> Forall2 (maps_shard F) (OldShards r) old' ->
  let r' := set_old old' r in
  IsRehashing r' = IsRehashing r /\ (forall k, old_tbl r' k = F (old_tbl r k)) /\
  (IsRehashing r' = true -> table_ok (oidx r') (OldShards r')) /\ Forall rs_full (OldShards r') /\ inc_part_ok r'.
Proof.
  intros HF Hok Hall r'. assert (IsRehashing r' = IsRehashing r) as Hr' by (by destruct r).
  assert (forall k, oidx r' k = oidx r k) as Hoi by (by destruct r).
  destruct (IsRehashing r) eqn:Hr.
  - pose proof (ro_table _ _ _ Hok Hr) as Hot.
    assert (OldShards r' = old') as Ho' by (destruct r as [r|r|]; simpl in *; [by rewrite Hr|by rewrite Hr|done]).
    destruct (table_map F _ _ _ HF Hot Hall) as (Hot' & Htbl & Hfull & _).
    split_and!; [done| | |rewrite Ho'; apply Hfull, Hok|].
    + intros k. unfold old_tbl. rewrite <-Htbl. unfold tbl. by rewrite Hoi, Ho'.
    + intros _. rewrite Ho'. destruct Hot' as [H1 H2 H3]. split; [by intros; rewrite Hoi|done|by intros; rewrite Hoi; eapply H3].
    + pose proof (ro_inc _ _ _ Hok) as Hinc. unfold r'. destruct r as [r|r|]; [|done|done].
      simpl in Hr, Hall |- *. rewrite Hr in Hall. destruct Hinc as [Hb Hinc]. destruct (Hinc Hr) as [Hx Hbelow].
      split; [done|]. intros _. rewrite <-(Forall2_length _ _ _ Hall). split; [done|]. intros i s' Hi Hs'.
      destruct (Forall2_lookup_r _ _ _ _ _ Hall Hs') as (s & Hs & _ & _ & _ & Hent).
      apply map_eq. intros k. cbn. rewrite Hent, lookup_empty. specialize (Hbelow i s Hi Hs). cbn in Hbelow.
      by rewrite Hbelow, lookup_empty.
  - assert (OldShards r = []) as Ho by (destruct r as [r|r|]; simpl in *; [by rewrite Hr|by rewrite Hr|done]).
    assert (OldShards r' = []) as Ho' by (destruct r as [r|r|]; simpl in *; [by rewrite Hr|by rewrite Hr|done]).
    split_and!; [done| |congruence|by rewrite Ho'|].
    + intros k. by rewrite !old_tbl_idle.
    + pose proof (ro_inc _ _ _ Hok) as Hinc. unfold r'. destruct r as [r|r|]; [|done|done].
      simpl in Hr |- *. destruct Hinc as [Hb _]. split; [done|]. rewrite Hr. done.
Qed.

(** A cache all of whose shards were mapped. *)
Lemma cache_map_ok F c l' old' c' :
  F None = None -> (forall e e', F (Some e) = Some e' -> e' = e) ->
  cache_ok c -> Forall2 (maps_shard F) (table c) l' -> Forall2 (maps_shard F) (OldShards (rehasher c)) old' ->
  mask c' = mask c -> opts c' = opts c -> closed c' = closed c -> table c' = l' ->
  rehasher c' = set_old old' (rehasher c) -> fresh_policy (policyFactory c') ->
  cache_ok c' /\ (forall k, view c' k = F (view c k)) /\ (resizable c -> resizable c').
Proof.
  intros HF HF' Hok Hl Hold Hmask Hopts Hcl Ht Hr Hfp.
  assert (shardIndex c' = shardIndex c) as Hix by (unfold shardIndex; by rewrite Hmask).
  destruct (table_map F _ _ _ HF (co_table c Hok) Hl) as (Hot & Htbl & Hfull & Hunl).
  destruct (set_old_map F _ _ _ _ HF (co_rehash c Hok) Hold) as (Hr' & Hold' & Hot' & Hof' & Hinc').
  rewrite <-Hr in *. rewrite <-Ht in *.
  assert (forall k, view c' k = F (view c k)) as Hview.
  { intros k. unfold view, comb. rewrite Hix, Htbl, Hold'.
    destruct (old_tbl (rehasher c) k) as [e|] eqn:Ho.
    - rewrite (ro_apart _ _ _ (co_rehash c Hok) k) by eauto. rewrite HF. by or_else.
    - rewrite HF. by or_else. }
  split; [|done].
  split; [by rewrite Hcl; apply Hok|by rewrite Hix| | | |done].
  - unfold unlimited. rewrite Hopts. intros Hu. apply Hunl. by apply co_unl.
  - rewrite Hix. split; [done|done| |done]. intros k. rewrite Hold', Htbl. intros Hx.
    destruct (old_tbl (rehasher c) k) as [e|] eqn:Ho; [|by rewrite HF in Hx; destruct Hx].
    by rewrite (ro_apart _ _ _ (co_rehash c Hok) k) by eauto.
  - intros k e. rewrite Hview. destruct (view c k) as [e0|] eqn:Hv; [|by rewrite HF].
    intros He. apply HF' in He as ->. by apply (co_deadline c Hok k).
Qed.

Lemma old_shards_ok c s : cache_ok c -> s ∈ OldShards (rehasher c) -> shard_ok s.
Proof.
  intros Hok Hs. destruct (IsRehashing (rehasher c)) eqn:Hr.
  - by apply (to_ok _ _ (ro_table _ _ _ (co_rehash c Hok) Hr)).
  - destruct (rehasher c) as [r|r|]; simpl in *; rewrite ?Hr in Hs; by apply not_elem_of_nil in Hs.
Qed.

Lemma Cleanup_ok now c :
  cache_ok c ->
  exists n c', Cleanup now c ⇓ (n, c') /\ cache_ok c' /\ opts c' = opts c /\
    (rehasher c <> RNoop -> rehasher c' <> RNoop) /\ (resizable c -> resizable c') /\
    forall k, view c' k = view c k ≫= keep_live now.
Proof.
  intros Hok. unfold Cleanup. rewrite (co_open c Hok). cbv zeta.
  set (f := fun s total => '(n, s') ← cleanup now s; mret (total + n, s')).
  assert (forall s a, shard_ok s -> exists a' s', f s a ⇓ (a', s') /\
    maps_shard (fun o => o ≫= keep_live now) s s') as Hf.
  { intros s a Hs. destruct (cleanup_spec now s Hs) as (s' & Hc & Hs' & (Hn & Hm & _) & _ & Hent).
    unfold f. rewrite Hc. eexists _, s'. split; [done|]. split_and!; [done|done|done|].
    intros k. by rewrite Hent, live_lookup. }
  destruct (each_shard_ok f _ (table c) 0 (fun s a Hs => Hf s a (to_ok _ _ (co_table c Hok) s Hs))) as (a1 & l' & -> & H1).
  cbn [mbind outcome_bind].
  destruct (each_shard_ok f _ (OldShards (rehasher c)) a1 (fun s a Hs => Hf s a (old_shards_ok c s Hok Hs))) as (a2 & old' & -> & H2).
  cbn [mbind outcome_bind]. eexists _, _. split; [done|].
  destruct (cache_map_ok (fun o => o ≫= keep_live now) c l' old'
    (with_rehasher (set_old old' (rehasher c)) (with_table l' c))) as (Hok' & Hv & Hres); try done.
  { intros e e'. simpl. unfold keep_live. case_match; congruence. }
  { apply Hok. }
  split_and!; [done|done|by destruct (rehasher c)|done|done].
Qed.

Lemma SetEvictionPolicy_ok policies name c :
  cache_ok c -> registry_ok policies ->
  exists r c', SetEvictionPolicy policies name c ⇓ (r, c') /\ cache_ok c' /\ opts c' = opts c /\
    (rehasher c <> RNoop -> rehasher c' <> RNoop) /\ (resizable c -> resizable c') /\
    forall k, view c' k = view c k.
Proof.
  intros Hok Hreg. unfold SetEvictionPolicy, validateOpen. rewrite (co_open c Hok).
  destruct (getPolicyFactory name policies) as [factory|e] eqn:Hp; [|by eexists _, c].
  pose proof (Hreg _ _ Hp) as Hfresh. cbv zeta.
  set (f := fun s (_ : unit) => s' ← swapPolicy factory s; mret (tt, s')).
  assert (forall s a, shard_ok s -> exists a' s', f s a ⇓ (a', s') /\ maps_shard (fun o => o) s s') as Hf.
  { intros s a Hs. destruct (swapPolicy_spec factory s Hs Hfresh) as (s' & Hc & Hs' & (Hn & Hm & _) & Hent).
    unfold f. rewrite Hc. eexists _, s'. split; [done|]. split_and!; [done|done|done|]. by rewrite Hent. }
  destruct (each_shard_ok f _ (table c) tt (fun s a Hs => Hf s a (to_ok _ _ (co_table c Hok) s Hs))) as (a1 & l' & -> & H1).
  cbn [mbind outcome_bind].
  destruct (each_shard_ok f _ (OldShards (rehasher c)) tt (fun s a Hs => Hf s a (old_shards_ok c s Hok Hs))) as (a2 & old' & -> & H2).
  cbn [mbind outcome_bind]. eexists _, _. split; [done|].
  match goal with |- cache_ok ?x /\ _ => destruct (cache_map_ok (fun o => o) c l' old' x) as (Hok' & Hv & Hres); try done end.
  { by intros e e' [= ->]. }
  { symmetry. apply Hok. }
  split_and!; [done|done|by destruct (rehasher c)|done|done].
Qed.

(** ** Runs, and the abstract cache *)

Inductive kv_op : Type :=
| KSet (key : string) (value : option bytes) (ttl : option Z)
| KGet (key : string)
| KDel (key : string)
| KResize (shardCount : Z)
| KCleanup
| KSetPolicy (name : string).

(** What a caller of the abstract operations sees. *)
Inductive kv_result : Type :=
| RErr (e : option error)
| RVal (v : result error bytes)
| RNone.

Definition kv_step (policies : registry P) (now : Z) (o : kv_op) (c : Cache) : outcome (kv_result * Cache) :=
  match o with
  | KSet key value ttl => '(r, c) ← Cache.Set_ now key value ttl c; mret (RErr r, c)
  | KGet key => '(r, c) ← Get now key c; mret (RVal r, c)
  | KDel key => '(r, c) ← Cache.Del now key c; mret (RErr r, c)
  | KResize n => Ret (RNone, (Resize n c).2)
  | KCleanup => '(_, c) ← Cleanup now c; mret (RNone, c)
  | KSetPolicy name => '(_, c) ← SetEvictionPolicy policies name c; mret (RNone, c)
  end.

Fixpoint kv_run (policies : registry P) (ops : list (Z * kv_op)) (c : Cache) : outcome (list kv_result * Cache) :=
  match ops with
  | [] => Ret ([], c)
  | (now, o) :: ops =>
      '(r, c) ← kv_step policies now o c;
      '(rs, c) ← kv_run policies ops c;
      mret (r :: rs, c)
  end.

(** The abstract cache: a map from keys to values with deadlines. *)
Definition spec_step (defaultTTL now : Z) (o : kv_op) (m : gmap string cacheEntry) :
    kv_result * gmap string cacheEntry :=
  match o with
  | KSet key value ttl =>
      match validateKeyValue key value, value with
      | None, Some v =>
          (RErr None,
           <[key := newEntry now v (match ttl with Some t => Z.max t 0 | None => defaultTTL end)]> m)
      | e, _ => (RErr e, m)
      end
  | KGet key =>
      (RVal (if decide (key = EmptyString) then Err ErrKeyEmpty
             else match m !! key ≫= keep_live now with
                  | Some e => Ok (value e)
                  | None => Err ErrKeyNotFound
                  end), m)
  | KDel key => if decide (key = EmptyString) then (RErr (Some ErrKeyEmpty), m) else (RErr None, delete key m)
  | _ => (RNone, m)
  end.

Fixpoint spec_run (defaultTTL : Z) (ops : list (Z * kv_op)) (m : gmap string cacheEntry) : list kv_result :=
  match ops with
  | [] => []
  | (now, o) :: ops =>
      let '(r, m) := spec_step defaultTTL now o m in r :: spec_run defaultTTL ops m
  end.

(** The map a run leaves, and the instant of its last call. *)
Definition spec_state (defaultTTL : Z) (ops : list (Z * kv_op)) (m : gmap string cacheEntry) : gmap string cacheEntry :=
  foldl (fun m o => (spec_step defaultTTL o.1 o.2 m).2) m ops.

Definition end_of (t : Z) (ops : list (Z * kv_op)) : Z := foldl (fun _ o => o.1) t ops.

(** A run the clock and the sizes allow: instants from [t] on, deadlines within
    the clock's range, resizes to tables of full shards. *)
Fixpoint valid_run (maxSize defaultTTL t : Z) (ops : list (Z * kv_op)) : Prop :=
  match ops with
  | [] => True
  | (now, o) :: ops =>
      t <= now /\
      match o with
      | KSet _ _ ttl => now + match ttl with Some t => Z.max t 0 | None => defaultTTL end <= max_int64
      | KResize n => bad_shard_count n = false -> roomy maxSize n
      | _ => True
      end /\ valid_run maxSize defaultTTL now ops
  end.

(** A result of the cache against the abstract one: the same, except that a
    cache with a size limit may have evicted the key. *)
Definition allowed (unlimited : Prop) (r r' : kv_result) : Prop :=
  r = r' \/ (~ unlimited /\ r = RVal (Err ErrKeyNotFound) /\ exists v, r' = RVal (Ok v)).

(** The cache holds what the map holds, less what it may have evicted. *)
Definition holds (now : Z) (c : Cache) (m : gmap string cacheEntry) : Prop :=
  forall k t, now <= t ->
    view c k ≫= keep_live t = m !! k ≫= keep_live t \/ (~ unlimited c /\ view c k ≫= keep_live t = None).

Lemma holds_step now t c c' m m' :
  t <= now -> opts c' = opts c ->
  (forall k, exists o, raw_kept (unlimited c) now (view c' k) o /\
     (o = view c k /\ m' !! k = m !! k \/ o = m' !! k)) ->
  holds t c m -> holds now c' m'.
Proof.
  intros Ht Ho Hk Hh k t' Ht'. destruct (Hk k) as (o & Hraw & Hcase).
  unfold unlimited. rewrite Ho. fold (unlimited c).
  destruct (raw_kept_live _ _ t' _ _ Ht' Hraw) as [->|]; [|by right].
  destruct Hcase as [[-> ->]| ->]; [|by left]. apply Hh. lia.
Qed.

Lemma holds_same now t c m : t <= now -> holds t c m -> holds now c m.
Proof. intros Ht Hh k t' Ht'. apply Hh. lia. Qed.

Lemma allowed_refl u r : allowed u r r.
Proof. by left. Qed.

(** The side condition of one operation. *)
Definition op_valid (now : Z) (o : kv_op) (c : Cache) : Prop :=
  match o with
  | KSet _ _ ttl => now + effective_ttl ttl c <= max_int64
  | KResize n => resizable c /\ (bad_shard_count n = false -> roomy (maxSize (opts c)) n)
  | _ => True
  end.

(** A cache that stays sound, with a rehasher that migrates. *)
Definition running (c c' : Cache) : Prop :=
  cache_ok c' /\ rehasher c' <> RNoop /\ opts c' = opts c /\ (resizable c -> resizable c').

Lemma advances_running c c' :
  rehasher c <> RNoop -> cache_ok c' /\ same_config c c' -> running c c'.
Proof. intros Hno [Hok Hsc]. split; [done|]. split; [by apply Hsc|].
  split; [apply Hsc|]. apply frame_full, Hsc. Qed.

Lemma kv_step_refines policies now o c m t :
  registry_ok policies -> 0 <= t -> t <= now -> cache_ok c -> rehasher c <> RNoop -> holds t c m ->
  op_valid now o c ->
  exists r c', kv_step policies now o c ⇓ (r, c') /\ running c c' /\
    allowed (unlimited c) r (spec_step (defaultTTL (opts c)) now o m).1 /\
    holds now c' (spec_step (defaultTTL (opts c)) now o m).2.
Proof.
  intros Hreg Ht Hnow Hok Hno Hh Hv. assert (0 <= now) as Hnow0 by lia.
  assert (running c c /\ holds now c m) as [Hrun Hhold] by (split; [by split_and!|by apply (holds_same now t)]).
  destruct o as [key [v|] ttl|key|key|n| |name]; cbn [kv_step spec_step op_valid] in *.
  - destruct (decide (key = EmptyString)) as [->|Hkey].
    { unfold Cache.Set_, validateOpen, validateKeyValue. rewrite (co_open c Hok). cbn. eauto 8 using allowed_refl. }
    destruct (Set_ok now key v ttl c Hnow0 Hok Hkey Hv) as (c' & -> & (Hok' & Hsc & _) & Hk).
    unfold validateKeyValue. rewrite decide_False by done. eexists _, c'. split; [done|].
    split; [exact (advances_running c c' Hno (conj Hok' Hsc))|]. split; [by left|]. cbn [snd].
    apply (holds_step now t c _ m); [done|apply Hsc| |done]. intros k. eexists. split; [apply Hk|].
    rewrite lookup_insert. unfold effective_ttl. repeat case_decide; subst; auto; done.
  - unfold Cache.Set_, validateOpen, validateKeyValue. rewrite (co_open c Hok).
    destruct (decide (key = EmptyString)); cbn; eauto 8 using allowed_refl.
  - destruct (decide (key = EmptyString)) as [->|Hkey].
    { unfold Get, validateOpen. rewrite (co_open c Hok). cbn. eauto 8 using allowed_refl. }
    destruct (Get_ok now key c Hnow0 Hok Hkey) as (c' & -> & (Hok' & Hsc & _) & Hk).
    eexists _, c'. split; [done|]. split; [exact (advances_running c c' Hno (conj Hok' Hsc))|]. cbn [fst snd]. split.
    + destruct (Hh key now Hnow) as [->|[Hu ->]]; [by left|].
      destruct (m !! key ≫= keep_live now); [right; eauto|by left].
    + apply (holds_step now t c _ m); [done|apply Hsc| |done]. intros k. eexists. split; [apply Hk|by left].
  - destruct (decide (key = EmptyString)) as [->|Hkey].
    { unfold Cache.Del, validateOpen. rewrite (co_open c Hok). cbn. eauto 8 using allowed_refl. }
    destruct (Del_ok now key c Hnow0 Hok Hkey) as (c' & -> & (Hok' & Hsc & _) & Hk).
    eexists _, c'. split; [done|]. split; [exact (advances_running c c' Hno (conj Hok' Hsc))|]. split; [by left|]. cbn [snd].
    apply (holds_step now t c _ m); [done|apply Hsc| |done]. intros k. eexists. split; [apply Hk|].
    rewrite lookup_delete. repeat case_decide; subst; auto; done.
  - destruct (Resize_ok n c Hok (proj1 Hv) Hno) as (Hok' & Hk & Ho & Hno' & Hres). eexists _, _. split; [done|].
    split; [split_and!; auto; intros _; apply Hres, Hv|]. split; [by left|]. apply (holds_step now t c _ m); [done|done| |done].
    intros k. exists (view c k). rewrite Hk. split; [by left|by left].
  - destruct (Cleanup_ok now c Hok) as (x & c' & -> & Hok' & Ho & Hno' & Hres & Hk). eexists _, c'. split; [done|].
    split; [split_and!; auto|]. split; [by left|]. apply (holds_step now t c _ m); [done|done| |done].
    intros k. exists (view c k). rewrite Hk. split; [|by left].
    destruct (view c k) as [e|]; [|by left]. simpl. unfold keep_live. case_match; [right; eauto|by left].
  - destruct (SetEvictionPolicy_ok policies name c Hok Hreg) as (x & c' & -> & Hok' & Ho & Hno' & Hres & Hk).
    eexists _, c'. split; [done|]. split; [split_and!; auto|]. split; [by left|].
    apply (holds_step now t c _ m); [done|done| |done]. intros k. exists (view c k). rewrite Hk. split; by left.
Qed.

Definition is_resize (o : kv_op) : bool := match o with KResize _ => true | _ => false end.

Lemma kv_run_refines policies ops c m t :
  registry_ok policies -> 0 <= t -> cache_ok c -> rehasher c <> RNoop -> holds t c m ->
  valid_run (maxSize (opts c)) (defaultTTL (opts c)) t ops ->
  (resizable c \/ Forall (fun o => is_resize o.2 = false) ops) ->
  exists rs c', kv_run policies ops c ⇓ (rs, c') /\ running c c' /\
    Forall2 (allowed (unlimited c)) rs (spec_run (defaultTTL (opts c)) ops m) /\
    holds (end_of t ops) c' (spec_state (defaultTTL (opts c)) ops m).
Proof.
  intros Hreg. revert c m t. induction ops as [|[now o] ops IH]; intros c m t Ht Hok Hno Hh Hv Hres.
  { by exists [], c. }
  unfold end_of, spec_state in *. cbn [kv_run spec_run valid_run foldl fst snd] in *. destruct Hv as (Hnow & Hvo & Hv).
  destruct (kv_step_refines policies now o c m t Hreg Ht Hnow Hok Hno Hh) as
    (r & c1 & -> & (Hok1 & Hno1 & Ho1 & Hres1) & Hr & Hh1).
  { destruct o; try done. split; [|done]. by destruct Hres as [|[? _]%Forall_cons]. }
  cbn [mbind outcome_bind]. destruct (spec_step (defaultTTL (opts c)) now o m) as [r' m']. cbn [fst snd] in *.
  rewrite <-Ho1 in Hv. destruct (IH c1 m' now ltac:(lia) Hok1 Hno1 Hh1 Hv) as
    (rs & c2 & -> & (Hok2 & Hno2 & Ho2 & Hres2) & Hrs & Hh2).
  { destruct Hres as [?|[_ ?]%Forall_cons]; auto. }
  rewrite Ho1 in Hrs, Hh2. exists (r :: rs), c2. split; [done|]. split; [split_and!; [done|done|congruence|auto]|].
  split; [constructor; [done|]|done]. unfold unlimited in *. by rewrite Ho1 in Hrs.
Qed.

Lemma end_of_le mx d t ops : valid_run mx d t ops -> t <= end_of t ops.
Proof.
  unfold end_of. revert t. induction ops as [|[now o] ops IH]; intros t; cbn [valid_run foldl fst]; [lia|].
  intros (Ht & _ & Hv%IH). lia.
Qed.

(** The empty key is refused. *)
Lemma spec_state_no_empty d ops m : m !! EmptyString = None -> spec_state d ops m !! EmptyString = None.
Proof.
  unfold spec_state. revert m. induction ops as [|[now o] ops IH]; intros m Hm; [done|]. cbn [foldl fst snd]. apply IH.
  destruct o as [key v ttl| |key| | |]; cbn; try done.
  - destruct (validateKeyValue key v) eqn:Hv; [done|]. destruct v as [v|]; [|done]. cbn. rewrite lookup_insert_ne; [done|].
    intros ->. done.
  - case_decide; [done|]. cbn. by rewrite lookup_delete_ne.
Qed.

(** ** Counting *)

(** The entries of a list of shards, and of a cache, as one map. *)
Definition shards_map (l : list shard) : gmap string cacheEntry :=
  foldr (fun s m => shard_entries s ∪ m) ∅ l.

Definition cache_map (c : Cache) : gmap string cacheEntry :=
  shards_map (table c) ∪ shards_map (OldShards (rehasher c)).

Lemma shards_map_any l k : shards_map l !! k = any_tbl l k.
Proof. induction l as [|s l IH]; [done|]. simpl. by rewrite lookup_union, IH. Qed.

Lemma shards_map_size (Q : string * cacheEntry -> Prop) `{forall x, Decision (Q x)} h l :
  told h l ->
  size (filter Q (shards_map l)) = sum_list_with (fun s => size (filter Q (shard_entries s))) l.
Proof.
  revert h. induction l as [|s l IH]; intros h Hh; simpl; [by rewrite map_filter_empty, map_size_empty|].
  rewrite <-(IH _ (told_tail _ _ _ Hh)).
  assert (shard_entries s ##ₘ shards_map l) as Hd.
  { apply map_disjoint_spec. intros k x y Hx Hy. rewrite shards_map_any in Hy.
    rewrite (told_head _ _ _ _ Hh) in Hy; [done|]. cbn. eauto. }
  rewrite map_filter_union by done. by apply map_size_disj_union, map_disjoint_filter.
Qed.

Lemma table_told idx (l : list shard) : table_ok idx l -> told (fun k => Z.to_nat (idx k)) l.
Proof. intros Hok i s k Hi Hk. by eapply to_keys. Qed.

Lemma OldShards_cases c :
  cache_ok c -> OldShards (rehasher c) = [] \/ table_ok (oidx (rehasher c)) (OldShards (rehasher c)).
Proof.
  intros Hok. destruct (IsRehashing (rehasher c)) eqn:Hr; [right; by apply (ro_table _ _ _ (co_rehash c Hok))|].
  left. destruct (rehasher c) as [r|r|]; simpl in *; by rewrite ?Hr.
Qed.

Lemma cache_map_lookup c k : cache_ok c -> cache_map c !! k = view c k.
Proof.
  intros Hok. unfold cache_map, view, comb. rewrite lookup_union, !shards_map_any.
  rewrite (tbl_any _ _ k (co_table c Hok)). unfold old_tbl.
  destruct (OldShards_cases c Hok) as [->|Hot]; [done|]. by rewrite (tbl_any _ _ k Hot).
Qed.

Lemma cache_map_live_size now c :
  cache_ok c ->
  size (live now (cache_map c)) =
  (sum_list_with (fun s => size (live now (shard_entries s))) (table c) +
   sum_list_with (fun s => size (live now (shard_entries s))) (OldShards (rehasher c)))%nat.
Proof.
  intros Hok. unfold cache_map, live at 1.
  assert (shards_map (table c) ##ₘ shards_map (OldShards (rehasher c))) as Hd.
  { apply map_disjoint_spec. intros k x y. rewrite !shards_map_any, <-(tbl_any _ _ k (co_table c Hok)).
    intros Hx Hy. destruct (OldShards_cases c Hok) as [Ho|Hot]; [by rewrite Ho in Hy|].
    rewrite <-(tbl_any _ _ k Hot) in Hy.
    assert (tbl (shardIndex c) (table c) k = None) as Hn; [|congruence].
    apply (ro_apart _ _ _ (co_rehash c Hok)). unfold old_tbl. eauto. }
  rewrite map_filter_union, map_size_disj_union by (done || by apply map_disjoint_filter).
  rewrite (shards_map_size _ _ _ (table_told _ _ (co_table c Hok))).
  destruct (OldShards_cases c Hok) as [Ho|Hot].
  - rewrite Ho. simpl. by rewrite map_filter_empty, map_size_empty.
  - by rewrite (shards_map_size _ _ _ (table_told _ _ Hot)).
Qed.

Lemma each_shard_len now l total :
  (forall s, s ∈ l -> shard_ok s) ->
  each_shard (fun s total => n ← Shard.Len now s; mret (total + n, s)) l total =
  Ret (total + Z.of_nat (sum_list_with (fun s => size (live now (shard_entries s))) l), l).
Proof.
  revert total. induction l as [|s l IH]; intros total Hl; cbn [each_shard]; [simpl; by rewrite Z.add_0_r|].
  rewrite Shard.Len_spec by (apply Hl; left). cbn [mbind outcome_bind mret outcome_ret].
  rewrite IH by (intros; apply Hl; by right). cbn. do 2 f_equal. lia.
Qed.

Lemma Len_ok now c :
  cache_ok c -> Cache.Len now c ⇓ (Z.of_nat (size (live now (cache_map c)))).
Proof.
  intros Hok. unfold Cache.Len. rewrite (co_open c Hok). cbv zeta.
  rewrite each_shard_len by (apply (to_ok _ _ (co_table c Hok))). cbn [mbind outcome_bind].
  rewrite each_shard_len by (intros; by eapply old_shards_ok). cbn.
  rewrite cache_map_live_size by done. f_equal. lia.
Qed.

(** ** Runs of Set, Get and Del *)

Definition is_kv (o : kv_op) : bool :=
  match o with KSet _ _ _ | KGet _ | KDel _ => true | _ => false end.

(** A call that passes validation. *)
Definition hot (o : kv_op) : bool :=
  match o with
  | KSet key (Some _) _ | KGet key | KDel key => negb (bool_decide (key = EmptyString))
  | _ => false
  end.

Lemma hot_step policies now o c :
  0 <= now -> cache_ok c -> hot o = true -> op_valid now o c ->
  exists r c', kv_step policies now o c ⇓ (r, c') /\ advances c c'.
Proof.
  intros Hnow Hok Hhot Hv. destruct o as [key [v|] ttl|key|key| | |]; simpl in Hhot; try done;
    apply negb_true_iff, bool_decide_eq_false in Hhot; cbn [kv_step].
  - destruct (Set_ok now key v ttl c Hnow Hok Hhot Hv) as (c' & -> & Ha & _). eauto.
  - destruct (Get_ok now key c Hnow Hok Hhot) as (c' & -> & Ha & _). eauto.
  - destruct (Del_ok now key c Hnow Hok Hhot) as (c' & -> & Ha & _). eauto.
Qed.

Lemma kv_only_step policies now o c :
  0 <= now -> cache_ok c -> is_kv o = true -> op_valid now o c ->
  exists r c', kv_step policies now o c ⇓ (r, c') /\ cache_ok c' /\ same_config c c' /\
    (IsRehashing (rehasher c) = false -> rehasher c' = rehasher c).
Proof.
  intros Hnow Hok Hkv Hv. destruct (hot o) eqn:Hhot.
  - destruct (hot_step policies now o c Hnow Hok Hhot Hv) as (r & c' & Hs & Hok' & Hsc & _ & Hi). eauto 8.
  - assert (exists r, kv_step policies now o c ⇓ (r, c)) as [r Hr]; [|eauto 8 using same_config_refl].
    destruct o as [key [v|] ttl|key|key| | |]; simpl in Hkv, Hhot; try done; cbn [kv_step].
    + apply negb_false_iff, bool_decide_eq_true in Hhot as ->.
      unfold Cache.Set_, validateOpen. rewrite (co_open c Hok). cbn. eauto.
    + unfold Cache.Set_, validateOpen, validateKeyValue. rewrite (co_open c Hok). case_decide; cbn; eauto.
    + apply negb_false_iff, bool_decide_eq_true in Hhot as ->.
      unfold Get, validateOpen. rewrite (co_open c Hok). cbn. eauto.
    + apply negb_false_iff, bool_decide_eq_true in Hhot as ->.
      unfold Cache.Del, validateOpen. rewrite (co_open c Hok). cbn. eauto.
Qed.

Lemma op_valid_config now o c c' : is_kv o = true -> same_config c c' -> op_valid now o c -> op_valid now o c'.
Proof. intros Hk Hsc. destruct o; try done. simpl. unfold effective_ttl. by rewrite (sc_opts _ _ Hsc). Qed.

Lemma kv_only_run policies ops c :
  cache_ok c -> Forall (fun '(now, o) => 0 <= now /\ is_kv o = true /\ op_valid now o c) ops ->
  exists rs c', kv_run policies ops c ⇓ (rs, c') /\ cache_ok c' /\ same_config c c' /\
    (IsRehashing (rehasher c) = false -> rehasher c' = rehasher c).
Proof.
  revert c. induction ops as [|[now o] ops IH]; intros c Hok Hall.
  { exists [], c. split_and!; try done; auto using same_config_refl. }
  apply Forall_cons in Hall as [(Hnow & Hkv & Hv) Hall]. cbn [kv_run].
  destruct (kv_only_step policies now o c Hnow Hok Hkv Hv) as (r & c1 & -> & Hok1 & Hsc1 & Hi1).
  cbn [mbind outcome_bind]. destruct (IH c1 Hok1) as (rs & c2 & -> & Hok2 & Hsc2 & Hi2).
  { eapply Forall_impl; [exact Hall|]. intros [now' o'] (? & ? & ?). split_and!; [done|done|by eapply op_valid_config]. }
  exists (r :: rs), c2. split_and!; [done|done|by eapply same_config_trans|].
  intros Hr. rewrite Hi2; [by apply Hi1|]. by rewrite Hi1.
Qed.

Lemma hot_run policies ops c :
  cache_ok c -> Forall (fun '(now, o) => 0 <= now /\ hot o = true /\ op_valid now o c) ops ->
  exists rs c', kv_run policies ops c ⇓ (rs, c') /\ cache_ok c' /\
    (todo (rehasher c') + length ops <= todo (rehasher c) \/ IsRehashing (rehasher c') = false)%nat.
Proof.
  revert c. induction ops as [|[now o] ops IH]; intros c Hok Hall.
  { exists [], c. split_and!; try done. left. simpl. lia. }
  apply Forall_cons in Hall as [(Hnow & Hkv & Hv) Hall]. cbn [kv_run].
  destruct (hot_step policies now o c Hnow Hok Hkv Hv) as (r & c1 & -> & Hok1 & Hsc1 & Ht1 & Hi1).
  cbn [mbind outcome_bind]. 
  assert (Forall (fun '(now, o) => 0 <= now /\ hot o = true /\ op_valid now o c1) ops) as Hall1.
  { eapply Forall_impl; [exact Hall|]. intros [now' o'] (? & ? & ?). split_and!; [done|done|].
    eapply op_valid_config; [|done|done]. by destruct o' as [? []| | | | |]. }
  destruct (IH c1 Hok1 Hall1) as (rs & c2 & Hr2 & Hok2 & Hc2). rewrite Hr2.
  exists (r :: rs), c2. split_and!; [done|done|].
  destruct (IsRehashing (rehasher c)) eqn:Hr.
  - destruct Hc2 as [Hc2|]; [|by right]. left. simpl. specialize (Ht1 eq_refl). lia.
  - right. destruct (kv_only_run policies ops c1 Hok1) as (rs' & c2' & Hr2' & _ & _ & Hi2).
    { eapply Forall_impl; [exact Hall1|]. intros [now' o'] (? & ? & ?). split_and!; [done| |done].
      by destruct o' as [? []| | | | |]. }
    rewrite Hr2 in Hr2'. injection Hr2' as <- <-. rewrite Hi2; [rewrite Hi1 by done; done|]. by rewrite Hi1.
Qed.

Lemma todo_pos idx l (r : Rehasher shard) : rehash_ok idx l r -> IsRehashing r = true -> (0 < todo r)%nat.
Proof.
  intros Hok Hr. unfold todo. rewrite Hr. destruct r as [r|r|]; [|lia|done].
  destruct (ro_inc _ _ _ Hok) as [_ Hinc]. destruct (Hinc Hr) as [Hi _]. lia.
Qed.

Lemma Resize_todo n c :
  cache_ok c -> bad_shard_count n = false -> IsRehashing (rehasher c) = false -> rehasher c <> RNoop ->
  (todo (rehasher (Resize n c).2) <= size (cache_map c) + length (table c))%nat.
Proof.
  intros Hok Hn Hr Hno. unfold Resize, validateOpen. rewrite (co_open c Hok), Hn, Hr. simpl.
  assert (0 < length (table c))%nat as Hlen by (pose proof (to_idx _ _ (co_table c Hok) EmptyString); lia).
  destruct (rehasher c) as [r|r|] eqn:He; [|unfold todo; simpl; lia|done].
  unfold todo. simpl. rewrite Nat.sub_0_r. unfold cache_map. rewrite He. simpl in Hr |- *. rewrite Hr. simpl.
  rewrite (right_id_L ∅ (∪)).
  pose proof (shards_map_size (fun _ => True) _ _ (table_told _ _ (co_table c Hok))) as Hsz.
  rewrite map_filter_true in Hsz. rewrite Hsz. apply Nat.add_le_mono_r.
  clear. induction (table c) as [|s l IH]; simpl; [lia|]. rewrite map_filter_true. lia.
Qed.

(** *** Counting the entries of a table *)

Lemma shard_max_bound (m n : Z) :
  0 < m -> 0 < n -> 0 < shard_max (Z.max 0 m) n /\ n * shard_max (Z.max 0 m) n <= Z.max m n.
Proof.
  intros Hm Hn. unfold shard_max. rewrite Z.max_r by lia. destruct (Z.gtb_spec m 0); [|lia].
  rewrite Z.quot_div_nonneg by lia. pose proof (Z.mul_div_le m n Hn).
  destruct (Z.ltb_spec (m `div` n) 1); lia.
Qed.

Definition sum_sizes (l : list shard) : nat := sum_list_with (fun s => size (shard_entries s)) l.

Lemma sum_sizes_le (b : Z) l :
  (forall s, s ∈ l -> Z.of_nat (size (shard_entries s)) <= b) ->
  Z.of_nat (sum_sizes l) <= Z.of_nat (length l) * b.
Proof.
  unfold sum_sizes. induction l as [|s l IH]; intros Hs; simpl; [lia|].
  pose proof (Hs s (list_elem_of_here _ _)). specialize (IH (fun x Hx => Hs x (list_elem_of_further _ _ _ Hx))). lia.
Qed.

Lemma cache_map_idle_size c :
  cache_ok c -> OldShards (rehasher c) = [] -> size (cache_map c) = sum_sizes (table c).
Proof.
  intros Hok Hold. unfold cache_map. rewrite Hold. simpl. rewrite (right_id_L ∅ (∪)).
  pose proof (shards_map_size (fun _ => True) _ _ (table_told _ _ (co_table c Hok))) as Hsz.
  rewrite map_filter_true in Hsz. rewrite Hsz. unfold sum_sizes. clear.
  induction (table c) as [|s l IH]; simpl; [done|]. by rewrite map_filter_true, IH.
Qed.

Lemma framed_shard_size c c' n f m s' :
  cache_ok c' -> same_config c c' -> table c = replicate n (newShard f m) ->
  policy_tracks f = true -> 0 < m -> s' ∈ table c' -> Z.of_nat (size (shard_entries s')) <= m.
Proof.
  intros Hok' Hsc Htab Htr Hp (i & Hs')%list_elem_of_lookup.
  destruct (Forall2_lookup_r _ _ _ _ _ (sc_frame _ _ Hsc) Hs') as (s & Hs & (Hn & Hm & Hcap)).
  rewrite Htab in Hs. apply lookup_replicate in Hs as [-> _].
  pose proof (newShard_limit f m Hp) as [Hlim1 Hlim2].
  pose proof (Hcap true) as Hc. rewrite <-Htr in Hc. specialize (Hc (newShard_cap _ _)). rewrite Htr in Hc.
  assert (shard_ok s') as Hsok by (apply (to_ok _ _ (co_table c' Hok')); by eapply list_elem_of_lookup_2).
  pose proof (shard_cap_total s' Hsok Hc ltac:(lia)). rewrite Hn, Hm in *. lia.
Qed.

(** ** Properties *)

(** C1 (refinement): a run of Set, Get, Del, Resize, Cleanup and SetEvictionPolicy on a
    new cache returns, call by call, what a plain map with deadlines returns,
    mid-migration included, and no call panics or loops, under these conditions: the
    rehasher is not the noop one (which loses the old table on Resize); the clock does
    not go back and deadlines stay within 64 bits ([valid_run]); and either nothing is
    resized, or the cache has no size limit or room for at least 16 entries per shard,
    before and after every resize ([roomy]; smaller tables panic in [ExtractN]).
    Without a size limit the results are equal; with one, the only difference a caller
    can see is a key reported missing. *)
Theorem cache_refines_map policies o c ops :
  registry_ok policies -> New policies rehash_registry o = Ok c -> o_rehasher o <> "noop"%string ->
  valid_run (maxSize (opts c)) (defaultTTL (opts c)) 0 ops ->
  (roomy (maxSize o) (shardCount o) \/ Forall (fun o => is_resize o.2 = false) ops) ->
  exists rs c', kv_run policies ops c ⇓ (rs, c') /\
    Forall2 (allowed (maxSize o <= 0)) rs (spec_run (defaultTTL o) ops ∅).
Proof.
  intros Hreg Hnew Hno Hv Hroom.
  destruct (New_ok policies o c Hreg Hnew) as (Hok & Hview & Hm & Hd & _ & Hk & Hres & _).
  assert (holds 0 c ∅) as Hh by (intros k t _; left; by rewrite Hview, lookup_empty).
  assert (resizable c \/ Forall (fun o => is_resize o.2 = false) ops) as Hr by (destruct Hroom; auto).
  destruct (kv_run_refines policies ops c ∅ 0 Hreg ltac:(lia) Hok (Hk Hno) Hh Hv Hr) as (rs & c' & Hrun & _ & Hall & _).
  exists rs, c'. split; [done|]. rewrite <-Hd. eapply Forall2_impl; [exact Hall|].
  intros x y [->|(Hu & -> & Hy)]; [by left|right]. split; [|done]. unfold unlimited in Hu. lia.
Qed.

(** C2 (liveness): a migration ends.  Take a sound cache whose shards all use their
    eight sub-shards ([resizable]: no size limit, or room for 16 entries per shard;
    others panic in [ExtractN]), with a rehasher other than the noop one and no rehash
    under way.  After a Resize to a valid number of shards the rehash is over after at
    most one Set, Get or Del per entry held plus one per old shard, when deadlines stay
    within 64 bits, and none of these calls panics. *)
Theorem rehash_completes policies n now ops c :
  cache_ok c -> resizable c -> bad_shard_count n = false -> IsRehashing (rehasher c) = false ->
  rehasher c <> RNoop ->
  Forall (fun '(now, o) => 0 <= now /\ hot o = true /\ op_valid now o c) ops ->
  (size (cache_map c) + length (table c) <= length ops)%nat ->
  exists rs c', kv_run policies ((now, KResize n) :: ops) c ⇓ (rs, c') /\
    IsRehashing (rehasher c') = false /\ cache_ok c'.
Proof.
  intros Hok Hres Hn Hr Hno Hall Hlen.
  destruct (Resize_ok n c Hok Hres Hno) as (Hok1 & _ & Ho1 & _).
  pose proof (Resize_todo n c Hok Hn Hr Hno) as Htodo. cbn [kv_run kv_step mbind outcome_bind].
  destruct (hot_run policies ops (Resize n c).2 Hok1) as (rs & c' & -> & Hok' & Hc').
  { eapply Forall_impl; [exact Hall|]. intros [t o] (? & ? & Hv). split_and!; [done|done|].
    destruct o; try done. simpl in *. unfold effective_ttl in *. by rewrite Ho1. }
  eexists _, c'. split; [done|]. split; [|done]. destruct Hc' as [Hle|]; [|done].
  destruct (IsRehashing (rehasher c')) eqn:Hr'; [|done].
  pose proof (todo_pos _ _ _ (co_rehash c' Hok') Hr'). lia.
Qed.

(** C3 (bounds): under a policy that tracks its keys, a cache created for
    [maxSize] entries never holds more than [maxSize] of them, or one per shard
    when there are more shards than that, over any run of Set, Get and Del. *)
Theorem cache_capacity policies o c ops :
  registry_ok policies -> New policies rehash_registry o = Ok c ->
  0 < maxSize o -> policy_tracks (policyFactory c) = true ->
  Forall (fun '(now, o) => 0 <= now /\ is_kv o = true /\ op_valid now o c) ops ->
  exists rs c', kv_run policies ops c ⇓ (rs, c') /\
    Z.of_nat (size (cache_map c')) <= Z.max (maxSize o) (shardCount o).
Proof.
  intros Hreg Hnew Hmax Htr Hall.
  destruct (New_ok policies o c Hreg Hnew) as (Hok & _ & _ & _ & _ & _ & _ & _ & Htab & Hpos & Hidle & Hold).
  destruct (kv_only_run policies ops c Hok Hall) as (rs & c' & Hrun & Hok' & Hsc & Hi).
  exists rs, c'. split; [done|].
  destruct (shard_max_bound _ _ Hmax Hpos) as [Hp Hbound].
  rewrite cache_map_idle_size by (rewrite ?(Hi Hidle); done).
  transitivity (Z.of_nat (length (table c')) * shard_max (Z.max 0 (maxSize o)) (shardCount o)).
  { apply sum_sizes_le. intros s' Hs'. by eapply framed_shard_size. }
  pose proof (Forall2_length _ _ _ (sc_frame _ _ Hsc)) as Hlen. rewrite Htab, length_replicate in Hlen.
  rewrite <-Hlen. lia.
Qed.

(** C4 (functional): [Len] counts the unexpired keys.  After a run as in
    [cache_refines_map], in the middle of a migration too, [Len] is the number of keys
    for which [Get] returns a value, each counted once.  Without a size limit these are
    the keys a plain map with deadlines holds after the run; with one, some of them. *)
Theorem cache_len_counts policies o c ops now :
  registry_ok policies -> New policies rehash_registry o = Ok c -> o_rehasher o <> "noop"%string ->
  valid_run (maxSize (opts c)) (defaultTTL (opts c)) 0 ops ->
  (roomy (maxSize o) (shardCount o) \/ Forall (fun o => is_resize o.2 = false) ops) ->
  end_of 0 ops <= now ->
  exists rs c' (m : gmap string cacheEntry), kv_run policies ops c ⇓ (rs, c') /\
    Cache.Len now c' ⇓ (Z.of_nat (size m)) /\ m !! EmptyString = None /\
    (forall key, key <> EmptyString ->
       exists c'', Get now key c' ⇓ (match m !! key with Some e => Ok (value e) | None => Err ErrKeyNotFound end, c'')) /\
    m ⊆ live now (spec_state (defaultTTL o) ops ∅) /\
    (maxSize o <= 0 -> m = live now (spec_state (defaultTTL o) ops ∅)).
Proof.
  intros Hreg Hnew Hno Hv Hroom Hnow.
  destruct (New_ok policies o c Hreg Hnew) as (Hok & Hview & Hm & Hd & _ & Hk & Hres & _).
  assert (holds 0 c ∅) as Hh by (intros k t _; left; by rewrite Hview, lookup_empty).
  assert (resizable c \/ Forall (fun o => is_resize o.2 = false) ops) as Hr by (destruct Hroom; auto).
  destruct (kv_run_refines policies ops c ∅ 0 Hreg ltac:(lia) Hok (Hk Hno) Hh Hv Hr) as (rs & c' & Hrun & (Hok' & _ & Ho & _) & _ & Hh').
  pose proof (end_of_le _ _ _ _ Hv) as Hend. rewrite Hd in Hh'.
  assert (live now (cache_map c') ⊆ live now (spec_state (defaultTTL o) ops ∅)) as Hsub.
  { apply map_subseteq_spec. intros k e. rewrite !live_lookup, cache_map_lookup by done.
    destruct (Hh' k now Hnow) as [->|[_ ->]]; done. }
  exists rs, c', (live now (cache_map c')). split_and!; [done|by apply Len_ok| | |done|].
  - apply eq_None_not_Some. intros [e He]. eapply lookup_weaken in He; [|exact Hsub].
    rewrite live_lookup, spec_state_no_empty in He by apply lookup_empty. done.
  - intros key Hkey. destruct (Get_ok now key c' ltac:(lia) Hok' Hkey) as (c2 & -> & _). exists c2.
    by rewrite live_lookup, cache_map_lookup.
  - intros Hu. apply map_eq. intros k. rewrite !live_lookup, cache_map_lookup by done.
    destruct (Hh' k now Hnow) as [->|[Hl _]]; [done|]. destruct Hl. unfold unlimited. rewrite Ho. lia.
Qed.

End Spec.

(** ** The properties at concrete caches *)

#[local] Existing Instance trie_order.

Definition demo_options (shards size : Z) : Options := WithMaxSize size (WithShards shards NewOptions).

(** The cache [New] makes of [demo_options], with the built-in registries. *)
Definition demo_cache (shards size : Z) : Cache Policies.policy :=
  let dummy := mkCache [] 0 NewOptions true RNoop EmptyString (PNoop NoopPolicy) 0 0 [] in
  match New policyRegistry rehash_registry (demo_options shards size) with
  | Ok c => c
  | Err _ => dummy
  end.

Lemma demo_new :
  New policyRegistry rehash_registry (demo_options 2 0) = Ok (demo_cache 2 0) /\
  New policyRegistry rehash_registry (demo_options 2 64) = Ok (demo_cache 2 64).
Proof. split; vm_compute; reflexivity. Qed.

Lemma demo_ok : cache_ok (demo_cache 2 0) /\ resizable (demo_cache 2 0).
Proof.
  pose proof (New_ok _ _ _ policyRegistry_ok (proj1 demo_new)) as (Hok & _ & _ & _ & _ & _ & Hr & _).
  split; [done|]. apply Hr. by left.
Qed.

Definition demo_ops : list (Z * kv_op) :=
  [(1, KSet "a" (Some [x2a]) (Some 10)); (2, KResize 4); (3, KGet "a"); (4, KDel "b"); (20, KGet "a")].

Lemma cache_refines_map_witness :
  exists rs c', kv_run policyRegistry demo_ops (demo_cache 2 0) ⇓ (rs, c') /\
    Forall2 (allowed (0 <= 0)) rs
      [RErr None; RNone; RVal (Ok [x2a]); RErr None; RVal (Err ErrKeyNotFound)].
Proof.
  replace [RErr None; RNone; RVal (Ok [x2a]); RErr None; RVal (Err ErrKeyNotFound)]
    with (spec_run (defaultTTL (demo_options 2 0)) demo_ops ∅) by (vm_compute; reflexivity).
  apply (cache_refines_map policyRegistry (demo_options 2 0) (demo_cache 2 0) demo_ops);
    [apply policyRegistry_ok|apply demo_new|discriminate| |left; left; discriminate].
  vm_compute. repeat split; try discriminate. left; discriminate.
Defined.

Lemma rehash_completes_witness :
  exists rs c', kv_run policyRegistry [(1, KResize 4); (2, KGet "a"); (3, KGet "a")]
    (demo_cache 2 0) ⇓ (rs, c') /\ IsRehashing (rehasher c') = false /\ cache_ok c'.
Proof.
  apply (rehash_completes policyRegistry 4 1 [(2, KGet "a"); (3, KGet "a")] (demo_cache 2 0));
    [apply demo_ok|apply demo_ok|reflexivity|reflexivity|discriminate| |].
  - repeat constructor; discriminate.
  - vm_compute. repeat constructor.
Defined.

Lemma cache_capacity_witness :
  exists rs c', kv_run policyRegistry [(1, KSet "a" (Some []) None); (2, KDel "b")]
    (demo_cache 2 64) ⇓ (rs, c') /\ Z.of_nat (size (cache_map c')) <= 64.
Proof.
  apply (cache_capacity policyRegistry (demo_options 2 64));
    [apply policyRegistry_ok|apply demo_new|reflexivity|reflexivity|].
  repeat constructor; discriminate.
Defined.

(** Two entries, one of them expired by then, and a migration that has just begun. *)
Definition demo_len_ops : list (Z * kv_op) :=
  [(1, KSet "a" (Some [x2a]) None); (1, KSet "b" (Some [x2a]) (Some 2)); (2, KSet "c" (Some []) None); (2, KResize 4)].

Lemma cache_len_counts_witness :
  exists rs c', kv_run policyRegistry demo_len_ops (demo_cache 2 0) ⇓ (rs, c') /\
    IsRehashing (rehasher c') = true /\ Cache.Len 5 c' ⇓ 2.
Proof.
  destruct (cache_len_counts policyRegistry (demo_options 2 0) (demo_cache 2 0) demo_len_ops 5)
    as (rs & c' & m & Hrun & Hlen & _ & _ & _ & Hm);
    [apply policyRegistry_ok|apply demo_new|discriminate| |left; left; discriminate|discriminate|].
  - vm_compute. repeat split; try discriminate. left; discriminate.
  - exists rs, c'. split; [exact Hrun|]. split.
    + enough ((match kv_run policyRegistry demo_len_ops (demo_cache 2 0) with
               | Ret (_, c) => IsRehashing (rehasher c) | _ => false end) = true) as H by (rewrite Hrun in H; exact H).
      vm_compute. reflexivity.
    + rewrite Hlen, Hm by discriminate. vm_compute. reflexivity.
Defined.
