(* ===== verification/CacheExt.v ===== *)
(** * Collections and key management at the cache (cache.go, cache_ext.go)

    The operations on sets, hashes and lists, and those on keys of any type.  Each
    checks that the cache is open and the key not empty, then calls the shard of
    the key.  The operations over several sets look the sets up in every shard. *)

From stdpp Require Import base tactics numbers list gmap sets fin_maps strings.
From S2P Require Import Prelude.
From S2P Require Import Policy.
From S2P Require Import DList.
From S2P Require Import DHash.
From S2P Require Import DSet.
From S2P Require Import Policies.
From S2P Require Import Hashing.
From S2P Require Import Shard.
From S2P Require Import ShardTyped.
From S2P Require Import Rehash.
From S2P Require Import Cache.

Section Ext.
Context `{MI : MapIter} `{EP : EvictionPolicy P}.
Notation shard := (shard P).
Notation Cache := (Cache P).

(** ** The shape of an operation *)

(** The checks every operation on a key starts with. *)
Definition checked {A} (key : string) (body : Cache -> outcome (result error A * Cache)) (c : Cache) :
    outcome (result error A * Cache) :=
  match validateOpen c with
  | Some e => Ret (Err e, c)
  | None => if decide (key = EmptyString) then Ret (Err ErrKeyEmpty, c) else body c
  end.

(** A call of the shard of [key] that can fail, one that cannot, and one that only reads. *)
Definition try_shard {A} (key : string) (f : shard -> result error A * shard) : Cache -> outcome (result error A * Cache) :=
  checked key (on_shard key (fun s => Ret (f s))).
Definition call_shard {A} (key : string) (f : shard -> A * shard) : Cache -> outcome (result error A * Cache) :=
  try_shard key (fun s => let '(a, s) := f s in (Ok a, s)).
Definition ask_shard {A} (key : string) (f : shard -> result error A) : Cache -> outcome (result error A * Cache) :=
  try_shard key (fun s => (f s, s)).

(** [if !ok { return ..., ErrKeyNotFound }]. *)
Definition found {A} (o : option A) : result error A :=
  match o with Some a => Ok a | None => Err ErrKeyNotFound end.

(** ** Sets *)

Definition SAdd (key : string) (elems : list string) := call_shard key (sAdd key elems).
Definition SRem (key : string) (elems : list string) := call_shard key (sRem key elems).
Definition SIsMember (key elem : string) := ask_shard key (fun s => Ok (sIsMember key elem s)).
Definition SMembers (key : string) := ask_shard key (fun s => Ok (sMembers key s)).
Definition SCard (key : string) := ask_shard key (fun s => Ok (sCard key s)).
Definition SPop (rnd : nat) (key : string) :=
  try_shard key (fun s => let '(o, s) := sPop rnd key s in (found o, s)).
Definition SRandMember (perm : list nat) (draw : nat -> nat) (key : string) (count : Z) :
    Cache -> outcome (result error (option (list string)) * Cache) :=
  checked key (on_shard key (fun s => l ← sRandMember perm draw key count s; mret (Ok l, s))).

(** A pointer to a set: that of [key] in shard [i], or a set made on the spot. *)
Inductive set_ptr : Type :=
| InShard (i : nat) (key : string)
| NewSet (n : nat).

#[global] Instance set_ptr_eq_dec : EqDecision set_ptr.
Proof. solve_decision. Defined.

Definition set_at (c : Cache) (p : set_ptr) : gset string :=
  match p with
  | InShard i key => default ∅ (s ← table c !! i; sets s !! key)
  | NewSet _ => DSet.New
  end.

(** [for _, s := range shards { if ss := s.getSet(key); ss != nil { ...; break } }]. *)
Fixpoint find_set (key : string) (i : nat) (l : list shard) : option set_ptr :=
  match l with
  | [] => None
  | s :: l => match getSet key s with Some _ => Some (InShard i key) | None => find_set key (S i) l end
  end.

(** [None] is the nil slice. *)
Definition SUnion (keys : list string) (c : Cache) : result error (option (list string)) :=
  match validateOpen c with
  | Some e => Err e
  | None =>
      let sets := omap (fun key => find_set key 0 (table c)) keys in
      match sets with
      | [] => Ok None
      | _ => Ok (Some (DSet.Members (DSet.Union (set_at c) sets)))
      end
  end.

(** The collecting loop, which stops at the first key that is missing. *)
Fixpoint all_sets (keys : list string) (c : Cache) : option (list set_ptr) :=
  match keys with
  | [] => Some []
  | key :: keys =>
      match find_set key 0 (table c) with
      | Some p => cons p <$> all_sets keys c
      | None => None
      end
  end.

Definition SInter (keys : list string) (c : Cache) : result error (option (list string)) :=
  match validateOpen c with
  | Some e => Err e
  | None =>
      match all_sets keys c with
      | None => Ok None
      | Some sets => Ok (Some (DSet.Members (DSet.Inter (set_at c) sets)))
      end
  end.

Definition SDiff (keys : list string) (c : Cache) : result error (option (list string)) :=
  match validateOpen c with
  | Some e => Err e
  | None =>
      let sets := imap (fun n key => default (NewSet n) (find_set key 0 (table c))) keys in
      Ok (Some (DSet.Members (DSet.Diff (set_at c) sets)))
  end.

(** ** Hashes *)

Definition HSet (key field value : string) := call_shard key (hSet key field value).
Definition HSetNX (key field value : string) := call_shard key (hSetNX key field value).
Definition HGet (key field : string) := ask_shard key (fun s => found (hGet key field s)).
Definition HDel (key : string) (fields : list string) := call_shard key (hDel key fields).
Definition HExists (key field : string) := ask_shard key (fun s => Ok (hExists key field s)).
Definition HGetAll (key : string) := ask_shard key (fun s => found (hGetAll key s)).
Definition HKeys (key : string) := ask_shard key (fun s => found (hKeys key s)).
Definition HVals (key : string) := ask_shard key (fun s => found (hVals key s)).
Definition HLen (key : string) := ask_shard key (fun s => Ok (hLen key s)).
Definition HStrLen (key field : string) := ask_shard key (fun s => Ok (hStrLen key field s)).
Definition HIncrBy (key field : string) (delta : Z) := try_shard key (hIncrBy key field delta).
Definition HIncrByFloat `{FO : FloatOps float64} (key field : string) (delta : float64) :=
  try_shard key (hIncrByFloat key field delta).
Definition HMGet (key : string) (fields : list string) := ask_shard key (fun s => Ok (hmGet key fields s)).
Definition HMSet (key : string) (fvPairs : list string) := call_shard key (fun s => (tt, hmSet key fvPairs s)).

(** ** Lists *)

Definition LPush (key : string) (elems : list string) := call_shard key (lPush key elems).
Definition RPush (key : string) (elems : list string) := call_shard key (rPush key elems).
Definition LPop (key : string) := try_shard key (fun s => let '(o, s) := lPop key s in (found o, s)).
Definition RPop (key : string) := try_shard key (fun s => let '(o, s) := rPop key s in (found o, s)).
Definition LLen (key : string) := ask_shard key (fun s => Ok (lLen key s)).
Definition LRange (key : string) (start stop : Z) := ask_shard key (fun s => found (lRange key start stop s)).
Definition LIndex (key : string) (index : Z) := ask_shard key (fun s => found (lIndex key index s)).
Definition LSet (key : string) (index : Z) (value : string) :=
  try_shard key (fun s =>
    let '(ok, s) := lSet key index value s in
    ((if ok : bool then Ok tt else Err ErrKeyNotFound), s)).
Definition LRem (key : string) (count : Z) (value : string) := call_shard key (lRem key count value).
Definition LTrim (key : string) (start stop : Z) := call_shard key (fun s => (tt, lTrim key start stop s)).
Definition LInsert (key : string) (before : bool) (pivot value : string) :=
  call_shard key (lInsert key before pivot value).
Definition LPos (key value : string) (rank count maxLen : Z) :=
  ask_shard key (fun s => Ok (lPos key value rank count maxLen s)).

(** ** Keys *)

(** A shard's operation on the entry of a key, which may panic. *)
Definition entry_op {A} (key : string) (f : shard -> outcome (A * shard)) : Cache -> outcome (result error A * Cache) :=
  checked key (on_shard key (fun s => '(a, s) ← f s; mret (Ok a, s))).
Definition entry_read {A} (key : string) (f : shard -> outcome A) : Cache -> outcome (result error A * Cache) :=
  entry_op key (fun s => a ← f s; mret (a, s)).

Definition Exists (now : Z) (key : string) := entry_read key (keyExists now key).
Definition Type_ (now : Z) (key : string) := entry_read key (keyType now key).
Definition Expire (now : Z) (key : string) (seconds : Z) :=
  entry_op key (expire now key (int64 (seconds * 1000000000))).
Definition PExpire (now : Z) (key : string) (ms : Z) :=
  entry_op key (expire now key (int64 (ms * 1000000))).

(** [time.Unix(timestamp, 0)] in nanoseconds: the seconds are kept since year 1 in 64 bits. *)
Definition unix_seconds (timestamp : Z) : Z :=
  (int64 (timestamp + 62135596800) - 62135596800) * 1000000000.

(** [time.Until] of the instant [t], and an expiry when it is positive. *)
Definition expire_until (t now : Z) (key : string) : Cache -> outcome (result error bool * Cache) :=
  checked key (fun c =>
    let ttl := sat64 (t - now) in
    if ttl <=? 0 then Ret (Ok false, c)
    else on_shard key (fun s => '(b, s) ← expire now key ttl s; mret (Ok b, s)) c).

Definition ExpireAt (now : Z) (key : string) (timestamp : Z) := expire_until (unix_seconds timestamp) now key.
Definition PExpireAt (now : Z) (key : string) (msTimestamp : Z) :=
  expire_until (int64 (msTimestamp * 1000000)) now key.
Definition TTL (now : Z) (key : string) := entry_read key (ttlSeconds now key).
Definition PTTL (now : Z) (key : string) := entry_read key (ttlMillis now key).
Definition Persist (now : Z) (key : string) := entry_op key (persist now key).

Definition Keys (Match : string -> string -> bool) (now : Z) (pattern : string) (c : Cache) :
    outcome (result error (list string)) :=
  match validateOpen c with
  | Some e => Ret (Err e)
  | None =>
      '(matched, _) ← each_shard (fun s matched =>
        l ← matchKeys Match now pattern s; mret (matched ++ l, s)) (table c) [];
      mret (Ok matched)
  end.

End Ext.
