(* ===== verification/CacheExtSpec.v ===== *)
(** * Collections of a cache: the table of shards is not observable

    Every operation on collections acts on the data of its key in one shard, so a
    cache answers as if it had a single shard; what the operations over several
    sets return; what closing and resizing do to collections; and how the
    operations on keys see a cache in the middle of a migration. *)

From Stdlib Require Import Strings.Byte.
From stdpp Require Import base tactics numbers list gmap sets fin_maps strings.
From S2P Require Import Prelude.
From S2P Require Import Policy.
From S2P Require Import DList.
From S2P Require Import DHash.
From S2P Require Import DSet.
From S2P Require Import Policies.
From S2P Require Import Hashing.
From S2P Require Import Shard.
From S2P Require Import ShardTyped.
From S2P Require Import Rehash.
From S2P Require Import Cache.
From S2P Require Import CacheSpec.
From S2P Require Import CacheExt.

(** ** Operations on collections, by the type of their result *)

Inductive ext_op : Type -> Type :=
| XSAdd (key : string) (elems : list string) : ext_op Z
| XSRem (key : string) (elems : list string) : ext_op Z
| XSIsMember (key elem : string) : ext_op bool
| XSMembers (key : string) : ext_op (option (list string))
| XSCard (key : string) : ext_op Z
| XSPop (rnd : nat) (key : string) : ext_op string
| XSRandMember (perm : list nat) (draw : nat -> nat) (key : string) (count : Z) : ext_op (option (list string))
| XSUnion (keys : list string) : ext_op (option (list string))
| XSInter (keys : list string) : ext_op (option (list string))
| XSDiff (keys : list string) : ext_op (option (list string))
| XHSet (key field value : string) : ext_op Z
| XHSetNX (key field value : string) : ext_op bool
| XHGet (key field : string) : ext_op string
| XHDel (key : string) (fields : list string) : ext_op Z
| XHExists (key field : string) : ext_op bool
| XHGetAll (key : string) : ext_op (gmap string string)
| XHKeys (key : string) : ext_op (list string)
| XHVals (key : string) : ext_op (list string)
| XHLen (key : string) : ext_op Z
| XHStrLen (key field : string) : ext_op Z
| XHIncrBy (key field : string) (delta : Z) : ext_op Z
| XHMGet (key : string) (fields : list string) : ext_op (list (option string))
| XHMSet (key : string) (fvPairs : list string) : ext_op unit
| XLPush (key : string) (elems : list string) : ext_op Z
| XRPush (key : string) (elems : list string) : ext_op Z
| XLPop (key : string) : ext_op string
| XRPop (key : string) : ext_op string
| XLLen (key : string) : ext_op Z
| XLRange (key : string) (start stop : Z) : ext_op (list string)
| XLIndex (key : string) (index : Z) : ext_op string
| XLSet (key : string) (index : Z) (value : string) : ext_op unit
| XLRem (key : string) (count : Z) (value : string) : ext_op Z
| XLTrim (key : string) (start stop : Z) : ext_op unit
| XLInsert (key : string) (before : bool) (pivot value : string) : ext_op Z
| XLPos (key value : string) (rank count maxLen : Z) : ext_op (list Z).

Section ExtSpec.
Context `{MI : MapIter} `{EP : EvictionPolicy P}.
Notation shard := (shard P).
Notation Cache := (Cache P).

Definition ext_step {A} (o : ext_op A) : Cache -> outcome (result error A * Cache) :=
  match o in ext_op A return Cache -> outcome (result error A * Cache) with
  | XSAdd key elems => SAdd key elems
  | XSRem key elems => SRem key elems
  | XSIsMember key elem => SIsMember key elem
  | XSMembers key => SMembers key
  | XSCard key => SCard key
  | XSPop rnd key => SPop rnd key
  | XSRandMember perm draw key count => SRandMember perm draw key count
  | XSUnion keys => fun c => Ret (SUnion keys c, c)
  | XSInter keys => fun c => Ret (SInter keys c, c)
  | XSDiff keys => fun c => Ret (SDiff keys c, c)
  | XHSet key field value => HSet key field value
  | XHSetNX key field value => HSetNX key field value
  | XHGet key field => HGet key field
  | XHDel key fields => HDel key fields
  | XHExists key field => HExists key field
  | XHGetAll key => HGetAll key
  | XHKeys key => HKeys key
  | XHVals key => HVals key
  | XHLen key => HLen key
  | XHStrLen key field => HStrLen key field
  | XHIncrBy key field delta => HIncrBy key field delta
  | XHMGet key fields => HMGet key fields
  | XHMSet key fvPairs => HMSet key fvPairs
  | XLPush key elems => LPush key elems
  | XRPush key elems => RPush key elems
  | XLPop key => LPop key
  | XRPop key => RPop key
  | XLLen key => LLen key
  | XLRange key start stop => LRange key start stop
  | XLIndex key index => LIndex key index
  | XLSet key index value => LSet key index value
  | XLRem key count value => LRem key count value
  | XLTrim key start stop => LTrim key start stop
  | XLInsert key before pivot value => LInsert key before pivot value
  | XLPos key value rank count maxLen => LPos key value rank count maxLen
  end.

(** A run, with the results of its calls. *)
Fixpoint ext_run (ops : list { A & ext_op A }) (c : Cache) : outcome (list { A & result error A } * Cache) :=
  match ops with
  | [] => Ret ([], c)
  | existT A o :: ops =>
      '(r, c) ← ext_step o c;
      '(rs, c) ← ext_run ops c;
      mret (existT A r :: rs, c)
  end.

(** ** The data of one key *)

Definition agree (k : string) (s t : shard) : Prop :=
  sets s !! k = sets t !! k /\ hashes s !! k = hashes t !! k /\ lists s !! k = lists t !! k.

(** [s'] is [s] but for the collections of [key]. *)
Definition touches (key : string) (s s' : shard) : Prop :=
  subs s' = subs s /\ numSubs s' = numSubs s /\ maxSubSize s' = maxSubSize s /\ forall k, k <> key -> agree k s' s.

(** The same outcome, up to the data of other keys. *)
Definition same_call {A} (key : string) (s t : shard) (x y : outcome (A * shard)) : Prop :=
  match x, y with
  | Ret (a, s'), Ret (b, t') => a = b /\ agree key s' t' /\ touches key s s' /\ touches key t t'
  | Panic, Panic => True
  | NoFuel, NoFuel => True
  | _, _ => False
  end.

(** A shard's operation that depends on and changes the collections of [key] only. *)
Definition local_to {A} (key : string) (f : shard -> outcome (A * shard)) : Prop :=
  forall s t, agree key s t -> same_call key s t (f s) (f t).

Lemma agree_refl k s : agree k s s.
Proof. done. Qed.

Lemma touches_refl key s : touches key s s.
Proof. done. Qed.

Lemma agree_trans k s t u : agree k s t -> agree k t u -> agree k s u.
Proof. intros (? & ? & ?) (? & ? & ?). split_and!; etransitivity; done. Qed.

Lemma agree_sym k s t : agree k s t -> agree k t s.
Proof. intros (? & ? & ?). split_and!; done. Qed.

(** *** Reads and the three kinds of write *)

Lemma local_read {A} key (f : shard -> A) :
  (forall s t, agree key s t -> f s = f t) -> local_to key (fun s => Ret (f s, s)).
Proof. intros Hf s t Hst. cbn. split_and!; auto using touches_refl; apply Hst. Qed.

Lemma touches_sets key m s :
  (forall k, k <> key -> m !! k = sets s !! k) -> touches key s (with_sets m s).
Proof. intros Hm. split_and!; try done. intros k Hk. split_and!; [by apply Hm|done|done]. Qed.

Lemma touches_hashes key m s :
  (forall k, k <> key -> m !! k = hashes s !! k) -> touches key s (with_hashes m s).
Proof. intros Hm. split_and!; try done. intros k Hk. split_and!; [done|by apply Hm|done]. Qed.

Lemma touches_lists key m s :
  (forall k, k <> key -> m !! k = lists s !! k) -> touches key s (with_lists m s).
Proof. intros Hm. split_and!; try done. intros k Hk. split_and!; [done|done|by apply Hm]. Qed.

(** Case analysis on what the key holds; every branch writes one key of one map. *)
Ltac local_solve :=
  intros s t (Hs & Hh & Hl); cbn;
  repeat first
    [ rewrite <-Hs | rewrite <-Hh | rewrite <-Hl
    | progress unfold in_hash, in_list, put_set, put_list
    | progress cbn
    | case_match ];
  simplify_eq; cbn;
  (split; [done|]); (split; [split_and!; cbn; rewrite ?lookup_insert_eq, ?lookup_delete_eq; congruence|]);
  split; split_and!; try done; intros k Hk; split_and!; cbn;
  rewrite ?lookup_insert_ne, ?lookup_delete_ne by done; done.

(** Whether an operation is on one key. *)
Definition one_key {A} (o : ext_op A) : bool :=
  match o with XSUnion _ | XSInter _ | XSDiff _ => false | _ => true end.

Lemma sRandMember_local perm draw key count :
  local_to key (fun s => l ← sRandMember perm draw key count s; mret (@Ok error _ l, s)).
Proof.
  intros s t Hst. pose proof (proj1 Hst) as Hs. unfold sRandMember. rewrite <-Hs.
  case_match; [|cbn; auto using touches_refl].
  destruct (DSet.RandMember perm draw count _); cbn; auto using touches_refl.
Qed.

(** Every operation on one key is a local call of the key's shard. *)
Lemma ext_step_local {A} (o : ext_op A) :
  one_key o = true ->
  exists key (f : shard -> outcome (result error A * shard)),
    (forall c, ext_step o c = checked key (on_shard key f) c) /\ local_to key f.
Proof.
  intros Ho. destruct o; try done; (eexists _, _; split; [intros c; reflexivity|]);
    try apply sRandMember_local;
    unfold sAdd, sRem, sIsMember, sMembers, sCard, sPop, hSet, hSetNX, hGet, hDel, hExists,
      hGetAll, hKeys, hVals, hLen, hStrLen, hIncrBy, hmGet, hmSet, lPush, rPush, lPop, rPop, lLen, lRange,
      lIndex, lSet, lRem, lTrim, lInsert, lPos, found; local_solve.
Qed.

(** ** Two caches that hold the same collections *)

(** The shard of [k] in [c]. *)
Definition home (c : Cache) (k : string) : option shard := table c !! Z.to_nat (shardIndex c k).

(** Every key has a shard, and a set is in the shard of its key. *)
Record placed (c : Cache) : Prop := {
  pl_open : closed c = false;
  pl_home k : is_Some (home c k);
  pl_sets i s k : table c !! i = Some s -> is_Some (sets s !! k) -> i = Z.to_nat (shardIndex c k);
}.

Definition same_data (c d : Cache) : Prop :=
  forall k s t, home c k = Some s -> home d k = Some t -> agree k s t.

Lemma on_shard_home {A} key (f : shard -> outcome (A * shard)) c s :
  home c key = Some s -> on_shard key f c = ('(a, s') ← f s; mret (a, put_shard key s' c)).
Proof. unfold home, on_shard, getShard. by intros ->. Qed.

Lemma home_put c key s' k :
  placed c ->
  home (put_shard key s' c) k =
    if decide (Z.to_nat (shardIndex c k) = Z.to_nat (shardIndex c key)) then Some s' else home c k.
Proof.
  intros Hp. unfold home, put_shard, shardIndex. cbn. case_decide as Hd.
  - rewrite Hd. apply list_lookup_insert_eq. destruct (pl_home c Hp key) as [? H]. by apply lookup_lt_Some in H.
  - by rewrite list_lookup_insert_ne by congruence.
Qed.

Lemma placed_put c key s s' :
  placed c -> home c key = Some s -> touches key s s' -> placed (put_shard key s' c).
Proof.
  intros Hp Hs (_ & _ & _ & Ht). split; [apply Hp| |].
  - intros k. rewrite home_put by done. case_decide; [eauto|apply Hp].
  - intros i u k Hu Hk. change (shardIndex (put_shard key s' c) k) with (shardIndex c k).
    cbn in Hu. apply list_lookup_insert_Some in Hu as [(<- & <- & _)|[Hi Hu]]; [|by eapply pl_sets].
    destruct (decide (k = key)) as [->|Hne]; [done|].
    destruct (Ht k Hne) as (Hset & _). rewrite Hset in Hk. by apply (pl_sets c Hp _ s).
Qed.

Lemma put_other c key s s' k u w :
  placed c -> home c key = Some s -> touches key s s' -> k <> key ->
  home (put_shard key s' c) k = Some u -> home c k = Some w -> agree k u w.
Proof.
  intros Hc Hs (_ & _ & _ & Ht) Hk. rewrite home_put by done. unfold home in *. case_decide as Hd.
  - rewrite Hd, Hs. intros [= <-] [= <-]. by apply Ht.
  - intros -> [= <-]. apply agree_refl.
Qed.

(** Writes of the same data to the same key of both caches. *)
Lemma same_data_put c d key s s' t t' :
  placed c -> placed d -> same_data c d -> home c key = Some s -> home d key = Some t ->
  agree key s' t' -> touches key s s' -> touches key t t' ->
  same_data (put_shard key s' c) (put_shard key t' d).
Proof.
  intros Hc Hd Hsd Hs Ht Hag Hss Htt k u v Hu Hv. destruct (decide (k = key)) as [->|Hk].
  { rewrite home_put, decide_True in Hu by done. rewrite home_put, decide_True in Hv by done. by simplify_eq. }
  destruct (pl_home c Hc k) as [w Hw], (pl_home d Hd k) as [x Hx].
  eapply agree_trans; [by eapply (put_other c key s s')|].
  eapply agree_trans; [by eapply Hsd|]. by eapply agree_sym, (put_other d key t t').
Qed.

(** *** Operations over several sets *)

Definition set_of (c : Cache) (k : string) : option (gset string) := s ← home c k; sets s !! k.

Lemma find_set_none key i (l : list shard) :
  (forall s, s ∈ l -> sets s !! key = None) -> find_set key i l = None.
Proof.
  revert i. induction l as [|s l IH]; intros i Hl; [done|]. cbn. unfold getSet.
  rewrite Hl by constructor. apply IH. intros t Ht. apply Hl. by constructor.
Qed.

Lemma find_set_some key i (l : list shard) j s :
  l !! j = Some s -> is_Some (sets s !! key) ->
  (forall j' s', l !! j' = Some s' -> is_Some (sets s' !! key) -> j' = j) ->
  find_set key i l = Some (InShard (i + j) key).
Proof.
  revert i j. induction l as [|t l IH]; intros i j Hj [ss Hss] Huniq; [done|]. cbn. unfold getSet.
  destruct j as [|j]; simplify_eq/=.
  { rewrite Hss. do 2 f_equal. lia. }
  destruct (sets t !! key) eqn:Ht.
  { discriminate (Huniq 0%nat t eq_refl ltac:(by rewrite Ht)). }
  rewrite (IH (S i) j); [do 2 f_equal; lia|done|by eexists|].
  intros j' s' Hj' Hs'. specialize (Huniq (S j') s' Hj' Hs'). lia.
Qed.

(** The search finds the set of the key, if there is one. *)
Lemma find_set_spec c k :
  placed c ->
  find_set k 0 (table c) = (fun _ => InShard (Z.to_nat (shardIndex c k)) k) <$> set_of c k.
Proof.
  intros Hp. destruct (pl_home c Hp k) as [s Hs]. unfold set_of. rewrite Hs. cbn. unfold home in Hs.
  destruct (sets s !! k) as [ss|] eqn:Hss; cbn.
  - rewrite (find_set_some k 0 (table c) _ s Hs); [done|by eexists|]. intros j t Hj Ht. by eapply pl_sets.
  - apply find_set_none. intros t (j & Hj)%list_elem_of_lookup. apply eq_None_not_Some. intros Ht.
    pose proof (pl_sets c Hp j t k Hj Ht) as ->. simplify_eq. rewrite Hss in Ht. by destruct Ht.
Qed.

Definition members_of (c : Cache) (k : string) : gset string := default ∅ (set_of c k).

Lemma set_at_home c k : set_at c (InShard (Z.to_nat (shardIndex c k)) k) = members_of c k.
Proof. done. Qed.

Lemma same_data_set_of c d k : placed c -> placed d -> same_data c d -> set_of c k = set_of d k.
Proof.
  intros Hc Hd Hsd. unfold set_of. destruct (pl_home c Hc k) as [s Hs], (pl_home d Hd k) as [t Ht].
  rewrite Hs, Ht. cbn. by apply (Hsd k s t).
Qed.

Lemma found_sets c (keys : list string) :
  placed c ->
  omap (fun key => find_set key 0 (table c)) keys =
    (fun k => InShard (Z.to_nat (shardIndex c k)) k) <$> filter (fun k => is_Some (set_of c k)) keys.
Proof.
  intros Hp. induction keys as [|k keys IH]; [done|]. rewrite filter_cons.
  change (omap ?f (k :: keys)) with (match f k with Some p => p :: omap f keys | None => omap f keys end).
  rewrite IH, find_set_spec by done. destruct (set_of c k) eqn:Hk; cbn [fmap option_fmap option_map].
  - case_decide as Hd; [done|]. destruct Hd. by eexists.
  - case_decide as Hd; [by destruct Hd|done].
Qed.

Lemma all_sets_spec c keys :
  placed c ->
  all_sets keys c =
    if decide (Forall (fun k => is_Some (set_of c k)) keys)
    then Some ((fun k => InShard (Z.to_nat (shardIndex c k)) k) <$> keys) else None.
Proof.
  intros Hp. induction keys as [|k keys IH]; [by rewrite decide_True by constructor|]. cbn.
  rewrite find_set_spec, IH by done. destruct (set_of c k) eqn:Hk; cbn.
  - case_decide as H1; case_decide as H2; try done; exfalso.
    + apply H2. constructor; [by rewrite Hk; eexists|done].
    + by apply Forall_cons in H2 as [_ ?].
  - rewrite decide_False; [done|]. rewrite Forall_cons, Hk. by intros [[? ?] _].
Qed.

(** What the three operations return, from the sets of the keys. *)
Lemma SUnion_result c keys :
  placed c ->
  SUnion keys c = Ok (if decide (Forall (fun k => set_of c k = None) keys) then None
                      else Some (set_iter (⋃ (members_of c <$> keys)))).
Proof.
  intros Hp. unfold SUnion, validateOpen. rewrite (pl_open c Hp), found_sets by done.
  set (ks := filter _ keys).
  assert (forall k, k ∈ ks <-> is_Some (set_of c k) /\ k ∈ keys) as Hks by (intros k; unfold ks; by rewrite list_elem_of_filter).
  assert (DSet.Union (set_at c) ((fun k => InShard (Z.to_nat (shardIndex c k)) k) <$> ks) =
          ⋃ (members_of c <$> keys)) as Hu.
  { apply set_eq. intros x. rewrite elem_of_Union, elem_of_union_list. split.
    - intros (p & (k & -> & Hk)%list_elem_of_fmap & Hx). rewrite set_at_home in Hx.
      exists (members_of c k). split; [|done]. apply list_elem_of_fmap_2. by apply Hks.
    - intros (X & (k & -> & Hk)%list_elem_of_fmap & Hx). eexists. split; [|rewrite set_at_home; exact Hx].
      apply (list_elem_of_fmap_2 (fun k => InShard (Z.to_nat (shardIndex c k)) k)). apply Hks. split; [|done].
      unfold members_of in Hx. destruct (set_of c k); [by eexists|set_solver]. }
  unfold Members. case_decide as Hd.
  - destruct ks as [|k ks']; [done|]. exfalso. destruct (proj1 (Hks k)) as [[? Hs] Hk]; [by constructor|].
    rewrite Forall_forall in Hd. rewrite Hd in Hs by done. done.
  - rewrite Hu. destruct ks as [|k ks'] eqn:Hke; [|done]. exfalso. apply Hd, Forall_forall. intros k Hk.
    apply eq_None_not_Some. intros Hs. by apply (not_elem_of_nil k), Hks.
Qed.

(** The elements common to the sets of all keys; in the first and in no other. *)
Definition inter_of (c : Cache) (keys : list string) : gset string :=
  match keys with
  | [] => ∅
  | k :: keys => foldr (fun k X => members_of c k ∩ X) (members_of c k) keys
  end.
Definition diff_of (c : Cache) (keys : list string) : gset string :=
  match keys with
  | [] => ∅
  | k :: keys => members_of c k ∖ ⋃ (members_of c <$> keys)
  end.

Lemma elem_of_inter_of c keys x : x ∈ inter_of c keys <-> keys <> [] /\ forall k, k ∈ keys -> x ∈ members_of c k.
Proof.
  destruct keys as [|k0 keys]; [set_solver|]. cbn.
  assert (x ∈ foldr (fun k X => members_of c k ∩ X) (members_of c k0) keys <->
          x ∈ members_of c k0 /\ forall k, k ∈ keys -> x ∈ members_of c k) as ->.
  { induction keys as [|k keys IH]; cbn; [set_solver|]. rewrite elem_of_intersection, IH. set_solver. }
  set_solver.
Qed.

Lemma elem_of_diff_of c keys x :
  x ∈ diff_of c keys <->
    exists k rest, keys = k :: rest /\ x ∈ members_of c k /\ forall q, q ∈ rest -> x ∉ members_of c q.
Proof.
  destruct keys as [|k keys]; [set_solver|]. cbn. rewrite elem_of_difference, elem_of_union_list. split.
  - intros [Hx Hn]. exists k, keys. split_and!; [done|done|]. intros q Hq Hxq. apply Hn.
    exists (members_of c q). split; [by apply list_elem_of_fmap_2|done].
  - intros (? & ? & [= <- <-] & Hx & Hn). split; [done|].
    intros (X & (q & -> & Hq)%list_elem_of_fmap & Hxq). by apply (Hn q).
Qed.

Lemma SInter_result c keys :
  placed c ->
  SInter keys c = Ok (if decide (Forall (fun k => is_Some (set_of c k)) keys)
                      then Some (set_iter (inter_of c keys)) else None).
Proof.
  intros Hp. unfold SInter, validateOpen, Members. rewrite (pl_open c Hp), all_sets_spec by done.
  case_decide; [|done]. do 3 f_equal. apply set_eq. intros x. rewrite elem_of_Inter, elem_of_inter_of. split.
  - intros [Hne Hall]. split; [by destruct keys|]. intros k Hk.
    rewrite <-set_at_home. apply Hall. by apply (list_elem_of_fmap_2 (fun k => InShard (Z.to_nat (shardIndex c k)) k)).
  - intros [Hne Hall]. split; [by destruct keys|]. intros p (k & -> & Hk)%list_elem_of_fmap.
    rewrite set_at_home. by apply Hall.
Qed.

Lemma diff_ptrs c n (keys : list string) q x :
  placed c ->
  (q ∈ imap (fun i key => default (NewSet (n + i)) (find_set key 0 (table c))) keys /\ x ∈ set_at c q ->
   exists k, k ∈ keys /\ x ∈ members_of c k) /\
  (forall k, k ∈ keys -> x ∈ members_of c k ->
     InShard (Z.to_nat (shardIndex c k)) k
       ∈ imap (fun i key => default (NewSet (n + i)) (find_set key 0 (table c))) keys).
Proof.
  intros Hp. split.
  - intros [(i & k & Hi & Hk)%elem_of_lookup_imap Hx]. exists k. split; [by eapply list_elem_of_lookup_2|].
    rewrite find_set_spec in Hi by done. unfold members_of. destruct (set_of c k) as [ss|] eqn:Hs; subst q; cbn in Hx.
    + change (x ∈ set_at c (InShard (Z.to_nat (shardIndex c k)) k)) in Hx. rewrite set_at_home in Hx. unfold members_of in Hx. by rewrite Hs in Hx.
    + unfold New in Hx. set_solver.
  - intros k (i & Hi)%list_elem_of_lookup Hx. apply elem_of_lookup_imap. exists i, k. split; [|done].
    rewrite find_set_spec by done. unfold members_of in Hx. destruct (set_of c k); [done|set_solver].
Qed.

Lemma SDiff_result c keys : placed c -> SDiff keys c = Ok (Some (set_iter (diff_of c keys))).
Proof.
  intros Hp. unfold SDiff, validateOpen, Members. rewrite (pl_open c Hp). do 3 f_equal.
  apply set_eq. intros x. rewrite elem_of_Diff, elem_of_diff_of. destruct keys as [|k keys]; [set_solver|].
  rewrite imap_cons. pose proof (fun n => diff_ptrs c n [k]) as Hk. pose proof (diff_ptrs c 1 keys) as Hks. split.
  - intros (p & rest & [= <- <-] & Hx & Hn). exists k, keys. split; [done|]. split.
    + destruct (Hk 0%nat (default (NewSet 0) (find_set k 0 (table c))) x Hp) as [Hk1 _].
      destruct Hk1 as (k' & ->%list_elem_of_singleton & ?); [|done]. split; [cbn; by constructor|done].
    + intros q Hq Hxq. destruct (Hks (NewSet 0) x Hp) as [_ Hks2]. apply (Hn _ (Hks2 q Hq Hxq)). by rewrite set_at_home.
  - intros (? & ? & [= <- <-] & Hx & Hn). eexists _, _. split; [done|]. split.
    + destruct (Hk 0%nat (NewSet 0) x Hp) as [_ Hk2]. specialize (Hk2 k ltac:(by constructor) Hx).
      apply list_elem_of_singleton in Hk2. cbn in Hk2. rewrite <-Hk2, set_at_home. done.
    + intros q Hq Hxq. destruct (Hks q x Hp) as [Hks1 _]. destruct Hks1 as (k' & Hk' & Hx'); [by split|].
      by apply (Hn k').
Qed.

(** ** The simulation *)

Definition alike (c d : Cache) : Prop := placed c /\ placed d /\ same_data c d.

Lemma alike_members c d k : alike c d -> set_of c k = set_of d k.
Proof. intros (? & ? & ?). by apply same_data_set_of. Qed.

Lemma alike_sets c d keys :
  alike c d ->
  SUnion keys c = SUnion keys d /\ SInter keys c = SInter keys d /\ SDiff keys c = SDiff keys d.
Proof.
  intros Hcd. assert (forall k, set_of c k = set_of d k) as Hs by (intros; by apply alike_members).
  assert (forall k, members_of c k = members_of d k) as Hm by (intros; unfold members_of; by rewrite Hs).
  destruct Hcd as (Hc & Hd & _). rewrite !SUnion_result, !SInter_result, !SDiff_result by done.
  assert (members_of c <$> keys = members_of d <$> keys) as Hf by (apply list_fmap_ext; auto).
  assert (inter_of c keys = inter_of d keys) as ->.
  { apply set_eq. intros x. rewrite !elem_of_inter_of. by setoid_rewrite Hm. }
  assert (diff_of c keys = diff_of d keys) as ->.
  { apply set_eq. intros x. rewrite !elem_of_diff_of. by setoid_rewrite Hm. }
  rewrite Hf. split_and!; [|  |done].
  - f_equal. apply decide_ext, Forall_iff. intros k. by rewrite Hs.
  - f_equal. apply decide_ext, Forall_iff. intros k. by rewrite Hs.
Qed.

(** Two outcomes with the same result and like caches. *)
Definition alike_out {A} (x y : outcome (A * Cache)) : Prop :=
  match x, y with
  | Ret (a, c), Ret (b, d) => a = b /\ alike c d
  | Panic, Panic => True
  | NoFuel, NoFuel => True
  | _, _ => False
  end.

Lemma local_alike {A} key (f : shard -> outcome (result error A * shard)) c d :
  local_to key f -> alike c d -> alike_out (checked key (on_shard key f) c) (checked key (on_shard key f) d).
Proof.
  intros Hf Hcd. pose proof Hcd as (Hc & Hd & Hsd). unfold checked, validateOpen.
  rewrite (pl_open c Hc), (pl_open d Hd). case_decide; [done|].
  destruct (pl_home c Hc key) as [s Hs], (pl_home d Hd key) as [t Ht].
  rewrite (on_shard_home key f c s Hs), (on_shard_home key f d t Ht).
  pose proof (Hf s t (Hsd key s t Hs Ht)) as Hcall. unfold same_call in Hcall.
  destruct (f s) as [[a s']| |], (f t) as [[b t']| |]; try done. destruct Hcall as (-> & Hag & Hts & Htt).
  cbn. split; [done|]. split_and!; [by eapply placed_put|by eapply placed_put|].
  by apply (same_data_put c d key s s' t t').
Qed.

Lemma ext_step_alike {A} (o : ext_op A) c d : alike c d -> alike_out (ext_step o c) (ext_step o d).
Proof.
  intros Hcd. destruct (one_key o) eqn:Ho.
  - destruct (ext_step_local o Ho) as (key & f & Heq & Hloc). rewrite !Heq. by apply local_alike.
  - destruct o; try done; destruct (alike_sets c d keys Hcd) as (H1 & H2 & H3); cbn; by rewrite ?H1, ?H2, ?H3.
Qed.

(** Calls that always return. *)
Definition no_rand {A} (o : ext_op A) : bool := match o with XSRandMember _ _ _ _ => false | _ => true end.

Lemma ext_step_total {A} (o : ext_op A) c :
  closed c = false -> (forall k, is_Some (home c k)) -> no_rand o = true -> exists r c', ext_step o c ⇓ (r, c').
Proof.
  intros Hop Hhome Hno. destruct o; try done; cbn; eauto;
    unfold SAdd, SRem, SIsMember, SMembers, SCard, SPop, HSet, HSetNX, HGet, HDel, HExists, HGetAll, HKeys, HVals,
      HLen, HStrLen, HIncrBy, HMGet, HMSet, LPush, RPush, LPop, RPop, LLen, LRange, LIndex, LSet, LRem, LTrim,
      LInsert, LPos, call_shard, ask_shard, try_shard, checked, validateOpen;
    rewrite Hop; (case_decide; [eauto|]);
    destruct (Hhome key) as [s Hs]; rewrite (on_shard_home key _ c s Hs); cbn [mbind outcome_bind];
    repeat case_match; eauto.
Qed.

Lemma ext_step_returns {A} (o : ext_op A) c : placed c -> no_rand o = true -> exists r c', ext_step o c ⇓ (r, c').
Proof. intros [Hop Hhome _]. by apply ext_step_total. Qed.

Lemma ext_run_returns ops c :
  placed c -> Forall (fun o => no_rand (projT2 o) = true) ops -> exists rs c', ext_run ops c ⇓ (rs, c').
Proof.
  revert c. induction ops as [|[A o] ops IH]; intros c Hp Hall; [by eexists _, _|].
  apply Forall_cons in Hall as [Ho Hall]. cbn. destruct (ext_step_returns o c Hp Ho) as (r & c1 & Hs). rewrite Hs. cbn.
  assert (alike c c) as Hcc by (split_and!; [done|done|]; intros k s t H1 H2; simplify_eq; done).
  pose proof (ext_step_alike o c c Hcc) as Hal. rewrite Hs in Hal. destruct Hal as [_ (Hp1 & _)].
  destruct (IH c1 Hp1 Hall) as (rs & c2 & ->). by eexists _, _.
Qed.

Lemma ext_run_alike ops c d : alike c d -> alike_out (ext_run ops c) (ext_run ops d).
Proof.
  revert c d. induction ops as [|[A o] ops IH]; intros c d Hcd; [done|]. cbn.
  pose proof (ext_step_alike o c d Hcd) as Hs.
  destruct (ext_step o c) as [[a c1]| |], (ext_step o d) as [[b d1]| |]; try done.
  destruct Hs as [-> Hcd1]. cbn. specialize (IH c1 d1 Hcd1).
  destruct (ext_run ops c1) as [[rs c2]| |], (ext_run ops d1) as [[rs' d2]| |]; try done.
  by destruct IH as [-> ?].
Qed.

Lemma ext_run_placed ops c rs c' : placed c -> ext_run ops c ⇓ (rs, c') -> placed c'.
Proof.
  intros Hp Hrun. assert (alike c c) as Hcc by (split_and!; [done|done|]; intros k s t H1 H2; simplify_eq; done).
  pose proof (ext_run_alike ops c c Hcc) as Hal. rewrite Hrun in Hal. by destruct Hal as [_ (? & _)].
Qed.

(** ** New tables hold no collections *)

Context `{PL : !PolicyLaws P}.

(** A cache whose shards are all new. *)
Definition blank (c : Cache) : Prop :=
  cache_ok c /\ exists n f m, table c = replicate n (newShard f m).

Lemma blank_placed c : blank c -> placed c.
Proof.
  intros (Hok & n & f & m & Ht). split; [apply Hok| |].
  - intros k. unfold home. apply lookup_lt_is_Some_2. pose proof (to_idx _ _ (co_table c Hok) k). lia.
  - intros i s k Hs Hk. rewrite Ht in Hs. apply lookup_replicate in Hs as [-> _]. by destruct Hk.
Qed.

Lemma blank_alike c d : blank c -> blank d -> alike c d.
Proof.
  intros Hc Hd. split_and!; [by apply blank_placed|by apply blank_placed|]. intros k s t Hs Ht.
  destruct Hc as (_ & n & f & m & Hc), Hd as (_ & n' & f' & m' & Hd). unfold home in *. rewrite Hc in Hs. rewrite Hd in Ht.
  apply lookup_replicate in Hs as [-> _], Ht as [-> _]. done.
Qed.

Lemma New_blank policies o c : registry_ok policies -> New policies rehash_registry o = Ok c -> blank c.
Proof.
  intros Hreg Hnew. destruct (New_ok policies o c Hreg Hnew) as (Hok & _ & _ & _ & _ & _ & _ & _ & Ht & _).
  split; [done|eauto].
Qed.

Lemma Resize_blank n c :
  cache_ok c -> resizable c -> rehasher c <> RNoop -> bad_shard_count n = false -> IsRehashing (rehasher c) = false ->
  blank (Resize n c).2.
Proof.
  intros Hok Hres Hno Hn Hr. split; [by apply Resize_ok|]. unfold Resize, validateOpen.
  rewrite (co_open c Hok), Hn, Hr. cbn. eauto.
Qed.

(** ** Operations on the entry of a key *)

Definition own (c : Cache) (k : string) : option cacheEntry := tbl (shardIndex c) (table c) k.

Lemma update_live_ok now key f c :
  cache_ok c -> (forall e, deadline_ok e -> deadline_ok (f e)) ->
  exists c1, on_shard key (update_live now key f) c =
      Ret (bool_decide (is_Some (own c key ≫= keep_live now)), c1) /\
    cache_ok c1 /\ same_config c c1 /\ rehasher c1 = rehasher c /\
    forall k, own c1 k = if decide (k = key) then (fun e => if isExpired now e then e else f e) <$> own c k else own c k.
Proof.
  intros Hok Hf. set (g := fun e => if isExpired now e then e else f e).
  destruct (on_shard_ok key (update_live now key f) c (fun s r s' =>
      r = bool_decide (is_Some (shard_entries s !! key ≫= keep_live now)) /\
      shard_entries s' = alter g key (shard_entries s)) Hok) as
    (r & s & s' & -> & (-> & HR) & Hin & Ht1 & Hf1 & Htk & Hat & Hk1).
  { intros s Hs. destruct (update_live_spec now key f s Hs) as (s' & Hg & Hs' & (Hf1 & Hf2 & _) & Hc & Hent).
    eexists _, s'. split; [done|]. split; [done|]. split; [done|]. split; [by split_and!|].
    intros k. rewrite Hent, lookup_alter. case_decide; [subst; by left|by right]. }
  set (c1 := put_shard key s' c) in *.
  assert (same_config c c1) as Hsc by (by apply put_shard_config).
  assert (forall k, own c1 k = if decide (k = key) then g <$> own c k else own c k) as Hown.
  { intros k. unfold own. change (shardIndex c1) with (shardIndex c).
    destruct (Hk1 k) as [(-> & _ & Hne)|[-> ->]]; [by rewrite decide_False|].
    rewrite HR, lookup_alter. repeat case_decide; congruence. }
  exists c1. split_and!; [unfold own; by rewrite Htk| |done|done|done].
  assert (forall k, is_Some (own c1 k) <-> is_Some (own c k)) as Hdom.
  { intros k. rewrite Hown. case_decide; [by rewrite fmap_is_Some|done]. }
  eapply cache_ok_intro; [done|done|done| |].
  - destruct (co_rehash c Hok) as [H1 H2 H3 H4]. split; [done|done| |done].
    intros k Hk. apply eq_None_not_Some. intros Hs. apply Hdom in Hs. unfold own in Hs. rewrite (H3 k Hk) in Hs. by destruct Hs.
  - intros k e. unfold view, comb. change (tbl (shardIndex c1) (table c1) k) with (own c1 k).
    change (rehasher c1) with (rehasher c). rewrite Hown.
    assert (forall e', own c k = Some e' -> deadline_ok e') as Hd.
    { intros e' He'. apply (co_deadline c Hok k). unfold view, comb. unfold own in He'. rewrite He'. by or_else. }
    destruct (own c k) as [e0|] eqn:He0.
    + specialize (Hd e0 eq_refl). case_decide; cbn; or_else; intros [= <-]; [|done]. unfold g. case_match; auto.
    + assert ((if decide (k = key) then g <$> @None cacheEntry else None) = None) as -> by (by case_decide).
      intros Hold. apply (co_deadline c Hok k). unfold view, comb. unfold own in He0. by rewrite He0.
Qed.

Lemma own_idle c k : IsRehashing (rehasher c) = false -> view c k = own c k.
Proof. intros Hr. unfold view, comb, own. rewrite old_tbl_idle by done. by rewrite (right_id_L None (∪)). Qed.

(** A read of the shard of a key in a sound cache. *)
Lemma entry_read_ok {A} key (f : shard -> outcome A) (a : option cacheEntry -> shard -> A) c :
  cache_ok c -> key <> EmptyString ->
  (forall s, shard_ok s -> f s ⇓ (a (shard_entries s !! key) s)) ->
  exists s, home c key = Some s /\ entry_read key f c ⇓ (Ok (a (own c key) s), put_shard key s c).
Proof.
  intros Hok Hkey Hf. destruct (table_shard _ _ key (co_table c Hok)) as (s & Hs & Hsok).
  exists s. split; [done|]. unfold entry_read, entry_op, checked, validateOpen.
  rewrite (co_open c Hok), decide_False by done. rewrite (on_shard_home key _ c s Hs), (Hf s Hsok). cbn.
  unfold own, tbl. by rewrite Hs.
Qed.

Definition ttl_of (unit now : Z) (o : option cacheEntry) : Z :=
  match o with
  | None => -2
  | Some e => if expiresAt e <=? 0 then -1 else if until now e <=? 0 then -2 else until now e ÷ unit
  end.

Definition exists_of (now : Z) (key : string) (o : option cacheEntry) (s : shard) : bool :=
  bool_decide (is_Some (o ≫= keep_live now)) || bool_decide (is_Some (sets s !! key))
  || bool_decide (is_Some (hashes s !! key)) || bool_decide (is_Some (lists s !! key)).

Lemma ttl_in_spec unit now key s :
  shard_ok s -> ttl_in unit now key s ⇓ (ttl_of unit now (shard_entries s !! key)).
Proof.
  intros Hok. destruct (get_sub_ok s key Hok) as (sub & Hg & _ & _ & _ & Hat). unfold ttl_in. rewrite Hg. cbn.
  by rewrite (Hat key eq_refl).
Qed.

Lemma keyExists_spec now key s :
  shard_ok s -> keyExists now key s ⇓ (exists_of now key (shard_entries s !! key) s).
Proof.
  intros Hok. destruct (get_sub_ok s key Hok) as (sub & Hg & _ & _ & _ & Hat). unfold keyExists. rewrite Hg. cbn.
  unfold exists_of. rewrite (Hat key eq_refl). destruct (entries sub !! key) as [e|]; [|done]. cbn. unfold keep_live.
  by destruct (isExpired now e).
Qed.

Lemma elem_of_union_members c keys x :
  x ∈ ⋃ (members_of c <$> keys) <-> exists k, k ∈ keys /\ x ∈ members_of c k.
Proof.
  rewrite elem_of_union_list. split.
  - intros (X & (k & -> & Hk)%list_elem_of_fmap & Hx). eauto.
  - intros (k & Hk & Hx). exists (members_of c k). split; [by apply list_elem_of_fmap_2|done].
Qed.

Lemma int64_small z : 0 <= z <= max_int64 -> int64 z = z.
Proof. intros Hz. apply int64_id. unfold in_int64, min_int64, max_int64 in *. lia. Qed.

Lemma on_shard_Ok {A} key (f : shard -> outcome (A * shard)) c a c1 :
  on_shard key f c ⇓ (a, c1) ->
  on_shard key (fun s => '(a, s) ← f s; mret (@Ok error _ a, s)) c ⇓ (Ok a, c1).
Proof.
  unfold on_shard. destruct (getShard c key) as [s| |]; [|done|done]. cbn.
  destruct (f s) as [[b s']| |]; cbn; [|done|done]. by intros [= -> ->].
Qed.

(** A new deadline for a live key of a cache that is not migrating. *)
Lemma expire_ok now key ttl e c :
  cache_ok c -> IsRehashing (rehasher c) = false -> view c key = Some e -> isExpired now e = false ->
  0 <= now -> 0 < ttl -> now + ttl <= max_int64 ->
  exists c1, on_shard key (expire now key ttl) c ⇓ (true, c1) /\ cache_ok c1 /\
    IsRehashing (rehasher c1) = false /\ own c1 key = Some (mkEntry (value e) (now + ttl)).
Proof.
  intros Hok Hr He Hlive Hnow Ht Hmax. rewrite own_idle in He by done.
  destruct (update_live_ok now key (fun e => mkEntry (value e) (int64 (now + ttl))) c Hok) as (c1 & Hup & Hok1 & _ & Hr1 & Hown).
  { intros e' _. unfold deadline_ok. cbn. rewrite int64_small by lia. lia. }
  exists c1. split_and!; [|done|by rewrite Hr1|].
  - unfold expire. rewrite Hup, He. cbn. unfold keep_live. by rewrite Hlive.
  - rewrite Hown, decide_True, He by done. cbn. by rewrite Hlive, int64_small by lia.
Qed.

Lemma seconds_left t dl :
  0 <= t -> 0 < dl <= max_int64 ->
  (if dl <=? 0 then -1 else
   if sat64 (dl - t) <=? 0 then -2 else sat64 (dl - t) ÷ 1000000000) =
  (if t <? dl then (dl - t) / 1000000000 else -2).
Proof.
  intros Ht Hd. destruct (Z.leb_spec dl 0); [lia|]. unfold sat64, min_int64, max_int64 in *.
  destruct (Z.ltb_spec t dl), (Z.leb_spec (Z.max (- 2 ^ 63) (Z.min (2 ^ 63 - 1) (dl - t))) 0); try lia.
  rewrite Z.min_r, Z.max_r by lia. apply Z.quot_div_nonneg; lia.
Qed.

(** ** Properties *)

(** C37 (functional): after any run of collection operations on a new cache,
    [SUnion], [SInter] and [SDiff] return the union, intersection and difference
    of the sets of their keys, wherever the shards keep them.  A missing key counts
    as an empty set; [SInter] then returns nil, and [SUnion] does when all keys are
    missing. *)
Theorem set_algebra policies o c0 ops rs c keys x :
  registry_ok policies -> New policies rehash_registry o = Ok c0 -> ext_run ops c0 ⇓ (rs, c) ->
  (exists l, SUnion keys c = Ok l /\ (x ∈ default [] l <-> exists k, k ∈ keys /\ x ∈ members_of c k)) /\
  (exists l, SInter keys c = Ok l /\
     (x ∈ default [] l <-> keys <> [] /\ forall k, k ∈ keys -> x ∈ members_of c k)) /\
  (exists l, SDiff keys c = Ok l /\
     (x ∈ default [] l <-> exists k rest, keys = k :: rest /\ x ∈ members_of c k /\
                               forall q, q ∈ rest -> x ∉ members_of c q)).
Proof.
  intros Hreg Hnew Hrun.
  assert (placed c) as Hp by (eapply ext_run_placed; [|exact Hrun]; eapply blank_placed, New_blank; done).
  rewrite SUnion_result, SInter_result, SDiff_result by done. split_and!; eexists; (split; [done|]).
  - rewrite <-elem_of_union_members. case_decide as Hd; cbn; [|apply elem_of_set_iter].
    rewrite elem_of_union_members. split; [by intros ?%not_elem_of_nil|]. intros (k & Hk & Hx).
    rewrite Forall_forall in Hd. unfold members_of in Hx. rewrite (Hd k Hk) in Hx. set_solver.
  - rewrite <-elem_of_inter_of. case_decide as Hd; cbn; [apply elem_of_set_iter|].
    split; [by intros ?%not_elem_of_nil|]. intros [_ Hx]%elem_of_inter_of. exfalso. apply Hd, Forall_forall.
    intros k Hk. specialize (Hx k Hk). unfold members_of in Hx. destruct (set_of c k); [by eexists|set_solver].
  - rewrite <-elem_of_diff_of. apply elem_of_set_iter.
Qed.

(** A closed cache refuses every operation with [ErrCacheClosed] and
    keeps its state; closing it again is refused as well. *)
Theorem closed_cache_refuses policies rehashers c c' :
  Close c = (None, c') ->
  (forall A (o : ext_op A), ext_step o c' ⇓ (Err ErrCacheClosed, c')) /\
  (forall now key, Get now key c' ⇓ (Err ErrCacheClosed, c') /\
     Cache.Del now key c' ⇓ (Some ErrCacheClosed, c') /\
     Exists now key c' ⇓ (Err ErrCacheClosed, c') /\ TTL now key c' ⇓ (Err ErrCacheClosed, c')) /\
  (forall now key v ttl, Cache.Set_ now key v ttl c' ⇓ (Some ErrCacheClosed, c')) /\
  (forall n, Resize n c' = (Some ErrCacheClosed, c')) /\
  (forall now, Cache.Len now c' ⇓ 0 /\ Cleanup now c' ⇓ (0, c')) /\
  (forall name f, getPolicyFactory name policies = Ok f -> SetEvictionPolicy policies name c' ⇓ (Some ErrCacheClosed, c')) /\
  (forall name f, GetFactory name rehashers = Ok f -> SetRehasher rehashers name c' = (Some ErrCacheClosed, c')) /\
  Close c' = (Some ErrCacheClosed, c').
Proof.
  unfold Close at 1. destruct (closed c); [done|]. intros [= <-]. set (c' := mkCache _ _ _ _ _ _ _ _ _ _).
  assert (validateOpen c' = Some ErrCacheClosed) as Hv by done.
  split_and!; try done.
  - intros A o. destruct (one_key o) eqn:Ho; [|by destruct o].
    destruct (ext_step_local o Ho) as (key & f & -> & _). unfold checked. by rewrite Hv.
  - intros name f Hf. unfold SetEvictionPolicy. by rewrite Hf.
  - intros name f Hf. unfold SetRehasher. by rewrite Hf.
Qed.

(** A resize loses the collections.  After a [Resize] that is
    accepted, a cache answers every run of collection operations as a new, empty
    cache would, while its strings are all still there: sets, hashes and lists
    are not migrated. *)
Theorem resize_loses_collections policies o d n c ops :
  registry_ok policies -> New policies rehash_registry o = Ok d ->
  cache_ok c -> resizable c -> rehasher c <> RNoop -> bad_shard_count n = false ->
  IsRehashing (rehasher c) = false ->
  (forall rs, (exists c', ext_run ops (Resize n c).2 ⇓ (rs, c')) <-> (exists d', ext_run ops d ⇓ (rs, d'))) /\
  (forall k, view (Resize n c).2 k = view c k).
Proof.
  intros Hreg Hd Hok Hres Hno Hn Hr. split; [|by apply Resize_ok].
  pose proof (ext_run_alike ops _ d (blank_alike _ d (Resize_blank n c Hok Hres Hno Hn Hr) (New_blank _ _ _ Hreg Hd))) as Hal.
  intros rs. destruct (ext_run ops (Resize n c).2) as [[a c']| |], (ext_run ops d) as [[b d']| |]; try done;
    [destruct Hal as [-> _]|..]; split; intros [x Hx]; simplify_eq; eauto.
Qed.

(** [Expire] on a live key of a cache that is not migrating sets
    its deadline: until then [TTL] counts the whole seconds left and [Get] returns
    the value; from then on [TTL] returns -2 and [Get] misses. *)
Theorem expire_then_ttl now key seconds e c :
  cache_ok c -> IsRehashing (rehasher c) = false -> key <> EmptyString ->
  view c key = Some e -> isExpired now e = false ->
  0 <= now -> 0 < seconds -> now + seconds * 1000000000 <= max_int64 ->
  exists c1, Expire now key seconds c ⇓ (Ok true, c1) /\ cache_ok c1 /\
    forall t, now <= t ->
      (exists c2, TTL t key c1 =
         Ret (Ok (if t <? now + seconds * 1000000000
                  then (now + seconds * 1000000000 - t) / 1000000000 else -2), c2)) /\
      (exists c2, Get t key c1 =
         Ret (if t <? now + seconds * 1000000000 then Ok (value e) else Err ErrKeyNotFound, c2)).
Proof.
  intros Hok Hr Hkey He Hlive Hnow Hs Hmax. set (dl := now + seconds * 1000000000) in *.
  destruct (expire_ok now key (seconds * 1000000000) e c Hok Hr He Hlive Hnow ltac:(lia) Hmax) as (c1 & Hex & Hok1 & Hr1 & Hown).
  exists c1. split_and!; [|done|].
  { unfold Expire, entry_op, checked, validateOpen. rewrite (co_open c Hok), decide_False by done.
    rewrite int64_small by (unfold max_int64 in *; lia). by apply on_shard_Ok. }
  intros t Ht. split.
  - destruct (entry_read_ok key (ttlSeconds t key) (fun o _ => ttl_of 1000000000 t o) c1 Hok1 Hkey (fun s Hs => ttl_in_spec 1000000000 t key s Hs))
      as (s & _ & Hread).
    exists (put_shard key s c1). unfold TTL. rewrite Hread, Hown. fold dl. cbn. do 3 f_equal.
    by apply seconds_left; unfold dl, max_int64 in *; lia.
  - destruct (Get_ok t key c1 ltac:(lia) Hok1 Hkey) as (c2 & Hget & _). exists c2. rewrite Hget, own_idle, Hown by congruence.
    cbn. unfold keep_live, isExpired. cbn. fold dl. destruct (Z.eqb_spec dl 0); [unfold dl in *; lia|].
    destruct (Z.geb_spec t dl), (Z.ltb_spec t dl); try lia; done.
Qed.

(** While a migration is under way, [Exists] denies keys that are
    still in the old table: right after an accepted [Resize] it returns false for
    every key, while [Get] still returns the value of a live one. *)
Theorem exists_denies_unmigrated now key e n c :
  cache_ok c -> resizable c -> rehasher c <> RNoop -> bad_shard_count n = false ->
  IsRehashing (rehasher c) = false -> key <> EmptyString -> 0 <= now ->
  view c key = Some e -> isExpired now e = false ->
  (exists c1, Exists now key (Resize n c).2 ⇓ (Ok false, c1)) /\
  (exists c1, Get now key (Resize n c).2 ⇓ (Ok (value e), c1)).
Proof.
  intros Hok Hres Hno Hn Hr Hkey Hnow He Hlive.
  destruct (Resize_ok n c Hok Hres Hno) as (Hok' & Hview & _).
  destruct (Resize_blank n c Hok Hres Hno Hn Hr) as (_ & m & f & mx & Ht). split.
  - destruct (entry_read_ok key (keyExists now key) (exists_of now key) _ Hok' Hkey (fun s Hs => keyExists_spec now key s Hs))
      as (s & Hs & Hread).
    exists (put_shard key s (Resize n c).2). unfold Exists. rewrite Hread. do 3 f_equal.
    unfold home in Hs. unfold own, tbl. rewrite Hs. cbn [mbind option_bind]. rewrite Ht in Hs. apply lookup_replicate in Hs as [-> _].
    change (rs_entries (newShard f mx)) with (shard_entries (newShard f mx)).
    rewrite newShard_entries, lookup_empty. done.
  - destruct (Get_ok now key _ Hnow Hok' Hkey) as (c2 & Hget & _). exists c2. rewrite Hget, Hview, He. cbn.
    unfold keep_live. by rewrite Hlive.
Qed.

End ExtSpec.

(** ** Results of two caches, each with its own map orders

    Go draws a new order for every loop over a map, so two caches that hold the same
    data may list it differently, and one cache may list it differently twice.  Here
    every call of a run has its own order. *)

(** Two results a caller takes for the same: equal, but for the order of the
    elements where Go leaves it open. *)
Definition same_elements (x y : option (list string)) : Prop :=
  match x, y with
  | Some l, Some l' => l ≡ₚ l'
  | None, None => True
  | _, _ => False
  end.

Definition on_ok {A} (R : A -> A -> Prop) (x y : result error A) : Prop :=
  match x, y with
  | Ok a, Ok b => R a b
  | Err e, Err e' => e = e'
  | _, _ => False
  end.

Definition same_result {A} (o : ext_op A) : result error A -> result error A -> Prop :=
  match o in ext_op A return result error A -> result error A -> Prop with
  | XSMembers _ | XSUnion _ | XSInter _ | XSDiff _ => on_ok same_elements
  | XHKeys _ | XHVals _ => on_ok Permutation
  | _ => eq
  end.

(** The results of a run of [ops], call by call. *)
Inductive same_results : list { A & ext_op A } -> list { A & result error A } -> list { A & result error A } -> Prop :=
| same_nil : same_results [] [] []
| same_cons A (o : ext_op A) r r' ops rs rs' :
    same_result o r r' -> same_results ops rs rs' ->
    same_results (existT A o :: ops) (existT A r :: rs) (existT A r' :: rs').

(** Operations whose result is not drawn at random. *)
Definition settled {A} (o : ext_op A) : bool :=
  match o with XSPop _ _ | XSRandMember _ _ _ _ => false | _ => true end.

Lemma settled_no_rand {A} (o : ext_op A) : settled o = true -> no_rand o = true.
Proof. by destruct o. Qed.

Lemma set_iter_orders (m m' : MapIter) s : set_iter (MI := m) s ≡ₚ set_iter (MI := m') s.
Proof. unfold set_iter. by rewrite !map_iter_perm. Qed.

Section Orders.
Context `{EP : EvictionPolicy P} `{PL : !PolicyLaws P}.
Notation Cache := (Cache P).

(** A run whose [i]-th call iterates over maps in the order [ord i]. *)
Fixpoint ordered_run (ord : nat -> MapIter) (ops : list { A & ext_op A }) (c : Cache) :
    outcome (list { A & result error A } * Cache) :=
  match ops with
  | [] => Ret ([], c)
  | existT A o :: ops =>
      '(r, c) ← ext_step (MI := ord 0%nat) o c;
      '(rs, c) ← ordered_run (fun i => ord (S i)) ops c;
      mret (existT A r :: rs, c)
  end.

(** A question to the shard of a key. *)
Lemma ask_orders {A} (R : A -> A -> Prop) key (f g : shard P -> result error A) (c c' : Cache) r :
  (forall e, on_ok R (Err e) (Err e)) -> (forall s, on_ok R (f s) (g s)) -> ask_shard key f c ⇓ (r, c') ->
  exists r', ask_shard key g c ⇓ (r', c') /\ on_ok R r r'.
Proof.
  intros Herr Hfg. unfold ask_shard, try_shard, checked. destruct (validateOpen c) as [e|]; [|case_decide].
  1,2: intros [= <- <-]; by eexists.
  unfold on_shard. destruct (getShard c key) as [s| |]; cbn; [|done|done]. intros [= <- <-]. eexists. split; [done|apply Hfg].
Qed.

(** The order of a call shows in the order of its result only. *)
Lemma order_unseen {A} (o : ext_op A) (m m' : MapIter) (c : Cache) r c' :
  placed c -> settled o = true -> ext_step (MI := m) o c ⇓ (r, c') ->
  exists r', ext_step (MI := m') o c ⇓ (r', c') /\ same_result o r r'.
Proof.
  intros Hp Ho Hs. destruct o; try done; try (exists r; split; [exact Hs|done]); cbn in *.
  - revert Hs. apply ask_orders; [done|]. intros s. unfold sMembers, DSet.Members.
    destruct (_ !! _); cbn; [apply set_iter_orders|done].
  - rewrite !SUnion_result in * by done. injection Hs as <- <-. eexists. split; [done|].
    case_decide; cbn; [done|apply set_iter_orders].
  - rewrite !SInter_result in * by done. injection Hs as <- <-. eexists. split; [done|].
    case_decide; cbn; [apply set_iter_orders|done].
  - rewrite !SDiff_result in * by done. injection Hs as <- <-. eexists. split; [done|apply set_iter_orders].
  - revert Hs. apply ask_orders; [done|]. intros s. unfold hKeys, DHash.HKeys.
    destruct (_ !! _); cbn; [by rewrite !map_iter_perm|done].
  - revert Hs. apply ask_orders; [done|]. intros s. unfold hVals, DHash.HVals.
    destruct (_ !! _); cbn; [by rewrite !map_iter_perm|done].
Qed.

(** Caches that hold the same collections answer the same. *)
Lemma ordered_run_alike ops (ord ord' : nat -> MapIter) (c d : Cache) :
  alike c d -> Forall (fun o => settled (projT2 o) = true) ops ->
  exists rs c' rs' d', ordered_run ord ops c ⇓ (rs, c') /\ ordered_run ord' ops d ⇓ (rs', d') /\
    same_results ops rs rs' /\ alike c' d'.
Proof.
  revert ord ord' c d. induction ops as [|[A o] ops IH]; intros ord ord' c d Hcd Hall.
  { exists [], c, [], d. split_and!; try done. constructor. }
  apply Forall_cons in Hall as [Ho Hall]. cbn [ordered_run]. cbn [projT2] in Ho. pose proof Hcd as (Hc & Hd & _).
  destruct (ext_step_returns (MI := ord 0%nat) o c Hc (settled_no_rand o Ho)) as (r & c1 & Hs).
  pose proof (ext_step_alike (MI := ord 0%nat) o c d Hcd) as Hal. rewrite Hs in Hal.
  destruct (ext_step (MI := ord 0%nat) o d) as [[r1 d1]| |] eqn:Ht; try done. destruct Hal as [<- Hcd1].
  destruct (order_unseen o _ (ord' 0%nat) d r d1 Hd Ho Ht) as (r' & Ht' & Hr).
  destruct (IH (fun i => ord (S i)) (fun i => ord' (S i)) c1 d1 Hcd1 Hall) as (rs & c2 & rs' & d2 & H1 & H2 & Hrs & Hcd2).
  rewrite Hs, Ht'. cbn. rewrite H1, H2. cbn. eexists _, c2, _, d2. split_and!; try done. by constructor.
Qed.

(** C36 (equivalence): the number of shards cannot be observed through collections.
    Two new caches, whatever their options, given the same run of set, hash and list
    operations, the operations over several sets included, both return from every
    call, and with the same results.  Every call iterates over Go's maps in an order of
    its own, so the elements of SMembers, SUnion, SInter, SDiff, HKeys and HVals may come
    in another order; SPop and SRandMember, which draw at random, are left out. *)
Theorem shard_count_unobservable policies o o' (c d : Cache) (ord ord' : nat -> MapIter) ops :
  registry_ok policies -> New policies rehash_registry o = Ok c -> New policies rehash_registry o' = Ok d ->
  Forall (fun o => settled (projT2 o) = true) ops ->
  exists rs c' rs' d', ordered_run ord ops c ⇓ (rs, c') /\ ordered_run ord' ops d ⇓ (rs', d') /\
    same_results ops rs rs'.
Proof.
  intros Hreg Hc Hd Hall. apply (New_blank (MI := ord 0%nat)) in Hc, Hd; [|done|done].
  destruct (ordered_run_alike ops ord ord' c d (blank_alike c d Hc Hd) Hall) as (rs & c' & rs' & d' & H1 & H2 & H3 & _).
  by exists rs, c', rs', d'.
Qed.

End Orders.

(** ** The properties at concrete caches *)

#[local] Existing Instance trie_order.

Definition demo_set_ops : list { A & ext_op A } :=
  [existT _ (XSAdd "a" ["x"; "y"]%string); existT _ (XSAdd "b" ["y"]%string);
   existT _ (XSDiff ["a"; "b"; "c"]%string); existT _ (XLPop "l")].

Definition demo_reached : Cache Policies.policy :=
  match ext_run demo_set_ops (demo_cache 2 0) with Ret (_, c) => c | _ => demo_cache 2 0 end.

(** A cache with one string. *)
Definition demo_one : Cache Policies.policy :=
  match Cache.Set_ 1 "a" (Some [x2a]) None (demo_cache 2 0) with Ret (_, c) => c | _ => demo_cache 2 0 end.

Lemma demo_one_ok :
  cache_ok demo_one /\ resizable demo_one /\ view demo_one "a" = Some (mkEntry [x2a] 0).
Proof.
  destruct (Set_ok 1 "a" [x2a] None (demo_cache 2 0)) as (c' & Hs & (Hok & Hsc & _) & _);
    [done|apply demo_ok|done|done|].
  assert (demo_one = c') as -> by (unfold demo_one; by rewrite Hs). split_and!; [done| |].
  - apply (advances_running (demo_cache 2 0)); [discriminate|done|apply demo_ok].
  - assert (c' = demo_one) as -> by (unfold demo_one; by rewrite Hs). vm_compute. reflexivity.
Qed.

(** Another order. *)
Definition reverse_order : MapIter :=
  {| map_iter := fun K _ _ V m => reverse (map_to_list m);
     map_iter_perm := fun K _ _ V m => reverse_Permutation _ |}.

Lemma demo_new_four : New policyRegistry rehash_registry (demo_options 4 64) = Ok (demo_cache 4 64).
Proof. vm_compute. reflexivity. Qed.

(** The caches have two shards and four. *)
Lemma shard_count_unobservable_witness :
  exists rs c' rs' d', ordered_run (fun _ => trie_order) (demo_set_ops ++ [existT _ (XSMembers "a")]) (demo_cache 2 0) ⇓ (rs, c') /\
    ordered_run (fun _ => reverse_order) (demo_set_ops ++ [existT _ (XSMembers "a")]) (demo_cache 4 64) ⇓ (rs', d') /\
    same_results (demo_set_ops ++ [existT _ (XSMembers "a")]) rs rs'.
Proof.
  apply (shard_count_unobservable policyRegistry (demo_options 2 0) (demo_options 4 64));
    [apply policyRegistry_ok|apply demo_new|apply demo_new_four|]. repeat constructor.
Defined.

Lemma set_algebra_witness :
  exists l, SDiff ["a"; "b"]%string demo_reached = Ok l /\
    ("x"%string ∈ default [] l <-> exists k rest, ["a"; "b"]%string = k :: rest /\ "x"%string ∈ members_of demo_reached k /\
       forall q, q ∈ rest -> "x"%string ∉ members_of demo_reached q).
Proof.
  destruct (ext_run demo_set_ops (demo_cache 2 0)) as [[rs c]| |] eqn:Hrun; [|vm_compute in Hrun; discriminate..].
  apply (set_algebra policyRegistry (demo_options 2 0) (demo_cache 2 0) demo_set_ops rs);
    [apply policyRegistry_ok|apply demo_new|]. unfold demo_reached. rewrite Hrun. reflexivity.
Defined.

Lemma closed_cache_refuses_witness :
  ext_step (XSCard "a") (Close (demo_cache 2 0)).2 ⇓ (Err ErrCacheClosed, (Close (demo_cache 2 0)).2).
Proof.
  apply (closed_cache_refuses policyRegistry rehash_registry (demo_cache 2 0)). vm_compute. reflexivity.
Defined.

Lemma resize_loses_collections_witness :
  (forall rs, (exists c', ext_run demo_set_ops (Resize 4 (demo_cache 2 0)).2 ⇓ (rs, c')) <->
              (exists d', ext_run demo_set_ops (demo_cache 2 64) ⇓ (rs, d'))) /\
  (forall k, view (Resize 4 (demo_cache 2 0)).2 k = view (demo_cache 2 0) k).
Proof.
  apply (resize_loses_collections policyRegistry (demo_options 2 64) (demo_cache 2 64) 4 (demo_cache 2 0) demo_set_ops);
    [apply policyRegistry_ok|apply demo_new|apply demo_ok|apply demo_ok|discriminate|reflexivity|reflexivity].
Defined.

Lemma expire_then_ttl_witness :
  exists c1, Expire 5 "a" 10 demo_one ⇓ (Ok true, c1).
Proof.
  destruct (expire_then_ttl 5 "a" 10 (mkEntry [x2a] 0) demo_one) as (c1 & H & _);
    [apply demo_one_ok|vm_compute; reflexivity|discriminate|apply demo_one_ok|reflexivity|lia|lia|discriminate|].
  exists c1. exact H.
Defined.

Lemma exists_denies_unmigrated_witness :
  (exists c1, Exists 5 "a" (Resize 4 demo_one).2 ⇓ (Ok false, c1)) /\
  (exists c1, Get 5 "a" (Resize 4 demo_one).2 ⇓ (Ok [x2a], c1)).
Proof.
  apply (exists_denies_unmigrated 5 "a" (mkEntry [x2a] 0) 4 demo_one);
    [apply demo_one_ok|apply demo_one_ok|vm_compute; discriminate|reflexivity|vm_compute; reflexivity|discriminate
    |discriminate|apply demo_one_ok|reflexivity].
Defined.
