(* ===== verification/CacheMixed.v ===== *)
(** * Strings and collections in one cache

    The operations on strings and those on collections share the shards of a cache.  In any order they leave it well formed, and
    the strings do not notice the collections. *)

From Stdlib Require Import Strings.Byte Strings.String.
From stdpp Require Import base tactics numbers list gmap sets fin_maps strings.
From S2P Require Import Prelude.
From S2P Require Import Policy.
From S2P Require Import Policies.
From S2P Require Import Hashing.
From S2P Require Import Shard.
From S2P Require Import ShardTyped.
From S2P Require Import Rehash.
From S2P Require Import Cache.
From S2P Require Import CacheSpec.
From S2P Require Import CacheExt.
From S2P Require Import CacheExtSpec.

Open Scope Z_scope.

Section Mixed.
Context `{MI : MapIter} `{EP : EvictionPolicy P} `{PL : !PolicyLaws P}.
Notation shard := (shard P).
Notation Cache := (Cache P).

(** ** Runs of both kinds *)

Inductive cache_op : Type :=
| OnString (now : Z) (o : kv_op)
| OnCollection (o : { A & ext_op A }).

Definition cache_result : Type := kv_result + { A & result error A }.

Definition mixed_step (policies : registry P) (o : cache_op) (c : Cache) : outcome (cache_result * Cache) :=
  match o with
  | OnString now o => '(r, c) ← kv_step policies now o c; mret (inl r, c)
  | OnCollection (existT A o) => '(r, c) ← ext_step o c; mret (inr (existT A r), c)
  end.

Fixpoint mixed_run (policies : registry P) (ops : list cache_op) (c : Cache) : outcome (list cache_result * Cache) :=
  match ops with
  | [] => Ret ([], c)
  | o :: ops =>
      '(r, c) ← mixed_step policies o c;
      '(rs, c) ← mixed_run policies ops c;
      mret (r :: rs, c)
  end.

(** The operations on strings, and their results. *)
Definition string_ops : list cache_op -> list (Z * kv_op) :=
  omap (fun o => match o with OnString now o => Some (now, o) | OnCollection _ => None end).
Definition string_results : list cache_result -> list kv_result :=
  omap (fun r => match r with inl r => Some r | inr _ => None end).

Definition returns_always (o : cache_op) : Prop :=
  match o with OnString _ _ => True | OnCollection o => no_rand (projT2 o) = true end.

(** ** A collection's operation leaves the strings alone *)

Lemma touches_ok key s s' : touches key s s' -> shard_ok s -> shard_ok s' /\ shard_frame s s' /\ shard_entries s' = shard_entries s.
Proof.
  intros (Hs & Hn & Hm & _) [H1 H2 H3 H4]. split_and!.
  - split; unfold subIndex in *; rewrite ?Hs, ?Hn; assumption.
  - unfold shard_frame. split_and!; [done|done|]. intros tracks Hc i sub. rewrite Hs, Hm. apply Hc.
  - unfold shard_entries. by rewrite Hs.
Qed.

Lemma cache_ok_home c k : cache_ok c -> is_Some (home c k).
Proof. intros Hok. destruct (table_shard _ _ k (co_table c Hok)) as (s & Hs & _). by exists s. Qed.

Lemma put_touched key c s s' :
  cache_ok c -> home c key = Some s -> touches key s s' ->
  cache_ok (put_shard key s' c) /\ same_config c (put_shard key s' c) /\ forall k, view (put_shard key s' c) k = view c k.
Proof.
  intros Hok Hs Ht. pose proof (co_table c Hok) as Htab.
  destruct (touches_ok key s s' Ht (to_ok _ _ Htab s (list_elem_of_lookup_2 _ _ _ Hs))) as (Hsok & Hfr & He).
  destruct (table_update (shardIndex c) (table c) _ s s' Htab Hs Hsok) as [Htab' Htbl].
  { intros k. cbn. rewrite He. by left. }
  assert (same_config c (put_shard key s' c)) as Hsc by (apply put_shard_config; by eapply frame_insert).
  assert (forall k, tbl (shardIndex c) (table (put_shard key s' c)) k = tbl (shardIndex c) (table c) k) as Hsame.
  { intros k. rewrite (Htbl k : tbl (shardIndex c) (table (put_shard key s' c)) k = _). case_decide as Hk; [|done].
    unfold tbl. rewrite Hk. unfold home in Hs. rewrite Hs. cbn. by rewrite He. }
  assert (forall k, view (put_shard key s' c) k = view c k) as Hview.
  { intros k. rewrite (view_config c (put_shard key s' c) k Hsc), Hsame. done. }
  split_and!; [|done|done]. apply (cache_ok_intro c); [done|done|done| |].
  - destruct (co_rehash c Hok) as [H1 H2 H3 H4]. split; [done|done| |done]. intros k Hk. rewrite Hsame. by apply H3.
  - intros k e. rewrite Hview. apply co_deadline, Hok.
Qed.

Lemma ext_step_sound {A} (o : ext_op A) c :
  cache_ok c -> no_rand o = true ->
  exists r c', ext_step o c ⇓ (r, c') /\ cache_ok c' /\ same_config c c' /\ rehasher c' = rehasher c /\ forall k, view c' k = view c k.
Proof.
  intros Hok Hno. destruct (ext_step_total o c (co_open c Hok) (fun k => cache_ok_home c k Hok) Hno) as (r & c' & Hs).
  exists r, c'. split; [done|]. assert (cache_ok c /\ same_config c c /\ rehasher c = rehasher c /\ forall k, view c k = view c k) as Hrefl.
  { split_and!; [done|apply same_config_refl|done|done]. }
  destruct (one_key o) eqn:Ho; [|by destruct o; try done; cbn in Hs; injection Hs as <- <-].
  destruct (ext_step_local (P := P) o Ho) as (key & f & Heq & Hloc). rewrite Heq in Hs. unfold checked, validateOpen in Hs.
  rewrite (co_open c Hok) in Hs. case_decide; [injection Hs as <- <-; exact Hrefl|].
  destruct (cache_ok_home c key Hok) as [s Hh]. rewrite (on_shard_home key f c s Hh) in Hs.
  pose proof (Hloc s s (agree_refl key s)) as Hcall. unfold same_call in Hcall.
  destruct (f s) as [[a s']| |]; cbn in Hs; try discriminate Hs. injection Hs as <- <-.
  destruct Hcall as (_ & _ & Ht & _). by destruct (put_touched key c s s' Hok Hh Ht) as (Hok' & Hsc & Hview).
Qed.

(** ** Any run *)

Lemma mixed_run_sound policies ops c m t :
  registry_ok policies -> 0 <= t -> cache_ok c -> rehasher c <> RNoop -> holds t c m ->
  valid_run (maxSize (opts c)) (defaultTTL (opts c)) t (string_ops ops) ->
  (resizable c \/ Forall (fun o => is_resize o.2 = false) (string_ops ops)) -> Forall returns_always ops ->
  exists rs c', mixed_run policies ops c ⇓ (rs, c') /\ cache_ok c' /\
    Forall2 (allowed (unlimited c)) (string_results rs) (spec_run (defaultTTL (opts c)) (string_ops ops) m).
Proof.
  intros Hreg. revert c m t. induction ops as [|[now o|[A o]] ops IH]; intros c m t Ht Hok Hno Hh Hv Hres Hall.
  - exists [], c. split; [done|]. split; [done|]. constructor.
  - apply Forall_cons in Hall as [_ Hall]. cbn [string_ops omap list_omap mixed_run mixed_step spec_run valid_run] in *.
    destruct Hv as (Hnow & Hvo & Hv).
    destruct (kv_step_refines policies now o c m t Hreg Ht Hnow Hok Hno Hh) as
      (r & c1 & -> & (Hok1 & Hno1 & Ho1 & Hres1) & Hr & Hh1).
    { destruct o; try done. split; [|done]. by destruct Hres as [|[? _]%Forall_cons]. }
    cbn [mbind outcome_bind mret outcome_ret]. destruct (spec_step (defaultTTL (opts c)) now o m) as [r' m']. cbn [fst snd] in *.
    rewrite <-Ho1 in Hv. destruct (IH c1 m' now ltac:(lia) Hok1 Hno1 Hh1 Hv) as (rs & c2 & -> & Hok2 & Hrs); [|done|].
    { destruct Hres as [?|[_ ?]%Forall_cons]; auto. }
    exists (inl r :: rs), c2. split; [done|]. split; [done|]. cbn [string_results omap list_omap]. constructor; [done|].
    rewrite Ho1 in Hrs. unfold unlimited in *. by rewrite Ho1 in Hrs.
  - apply Forall_cons in Hall as [Ho Hall]. cbn [string_ops omap list_omap mixed_run mixed_step returns_always projT2] in *.
    destruct (ext_step_sound o c Hok Ho) as (r & c1 & -> & Hok1 & Hsc & _ & Hview). cbn [mbind outcome_bind mret outcome_ret].
    pose proof (sc_opts _ _ Hsc) as Ho1. rewrite <-Ho1 in Hv. destruct (IH c1 m t Ht Hok1) as (rs & c2 & -> & Hok2 & Hrs); try done.
    + by apply Hsc.
    + intros k t' Ht'. unfold unlimited. rewrite Hview, Ho1. by apply Hh.
    + destruct Hres as [Hr|]; [left|by right]. eapply frame_full; [apply Hsc|exact Hr].
    + exists (inr (existT A r) :: rs), c2. split; [done|]. split; [done|]. cbn [string_results omap list_omap].
      rewrite Ho1 in Hrs. unfold unlimited in *. by rewrite Ho1 in Hrs.
Qed.

(** C5 (type): the operations of a cache fit together.  A run of operations on strings (resizes, clean-ups and policy changes
    included) and on sets, hashes and lists other than [SRandMember], in any order and on any keys, returns on a new cache under
    the conditions of [cache_refines_map] (not the noop rehasher; a clock that does not go back and deadlines within 64 bits; no
    resize, or no size limit, or room for at least 16 entries per shard at every size) and leaves the cache well formed: every
    key is in the one shard and sub-shard of its hash, the eviction policies know the keys held, and what is left to migrate is not
    in the new table.  The results of the operations on strings are those of a map with deadlines that has never heard of
    collections. *)
Theorem strings_and_collections policies o c ops :
  registry_ok policies -> New policies rehash_registry o = Ok c -> o_rehasher o <> "noop"%string ->
  valid_run (maxSize (opts c)) (defaultTTL (opts c)) 0 (string_ops ops) ->
  (roomy (maxSize o) (shardCount o) \/ Forall (fun o => is_resize o.2 = false) (string_ops ops)) ->
  Forall returns_always ops ->
  exists rs c', mixed_run policies ops c ⇓ (rs, c') /\ cache_ok c' /\
    Forall2 (allowed (maxSize o <= 0)) (string_results rs) (spec_run (defaultTTL o) (string_ops ops) ∅).
Proof.
  intros Hreg Hnew Hno Hv Hroom Hall.
  destruct (New_ok policies o c Hreg Hnew) as (Hok & Hview & Hm & Hd & _ & Hk & Hres & _).
  assert (holds 0 c ∅) as Hh by (intros k t _; left; by rewrite Hview, lookup_empty).
  assert (resizable c \/ Forall (fun o => is_resize o.2 = false) (string_ops ops)) as Hr by (destruct Hroom; auto).
  destruct (mixed_run_sound policies ops c ∅ 0 Hreg ltac:(lia) Hok (Hk Hno) Hh Hv Hr Hall) as (rs & c' & Hrun & Hok' & Hrs).
  exists rs, c'. split_and!; [done|done|]. rewrite <-Hd. eapply Forall2_impl; [exact Hrs|].
  intros x y [->|(Hu & -> & Hy)]; [by left|right]. split; [|done]. unfold unlimited in Hu. lia.
Qed.

End Mixed.

(** ** An example *)

#[local] Existing Instance trie_order.

Definition demo_mixed_ops : list cache_op :=
  [OnString 1 (KSet "a" (Some [x2a]) (Some 10)); OnCollection (existT _ (XSAdd "a" ["x"]%string)); OnString 2 (KResize 4);
   OnCollection (existT _ (XLPush "b" ["y"]%string)); OnString 3 (KGet "a"); OnString 4 (KDel "b");
   OnCollection (existT _ (XSUnion ["a"]%string)); OnString 20 (KGet "a")].

Lemma strings_and_collections_witness :
  exists rs c', mixed_run policyRegistry demo_mixed_ops (demo_cache 2 0) ⇓ (rs, c') /\ cache_ok c' /\
    Forall2 (allowed (0 <= 0)) (string_results rs)
      [RErr None; RNone; RVal (Ok [x2a]); RErr None; RVal (Err ErrKeyNotFound)].
Proof.
  replace [RErr None; RNone; RVal (Ok [x2a]); RErr None; RVal (Err ErrKeyNotFound)]
    with (spec_run (defaultTTL (demo_options 2 0)) (string_ops demo_mixed_ops) ∅) by (vm_compute; reflexivity).
  apply (strings_and_collections policyRegistry (demo_options 2 0) (demo_cache 2 0) demo_mixed_ops);
    [apply policyRegistry_ok|apply demo_new|discriminate| |left; left; discriminate|by repeat constructor].
  vm_compute. repeat split; try discriminate. left; discriminate.
Defined.
