(* ===== verification/CacheKeys.v ===== *)
(** * Expiry and the listing of keys (cache.go, cache_ext.go, shard.go)

    The commands on keys look at the entries of strings and at the collections.  In a cache that is not migrating the commands on
    deadlines do to the strings what they do to a map with deadlines, and [Exists], [Type] and [Keys] agree on which keys there are.
    (That they disagree with [Get] during a migration is shown in CacheExtSpec.v.) *)

From Stdlib Require Import Strings.Byte Strings.String.
From stdpp Require Import base tactics numbers list gmap sets fin_maps strings.
From S2P Require Import Prelude.
From S2P Require Import Policy.
From S2P Require Import Policies.
From S2P Require Import Hashing.
From S2P Require Import Shard.
From S2P Require Import ShardTyped.
From S2P Require Import Rehash.
From S2P Require Import Cache.
From S2P Require Import CacheSpec.
From S2P Require Import CacheExt.
From S2P Require Import CacheExtSpec.
From S2P Require Import CacheMixed.

Open Scope Z_scope.

(** ** Commands on deadlines, and the abstract ones *)

Inductive key_op : Type :=
| YExpire (key : string) (seconds : Z)
| YPExpire (key : string) (ms : Z)
| YExpireAt (key : string) (timestamp : Z)
| YPExpireAt (key : string) (msTimestamp : Z)
| YTTL (key : string)
| YPTTL (key : string)
| YPersist (key : string).

Inductive key_result : Type :=
| RBool (r : result error bool)
| RInt (r : result error Z).

Definition second : Z := 1000000000.
Definition millisecond : Z := 1000000.

(** A live key gets the deadline; 0 stands for none. *)
Definition set_deadline (now : Z) (key : string) (dl : Z) (m : gmap string cacheEntry) : gmap string cacheEntry :=
  match m !! key ≫= keep_live now with Some e => <[key := mkEntry (value e) dl]> m | None => m end.

Definition has_key (now : Z) (key : string) (m : gmap string cacheEntry) : bool := bool_decide (is_Some (m !! key ≫= keep_live now)).

(** Whole units left, -1 without a deadline, -2 without the key. *)
Definition time_left (unit now : Z) (key : string) (m : gmap string cacheEntry) : Z :=
  match m !! key ≫= keep_live now with
  | None => -2
  | Some e => if expiresAt e =? 0 then -1 else (expiresAt e - now) / unit
  end.

(** An instant that has passed changes nothing. *)
Definition until_instant (now : Z) (key : string) (t : Z) (m : gmap string cacheEntry) : bool * gmap string cacheEntry :=
  if t <=? now then (false, m) else (has_key now key m, set_deadline now key t m).

Definition key_of (o : key_op) : string :=
  match o with
  | YExpire key _ | YPExpire key _ | YExpireAt key _ | YPExpireAt key _ | YTTL key | YPTTL key | YPersist key => key
  end.

Definition asks_int (o : key_op) : bool := match o with YTTL _ | YPTTL _ => true | _ => false end.

Definition key_spec (now : Z) (o : key_op) (m : gmap string cacheEntry) : key_result * gmap string cacheEntry :=
  if decide (key_of o = EmptyString) then (if asks_int o then RInt (Err ErrKeyEmpty) else RBool (Err ErrKeyEmpty), m)
  else match o with
  | YExpire key s => (RBool (Ok (has_key now key m)), set_deadline now key (now + s * second) m)
  | YPExpire key ms => (RBool (Ok (has_key now key m)), set_deadline now key (now + ms * millisecond) m)
  | YExpireAt key t => let '(b, m) := until_instant now key (t * second) m in (RBool (Ok b), m)
  | YPExpireAt key t => let '(b, m) := until_instant now key (t * millisecond) m in (RBool (Ok b), m)
  | YTTL key => (RInt (Ok (time_left second now key m)), m)
  | YPTTL key => (RInt (Ok (time_left millisecond now key m)), m)
  | YPersist key => (RBool (Ok (has_key now key m)), set_deadline now key 0 m)
  end.

(** Deadlines after the start of the clock and within its range; a deadline that is not after [now] ends the key's life at once. *)
Definition key_valid (now : Z) (o : key_op) : Prop :=
  match o with
  | YExpire _ s => 0 < now + s * second <= max_int64
  | YPExpire _ ms => 0 < now + ms * millisecond <= max_int64
  | YExpireAt _ t => 0 <= t * second <= max_int64
  | YPExpireAt _ t => 0 <= t * millisecond <= max_int64
  | _ => True
  end.

Section Keys.
Context `{MI : MapIter} `{EP : EvictionPolicy P} `{PL : !PolicyLaws P}.
Notation shard := (shard P).
Notation Cache := (Cache P).

Definition key_step (now : Z) (o : key_op) (c : Cache) : outcome (key_result * Cache) :=
  match o with
  | YExpire key s => '(r, c) ← Expire now key s c; mret (RBool r, c)
  | YPExpire key ms => '(r, c) ← PExpire now key ms c; mret (RBool r, c)
  | YExpireAt key t => '(r, c) ← ExpireAt now key t c; mret (RBool r, c)
  | YPExpireAt key t => '(r, c) ← PExpireAt now key t c; mret (RBool r, c)
  | YTTL key => '(r, c) ← TTL now key c; mret (RInt r, c)
  | YPTTL key => '(r, c) ← PTTL now key c; mret (RInt r, c)
  | YPersist key => '(r, c) ← Persist now key c; mret (RBool r, c)
  end.

(** ** A command on a deadline *)

(** The states between commands: sound, without a size limit, not migrating, and with the entries of the map. *)
Record in_step (now : Z) (c : Cache) (m : gmap string cacheEntry) : Prop := {
  is_ok : cache_ok c;
  is_unlimited : unlimited c;
  is_idle : IsRehashing (rehasher c) = false;
  is_kind : rehasher c <> RNoop;
  is_holds : holds now c m;
}.

Lemma in_step_live now t c m k : in_step now c m -> now <= t -> own c k ≫= keep_live t = m !! k ≫= keep_live t.
Proof. intros [_ Hu Hi _ Hh] Ht. rewrite <-own_idle by done. by destruct (Hh k t Ht) as [|[]]. Qed.

Lemma in_step_later now t c m : now <= t -> in_step now c m -> in_step t c m.
Proof. intros Ht []. split; try done. by eapply holds_same. Qed.

Lemma keep_live_idemp t (o : option cacheEntry) e : o ≫= keep_live t = Some e -> o = Some e.
Proof. destruct o as [e'|]; [|done]. cbn. unfold keep_live. by case_match. Qed.

Lemma update_in_step now key dl c m :
  in_step now c m -> 0 <= dl <= max_int64 ->
  exists c', on_shard key (update_live now key (fun e => mkEntry (value e) dl)) c ⇓ (has_key now key m, c') /\
    in_step now c' (set_deadline now key dl m) /\ opts c' = opts c.
Proof.
  intros Hin Hdl. pose proof Hin as [Hok Hu Hi Hk Hh].
  destruct (update_live_ok now key (fun e => mkEntry (value e) dl) c Hok ltac:(done)) as (c' & -> & Hok' & Hsc & Hr & Hown).
  pose proof (in_step_live now now c m key Hin (Z.le_refl _)) as Hnow. exists c'. unfold has_key. rewrite <-Hnow.
  split; [done|]. split; [|by apply Hsc]. split; [done| |by rewrite Hr|by rewrite Hr|].
  { unfold unlimited. by rewrite (sc_opts _ _ Hsc). }
  intros k t Ht. left. rewrite own_idle, Hown by (by rewrite Hr). unfold set_deadline. rewrite <-Hnow.
  destruct (own c key ≫= keep_live now) as [e|] eqn:He.
  - apply keep_live_idemp in He as Heq. rewrite lookup_insert. rewrite Heq in He. cbn in He. unfold keep_live in He.
    destruct (isExpired now e) eqn:Hx; [done|]. repeat case_decide; try congruence; [subst; by rewrite Heq; cbn; rewrite Hx|].
    by apply (in_step_live now t).
  - rewrite <-(in_step_live now t c m k Hin Ht). case_decide; [subst|done]. destruct (own c key) as [e|]; [|done]. cbn in *.
    unfold keep_live in He. by destruct (isExpired now e).
Qed.

Lemma time_left_ok unit now key c m :
  in_step now c m -> 0 <= now -> 0 < unit -> ttl_of unit now (own c key) = time_left unit now key m.
Proof.
  intros Hin Hnow Hunit. unfold time_left. rewrite <-(in_step_live now now c m key Hin (Z.le_refl _)). unfold ttl_of.
  destruct (own c key) as [e|] eqn:He; [|done]. cbn.
  assert (deadline_ok e) as [Hlo Hhi].
  { apply (co_deadline c (is_ok _ _ _ Hin) key). by rewrite own_idle by apply Hin. }
  unfold until, keep_live, isExpired. destruct (Z.eqb_spec (expiresAt e) 0) as [E|E]; [rewrite E; done|].
  destruct (Z.leb_spec (expiresAt e) 0); [lia|]. destruct (Z.geb_spec now (expiresAt e)).
  - destruct (Z.leb_spec (sat64 (expiresAt e - now)) 0); [done|]. unfold sat64, min_int64, max_int64 in *. lia.
  - rewrite sat64_id by (unfold in_int64, min_int64, max_int64 in *; lia).
    destruct (Z.leb_spec (expiresAt e - now) 0); [lia|]. apply Z.eqb_neq in E as ->. apply Z.quot_div_nonneg; lia.
Qed.

(** A read leaves the shard as it is. *)
Lemma put_home (c : Cache) key s : home c key = Some s -> put_shard key s c = c.
Proof. intros Hs. destruct c. unfold put_shard, with_table, home in *. cbn in *. f_equal. by apply list_insert_id. Qed.

Lemma checked_ok {A} key (body : Cache -> outcome (result error A * Cache)) c :
  cache_ok c -> checked key body c = if decide (key = EmptyString) then Ret (Err ErrKeyEmpty, c) else body c.
Proof. intros Hok. unfold checked, validateOpen. by rewrite (co_open c Hok). Qed.

Lemma read_in_step now unit key c m :
  in_step now c m -> 0 <= now -> 0 < unit -> key <> EmptyString ->
  entry_read key (ttl_in unit now key) c ⇓ (Ok (time_left unit now key m), c).
Proof.
  intros Hin Hnow Hu Hkey. pose proof (is_ok _ _ _ Hin) as Hok.
  destruct (entry_read_ok key (ttl_in unit now key) (fun o _ => ttl_of unit now o) c Hok Hkey (fun s => ttl_in_spec unit now key s))
    as (s & Hs & ->). by rewrite (time_left_ok unit now key c m), (put_home c key s).
Qed.

Lemma until_in_step now key t c m :
  in_step now c m -> 0 <= now -> key <> EmptyString -> 0 <= t <= max_int64 ->
  exists c', expire_until t now key c ⇓ (Ok (until_instant now key t m).1, c') /\
    in_step now c' (until_instant now key t m).2 /\ opts c' = opts c.
Proof.
  intros Hin Hnow Hkey Ht. unfold expire_until, until_instant. rewrite checked_ok, decide_False by (done || apply Hin).
  cbv zeta. destruct (Z.leb_spec t now) as [Hle|Hgt].
  - rewrite (proj2 (Z.leb_le _ _)) by (unfold sat64, min_int64, max_int64; lia). by exists c.
  - rewrite sat64_id by (unfold in_int64, min_int64, max_int64 in *; lia). rewrite (proj2 (Z.leb_gt _ _)) by lia.
    destruct (update_in_step now key t c m Hin Ht) as (c' & Hup & Hc'). exists c'. split; [|done].
    apply on_shard_Ok. unfold expire. by rewrite Z.add_comm, Z.sub_add, int64_small.
Qed.

(** The commands that change the deadline of a key. *)
Lemma entry_in_step now key dl c m :
  in_step now c m -> key <> EmptyString -> 0 <= dl <= max_int64 ->
  exists c', entry_op key (update_live now key (fun e => mkEntry (value e) dl)) c ⇓ (Ok (has_key now key m), c') /\
    in_step now c' (set_deadline now key dl m) /\ opts c' = opts c.
Proof.
  intros Hin Hkey Hdl. destruct (update_in_step now key dl c m Hin Hdl) as (c' & Hup & Hc'). exists c'. split; [|done].
  unfold entry_op. rewrite checked_ok, decide_False by (done || apply Hin). by apply on_shard_Ok.
Qed.

Lemma expire_in_step now key ttl c m :
  in_step now c m -> key <> EmptyString -> 0 <= now <= max_int64 -> 0 < now + ttl <= max_int64 ->
  exists c', entry_op key (expire now key (int64 ttl)) c ⇓ (Ok (has_key now key m), c') /\
    in_step now c' (set_deadline now key (now + ttl) m) /\ opts c' = opts c.
Proof.
  intros Hin Hkey Hnow Hdl. unfold expire.
  rewrite (int64_id ttl), (int64_small (now + ttl)) by (unfold in_int64, min_int64, max_int64 in *; lia).
  by apply entry_in_step; [..|lia].
Qed.

Lemma unix_seconds_small t : 0 <= t * second <= max_int64 -> unix_seconds t = t * second.
Proof.
  unfold unix_seconds, second, max_int64. intros Ht. rewrite int64_small by (unfold max_int64; lia). lia.
Qed.

Lemma key_step_in_step now o c m :
  in_step now c m -> 0 <= now <= max_int64 -> key_valid now o ->
  exists c', key_step now o c ⇓ ((key_spec now o m).1, c') /\ in_step now c' (key_spec now o m).2 /\ opts c' = opts c.
Proof.
  intros Hin Hnow Hv. pose proof (is_ok _ _ _ Hin) as Hok. unfold key_spec. destruct (decide (key_of o = EmptyString)) as [Hkey|Hkey].
  { exists c. split; [|by destruct (asks_int o)].
    destruct o; cbn in Hkey |- *; subst;
      unfold Expire, PExpire, ExpireAt, PExpireAt, TTL, PTTL, Persist, expire_until, entry_read, entry_op; by rewrite checked_ok. }
  destruct o as [key s|key s|key t|key t|key|key|key]; cbn [key_of key_valid key_step] in *.
  - destruct (expire_in_step now key (s * second) c m Hin Hkey Hnow Hv) as (c' & He & Hc'). unfold Expire.
    change (s * 1000000000) with (s * second). rewrite He. by exists c'.
  - destruct (expire_in_step now key (s * millisecond) c m Hin Hkey Hnow Hv) as (c' & He & Hc'). unfold PExpire.
    change (s * 1000000) with (s * millisecond). rewrite He. by exists c'.
  - destruct (until_in_step now key (t * second) c m Hin (proj1 Hnow) Hkey Hv) as (c' & He & Hc'). unfold ExpireAt.
    rewrite unix_seconds_small, He by done. exists c'. by destruct (until_instant now key (t * second) m).
  - destruct (until_in_step now key (t * millisecond) c m Hin (proj1 Hnow) Hkey Hv) as (c' & He & Hc'). unfold PExpireAt.
    change (t * 1000000) with (t * millisecond). rewrite int64_small, He by done. exists c'. by destruct (until_instant now key (t * millisecond) m).
  - exists c. unfold TTL, ttlSeconds. change 1000000000 with second. by rewrite (read_in_step now second key c m Hin (proj1 Hnow)).
  - exists c. unfold PTTL, ttlMillis. change 1000000 with millisecond. by rewrite (read_in_step now millisecond key c m Hin (proj1 Hnow)).
  - destruct (entry_in_step now key 0 c m Hin Hkey ltac:(done)) as (c' & He & Hc'). unfold Persist, persist. rewrite He. by exists c'.
Qed.

(** ** The other commands *)

Lemma set_old_idle old (r : Rehasher shard) : IsRehashing (set_old old r) = IsRehashing r.
Proof. by destruct r as [[]|[]|]. Qed.

Lemma kv_idle policies now o c r c' :
  0 <= now -> cache_ok c -> IsRehashing (rehasher c) = false -> is_resize o = false -> op_valid now o c ->
  kv_step policies now o c ⇓ (r, c') -> IsRehashing (rehasher c') = false.
Proof.
  intros Hnow Hok Hi Hn Hv Hs. destruct (is_kv o) eqn:Hkv.
  { destruct (kv_only_step policies now o c Hnow Hok Hkv Hv) as (r' & c2 & Hs' & _ & _ & Hr). rewrite Hs in Hs'.
    injection Hs' as _ <-. by rewrite Hr. }
  destruct o; try done; cbn in Hs.
  - unfold Cleanup in Hs. rewrite (co_open c Hok) in Hs. cbn in Hs. destruct (each_shard _ (table c) _) as [[? ?]| |]; [|done..].
    cbn in Hs. destruct (each_shard _ _ _) as [[? ?]| |]; [|done..]. injection Hs as _ <-. cbn. by rewrite set_old_idle.
  - unfold SetEvictionPolicy, validateOpen in Hs. rewrite (co_open c Hok) in Hs.
    destruct (getPolicyFactory name policies); [|by injection Hs as _ <-]. cbn in Hs.
    destruct (each_shard _ (table c) _) as [[? ?]| |]; [|done..]. cbn in Hs. destruct (each_shard _ _ _) as [[? ?]| |]; [|done..].
    injection Hs as _ <-. cbn. by rewrite set_old_idle.
Qed.

Lemma kv_in_step policies now o c m :
  registry_ok policies -> 0 <= now -> in_step now c m -> is_resize o = false -> op_valid now o c ->
  exists c', kv_step policies now o c ⇓ ((spec_step (defaultTTL (opts c)) now o m).1, c') /\
    in_step now c' (spec_step (defaultTTL (opts c)) now o m).2 /\ opts c' = opts c.
Proof.
  intros Hreg Hnow [Hok Hu Hi Hk Hh] Hn Hv.
  destruct (kv_step_refines policies now o c m now Hreg Hnow (Z.le_refl _) Hok Hk Hh Hv) as (r & c' & Hs & (Hok' & Hk' & Ho & _) & Hr & Hh').
  destruct Hr as [->|[]]; [|done]. exists c'. split_and!; [done| |done]. split; try done.
  - unfold unlimited. by rewrite Ho.
  - exact (kv_idle policies now o c _ c' Hnow Hok Hi Hn Hv Hs).
Qed.

Lemma ext_in_step now {A} (o : ext_op A) c m :
  in_step now c m -> no_rand o = true -> exists r c', ext_step o c ⇓ (r, c') /\ in_step now c' m /\ opts c' = opts c.
Proof.
  intros [Hok Hu Hi Hk Hh] Hno. destruct (ext_step_sound o c Hok Hno) as (r & c' & Hs & Hok' & Hsc & Hr & Hview).
  exists r, c'. split; [done|]. pose proof (sc_opts _ _ Hsc) as Ho. split; [|done].
  assert (unlimited c') as Hu' by (unfold unlimited; by rewrite Ho).
  split; [done|done|by rewrite Hr|by rewrite Hr|].
  intros k t Ht. rewrite Hview. destruct (Hh k t Ht) as [|[]]; [by left|done].
Qed.

(** ** Collections are in the shard of their key *)

Definition holds_collection (s : shard) (k : string) : Prop := is_Some (sets s !! k) \/ is_Some (hashes s !! k) \/ is_Some (lists s !! k).

Definition at_home (c : Cache) : Prop :=
  forall i s k, table c !! i = Some s -> holds_collection s k -> i = Z.to_nat (shardIndex c k).

(** Operations on strings make no collection; [Del] removes those of its key. *)
Definition no_more (s s' : shard) : Prop := forall k, holds_collection s' k -> holds_collection s k.

Lemma with_sub_collections {A} key (f : subShard P -> outcome (A * subShard P)) (s s' : shard) a :
  with_sub key f s ⇓ (a, s') -> no_more s s'.
Proof.
  unfold with_sub. destruct (get_sub s key) as [sub| |]; [|done..]. cbn. destruct (f sub) as [[b sub']| |]; [|done..].
  cbn. intros [= _ <-] k Hk. exact Hk.
Qed.

Lemma all_subs_collections {A} (f : subShard P -> A -> A * subShard P) a (s s' : shard) b :
  all_subs f a s ⇓ (b, s') -> no_more s s'.
Proof. unfold all_subs. destruct (on_subs _ _ _ _) as [[a' l]| |]; [|done..]. cbn. intros [= _ <-] k Hk. exact Hk. Qed.

Lemma at_home_table c c' : mask c' = mask c -> Forall2 no_more (table c) (table c') -> at_home c -> at_home c'.
Proof.
  intros Hm Hall Hat i s' k Hi Hc. destruct (Forall2_lookup_r _ _ _ _ _ Hall Hi) as (s & Hs & Hn).
  unfold shardIndex. rewrite Hm. by apply (Hat i s k Hs), Hn.
Qed.

Lemma on_shard_collections {A} key (f : shard -> outcome (A * shard)) (c c' : Cache) a :
  (forall s b s', f s ⇓ (b, s') -> no_more s s') -> on_shard key f c ⇓ (a, c') ->
  Forall2 no_more (table c) (table c') /\ mask c' = mask c /\ rehasher c' = rehasher c.
Proof.
  intros Hf. unfold on_shard, getShard. destruct (table c !! Z.to_nat (shardIndex c key)) as [s|] eqn:Hs; [|done]. cbn.
  destruct (f s) as [[b s']| |] eqn:Hfs; [|done..]. cbn. intros [= _ <-]. split; [|done]. cbn.
  apply Forall2_same_length_lookup. rewrite length_insert. split; [done|]. intros i x y Hx. rewrite list_lookup_insert.
  case_decide as Hi; [|intros Hy; by rewrite Hx in Hy; injection Hy as <-; intros k]. intros [= <-]. destruct Hi as [<- _].
  rewrite Hs in Hx. injection Hx as <-. by eapply Hf.
Qed.

Lemma each_shard_collections {A} (f : shard -> A -> outcome (A * shard)) l a b l' :
  (forall s a b s', f s a ⇓ (b, s') -> no_more s s') -> each_shard f l a ⇓ (b, l') -> Forall2 no_more l l'.
Proof.
  intros Hf. revert a b l'. induction l as [|s l IH]; intros a b l'; cbn; [by intros [= _ <-]|].
  destruct (f s a) as [[a1 s']| |] eqn:Hs; [|done..]. cbn. destruct (each_shard f l a1) as [[a2 l2]| |] eqn:Hl; [|done..]. cbn.
  intros [= _ <-]. constructor; [by eapply Hf|by eapply IH].
Qed.

Lemma Del_collections key (s s' : shard) : Shard.Del key s ⇓ s' -> no_more s s'.
Proof.
  unfold Shard.Del. destruct (with_sub key (sub_Del key) s) as [[a s1]| |] eqn:Hw; [|done..]. cbn. intros [= <-] k Hk.
  eapply with_sub_collections; [exact Hw|]. unfold holds_collection in *. cbn in Hk. rewrite !lookup_delete_is_Some in Hk. tauto.
Qed.

Lemma emits_table evs (c : Cache) (c' := foldl (fun c ek => emit (OnEvict ek) c) c evs) :
  table c' = table c /\ mask c' = mask c /\ rehasher c' = rehasher c.
Proof. subst c'. revert c. induction evs as [|e evs IH]; intros c; [done|]. cbn. apply (IH (emit (OnEvict e) c)). Qed.

(** The operations on strings, outside a migration. *)
Lemma kv_collections policies now o c r c' :
  cache_ok c -> IsRehashing (rehasher c) = false -> is_resize o = false -> kv_step policies now o c ⇓ (r, c') -> at_home c -> at_home c'.
Proof.
  intros Hok Hi Hn Hs. destruct o as [key v ttl|key|key|n| |name]; cbn in Hn, Hs; [..|done| |].
  - unfold Cache.Set_, validateOpen in Hs. rewrite (co_open c Hok) in Hs.
    destruct (validateKeyValue key v); [by injection Hs as _ <-|]. destruct v as [v|]; [|by injection Hs as _ <-].
    destruct (on_shard key _ c) as [[ev c1]| |] eqn:H1; [|done..]. cbn in Hs.
    destruct (on_shard_collections _ _ _ _ _ (fun s b s' => with_sub_collections key _ s s' b) H1) as (Ht & Hm & Hr).
    destruct (emits_table ev (emit (OnSet key) c1)) as (Ht2 & Hm2 & Hr2). rewrite Hr2 in Hs. cbn in *. rewrite Hr, Hi in Hs.
    injection Hs as _ <-. apply at_home_table; [congruence|by rewrite Ht2].
  - unfold Get, validateOpen in Hs. rewrite (co_open c Hok) in Hs. case_decide; [by injection Hs as _ <-|].
    destruct (on_shard key _ c) as [[v c1]| |] eqn:H1; [|done..]. cbn in Hs.
    destruct (on_shard_collections _ _ _ _ _ (fun s b s' => with_sub_collections key _ s s' b) H1) as (Ht & Hm & Hr).
    rewrite <-Hr in Hi. unfold step_if_rehashing in Hs.
    destruct v as [v|]; cbn in Hs; rewrite ?Hi in Hs; cbn in Hs; rewrite ?Hi in Hs; injection Hs as _ <-; by apply at_home_table.
  - unfold Cache.Del, validateOpen in Hs. rewrite (co_open c Hok) in Hs. case_decide; [by injection Hs as _ <-|].
    destruct (on_shard key _ c) as [[v c1]| |] eqn:H1; [|done..]. cbn in Hs.
    apply on_shard_collections in H1 as (Ht & Hm & Hr).
    + rewrite Hr, Hi in Hs. injection Hs as _ <-. by apply at_home_table.
    + intros s b s'. destruct (Shard.Del key s) as [s1| |] eqn:Hd; [|done..]. cbn. intros [= _ <-]. by eapply Del_collections.
  - unfold Cleanup in Hs. rewrite (co_open c Hok) in Hs. cbn in Hs.
    destruct (each_shard _ (table c) _) as [[? l]| |] eqn:He; [|done..]. cbn in Hs. destruct (each_shard _ (OldShards _) _) as [[? ?]| |]; [|done..].
    injection Hs as _ <-. apply at_home_table; [done|]. eapply each_shard_collections, He. intros s a b s'.
    cbn. destruct (cleanup now s) as [[n s1]| |] eqn:Hc; cbn; try discriminate. intros [= _ <-]. by eapply all_subs_collections.
  - unfold SetEvictionPolicy, validateOpen in Hs. rewrite (co_open c Hok) in Hs.
    destruct (getPolicyFactory name policies) as [f|]; [|by injection Hs as _ <-]. cbn in Hs.
    destruct (each_shard _ (table c) _) as [[? l]| |] eqn:He; [|done..]. cbn in Hs. destruct (each_shard _ (OldShards _) _) as [[? ?]| |]; [|done..].
    injection Hs as _ <-. apply at_home_table; [done|]. eapply each_shard_collections, He. intros s a b s'.
    cbn. unfold swapPolicy. destruct (all_subs _ _ s) as [[n s1]| |] eqn:Hc; cbn; try discriminate. intros [= _ <-]. by eapply all_subs_collections.
Qed.

Lemma entry_collections {A} key (f : shard -> outcome (A * shard)) (c c' : Cache) r :
  cache_ok c -> (forall s b s', f s ⇓ (b, s') -> no_more s s') -> entry_op key f c ⇓ (r, c') -> at_home c -> at_home c'.
Proof.
  intros Hok Hf. unfold entry_op. rewrite checked_ok by done. case_decide; [by intros [= _ <-]|]. intros H1.
  apply on_shard_collections in H1 as (Ht & Hm & _); [by apply at_home_table|]. intros s b s'.
  destruct (f s) as [[a s1]| |] eqn:Hfs; cbn; try discriminate. intros [= _ <-]. by eapply Hf.
Qed.

Lemma read_collections {A} (f : shard -> outcome A) s b s' : (a ← f s; mret (a, s)) ⇓ (b, s') -> no_more s s'.
Proof. destruct (f s); cbn; try discriminate. intros [= _ <-] k Hk. exact Hk. Qed.

Lemma until_collections t now key (c c' : Cache) r :
  cache_ok c -> expire_until t now key c ⇓ (r, c') -> at_home c -> at_home c'.
Proof.
  intros Hok. unfold expire_until. rewrite checked_ok by done. case_decide; [by intros [= _ <-]|]. cbv zeta.
  case_match; [by intros [= _ <-]|]. intros H1. apply on_shard_collections in H1 as (Ht & Hm & _); [by apply at_home_table|].
  intros s b s'. destruct (expire now key _ s) as [[a s1]| |] eqn:Hfs; cbn; try discriminate. intros [= _ <-].
  by eapply with_sub_collections.
Qed.

Lemma key_collections now o (c c' : Cache) r : cache_ok c -> key_step now o c ⇓ (r, c') -> at_home c -> at_home c'.
Proof.
  intros Hok. destruct o; cbn [key_step];
    match goal with |- mbind _ ?x ⇓ _ -> _ => destruct x as [[r1 c1]| |] eqn:H1; cbn; try discriminate end; intros [= _ <-];
    first [by eapply until_collections | eapply entry_collections; [done| |exact H1]; intros s b s'].
  all: first [apply read_collections | apply with_sub_collections].
Qed.

Lemma put_at_home (c : Cache) key s s' :
  home c key = Some s -> touches key s s' -> at_home c -> at_home (put_shard key s' c).
Proof.
  intros Hs (_ & _ & _ & Hag) Hat i u k. cbn. rewrite list_lookup_insert. case_decide as Hi; [|apply Hat].
  destruct Hi as [<- _]. intros [= <-] Hk. destruct (decide (k = key)) as [->|Hne]; [done|].
  apply (Hat _ s k Hs). destruct (Hag k Hne) as (H1 & H2 & H3). unfold holds_collection in *. by rewrite <-H1, <-H2, <-H3.
Qed.

Lemma ext_collections {A} (o : ext_op A) (c c' : Cache) r : cache_ok c -> ext_step o c ⇓ (r, c') -> at_home c -> at_home c'.
Proof.
  intros Hok Hs. destruct (one_key o) eqn:Ho; [|by destruct o; try done; cbn in Hs; injection Hs as _ <-].
  destruct (ext_step_local (P := P) o Ho) as (key & f & Heq & Hloc). rewrite Heq, checked_ok in Hs by done.
  case_decide; [by injection Hs as _ <-|]. destruct (cache_ok_home c key Hok) as [s Hh].
  rewrite (on_shard_home key f c s Hh) in Hs. pose proof (Hloc s s (agree_refl key s)) as Hcall. unfold same_call in Hcall.
  destruct (f s) as [[a s']| |]; cbn in Hs; try discriminate Hs. injection Hs as _ <-.
  destruct Hcall as (_ & _ & Ht & _). by apply (put_at_home c key s s').
Qed.

(** ** Runs *)

Inductive any_op : Type :=
| OpString (now : Z) (o : kv_op)
| OpKey (now : Z) (o : key_op)
| OpCollection (o : { A & ext_op A }).

Inductive answer : Type :=
| AnsString (r : kv_result)
| AnsKey (r : key_result)
| AnsCollection (r : { A & result error A }).

Definition any_step (policies : registry P) (o : any_op) (c : Cache) : outcome (answer * Cache) :=
  match o with
  | OpString now o => '(r, c) ← kv_step policies now o c; mret (AnsString r, c)
  | OpKey now o => '(r, c) ← key_step now o c; mret (AnsKey r, c)
  | OpCollection (existT A o) => '(r, c) ← ext_step o c; mret (AnsCollection (existT A r), c)
  end.

Fixpoint any_run (policies : registry P) (ops : list any_op) (c : Cache) : outcome (list answer * Cache) :=
  match ops with
  | [] => Ret ([], c)
  | o :: ops => '(a, c) ← any_step policies o c; '(rs, c) ← any_run policies ops c; mret (a :: rs, c)
  end.

(** The answers of a map with deadlines, which has no collections, and the map at the end. *)
Fixpoint map_run (defaultTTL : Z) (ops : list any_op) (m : gmap string cacheEntry) : list answer * gmap string cacheEntry :=
  match ops with
  | [] => ([], m)
  | OpString now o :: ops =>
      let '(r, m) := spec_step defaultTTL now o m in let '(rs, m) := map_run defaultTTL ops m in (AnsString r :: rs, m)
  | OpKey now o :: ops => let '(r, m) := key_spec now o m in let '(rs, m) := map_run defaultTTL ops m in (AnsKey r :: rs, m)
  | OpCollection _ :: ops => map_run defaultTTL ops m
  end.

Definition about_strings (rs : list answer) : list answer :=
  List.filter (fun a => match a with AnsCollection _ => false | _ => true end) rs.

(** Instants that do not go back, from [t] to [u], deadlines in the clock's range, and no resize. *)
Fixpoint any_valid (defaultTTL t : Z) (ops : list any_op) (u : Z) : Prop :=
  match ops with
  | [] => t <= u
  | OpString now o :: ops =>
      t <= now /\ is_resize o = false /\
      match o with KSet _ _ ttl => now + match ttl with Some t => Z.max t 0 | None => defaultTTL end <= max_int64 | _ => True end /\
      any_valid defaultTTL now ops u
  | OpKey now o :: ops => t <= now <= max_int64 /\ key_valid now o /\ any_valid defaultTTL now ops u
  | OpCollection o :: ops => no_rand (projT2 o) = true /\ any_valid defaultTTL t ops u
  end.

Lemma any_run_in_step policies ops c m t u :
  registry_ok policies -> 0 <= t -> in_step t c m -> at_home c -> any_valid (defaultTTL (opts c)) t ops u ->
  exists rs c', any_run policies ops c ⇓ (rs, c') /\ about_strings rs = (map_run (defaultTTL (opts c)) ops m).1 /\
    in_step u c' (map_run (defaultTTL (opts c)) ops m).2 /\ at_home c' /\ 0 <= u.
Proof.
  intros Hreg. revert c m t. induction ops as [|[now o|now o|[A o]] ops IH]; intros c m t Ht Hin Hat Hv;
    cbn [any_run any_step map_run any_valid projT2] in *.
  - exists [], c. split_and!; try done; [by eapply in_step_later|lia].
  - destruct Hv as (Hnow & Hn & Hvo & Hv). apply (in_step_later t now) in Hin; [|done]. pose proof (is_ok _ _ _ Hin) as Hok.
    destruct (kv_in_step policies now o c m Hreg ltac:(lia) Hin Hn) as (c1 & Hs & Hin1 & Ho1); [by destruct o|].
    pose proof (kv_collections policies now o c _ c1 Hok (is_idle _ _ _ Hin) Hn Hs Hat) as Hat1. rewrite Hs. clear Hs.
    destruct (spec_step (defaultTTL (opts c)) now o m) as [r m1]. cbn in Hin1 |- *. rewrite <-Ho1 in Hv |- *.
    destruct (IH c1 m1 now ltac:(lia) Hin1 Hat1 Hv) as (rs & c2 & -> & Hrs & Hrest).
    destruct (map_run (defaultTTL (opts c1)) ops m1). eexists _, c2. cbn in *. split; [done|]. split; [|done]. unfold about_strings in *. cbn. by rewrite Hrs.
  - destruct Hv as (Hnow & Hvo & Hv). apply (in_step_later t now) in Hin; [|lia]. pose proof (is_ok _ _ _ Hin) as Hok.
    destruct (key_step_in_step now o c m Hin ltac:(lia) Hvo) as (c1 & Hs & Hin1 & Ho1).
    pose proof (key_collections now o c c1 _ Hok Hs Hat) as Hat1. rewrite Hs. clear Hs.
    destruct (key_spec now o m) as [r m1]. cbn in Hin1 |- *. rewrite <-Ho1 in Hv |- *.
    destruct (IH c1 m1 now ltac:(lia) Hin1 Hat1 Hv) as (rs & c2 & -> & Hrs & Hrest).
    destruct (map_run (defaultTTL (opts c1)) ops m1). eexists _, c2. cbn in *. split; [done|]. split; [|done]. unfold about_strings in *. cbn. by rewrite Hrs.
  - destruct Hv as (Hno & Hv). destruct (ext_in_step t o c m Hin Hno) as (r & c1 & Hs & Hin1 & Ho1).
    pose proof (ext_collections o c c1 r (is_ok _ _ _ Hin) Hs Hat) as Hat1. rewrite Hs. cbn. rewrite <-Ho1 in Hv |- *.
    destruct (IH c1 m t Ht Hin1 Hat1 Hv) as (rs & c2 & -> & Hrs & Hrest). by eexists _, c2.
Qed.

(** ** Listing keys *)

Lemma elem_of_added (Q : string -> bool) l acc k :
  k ∈ foldl (fun acc x => if Q x then acc ++ [x] else acc) acc l <-> k ∈ acc \/ (k ∈ l /\ Q k = true).
Proof.
  revert acc. induction l as [|x l IH]; intros acc; cbn; [set_solver|]. rewrite IH. destruct (Q x) eqn:Hx; [set_solver|].
  rewrite elem_of_cons. split; [tauto|]. intros [?|[[->|?] ?]]; [tauto|congruence|tauto].
Qed.

Lemma elem_of_live (Q : string -> bool) now (l : list (string * cacheEntry)) acc k :
  k ∈ foldl (fun acc '(k, e) => if isExpired now e then acc else if Q k then acc ++ [k] else acc) acc l <->
  k ∈ acc \/ (Q k = true /\ exists e, (k, e) ∈ l /\ isExpired now e = false).
Proof.
  revert acc. induction l as [|[x e] l IH]; intros acc; cbn; [set_solver|]. rewrite IH.
  setoid_rewrite elem_of_cons. destruct (isExpired now e) eqn:He; [|destruct (Q x) eqn:Hx]; rewrite ?elem_of_app, ?list_elem_of_singleton.
  - split; [naive_solver|]. intros [?|(? & e' & [[= -> ->]|?] & ?)]; [tauto|congruence|eauto].
  - split; [naive_solver|]. intros [?|(? & e' & [[= -> ->]|?] & ?)]; eauto.
  - split; [naive_solver|]. intros [?|(? & e' & [[= -> ->]|?] & ?)]; [tauto|congruence|eauto].
Qed.

Lemma elem_of_subs_live (Q : string -> bool) now (l : list (subShard P)) acc k :
  k ∈ foldl (fun acc sub => foldl (fun acc '(k, e) => if isExpired now e then acc else if Q k then acc ++ [k] else acc) acc
      (map_iter (entries sub))) acc l <->
  k ∈ acc \/ (Q k = true /\ exists sub, sub ∈ l /\ is_Some (entries sub !! k ≫= keep_live now)).
Proof.
  assert (forall sub : subShard P, is_Some (entries sub !! k ≫= keep_live now) <->
    exists e, (k, e) ∈ map_iter (entries sub) /\ isExpired now e = false) as Hlive.
  { intros sub. setoid_rewrite map_iter_perm. setoid_rewrite elem_of_map_to_list. split.
    - intros [e He]. apply keep_live_idemp in He as Heq. rewrite Heq in He. cbn in He. unfold keep_live in He.
      exists e. split; [done|]. by destruct (isExpired now e).
    - intros (e & -> & He). cbn. unfold keep_live. rewrite He. eauto. }
  revert acc. induction l as [|sub l IH]; intros acc; cbn; [set_solver|]. rewrite IH, elem_of_live, <-Hlive. set_solver.
Qed.

(** A live string or a collection. *)
Definition here (now : Z) (s : shard) (k : string) : Prop := is_Some (shard_entries s !! k ≫= keep_live now) \/ holds_collection s k.

Lemma sub_of_entry s l k e :
  shard_ok s -> subs s = (Some <$> l) ++ replicate (Z.to_nat (subShardsPerShard - numSubs s)) None ->
  shard_entries s !! k = Some e <-> exists sub, sub ∈ l /\ entries sub !! k = Some e.
Proof.
  intros Hok Hsubs. rewrite shard_entries_lookup by done. split.
  - destruct (subs s !! Z.to_nat (subIndex s k)) as [[sub|]|] eqn:Hsub; [|done..]. cbn. intros He. exists sub. split; [|done].
    rewrite Hsubs in Hsub. apply list_elem_of_lookup_2, elem_of_app in Hsub as [(sub' & [= <-] & Hin)%list_elem_of_fmap|Hin]; [done|].
    by apply elem_of_replicate in Hin as [? _].
  - intros (sub & (i & Hi)%list_elem_of_lookup & He).
    assert (subs s !! i = Some (Some sub)) as Hsub.
    { rewrite Hsubs, lookup_app_l by (rewrite length_fmap; by eapply lookup_lt_Some). by rewrite list_lookup_fmap, Hi. }
    rewrite <-(so_keys s i sub k Hok Hsub) by eauto. by rewrite Hsub.
Qed.

Lemma matchKeys_spec Match now pattern s :
  shard_ok s -> exists l, matchKeys Match now pattern s ⇓ l /\ forall k, k ∈ l <-> Match pattern k = true /\ here now s k.
Proof.
  intros Hok. destruct (shard_subs s Hok) as (l & Hsubs & Hlen & _). unfold matchKeys.
  rewrite (all_subs_fold _ _ _ l Hsubs Hlen), (sub_fold_pure _ (fun sub => sub)). cbn. eexists. split; [done|]. intros k.
  rewrite !elem_of_added, elem_of_subs_live. unfold here, holds_collection.
  assert (forall V (m : gmap string V), k ∈ (map_iter m).*1 <-> is_Some (m !! k)) as Hkeys.
  { intros V m. rewrite map_iter_perm. split.
    - intros ([k' v] & -> & Hv%elem_of_map_to_list)%list_elem_of_fmap. eauto.
    - intros [v Hv]. apply list_elem_of_fmap. exists (k, v). split; [done|]. by apply elem_of_map_to_list. }
  rewrite !Hkeys. assert ((exists sub, sub ∈ l /\ is_Some (entries sub !! k ≫= keep_live now)) <->
    is_Some (shard_entries s !! k ≫= keep_live now)) as ->; [|set_solver].
  split.
  - intros (sub & Hin & e & He). apply keep_live_idemp in He as Heq. exists e.
    rewrite (proj2 (sub_of_entry s l k e Hok Hsubs)) by eauto. by rewrite Heq in He.
  - intros [e He]. apply keep_live_idemp in He as Heq. rewrite Heq in He.
    destruct (proj1 (sub_of_entry s l k e Hok Hsubs) Heq) as (sub & Hin & Hsub). exists sub. split; [done|]. rewrite Hsub. eauto.
Qed.

Lemma each_matchKeys Match now pattern (l : list shard) acc :
  Forall shard_ok l ->
  exists ks, each_shard (fun s matched => l ← matchKeys Match now pattern s; mret (matched ++ l, s)) l acc ⇓ (ks, l) /\
    forall k, k ∈ ks <-> k ∈ acc \/ (Match pattern k = true /\ exists s, s ∈ l /\ here now s k).
Proof.
  revert acc. induction l as [|s l IH]; intros acc Hall; cbn; [exists acc; split; [done|set_solver]|].
  apply Forall_cons in Hall as [Hs Hall]. destruct (matchKeys_spec Match now pattern s Hs) as (ks & -> & Hks). cbn.
  destruct (IH (acc ++ ks) Hall) as (ks' & -> & Hks'). exists ks'. split; [done|]. intros k. rewrite Hks', elem_of_app, Hks. set_solver.
Qed.

Definition type_of (now : Z) (key : string) (o : option cacheEntry) (s : shard) : Z :=
  if bool_decide (is_Some (o ≫= keep_live now)) then 1
  else if bool_decide (is_Some (sets s !! key)) then 2 else if bool_decide (is_Some (hashes s !! key)) then 3
  else if bool_decide (is_Some (lists s !! key)) then 4 else 0.

Lemma keyType_spec now key s : shard_ok s -> keyType now key s ⇓ (type_of now key (shard_entries s !! key) s).
Proof.
  intros Hok. destruct (get_sub_ok s key Hok) as (sub & Hg & _ & _ & _ & Hat). unfold keyType, type_of. rewrite Hg. cbn.
  rewrite (Hat key eq_refl). destruct (entries sub !! key) as [e|]; [|done]. cbn. unfold keep_live.
  by destruct (isExpired now e).
Qed.

(** What is in the shards of a cache is in the shard of its key. *)
Lemma here_home now c k s :
  cache_ok c -> at_home c -> home c k = Some s -> (exists s', s' ∈ table c /\ here now s' k) <-> here now s k.
Proof.
  intros Hok Hat Hs. split; [|intros Hh; exists s; split; [by eapply list_elem_of_lookup_2|done]].
  intros (s' & (i & Hi)%list_elem_of_lookup & Hh). enough (i = Z.to_nat (shardIndex c k)) as ->.
  { unfold home in Hs. rewrite Hs in Hi. by injection Hi as ->. }
  destruct Hh as [[e He]|Hc]; [|by eapply Hat]. apply keep_live_idemp in He.
  pose proof (to_keys _ _ (co_table c Hok) i s' k Hi) as Hk. cbn in Hk. rewrite He in Hk. symmetry. eauto.
Qed.

Lemma Keys_ok Match now pattern c :
  cache_ok c -> exists l, Keys Match now pattern c ⇓ (Ok l) /\
    forall k, k ∈ l <-> Match pattern k = true /\ exists s, s ∈ table c /\ here now s k.
Proof.
  intros Hok. destruct (each_matchKeys Match now pattern (table c) []) as (l & Hl & Hin).
  { apply Forall_forall, (to_ok _ _ (co_table c Hok)). }
  exists l. unfold Keys, validateOpen. rewrite (co_open c Hok). cbn in Hl |- *. rewrite Hl. split; [done|].
  intros k. rewrite Hin. set_solver.
Qed.

Lemma new_in_step policies o c :
  registry_ok policies -> New policies rehash_registry o = Ok c -> o_rehasher o <> "noop"%string -> maxSize o <= 0 ->
  in_step 0 c ∅ /\ at_home c /\ defaultTTL (opts c) = defaultTTL o.
Proof.
  intros Hreg Hnew Hno Hmax.
  destruct (New_ok policies o c Hreg Hnew) as (Hok & Hview & Hm & Hd & _ & Hk & _ & _ & Ht & _ & Hi & _). split_and!; [|..|done].
  - split; [done|unfold unlimited; lia|done|by apply Hk|]. intros k t _. left. by rewrite Hview, lookup_empty.
  - intros i s k Hs Hc. rewrite Ht in Hs. apply lookup_replicate in Hs as [-> _]. by destruct Hc as [[]|[[]|[]]].
Qed.

(** ** Properties *)

(** C6 (refinement): deadlines are those of a map.  On a new cache without a size limit, any run of operations on strings (resizes
    apart), of [Expire], [PExpire], [ExpireAt], [PExpireAt], [TTL], [PTTL] and [Persist], and of operations on collections, in any
    order, returns and leaves the cache well formed, and the answers of all but the last kind are those of one map from keys to
    values with deadlines: [TTL] counts the whole seconds that are left, a passed instant changes nothing, a deadline that is not
    in the future ends the key, and [Get] finds a key until its deadline.  The map holds the strings only: a key that holds a
    set, hash or list and no string counts as absent, so [Expire] and [Persist] answer false and [TTL] -2 for it, which is what
    the code does and not what its documentation shows.  The rehasher is not the noop one, the clock does not go back and
    deadlines stay within 64 bits ([any_valid]). *)
Theorem deadlines_refine_map policies o c ops u :
  registry_ok policies -> New policies rehash_registry o = Ok c -> o_rehasher o <> "noop"%string -> maxSize o <= 0 ->
  any_valid (defaultTTL o) 0 ops u ->
  exists rs c', any_run policies ops c ⇓ (rs, c') /\ cache_ok c' /\ about_strings rs = (map_run (defaultTTL o) ops ∅).1.
Proof.
  intros Hreg Hnew Hno Hmax Hv. destruct (new_in_step policies o c Hreg Hnew Hno Hmax) as (Hin & Hat & Hd). rewrite <-Hd in Hv |- *.
  destruct (any_run_in_step policies ops c ∅ 0 u Hreg ltac:(done) Hin Hat Hv) as (rs & c' & Hrun & Hrs & [Hok _ _ _ _] & _).
  by exists rs, c'.
Qed.

(** C7 (functional): [Exists], [Type] and [Keys] agree.  After such a run, at an instant [u] not before its last operation,
    [Keys] returns exactly the keys that match the pattern and for which [Exists] returns true; [Exists] returns true for the keys
    to which [Type] gives a type; the type is that of a string exactly for the keys that are live in the map with deadlines.  The
    calls change nothing. *)
Theorem keys_exists_type_agree policies o c ops u rs c' Match pattern :
  registry_ok policies -> New policies rehash_registry o = Ok c -> o_rehasher o <> "noop"%string -> maxSize o <= 0 ->
  any_valid (defaultTTL o) 0 ops u -> any_run policies ops c ⇓ (rs, c') ->
  exists l, Keys Match u pattern c' ⇓ (Ok l) /\
    forall key, key <> EmptyString ->
      exists b ty, Exists u key c' ⇓ (Ok b, c') /\ Type_ u key c' ⇓ (Ok ty, c') /\
        (key ∈ l <-> Match pattern key = true /\ b = true) /\ (b = true <-> ty <> 0) /\
        (ty = 1 <-> has_key u key (map_run (defaultTTL o) ops ∅).2 = true).
Proof.
  intros Hreg Hnew Hno Hmax Hv Hrun. destruct (new_in_step policies o c Hreg Hnew Hno Hmax) as (Hin & Hat & Hd). rewrite <-Hd in Hv |- *.
  destruct (any_run_in_step policies ops c ∅ 0 u Hreg ltac:(done) Hin Hat Hv) as (rs' & c1 & Hrun1 & _ & Hin' & Hat' & _).
  rewrite Hrun in Hrun1. injection Hrun1 as <- <-. pose proof (is_ok _ _ _ Hin') as Hok.
  destruct (Keys_ok Match u pattern c' Hok) as (l & -> & Hl). exists l. split; [done|]. intros key Hkey.
  destruct (entry_read_ok key (keyExists u key) (exists_of u key) c' Hok Hkey (fun s Hs => keyExists_spec u key s Hs)) as (s & Hs & He).
  destruct (entry_read_ok key (keyType u key) (type_of u key) c' Hok Hkey (fun s Hs => keyType_spec u key s Hs)) as (s2 & Hs2 & Ht).
  rewrite Hs in Hs2. injection Hs2 as <-. rewrite (put_home c' key s Hs) in He, Ht. eexists _, _. split; [exact He|]. split; [exact Ht|].
  rewrite Hl, (here_home u c' key s Hok Hat' Hs). unfold here, holds_collection, exists_of, type_of, has_key.
  rewrite <-(in_step_live u u c' _ key Hin' (Z.le_refl _)). unfold own, tbl. unfold home in Hs. rewrite Hs.
  change (from_option (fun s => rs_entries s !! key) None (Some s)) with (shard_entries s !! key). cbn.
  rewrite !orb_true_iff, !bool_decide_eq_true. split_and!; [tauto| |]; repeat case_bool_decide; naive_solver.
Qed.

End Keys.

(** ** An example *)

#[local] Existing Instance trie_order.

Definition demo_key_ops : list any_op :=
  [OpString 1 (KSet "a" (Some [x2a]) None); OpKey 2 (YExpire "a" 10); OpCollection (existT _ (XSAdd "b" ["x"]%string));
   OpKey 3 (YTTL "a"); OpKey 4 (YPExpireAt "a" 5000); OpKey 5 (YPTTL "a"); OpKey 6 (YExpire "b" 1); OpKey 7 (YPersist "a");
   OpKey 8 (YTTL "a")].

Lemma demo_key_valid : any_valid 0 0 demo_key_ops 9.
Proof. vm_compute. by repeat split. Qed.

Lemma deadlines_refine_map_witness :
  exists rs c', any_run policyRegistry demo_key_ops (demo_cache 2 0) ⇓ (rs, c') /\ cache_ok c' /\
    about_strings rs = [AnsString (RErr None); AnsKey (RBool (Ok true)); AnsKey (RInt (Ok 9)); AnsKey (RBool (Ok true));
      AnsKey (RInt (Ok 4999)); AnsKey (RBool (Ok false)); AnsKey (RBool (Ok true)); AnsKey (RInt (Ok (-1)))].
Proof.
  apply (deadlines_refine_map policyRegistry (demo_options 2 0) (demo_cache 2 0) demo_key_ops 9);
    [apply policyRegistry_ok|apply demo_new|discriminate|discriminate|exact demo_key_valid].
Defined.

Definition demo_keyed : Cache Policies.policy :=
  match any_run policyRegistry demo_key_ops (demo_cache 2 0) with Ret (_, c) => c | _ => demo_cache 2 0 end.

Lemma keys_exists_type_agree_witness :
  exists l, Keys (fun _ _ => true) 9 "*" demo_keyed ⇓ (Ok l) /\ "b"%string ∈ l.
Proof.
  destruct (any_run policyRegistry demo_key_ops (demo_cache 2 0)) as [[rs c']| |] eqn:Hrun; [|vm_compute in Hrun; discriminate..].
  assert (demo_keyed = c') as Hc by (unfold demo_keyed; rewrite Hrun; reflexivity).
  destruct (keys_exists_type_agree policyRegistry (demo_options 2 0) (demo_cache 2 0) demo_key_ops 9 rs c' (fun _ _ => true) "*")
    as (l & Hl & Hk); [apply policyRegistry_ok|apply demo_new|discriminate|discriminate|exact demo_key_valid|exact Hrun|].
  exists l. rewrite Hc. split; [exact Hl|]. destruct (Hk "b"%string ltac:(discriminate)) as (b & ty & Hex & _ & Hb & _).
  apply Hb. split; [reflexivity|]. rewrite <-Hc in Hex. vm_compute in Hex. injection Hex as <-. reflexivity.
Defined.
