(* ===== verification/Bytes.v ===== *)
(** * Bytes, big-endian numbers and Go slices

    What the wire format uses of the language: fixed-width big-endian numbers
    (encoding/binary), strings as bytes, [copy], and slices, whose bounds are
    checked against the capacity of the buffer below and not against the length. *)

From Stdlib Require Import Strings.Byte Strings.String.
From stdpp Require Import base tactics numbers list strings.
From S2P Require Import Prelude.

Open Scope Z_scope.

(** ** Numbers *)

Definition byte_val (b : byte) : Z := Z.of_N (Byte.to_N b).
Definition byte_of (z : Z) : byte := default x00 (Byte.of_N (Z.to_N (z mod 256))).

(** The [n] low bytes of [z], the most significant first: [PutUint16], [PutUint32] and [PutUint64]. *)
Fixpoint be (n : nat) (z : Z) : bytes :=
  match n with
  | O => []
  | S n => be n (z / 256) ++ [byte_of z]
  end.

Definition unbe (bs : bytes) : Z := foldl (fun z b => z * 256 + byte_val b) 0 bs.

(** ** Strings *)

Notation bytes_of := list_byte_of_string.
Notation string_of := string_of_list_byte.

(** ** Slices *)

(** The buffer from the slice's first byte to the end of its capacity. *)
Record slice : Type := mkSlice { s_len : nat; s_buf : bytes }.

Definition slice_ok (p : slice) : Prop := (s_len p <= length (s_buf p))%nat.

(** A slice of these bytes; the buffer goes on with [stale]. *)
Definition payload (bs stale : bytes) : slice := mkSlice (length bs) (bs ++ stale).

Definition len (p : slice) : Z := Z.of_nat (s_len p).
Definition cap (p : slice) : Z := Z.of_nat (length (s_buf p)).

(** [p[i]]. *)
Definition at_ (p : slice) (i : Z) : outcome byte :=
  if (0 <=? i) && (i <? len p) then deref (s_buf p !! Z.to_nat i) else Panic.

(** The bytes of [p[a:b]]. *)
Definition cut (p : slice) (a b : Z) : outcome bytes :=
  if (0 <=? a) && (a <=? b) && (b <=? cap p)
  then Ret (take (Z.to_nat (b - a)) (drop (Z.to_nat a) (s_buf p))) else Panic.

(** [binary.BigEndian.Uint16(p[a:a+2])] and so on. *)
Definition num (n : nat) (p : slice) (a : Z) : outcome Z := bs ← cut p a (a + Z.of_nat n); mret (unbe bs).

(** [string(p[a:b])]. *)
Definition text (p : slice) (a b : Z) : outcome string := bs ← cut p a b; mret (string_of bs).

(** [copy(p[off:], src)] on a buffer all of whose length is its capacity. *)
Definition blit (off : nat) (src p : bytes) : bytes :=
  take off p ++ take (length p - off) src ++ drop (off + length src) p.

(** ** Lemmas: numbers *)

Lemma byte_val_range b : 0 <= byte_val b < 256.
Proof. unfold byte_val. pose proof (Byte.to_N_bounded b). lia. Qed.

Lemma byte_val_of z : byte_val (byte_of z) = z mod 256.
Proof.
  unfold byte_val, byte_of. pose proof (Z.mod_pos_bound z 256 ltac:(lia)).
  destruct (Byte.of_N (Z.to_N (z mod 256))) as [b|] eqn:Hb; cbn.
  - apply Byte.to_of_N in Hb. lia.
  - apply Byte.of_N_None_iff in Hb. lia.
Qed.

Lemma byte_of_val b : byte_of (byte_val b) = b.
Proof.
  unfold byte_of. pose proof (byte_val_range b). rewrite Z.mod_small by done.
  unfold byte_val. by rewrite N2Z.id, Byte.of_to_N.
Qed.

Lemma length_be n z : length (be n z) = n.
Proof. revert z. induction n as [|n IH]; intros z; [done|]. cbn. rewrite length_app, IH. cbn. lia. Qed.

Lemma unbe_snoc bs b : unbe (bs ++ [b]) = unbe bs * 256 + byte_val b.
Proof. unfold unbe. by rewrite foldl_app. Qed.

Lemma unbe_be n z : unbe (be n z) = z mod 256 ^ Z.of_nat n.
Proof.
  revert z. induction n as [|n IH]; intros z; [by rewrite Z.mod_1_r|]. cbn [be].
  rewrite unbe_snoc, IH, byte_val_of, Nat2Z.inj_succ, Z.pow_succ_r by lia.
  rewrite Z.rem_mul_r by lia. lia.
Qed.

Lemma unbe_be_small n z : 0 <= z < 256 ^ Z.of_nat n -> unbe (be n z) = z.
Proof. intros. rewrite unbe_be. by apply Z.mod_small. Qed.

Lemma unbe_range bs : 0 <= unbe bs < 256 ^ Z.of_nat (length bs).
Proof.
  induction bs as [|b bs IH] using rev_ind; [done|]. rewrite unbe_snoc, length_app. cbn [length].
  rewrite Nat2Z.inj_add, Z.pow_add_r by lia. pose proof (byte_val_range b). change (256 ^ Z.of_nat 1) with 256. lia.
Qed.

(** ** Lemmas: strings *)

Lemma length_bytes_of s : length (bytes_of s) = String.length s.
Proof. induction s as [|a s IH]; [done|]. cbn. by f_equal. Qed.

(** ** Lemmas: slices *)

Lemma cut_skip n m x q a b :
  Z.of_nat (length x) <= a ->
  cut (mkSlice n (x ++ q)) a b = cut (mkSlice m q) (a - Z.of_nat (length x)) (b - Z.of_nat (length x)).
Proof.
  intros Ha. unfold cut, cap. cbn. rewrite length_app.
  destruct (Z.leb_spec 0 a), (Z.leb_spec 0 (a - Z.of_nat (length x))); try lia.
  destruct (Z.leb_spec a b), (Z.leb_spec (a - Z.of_nat (length x)) (b - Z.of_nat (length x))); try lia; [|done].
  destruct (Z.leb_spec b (Z.of_nat (length x + length q))),
    (Z.leb_spec (b - Z.of_nat (length x)) (Z.of_nat (length q))); try lia; [|done].
  cbn. f_equal. rewrite drop_app_ge by lia. f_equal; [lia|]. f_equal. lia.
Qed.

Lemma cut_here n x q a b : a = 0 -> b = Z.of_nat (length x) -> cut (mkSlice n (x ++ q)) a b ⇓ x.
Proof.
  intros -> ->. unfold cut, cap. cbn. rewrite length_app. destruct (Z.leb_spec 0 (Z.of_nat (length x))); [|lia].
  destruct (Z.leb_spec (Z.of_nat (length x)) (Z.of_nat (length x + length q))); [|lia].
  cbn. f_equal.
  replace (Z.to_nat (Z.of_nat (length x) - 0)) with (length x) by lia. apply take_app_length.
Qed.

Lemma cut_ret p a b : 0 <= a <= b -> b <= cap p -> exists bs, cut p a b ⇓ bs /\ Z.of_nat (length bs) = b - a.
Proof.
  intros Ha Hb. unfold cut. destruct (Z.leb_spec 0 a), (Z.leb_spec a b), (Z.leb_spec b (cap p)); try lia.
  eexists. split; [done|]. rewrite length_take, length_drop. unfold cap in *. lia.
Qed.

Lemma cut_panics p a b : cap p < b -> cut p a b = Panic.
Proof. intros Hb. unfold cut. destruct (Z.leb_spec b (cap p)); [lia|]. by rewrite andb_false_r. Qed.

Lemma num_ret n p a :
  0 <= a -> a + Z.of_nat n <= cap p -> exists z, num n p a ⇓ z /\ 0 <= z < 256 ^ Z.of_nat n.
Proof.
  intros Ha Hb. unfold num. destruct (cut_ret p a (a + Z.of_nat n)) as (bs & -> & Hl); [lia|done|].
  exists (unbe bs). split; [done|]. pose proof (unbe_range bs) as Hr. by replace (length bs) with n in Hr by lia.
Qed.

Lemma text_ret p a b : 0 <= a <= b -> b <= cap p -> exists s, text p a b ⇓ s.
Proof. intros Ha Hb. unfold text. destruct (cut_ret p a b Ha Hb) as (bs & -> & _). by eexists. Qed.

Lemma at_ret p i : slice_ok p -> 0 <= i < len p -> exists b, at_ p i ⇓ b.
Proof.
  intros Hok Hi. unfold at_. destruct (Z.leb_spec 0 i), (Z.ltb_spec i (len p)); try lia. cbn.
  destruct (lookup_lt_is_Some_2 (s_buf p) (Z.to_nat i)) as [b ->]; [unfold len, slice_ok in *; lia|]. by exists b.
Qed.

Lemma len_le_cap p : slice_ok p -> len p <= cap p.
Proof. unfold slice_ok, len, cap. lia. Qed.

Lemma payload_ok bs stale : slice_ok (payload bs stale).
Proof. unfold slice_ok, payload. cbn. rewrite length_app. lia. Qed.

(** *** Writing *)

Lemma blit_app done src rest :
  (length src <= length rest)%nat ->
  blit (length done) src (done ++ rest) = (done ++ src) ++ drop (length src) rest.
Proof.
  intros Hl. unfold blit. rewrite length_app, take_app_length, drop_app_add.
  rewrite take_ge by lia. by rewrite (assoc_L (++)).
Qed.

Lemma length_blit off src p : (off + length src <= length p)%nat -> length (blit off src p) = length p.
Proof. intros Hl. unfold blit. rewrite !length_app, !length_take, length_drop. lia. Qed.

Lemma blit_nil off p : blit off [] p = p.
Proof. unfold blit. rewrite take_nil, Nat.add_0_r. apply take_drop. Qed.

(** *** Reading back what was written *)

Create HintDb wire_len.
#[export] Hint Rewrite length_app length_be length_bytes_of : wire_len.

(** Lengths of concatenated fields, widths of numbers, and the linear goals about them. *)
Ltac wire_lia :=
  cbn [length app Datatypes.length] in *; autorewrite with wire_len in *; cbn [length Datatypes.length String.length] in *;
  change (256 ^ Z.of_nat 1) with 256 in *; change (256 ^ Z.of_nat 2) with (2 ^ 16) in *;
  change (256 ^ Z.of_nat 4) with (2 ^ 32) in *; change (256 ^ Z.of_nat 8) with (2 ^ 64) in *; lia.

(** A field of a buffer that is written as a concatenation of fields. *)
Ltac rd_cut :=
  repeat (rewrite (cut_skip _ 0) by wire_lia); rewrite cut_here by wire_lia; cbn [mbind outcome_bind].
