(* ===== verification/Wire.v ===== *)
(** * Frames and string requests on the wire (net/protocol.go)

    The frame header and the requests and responses of the string commands.
    Encoders write into a buffer taken from a pool, whose old contents are an
    argument; decoders read a slice whose buffer may go on past its end. *)

From Stdlib Require Import Strings.Byte Strings.String.
From stdpp Require Import base tactics numbers list strings pretty.
From S2P Require Import Prelude.
From S2P Require Import Bytes.

Open Scope Z_scope.

(** ** Buffers *)

(** [getBuf(size)]: [size] bytes, old ones first if the pool had a buffer. *)
Definition getBuf (stale : bytes) (size : nat) : bytes := take size stale ++ replicate (size - length stale) x00.

(** ** Frames *)

Record Frame : Type := mkFrame {
  StreamID : Z;
  FType : Z;
  Flags : Z;
  Payload : option bytes;
}.

Definition MaxPayloadSize : Z := 16 * 1024 * 1024.

(** A nil slice has length 0. *)
Definition val (v : option bytes) : bytes := default [] v.

Definition Encode (stale : bytes) (f : Frame) : bytes :=
  let total := (10 + length (val (Payload f)))%nat in
  let buf := if (total <=? 4096)%nat then getBuf stale total else replicate total x00 in
  let buf := blit 0 (be 4 (Z.of_nat (length (val (Payload f))))) buf in
  let buf := blit 4 (be 4 (StreamID f)) buf in
  let buf := blit 8 (be 1 (FType f)) buf in
  let buf := blit 9 (be 1 (Flags f)) buf in
  if (0 <? length (val (Payload f)))%nat then blit 10 (val (Payload f)) buf else buf.

(** [io.ReadFull] of [n] bytes of a stream that ends after these bytes. *)
Definition ReadFull (n : nat) (r : bytes) : result error bytes * bytes :=
  if (n <=? length r)%nat then (Ok (take n r), drop n r)
  else (Err (ErrMsg (if decide (r = []) then "EOF" else "unexpected EOF")), []).

Definition DecodeFrame (r : bytes) : result error Frame * bytes :=
  match ReadFull 10 r with
  | (Err e, r) => (Err e, r)
  | (Ok header, r) =>
      let payloadLen := unbe (take 4 header) in
      if payloadLen >? MaxPayloadSize then (Err (ErrMsg ("payload too large: " ++ pretty payloadLen)%string), r)
      else
        let f p := mkFrame (unbe (take 4 (drop 4 header))) (unbe (take 1 (drop 8 header)))
                     (unbe (take 1 (drop 9 header))) p in
        if payloadLen >? 0 then
          match ReadFull (Z.to_nat payloadLen) r with
          | (Err e, r) => (Err e, r)
          | (Ok p, r) => (Ok (f (Some p)), r)
          end
        else (Ok (f None), r)
  end.

(** ** Requests *)

Record Request : Type := mkRequest {
  Cmd : Z;
  Key : string;
  Value : option bytes;
  TTL : Z;
}.

Definition EncodeRequest (stale : bytes) (req : Request) : bytes :=
  let keyLen := length (bytes_of (Key req)) in
  let valLen := length (val (Value req)) in
  let payload := getBuf stale (1 + 2 + 4 + 8 + keyLen + valLen) in
  let payload := blit 0 (be 1 (Cmd req)) payload in
  let payload := blit 1 (be 2 (Z.of_nat keyLen)) payload in
  let payload := blit 3 (be 4 (Z.of_nat valLen)) payload in
  let payload := blit 7 (be 8 (TTL req)) payload in
  let payload := blit 15 (bytes_of (Key req)) payload in
  blit (15 + keyLen) (val (Value req)) payload.

Definition DecodeRequestPayload (p : slice) : outcome (result error Request) :=
  if len p <? 15 then Ret (Err (ErrMsg "request payload too short"))
  else
    cmd ← at_ p 0;
    keyLen ← num 2 p 1;
    valLen ← num 4 p 3;
    ttl ← num 8 p 7;
    let offset := 15 in
    let read_value key offset :=
      if valLen >? 0 then
        v ← cut p offset (offset + valLen);
        mret (Ok (mkRequest (byte_val cmd) key (Some v) (int64 ttl)))
      else Ret (Ok (mkRequest (byte_val cmd) key None (int64 ttl))) in
    if keyLen >? 0 then
      if len p <? offset + keyLen + valLen then Ret (Err (ErrMsg "request payload truncated"))
      else
        key ← text p offset (offset + keyLen);
        read_value key (offset + keyLen)
    else read_value EmptyString offset.

(** ** Responses *)

Record Response : Type := mkResponse {
  Status : Z;
  RValue : option bytes;
  ErrMsg_ : string;
}.

Definition EncodeResponse (stale : bytes) (resp : Response) : bytes :=
  let valLen := length (val (RValue resp)) in
  let errLen := length (bytes_of (ErrMsg_ resp)) in
  let payload := getBuf stale (1 + 4 + 2 + valLen + errLen) in
  let payload := blit 0 (be 1 (Status resp)) payload in
  let payload := blit 1 (be 4 (Z.of_nat valLen)) payload in
  let payload := blit 5 (be 2 (Z.of_nat errLen)) payload in
  let payload := blit 7 (val (RValue resp)) payload in
  blit (7 + valLen) (bytes_of (ErrMsg_ resp)) payload.

Definition DecodeResponsePayload (p : slice) : outcome (result error Response) :=
  if len p <? 7 then Ret (Err (ErrMsg "response payload too short"))
  else
    status ← at_ p 0;
    valLen ← num 4 p 1;
    errLen ← num 2 p 5;
    let offset := 7 in
    let read_err v offset :=
      if errLen >? 0 then
        e ← text p offset (offset + errLen);
        mret (Ok (mkResponse (byte_val status) v e))
      else Ret (Ok (mkResponse (byte_val status) v EmptyString)) in
    if valLen >? 0 then
      if len p <? offset + valLen + errLen then Ret (Err (ErrMsg "response payload truncated"))
      else
        v ← cut p offset (offset + valLen);
        read_err (Some v) (offset + valLen)
    else read_err None offset.

(** ** The layout the encoders write, whatever the pool returns *)

Lemma length_getBuf stale size : length (getBuf stale size) = size.
Proof. unfold getBuf. rewrite length_app, length_take, length_replicate. lia. Qed.

(** Writing fields one after the other. *)
Fixpoint blits (off : nat) (fields : list bytes) (p : bytes) : bytes :=
  match fields with
  | [] => p
  | x :: fields => blits (off + length x) fields (blit off x p)
  end.

Lemma blits_concat fields done rest :
  length rest = length (concat fields) -> blits (length done) fields (done ++ rest) = done ++ concat fields.
Proof.
  revert done rest. induction fields as [|x fields IH]; intros done rest Hl; cbn [blits concat] in *.
  { by rewrite (nil_length_inv rest Hl). }
  rewrite length_app in Hl. rewrite blit_app by lia. rewrite <-length_app, IH.
  - by rewrite (assoc_L (++)).
  - rewrite length_drop. lia.
Qed.

Lemma blits_all fields p : length p = length (concat fields) -> blits 0 fields p = concat fields.
Proof. intros Hl. exact (blits_concat fields [] p Hl). Qed.

Definition request_fields (req : Request) : list bytes :=
  [be 1 (Cmd req); be 2 (Z.of_nat (length (bytes_of (Key req)))); be 4 (Z.of_nat (length (val (Value req))));
   be 8 (TTL req); bytes_of (Key req); val (Value req)].

Lemma EncodeRequest_layout stale req : EncodeRequest stale req = concat (request_fields req).
Proof.
  rewrite <-(blits_all (request_fields req) (getBuf stale (15 + length (bytes_of (Key req)) + length (val (Value req)))));
    [done|]. rewrite length_getBuf. cbn. autorewrite with wire_len. cbn. lia.
Qed.

Definition response_fields (resp : Response) : list bytes :=
  [be 1 (Status resp); be 4 (Z.of_nat (length (val (RValue resp)))); be 2 (Z.of_nat (length (bytes_of (ErrMsg_ resp))));
   val (RValue resp); bytes_of (ErrMsg_ resp)].

Lemma EncodeResponse_layout stale resp : EncodeResponse stale resp = concat (response_fields resp).
Proof.
  rewrite <-(blits_all (response_fields resp) (getBuf stale (7 + length (val (RValue resp)) + length (bytes_of (ErrMsg_ resp)))));
    [done|]. rewrite length_getBuf. cbn. autorewrite with wire_len. cbn. lia.
Qed.

Definition frame_fields (f : Frame) : list bytes :=
  [be 4 (Z.of_nat (length (val (Payload f)))); be 4 (StreamID f); be 1 (FType f); be 1 (Flags f); val (Payload f)].

Lemma Encode_layout stale f : Encode stale f = concat (frame_fields f).
Proof.
  unfold Encode. set (total := (10 + _)%nat).
  set (buf := if (total <=? 4096)%nat then getBuf stale total else replicate total x00).
  assert (length buf = 10 + length (val (Payload f)))%nat as Hb.
  { unfold buf. destruct (_ <=? _)%nat; [apply length_getBuf|apply length_replicate]. }
  destruct (Nat.ltb_spec 0 (length (val (Payload f)))) as [|Hp].
  - rewrite <-(blits_all (frame_fields f) buf); [done|]. rewrite Hb. cbn. by rewrite app_nil_r.
  - rewrite <-(blits_all (frame_fields f) buf) by (rewrite Hb; cbn; by rewrite app_nil_r). unfold frame_fields.
    rewrite (nil_length_inv (val (Payload f))) by lia. cbn [blits]. by rewrite blit_nil.
Qed.

(** ** Decoding *)

(** Fields that fit their place in the layout. *)
Definition wf_request (req : Request) : Prop :=
  0 <= Cmd req < 256 /\ Z.of_nat (String.length (Key req)) < 2 ^ 16 /\
  Z.of_nat (length (val (Value req))) < 2 ^ 32 /\ in_int64 (TTL req).

(** An empty value and a nil one look the same on the wire: both arrive as nil. *)
Definition norm_value (v : option bytes) : option bytes := match v with Some [] => None | v => v end.

Lemma at_first z q n : (0 < n)%nat -> 0 <= z < 256 -> exists b, at_ (mkSlice n (be 1 z ++ q)) 0 ⇓ b /\ byte_val b = z.
Proof.
  intros Hn Hz. exists (byte_of z). split; [|by rewrite byte_val_of, Z.mod_small].
  unfold at_, len. cbn. destruct (Z.ltb_spec 0 (Z.of_nat n)); [done|lia].
Qed.

Lemma at_skip n x q a :
  Z.of_nat (length x) <= a -> (length x <= n)%nat ->
  at_ (mkSlice n (x ++ q)) a = at_ (mkSlice (n - length x) q) (a - Z.of_nat (length x)).
Proof.
  intros Ha Hn. unfold at_, len. cbn. rewrite Nat2Z.inj_sub by done.
  destruct (Z.leb_spec 0 a), (Z.leb_spec 0 (a - Z.of_nat (length x))); try lia.
  destruct (Z.ltb_spec a (Z.of_nat n)), (Z.ltb_spec (a - Z.of_nat (length x)) (Z.of_nat n - Z.of_nat (length x))); try lia; [|done].
  cbn. f_equal. rewrite lookup_app_r by lia. f_equal. lia.
Qed.

Lemma at_here n z q a : a = 0 -> (0 < n)%nat -> at_ (mkSlice n (be 1 z ++ q)) a ⇓ (byte_of z).
Proof.
  intros -> Hn. unfold at_, len. cbn. by destruct (Z.ltb_spec 0 (Z.of_nat n)); [|lia].
Qed.

Lemma int64_be z : in_int64 z -> int64 (unbe (be 8 z)) = z.
Proof.
  intros Hz. rewrite unbe_be. change (256 ^ Z.of_nat 8) with (2 ^ 64). unfold int64, wrapS, in_int64, min_int64, max_int64 in *.
  change (64 - 1) with 63. rewrite Z.add_mod_idemp_l by lia. rewrite Z.mod_small by lia. lia.
Qed.

Lemma norm_value_some v : 0 < Z.of_nat (length (val v)) -> norm_value v = Some (val v).
Proof. by destruct v as [[]|]. Qed.

Lemma norm_value_none v : Z.of_nat (length (val v)) <= 0 -> norm_value v = None.
Proof. destruct v as [[]|]; cbn; done || lia. Qed.

Lemma num_here n m z q a : a = 0 -> 0 <= z < 256 ^ Z.of_nat n -> num n (mkSlice m (be n z ++ q)) a ⇓ z.
Proof. intros -> Hz. unfold num. rewrite cut_here by wire_lia. cbn. by rewrite unbe_be_small. Qed.

Lemma num_raw n m z q a : a = 0 -> num n (mkSlice m (be n z ++ q)) a ⇓ (unbe (be n z)).
Proof. intros ->. unfold num. by rewrite cut_here by wire_lia. Qed.

Lemma num_skip n m x q a :
  Z.of_nat (length x) <= a -> num n (mkSlice m (x ++ q)) a = num n (mkSlice m q) (a - Z.of_nat (length x)).
Proof. intros Ha. unfold num. rewrite (cut_skip _ m) by done. do 2 f_equal. lia. Qed.

Lemma text_here m x q a b : a = 0 -> b = Z.of_nat (length x) -> text (mkSlice m (x ++ q)) a b ⇓ (string_of x).
Proof. intros -> ->. unfold text. by rewrite cut_here. Qed.

Lemma text_skip m x q a b :
  Z.of_nat (length x) <= a ->
  text (mkSlice m (x ++ q)) a b = text (mkSlice m q) (a - Z.of_nat (length x)) (b - Z.of_nat (length x)).
Proof. intros Ha. unfold text. by rewrite (cut_skip _ m). Qed.

Lemma bind_ret {A B} (m : outcome A) (k : A -> outcome B) a r : m ⇓ a -> k a = r -> (m ≫= k) = r.
Proof. by intros ->. Qed.

(** A field of a slice whose bytes are a concatenation of fields. *)
Ltac rd :=
  eapply bind_ret;
    [solve [ repeat (rewrite num_skip by wire_lia); (apply num_here; wire_lia) || (apply num_raw; wire_lia)
           | repeat (rewrite text_skip by wire_lia); apply text_here; wire_lia
           | repeat (rewrite at_skip by wire_lia); apply at_here; wire_lia
           | repeat (rewrite (cut_skip _ 0) by wire_lia); apply cut_here; wire_lia ]|]; cbv beta.

(** The first byte of a payload that starts with [be 1 z]. *)
Ltac rd_cmd :=
  lazymatch goal with
  | |- (at_ (mkSlice ?n (be 1 ?z ++ ?q)) 0 ≫= _) = _ =>
      let b := fresh "b" in let Hb := fresh "Hb" in
      destruct (at_first z q n) as (b & -> & Hb); [wire_lia|first [wire_lia | split; [discriminate|reflexivity]]|]; cbn [mbind outcome_bind]; rewrite Hb
  end.

(** Opens a payload of these fields: [n] is its length. *)
Ltac open_payload n :=
  unfold payload; cbn [concat]; rewrite ?app_nil_r;
  lazymatch goal with |- context [mkSlice ?l (_ ++ _)] =>
    let Hn := fresh "Hn" in remember l as n eqn:Hn; autorewrite with wire_len in Hn; cbn [Datatypes.length] in Hn
  end;
  change (len _) with (Z.of_nat n); rewrite <-?(assoc_L (++)).

Lemma decode_request stale st req :
  wf_request req ->
  DecodeRequestPayload (payload (EncodeRequest stale req) st) =
    Ret (Ok (mkRequest (Cmd req) (Key req) (norm_value (Value req)) (TTL req))).
Proof.
  intros (Hc & Hk & Hv & Ht). rewrite EncodeRequest_layout. unfold DecodeRequestPayload, request_fields.
  open_payload n. destruct (Z.ltb_spec (Z.of_nat n) 15); [lia|]. rd_cmd. rd. rd. rd.
  rewrite (int64_be _ Ht), length_bytes_of. destruct (Z.gtb_spec (Z.of_nat (String.length (Key req))) 0).
  - destruct (Z.ltb_spec (Z.of_nat n) (15 + Z.of_nat (String.length (Key req)) + Z.of_nat (length (val (Value req))))); [lia|].
    rd. rewrite string_of_list_byte_of_string. destruct (Z.gtb_spec (Z.of_nat (length (val (Value req)))) 0).
    + rd. by rewrite norm_value_some by lia.
    + by rewrite norm_value_none by lia.
  - assert (Key req = EmptyString) as -> by (by destruct (Key req)).
    destruct (Z.gtb_spec (Z.of_nat (length (val (Value req)))) 0).
    + rd. by rewrite norm_value_some by lia.
    + by rewrite norm_value_none by lia.
Qed.

Definition wf_response (resp : Response) : Prop :=
  0 <= Status resp < 256 /\ Z.of_nat (length (val (RValue resp))) < 2 ^ 32 /\
  Z.of_nat (String.length (ErrMsg_ resp)) < 2 ^ 16.

Lemma decode_response stale st resp :
  wf_response resp ->
  DecodeResponsePayload (payload (EncodeResponse stale resp) st) =
    Ret (Ok (mkResponse (Status resp) (norm_value (RValue resp)) (ErrMsg_ resp))).
Proof.
  intros (Hs & Hv & He). rewrite EncodeResponse_layout. unfold DecodeResponsePayload, response_fields.
  open_payload n. destruct (Z.ltb_spec (Z.of_nat n) 7); [lia|]. rd_cmd. rd. rd. rewrite length_bytes_of.
  destruct (Z.gtb_spec (Z.of_nat (length (val (RValue resp)))) 0).
  - destruct (Z.ltb_spec (Z.of_nat n) (7 + Z.of_nat (length (val (RValue resp))) + Z.of_nat (String.length (ErrMsg_ resp)))); [lia|].
    rd. rewrite norm_value_some by lia. destruct (Z.gtb_spec (Z.of_nat (String.length (ErrMsg_ resp))) 0).
    + rd. by rewrite string_of_list_byte_of_string.
    + by destruct (ErrMsg_ resp).
  - rewrite norm_value_none by lia. destruct (Z.gtb_spec (Z.of_nat (String.length (ErrMsg_ resp))) 0).
    + rd. by rewrite string_of_list_byte_of_string.
    + by destruct (ErrMsg_ resp).
Qed.

(** ** Frames on a stream *)

Definition wf_frame (f : Frame) : Prop :=
  0 <= StreamID f < 2 ^ 32 /\ 0 <= FType f < 256 /\ 0 <= Flags f < 256 /\
  Z.of_nat (length (val (Payload f))) <= MaxPayloadSize.

Definition norm_frame (f : Frame) : Frame := mkFrame (StreamID f) (FType f) (Flags f) (norm_value (Payload f)).

Lemma ReadFull_app x r : ReadFull (length x) (x ++ r) = (Ok x, r).
Proof.
  unfold ReadFull. destruct (Nat.leb_spec (length x) (length (x ++ r))); [|rewrite length_app in *; lia].
  by rewrite take_app_length, drop_app_length.
Qed.

Lemma decode_frame stale f rest : wf_frame f -> DecodeFrame (Encode stale f ++ rest) = (Ok (norm_frame f), rest).
Proof.
  intros (Hi & Ht & Hf & Hp). rewrite Encode_layout. unfold frame_fields. cbn [concat]. rewrite app_nil_r.
  set (h := be 4 (Z.of_nat (length (val (Payload f)))) ++ be 4 (StreamID f) ++ be 1 (FType f) ++ be 1 (Flags f)).
  match goal with |- DecodeFrame ?l = _ => replace l with (h ++ val (Payload f) ++ rest) end.
  2:{ unfold h. by rewrite <-!(assoc_L (++)). }
  unfold DecodeFrame. change 10%nat with (length h). rewrite ReadFull_app.
  change (take 4 h) with (be 4 (Z.of_nat (length (val (Payload f))))).
  change (take 4 (drop 4 h)) with (be 4 (StreamID f)). change (take 1 (drop 8 h)) with (be 1 (FType f)).
  change (take 1 (drop 9 h)) with (be 1 (Flags f)).
  unfold MaxPayloadSize in Hp. rewrite !unbe_be_small by wire_lia.
  destruct (Z.gtb_spec (Z.of_nat (length (val (Payload f)))) MaxPayloadSize); [unfold MaxPayloadSize in *; lia|].
  unfold norm_frame. destruct (Z.gtb_spec (Z.of_nat (length (val (Payload f)))) 0).
  - by rewrite Nat2Z.id, ReadFull_app, norm_value_some by lia.
  - rewrite norm_value_none by lia. by rewrite (nil_length_inv (val (Payload f))) by lia.
Qed.

(** The read loop of a connection: frames until the first error. *)
Fixpoint read_frames (fuel : nat) (r : bytes) : list Frame * option error :=
  match fuel with
  | O => ([], None)
  | S fuel =>
      match DecodeFrame r with
      | (Err e, _) => ([], Some e)
      | (Ok f, r) => let '(fs, e) := read_frames fuel r in (f :: fs, e)
      end
  end.

(** ** Payloads that do not come from the encoders *)

(** What the three numbers of a request's header say. *)
Definition header (p : slice) (n : nat) (a : Z) : Z := match num n p a with Ret z => z | _ => 0 end.

Lemma num_header n p a : 0 <= a -> a + Z.of_nat n <= cap p -> num n p a ⇓ (header p n a).
Proof. intros Ha Hb. destruct (num_ret n p a Ha Hb) as (z & Hz & _). unfold header. by rewrite Hz. Qed.

Lemma header_range n p a : 0 <= header p n a < 256 ^ Z.of_nat n.
Proof.
  unfold header. destruct (decide (0 <= a /\ a + Z.of_nat n <= cap p)) as [[Ha Hb]|Hn].
  - destruct (num_ret n p a Ha Hb) as (z & -> & Hz). done.
  - unfold num, cut. destruct (Z.leb_spec 0 a), (Z.leb_spec a (a + Z.of_nat n)), (Z.leb_spec (a + Z.of_nat n) (cap p));
      cbn; try (split; [done|]; apply Z.pow_pos_nonneg; lia). exfalso. lia.
Qed.

Lemma decode_request_cases p :
  slice_ok p -> 15 <= len p ->
  let keyLen := header p 2 1 in let valLen := header p 4 3 in
  if decide (keyLen = 0 /\ 0 < valLen /\ cap p < 15 + valLen) then DecodeRequestPayload p = Panic
  else exists r, DecodeRequestPayload p ⇓ r.
Proof.
  intros Hok Hl keyLen valLen. pose proof (len_le_cap p Hok). unfold DecodeRequestPayload.
  destruct (Z.ltb_spec (len p) 15); [lia|]. destruct (at_ret p 0 Hok ltac:(lia)) as [cmd ->]. cbn [mbind outcome_bind].
  rewrite !num_header by lia. cbn [mbind outcome_bind]. fold keyLen valLen.
  pose proof (header_range 2 p 1) as Hk. pose proof (header_range 4 p 3) as Hv. fold keyLen in Hk. fold valLen in Hv.
  destruct (Z.gtb_spec keyLen 0).
  - rewrite decide_False by lia. destruct (Z.ltb_spec (len p) (15 + keyLen + valLen)); [by eexists|].
    destruct (text_ret p 15 (15 + keyLen)) as [k ->]; [lia|lia|]. cbn [mbind outcome_bind].
    destruct (Z.gtb_spec valLen 0); [|by eexists].
    destruct (cut_ret p (15 + keyLen) (15 + keyLen + valLen)) as (v & -> & _); [lia|lia|]. by eexists.
  - destruct (Z.gtb_spec valLen 0).
    + case_decide; [by rewrite cut_panics by lia|].
      destruct (cut_ret p 15 (15 + valLen)) as (v & -> & _); [lia|lia|]. by eexists.
    + rewrite decide_False by lia. by eexists.
Qed.

(** ** Properties *)

(** A request and a response survive the wire: what the encoder
    writes, into a pooled buffer with any old contents, the decoder reads back,
    whatever follows the payload in its buffer.  Only an empty value changes: it
    arrives as nil. *)
Theorem request_response_roundtrip stale st req resp :
  wf_request req -> wf_response resp ->
  DecodeRequestPayload (payload (EncodeRequest stale req) st) =
    Ret (Ok (mkRequest (Cmd req) (Key req) (norm_value (Value req)) (TTL req))) /\
  DecodeResponsePayload (payload (EncodeResponse stale resp) st) =
    Ret (Ok (mkResponse (Status resp) (norm_value (RValue resp)) (ErrMsg_ resp))).
Proof. intros H1 H2. split; [by apply decode_request|by apply decode_response]. Qed.

(** Framing.  A connection that carries the frames of several
    streams one after the other is read back frame by frame, up to the end of the
    stream. *)
Theorem frames_roundtrip stales fs :
  Forall wf_frame fs -> length stales = length fs ->
  read_frames (S (length fs)) (concat (zip_with Encode stales fs)) = (norm_frame <$> fs, Some (ErrMsg "EOF")).
Proof.
  revert stales. induction fs as [|f fs IH]; intros [|st stales] Hwf Hl; try done.
  apply Forall_cons in Hwf as [Hf Hwf]. cbn [length read_frames zip_with concat].
  rewrite decode_frame by done. change (S (length fs)) with (S (length fs)).
  specialize (IH stales Hwf ltac:(by injection Hl)). cbn [read_frames] in IH. cbn [fmap list_fmap]. by rewrite IH.
Qed.

(** The request decoder crashes on some payloads.  It panics exactly
    when the header gives an empty key and a value that ends past the capacity of
    the buffer: the length check is skipped for an empty key. *)
Theorem request_decoder_panics p :
  slice_ok p ->
  (DecodeRequestPayload p = Panic <->
   15 <= len p /\ header p 2 1 = 0 /\ 0 < header p 4 3 /\ cap p < 15 + header p 4 3).
Proof.
  intros Hok. destruct (decide (15 <= len p)) as [Hl|Hl].
  - pose proof (decode_request_cases p Hok Hl) as Hc. cbn in Hc. case_decide as Hd.
    + split; [by intros _|done].
    + destruct Hc as [r ->]. split; [done|]. intros (_ & ?). by destruct Hd.
  - unfold DecodeRequestPayload. destruct (Z.ltb_spec (len p) 15); [|lia]. split; [done|lia].
Qed.

(** ** The properties at concrete inputs *)

Definition demo_request : Request := mkRequest 2 "k" (Some [x2a]) 1000.

Lemma request_response_roundtrip_witness :
  DecodeRequestPayload (payload (EncodeRequest [x01; x02] demo_request) [x03]) ⇓ (Ok demo_request) /\
  DecodeResponsePayload (payload (EncodeResponse [] (mkResponse 1 None "e")) []) ⇓ (Ok (mkResponse 1 None "e")).
Proof.
  split.
  - apply (request_response_roundtrip [x01; x02] [x03] demo_request (mkResponse 1 None "e"));
      repeat split; cbn; unfold min_int64, max_int64; lia.
  - apply (request_response_roundtrip [] [] demo_request (mkResponse 1 None "e"));
      repeat split; cbn; unfold min_int64, max_int64; lia.
Defined.

Lemma frames_roundtrip_witness :
  read_frames 3 (concat (zip_with Encode [[]; [x01]] [mkFrame 7 0 0 (Some [x2a]); mkFrame 8 1 0 None])) =
    ([mkFrame 7 0 0 (Some [x2a]); mkFrame 8 1 0 None], Some (ErrMsg "EOF")).
Proof.
  apply (frames_roundtrip [[]; [x01]] [mkFrame 7 0 0 (Some [x2a]); mkFrame 8 1 0 None]); [|reflexivity].
  repeat constructor; cbn; unfold MaxPayloadSize; lia.
Defined.

(** A header with an empty key and one byte of value, and nothing after it. *)
Definition crash_payload : slice := payload (be 1 2 ++ be 2 0 ++ be 4 1 ++ be 8 0) [].

Lemma request_decoder_panics_witness : DecodeRequestPayload crash_payload = Panic.
Proof. apply request_decoder_panics; [apply payload_ok|]. repeat split; vm_compute; congruence. Defined.
