(* ===== verification/WireSet.v ===== *)
(** * Set requests and responses on the wire (net/protocol.go)

    The layouts of the set commands.  Encoders allocate a buffer of the right size
    and write the fields one after the other, so a payload is the concatenation of
    its fields; decoders follow the code's bounds checks and its 16-bit sums. *)

From Stdlib Require Import Strings.Byte Strings.String.
From stdpp Require Import base tactics numbers list strings.
From S2P Require Import Prelude.
From S2P Require Import Bytes.
From S2P Require Import Wire.

Open Scope Z_scope.

(** ** Commands and statuses *)

Definition CmdSAdd : Z := 10.
Definition CmdSRem : Z := 11.
Definition CmdSIsMember : Z := 12.
Definition CmdSMembers : Z := 13.
Definition CmdSCard : Z := 14.
Definition CmdSPop : Z := 15.
Definition CmdSRandMember : Z := 16.
Definition CmdSUnion : Z := 17.
Definition CmdSInter : Z := 18.
Definition CmdSDiff : Z := 19.

Definition StatusOK : Z := 0.
Definition StatusErr : Z := 1.
Definition StatusNotFound : Z := 2.

(** [case a, b, c:]. *)
Definition one_of (cmds : list Z) (cmd : Z) : bool := bool_decide (cmd ∈ cmds).

(** ** Fields *)

Definition slen (s : string) : Z := Z.of_nat (length (bytes_of s)).

(** A string after its length in [w] bytes, and a sequence of them. *)
Definition counted (w : nat) (s : string) : bytes := be w (slen s) ++ bytes_of s.
Definition counted_all (w : nat) (l : list string) : bytes := concat (counted w <$> l).

(** The loop that reads [n] of them; it fails on a short payload. *)
Fixpoint read_strict (w : nat) (msg : string) (n : nat) (p : slice) (off : Z) (acc : list string) :
    outcome (result error (list string * Z)) :=
  match n with
  | O => Ret (Ok (acc, off))
  | S n =>
      if off + Z.of_nat w >? len p then Ret (Err (ErrMsg msg))
      else
        el ← num w p off;
        let off := off + Z.of_nat w in
        if off + el >? len p then Ret (Err (ErrMsg msg))
        else
          s ← text p off (off + el);
          read_strict w msg n p (off + el) (acc ++ [s])
  end.

(** The same loop where a short payload ends it ([break]). *)
Fixpoint read_lenient (w : nat) (n : nat) (p : slice) (off : Z) (acc : list string) : outcome (list string) :=
  match n with
  | O => Ret acc
  | S n =>
      if off + Z.of_nat w >? len p then Ret acc
      else
        el ← num w p off;
        let off := off + Z.of_nat w in
        if off + el >? len p then Ret acc
        else
          s ← text p off (off + el);
          read_lenient w n p (off + el) (acc ++ [s])
  end.

(** ** Requests *)

Record SetRequest : Type := mkSetRequest {
  sq_Cmd : Z;
  sq_Key : string;
  sq_Elems : list string;
  sq_Count : Z;
  sq_Keys : list string;
}.

(** [None] is the nil slice. *)
Definition EncodeSetRequest (req : SetRequest) : option bytes :=
  let key := bytes_of (sq_Key req) in
  let head := be 1 (sq_Cmd req) ++ be 2 (slen (sq_Key req)) in
  if one_of [CmdSMembers; CmdSCard; CmdSPop] (sq_Cmd req) then Some (head ++ key)
  else if one_of [CmdSAdd; CmdSRem] (sq_Cmd req) then
    Some (head ++ be 4 (Z.of_nat (length (sq_Elems req))) ++ key ++ counted_all 4 (sq_Elems req))
  else if one_of [CmdSIsMember] (sq_Cmd req) then
    let elem := default EmptyString (sq_Elems req !! 0%nat) in
    Some (head ++ be 4 (slen elem) ++ key ++ bytes_of elem)
  else if one_of [CmdSRandMember] (sq_Cmd req) then Some (head ++ be 4 (sq_Count req) ++ key)
  else if one_of [CmdSUnion; CmdSInter; CmdSDiff] (sq_Cmd req) then
    Some (be 1 (sq_Cmd req) ++ be 2 (Z.of_nat (length (sq_Keys req))) ++ counted_all 2 (sq_Keys req))
  else None.

Definition set_short : error := ErrMsg "set request payload too short".
Definition set_truncated : string := "set request payload truncated".

(** [keyLen] is a uint16, and so is [7+keyLen]. *)
Definition DecodeSetRequest (p : slice) : outcome (result error SetRequest) :=
  if len p <? 3 then Ret (Err set_short)
  else
    b ← at_ p 0;
    let cmd := byte_val b in
    keyLen ← num 2 p 1;
    if one_of [CmdSMembers; CmdSCard; CmdSPop] cmd then
      if len p <? 3 + keyLen then Ret (Err (ErrMsg set_truncated))
      else
        key ← text p 3 (wrapU 16 (3 + keyLen));
        mret (Ok (mkSetRequest cmd key [] 0 []))
    else if one_of [CmdSAdd; CmdSRem] cmd then
      if len p <? 7 then Ret (Err set_short)
      else
        elemCount ← num 4 p 3;
        key ← text p 7 (wrapU 16 (7 + keyLen));
        r ← read_strict 4 set_truncated (Z.to_nat elemCount) p (7 + keyLen) [];
        match r with
        | Err e => Ret (Err e)
        | Ok (elems, _) => Ret (Ok (mkSetRequest cmd key elems 0 []))
        end
    else if one_of [CmdSIsMember] cmd then
      if len p <? 7 then Ret (Err set_short)
      else
        elemLen ← num 4 p 3;
        if len p <? 7 + keyLen + elemLen then Ret (Err (ErrMsg set_truncated))
        else
          key ← text p 7 (wrapU 16 (7 + keyLen));
          elem ← text p (7 + keyLen) (7 + keyLen + elemLen);
          mret (Ok (mkSetRequest cmd key [elem] 0 []))
    else if one_of [CmdSRandMember] cmd then
      if len p <? 7 then Ret (Err set_short)
      else
        count ← num 4 p 3;
        if len p <? 7 + keyLen then Ret (Err (ErrMsg set_truncated))
        else
          key ← text p 7 (wrapU 16 (7 + keyLen));
          mret (Ok (mkSetRequest cmd key [] (wrapS 32 count) []))
    else if one_of [CmdSUnion; CmdSInter; CmdSDiff] cmd then
      numKeys ← num 2 p 1;
      r ← read_strict 2 set_truncated (Z.to_nat numKeys) p 3 [];
      match r with
      | Err e => Ret (Err e)
      | Ok (keys, _) => Ret (Ok (mkSetRequest cmd EmptyString [] 0 keys))
      end
    else Ret (Err ErrInvalidCommand).

(** ** Responses *)

Record SetResponse : Type := mkSetResponse {
  sr_Cmd : Z;
  sr_Status : Z;
  sr_Changed : Z;
  sr_IsMember : bool;
  sr_Card : Z;
  sr_Elems : list string;
  sr_ErrMsg : string;
}.

Definition list_cmds : list Z := [CmdSMembers; CmdSRandMember; CmdSUnion; CmdSInter; CmdSDiff].

Definition EncodeSetResponse (resp : SetResponse) : option bytes :=
  let status := be 1 (sr_Status resp) in
  if one_of [CmdSAdd; CmdSRem] (sr_Cmd resp) then Some (status ++ be 8 (sr_Changed resp))
  else if one_of [CmdSIsMember] (sr_Cmd resp) then Some (status ++ be 1 (if sr_IsMember resp then 1 else 0))
  else if one_of [CmdSCard] (sr_Cmd resp) then Some (status ++ be 8 (sr_Card resp))
  else if one_of [CmdSPop] (sr_Cmd resp) then
    Some (status ++ counted 2 (default EmptyString (sr_Elems resp !! 0%nat)))
  else if one_of list_cmds (sr_Cmd resp) then
    Some (status ++ be 4 (Z.of_nat (length (sr_Elems resp))) ++ counted_all 2 (sr_Elems resp))
  else None.

Definition set_resp_short : error := ErrMsg "set response payload too short".

Definition DecodeSetResponse (p : slice) (cmd : Z) : outcome (result error SetResponse) :=
  if len p <? 1 then Ret (Err set_resp_short)
  else
    b ← at_ p 0;
    let status := byte_val b in
    if (status =? StatusErr) && (len p >? 1) then
      msg ← text p 1 (len p);
      mret (Ok (mkSetResponse cmd status 0 false 0 [] msg))
    else if one_of [CmdSAdd; CmdSRem] cmd then
      if len p <? 9 then Ret (Err set_resp_short)
      else changed ← num 8 p 1; mret (Ok (mkSetResponse cmd status changed false 0 [] EmptyString))
    else if one_of [CmdSIsMember] cmd then
      if len p <? 2 then Ret (Err set_resp_short)
      else b ← at_ p 1; mret (Ok (mkSetResponse cmd status 0 (negb (byte_val b =? 0)) 0 [] EmptyString))
    else if one_of [CmdSCard] cmd then
      if len p <? 9 then Ret (Err set_resp_short)
      else card ← num 8 p 1; mret (Ok (mkSetResponse cmd status 0 false card [] EmptyString))
    else if one_of [CmdSPop] cmd then
      if len p <? 3 then Ret (Err set_resp_short)
      else
        elemLen ← num 2 p 1;
        if (elemLen >? 0) && (len p >=? 3 + elemLen) then
          e ← text p 3 (wrapU 16 (3 + elemLen));
          mret (Ok (mkSetResponse cmd status 0 false 0 [e] EmptyString))
        else Ret (Ok (mkSetResponse cmd status 0 false 0 [] EmptyString))
    else if one_of list_cmds cmd then
      if len p <? 5 then Ret (Err set_resp_short)
      else
        count ← num 4 p 1;
        elems ← read_lenient 2 (Z.to_nat count) p 5 [];
        mret (Ok (mkSetResponse cmd status 0 false 0 elems EmptyString))
    else Ret (Ok (mkSetResponse cmd status 0 false 0 [] EmptyString)).

(** ** Lemmas: counted strings *)

Lemma length_counted w s : length (counted w s) = (w + length (bytes_of s))%nat.
Proof. unfold counted. by rewrite length_app, length_be. Qed.

#[export] Hint Rewrite length_counted : wire_len.

(** Strings whose length fits [w] bytes. *)
Definition fits (w : nat) (s : string) : Prop := slen s < 256 ^ Z.of_nat w.

(** A loop over counted strings reads them all, wherever they start. *)
Lemma read_strict_counted w msg l pre post acc n :
  Forall (fits w) l -> (length pre + length (counted_all w l) <= n)%nat ->
  read_strict w msg (length l) (mkSlice n (pre ++ counted_all w l ++ post)) (Z.of_nat (length pre)) acc =
    Ret (Ok (acc ++ l, Z.of_nat (length pre + length (counted_all w l)))).
Proof.
  revert pre acc. induction l as [|s l IH]; intros pre acc Hf Hn.
  { cbn. by rewrite app_nil_r, Nat.add_0_r. }
  apply Forall_cons in Hf as [Hs Hf]. unfold fits, slen in Hs.
  unfold counted_all in *. cbn [fmap list_fmap concat length read_strict] in *.
  rewrite length_app, length_counted in Hn |- *. change (len _) with (Z.of_nat n).
  destruct (Z.gtb_spec (Z.of_nat (length pre) + Z.of_nat w) (Z.of_nat n)); [lia|].
  rewrite <-!(assoc_L (++)).
  eapply bind_ret.
  { rewrite num_skip by lia. unfold counted at 1. rewrite <-(assoc_L (++)). apply num_here; [lia|]. unfold slen. lia. }
  cbv beta zeta. unfold slen.
  destruct (Z.gtb_spec (Z.of_nat (length pre) + Z.of_nat w + Z.of_nat (length (bytes_of s))) (Z.of_nat n)); [lia|].
  eapply bind_ret.
  { rewrite text_skip by lia. unfold counted at 1. rewrite <-(assoc_L (++)).
    rewrite text_skip by (rewrite length_be; lia). apply text_here; rewrite length_be; lia. }
  cbv beta. rewrite string_of_list_byte_of_string.
  replace (mkSlice n _) with (mkSlice n ((pre ++ counted w s) ++ concat (counted w <$> l) ++ post)).
  2:{ by rewrite <-!(assoc_L (++)). }
  replace (Z.of_nat (length pre) + Z.of_nat w + Z.of_nat (length (bytes_of s)))
    with (Z.of_nat (length (pre ++ counted w s))) by (rewrite length_app, length_counted; lia).
  rewrite IH; [|done|rewrite length_app, length_counted; lia].
  rewrite <-(assoc_L (++)). do 4 f_equal. rewrite length_app, length_counted. lia.
Qed.

Lemma lenient_strict w msg n p off acc l off' :
  read_strict w msg n p off acc ⇓ (Ok (l, off')) -> read_lenient w n p off acc ⇓ l.
Proof.
  revert off acc. induction n as [|n IH]; intros off acc; cbn; [by intros [= -> _]|].
  destruct (_ >? _); [done|]. destruct (num w p off) as [el| |]; cbn; try done.
  destruct (_ >? _); [done|]. destruct (text p _ _) as [s| |]; cbn; try done. apply IH.
Qed.

Lemma length_counted_all w l :
  length (counted_all w l) = sum_list_with (fun s => w + length (bytes_of s))%nat l.
Proof.
  unfold counted_all. induction l as [|s l IH]; [done|]. cbn [fmap list_fmap concat sum_list_with].
  by rewrite length_app, length_counted, IH.
Qed.

(** The loops at the end of a payload of [n] bytes. *)
Lemma read_strict_end w msg l pre st acc n off k :
  Forall (fits w) l -> n = (length pre + length (counted_all w l))%nat -> off = Z.of_nat (length pre) ->
  k = Z.of_nat (length l) ->
  read_strict w msg (Z.to_nat k) (mkSlice n (pre ++ counted_all w l ++ st)) off acc =
    Ret (Ok (acc ++ l, Z.of_nat n)).
Proof. intros Hf -> -> ->. rewrite Nat2Z.id. by apply read_strict_counted. Qed.

Lemma read_lenient_end w l pre st acc n off k :
  Forall (fits w) l -> n = (length pre + length (counted_all w l))%nat -> off = Z.of_nat (length pre) ->
  k = Z.of_nat (length l) ->
  read_lenient w (Z.to_nat k) (mkSlice n (pre ++ counted_all w l ++ st)) off acc ⇓ (acc ++ l).
Proof. intros. eapply (lenient_strict _ EmptyString). by apply read_strict_end. Qed.

(** ** Round trips *)

#[local] Opaque be.

Definition set_cmds : list Z :=
  [CmdSAdd; CmdSRem; CmdSIsMember; CmdSMembers; CmdSCard; CmdSPop; CmdSRandMember; CmdSUnion; CmdSInter; CmdSDiff].

(** A set request whose fields fit: the key leaves room for the 16-bit sum. *)
Record wf_set_request (req : SetRequest) : Prop := {
  wq_cmd : sq_Cmd req ∈ set_cmds;
  wq_key : slen (sq_Key req) + 7 < 2 ^ 16;
  wq_elems : Forall (fits 4) (sq_Elems req);
  wq_num : Z.of_nat (length (sq_Elems req)) < 2 ^ 32;
  wq_count : - 2 ^ 31 <= sq_Count req < 2 ^ 31;
  wq_keys : Forall (fits 2) (sq_Keys req);
  wq_numKeys : Z.of_nat (length (sq_Keys req)) < 2 ^ 16;
}.

(** The fields a command uses; the others are left empty. *)
Definition norm_set_request (req : SetRequest) : SetRequest :=
  let cmd := sq_Cmd req in
  if one_of [CmdSMembers; CmdSCard; CmdSPop] cmd then mkSetRequest cmd (sq_Key req) [] 0 []
  else if one_of [CmdSAdd; CmdSRem] cmd then mkSetRequest cmd (sq_Key req) (sq_Elems req) 0 []
  else if one_of [CmdSIsMember] cmd then
    mkSetRequest cmd (sq_Key req) [default EmptyString (sq_Elems req !! 0%nat)] 0 []
  else if one_of [CmdSRandMember] cmd then mkSetRequest cmd (sq_Key req) [] (sq_Count req) []
  else mkSetRequest cmd EmptyString [] 0 (sq_Keys req).

Lemma wrapS32_be z : - 2 ^ 31 <= z < 2 ^ 31 -> wrapS 32 (unbe (be 4 z)) = z.
Proof.
  intros Hz. rewrite unbe_be. change (256 ^ Z.of_nat 4) with (2 ^ 32). unfold wrapS. change (32 - 1) with 31.
  rewrite Z.add_mod_idemp_l by lia. rewrite Z.mod_small by lia. lia.
Qed.

(** The shapes of a request by command. *)
Lemma set_cmd_cases cmd :
  cmd ∈ set_cmds ->
  0 <= cmd < 256 /\
  (one_of [CmdSMembers; CmdSCard; CmdSPop] cmd = true \/
   one_of [CmdSMembers; CmdSCard; CmdSPop] cmd = false /\
   (one_of [CmdSAdd; CmdSRem] cmd = true \/
    one_of [CmdSAdd; CmdSRem] cmd = false /\
    (one_of [CmdSIsMember] cmd = true \/
     one_of [CmdSIsMember] cmd = false /\
     (one_of [CmdSRandMember] cmd = true \/
      one_of [CmdSRandMember] cmd = false /\ one_of [CmdSUnion; CmdSInter; CmdSDiff] cmd = true)))).
Proof.
  unfold set_cmds. rewrite !elem_of_cons. intros H.
  repeat (destruct H as [->|H]; [split; [split; [done|reflexivity]|vm_compute; tauto]|]). by apply not_elem_of_nil in H.
Qed.

(** Reads the header of a set request: the length check, the command, the key length. *)
Ltac set_open n :=
  open_payload n;
  lazymatch goal with |- context [Z.of_nat n <? 3] => destruct (Z.ltb_spec (Z.of_nat n) 3); [wire_lia|] end;
  rd_cmd; rd.

(** [if len(p) < k] with enough bytes. *)
Ltac len_ok := rewrite (proj2 (Z.ltb_ge _ _)) by wire_lia.

Lemma set_request_decodes req bs st :
  wf_set_request req -> EncodeSetRequest req = Some bs ->
  DecodeSetRequest (payload bs st) ⇓ (Ok (norm_set_request req)).
Proof.
  intros [Hcmd Hkey Helems Hnum Hcount Hkeys Hnk]. destruct (set_cmd_cases _ Hcmd) as [Hc Hcase].
  unfold EncodeSetRequest, DecodeSetRequest, norm_set_request, slen in *.
  destruct Hcase as [H1|[H1 [H2|[H2 [H3|[H3 [H4|[H4 H5]]]]]]]];
    rewrite ?H1, ?H2, ?H3, ?H4, ?H5; intros [= <-].
  - set_open n. rewrite H1. len_ok. rewrite wrapU_small by wire_lia. rd. by rewrite string_of_list_byte_of_string.
  - set_open n. rewrite H1, H2. len_ok. rd. rewrite wrapU_small by wire_lia. rd. rewrite string_of_list_byte_of_string.
    eapply bind_ret.
    { rewrite !(assoc_L (++)), <-(assoc_L (++) _ _ st). apply read_strict_end; [done|wire_lia|wire_lia|done]. }
    done.
  - set_open n. rewrite H1, H2, H3.
    set (elem := default EmptyString (sq_Elems req !! 0%nat)) in *.
    assert (Z.of_nat (length (bytes_of elem)) < 2 ^ 32) as He.
    { unfold elem. destruct (sq_Elems req) as [|e l]; [done|]. by apply Forall_cons in Helems as [He _]. }
    len_ok. rd. len_ok. rewrite wrapU_small by wire_lia. rd. rd. by rewrite !string_of_list_byte_of_string.
  - set_open n. rewrite H1, H2, H3, H4. len_ok. rd. len_ok. rewrite wrapU_small by wire_lia. rd.
    by rewrite string_of_list_byte_of_string, wrapS32_be.
  - set_open n. rewrite H1, H2, H3, H4, H5. rd. eapply bind_ret.
    { rewrite (assoc_L (++)). apply read_strict_end; [done|wire_lia|wire_lia|done]. }
    done.
Qed.

Record wf_set_response (resp : SetResponse) : Prop := {
  wr_cmd : sr_Cmd resp ∈ set_cmds;
  wr_status : 0 <= sr_Status resp < 256 /\ sr_Status resp <> StatusErr;
  wr_changed : 0 <= sr_Changed resp < 2 ^ 64;
  wr_card : 0 <= sr_Card resp < 2 ^ 64;
  wr_elems : Forall (fits 2) (sr_Elems resp);
  wr_num : Z.of_nat (length (sr_Elems resp)) < 2 ^ 32;
  wr_first : slen (default EmptyString (sr_Elems resp !! 0%nat)) + 3 < 2 ^ 16;
}.

(** The fields a response to the command carries. *)
Definition norm_set_response (resp : SetResponse) : SetResponse :=
  let cmd := sr_Cmd resp in let st := sr_Status resp in
  if one_of [CmdSAdd; CmdSRem] cmd then mkSetResponse cmd st (sr_Changed resp) false 0 [] EmptyString
  else if one_of [CmdSIsMember] cmd then mkSetResponse cmd st 0 (sr_IsMember resp) 0 [] EmptyString
  else if one_of [CmdSCard] cmd then mkSetResponse cmd st 0 false (sr_Card resp) [] EmptyString
  else if one_of [CmdSPop] cmd then
    mkSetResponse cmd st 0 false 0
      (let e := default EmptyString (sr_Elems resp !! 0%nat) in if decide (e = EmptyString) then [] else [e]) EmptyString
  else mkSetResponse cmd st 0 false 0 (sr_Elems resp) EmptyString.

Lemma set_resp_cases cmd :
  cmd ∈ set_cmds ->
  one_of [CmdSAdd; CmdSRem] cmd = true \/
  one_of [CmdSAdd; CmdSRem] cmd = false /\
  (one_of [CmdSIsMember] cmd = true \/
   one_of [CmdSIsMember] cmd = false /\
   (one_of [CmdSCard] cmd = true \/
    one_of [CmdSCard] cmd = false /\
    (one_of [CmdSPop] cmd = true \/ one_of [CmdSPop] cmd = false /\ one_of list_cmds cmd = true))).
Proof.
  unfold set_cmds. rewrite !elem_of_cons. intros H.
  repeat (destruct H as [->|H]; [vm_compute; tauto|]). by apply not_elem_of_nil in H.
Qed.

Lemma set_response_decodes resp bs st :
  wf_set_response resp -> EncodeSetResponse resp = Some bs ->
  DecodeSetResponse (payload bs st) (sr_Cmd resp) ⇓ (Ok (norm_set_response resp)).
Proof.
  intros [Hcmd [Hst Hne] Hch Hca Hel Hnum Hfst]. pose proof (set_resp_cases _ Hcmd) as Hcase.
  unfold EncodeSetResponse, DecodeSetResponse, norm_set_response, counted, slen in *.
  assert (sr_Status resp =? StatusErr = false) as Hs by (by apply Z.eqb_neq).
  destruct Hcase as [H1|[H1 [H2|[H2 [H3|[H3 [H4|[H4 H5]]]]]]]];
    rewrite ?H1, ?H2, ?H3, ?H4, ?H5; intros [= <-]; open_payload n; len_ok; rd_cmd; rewrite Hs; cbn [andb].
  - len_ok. by rd.
  - len_ok. rd. rewrite byte_val_of. by destruct (sr_IsMember resp).
  - len_ok. by rd.
  - len_ok. rd. set (e := default EmptyString (sr_Elems resp !! 0%nat)) in *. case_decide as He.
    + by rewrite He.
    + destruct (Z.gtb_spec (Z.of_nat (length (bytes_of e))) 0); [|destruct e; cbn in *; [done|lia]].
      rewrite Z.geb_leb, (proj2 (Z.leb_le _ _)) by wire_lia. cbn [andb]. rewrite wrapU_small by wire_lia. rd.
      by rewrite string_of_list_byte_of_string.
  - len_ok. rd. eapply bind_ret.
    { rewrite (assoc_L (++)). apply read_lenient_end; [done|wire_lia|wire_lia|done]. }
    done.
Qed.

(** ** Properties *)

(** Set requests and non-error set responses survive the wire:
    every command's decoder gives back the fields its encoder wrote, for keys that
    leave room for the 16-bit offset (up to 65528 bytes), whatever follows in the
    buffer. *)
Theorem set_wire_roundtrip req resp bs bs' st :
  wf_set_request req -> EncodeSetRequest req = Some bs ->
  wf_set_response resp -> EncodeSetResponse resp = Some bs' ->
  DecodeSetRequest (payload bs st) ⇓ (Ok (norm_set_request req)) /\
  DecodeSetResponse (payload bs' st) (sr_Cmd resp) ⇓ (Ok (norm_set_response resp)).
Proof. intros. split; [by apply set_request_decodes|by apply set_response_decodes]. Qed.

(** The decoder crashes on what the encoder writes for a long key: the
    end of the key is a 16-bit sum, so a request for the members of a key of 65533
    bytes or more panics. *)
Theorem long_set_key_panics req bs st :
  one_of [CmdSMembers; CmdSCard; CmdSPop] (sq_Cmd req) = true ->
  65533 <= slen (sq_Key req) < 65536 -> EncodeSetRequest req = Some bs ->
  DecodeSetRequest (payload bs st) = Panic.
Proof.
  intros H1 Hk. unfold EncodeSetRequest, DecodeSetRequest, slen in *. rewrite H1. intros [= <-].
  assert (sq_Cmd req ∈ set_cmds) as Hin.
  { apply bool_decide_eq_true in H1. unfold set_cmds. rewrite !elem_of_cons in *. tauto. }
  destruct (set_cmd_cases _ Hin) as [Hc _]. set_open n. rewrite H1. len_ok.
  unfold text, cut. unfold wrapU. rewrite length_bytes_of in *.
  replace ((3 + Z.of_nat (String.length (sq_Key req))) mod 2 ^ 16)
    with (Z.of_nat (String.length (sq_Key req)) - 65533).
  2:{ rewrite <-(Z_mod_plus_full _ (-1)), Z.mod_small by lia. lia. }
  destruct (Z.leb_spec 3 (Z.of_nat (String.length (sq_Key req)) - 65533)); [lia|]. done.
Qed.

(** The message of an error is lost: a set response is encoded without
    it, so the client of a failed [SAdd] or [SRem] gets eight zero bytes as the
    message, whatever the server said. *)
Theorem set_error_message_lost resp bs st :
  one_of [CmdSAdd; CmdSRem] (sr_Cmd resp) = true -> sr_Status resp = StatusErr -> sr_Changed resp = 0 ->
  EncodeSetResponse resp = Some bs ->
  exists r, DecodeSetResponse (payload bs st) (sr_Cmd resp) ⇓ (Ok r) /\
    sr_ErrMsg r = string_of (replicate 8 x00).
Proof.
  intros H1 Hs H0. unfold EncodeSetResponse, DecodeSetResponse. rewrite H1, Hs, H0. intros [= <-].
  open_payload n. len_ok. eexists. split; [|].
  { eapply bind_ret; [apply at_here; [done|lia]|]. rewrite byte_val_of. cbn [StatusErr].
    change (1 mod 256 =? 1) with true. rewrite Z.gtb_ltb, (proj2 (Z.ltb_lt _ _)) by lia. cbn [andb].
    eapply bind_ret; [|done]. rewrite text_skip by wire_lia. apply text_here; wire_lia. }
  done.
Qed.

(** ** The properties at concrete inputs *)

Lemma set_wire_roundtrip_witness :
  DecodeSetRequest (payload (default [] (EncodeSetRequest (mkSetRequest CmdSAdd "k" ["a"; "b"] 0 []))) [x2a]) =
    Ret (Ok (mkSetRequest CmdSAdd "k" ["a"; "b"] 0 [])) /\
  DecodeSetResponse (payload (default [] (EncodeSetResponse (mkSetResponse CmdSMembers 0 0 false 0 ["x"] ""))) [x2a]) CmdSMembers =
    Ret (Ok (mkSetResponse CmdSMembers 0 0 false 0 ["x"] "")).
Proof.
  apply (set_wire_roundtrip (mkSetRequest CmdSAdd "k" ["a"; "b"] 0 []) (mkSetResponse CmdSMembers 0 0 false 0 ["x"] ""));
    [|reflexivity| |reflexivity].
  - split; cbn; [unfold set_cmds; rewrite !elem_of_cons; tauto|done|repeat constructor|done|done|constructor|done].
  - split; cbn; [unfold set_cmds; rewrite !elem_of_cons; tauto|done|done|done|repeat constructor|done|done].
Defined.

Definition long_request : SetRequest :=
  mkSetRequest CmdSMembers (string_of (replicate (Z.to_nat 65533) x61)) [] 0 [].

Lemma long_set_key_panics_witness :
  exists bs, EncodeSetRequest long_request = Some bs /\ DecodeSetRequest (payload bs []) = Panic.
Proof.
  destruct (EncodeSetRequest long_request) as [bs|] eqn:He; [|discriminate He].
  exists bs. split; [reflexivity|]. apply (long_set_key_panics long_request bs []); [reflexivity| |exact He].
  unfold slen, long_request. cbn [sq_Key]. rewrite list_byte_of_string_of_list_byte, length_replicate. lia.
Defined.

Lemma set_error_message_lost_witness :
  exists r, DecodeSetResponse (payload (default [] (EncodeSetResponse (mkSetResponse CmdSAdd StatusErr 0 false 0 [] "no"))) [])
      CmdSAdd ⇓ (Ok r) /\ sr_ErrMsg r = string_of (replicate 8 x00).
Proof. apply (set_error_message_lost (mkSetResponse CmdSAdd StatusErr 0 false 0 [] "no")); reflexivity. Defined.
