(* ===== verification/WireExt.v ===== *)
(** * Hash and list requests and responses on the wire (net/protocol_ext.go)

    The codecs of the hash and list commands, as in [WireSet]; floating-point
    numbers travel as their 64 bits. *)

From Stdlib Require Import Strings.Byte Strings.String.
From stdpp Require Import base tactics numbers list gmap fin_maps strings.
From S2P Require Import Prelude.
From S2P Require Import Bytes.
From S2P Require Import Wire.
From S2P Require Import WireSet.

Open Scope Z_scope.

(** [math.Float64bits] and [math.Float64frombits]. *)
Class FloatBits (float64 : Type) := {
  fzero : float64;
  Float64bits : float64 -> Z;
  Float64frombits : Z -> float64;
}.

(** ** Commands *)

Definition CmdHSet : Z := 32.
Definition CmdHGet : Z := 33.
Definition CmdHDel : Z := 34.
Definition CmdHExists : Z := 35.
Definition CmdHGetAll : Z := 36.
Definition CmdHKeys : Z := 37.
Definition CmdHVals : Z := 38.
Definition CmdHLen : Z := 39.
Definition CmdHStrLen : Z := 40.
Definition CmdHIncrBy : Z := 41.
Definition CmdHIncrByFloat : Z := 42.
Definition CmdHMGet : Z := 43.
Definition CmdHMSet : Z := 44.
Definition CmdHSetNX : Z := 45.

Definition CmdLPush : Z := 48.
Definition CmdRPush : Z := 49.
Definition CmdLPop : Z := 50.
Definition CmdRPop : Z := 51.
Definition CmdLLen : Z := 52.
Definition CmdLRange : Z := 53.
Definition CmdLIndex : Z := 54.
Definition CmdLSet : Z := 55.
Definition CmdLRem : Z := 56.
Definition CmdLTrim : Z := 57.
Definition CmdLInsert : Z := 58.
Definition CmdBLPop : Z := 59.
Definition CmdBRPop : Z := 60.
Definition CmdLPos : Z := 61.

Definition IsHashCmd (cmd : Z) : bool := (CmdHSet <=? cmd) && (cmd <=? CmdHSetNX).
Definition IsListCmd (cmd : Z) : bool := (CmdLPush <=? cmd) && (cmd <=? CmdLPos).
Definition IsKeyCmd (cmd : Z) : bool := (64 <=? cmd) && (cmd <=? 73).

(** [if cond then continue else fail with msg]: the length checks of the decoders. *)
Definition need {A} (bad : bool) (msg : string) (k : outcome (result error A)) : outcome (result error A) :=
  if bad then Ret (Err (ErrMsg msg)) else k.

Section Ext.
Context `{FB : FloatBits float64} `{MI : MapIter}.

(** ** Hash requests *)

Record HashRequest : Type := mkHashRequest {
  hq_Cmd : Z;
  hq_Key : string;
  hq_Field : string;
  hq_Value : string;
  hq_Fields : list string;
  hq_FvPairs : list string;
  hq_DeltaI64 : Z;
  hq_DeltaF64 : float64;
}.

(** The pairs of [fvPairs]: a last element without a partner is dropped. *)
Definition even_part (l : list string) : list string := take (2 * (length l / 2)) l.

Definition EncodeHashRequest (req : HashRequest) : option bytes :=
  let cmd := hq_Cmd req in
  let key := bytes_of (hq_Key req) in let field := bytes_of (hq_Field req) in
  let head := be 1 cmd ++ be 2 (slen (hq_Key req)) in
  if one_of [CmdHGetAll; CmdHKeys; CmdHVals; CmdHLen] cmd then Some (head ++ key)
  else if one_of [CmdHGet; CmdHExists; CmdHStrLen] cmd then
    Some (head ++ be 2 (slen (hq_Field req)) ++ key ++ field)
  else if one_of [CmdHSet; CmdHSetNX] cmd then
    Some (head ++ be 2 (slen (hq_Field req)) ++ be 4 (slen (hq_Value req)) ++ key ++ field ++ bytes_of (hq_Value req))
  else if one_of [CmdHDel; CmdHMGet] cmd then
    Some (head ++ be 2 (Z.of_nat (length (hq_Fields req))) ++ key ++ counted_all 2 (hq_Fields req))
  else if one_of [CmdHIncrBy] cmd then
    Some (head ++ be 2 (slen (hq_Field req)) ++ be 8 (hq_DeltaI64 req) ++ key ++ field)
  else if one_of [CmdHIncrByFloat] cmd then
    Some (head ++ be 2 (slen (hq_Field req)) ++ be 8 (Float64bits (hq_DeltaF64 req)) ++ key ++ field)
  else if one_of [CmdHMSet] cmd then
    Some (head ++ be 2 (Z.of_nat (length (hq_FvPairs req) / 2)) ++ key ++ counted_all 2 (even_part (hq_FvPairs req)))
  else None.

Definition hash_short : string := "hash request payload too short".
Definition hash_truncated : string := "hash request payload truncated".

Definition DecodeHashRequest (p : slice) : outcome (result error HashRequest) :=
  need (len p <? 3) hash_short (
    b ← at_ p 0;
    let cmd := byte_val b in
    keyLen ← num 2 p 1;
    let req key field value fields pairs di df := mkHashRequest cmd key field value fields pairs di df in
    if one_of [CmdHGetAll; CmdHKeys; CmdHVals; CmdHLen] cmd then
      need (len p <? 3 + keyLen) hash_truncated (
        key ← text p 3 (3 + keyLen);
        mret (Ok (req key EmptyString EmptyString [] [] 0 fzero)))
    else if one_of [CmdHGet; CmdHExists; CmdHStrLen] cmd then
      need (len p <? 5) hash_short (
        fieldLen ← num 2 p 3;
        need (len p <? 5 + keyLen + fieldLen) hash_truncated (
          key ← text p 5 (5 + keyLen);
          field ← text p (5 + keyLen) (5 + keyLen + fieldLen);
          mret (Ok (req key field EmptyString [] [] 0 fzero))))
    else if one_of [CmdHSet; CmdHSetNX] cmd then
      need (len p <? 9) hash_short (
        fieldLen ← num 2 p 3;
        valueLen ← num 4 p 5;
        need (len p <? 9 + keyLen + fieldLen + valueLen) hash_truncated (
          key ← text p 9 (9 + keyLen);
          field ← text p (9 + keyLen) (9 + keyLen + fieldLen);
          value ← text p (9 + keyLen + fieldLen) (9 + keyLen + fieldLen + valueLen);
          mret (Ok (req key field value [] [] 0 fzero))))
    else if one_of [CmdHDel; CmdHMGet] cmd then
      need (len p <? 5) hash_short (
        numFields ← num 2 p 3;
        need (5 + keyLen >? len p) hash_truncated (
          key ← text p 5 (5 + keyLen);
          r ← read_strict 2 hash_truncated (Z.to_nat numFields) p (5 + keyLen) [];
          match r with
          | Err e => Ret (Err e)
          | Ok (fields, _) => Ret (Ok (req key EmptyString EmptyString fields [] 0 fzero))
          end))
    else if one_of [CmdHIncrBy] cmd then
      need (len p <? 13) hash_short (
        fieldLen ← num 2 p 3;
        delta ← num 8 p 5;
        need (len p <? 13 + keyLen + fieldLen) hash_truncated (
          key ← text p 13 (13 + keyLen);
          field ← text p (13 + keyLen) (13 + keyLen + fieldLen);
          mret (Ok (req key field EmptyString [] [] (int64 delta) fzero))))
    else if one_of [CmdHIncrByFloat] cmd then
      need (len p <? 13) hash_short (
        fieldLen ← num 2 p 3;
        delta ← num 8 p 5;
        need (len p <? 13 + keyLen + fieldLen) hash_truncated (
          key ← text p 13 (13 + keyLen);
          field ← text p (13 + keyLen) (13 + keyLen + fieldLen);
          mret (Ok (req key field EmptyString [] [] 0 (Float64frombits delta)))))
    else if one_of [CmdHMSet] cmd then
      need (len p <? 5) hash_short (
        numPairs ← num 2 p 3;
        need (5 + keyLen >? len p) hash_truncated (
          key ← text p 5 (5 + keyLen);
          (* each pass reads a field and a value, and fails alike on both *)
          r ← read_strict 2 hash_truncated (2 * Z.to_nat numPairs) p (5 + keyLen) [];
          match r with
          | Err e => Ret (Err e)
          | Ok (pairs, _) => Ret (Ok (req key EmptyString EmptyString [] pairs 0 fzero))
          end))
    else Ret (Err ErrInvalidCommand)).

(** ** List requests *)

Record ListRequest : Type := mkListRequest {
  lq_Cmd : Z;
  lq_Key : string;
  lq_Elements : list string;
  lq_Value : string;
  lq_Index : Z;
  lq_Start : Z;
  lq_Stop : Z;
  lq_Count : Z;
  lq_Pivot : string;
  lq_Before : bool;
  lq_Timeout : Z;
  lq_Rank : Z;
  lq_MaxLen : Z;
}.

Definition EncodeListRequest (req : ListRequest) : option bytes :=
  let cmd := lq_Cmd req in
  let key := bytes_of (lq_Key req) in let value := bytes_of (lq_Value req) in
  let head := be 1 cmd ++ be 2 (slen (lq_Key req)) in
  if one_of [CmdLPop; CmdRPop; CmdLLen] cmd then Some (head ++ key)
  else if one_of [CmdLPush; CmdRPush] cmd then
    Some (head ++ be 4 (Z.of_nat (length (lq_Elements req))) ++ key ++ counted_all 2 (lq_Elements req))
  else if one_of [CmdLRange; CmdLTrim] cmd then Some (head ++ be 8 (lq_Start req) ++ be 8 (lq_Stop req) ++ key)
  else if one_of [CmdLIndex] cmd then Some (head ++ be 8 (lq_Index req) ++ key)
  else if one_of [CmdLSet] cmd then
    Some (head ++ be 8 (lq_Index req) ++ be 4 (slen (lq_Value req)) ++ key ++ value)
  else if one_of [CmdLRem] cmd then
    Some (head ++ be 8 (lq_Count req) ++ be 4 (slen (lq_Value req)) ++ key ++ value)
  else if one_of [CmdLInsert] cmd then
    Some (head ++ be 1 (if lq_Before req then 1 else 0) ++ be 2 (slen (lq_Pivot req)) ++ be 4 (slen (lq_Value req)) ++
          key ++ bytes_of (lq_Pivot req) ++ value)
  else if one_of [CmdBLPop; CmdBRPop] cmd then Some (head ++ be 8 (lq_Timeout req) ++ key)
  else if one_of [CmdLPos] cmd then
    Some (head ++ be 8 (lq_Rank req) ++ be 8 (lq_Count req) ++ be 8 (lq_MaxLen req) ++ be 4 (slen (lq_Value req)) ++
          key ++ value)
  else None.

Definition list_short : string := "list request payload too short".
Definition list_truncated : string := "list request payload truncated".

Definition DecodeListRequest (p : slice) : outcome (result error ListRequest) :=
  need (len p <? 3) list_short (
    b ← at_ p 0;
    let cmd := byte_val b in
    keyLen ← num 2 p 1;
    if one_of [CmdLPop; CmdRPop; CmdLLen] cmd then
      need (len p <? 3 + keyLen) list_truncated (
        key ← text p 3 (3 + keyLen);
        mret (Ok (mkListRequest cmd key [] EmptyString 0 0 0 0 EmptyString false 0 0 0)))
    else if one_of [CmdLPush; CmdRPush] cmd then
      need (len p <? 7) list_short (
        numElems ← num 4 p 3;
        need (7 + keyLen >? len p) list_truncated (
          key ← text p 7 (7 + keyLen);
          r ← read_strict 2 list_truncated (Z.to_nat numElems) p (7 + keyLen) [];
          match r with
          | Err e => Ret (Err e)
          | Ok (elems, _) => Ret (Ok (mkListRequest cmd key elems EmptyString 0 0 0 0 EmptyString false 0 0 0))
          end))
    else if one_of [CmdLRange; CmdLTrim] cmd then
      need (len p <? 19) list_short (
        start ← num 8 p 3;
        stop ← num 8 p 11;
        need (len p <? 19 + keyLen) list_truncated (
          key ← text p 19 (19 + keyLen);
          mret (Ok (mkListRequest cmd key [] EmptyString 0 (int64 start) (int64 stop) 0 EmptyString false 0 0 0))))
    else if one_of [CmdLIndex] cmd then
      need (len p <? 11) list_short (
        index ← num 8 p 3;
        need (len p <? 11 + keyLen) list_truncated (
          key ← text p 11 (11 + keyLen);
          mret (Ok (mkListRequest cmd key [] EmptyString (int64 index) 0 0 0 EmptyString false 0 0 0))))
    else if one_of [CmdLSet] cmd then
      need (len p <? 15) list_short (
        index ← num 8 p 3;
        valueLen ← num 4 p 11;
        need (len p <? 15 + keyLen + valueLen) list_truncated (
          key ← text p 15 (15 + keyLen);
          value ← text p (15 + keyLen) (15 + keyLen + valueLen);
          mret (Ok (mkListRequest cmd key [] value (int64 index) 0 0 0 EmptyString false 0 0 0))))
    else if one_of [CmdLRem] cmd then
      need (len p <? 15) list_short (
        count ← num 8 p 3;
        valueLen ← num 4 p 11;
        need (len p <? 15 + keyLen + valueLen) list_truncated (
          key ← text p 15 (15 + keyLen);
          value ← text p (15 + keyLen) (15 + keyLen + valueLen);
          mret (Ok (mkListRequest cmd key [] value 0 0 0 (int64 count) EmptyString false 0 0 0))))
    else if one_of [CmdLInsert] cmd then
      need (len p <? 10) list_short (
        before ← at_ p 3;
        pivotLen ← num 2 p 4;
        valueLen ← num 4 p 6;
        need (10 + keyLen + pivotLen + valueLen >? len p) list_truncated (
          key ← text p 10 (10 + keyLen);
          pivot ← text p (10 + keyLen) (10 + keyLen + pivotLen);
          value ← text p (10 + keyLen + pivotLen) (10 + keyLen + pivotLen + valueLen);
          mret (Ok (mkListRequest cmd key [] value 0 0 0 0 pivot (negb (byte_val before =? 0)) 0 0 0))))
    else if one_of [CmdBLPop; CmdBRPop] cmd then
      need (len p <? 11) list_short (
        timeout ← num 8 p 3;
        need (len p <? 11 + keyLen) list_truncated (
          key ← text p 11 (11 + keyLen);
          mret (Ok (mkListRequest cmd key [] EmptyString 0 0 0 0 EmptyString false (int64 timeout) 0 0))))
    else if one_of [CmdLPos] cmd then
      need (len p <? 31) list_short (
        rank ← num 8 p 3;
        count ← num 8 p 11;
        maxLen ← num 8 p 19;
        valueLen ← num 4 p 27;
        need (len p <? 31 + keyLen + valueLen) list_truncated (
          key ← text p 31 (31 + keyLen);
          value ← text p (31 + keyLen) (31 + keyLen + valueLen);
          mret (Ok (mkListRequest cmd key [] value 0 0 0 (int64 count) EmptyString false 0 (int64 rank) (int64 maxLen)))))
    else Ret (Err ErrInvalidCommand)).

End Ext.

Section Responses.
Context `{FB : FloatBits float64} `{MI : MapIter}.

(** ** Hash responses *)

(** [hp_Map = None] is the nil map; a nil element of [AnySlice] is [None]. *)
Record HashResponse : Type := mkHashResponse {
  hp_Cmd : Z;
  hp_Status : Z;
  hp_Int : Z;
  hp_Bool : bool;
  hp_Str : string;
  hp_Map : option (gmap string string);
  hp_Slice : list string;
  hp_Any : list (option string);
  hp_Float : float64;
  hp_ErrMsg : string;
}.

Definition int_cmds : list Z := [CmdHSet; CmdHDel; CmdHLen; CmdHStrLen; CmdHIncrBy].

Definition flag (b : bool) : bytes := be 1 (if b then 1 else 0).

(** An element of [AnySlice]: a tag, and the string if there is one. *)
Definition tagged (v : option string) : bytes :=
  match v with Some s => be 1 1 ++ counted 4 s | None => be 1 0 end.

Definition EncodeHashResponse (resp : HashResponse) : option bytes :=
  let cmd := hp_Cmd resp in
  let status := be 1 (hp_Status resp) in
  let m := default ∅ (hp_Map resp) in
  if hp_Status resp =? StatusErr then Some (be 1 StatusErr ++ counted 2 (hp_ErrMsg resp))
  else if one_of int_cmds cmd then Some (status ++ be 8 (hp_Int resp))
  else if one_of [CmdHExists; CmdHSetNX] cmd then Some (status ++ flag (hp_Bool resp))
  else if one_of [CmdHGet] cmd then Some (status ++ counted 4 (hp_Str resp))
  else if one_of [CmdHGetAll] cmd then
    Some (status ++ be 4 (Z.of_nat (size m)) ++
          concat ((fun '(k, v) => counted 2 k ++ counted 4 v) <$> map_iter m))
  else if one_of [CmdHKeys; CmdHVals] cmd then
    Some (status ++ be 4 (Z.of_nat (length (hp_Slice resp))) ++ counted_all 2 (hp_Slice resp))
  else if one_of [CmdHIncrByFloat] cmd then Some (status ++ be 8 (Float64bits (hp_Float resp)))
  else if one_of [CmdHMGet] cmd then
    Some (status ++ be 4 (Z.of_nat (length (hp_Any resp))) ++ concat (tagged <$> hp_Any resp))
  else if one_of [CmdHMSet] cmd then Some status
  else None.

(** The loop of HGetAll: pairs until the payload is short. *)
Fixpoint read_map (n : nat) (p : slice) (off : Z) (m : gmap string string) : outcome (gmap string string) :=
  match n with
  | O => Ret m
  | S n =>
      if off + 2 >? len p then Ret m
      else
        kl ← num 2 p off;
        let off := off + 2 in
        if off + kl >? len p then Ret m
        else
          k ← text p off (off + kl);
          let off := off + kl in
          if off + 4 >? len p then Ret m
          else
            vl ← num 4 p off;
            let off := off + 4 in
            if off + vl >? len p then Ret m
            else
              v ← text p off (off + vl);
              read_map n p (off + vl) (<[k := v]> m)
  end.

(** The loop of HMGet: the elements after a short payload stay nil. *)
Fixpoint read_any (n : nat) (p : slice) (off : Z) : outcome (list (option string)) :=
  match n with
  | O => Ret []
  | S n' =>
      if off >=? len p then Ret (replicate n None)
      else
        hasValue ← at_ p off;
        let off := off + 1 in
        if negb (byte_val hasValue =? 0) then
          if off + 4 >? len p then Ret (replicate n None)
          else
            vl ← num 4 p off;
            let off := off + 4 in
            if off + vl >? len p then Ret (replicate n None)
            else
              s ← text p off (off + vl);
              l ← read_any n' p (off + vl);
              mret (Some s :: l)
        else
          l ← read_any n' p off;
          mret (None :: l)
  end.

(** The message of an error response, if it is whole. *)
Definition read_err (p : slice) : outcome string :=
  if len p >=? 3 then
    errLen ← num 2 p 1;
    if len p >=? 3 + errLen then text p 3 (3 + errLen) else Ret EmptyString
  else Ret EmptyString.

(** The string of HGet, LPop and the like, if it is not empty and whole. *)
Definition read_str (p : slice) : outcome string :=
  vl ← num 4 p 1;
  if (vl >? 0) && (len p >=? 5 + vl) then text p 5 (5 + vl) else Ret EmptyString.

Definition hash_resp_short : string := "hash response payload too short".

Definition DecodeHashResponse (p : slice) (cmd : Z) : outcome (result error HashResponse) :=
  need (len p <? 1) hash_resp_short (
    b ← at_ p 0;
    let status := byte_val b in
    let resp i bo s m sl an f e := mkHashResponse cmd status i bo s m sl an f e in
    if status =? StatusErr then
      e ← read_err p;
      mret (Ok (resp 0 false EmptyString None [] [] fzero e))
    else if one_of int_cmds cmd then
      need (len p <? 9) hash_resp_short (
        i ← num 8 p 1; mret (Ok (resp (int64 i) false EmptyString None [] [] fzero EmptyString)))
    else if one_of [CmdHExists; CmdHSetNX] cmd then
      need (len p <? 2) hash_resp_short (
        b ← at_ p 1; mret (Ok (resp 0 (negb (byte_val b =? 0)) EmptyString None [] [] fzero EmptyString)))
    else if one_of [CmdHGet] cmd then
      need (len p <? 5) hash_resp_short (
        s ← read_str p; mret (Ok (resp 0 false s None [] [] fzero EmptyString)))
    else if one_of [CmdHGetAll] cmd then
      need (len p <? 5) hash_resp_short (
        count ← num 4 p 1;
        m ← read_map (Z.to_nat count) p 5 ∅;
        mret (Ok (resp 0 false EmptyString (Some m) [] [] fzero EmptyString)))
    else if one_of [CmdHKeys; CmdHVals] cmd then
      need (len p <? 5) hash_resp_short (
        count ← num 4 p 1;
        l ← read_lenient 2 (Z.to_nat count) p 5 [];
        mret (Ok (resp 0 false EmptyString None l [] fzero EmptyString)))
    else if one_of [CmdHIncrByFloat] cmd then
      need (len p <? 9) hash_resp_short (
        f ← num 8 p 1; mret (Ok (resp 0 false EmptyString None [] [] (Float64frombits f) EmptyString)))
    else if one_of [CmdHMGet] cmd then
      need (len p <? 5) hash_resp_short (
        count ← num 4 p 1;
        l ← read_any (Z.to_nat count) p 5;
        mret (Ok (resp 0 false EmptyString None [] l fzero EmptyString)))
    else Ret (Ok (resp 0 false EmptyString None [] [] fzero EmptyString))).

(** ** List responses *)

Record ListResponse : Type := mkListResponse {
  lp_Cmd : Z;
  lp_Status : Z;
  lp_Int : Z;
  lp_Bool : bool;
  lp_Str : string;
  lp_Slice : list string;
  lp_Pos : list Z;
  lp_ErrMsg : string;
}.

Definition list_int_cmds : list Z := [CmdLPush; CmdRPush; CmdLLen; CmdLRem; CmdLInsert].
Definition list_str_cmds : list Z := [CmdLPop; CmdRPop; CmdBLPop; CmdBRPop; CmdLIndex].

Definition EncodeListResponse (resp : ListResponse) : option bytes :=
  let cmd := lp_Cmd resp in
  let status := be 1 (lp_Status resp) in
  if lp_Status resp =? StatusErr then Some (be 1 StatusErr ++ counted 2 (lp_ErrMsg resp))
  else if one_of list_int_cmds cmd then Some (status ++ be 8 (lp_Int resp))
  else if one_of list_str_cmds cmd then Some (status ++ counted 4 (lp_Str resp))
  else if one_of [CmdLRange] cmd then
    Some (status ++ be 4 (Z.of_nat (length (lp_Slice resp))) ++ counted_all 2 (lp_Slice resp))
  else if one_of [CmdLSet] cmd then Some (status ++ flag (lp_Bool resp))
  else if one_of [CmdLTrim] cmd then Some status
  else if one_of [CmdLPos] cmd then
    Some (status ++ be 4 (Z.of_nat (length (lp_Pos resp))) ++ concat (be 8 <$> lp_Pos resp))
  else None.

(** The loop of LPos. *)
Fixpoint read_pos (n : nat) (p : slice) (off : Z) (acc : list Z) : outcome (list Z) :=
  match n with
  | O => Ret acc
  | S n =>
      if off + 8 >? len p then Ret acc
      else i ← num 8 p off; read_pos n p (off + 8) (acc ++ [int64 i])
  end.

Definition list_resp_short : string := "list response payload too short".

Definition DecodeListResponse (p : slice) (cmd : Z) : outcome (result error ListResponse) :=
  need (len p <? 1) list_resp_short (
    b ← at_ p 0;
    let status := byte_val b in
    let resp i bo s sl ps e := mkListResponse cmd status i bo s sl ps e in
    if status =? StatusErr then
      e ← read_err p; mret (Ok (resp 0 false EmptyString [] [] e))
    else if one_of list_int_cmds cmd then
      need (len p <? 9) list_resp_short (
        i ← num 8 p 1; mret (Ok (resp (int64 i) false EmptyString [] [] EmptyString)))
    else if one_of list_str_cmds cmd then
      need (len p <? 5) list_resp_short (
        s ← read_str p; mret (Ok (resp 0 false s [] [] EmptyString)))
    else if one_of [CmdLRange] cmd then
      need (len p <? 5) list_resp_short (
        count ← num 4 p 1;
        l ← read_lenient 2 (Z.to_nat count) p 5 [];
        mret (Ok (resp 0 false EmptyString l [] EmptyString)))
    else if one_of [CmdLSet] cmd then
      need (len p <? 2) list_resp_short (
        b ← at_ p 1; mret (Ok (resp 0 (negb (byte_val b =? 0)) EmptyString [] [] EmptyString)))
    else if one_of [CmdLPos] cmd then
      need (len p <? 5) list_resp_short (
        count ← num 4 p 1;
        l ← read_pos (Z.to_nat count) p 5 [];
        mret (Ok (resp 0 false EmptyString [] l EmptyString)))
    else Ret (Ok (resp 0 false EmptyString [] [] EmptyString))).

End Responses.
