(* ===== verification/WireExtSpec.v ===== *)
(** * Hash and list codecs: no payload crashes them, and they are inverse

    For any payload, hostile or truncated, the decoders of hash and list requests
    and responses return; and they give back what the encoders write. *)

From Stdlib Require Import Strings.Byte Strings.String.
From stdpp Require Import base tactics numbers list gmap fin_maps strings.
From S2P Require Import Prelude.
From S2P Require Import Bytes.
From S2P Require Import Wire.
From S2P Require Import WireSet.
From S2P Require Import WireExt.

Open Scope Z_scope.
#[local] Opaque be.

(** ** Decoders that return *)

Definition returns {A} (m : outcome A) : Prop := exists a, m ⇓ a.

Section Returns.
Context (p : slice) (Hok : slice_ok p).

Lemma returns_ret {A} (a : A) : returns (Ret a).
Proof. by exists a. Qed.

Lemma returns_need {A} bad msg (k : outcome (result error A)) :
  (bad = false -> returns k) -> returns (need bad msg k).
Proof. intros Hk. unfold need. destruct bad; [by eexists|auto]. Qed.

Lemma returns_if {A} (b : bool) (k k' : outcome A) :
  (b = true -> returns k) -> (b = false -> returns k') -> returns (if b then k else k').
Proof. destruct b; auto. Qed.

Lemma returns_num {A} n a (k : Z -> outcome A) :
  0 <= a -> a + Z.of_nat n <= len p -> (forall z, 0 <= z < 256 ^ Z.of_nat n -> returns (k z)) ->
  returns (num n p a ≫= k).
Proof using Hok.
  intros Ha Hb Hk. pose proof (len_le_cap p Hok).
  destruct (num_ret n p a Ha ltac:(lia)) as (z & -> & Hz). by apply Hk.
Qed.

Lemma returns_text {A} a b (k : string -> outcome A) :
  0 <= a <= b -> b <= len p -> (forall s, returns (k s)) -> returns (text p a b ≫= k).
Proof using Hok.
  intros Ha Hb Hk. pose proof (len_le_cap p Hok).
  destruct (text_ret p a b Ha ltac:(lia)) as (s & ->). apply Hk.
Qed.

Lemma returns_text_end a b : 0 <= a <= b -> b <= len p -> returns (text p a b).
Proof using Hok. intros Ha Hb. pose proof (len_le_cap p Hok). apply text_ret; lia. Qed.

Lemma returns_at {A} i (k : byte -> outcome A) :
  0 <= i < len p -> (forall b, returns (k b)) -> returns (at_ p i ≫= k).
Proof using Hok. intros Hi Hk. destruct (at_ret p i Hok Hi) as (b & ->). apply Hk. Qed.

Lemma returns_bind {A B} (m : outcome A) (k : A -> outcome B) :
  returns m -> (forall a, returns (k a)) -> returns (m ≫= k).
Proof. intros [a ->] Hk. apply Hk. Qed.

(** Turns the boolean length checks in the context into inequalities. *)
Ltac bounds :=
  repeat match goal with
  | H : (_ <? _) = false |- _ => apply Z.ltb_ge in H
  | H : (_ >? _) = false |- _ => rewrite Z.gtb_ltb in H; apply Z.ltb_ge in H
  | H : (_ >? _) = true |- _ => rewrite Z.gtb_ltb in H; apply Z.ltb_lt in H
  | H : (_ >=? _) = true |- _ => rewrite Z.geb_leb in H; apply Z.leb_le in H
  | H : (_ >=? _) = false |- _ => rewrite Z.geb_leb in H; apply Z.leb_gt in H
  | H : (_ && _) = true |- _ => apply andb_prop in H as [??]
  end.

Ltac bounds_lia := bounds; change (Z.of_nat 2) with 2 in *; change (Z.of_nat 4) with 4 in *;
  change (Z.of_nat 8) with 8 in *; lia.

Lemma returns_read_strict w msg n off acc : 0 <= off -> returns (read_strict w msg n p off acc).
Proof using Hok.
  revert off acc. induction n as [|n IH]; intros off acc Hoff; cbn; [apply returns_ret|].
  apply returns_if; intros; [apply returns_ret|]. apply returns_num; [done|bounds_lia|]. intros z Hz.
  apply returns_if; intros; [apply returns_ret|]. apply returns_text; [lia|bounds_lia|]. intros s. apply IH. lia.
Qed.

Lemma returns_read_lenient w n off acc : 0 <= off -> returns (read_lenient w n p off acc).
Proof using Hok.
  revert off acc. induction n as [|n IH]; intros off acc Hoff; cbn; [apply returns_ret|].
  apply returns_if; intros; [apply returns_ret|]. apply returns_num; [done|bounds_lia|]. intros z Hz.
  apply returns_if; intros; [apply returns_ret|]. apply returns_text; [lia|bounds_lia|]. intros s. apply IH. lia.
Qed.

Lemma returns_read_map n off m : 0 <= off -> returns (read_map n p off m).
Proof using Hok.
  revert off m. induction n as [|n IH]; intros off m Hoff; cbn; [apply returns_ret|].
  apply returns_if; intros; [apply returns_ret|]. apply returns_num; [done|bounds_lia|]. intros z Hz.
  apply returns_if; intros; [apply returns_ret|]. apply returns_text; [lia|bounds_lia|]. intros s.
  apply returns_if; intros; [apply returns_ret|]. apply returns_num; [lia|bounds_lia|]. intros z' Hz'.
  apply returns_if; intros; [apply returns_ret|]. apply returns_text; [lia|bounds_lia|]. intros s'. apply IH. lia.
Qed.

Lemma returns_read_any n off : 0 <= off -> returns (read_any n p off).
Proof using Hok.
  revert off. induction n as [|n IH]; intros off Hoff; cbn; [apply returns_ret|].
  apply returns_if; intros; [apply returns_ret|]. apply returns_at; [bounds_lia|]. intros b.
  apply returns_if; intros.
  - apply returns_if; intros; [apply returns_ret|]. apply returns_num; [lia|bounds_lia|]. intros z Hz.
    apply returns_if; intros; [apply returns_ret|]. apply returns_text; [lia|bounds_lia|]. intros s.
    apply returns_bind; [apply IH; lia|]. intros. apply returns_ret.
  - apply returns_bind; [apply IH; lia|]. intros. apply returns_ret.
Qed.

Lemma returns_read_pos n off acc : 0 <= off -> returns (read_pos n p off acc).
Proof using Hok.
  revert off acc. induction n as [|n IH]; intros off acc Hoff; cbn; [apply returns_ret|].
  apply returns_if; intros; [apply returns_ret|]. apply returns_num; [lia|bounds_lia|]. intros z Hz. apply IH. lia.
Qed.

Lemma returns_read_err : returns (read_err p).
Proof using Hok.
  unfold read_err. apply returns_if; intros; [|apply returns_ret]. apply returns_num; [lia|bounds_lia|]. intros z Hz.
  apply returns_if; intros; [|apply returns_ret]. apply returns_text_end; [lia|bounds_lia].
Qed.

Lemma returns_read_str : 5 <= len p -> returns (read_str p).
Proof using Hok.
  intros Hl. unfold read_str. apply returns_num; [lia|bounds_lia|]. intros z Hz.
  apply returns_if; intros; [|apply returns_ret]. apply returns_text_end; bounds_lia.
Qed.

(** One step of a decoder. *)
Ltac ret_step :=
  cbv zeta;
  lazymatch goal with
  | |- returns (need _ _ _) => apply returns_need; intros
  | |- returns (Ret _) => apply returns_ret
  | |- returns (mret _) => apply returns_ret
  | |- returns (num _ _ _ ≫= _) => apply returns_num; [bounds_lia|bounds_lia|intros ? ?]
  | |- returns (text _ _ _ ≫= _) => apply returns_text; [bounds_lia|bounds_lia|intros ?]
  | |- returns (at_ _ _ ≫= _) => apply returns_at; [bounds_lia|intros ?]
  | |- returns (read_strict _ _ _ _ _ _ ≫= _) => apply returns_bind; [apply returns_read_strict; bounds_lia|intros [[? ?]|?]]
  | |- returns (read_lenient _ _ _ _ _ ≫= _) => apply returns_bind; [apply returns_read_lenient; lia|intros ?]
  | |- returns (read_map _ _ _ _ ≫= _) => apply returns_bind; [apply returns_read_map; lia|intros ?]
  | |- returns (read_any _ _ _ ≫= _) => apply returns_bind; [apply returns_read_any; lia|intros ?]
  | |- returns (read_pos _ _ _ _ ≫= _) => apply returns_bind; [apply returns_read_pos; lia|intros ?]
  | |- returns (read_err _ ≫= _) => apply returns_bind; [apply returns_read_err|intros ?]
  | |- returns (read_str _ ≫= _) => apply returns_bind; [apply returns_read_str; bounds_lia|intros ?]
  | |- returns (if _ then _ else _) => apply returns_if; intros
  end.

Lemma list_decoders_return cmd : returns (DecodeListRequest p) /\ returns (DecodeListResponse p cmd).
Proof using Hok. split; [unfold DecodeListRequest|unfold DecodeListResponse]; repeat ret_step. Qed.

Lemma hash_decoders_return `{FB : FloatBits float64} cmd :
  returns (DecodeHashRequest p) /\ returns (DecodeHashResponse p cmd).
Proof using Hok. split; [unfold DecodeHashRequest|unfold DecodeHashResponse]; repeat ret_step. Qed.

End Returns.

(** ** Round trips *)

(** Decides which case of a decoder a concrete command takes. *)
Ltac pick_case :=
  repeat match goal with
  | |- context [one_of ?l ?c] => let b := eval vm_compute in (one_of l c) in change (one_of l c) with b; cbv iota
  end.

Lemma need_pass {A} bad msg (k : outcome (result error A)) r : bad = false -> k = r -> need bad msg k = r.
Proof. by intros -> ->. Qed.

(** A length check that passes, a field, or a sequence of counted strings. *)
Ltac dec_step :=
  cbv zeta;
  lazymatch goal with
  | |- need (_ <? _) _ _ = _ => apply need_pass; [apply Z.ltb_ge; wire_lia|]
  | |- need (_ >? _) _ _ = _ => apply need_pass; [rewrite Z.gtb_ltb; apply Z.ltb_ge; wire_lia|]
  | |- (read_strict _ _ _ _ _ _ ≫= _) = _ =>
      eapply bind_ret;
        [rewrite !(assoc_L (++)), <-(assoc_L (++) _ (counted_all _ _)); apply read_strict_end; [done|wire_lia|wire_lia|done]|]
  | |- (read_lenient _ _ _ _ _ ≫= _) = _ =>
      eapply bind_ret;
        [rewrite !(assoc_L (++)), <-(assoc_L (++) _ (counted_all _ _)); apply read_lenient_end; [done|wire_lia|wire_lia|done]|]
  | |- (at_ (mkSlice _ (be 1 _ ++ _)) 0 ≫= _) = _ => rd_cmd
  | |- (_ ≫= _) = _ => rd
  end.

Definition list_cmds : list Z :=
  [CmdLPush; CmdRPush; CmdLPop; CmdRPop; CmdLLen; CmdLRange; CmdLIndex; CmdLSet; CmdLRem; CmdLTrim; CmdLInsert;
   CmdBLPop; CmdBRPop; CmdLPos].

Record wf_list_request (req : ListRequest) : Prop := {
  wl_cmd : lq_Cmd req ∈ list_cmds;
  wl_key : fits 2 (lq_Key req);
  wl_elems : Forall (fits 2) (lq_Elements req);
  wl_num : Z.of_nat (length (lq_Elements req)) < 2 ^ 32;
  wl_value : fits 4 (lq_Value req);
  wl_pivot : fits 2 (lq_Pivot req);
  wl_ints : Forall in_int64 [lq_Index req; lq_Start req; lq_Stop req; lq_Count req; lq_Timeout req; lq_Rank req; lq_MaxLen req];
}.

(** The fields a command uses. *)
Definition norm_list_request (req : ListRequest) : ListRequest :=
  let cmd := lq_Cmd req in let key := lq_Key req in let v := lq_Value req in
  if one_of [CmdLPop; CmdRPop; CmdLLen] cmd then mkListRequest cmd key [] "" 0 0 0 0 "" false 0 0 0
  else if one_of [CmdLPush; CmdRPush] cmd then mkListRequest cmd key (lq_Elements req) "" 0 0 0 0 "" false 0 0 0
  else if one_of [CmdLRange; CmdLTrim] cmd then
    mkListRequest cmd key [] "" 0 (lq_Start req) (lq_Stop req) 0 "" false 0 0 0
  else if one_of [CmdLIndex] cmd then mkListRequest cmd key [] "" (lq_Index req) 0 0 0 "" false 0 0 0
  else if one_of [CmdLSet] cmd then mkListRequest cmd key [] v (lq_Index req) 0 0 0 "" false 0 0 0
  else if one_of [CmdLRem] cmd then mkListRequest cmd key [] v 0 0 0 (lq_Count req) "" false 0 0 0
  else if one_of [CmdLInsert] cmd then mkListRequest cmd key [] v 0 0 0 0 (lq_Pivot req) (lq_Before req) 0 0 0
  else if one_of [CmdBLPop; CmdBRPop] cmd then mkListRequest cmd key [] "" 0 0 0 0 "" false (lq_Timeout req) 0 0
  else mkListRequest cmd key [] v 0 0 0 (lq_Count req) "" false 0 (lq_Rank req) (lq_MaxLen req).

Lemma list_request_decodes req bs st :
  wf_list_request req -> EncodeListRequest req = Some bs ->
  DecodeListRequest (payload bs st) ⇓ (Ok (norm_list_request req)).
Proof.
  intros [Hcmd Hkey Helems Hnum Hval Hpiv Hints]. destruct req as [cmd key elems value index start stop count pivot before timeout rank maxLen].
  cbn [lq_Cmd lq_Key lq_Elements lq_Value lq_Index lq_Start lq_Stop lq_Count lq_Pivot lq_Before lq_Timeout lq_Rank lq_MaxLen] in *.
  unfold fits, slen in Hkey, Hval, Hpiv. change (256 ^ Z.of_nat 2) with (2 ^ 16) in *. change (256 ^ Z.of_nat 4) with (2 ^ 32) in *.
  rewrite !Forall_cons in Hints. destruct Hints as (I1 & I2 & I3 & I4 & I5 & I6 & I7 & _).
  unfold EncodeListRequest, norm_list_request. cbn [lq_Cmd lq_Key lq_Elements lq_Value lq_Index lq_Start lq_Stop lq_Count lq_Pivot lq_Before lq_Timeout lq_Rank lq_MaxLen].
  unfold list_cmds in Hcmd. rewrite !elem_of_cons in Hcmd. unfold slen.
  repeat (destruct Hcmd as [->|Hcmd];
    [pick_case; intros [= <-]; unfold DecodeListRequest; open_payload n; dec_step; dec_step; dec_step; pick_case;
     repeat dec_step; rewrite ?string_of_list_byte_of_string, ?int64_be, ?byte_val_of by done; try done; by destruct before|]).
  by apply not_elem_of_nil in Hcmd.
Qed.

(** *** Hash requests *)

(** The bits of a float are 64, and give it back. *)
Class FloatBitsLaws (float64 : Type) `{FloatBits float64} := {
  bits_range f : 0 <= Float64bits f < 2 ^ 64;
  frombits_bits f : Float64frombits (Float64bits f) = f;
}.

Definition hash_cmds : list Z :=
  [CmdHSet; CmdHGet; CmdHDel; CmdHExists; CmdHGetAll; CmdHKeys; CmdHVals; CmdHLen; CmdHStrLen; CmdHIncrBy;
   CmdHIncrByFloat; CmdHMGet; CmdHMSet; CmdHSetNX].

Section Hash.
Context `{FL : FloatBitsLaws float64} `{MI : MapIter}.

Record wf_hash_request (req : HashRequest (float64 := float64)) : Prop := {
  wh_cmd : hq_Cmd req ∈ hash_cmds;
  wh_key : fits 2 (hq_Key req);
  wh_field : fits 2 (hq_Field req);
  wh_value : fits 4 (hq_Value req);
  wh_fields : Forall (fits 2) (hq_Fields req);
  wh_numFields : Z.of_nat (length (hq_Fields req)) < 2 ^ 16;
  wh_pairs : Forall (fits 2) (hq_FvPairs req);
  wh_numPairs : Z.of_nat (length (hq_FvPairs req)) < 2 ^ 16;
  wh_delta : in_int64 (hq_DeltaI64 req);
}.

Definition norm_hash_request (req : HashRequest (float64 := float64)) : HashRequest :=
  let cmd := hq_Cmd req in let key := hq_Key req in let f := hq_Field req in
  if one_of [CmdHGetAll; CmdHKeys; CmdHVals; CmdHLen] cmd then mkHashRequest cmd key "" "" [] [] 0 fzero
  else if one_of [CmdHGet; CmdHExists; CmdHStrLen] cmd then mkHashRequest cmd key f "" [] [] 0 fzero
  else if one_of [CmdHSet; CmdHSetNX] cmd then mkHashRequest cmd key f (hq_Value req) [] [] 0 fzero
  else if one_of [CmdHDel; CmdHMGet] cmd then mkHashRequest cmd key "" "" (hq_Fields req) [] 0 fzero
  else if one_of [CmdHIncrBy] cmd then mkHashRequest cmd key f "" [] [] (hq_DeltaI64 req) fzero
  else if one_of [CmdHIncrByFloat] cmd then mkHashRequest cmd key f "" [] [] 0 (hq_DeltaF64 req)
  else mkHashRequest cmd key "" "" [] (even_part (hq_FvPairs req)) 0 fzero.

Lemma length_even_part l : length (even_part l) = (2 * (length l / 2))%nat.
Proof. unfold even_part. rewrite length_take. pose proof (Nat.Div0.mul_div_le (length l) 2). lia. Qed.

Lemma even_count l : (2 * Z.to_nat (Z.of_nat (length l / 2)))%nat = Z.to_nat (Z.of_nat (length (even_part l))).
Proof. by rewrite !Nat2Z.id, length_even_part. Qed.

Lemma hash_request_decodes req bs st :
  wf_hash_request req -> EncodeHashRequest req = Some bs ->
  DecodeHashRequest (payload bs st) ⇓ (Ok (norm_hash_request req)).
Proof using FL.
  intros [Hcmd Hkey Hfield Hval Hfs Hnf Hps Hnp Hd]. destruct req as [cmd key field value fields pairs di df].
  cbn [hq_Cmd hq_Key hq_Field hq_Value hq_Fields hq_FvPairs hq_DeltaI64 hq_DeltaF64] in *.
  unfold fits, slen in Hkey, Hval, Hfield. change (256 ^ Z.of_nat 2) with (2 ^ 16) in *. change (256 ^ Z.of_nat 4) with (2 ^ 32) in *.
  pose proof (bits_range df) as Hbits.
  assert (Forall (fits 2) (even_part pairs)) as Hev by (by apply Forall_take).
  assert (Z.of_nat (length pairs / 2) < 2 ^ 16) as Hhalf by (pose proof (Nat.Div0.div_le_upper_bound (length pairs) 2 (length pairs)); lia).
  pose proof (even_count pairs) as Hec. unfold EncodeHashRequest, norm_hash_request.
  cbn [hq_Cmd hq_Key hq_Field hq_Value hq_Fields hq_FvPairs hq_DeltaI64 hq_DeltaF64].
  set (half := (length pairs / 2)%nat) in *. clearbody half.
  unfold hash_cmds in Hcmd. rewrite !elem_of_cons in Hcmd. unfold slen.
  repeat (destruct Hcmd as [->|Hcmd];
    [pick_case; intros [= <-]; unfold DecodeHashRequest; open_payload n; dec_step; dec_step; dec_step; pick_case;
     repeat (rewrite ?Hec; dec_step); rewrite ?string_of_list_byte_of_string, ?int64_be, ?frombits_bits by done; done|]).
  by apply not_elem_of_nil in Hcmd.
Qed.

End Hash.

(** ** Responses *)

(** *** The loops of the response decoders *)

Lemma read_pos_spec l pre st acc n off k :
  Forall in_int64 l -> n = (length pre + length (concat (be 8 <$> l)))%nat -> off = Z.of_nat (length pre) ->
  k = Z.of_nat (length l) ->
  read_pos (Z.to_nat k) (mkSlice n (pre ++ concat (be 8 <$> l) ++ st)) off acc ⇓ (acc ++ l).
Proof.
  intros Hl -> -> ->. rewrite Nat2Z.id. revert pre acc.
  induction l as [|z l IH]; intros pre acc; [cbn; by rewrite app_nil_r|].
  apply Forall_cons in Hl as [Hz Hl]. cbn [fmap list_fmap concat length read_pos]. rewrite length_app, length_be.
  change (len _) with (Z.of_nat (length pre + (8 + length (concat (be 8 <$> l))))).
  rewrite Z.gtb_ltb, (proj2 (Z.ltb_ge _ _)) by lia. rewrite <-!(assoc_L (++)).
  eapply bind_ret; [rewrite num_skip by lia; apply num_raw; lia|]. cbv beta. rewrite int64_be by done.
  replace (mkSlice _ _) with (mkSlice (length (pre ++ be 8 z) + length (concat (be 8 <$> l)))
    ((pre ++ be 8 z) ++ concat (be 8 <$> l) ++ st)).
  2:{ rewrite <-!(assoc_L (++)). f_equal. rewrite length_app, length_be. lia. }
  replace (Z.of_nat (length pre) + 8) with (Z.of_nat (length (pre ++ be 8 z))) by (rewrite length_app, length_be; lia).
  rewrite IH by done. by rewrite <-(assoc_L (++)).
Qed.

Definition any_fits (v : option string) : Prop := match v with Some s => fits 4 s | None => True end.

Lemma read_any_spec l pre st n off k :
  Forall any_fits l -> n = (length pre + length (concat (tagged <$> l)))%nat -> off = Z.of_nat (length pre) ->
  k = Z.of_nat (length l) ->
  read_any (Z.to_nat k) (mkSlice n (pre ++ concat (tagged <$> l) ++ st)) off ⇓ l.
Proof.
  intros Hl -> -> ->. rewrite Nat2Z.id. revert pre. induction l as [|v l IH]; intros pre; [done|].
  apply Forall_cons in Hl as [Hv Hl]. cbn [fmap list_fmap concat length read_any].
  set (n := (length pre + length (tagged v ++ concat (tagged <$> l)))%nat).
  assert (n = length (pre ++ tagged v) + length (concat (tagged <$> l)))%nat as Hn.
  { unfold n. rewrite !length_app. lia. }
  change (len _) with (Z.of_nat n).
  assert (mkSlice n (pre ++ (tagged v ++ concat (tagged <$> l)) ++ st) =
    mkSlice (length (pre ++ tagged v) + length (concat (tagged <$> l))) ((pre ++ tagged v) ++ concat (tagged <$> l) ++ st)) as Hsl.
  { rewrite Hn. f_equal. by rewrite <-!(assoc_L (++)). }
  specialize (IH Hl (pre ++ tagged v)). rewrite <-Hsl in IH. clearbody n. clear Hsl. rewrite length_app in Hn, IH.
  destruct v as [s|]; cbn [tagged any_fits] in *.
  - unfold fits, slen in Hv. rewrite length_app, length_be, length_counted in Hn, IH.
    rewrite Z.geb_leb, (proj2 (Z.leb_gt _ _)) by lia. unfold counted in *. rewrite <-!(assoc_L (++)) in *.
    eapply bind_ret; [rewrite at_skip by lia; apply at_here; lia|]. cbv beta zeta. rewrite byte_val_of.
    change (negb (1 mod 256 =? 0)) with true. cbv iota. rewrite Z.gtb_ltb, (proj2 (Z.ltb_ge _ _)) by lia.
    eapply bind_ret; [rewrite num_skip, num_skip by wire_lia; apply num_here; [wire_lia|unfold slen; wire_lia]|]. cbv beta.
    unfold slen. rewrite Z.gtb_ltb, (proj2 (Z.ltb_ge _ _)) by lia.
    eapply bind_ret; [rewrite text_skip, text_skip, text_skip by wire_lia; apply text_here; wire_lia|]. cbv beta.
    rewrite string_of_list_byte_of_string. eapply bind_ret; [|done]. etransitivity; [|exact IH]. f_equal. lia.
  - rewrite length_be in Hn, IH. rewrite Z.geb_leb, (proj2 (Z.leb_gt _ _)) by lia. rewrite <-!(assoc_L (++)) in *.
    eapply bind_ret; [rewrite at_skip by lia; apply at_here; lia|]. cbv beta zeta. rewrite byte_val_of.
    change (negb (0 mod 256 =? 0)) with false. cbv iota. eapply bind_ret; [|done]. etransitivity; [|exact IH]. f_equal. lia.
Qed.

Definition pair_bytes (kv : string * string) : bytes := counted 2 kv.1 ++ counted 4 kv.2.
Definition pair_fits (kv : string * string) : Prop := fits 2 kv.1 /\ fits 4 kv.2.
Definition insert_all (l : list (string * string)) (m : gmap string string) : gmap string string :=
  foldl (fun m kv => <[kv.1 := kv.2]> m) m l.

Lemma read_map_spec l pre st m n off k :
  Forall pair_fits l -> n = (length pre + length (concat (pair_bytes <$> l)))%nat -> off = Z.of_nat (length pre) ->
  k = Z.of_nat (length l) ->
  read_map (Z.to_nat k) (mkSlice n (pre ++ concat (pair_bytes <$> l) ++ st)) off m ⇓ (insert_all l m).
Proof.
  intros Hl -> -> ->. rewrite Nat2Z.id. revert pre m. induction l as [|[f v] l IH]; intros pre m; [done|].
  apply Forall_cons in Hl as [[Hf Hv] Hl]. cbn [fmap list_fmap concat length read_map insert_all foldl fst snd] in *.
  set (rest := concat (pair_bytes <$> l)) in *. unfold pair_bytes, counted, slen in *. cbn [fst snd] in *.
  clearbody rest. unfold fits, slen in Hf, Hv.
  set (kf := bytes_of f) in *. set (kv := bytes_of v) in *.
  set (item := (be 2 (Z.of_nat (length kf)) ++ kf) ++ be 4 (Z.of_nat (length kv)) ++ kv) in *.
  assert (length item = 6 + length kf + length kv)%nat as Hi by (unfold item; rewrite !length_app, !length_be; lia).
  specialize (IH Hl (pre ++ item) (<[f := v]> m)). rewrite !length_app, !Hi in *. change (len _) with (Z.of_nat (length pre + (6 + length kf + length kv + length rest))).
  rewrite Z.gtb_ltb, (proj2 (Z.ltb_ge _ _)) by lia.
  replace (length pre + (6 + length kf + length kv) + length rest)%nat with (length pre + (6 + length kf + length kv + length rest))%nat in IH by lia.
  set (n := (length pre + _)%nat) in *. unfold item in *. rewrite <-!(assoc_L (++)) in *.
  eapply bind_ret; [rewrite num_skip by lia; apply num_here; [lia|done || lia]|]. cbv beta zeta.
  rewrite Z.gtb_ltb, (proj2 (Z.ltb_ge _ _)) by lia.
  eapply bind_ret; [rewrite text_skip, text_skip by wire_lia; apply text_here; wire_lia|]. cbv beta.
  rewrite Z.gtb_ltb, (proj2 (Z.ltb_ge _ _)) by lia.
  eapply bind_ret; [rewrite num_skip, num_skip, num_skip by wire_lia; apply num_here; wire_lia|]. cbv beta.
  rewrite Z.gtb_ltb, (proj2 (Z.ltb_ge _ _)) by lia.
  eapply bind_ret; [rewrite text_skip, text_skip, text_skip, text_skip by wire_lia; apply text_here; wire_lia|]. cbv beta.
  unfold kf, kv. rewrite !string_of_list_byte_of_string. etransitivity; [|exact IH]. f_equal. unfold kf, kv. lia.
Qed.

Lemma insert_all_lookup l m k :
  NoDup l.*1 -> insert_all l m !! k = (list_to_map l : gmap string string) !! k ∪ m !! k.
Proof.
  revert m. induction l as [|[f v] l IH]; intros m Hnd; cbn.
  { by rewrite lookup_empty, (left_id_L None (∪)). }
  cbn in Hnd. apply NoDup_cons in Hnd as [Hf Hnd]. change (foldl _ _ l) with (insert_all l (<[f := v]> m)).
  rewrite IH by done. rewrite !lookup_insert. case_decide as Hd; [|done]. subst k.
  rewrite (proj1 (not_elem_of_list_to_map _ _) Hf). by destruct (m !! f).
Qed.

Lemma insert_all_iter `{MI : MapIter} (m : gmap string string) : insert_all (map_iter m) ∅ = m.
Proof.
  apply map_eq. intros k. rewrite insert_all_lookup by mcache_auto.
  by rewrite list_to_map_map_iter, lookup_empty, (right_id_L None (∪)).
Qed.

(** The messages and strings of responses. *)
Lemma read_err_counted b e st : fits 2 e -> read_err (payload (be 1 b ++ counted 2 e) st) ⇓ e.
Proof.
  intros He. unfold fits, slen in He. unfold read_err, counted, slen. open_payload n.
  rewrite Z.geb_leb, (proj2 (Z.leb_le _ _)) by wire_lia. rd. rewrite Z.geb_leb, (proj2 (Z.leb_le _ _)) by wire_lia.
  rewrite text_skip, text_skip by wire_lia. rewrite text_here by wire_lia. by rewrite string_of_list_byte_of_string.
Qed.

Lemma read_str_counted b s st : fits 4 s -> read_str (payload (be 1 b ++ counted 4 s) st) ⇓ s.
Proof.
  intros Hs. unfold fits, slen in Hs. unfold read_str, counted, slen. open_payload n. rd.
  destruct (Z.gtb_spec (Z.of_nat (length (bytes_of s))) 0).
  - rewrite Z.geb_leb, (proj2 (Z.leb_le _ _)) by wire_lia. cbn [andb].
    rewrite text_skip, text_skip by wire_lia. rewrite text_here by wire_lia. by rewrite string_of_list_byte_of_string.
  - cbn [andb]. destruct s; [done|]. cbn in *. lia.
Qed.

(** *** List responses *)

Record wf_list_response (resp : ListResponse) : Prop := {
  wlp_cmd : lp_Cmd resp ∈ list_cmds;
  wlp_status : 0 <= lp_Status resp < 256;
  wlp_int : in_int64 (lp_Int resp);
  wlp_str : fits 4 (lp_Str resp);
  wlp_slice : Forall (fits 2) (lp_Slice resp);
  wlp_numSlice : Z.of_nat (length (lp_Slice resp)) < 2 ^ 32;
  wlp_pos : Forall in_int64 (lp_Pos resp);
  wlp_numPos : Z.of_nat (length (lp_Pos resp)) < 2 ^ 32;
  wlp_err : fits 2 (lp_ErrMsg resp);
}.

Definition norm_list_response (resp : ListResponse) : ListResponse :=
  let cmd := lp_Cmd resp in let st := lp_Status resp in
  if st =? StatusErr then mkListResponse cmd st 0 false "" [] [] (lp_ErrMsg resp)
  else if one_of list_int_cmds cmd then mkListResponse cmd st (lp_Int resp) false "" [] [] ""
  else if one_of list_str_cmds cmd then mkListResponse cmd st 0 false (lp_Str resp) [] [] ""
  else if one_of [CmdLRange] cmd then mkListResponse cmd st 0 false "" (lp_Slice resp) [] ""
  else if one_of [CmdLSet] cmd then mkListResponse cmd st 0 (lp_Bool resp) "" [] [] ""
  else if one_of [CmdLPos] cmd then mkListResponse cmd st 0 false "" [] (lp_Pos resp) ""
  else mkListResponse cmd st 0 false "" [] [] "".

(** The first byte of a response, and its length. *)
Lemma status_here z q st : 0 <= z < 256 -> exists b, at_ (payload (be 1 z ++ q) st) 0 ⇓ b /\ byte_val b = z.
Proof.
  intros Hz. unfold payload. rewrite <-(assoc_L (++)). apply at_first; [|done]. rewrite length_app, length_be. lia.
Qed.

Lemma len_payload bs st : len (payload bs st) = Z.of_nat (length bs).
Proof. done. Qed.

(** A response that is a status and nothing else. *)
Ltac lone_status :=
  try match goal with |- context [payload (be 1 ?z) _] => rewrite <-(app_nil_r (be 1 z)) end.

(** Reads the status of a response and picks the command's case. *)
Ltac resp_open Hst Hne :=
  apply need_pass; [apply Z.ltb_ge; rewrite len_payload; wire_lia|];
  lazymatch goal with
  | |- (at_ (payload (be 1 ?z ++ ?q) ?st) 0 ≫= _) = _ =>
      let b := fresh "b" in let Hb := fresh "Hb" in destruct (status_here z q st Hst) as (b & -> & Hb);
      cbn [mbind outcome_bind]; cbv zeta; rewrite Hb, ?Hne; pick_case
  end.

(** The sequences at the end of a response. *)
Ltac seq_step lem X :=
  eapply bind_ret;
    [rewrite !(assoc_L (++)), <-(assoc_L (++) _ X); apply lem; [done|wire_lia|wire_lia|wire_lia]|].
Ltac resp_step :=
  cbv zeta;
  lazymatch goal with
  | |- (read_pos _ (mkSlice _ (_ ++ _ ++ ?X ++ _)) _ _ ≫= _) = _ => seq_step read_pos_spec X
  | |- (read_any _ (mkSlice _ (_ ++ _ ++ ?X ++ _)) _ ≫= _) = _ => seq_step read_any_spec X
  | |- (read_map _ (mkSlice _ (_ ++ _ ++ ?X ++ _)) _ _ ≫= _) = _ => seq_step read_map_spec X
  | |- _ => dec_step
  end.

(** The rest of a response, by the shape of its case. *)
Ltac resp_rest :=
  lazymatch goal with
  | |- Ret _ = _ => done
  | |- need _ _ (read_str _ ≫= _) = _ =>
      apply need_pass; [apply Z.ltb_ge; rewrite len_payload; wire_lia|];
      eapply bind_ret; [by apply read_str_counted|done]
  | |- need _ _ _ = _ =>
      let n := fresh "n" in open_payload n; repeat resp_step;
      rewrite ?int64_be, ?byte_val_of by done; try done
  end.

Lemma list_response_decodes resp bs st :
  wf_list_response resp -> EncodeListResponse resp = Some bs ->
  DecodeListResponse (payload bs st) (lp_Cmd resp) ⇓ (Ok (norm_list_response resp)).
Proof.
  intros [Hcmd Hst Hint Hstr Hsl Hns Hpos Hnp Herr]. destruct resp as [cmd status i b s l ps e].
  cbn [lp_Cmd lp_Status lp_Int lp_Bool lp_Str lp_Slice lp_Pos lp_ErrMsg] in *.
  unfold EncodeListResponse, norm_list_response, flag. cbn [lp_Cmd lp_Status lp_Int lp_Bool lp_Str lp_Slice lp_Pos lp_ErrMsg].
  destruct (Z.eqb_spec status StatusErr) as [->|Hne]; intros Hbs.
  - injection Hbs as <-. unfold DecodeListResponse. resp_open Hst Hst. eapply bind_ret; [by apply read_err_counted|done].
  - apply Z.eqb_neq in Hne. unfold list_cmds in Hcmd. rewrite !elem_of_cons in Hcmd. revert Hbs.
    repeat (destruct Hcmd as [->|Hcmd]; [pick_case; intros [= <-]; unfold DecodeListResponse; lone_status; resp_open Hst Hne; resp_rest; try by destruct b|]).
    by apply not_elem_of_nil in Hcmd.
Qed.

(** *** Hash responses *)

Section HashResponses.
Context `{FL : FloatBitsLaws float64} `{MI : MapIter}.

Record wf_hash_response (resp : HashResponse (float64 := float64)) : Prop := {
  whp_cmd : hp_Cmd resp ∈ hash_cmds;
  whp_status : 0 <= hp_Status resp < 256;
  whp_int : in_int64 (hp_Int resp);
  whp_str : fits 4 (hp_Str resp);
  whp_map : Forall pair_fits (map_iter (default ∅ (hp_Map resp)));
  whp_size : Z.of_nat (size (default ∅ (hp_Map resp))) < 2 ^ 32;
  whp_slice : Forall (fits 2) (hp_Slice resp);
  whp_numSlice : Z.of_nat (length (hp_Slice resp)) < 2 ^ 32;
  whp_any : Forall any_fits (hp_Any resp);
  whp_numAny : Z.of_nat (length (hp_Any resp)) < 2 ^ 32;
  whp_err : fits 2 (hp_ErrMsg resp);
}.

Definition norm_hash_response (resp : HashResponse (float64 := float64)) : HashResponse :=
  let cmd := hp_Cmd resp in let st := hp_Status resp in
  let r i b s m l a f e := mkHashResponse cmd st i b s m l a f e in
  if st =? StatusErr then r 0 false ""%string None [] [] fzero (hp_ErrMsg resp)
  else if one_of int_cmds cmd then r (hp_Int resp) false ""%string None [] [] fzero ""%string
  else if one_of [CmdHExists; CmdHSetNX] cmd then r 0 (hp_Bool resp) ""%string None [] [] fzero ""%string
  else if one_of [CmdHGet] cmd then r 0 false (hp_Str resp) None [] [] fzero ""%string
  else if one_of [CmdHGetAll] cmd then r 0 false ""%string (Some (default ∅ (hp_Map resp))) [] [] fzero ""%string
  else if one_of [CmdHKeys; CmdHVals] cmd then r 0 false ""%string None (hp_Slice resp) [] fzero ""%string
  else if one_of [CmdHIncrByFloat] cmd then r 0 false ""%string None [] [] (hp_Float resp) ""%string
  else if one_of [CmdHMGet] cmd then r 0 false ""%string None [] (hp_Any resp) fzero ""%string
  else r 0 false ""%string None [] [] fzero ""%string.

Lemma pairs_concat (l : list (string * string)) :
  concat ((fun '(k, v) => counted 2 k ++ counted 4 v) <$> l) = concat (pair_bytes <$> l).
Proof. f_equal. apply list_fmap_ext. by intros _ [k v] _. Qed.

Lemma hash_response_decodes resp bs st :
  wf_hash_response resp -> EncodeHashResponse resp = Some bs ->
  DecodeHashResponse (payload bs st) (hp_Cmd resp) ⇓ (Ok (norm_hash_response resp)).
Proof using FL.
  intros [Hcmd Hst Hint Hstr Hmap Hsize Hsl Hns Hany Hna Herr]. destruct resp as [cmd status i b s m l a f e].
  cbn [hp_Cmd hp_Status hp_Int hp_Bool hp_Str hp_Map hp_Slice hp_Any hp_Float hp_ErrMsg] in *.
  unfold EncodeHashResponse, norm_hash_response, flag.
  cbn [hp_Cmd hp_Status hp_Int hp_Bool hp_Str hp_Map hp_Slice hp_Any hp_Float hp_ErrMsg].
  set (mm := default ∅ m) in *. clearbody mm. pose proof (bits_range f) as Hbits.
  rewrite pairs_concat. pose proof (length_map_iter mm) as Hlm. rewrite <-Hlm in *.
  destruct (Z.eqb_spec status StatusErr) as [->|Hne]; intros Hbs.
  - injection Hbs as <-. unfold DecodeHashResponse. resp_open Hst Hst. eapply bind_ret; [by apply read_err_counted|done].
  - apply Z.eqb_neq in Hne. unfold hash_cmds in Hcmd. rewrite !elem_of_cons in Hcmd. revert Hbs.
    repeat (destruct Hcmd as [->|Hcmd]; [pick_case; intros [= <-]; unfold DecodeHashResponse; lone_status;
      resp_open Hst Hne; resp_rest; rewrite ?frombits_bits, ?insert_all_iter; try done; try by destruct b|]).
    by apply not_elem_of_nil in Hcmd.
Qed.

(** ** Properties *)

(** No payload, hostile or truncated, in a buffer of any capacity
    crashes the decoders of hash and list requests and responses: each returns a
    request, a response or an error. *)
Theorem hash_list_decoders_return p cmd :
  slice_ok p ->
  (exists r, DecodeHashRequest (float64 := float64) p ⇓ r) /\ (exists r, DecodeListRequest p ⇓ r) /\
  (exists r, DecodeHashResponse (float64 := float64) p cmd ⇓ r) /\ (exists r, DecodeListResponse p cmd ⇓ r).
Proof.
  intros Hok. pose proof (hash_decoders_return p Hok (float64 := float64) cmd) as [H1 H2].
  pose proof (list_decoders_return p Hok cmd) as [H3 H4]. by split_and!.
Qed.

(** Hash requests and responses survive the wire, for every
    command, in any order of map iteration: the decoder gives back the fields the
    encoder wrote, less an unpaired last element of HMSet. *)
Theorem hash_wire_roundtrip req resp bs bs' st :
  wf_hash_request req -> EncodeHashRequest req = Some bs ->
  wf_hash_response resp -> EncodeHashResponse resp = Some bs' ->
  DecodeHashRequest (payload bs st) ⇓ (Ok (norm_hash_request req)) /\
  DecodeHashResponse (payload bs' st) (hp_Cmd resp) ⇓ (Ok (norm_hash_response resp)).
Proof using FL. intros. split; [by apply hash_request_decodes|by apply hash_response_decodes]. Qed.

End HashResponses.

(** List requests and responses survive the wire, for every command. *)
Theorem list_wire_roundtrip req resp bs bs' st :
  wf_list_request req -> EncodeListRequest req = Some bs ->
  wf_list_response resp -> EncodeListResponse resp = Some bs' ->
  DecodeListRequest (payload bs st) ⇓ (Ok (norm_list_request req)) /\
  DecodeListResponse (payload bs' st) (lp_Cmd resp) ⇓ (Ok (norm_list_response resp)).
Proof. intros. split; [by apply list_request_decodes|by apply list_response_decodes]. Qed.

(** ** The properties at concrete inputs *)

(** Floats as their bit patterns. *)
Definition pattern : Type := { z : Z | bool_decide (0 <= z < 2 ^ 64) = true }.

Lemma pattern_mod z : bool_decide (0 <= z mod 2 ^ 64 < 2 ^ 64) = true.
Proof. apply bool_decide_eq_true. apply Z.mod_pos_bound. lia. Qed.

Definition to_pattern (z : Z) : pattern := exist _ (z mod 2 ^ 64) (pattern_mod z).

#[local] Instance pattern_bits : FloatBits pattern :=
  {| fzero := to_pattern 0; Float64bits := fun f => proj1_sig f; Float64frombits := to_pattern |}.

#[local] Instance pattern_laws : FloatBitsLaws pattern.
Proof.
  split.
  - intros [z Hz]. cbn. by apply bool_decide_eq_true in Hz.
  - intros [z Hz]. apply (sig_eq_pi _). cbn. apply bool_decide_eq_true in Hz. by apply Z.mod_small.
Defined.

#[local] Existing Instance trie_order.

Definition demo_hash_request : HashRequest (float64 := pattern) :=
  mkHashRequest CmdHMSet "k" "" "" [] ["f"; "v"; "odd"] 0 fzero.
Definition demo_hash_response : HashResponse (float64 := pattern) :=
  mkHashResponse CmdHGetAll 0 0 false "" (Some {[ "f"%string := "v"%string ]}) [] [] fzero "".

Lemma hash_list_decoders_return_witness :
  exists r, DecodeHashRequest (float64 := pattern) (payload [x20; xff; xff] []) ⇓ r.
Proof. apply (hash_list_decoders_return (float64 := pattern) _ 0 (payload_ok [x20; xff; xff] [])). Defined.

Lemma hash_wire_roundtrip_witness :
  DecodeHashRequest (payload (default [] (EncodeHashRequest demo_hash_request)) [x2a]) =
    Ret (Ok (norm_hash_request demo_hash_request)) /\
  DecodeHashResponse (payload (default [] (EncodeHashResponse demo_hash_response)) [x2a]) CmdHGetAll =
    Ret (Ok (norm_hash_response demo_hash_response)).
Proof.
  apply (hash_wire_roundtrip demo_hash_request demo_hash_response); [|reflexivity| |reflexivity].
  - split; cbn; [unfold hash_cmds; rewrite !elem_of_cons; tauto|done|done|done|repeat constructor|done|repeat constructor|done|done].
  - split; [unfold hash_cmds; rewrite !elem_of_cons; tauto| | | |repeat constructor| |repeat constructor| |repeat constructor| |];
      repeat split; discriminate || reflexivity.
Defined.

Lemma list_wire_roundtrip_witness :
  DecodeListRequest (payload (default [] (EncodeListRequest
      (mkListRequest CmdLInsert "k" [] "v" 0 0 0 0 "p" true 0 0 0))) [x2a]) =
    Ret (Ok (mkListRequest CmdLInsert "k" [] "v" 0 0 0 0 "p" true 0 0 0)) /\
  DecodeListResponse (payload (default [] (EncodeListResponse (mkListResponse CmdLPos 0 0 false "" [] [3; -1] ""))) [x2a]) CmdLPos =
    Ret (Ok (mkListResponse CmdLPos 0 0 false "" [] [3; -1] "")).
Proof.
  apply (list_wire_roundtrip (mkListRequest CmdLInsert "k" [] "v" 0 0 0 0 "p" true 0 0 0)
    (mkListResponse CmdLPos 0 0 false "" [] [3; -1] "")); [|reflexivity| |reflexivity].
  - split; cbn; [unfold list_cmds; rewrite !elem_of_cons; tauto|done|repeat constructor|done|done|done|].
    repeat constructor; discriminate.
  - split; cbn; [unfold list_cmds; rewrite !elem_of_cons; tauto|done|done|done|repeat constructor|done| |done|done].
    repeat constructor; discriminate.
Defined.
