(* ===== verification/Raft.v ===== *)
(** * The Raft node (raft/raft.go, raft/log.go, raft/rpc.go)

    The state of one node and its handlers, each a function that returns the new
    state and the messages it sends.  Terms and indices are natural numbers: they
    start at 0 and grow by one, so the 64-bit counters of the code do not wrap.
    Timers are the flags that say whether they are running; a node's event loop
    takes one event at a time.  [applied] is what was sent on the apply channel. *)

From stdpp Require Import base tactics numbers list gmap sets fin_maps.
From S2P Require Import Prelude.

(** ** The log *)

Record LogEntry : Type := mkLogEntry { Index : nat; Term : nat; Command : bytes }.

(** The entry at position 0 is a dummy. *)
Notation Log := (list LogEntry).

Definition NewLog : Log := [mkLogEntry 0 0 []].

Definition Append (entries : list LogEntry) (l : Log) : Log := l ++ entries.

Definition Get (index : nat) (l : Log) : option LogEntry :=
  if (index =? 0)%nat || (length l <=? index)%nat then None else l !! index.

Definition Last (l : Log) : nat * nat :=
  match last l with Some e => (Index e, Term e) | None => (0, 0)%nat end.

Definition Len (l : Log) : Z := Z.of_nat (length l) - 1.

Definition Truncate (from : nat) (l : Log) : Log := if (from <? length l)%nat then take from l else l.

Definition Slice (start end_ : nat) (l : Log) : list LogEntry :=
  let start := if (start <? 1)%nat then 1%nat else start in
  let end_ := if (length l <? end_)%nat then length l else end_ in
  if (end_ <=? start)%nat then [] else take (end_ - start) (drop start l).

(** ** Messages *)

Record AppendEntriesRequest : Type := mkAE {
  ae_Term : nat;
  ae_LeaderID : nat;
  ae_PrevLogIndex : nat;
  ae_PrevLogTerm : nat;
  ae_Entries : list LogEntry;
  ae_LeaderCommit : nat;
}.

Record AppendEntriesResponse : Type := mkAER { aer_Term : nat; aer_Success : bool; aer_LastIndex : nat }.

Record RequestVoteRequest : Type := mkRV {
  rv_Term : nat;
  rv_CandidateID : nat;
  rv_LastLogIndex : nat;
  rv_LastLogTerm : nat;
}.

Record RequestVoteResponse : Type := mkRVR { rvr_Term : nat; rvr_VoteGranted : bool }.

Inductive body : Type :=
| AE (req : AppendEntriesRequest)
| AER (resp : AppendEntriesResponse)
| RV (req : RequestVoteRequest)
| RVR (resp : RequestVoteResponse).

(** A message on its way. *)
Record message : Type := mkMsg { from : nat; to : nat; content : body }.

(** ** The node *)

Inductive State : Type := Follower | Candidate | Leader.

#[global] Instance State_eq_dec : EqDecision State.
Proof. solve_decision. Defined.

(** [Peers] is the length of the address list; the peers are numbered from 1.  Terms and indices are unsigned 64-bit numbers in the
    code; they grow by one, and their wrap-around is left out. *)
Record Raft : Type := mkRaft {
  NodeID : nat;
  Peers : nat;
  currentTerm : nat;
  votedFor : nat;
  log : Log;
  commitIndex : nat;
  lastApplied : nat;
  state : State;
  leaderID : nat;
  nextIndex : gmap nat nat;
  matchIndex : gmap nat nat;
  electionTimer : bool;
  heartbeatTimer : bool;
  votesReceived : nat;
  votesNeeded : nat;
  applied : list (nat * bytes);
}.

Definition NewRaft (nodeID peers : nat) : Raft :=
  mkRaft nodeID peers 0 0 NewLog 0 0 Follower 0 ∅ ∅ true false 0 0 [].

(** Changes of single fields. *)
Definition set_log (l : Log) (r : Raft) : Raft :=
  mkRaft (NodeID r) (Peers r) (currentTerm r) (votedFor r) l (commitIndex r) (lastApplied r) (state r) (leaderID r)
    (nextIndex r) (matchIndex r) (electionTimer r) (heartbeatTimer r) (votesReceived r) (votesNeeded r) (applied r).
Definition set_commit (i : nat) (r : Raft) : Raft :=
  mkRaft (NodeID r) (Peers r) (currentTerm r) (votedFor r) (log r) i (lastApplied r) (state r) (leaderID r)
    (nextIndex r) (matchIndex r) (electionTimer r) (heartbeatTimer r) (votesReceived r) (votesNeeded r) (applied r).
Definition set_applied (i : nat) (l : list (nat * bytes)) (r : Raft) : Raft :=
  mkRaft (NodeID r) (Peers r) (currentTerm r) (votedFor r) (log r) (commitIndex r) i (state r) (leaderID r)
    (nextIndex r) (matchIndex r) (electionTimer r) (heartbeatTimer r) (votesReceived r) (votesNeeded r) l.
Definition set_role (s : State) (leader : nat) (r : Raft) : Raft :=
  mkRaft (NodeID r) (Peers r) (currentTerm r) (votedFor r) (log r) (commitIndex r) (lastApplied r) s leader
    (nextIndex r) (matchIndex r) (electionTimer r) (heartbeatTimer r) (votesReceived r) (votesNeeded r) (applied r).
Definition set_term (t v : nat) (r : Raft) : Raft :=
  mkRaft (NodeID r) (Peers r) t v (log r) (commitIndex r) (lastApplied r) (state r) (leaderID r)
    (nextIndex r) (matchIndex r) (electionTimer r) (heartbeatTimer r) (votesReceived r) (votesNeeded r) (applied r).
Definition set_indices (next match_ : gmap nat nat) (r : Raft) : Raft :=
  mkRaft (NodeID r) (Peers r) (currentTerm r) (votedFor r) (log r) (commitIndex r) (lastApplied r) (state r) (leaderID r)
    next match_ (electionTimer r) (heartbeatTimer r) (votesReceived r) (votesNeeded r) (applied r).
Definition set_timers (election heartbeat : bool) (r : Raft) : Raft :=
  mkRaft (NodeID r) (Peers r) (currentTerm r) (votedFor r) (log r) (commitIndex r) (lastApplied r) (state r) (leaderID r)
    (nextIndex r) (matchIndex r) election heartbeat (votesReceived r) (votesNeeded r) (applied r).
Definition set_votes (received needed : nat) (r : Raft) : Raft :=
  mkRaft (NodeID r) (Peers r) (currentTerm r) (votedFor r) (log r) (commitIndex r) (lastApplied r) (state r) (leaderID r)
    (nextIndex r) (matchIndex r) (electionTimer r) (heartbeatTimer r) received needed (applied r).

Definition resetElectionTimer (r : Raft) : Raft := set_timers true (heartbeatTimer r) r.

(** [for i := range r.config.Peers { pid := uint64(i) + 1; if pid == r.config.NodeID { continue } ... }]. *)
Definition other_peers (r : Raft) : list nat := filter (fun pid => pid <> NodeID r) (seq 1 (Peers r)).

(** ** Roles *)

Definition becomeFollower (term : nat) (r : Raft) : Raft :=
  let r := if (currentTerm r <? term)%nat then set_term term 0 r else r in
  let r := resetElectionTimer (set_role Follower 0 r) in
  set_timers (electionTimer r) false r.

Definition becomeCandidate (r : Raft) : Raft :=
  let r := set_role Candidate (leaderID r) r in
  let r := set_term (S (currentTerm r)) (NodeID r) r in
  resetElectionTimer (set_votes 1 (Peers r / 2 + 1) r).

Definition becomeLeader (r : Raft) : Raft :=
  let r := set_role Leader (NodeID r) r in
  let '(lastIdx, _) := Last (log r) in
  let next := foldl (fun m pid => <[pid := S lastIdx]> m) ∅ (other_peers r) in
  let match_ := foldl (fun m pid => <[pid := 0%nat]> m) ∅ (other_peers r) in
  set_timers false true (set_indices next match_ r).

(** ** Commit and apply *)

(** The loop of [applyCommitted]; [fuel] is the number of its passes. *)
Fixpoint apply_loop (fuel : nat) (r : Raft) : Raft :=
  match fuel with
  | O => r
  | S fuel =>
      if (lastApplied r <? commitIndex r)%nat then
        let i := S (lastApplied r) in
        let l := match Get i (log r) with
                 | Some ent => applied r ++ [(Index ent, Command ent)]
                 | None => applied r
                 end in
        apply_loop fuel (set_applied i l r)
      else r
  end.

Definition applyCommitted (r : Raft) : Raft := apply_loop (commitIndex r - lastApplied r) r.

(** The loop of [advanceCommitIndex] from index [n] on; it ends at the end of the log at the latest. *)
Fixpoint commit_loop (fuel n : nat) (r : Raft) : Raft :=
  match fuel with
  | O => r
  | S fuel =>
      match Get n (log r) with
      | None => r
      | Some ent =>
          if decide (Term ent <> currentTerm r) then commit_loop fuel (S n) r
          else
            let count := S (size (filter (fun kv => (n <= kv.2)%nat) (matchIndex r))) in
            if (Peers r / 2 <? count)%nat then commit_loop fuel (S n) (set_commit n r) else r
      end
  end.

Definition advanceCommitIndex (r : Raft) : Raft :=
  if decide (state r <> Leader) then r
  else applyCommitted (commit_loop (length (log r)) (S (commitIndex r)) r).

(** ** Replication *)

Definition sendAppendEntriesTo (peer : nat) (r : Raft) : list message :=
  match nextIndex r !! peer with
  | None => []
  | Some next =>
      let prevIdx := (next - 1)%nat in
      let prevTerm :=
        if (0 <? prevIdx)%nat then match Get prevIdx (log r) with Some ent => Term ent | None => 0%nat end else 0%nat in
      [mkMsg (NodeID r) peer
         (AE (mkAE (currentTerm r) (NodeID r) prevIdx prevTerm (Slice next (next + 100) (log r)) (commitIndex r)))]
  end.

Definition broadcastAppendEntries (r : Raft) : list message :=
  concat ((fun peer => sendAppendEntriesTo peer r) <$> other_peers r).

Definition broadcastRequestVote (r : Raft) : list message :=
  let '(lastIdx, lastTerm) := Last (log r) in
  (fun peer => mkMsg (NodeID r) peer (RV (mkRV (currentTerm r) (NodeID r) lastIdx lastTerm))) <$> other_peers r.

(** ** Handlers *)

(** The deferred responses, sent when the handler returns with the term it then has. *)
Definition ae_respond (sender : nat) (req : AppendEntriesRequest) (success : bool) (r : Raft) : Raft * list message :=
  (r, [mkMsg (NodeID r) sender (AER (mkAER (currentTerm r) success
         (if success then ae_PrevLogIndex req + length (ae_Entries req) else 0)%nat))]).
Definition rv_respond (sender : nat) (granted : bool) (r : Raft) : Raft * list message :=
  (r, [mkMsg (NodeID r) sender (RVR (mkRVR (currentTerm r) granted))]).

Definition handleAppendEntries (sender : nat) (req : AppendEntriesRequest) (r : Raft) : Raft * list message :=
  let respond := ae_respond sender req in
  if (ae_Term req <? currentTerm r)%nat then respond false r
  else
    let r := if (currentTerm r <? ae_Term req)%nat then becomeFollower (ae_Term req) r else r in
    let r := set_role Follower (ae_LeaderID req) (resetElectionTimer r) in
    let consistent :=
      if (0 <? ae_PrevLogIndex req)%nat then
        match Get (ae_PrevLogIndex req) (log r) with
        | Some entry => bool_decide (Term entry = ae_PrevLogTerm req)
        | None => false
        end
      else true in
    if negb consistent then respond false r
    else
      let r := match ae_Entries req with
               | [] => r
               | entries => set_log (Append entries (Truncate (S (ae_PrevLogIndex req)) (log r))) r
               end in
      let r := if (commitIndex r <? ae_LeaderCommit req)%nat then
                 let '(lastIdx, _) := Last (log r) in
                 applyCommitted (set_commit (Nat.min (ae_LeaderCommit req) lastIdx) r)
               else r in
      respond true r.

Definition handleAppendEntriesResponse (sender : nat) (resp : AppendEntriesResponse) (r : Raft) : Raft * list message :=
  if (currentTerm r <? aer_Term resp)%nat then (becomeFollower (aer_Term resp) r, [])
  else if (aer_Term resp <? currentTerm r)%nat || bool_decide (state r <> Leader) then (r, [])
  else if aer_Success resp then
    let r := if (default 0 (matchIndex r !! sender) <? aer_LastIndex resp)%nat
             then set_indices (<[sender := S (aer_LastIndex resp)]> (nextIndex r))
                    (<[sender := aer_LastIndex resp]> (matchIndex r)) r
             else r in
    (advanceCommitIndex r, [])
  else
    let r := if (1 <? default 0 (nextIndex r !! sender))%nat
             then set_indices (<[sender := (default 0 (nextIndex r !! sender) - 1)%nat]> (nextIndex r)) (matchIndex r) r
             else r in
    (r, sendAppendEntriesTo sender r).

Definition handleRequestVote (sender : nat) (req : RequestVoteRequest) (r : Raft) : Raft * list message :=
  let respond := rv_respond sender in
  if (rv_Term req <? currentTerm r)%nat then respond false r
  else
    let r := if (currentTerm r <? rv_Term req)%nat then becomeFollower (rv_Term req) r else r in
    let '(lastIdx, lastTerm) := Last (log r) in
    let logOK := (lastTerm <? rv_LastLogTerm req)%nat ||
                 (rv_LastLogTerm req =? lastTerm)%nat && (lastIdx <=? rv_LastLogIndex req)%nat in
    if ((votedFor r =? 0)%nat || (votedFor r =? rv_CandidateID req)%nat) && logOK
    then respond true (resetElectionTimer (set_term (currentTerm r) (rv_CandidateID req) r))
    else respond false r.

Definition handleRequestVoteResponse (resp : RequestVoteResponse) (r : Raft) : Raft * list message :=
  if (currentTerm r <? rvr_Term resp)%nat then (becomeFollower (rvr_Term resp) r, [])
  else if (rvr_Term resp <? currentTerm r)%nat || bool_decide (state r <> Candidate) then (r, [])
  else if rvr_VoteGranted resp then
    let r := set_votes (S (votesReceived r)) (votesNeeded r) r in
    (if (votesNeeded r <=? votesReceived r)%nat then becomeLeader r else r, [])
  else (r, []).

Definition handleRPC (m : message) (r : Raft) : Raft * list message :=
  match content m with
  | AE req => handleAppendEntries (from m) req r
  | AER resp => handleAppendEntriesResponse (from m) resp r
  | RV req => handleRequestVote (from m) req r
  | RVR resp => handleRequestVoteResponse resp r
  end.

(** The timer has fired: it is no longer running. *)
Definition handleElectionTimeout (r : Raft) : Raft * list message :=
  let r := set_timers false (heartbeatTimer r) r in
  if decide (state r = Leader) then (r, [])
  else let r := becomeCandidate r in (r, broadcastRequestVote r).

Definition handleHeartbeatTimeout (r : Raft) : Raft * list message :=
  let r := set_timers (electionTimer r) false r in
  if decide (state r <> Leader) then (r, [])
  else (set_timers (electionTimer r) true r, broadcastAppendEntries r).

Definition handlePropose (cmd : bytes) (r : Raft) : Raft * list message :=
  if decide (state r <> Leader) then (r, [])
  else
    let '(lastIdx, _) := Last (log r) in
    let r := set_log (Append [mkLogEntry (S lastIdx) (currentTerm r) cmd] (log r)) r in
    (advanceCommitIndex r, broadcastAppendEntries r).

(** ** Commit and apply, as specifications *)

(** The nodes known to hold the entry at [n], the leader included. *)
Definition replicas (n : nat) (r : Raft) : nat := S (size (filter (fun kv => (n <= kv.2)%nat) (matchIndex r))).

Lemma replicas_mono n m r : (n <= m)%nat -> (replicas m r <= replicas n r)%nat.
Proof.
  intros Hnm. unfold replicas. apply le_n_S. rewrite <-!size_dom. apply subseteq_size, subseteq_dom.
  apply map_filter_subseteq_ext. intros i x _. cbn. lia.
Qed.

Lemma Get_Some n l ent : Get n l = Some ent -> (1 <= n < length l)%nat /\ l !! n = Some ent.
Proof.
  unfold Get. destruct (Nat.eqb_spec n 0), (Nat.leb_spec (length l) n); cbn; try done. split; [lia|done].
Qed.

Lemma Get_beyond n l : (length l <= n)%nat -> Get n l = None.
Proof. intros H. unfold Get. rewrite (proj2 (Nat.leb_le _ _) H). by rewrite orb_true_r. Qed.

(** [k] is where the loop that starts at [n] leaves the commit index: unchanged, or at
    an entry of the leader's own term that a majority holds; no later entry is one. *)
Definition commits (n k : nat) (r : Raft) : Prop :=
  (k = commitIndex r \/
   (n <= k)%nat /\ (Peers r / 2 < replicas k r)%nat /\ exists ent, Get k (log r) = Some ent /\ Term ent = currentTerm r) /\
  forall m ent, (n <= m)%nat -> (k < m)%nat -> Get m (log r) = Some ent -> Term ent = currentTerm r ->
    (replicas m r <= Peers r / 2)%nat.

(** [fuel] passes are enough once they reach the end of the log. *)
Lemma commit_loop_spec fuel n r :
  (1 <= n)%nat -> (commitIndex r < n)%nat -> (length (log r) <= n + fuel)%nat ->
  exists k, commit_loop fuel n r = set_commit k r /\ (commitIndex r <= k)%nat /\ commits n k r.
Proof.
  assert (forall r, r = set_commit (commitIndex r) r) as Hid by (by intros []).
  revert n r. induction fuel as [|fuel IH]; intros n r Hn Hc Hf; cbn [commit_loop].
  { exists (commitIndex r). split_and!; [apply Hid|done|]. split; [by left|].
    intros m ent Hm _ Hg. apply Get_Some in Hg. lia. }
  destruct (Get n (log r)) as [ent|] eqn:Hg.
  2:{ exists (commitIndex r). split_and!; [apply Hid|done|]. split; [by left|].
      intros m ent Hm _ Hg'%Get_Some. unfold Get in Hg. destruct (Nat.eqb_spec n 0); [lia|].
      destruct (Nat.leb_spec (length (log r)) n); [lia|]. cbn in Hg. apply lookup_ge_None in Hg. lia. }
  case_decide as Ht.
  - destruct (IH (S n) r) as (k & -> & Hk & Hor & Hmax); [lia|lia|lia|]. exists k. split_and!; [done|done|]. split.
    + destruct Hor as [?|(? & ?)]; [by left|right; split; [lia|done]].
    + intros m ent' Hm Hkm Hg' Ht'. destruct (decide (m = n)) as [->|]; [congruence|]. apply (Hmax m ent'); auto; lia.
  - fold (replicas n r). destruct (Nat.ltb_spec (Peers r / 2) (replicas n r)) as [Hmaj|Hmaj].
    + destruct (IH (S n) (set_commit n r)) as (k & -> & Hk & Hor & Hmax); [lia|cbn; lia|cbn; lia|].
      cbn in Hk, Hor. exists k. split_and!; [done|lia|]. split.
      * right. destruct Hor as [->|(Hle & Hrest)]; [eauto 6|split; [lia|exact Hrest]].
      * intros m ent' Hm Hkm Hg' Ht'. apply (Hmax m ent'); auto; lia.
    + exists (commitIndex r). split_and!; [apply Hid|done|]. split; [by left|].
      intros m ent' Hm _ _ _. pose proof (replicas_mono n m r Hm). lia.
Qed.

(** What an applied entry is to the state machine. *)
Definition delivery (ent : LogEntry) : nat * bytes := (Index ent, Command ent).

Lemma Slice_cons i j l : (1 <= i < j)%nat ->
  Slice i j l = match Get i l with Some ent => ent :: Slice (S i) j l | None => [] end.
Proof.
  intros Hij. unfold Slice, Get. rewrite !(proj2 (Nat.ltb_ge _ 1)) by lia.
  destruct (Nat.eqb_spec i 0); [lia|]. cbn [orb]. set (e := if (length l <? j)%nat then length l else j).
  assert (e <= length l)%nat by (unfold e; destruct (Nat.ltb_spec (length l) j); lia).
  assert (length l <= i \/ i < e)%nat as Hcase by (unfold e; destruct (Nat.ltb_spec (length l) j); lia).
  destruct (Nat.leb_spec (length l) i); [rewrite (proj2 (Nat.leb_le _ _)) by lia; done|].
  destruct (lookup_lt_is_Some_2 l i) as [ent Hent]; [lia|]. rewrite Hent, (proj2 (Nat.leb_gt e i)) by lia.
  rewrite (drop_S _ ent) by done. replace (e - i)%nat with (S (e - S i)) by lia. cbn [take].
  destruct (Nat.leb_spec e (S i)); [|done]. by replace (e - S i)%nat with 0%nat by lia.
Qed.

Lemma Slice_empty i j l : (j <= i)%nat \/ (length l <= i)%nat -> Slice i j l = [].
Proof.
  intros H. unfold Slice. destruct (Nat.ltb_spec i 1), (Nat.ltb_spec (length l) j);
    rewrite (proj2 (Nat.leb_le _ _)) by lia; done.
Qed.

(** The entries after the last one applied are sent to the state machine in order, up to the commit index. *)
Lemma applyCommitted_spec r :
  applyCommitted r =
  set_applied (Nat.max (lastApplied r) (commitIndex r))
    (applied r ++ (delivery <$> Slice (S (lastApplied r)) (S (commitIndex r)) (log r))) r.
Proof.
  unfold applyCommitted. remember (commitIndex r - lastApplied r)%nat as d eqn:Hd.
  revert r Hd. induction d as [|d IH]; intros r Hd; cbn [apply_loop].
  { rewrite Slice_empty by lia. rewrite Nat.max_l by lia. cbn. rewrite app_nil_r. by destruct r. }
  rewrite (proj2 (Nat.ltb_lt _ _)) by lia. rewrite IH by (cbn; lia). cbn.
  rewrite !Nat.max_r by lia. rewrite (Slice_cons (S (lastApplied r))) by lia.
  destruct (Get (S (lastApplied r)) (log r)) as [ent|] eqn:Hg; cbn; [by rewrite <-app_assoc|].
  rewrite Slice_empty; [done|]. right. unfold Get in Hg. cbn [Nat.eqb orb] in Hg.
  destruct (Nat.leb_spec (length (log r)) (S (lastApplied r))); [lia|]. apply lookup_ge_None in Hg. lia.
Qed.

(** C12 (functional): commit and apply at the leader.  [advanceCommitIndex] moves the
    commit index to the last entry of the leader's own term that a majority of the
    nodes holds (entries of older terms are committed with it, never by counting),
    leaves it where it is when there is none above it, and sends the commands after
    the last applied one to the state machine, once each and in log order. *)
Theorem advance_commit_spec r :
  state r = Leader -> exists k,
    commits (S (commitIndex r)) k r /\ (commitIndex r <= k)%nat /\
    advanceCommitIndex r =
      set_applied (Nat.max (lastApplied r) k)
        (applied r ++ (delivery <$> Slice (S (lastApplied r)) (S k) (log r))) (set_commit k r).
Proof.
  intros Hl. unfold advanceCommitIndex. rewrite decide_False by (by intros []).
  destruct (commit_loop_spec (length (log r)) (S (commitIndex r)) r) as (k & -> & Hk & Hc); [lia|lia|lia|].
  exists k. split_and!; [done|done|]. by rewrite applyCommitted_spec.
Qed.

(** A leader of three nodes: the second has acknowledged both entries. *)
Definition demo_leader : Raft :=
  mkRaft 1 3 1 1 (NewLog ++ [mkLogEntry 1 1 [Byte.x01]; mkLogEntry 2 1 [Byte.x02]]) 0 0 Leader 1
    {[2%nat := 3%nat; 3%nat := 1%nat]} {[2%nat := 2%nat; 3%nat := 0%nat]} false true 2 2 [].

Lemma advance_commit_spec_witness :
  commitIndex (advanceCommitIndex demo_leader) = 2%nat /\
  applied (advanceCommitIndex demo_leader) = [(1%nat, [Byte.x01]); (2%nat, [Byte.x02])] /\
  exists k, commits 1 k demo_leader /\ (0 <= k)%nat /\
    advanceCommitIndex demo_leader =
      set_applied (Nat.max 0 k) ([] ++ (delivery <$> Slice 1 (S k) (log demo_leader))) (set_commit k demo_leader).
Proof. split; [by vm_compute|]. split; [by vm_compute|]. apply (advance_commit_spec demo_leader). reflexivity. Defined.

(** An AppendEntries whose entries the follower already has still cuts
    off everything after them: the code truncates after [PrevLogIndex] without
    looking for a conflict, and answers success.  [base] ends with the request's
    entries, [rest] is lost. *)
Theorem stale_append_drops_entries sender req r base rest :
  log r = base ++ rest -> ae_Entries req <> [] ->
  (S (ae_PrevLogIndex req) <= length base)%nat -> drop (S (ae_PrevLogIndex req)) base = ae_Entries req ->
  (forall e, base !! ae_PrevLogIndex req = Some e -> (ae_PrevLogIndex req = 0)%nat \/ Term e = ae_PrevLogTerm req) ->
  (currentTerm r <= ae_Term req)%nat ->
  log (handleAppendEntries sender req r).1 = base /\
  exists t, (handleAppendEntries sender req r).2 =
    [mkMsg (NodeID r) sender (AER (mkAER t true (ae_PrevLogIndex req + length (ae_Entries req))))].
Proof.
  intros Hlog Hne Hprev Hbase Hterm Ht. unfold handleAppendEntries. rewrite (proj2 (Nat.ltb_ge _ _)) by lia.
  cbv zeta. set (r2 := set_role Follower (ae_LeaderID req) _).
  assert (log r2 = base ++ rest /\ NodeID r2 = NodeID r) as [H2 Hid].
  { unfold r2. destruct (currentTerm r <? ae_Term req)%nat; [|done]. unfold becomeFollower. by case_match. }
  destruct (lookup_lt_is_Some_2 base (ae_PrevLogIndex req)) as [e He]; [lia|].
  match goal with |- context [negb ?c] => assert (c = true) as -> end.
  { destruct (Nat.ltb_spec 0 (ae_PrevLogIndex req)); [|done]. unfold Get. rewrite H2, length_app.
    rewrite (proj2 (Nat.eqb_neq _ _)), (proj2 (Nat.leb_gt _ _)) by lia. cbn [orb].
    rewrite lookup_app_l, He by lia. apply bool_decide_true. destruct (Hterm e He); [lia|done]. }
  cbn [negb]. assert (Append (ae_Entries req) (Truncate (S (ae_PrevLogIndex req)) (log r2)) = base) as Happ.
  { unfold Append, Truncate. rewrite H2, <-Hbase, length_app.
    assert (length (drop (S (ae_PrevLogIndex req)) base) <> 0)%nat as Hl by (rewrite Hbase; by destruct (ae_Entries req)).
    rewrite length_drop in Hl. rewrite (proj2 (Nat.ltb_lt _ _)) by lia.
    by rewrite take_app_le, take_drop by lia. }
  destruct (ae_Entries req) as [|e0 es] eqn:Hes; [done|]. rewrite Happ. unfold ae_respond. cbn [fst snd]. rewrite Hes.
  clearbody r2. destruct (_ <? ae_LeaderCommit req)%nat; [|split; [done|rewrite <-Hid; by eexists]].
  destruct (Last _) as [i t]. rewrite applyCommitted_spec. split; [done|]. rewrite <-Hid. by eexists.
Qed.

Lemma stale_append_drops_entries_witness :
  let req := mkAE 1 2 0 0 [mkLogEntry 1 1 [Byte.x01]] 0 in
  log (handleAppendEntries 2 req demo_leader).1 = NewLog ++ [mkLogEntry 1 1 [Byte.x01]] /\
  exists t, (handleAppendEntries 2 req demo_leader).2 = [mkMsg 1 2 (AER (mkAER t true 1))].
Proof.
  apply (stale_append_drops_entries 2 (mkAE 1 2 0 0 [mkLogEntry 1 1 [Byte.x01]] 0) demo_leader
    (NewLog ++ [mkLogEntry 1 1 [Byte.x01]]) [mkLogEntry 2 1 [Byte.x02]]);
    [reflexivity|discriminate|cbn; lia|reflexivity|by left|cbn; lia].
Defined.
