(* ===== verification/RaftSafety.v ===== *)
(** * A cluster of Raft nodes: one leader per term

    The nodes, the messages on their way, and the steps of the cluster: a message
    is delivered (in any order) or lost, a timer fires, a client proposes.  Every
    request reaches its node at most once and is answered at most once, as over a
    connection.  Election safety is proved from an invariant that follows each
    vote from the request to the count. *)

From stdpp Require Import base tactics numbers list gmap sets fin_maps.
From S2P Require Import Prelude.
From S2P Require Import Raft.

(** ** The cluster *)

Record cluster : Type := mkCluster { nodes : gmap nat Raft; net : list message }.

(** [n] nodes numbered from 1, each with the addresses of all of them. *)
Definition init (n : nat) : cluster :=
  mkCluster (list_to_map ((fun i => (i, NewRaft i n)) <$> seq 1 n)) [].

(** An event at node [i]: its handler runs, its messages go out. *)
Definition run_at (i : nat) (h : Raft -> Raft * list message) (r : Raft) (net : list message) (c : cluster) : cluster :=
  mkCluster (<[i := (h r).1]> (nodes c)) (net ++ (h r).2).

Inductive step (c : cluster) : cluster -> Prop :=
| step_deliver m pre post r :
    net c = pre ++ m :: post -> nodes c !! to m = Some r ->
    step c (run_at (to m) (handleRPC m) r (pre ++ post) c)
| step_lose m pre post :
    net c = pre ++ m :: post -> step c (mkCluster (nodes c) (pre ++ post))
| step_election i r :
    nodes c !! i = Some r -> electionTimer r = true ->
    step c (run_at i handleElectionTimeout r (net c) c)
| step_heartbeat i r :
    nodes c !! i = Some r -> heartbeatTimer r = true ->
    step c (run_at i handleHeartbeatTimeout r (net c) c)
| step_propose i r cmd :
    nodes c !! i = Some r -> step c (run_at i (handlePropose cmd) r (net c) c).

Notation steps := (rtc step).

(** ** What the handlers leave alone *)

(** The part of the state an election depends on. *)
Definition vote_state (r : Raft) : nat * nat * nat * nat * State * nat * nat :=
  (NodeID r, Peers r, currentTerm r, votedFor r, state r, votesReceived r, votesNeeded r).

Lemma apply_loop_vote fuel r : vote_state (apply_loop fuel r) = vote_state r /\ electionTimer (apply_loop fuel r) = electionTimer r.
Proof.
  revert r. induction fuel as [|fuel IH]; intros r; [done|]. cbn [apply_loop].
  case_match; [apply (IH (set_applied _ _ r))|done].
Qed.

Lemma commit_loop_vote fuel n r :
  vote_state (commit_loop fuel n r) = vote_state r /\ electionTimer (commit_loop fuel n r) = electionTimer r.
Proof.
  revert n r. induction fuel as [|fuel IH]; intros n r; [done|]. cbn [commit_loop].
  case_match; [|done]. case_decide; [apply IH|]. case_match; [apply (IH (S n) (set_commit n r))|done].
Qed.

Lemma advanceCommitIndex_vote r :
  vote_state (advanceCommitIndex r) = vote_state r /\ electionTimer (advanceCommitIndex r) = electionTimer r.
Proof.
  unfold advanceCommitIndex, applyCommitted. case_decide; [done|].
  set (r1 := commit_loop _ _ _). destruct (apply_loop_vote (commitIndex r1 - lastApplied r1) r1) as [-> ->].
  apply commit_loop_vote.
Qed.

(** Messages that carry no vote and ask for none. *)
Definition quiet (m : message) : Prop :=
  match content m with
  | AE _ | AER _ => True
  | RV _ => False
  | RVR resp => rvr_VoteGranted resp = false
  end.

Lemma send_quiet peer r m : m ∈ sendAppendEntriesTo peer r -> quiet m.
Proof.
  unfold sendAppendEntriesTo. destruct (nextIndex r !! peer); [|by intros ?%not_elem_of_nil].
  by intros ->%list_elem_of_singleton.
Qed.

Lemma broadcast_quiet r m : m ∈ broadcastAppendEntries r -> quiet m.
Proof.
  unfold broadcastAppendEntries. rewrite list_elem_of_In, in_concat. intros (l & Hl & Hm).
  apply list_elem_of_In, list_elem_of_fmap in Hl as (p & -> & _). apply list_elem_of_In in Hm. by eapply send_quiet.
Qed.

Lemma quiet_nil m : m ∈ [] -> quiet m.
Proof. by intros ?%not_elem_of_nil. Qed.

Create HintDb raft.
#[export] Hint Resolve quiet_nil send_quiet broadcast_quiet : raft.

(** What a handler that takes no part in a vote does: the term may rise, which
    forgets the vote and the role; otherwise the role is kept or becomes Follower. *)
Record bystander (r r' : Raft) (out : list message) : Prop := {
  by_id : NodeID r' = NodeID r;
  by_peers : Peers r' = Peers r;
  by_term : (currentTerm r' = currentTerm r /\ votedFor r' = votedFor r /\
              (state r' = Follower \/ state r' = state r /\ votesReceived r' = votesReceived r /\ votesNeeded r' = votesNeeded r)) \/
            (currentTerm r < currentTerm r')%nat /\ votedFor r' = 0%nat /\ state r' = Follower;
  by_quiet m : m ∈ out -> quiet m;
}.

Lemma vote_state_bystander r r' out :
  vote_state r' = vote_state r -> (forall m, m ∈ out -> quiet m) -> bystander r r' out.
Proof. intros [= H1 H2 H3 H4 H5 H6 H7] Hq. split; auto 8. Qed.

Lemma becomeFollower_bystander t r : (currentTerm r < t)%nat -> bystander r (becomeFollower t r) [].
Proof.
  intros Ht. unfold becomeFollower. rewrite (proj2 (Nat.ltb_lt _ _) Ht).
  split; cbn; auto with raft.
Qed.

Lemma bystander_trans r r1 r2 o1 o2 :
  bystander r r1 o1 -> bystander r1 r2 o2 -> bystander r r2 o2.
Proof.
  intros [A1 A2 A3 _] [B1 B2 B3 B4]. split; [congruence|congruence| |done].
  destruct A3 as [(At & Av & As)|(At & Av & As)], B3 as [(Bt & Bv & Bs)|(Bt & Bv & Bs)].
  - left. split; [congruence|]. split; [congruence|]. destruct Bs as [?|(Bs & ? & ?)]; [by left|].
    destruct As as [?|(? & ? & ?)]; [left; congruence|right; split_and!; congruence].
  - right. split_and!; [lia|done|done].
  - right. split_and!; [lia|congruence|]. destruct Bs as [?|(Bs & _)]; congruence.
  - right. split_and!; [lia|done|done].
Qed.

(** ** The handlers by their part in a vote *)

Lemma applyCommitted_vote r : vote_state (applyCommitted r) = vote_state r.
Proof. apply apply_loop_vote. Qed.

Lemma append_entries_bystander sender req r :
  bystander r (handleAppendEntries sender req r).1 (handleAppendEntries sender req r).2.
Proof.
  unfold handleAppendEntries.
  assert (forall r0 b r1, bystander r0 r1 [] ->
    bystander r0 (ae_respond sender req b r1).1 (ae_respond sender req b r1).2) as Hresp.
  { intros r0 b r1 [H1 H2 H3 _]. split; [done|done|done|]. by intros m ->%list_elem_of_singleton. }
  destruct (ae_Term req <? currentTerm r)%nat.
  { apply Hresp, vote_state_bystander; [done|]. by intros m ?%not_elem_of_nil. }
  cbv zeta. set (r1 := if (currentTerm r <? ae_Term req)%nat then becomeFollower (ae_Term req) r else r).
  set (r2 := set_role Follower (ae_LeaderID req) (resetElectionTimer r1)).
  assert (bystander r r1 []) as B1.
  { unfold r1. destruct (Nat.ltb_spec (currentTerm r) (ae_Term req)); [by apply becomeFollower_bystander|].
    apply vote_state_bystander; eauto with raft. }
  assert (bystander r1 r2 []) as B2.
  { split; cbn; auto with raft. }
  pose proof (bystander_trans _ _ _ _ _ B1 B2) as B3.
  destruct (negb _); [by apply Hresp|]. apply Hresp. eapply bystander_trans; [exact B3|].
  apply vote_state_bystander; [|by eauto with raft].
  set (r3 := match ae_Entries req with [] => r2 | entries => set_log (Append entries (Truncate (S (ae_PrevLogIndex req)) (log r2))) r2 end).
  assert (vote_state r3 = vote_state r2) as H3 by (unfold r3; by destruct (ae_Entries req)).
  destruct (commitIndex r3 <? ae_LeaderCommit req)%nat; [|done].
  destruct (Last (log r3)) as [i t]. by rewrite applyCommitted_vote.
Qed.

Lemma append_response_bystander sender resp r :
  bystander r (handleAppendEntriesResponse sender resp r).1 (handleAppendEntriesResponse sender resp r).2.
Proof.
  unfold handleAppendEntriesResponse. destruct (Nat.ltb_spec (currentTerm r) (aer_Term resp)).
  { by apply becomeFollower_bystander. }
  destruct (_ || _); [apply vote_state_bystander; eauto with raft|].
  destruct (aer_Success resp); cbv zeta; cbn [fst snd].
  - apply vote_state_bystander; [|by eauto with raft].
    rewrite (proj1 (advanceCommitIndex_vote _)). by case_match.
  - apply vote_state_bystander; [by case_match|]. intros m. apply send_quiet.
Qed.

Lemma heartbeat_bystander r : bystander r (handleHeartbeatTimeout r).1 (handleHeartbeatTimeout r).2.
Proof.
  unfold handleHeartbeatTimeout. cbv zeta. case_decide; apply vote_state_bystander; eauto with raft.
Qed.

Lemma propose_bystander cmd r : bystander r (handlePropose cmd r).1 (handlePropose cmd r).2.
Proof.
  unfold handlePropose. case_decide; [apply vote_state_bystander; eauto with raft|].
  destruct (Last (log r)) as [i t]. apply vote_state_bystander.
  - cbn. by rewrite (proj1 (advanceCommitIndex_vote _)).
  - intros m. apply broadcast_quiet.
Qed.

(** A vote request is refused, or the vote goes to the candidate. *)
Record grants (sender : nat) (req : RequestVoteRequest) (r r' : Raft) (out : list message) : Prop := {
  gr_id : NodeID r' = NodeID r;
  gr_peers : Peers r' = Peers r;
  gr_term : currentTerm r' = rv_Term req;
  gr_vote : votedFor r' = rv_CandidateID req;
  gr_free : (currentTerm r < rv_Term req)%nat /\ state r' = Follower \/
            currentTerm r = rv_Term req /\ (votedFor r = 0%nat \/ votedFor r = rv_CandidateID req) /\
              state r' = state r /\ votesReceived r' = votesReceived r /\ votesNeeded r' = votesNeeded r;
  gr_out : out = [mkMsg (NodeID r) sender (RVR (mkRVR (rv_Term req) true))];
}.

Lemma request_vote_cases sender req r :
  bystander r (handleRequestVote sender req r).1 (handleRequestVote sender req r).2 \/
  grants sender req r (handleRequestVote sender req r).1 (handleRequestVote sender req r).2.
Proof.
  unfold handleRequestVote. destruct (Nat.ltb_spec (rv_Term req) (currentTerm r)).
  { left. split; cbn; auto 8. by intros m ->%list_elem_of_singleton. }
  cbv zeta. set (r1 := if (currentTerm r <? rv_Term req)%nat then becomeFollower (rv_Term req) r else r).
  assert (bystander r r1 [] /\ currentTerm r1 = rv_Term req) as [B1 Ht].
  { unfold r1. destruct (Nat.ltb_spec (currentTerm r) (rv_Term req)) as [Hlt|].
    - split; [by apply becomeFollower_bystander|]. unfold becomeFollower. by rewrite (proj2 (Nat.ltb_lt _ _) Hlt).
    - split; [|lia]. apply vote_state_bystander; eauto with raft. }
  destruct (Last (log r1)) as [lastIdx lastTerm]. destruct (_ && _) eqn:Hg.
  2:{ left. destruct B1 as [H1 H2 H3 _]. split; [done|done|done|]. by intros m ->%list_elem_of_singleton. }
  right. apply andb_prop in Hg as [Hv _]. split; cbn; [apply B1|apply B1|done|done| |by rewrite (by_id _ _ _ B1), Ht].
  destruct (by_term _ _ _ B1) as [(E1 & E2 & E3)|(E1 & E2 & E3)]; [|left; split; [lia|done]].
  unfold r1 in *. destruct (Nat.ltb_spec (currentTerm r) (rv_Term req)); [left; split; [lia|]; by destruct E3 as [|[? _]]|].
  right. split_and!; [lia| |done|done|done].
  apply orb_prop in Hv as [Hx%Nat.eqb_eq|Hx%Nat.eqb_eq]; auto.
Qed.

(** A vote response is ignored, or counted. *)
Record counts (resp : RequestVoteResponse) (r r' : Raft) : Prop := {
  ct_id : NodeID r' = NodeID r;
  ct_peers : Peers r' = Peers r;
  ct_term : currentTerm r' = currentTerm r;
  ct_vote : votedFor r' = votedFor r;
  ct_granted : rvr_VoteGranted resp = true /\ rvr_Term resp = currentTerm r /\ state r = Candidate;
  ct_received : votesReceived r' = S (votesReceived r) /\ votesNeeded r' = votesNeeded r;
  ct_state : state r' = Candidate \/ state r' = Leader /\ (votesNeeded r <= S (votesReceived r))%nat;
}.

Lemma vote_response_cases resp r :
  bystander r (handleRequestVoteResponse resp r).1 [] /\ (handleRequestVoteResponse resp r).2 = [] \/
  counts resp r (handleRequestVoteResponse resp r).1 /\ (handleRequestVoteResponse resp r).2 = [].
Proof.
  unfold handleRequestVoteResponse. destruct (Nat.ltb_spec (currentTerm r) (rvr_Term resp)).
  { left. split; [by apply becomeFollower_bystander|done]. }
  assert (bystander r r []) as Hid by (apply vote_state_bystander; eauto with raft).
  destruct (_ || _) eqn:Ho; [by left|]. apply orb_false_elim in Ho as [Ht%Nat.ltb_ge Hs%bool_decide_eq_false].
  destruct (rvr_VoteGranted resp) eqn:Hg; [|by left]. right. split; [|done]. cbv zeta. cbn [fst].
  assert (state r = Candidate) as Hc by (apply dec_stable; done).
  cbn [votesNeeded votesReceived set_votes]. destruct (Nat.leb_spec (votesNeeded r) (S (votesReceived r))).
  - unfold becomeLeader. destruct (Last _) as [i t]. split; cbn; auto with lia.
  - split; cbn; auto with lia.
Qed.

Lemma election_cases r :
  bystander r (handleElectionTimeout r).1 (handleElectionTimeout r).2 /\ state r = Leader \/
  (handleElectionTimeout r).1 = becomeCandidate (set_timers false (heartbeatTimer r) r) /\
  (handleElectionTimeout r).2 = broadcastRequestVote (becomeCandidate (set_timers false (heartbeatTimer r) r)) /\
  state r <> Leader.
Proof.
  unfold handleElectionTimeout. cbv zeta. cbn [state set_timers]. case_decide as Hl; [|by right].
  left. split; [|done]. apply vote_state_bystander; eauto with raft.
Qed.

(** ** Following a vote *)

(** [m] is the request of [i] for the vote of [v] in term [t], or the vote itself. *)
Definition token (i t v : nat) (m : message) : bool :=
  match content m with
  | RV req => (from m =? i)%nat && (to m =? v)%nat && (rv_Term req =? t)%nat
  | RVR resp => (from m =? v)%nat && (to m =? i)%nat && (rvr_Term resp =? t)%nat && rvr_VoteGranted resp
  | _ => false
  end.

Definition tokens (i t v : nat) (net : list message) : nat := length (filter (fun m => token i t v m = true) net).

Lemma tokens_app i t v l l' : tokens i t v (l ++ l') = (tokens i t v l + tokens i t v l')%nat.
Proof. unfold tokens. by rewrite filter_app, length_app. Qed.

Lemma tokens_cons i t v m l : tokens i t v (m :: l) = ((if token i t v m then 1 else 0) + tokens i t v l)%nat.
Proof. unfold tokens. rewrite filter_cons. destruct (token i t v m); case_decide; done. Qed.

Lemma tokens_none i t v l : (forall m, m ∈ l -> token i t v m = false) -> tokens i t v l = 0%nat.
Proof.
  induction l as [|m l IH]; intros Hl; [done|]. rewrite tokens_cons, Hl by constructor.
  apply IH. intros m' Hm. apply Hl. by constructor.
Qed.

Lemma tokens_submseteq i t v l l' : l ⊆+ l' -> (tokens i t v l <= tokens i t v l')%nat.
Proof.
  intros (k & Hk)%submseteq_Permutation.
  assert (tokens i t v l' = tokens i t v (l ++ k)) as -> by (unfold tokens; by rewrite Hk).
  rewrite tokens_app. lia.
Qed.

Lemma quiet_token i t v m : quiet m -> token i t v m = false.
Proof. unfold quiet, token. destruct (content m) as [| | |resp]; try done. intros ->. apply andb_false_r. Qed.

(** ** The invariant *)

Section Invariant.
Variable n : nat.

Definition majority : nat := (n / 2 + 1)%nat.

(** [G t v c]: [v] voted for [c] in term [t].  [L t i]: [i] led term [t].  [C i]:
    the voters node [i] has counted in its current election. *)
Record Inv (G : nat -> nat -> nat -> Prop) (L : nat -> nat -> Prop) (C : nat -> list nat) (c : cluster) : Prop := {
  iv_node i r : nodes c !! i = Some r -> NodeID r = i /\ Peers r = n /\ (1 <= i <= n)%nat;
  iv_voter t v k : G t v k -> exists r, nodes c !! v = Some r /\ (t <= currentTerm r)%nat /\
    (t = currentTerm r -> votedFor r = k) /\ k <> 0%nat;
  iv_chosen t v k : G t v k -> exists r, nodes c !! k = Some r /\ (t <= currentTerm r)%nat;
  iv_once t v k k' : G t v k -> G t v k' -> k = k';
  iv_request m req : m ∈ net c -> content m = RV req ->
    rv_CandidateID req = from m /\ exists r, nodes c !! from m = Some r /\ (rv_Term req <= currentTerm r)%nat;
  iv_response m resp : m ∈ net c -> content m = RVR resp -> rvr_VoteGranted resp = true ->
    G (rvr_Term resp) (from m) (to m);
  iv_candidate i r : nodes c !! i = Some r -> state r = Candidate ->
    votesNeeded r = majority /\ NoDup (C i) /\ length (C i) = votesReceived r /\
    (forall v, v ∈ C i -> G (currentTerm r) v i) /\
    forall v, (tokens i (currentTerm r) v (net c) + (if decide (v ∈ C i) then 1 else 0) <= 1)%nat;
  iv_leader i r : nodes c !! i = Some r -> state r = Leader -> L (currentTerm r) i;
  iv_led t i : L t i -> exists Q, NoDup Q /\ (majority <= length Q)%nat /\ forall v, v ∈ Q -> G t v i;
}.

Lemma init_lookup i r : nodes (init n) !! i = Some r -> r = NewRaft i n /\ (1 <= i <= n)%nat.
Proof.
  unfold init. cbn. intros H%elem_of_list_to_map_2. apply list_elem_of_fmap in H as (j & [= -> ->] & Hj).
  apply elem_of_seq in Hj. split; [done|lia].
Qed.

Lemma init_inv : Inv (fun _ _ _ => False) (fun _ _ => False) (fun _ => []) (init n).
Proof.
  split; try done.
  - intros i r [-> ?]%init_lookup. done.
  - by intros m req ?%not_elem_of_nil.
  - by intros m req ?%not_elem_of_nil.
  - by intros i r [-> ?]%init_lookup.
  - by intros i r [-> ?]%init_lookup.
Qed.

(** Two majorities of the voters of a term share a voter. *)
Lemma led_once G L C c t i j : Inv G L C c -> L t i -> L t j -> i = j.
Proof.
  intros HI Hi Hj. destruct (iv_led _ _ _ _ HI t i Hi) as (Q & HQ & HlQ & HGQ).
  destruct (iv_led _ _ _ _ HI t j Hj) as (R & HR & HlR & HGR).
  assert (forall v k, G t v k -> v ∈ seq 1 n) as Hrange.
  { intros v k HG. destruct (iv_voter _ _ _ _ HI _ _ _ HG) as (r & Hr & _).
    apply elem_of_seq. destruct (iv_node _ _ _ _ HI _ _ Hr) as (_ & _ & ?). lia. }
  destruct (decide (Exists (fun v => v ∈ R) Q)) as [(v & Hv1 & Hv2)%Exists_exists|Hno].
  { eapply iv_once; [done|by apply HGQ|by apply HGR]. }
  exfalso. assert (NoDup (Q ++ R)) as HND.
  { apply NoDup_app. split_and!; [done| |done]. intros v H1 H2. apply Hno, Exists_exists. eauto. }
  assert (Q ++ R ⊆+ seq 1 n) as Hsub.
  { apply NoDup_submseteq; [done|]. intros v [Hv|Hv]%elem_of_app; eapply Hrange; [by apply HGQ|by apply HGR]. }
  apply submseteq_length in Hsub. rewrite length_app, length_seq in Hsub. unfold majority in *.
  pose proof (Nat.div_mod_eq n 2). pose proof (Nat.mod_upper_bound n 2). lia.
Qed.

(** *** One node moves on to a later term *)

Lemma update_lookup (m : gmap nat Raft) i r r' j s :
  m !! i = Some r -> (currentTerm r <= currentTerm r')%nat -> m !! j = Some s ->
  exists s', <[i := r']> m !! j = Some s' /\ (currentTerm s <= currentTerm s')%nat.
Proof. intros Hr Hle Hs. rewrite lookup_insert. case_decide; [simplify_eq|]; eauto. Qed.

Lemma update_node G L C c i r r' j s :
  Inv G L C c -> nodes c !! i = Some r -> NodeID r' = NodeID r -> Peers r' = Peers r ->
  <[i := r']> (nodes c) !! j = Some s -> NodeID s = j /\ Peers s = n /\ (1 <= j <= n)%nat.
Proof.
  intros HI Hr Hid Hp. rewrite lookup_insert. case_decide; [|apply HI]. intros [= <-]. subst j.
  rewrite Hid, Hp. by apply HI.
Qed.

Lemma update_chosen G L C c i r r' t v k :
  Inv G L C c -> nodes c !! i = Some r -> (currentTerm r <= currentTerm r')%nat -> G t v k ->
  exists s, <[i := r']> (nodes c) !! k = Some s /\ (t <= currentTerm s)%nat.
Proof.
  intros HI Hr Hle HG. destruct (iv_chosen _ _ _ _ HI _ _ _ HG) as (s & Hs & Ht).
  destruct (update_lookup _ _ _ _ _ _ Hr Hle Hs) as (s' & Hs' & ?). exists s'. split; [done|lia].
Qed.

Lemma update_request G L C c i r r' m req :
  Inv G L C c -> nodes c !! i = Some r -> (currentTerm r <= currentTerm r')%nat -> m ∈ net c -> content m = RV req ->
  rv_CandidateID req = from m /\
  exists s, <[i := r']> (nodes c) !! from m = Some s /\ (rv_Term req <= currentTerm s)%nat.
Proof.
  intros HI Hr Hle Hm Hc. destruct (iv_request _ _ _ _ HI m req Hm Hc) as (H1 & s & Hs & Ht). split; [done|].
  destruct (update_lookup _ _ _ _ _ _ Hr Hle Hs) as (s' & Hs' & ?). exists s'. split; [done|lia].
Qed.

(** Leaving out a message. *)
Lemma without_submseteq {A} (l pre post : list A) m : l = pre ++ m :: post -> pre ++ post ⊆+ l.
Proof. intros ->. apply submseteq_app; [done|by constructor]. Qed.

(** *** Steps that take no part in a vote *)

Lemma inv_bystander G L C c i r r' net0 out :
  Inv G L C c -> nodes c !! i = Some r -> bystander r r' out -> net0 ⊆+ net c ->
  Inv G L C (mkCluster (<[i := r']> (nodes c)) (net0 ++ out)).
Proof.
  intros HI Hr [Bid Bp Bt Bq] Hnet.
  assert (currentTerm r <= currentTerm r')%nat as Hle by (destruct Bt as [(-> & _)|(? & _)]; lia).
  assert (forall j s, nodes c !! j = Some s -> exists s', <[i := r']> (nodes c) !! j = Some s' /\
    (currentTerm s <= currentTerm s')%nat /\ (currentTerm s = currentTerm s' -> votedFor s' = votedFor s)) as Hup.
  { intros j s Hs. rewrite lookup_insert. case_decide; [|by eexists]. simplify_eq. exists r'. split; [done|].
    destruct Bt as [(-> & -> & _)|(? & _)]; [done|lia]. }
  assert (forall j s', <[i := r']> (nodes c) !! j = Some s' -> state s' <> Follower ->
    exists s, nodes c !! j = Some s /\ state s' = state s /\ currentTerm s' = currentTerm s /\
      votesReceived s' = votesReceived s /\ votesNeeded s' = votesNeeded s) as Hrole.
  { intros j s'. rewrite lookup_insert. case_decide; [|eauto 6]. intros [= <-] Hst. subst j. exists r.
    destruct Bt as [(Ht & _ & [?|(? & ? & ?)])|(_ & _ & ?)]; [done|by split_and!|done]. }
  split; cbn [nodes net].
  - intros j s. by eapply update_node.
  - intros t v k HG. destruct (iv_voter _ _ _ _ HI _ _ _ HG) as (s & Hs & Ht & Hv & Hk).
    destruct (Hup v s Hs) as (s' & Hs' & ? & Heq). exists s'. split_and!; [done|lia| |done].
    intros ->. rewrite Heq by lia. apply Hv. lia.
  - intros t v k. by apply (update_chosen _ _ _ _ _ _ _ _ _ _ HI Hr).
  - apply HI.
  - intros m req [Hm|Hm]%elem_of_app Hc; [|apply Bq in Hm; unfold quiet in Hm; by rewrite Hc in Hm].
    eapply update_request; [done|done|done|by eapply elem_of_submseteq|done].
  - intros m resp [Hm|Hm]%elem_of_app Hc Hg; [|apply Bq in Hm; unfold quiet in Hm; rewrite Hc in Hm; congruence].
    eapply iv_response; [done| |done|done]. by eapply elem_of_submseteq.
  - intros j s' Hs' Hst. destruct (Hrole j s' Hs') as (s & Hs & H1 & H2 & H3 & H4); [by rewrite Hst|].
    rewrite H2, H3, H4. destruct (iv_candidate _ _ _ _ HI j s Hs) as (? & ? & ? & ? & Htok); [congruence|].
    split_and!; try done. intros v. rewrite tokens_app, (tokens_none _ _ _ out), Nat.add_0_r by eauto using quiet_token.
    specialize (Htok v). pose proof (tokens_submseteq j (currentTerm s) v _ _ Hnet). lia.
  - intros j s' Hs' Hst. destruct (Hrole j s' Hs') as (s & Hs & H1 & H2 & _); [by rewrite Hst|].
    rewrite H2. apply (iv_leader _ _ _ _ HI j s Hs). congruence.
  - apply HI.
Qed.

Lemma inv_net G L C c net0 : Inv G L C c -> net0 ⊆+ net c -> Inv G L C (mkCluster (nodes c) net0).
Proof.
  intros HI Hnet. split; cbn [nodes net]; try apply HI.
  - intros m req Hm. eapply iv_request; [done|]. by eapply elem_of_submseteq.
  - intros m resp Hm. eapply iv_response; [done|]. by eapply elem_of_submseteq.
  - intros i r Hr Hs. destruct (iv_candidate _ _ _ _ HI i r Hr Hs) as (? & ? & ? & ? & Htok).
    split_and!; try done. intros v. specialize (Htok v).
    pose proof (tokens_submseteq i (currentTerm r) v _ _ Hnet). lia.
Qed.

(** *** A vote is granted *)

(** The vote takes the place of the request. *)
Lemma grant_token j t v m req :
  content m = RV req ->
  token j t v (mkMsg (to m) (from m) (RVR (mkRVR (rv_Term req) true))) = token j t v m.
Proof. intros Hm. unfold token. rewrite Hm. cbn. by rewrite andb_true_r, (andb_comm (to m =? v)%nat). Qed.

Lemma inv_grants G L C c m req r r' out pre post :
  Inv G L C c -> net c = pre ++ m :: post -> content m = RV req -> nodes c !! to m = Some r ->
  grants (from m) req r r' out ->
  Inv (fun t v k => G t v k \/ (t = rv_Term req /\ v = to m /\ k = from m)) L C
    (mkCluster (<[to m := r']> (nodes c)) ((pre ++ post) ++ out)).
Proof.
  intros HI Hnet Hm Hr [Gid Gp Gt Gv Gf ->].
  assert (m ∈ net c) as Hin by (rewrite Hnet; apply elem_of_app; right; by constructor).
  pose proof (without_submseteq _ _ _ _ Hnet) as Hsub.
  destruct (iv_request _ _ _ _ HI m req Hin Hm) as (Hcand & rc & Hrc & Htc).
  destruct (iv_node _ _ _ _ HI _ _ Hr) as (Hid & Hp & Hrange).
  assert (from m <> 0%nat) as Hnz by (destruct (iv_node _ _ _ _ HI _ _ Hrc) as (_ & _ & ?); lia).
  assert (currentTerm r <= currentTerm r')%nat as Hle by (rewrite Gt; lia).
  assert (forall k, G (rv_Term req) (to m) k -> k = from m) as Hsame.
  { intros k HG. destruct (iv_voter _ _ _ _ HI _ _ _ HG) as (s & Hs & Hts & Hvs & Hk). simplify_eq.
    destruct Gf as [[Hlt _]|(Heq & [H0|H0] & _)]; [lia| |]; rewrite <-(Hvs (eq_sym Heq)) in *; congruence. }
  assert (forall j s', <[to m := r']> (nodes c) !! j = Some s' -> state s' <> Follower ->
    exists s, nodes c !! j = Some s /\ state s' = state s /\ currentTerm s' = currentTerm s /\
      votesReceived s' = votesReceived s /\ votesNeeded s' = votesNeeded s) as Hrole.
  { intros j s'. rewrite lookup_insert. case_decide; [|eauto 6]. intros [= <-] Hst. subst j. exists r.
    destruct Gf as [[_ ?]|(Heq & _ & ? & ? & ?)]; [done|]. split_and!; try done. congruence. }
  split; cbn [nodes net].
  - intros j s. by eapply update_node.
  - intros t v k [HG|(-> & -> & ->)].
    + destruct (iv_voter _ _ _ _ HI _ _ _ HG) as (s & Hs & Ht & Hv & Hk). rewrite lookup_insert.
      case_decide; [|by eexists]. subst v. exists r'. split_and!; [done|simplify_eq; lia| |done].
      intros ->. rewrite Gt in HG. rewrite Gv, Hcand. symmetry. by apply Hsame.
    + exists r'. rewrite lookup_insert, decide_True by done. split_and!; [done|lia|congruence|done].
  - intros t v k [HG|(-> & -> & ->)]; [by eapply update_chosen|].
    destruct (update_lookup _ _ _ _ _ _ Hr Hle Hrc) as (s' & Hs' & ?). exists s'. split; [done|lia].
  - intros t v k k' [HG|(-> & -> & ->)] [HG'|(E1 & E2 & E3)]; subst; [by eapply iv_once| | |done].
    + by apply Hsame.
    + symmetry. by apply Hsame.
  - intros m' req' [Hm'|Hm'%list_elem_of_singleton]%elem_of_app Hc; [|by subst m'].
    eapply update_request; [done|done|done|by eapply elem_of_submseteq|done].
  - intros m' resp [Hm'|Hm'%list_elem_of_singleton]%elem_of_app Hc Hg; [|subst m'].
    + left. eapply iv_response; [done| |done|done]. by eapply elem_of_submseteq.
    + injection Hc as <-. right. cbn. by rewrite Hid.
  - intros j s' Hs' Hst. destruct (Hrole j s' Hs') as (s & Hs & H1 & H2 & H3 & H4); [by rewrite Hst|].
    rewrite H2, H3, H4. destruct (iv_candidate _ _ _ _ HI j s Hs) as (? & ? & ? & HC & Htok); [congruence|].
    split_and!; try done; [by auto|]. intros v. specialize (Htok v). rewrite Hnet, !tokens_app, !tokens_cons in Htok.
    rewrite !tokens_app, tokens_cons, Hid, (grant_token _ _ _ _ _ Hm). change (tokens _ _ _ []) with 0%nat. lia.
  - intros j s' Hs' Hst. destruct (Hrole j s' Hs') as (s & Hs & H1 & H2 & _); [by rewrite Hst|].
    rewrite H2. apply (iv_leader _ _ _ _ HI j s Hs). congruence.
  - intros t i HL. destruct (iv_led _ _ _ _ HI t i HL) as (Q & ? & ? & HQ). exists Q. eauto.
Qed.

(** *** A vote is counted *)

(** A vote that arrives was not counted before, and nothing else carries it. *)
Lemma count_tokens i t m (l pre post : list message) (N : list nat) :
  l = pre ++ m :: post -> token i t (from m) m = true ->
  (tokens i t (from m) l + (if decide (from m ∈ N) then 1 else 0) <= 1)%nat ->
  from m ∉ N /\ tokens i t (from m) (pre ++ post) = 0%nat.
Proof.
  intros -> Ht. rewrite !tokens_app, tokens_cons, Ht. case_decide; intros; split; try done; lia.
Qed.

Lemma inv_counts G L C c m resp r r' pre post :
  Inv G L C c -> net c = pre ++ m :: post -> content m = RVR resp -> nodes c !! to m = Some r ->
  counts resp r r' ->
  Inv G (fun t i => L t i \/ (t = currentTerm r /\ i = to m /\ state r' = Leader))
    (fun i => if decide (i = to m) then from m :: C i else C i)
    (mkCluster (<[to m := r']> (nodes c)) (pre ++ post)).
Proof.
  intros HI Hnet Hm Hr [Cid Cp Ct Cv (Cg & Crt & Cs) (Cr & Cn) Cst].
  assert (m ∈ net c) as Hin by (rewrite Hnet; apply elem_of_app; right; by constructor).
  pose proof (without_submseteq _ _ _ _ Hnet) as Hsub.
  pose proof (iv_response _ _ _ _ HI m resp Hin Hm Cg) as HG. rewrite Crt in HG.
  destruct (iv_candidate _ _ _ _ HI _ _ Hr Cs) as (Hneed & HND & Hlen & HC & Htok).
  assert (token (to m) (currentTerm r) (from m) m = true) as Hmine by (unfold token; by rewrite Hm, Crt, Cg, !Nat.eqb_refl).
  destruct (count_tokens _ _ _ _ _ _ _ Hnet Hmine (Htok (from m))) as [Hnew Hzero].
  assert (forall v, v ∈ from m :: C (to m) -> G (currentTerm r) v (to m)) as HC'.
  { intros v [->|Hv]%elem_of_cons; auto. }
  assert (forall j s, nodes c !! j = Some s -> exists s', <[to m := r']> (nodes c) !! j = Some s' /\
    currentTerm s' = currentTerm s /\ votedFor s' = votedFor s) as Hup.
  { intros j s Hs. rewrite lookup_insert. case_decide; [simplify_eq|]; eauto. }
  split; cbn [nodes net].
  - intros j s. by eapply update_node.
  - intros t v k H. destruct (iv_voter _ _ _ _ HI _ _ _ H) as (s & Hs & Ht & Hv & Hk).
    destruct (Hup _ _ Hs) as (s' & Hs' & E1 & E2). exists s'. rewrite E1, E2. eauto.
  - intros t v k. eapply update_chosen; [done|done|lia].
  - apply HI.
  - intros m' req' Hm' Hc. eapply update_request; [done|done|lia|by eapply elem_of_submseteq|done].
  - intros m' resp' Hm'. eapply iv_response; [done|]. by eapply elem_of_submseteq.
  - intros j s'. rewrite lookup_insert. repeat case_decide; subst; try done.
    + intros [= <-] _. rewrite Cn, Cr, Ct. split_and!; [done|by constructor|cbn; lia|done|].
      intros v. pose proof (tokens_submseteq (to m) (currentTerm r) v _ _ Hsub). specialize (Htok v).
      destruct (decide (v = from m)) as [->|Hv]; [clear Htok; rewrite Hzero; case_decide; lia|].
      rewrite (decide_ext _ (v ∈ C (to m))); [lia|]. rewrite elem_of_cons. naive_solver.
    + intros Hs Hst. destruct (iv_candidate _ _ _ _ HI j s' Hs Hst) as (? & ? & ? & ? & Htok').
      split_and!; try done. intros v. specialize (Htok' v).
      pose proof (tokens_submseteq j (currentTerm s') v _ _ Hsub). lia.
  - intros j s'. rewrite lookup_insert. case_decide; subst; [|intros; left; by eapply iv_leader].
    intros [= <-] Hst. right. by rewrite Ct.
  - intros t i [HL|(-> & -> & Hst)]; [by apply HI|]. exists (from m :: C (to m)).
    destruct Cst as [?|[_ Hn]]; [congruence|]. split_and!; [by constructor|cbn [length]; lia|done].
Qed.

(** *** An election starts *)

(** At most one request goes to each peer, and none to the candidate itself. *)
Lemma request_tokens i t v r :
  (tokens i t v (broadcastRequestVote r) <= if decide (v = NodeID r) then 0 else 1)%nat.
Proof.
  unfold broadcastRequestVote. destruct (Last (log r)) as [x y].
  assert (NoDup (other_peers r)) as HND by (apply NoDup_filter, NoDup_seq).
  assert (forall p, p ∈ other_peers r -> p <> NodeID r) as Hself by (intros p [? _]%list_elem_of_filter; done).
  set (f := fun peer => _). induction (other_peers r) as [|p l IH]; [cbn; lia|].
  apply NoDup_cons in HND as [Hp HND]. cbn [fmap list_fmap]. rewrite tokens_cons.
  specialize (IH HND (fun q Hq => Hself q (list_elem_of_further _ _ _ Hq))).
  destruct (token i t v (f p)) eqn:Ht; [|lia].
  unfold token, f in Ht. cbn in Ht. apply andb_prop in Ht as [[_ Hv%Nat.eqb_eq]%andb_prop _]. subst v.
  rewrite decide_False by (apply Hself; by constructor).
  rewrite tokens_none; [lia|]. intros m (q & -> & Hq)%list_elem_of_fmap. unfold token, f. cbn.
  destruct (Nat.eqb_spec q p); [by subst|]. by rewrite andb_false_r.
Qed.

Lemma request_out r m :
  m ∈ broadcastRequestVote r ->
  from m = NodeID r /\ exists req, content m = RV req /\ rv_CandidateID req = NodeID r /\ rv_Term req = currentTerm r.
Proof.
  unfold broadcastRequestVote. destruct (Last (log r)) as [x y]. intros (p & -> & _)%list_elem_of_fmap.
  split; [done|]. by eexists.
Qed.

(** Nothing of a term its candidate has not reached is on its way. *)
Lemma fresh_tokens G L C c i r t v :
  Inv G L C c -> nodes c !! i = Some r -> (currentTerm r < t)%nat -> tokens i t v (net c) = 0%nat.
Proof.
  intros HI Hr Hlt. apply tokens_none. intros m Hm. destruct (token i t v m) eqn:Htk; [|done].
  unfold token in Htk. destruct (content m) as [| |req|resp] eqn:Hc; try done.
  - apply andb_prop in Htk as [[Hf%Nat.eqb_eq _]%andb_prop Ht%Nat.eqb_eq].
    destruct (iv_request _ _ _ _ HI m req Hm Hc) as (_ & s & Hs & Hle). rewrite Hf in Hs. simplify_eq. lia.
  - apply andb_prop in Htk as [[[_ Hto%Nat.eqb_eq]%andb_prop Ht%Nat.eqb_eq]%andb_prop Hg].
    pose proof (iv_response _ _ _ _ HI m resp Hm Hc Hg) as HG.
    destruct (iv_chosen _ _ _ _ HI _ _ _ HG) as (s & Hs & Hle). rewrite Hto in Hs. simplify_eq. lia.
Qed.

Lemma inv_election G L C c i r r' :
  Inv G L C c -> nodes c !! i = Some r -> r' = becomeCandidate (set_timers false (heartbeatTimer r) r) ->
  Inv (fun t v k => G t v k \/ (t = S (currentTerm r) /\ v = i /\ k = i)) L
    (fun j => if decide (j = i) then [i] else C j)
    (mkCluster (<[i := r']> (nodes c)) (net c ++ broadcastRequestVote r')).
Proof.
  intros HI Hr ->. destruct (iv_node _ _ _ _ HI _ _ Hr) as (Hid & Hp & Hrange).
  set (r' := becomeCandidate _). assert (currentTerm r' = S (currentTerm r)) as Ht' by done.
  assert (forall t v k, G t v k -> t <> S (currentTerm r) \/ (v <> i /\ k <> i)) as Hfresh.
  { intros t v k HG. destruct (decide (t = S (currentTerm r))) as [->|]; [|by left]. right. split; intros ->.
    - destruct (iv_voter _ _ _ _ HI _ _ _ HG) as (s & Hs & ? & _). simplify_eq. lia.
    - destruct (iv_chosen _ _ _ _ HI _ _ _ HG) as (s & Hs & ?). simplify_eq. lia. }
  assert (forall j s, nodes c !! j = Some s -> exists s', <[i := r']> (nodes c) !! j = Some s' /\
    (currentTerm s <= currentTerm s')%nat /\ (j = i \/ s' = s)) as Hup.
  { intros j s Hs. rewrite lookup_insert. case_decide; [simplify_eq; exists r'; split_and!; [done|lia|by left]|eauto]. }
  assert (forall m, m ∈ broadcastRequestVote r' -> from m = i /\ exists req, content m = RV req /\
    rv_CandidateID req = i /\ rv_Term req = S (currentTerm r)) as Hout.
  { intros m Hm%request_out. by rewrite Ht' in Hm; change (NodeID r') with (NodeID r) in Hm; rewrite Hid in Hm. }
  split; cbn [nodes net].
  - intros j s. by eapply update_node.
  - intros t v k [HG|(-> & -> & ->)].
    + destruct (iv_voter _ _ _ _ HI _ _ _ HG) as (s & Hs & Ht & Hv & Hk).
      destruct (Hup _ _ Hs) as (s' & Hs' & Hle & Hor). exists s'. split_and!; [done|lia| |done].
      intros ->. destruct Hor as [-> | ->]; [|auto]. rewrite lookup_insert, decide_True in Hs' by done. injection Hs' as <-.
      destruct (Hfresh _ _ _ HG) as [?|[? _]]; done.
    + exists r'. rewrite lookup_insert, decide_True by done. split_and!; [done|lia|done|lia].
  - intros t v k [HG|(-> & -> & ->)]; [eapply update_chosen; [done|done|lia|done]|].
    exists r'. rewrite lookup_insert_eq. split; [done|lia].
  - intros t v k k' [HG|(-> & -> & ->)] [HG'|(E1 & E2 & E3)]; subst; [by eapply iv_once| | |done].
    + by destruct (Hfresh _ _ _ HG) as [|[? _]].
    + by destruct (Hfresh _ _ _ HG') as [|[? _]].
  - intros m req [Hm|Hm]%elem_of_app Hc.
    + eapply update_request; [done|done|lia|done|done].
    + destruct (Hout m Hm) as (Hf & req' & Hc' & H1 & H2). rewrite Hc in Hc'. injection Hc' as <-.
      rewrite Hf. split; [done|]. exists r'. rewrite lookup_insert, decide_True by done. split; [done|lia].
  - intros m resp [Hm|Hm]%elem_of_app Hc Hg; [left; by eapply iv_response|].
    destruct (Hout m Hm) as (_ & req' & Hc' & _). congruence.
  - intros j s'. destruct (decide (j = i)) as [->|Hne].
    + rewrite lookup_insert_eq. intros [= <-] _. split_and!; [by unfold majority; cbn; rewrite Hp|apply NoDup_singleton|done| |].
      { intros v ->%list_elem_of_singleton. right. by split_and!. }
      intros v. rewrite tokens_app, (fresh_tokens _ _ _ _ _ _ _ _ HI Hr) by lia.
      pose proof (request_tokens i (currentTerm r') v r') as Hrt. change (NodeID r') with (NodeID r) in Hrt. rewrite Hid in Hrt.
      destruct (decide (v ∈ [i])) as [Hv|Hv]; rewrite list_elem_of_singleton in Hv;
        [rewrite decide_True in Hrt by done|rewrite decide_False in Hrt by done]; lia.
    + rewrite lookup_insert_ne by done. intros Hs Hst. destruct (iv_candidate _ _ _ _ HI j s' Hs Hst) as (? & ? & ? & HC & Htok).
      split_and!; try done; [by auto|]. intros v. rewrite tokens_app, (tokens_none _ _ _ (broadcastRequestVote r')), Nat.add_0_r; [done|].
      intros m Hm. destruct (Hout m Hm) as (Hf & req & Hc & _). unfold token. rewrite Hc, Hf.
      destruct (Nat.eqb_spec i j); done.
  - intros j s'. rewrite lookup_insert. case_decide; [by intros [= <-]|]. apply HI.
  - intros t j HL. destruct (iv_led _ _ _ _ HI t j HL) as (Q & ? & ? & HQ). exists Q. eauto.
Qed.

(** *** Every step *)

Lemma inv_step G L C c c' :
  Inv G L C c -> step c c' -> exists G' L' C', Inv G' L' C' c' /\ forall t i, L t i -> L' t i.
Proof.
  intros HI Hstep. destruct Hstep as [m pre post r Hnet Hr|m pre post Hnet|i r Hr _|i r Hr _|i r cmd Hr]; unfold run_at.
  - pose proof (without_submseteq _ _ _ _ Hnet) as Hsub.
    unfold handleRPC. destruct (content m) as [req|resp|req|resp] eqn:Hc.
    + exists G, L, C. split; [|done]. eapply inv_bystander; [done|done|apply append_entries_bystander|done].
    + exists G, L, C. split; [|done]. eapply inv_bystander; [done|done|apply append_response_bystander|done].
    + destruct (request_vote_cases (from m) req r) as [HB|HG].
      * exists G, L, C. split; [|done]. by eapply inv_bystander.
      * eexists _, L, C. split; [|done]. by eapply inv_grants.
    + destruct (vote_response_cases resp r) as [[HB Ho]|[HC Ho]]; rewrite Ho.
      * exists G, L, C. split; [|done]. by eapply inv_bystander.
      * rewrite app_nil_r. eexists G, _, _. split; [by eapply inv_counts|]. by left.
  - exists G, L, C. split; [|done]. apply inv_net; [done|]. by apply without_submseteq in Hnet.
  - destruct (election_cases r) as [[HB _]|(H1 & H2 & _)].
    + exists G, L, C. split; [|done]. by eapply inv_bystander.
    + rewrite H2, H1. eexists _, L, _. split; [by eapply inv_election|done].
  - exists G, L, C. split; [|done]. eapply inv_bystander; [done|done|apply heartbeat_bystander|done].
  - exists G, L, C. split; [|done]. eapply inv_bystander; [done|done|apply propose_bystander|done].
Qed.

Lemma inv_steps c c' : steps c c' -> forall G L C, Inv G L C c ->
  exists G' L' C', Inv G' L' C' c' /\ forall t i, L t i -> L' t i.
Proof.
  induction 1 as [c|c c1 c2 Hs _ IH]; intros G L C HI; [by exists G, L, C|].
  destruct (inv_step _ _ _ _ _ HI Hs) as (G1 & L1 & C1 & HI1 & HL1).
  destruct (IH _ _ _ HI1) as (G2 & L2 & C2 & HI2 & HL2). exists G2, L2, C2. auto.
Qed.

End Invariant.

(** ** The election timer of a node that does not lead *)

Definition armed (r : Raft) : Prop := state r <> Leader -> electionTimer r = true.

Lemma becomeFollower_armed t r : electionTimer (becomeFollower t r) = true.
Proof. unfold becomeFollower. by case_match. Qed.

Lemma vote_timer_armed r r' :
  vote_state r' = vote_state r /\ electionTimer r' = electionTimer r -> armed r -> armed r'.
Proof. unfold armed, vote_state. intros [[= _ _ _ _ -> _ _] ->]. done. Qed.

Lemma handleRPC_armed m r : armed r -> armed (handleRPC m r).1.
Proof.
  intros Ha. unfold handleRPC. destruct (content m) as [req|resp|req|resp].
  - unfold handleAppendEntries. case_match; [exact Ha|]. cbv zeta.
    set (r2 := set_role Follower _ _). assert (armed r2) as H2 by (by intros _).
    case_match; [exact H2|]. unfold ae_respond. cbn [fst].
    set (r3 := match ae_Entries req with
               | [] => r2 | entries => set_log (Append entries (Truncate (S (ae_PrevLogIndex req)) (log r2))) r2 end).
    assert (armed r3) as H3 by (unfold r3; by destruct (ae_Entries req)).
    destruct (commitIndex r3 <? ae_LeaderCommit req)%nat; [|exact H3]. destruct (Last (log r3)) as [i t].
    eapply vote_timer_armed; [apply apply_loop_vote|]. exact H3.
  - unfold handleAppendEntriesResponse. case_match; [intros _; apply becomeFollower_armed|].
    case_match; [done|]. case_match; cbv zeta; cbn [fst].
    + eapply vote_timer_armed; [apply advanceCommitIndex_vote|]. by case_match.
    + by case_match.
  - unfold handleRequestVote. case_match; [exact Ha|]. cbv zeta.
    set (r1 := if (currentTerm r <? rv_Term req)%nat then becomeFollower (rv_Term req) r else r).
    assert (armed r1) as H1.
    { unfold r1. destruct (currentTerm r <? rv_Term req)%nat; [intros _; apply becomeFollower_armed|done]. }
    destruct (Last (log r1)) as [i t]. case_match; [by intros _|exact H1].
  - unfold handleRequestVoteResponse. case_match; [intros _; apply becomeFollower_armed|].
    case_match; [done|]. case_match; [|done]. cbv zeta. cbn [fst]. case_match; [|done].
    intros Hne. exfalso. apply Hne. unfold becomeLeader. by case_match.
Qed.

Lemma step_armed c c' :
  step c c' -> (forall i r, nodes c !! i = Some r -> armed r) -> forall i r, nodes c' !! i = Some r -> armed r.
Proof.
  intros Hstep Hall. assert (forall i h r net, nodes c !! i = Some r -> armed (h r).1 ->
    forall j s, nodes (run_at i h r net c) !! j = Some s -> armed s) as Hrun.
  { intros i h r net Hr Hh j s. cbn. rewrite lookup_insert. case_decide; [|apply Hall]. by intros [= <-]. }
  destruct Hstep as [m pre post r Hnet Hr|m pre post Hnet|i r Hr _|i r Hr _|i r cmd Hr].
  - apply Hrun; [done|]. apply handleRPC_armed. by eapply Hall.
  - exact Hall.
  - apply Hrun; [done|]. unfold handleElectionTimeout. cbv zeta. case_decide as Hl; [|by intros _].
    intros Hne. by destruct Hne.
  - apply Hrun; [done|]. pose proof (Hall i r Hr) as Ha. unfold handleHeartbeatTimeout. cbv zeta. by case_decide.
  - apply Hrun; [done|]. pose proof (Hall i r Hr) as Ha. unfold handlePropose. case_decide; [done|].
    destruct (Last (log r)) as [x y]. cbn [fst]. eapply vote_timer_armed; [apply advanceCommitIndex_vote|]. exact Ha.
Qed.

(** ** Running a schedule *)

Inductive action : Type :=
| Deliver (k : nat)
| Elect (i : nat)
| Beat (i : nat)
| ProposeAt (i : nat) (cmd : bytes).

(** The step an action stands for, if it is possible; [Deliver k] takes the [k]th message. *)
Definition exec (a : action) (c : cluster) : option cluster :=
  match a with
  | Deliver k =>
      m ← net c !! k;
      r ← nodes c !! to m;
      Some (run_at (to m) (handleRPC m) r (take k (net c) ++ drop (S k) (net c)) c)
  | Elect i =>
      r ← nodes c !! i;
      if electionTimer r then Some (run_at i handleElectionTimeout r (net c) c) else None
  | Beat i =>
      r ← nodes c !! i;
      if heartbeatTimer r then Some (run_at i handleHeartbeatTimeout r (net c) c) else None
  | ProposeAt i cmd => r ← nodes c !! i; Some (run_at i (handlePropose cmd) r (net c) c)
  end.

Fixpoint exec_all (l : list action) (c : cluster) : option cluster :=
  match l with
  | [] => Some c
  | a :: l => c ← exec a c; exec_all l c
  end.

Lemma exec_step a c c' : exec a c = Some c' -> step c c'.
Proof.
  destruct a as [k|i|i|i cmd]; cbn; intros H.
  - destruct (net c !! k) as [m|] eqn:Hm; [|done]. cbn in H. destruct (nodes c !! to m) as [r|] eqn:Hr; [|done].
    injection H as <-. apply step_deliver; [|done]. by rewrite take_drop_middle.
  - destruct (nodes c !! i) as [r|] eqn:Hr; [|done]. cbn in H. destruct (electionTimer r) eqn:He; [|done].
    injection H as <-. by apply step_election.
  - destruct (nodes c !! i) as [r|] eqn:Hr; [|done]. cbn in H. destruct (heartbeatTimer r) eqn:He; [|done].
    injection H as <-. by apply step_heartbeat.
  - destruct (nodes c !! i) as [r|] eqn:Hr; [|done]. cbn in H. injection H as <-. by apply step_propose.
Qed.

Lemma exec_all_steps l c c' : exec_all l c = Some c' -> steps c c'.
Proof.
  revert c. induction l as [|a l IH]; intros c; cbn; [by intros [= ->]|].
  destruct (exec a c) as [c1|] eqn:Ha; [|done]. intros H. eapply rtc_l; [by eapply exec_step|by apply IH].
Qed.

(** ** Properties *)

(** C8 (safety): election safety.  In a cluster whose nodes are numbered from 1 and
    all know its size, there is at most one leader per term, ever: a leader now and
    a leader later, of the same term, are the same node, whatever order messages
    arrive in and however many are lost. *)
Theorem election_safety n c c' i j r s :
  steps (init n) c -> steps c c' -> nodes c !! i = Some r -> nodes c' !! j = Some s ->
  state r = Leader -> state s = Leader -> currentTerm r = currentTerm s -> i = j.
Proof.
  intros H1 H2 Hr Hs Lr Ls Ht. destruct (inv_steps n _ _ H1 _ _ _ (init_inv n)) as (G & L & C & HI & _).
  destruct (inv_steps n _ _ H2 _ _ _ HI) as (G' & L' & C' & HI' & HL).
  eapply led_once; [exact HI'|apply HL, (iv_leader _ _ _ _ _ HI i r Hr Lr)|].
  rewrite Ht. by apply (iv_leader _ _ _ _ _ HI' j s Hs Ls).
Qed.

(** A node that does not lead can always start an election: its
    election timer is running in every reachable state. *)
Theorem election_timer_runs n c i r :
  steps (init n) c -> nodes c !! i = Some r -> state r <> Leader -> electionTimer r = true.
Proof.
  intros Hsteps Hr Hne. enough (forall i r, nodes c !! i = Some r -> armed r) as Hall by (by apply (Hall i r Hr)).
  clear Hr Hne. remember (init n) as c0 eqn:Hc0.
  assert (forall i r, nodes c0 !! i = Some r -> armed r) as H0 by (subst c0; by intros ? ? [-> _]%init_lookup).
  clear Hc0. induction Hsteps as [c|c c1 c2 Hs _ IH]; [exact H0|]. apply IH. by eapply step_armed.
Qed.

(** ** Schedules *)

(** Three nodes; the first is elected by the second and is given a command. *)
Definition first_leads : list action := [Elect 1; Deliver 0; Deliver 1; ProposeAt 1 [Byte.x01]].

(** What a schedule reaches, or the initial cluster. *)
Definition reached (l : list action) (n : nat) : cluster := default (init n) (exec_all l (init n)).

Lemma reached_steps l n : steps (init n) (reached l n).
Proof.
  unfold reached. destruct (exec_all l (init n)) as [c|] eqn:H; cbn; [by eapply exec_all_steps|done].
Qed.

(** The node [i] of a reached cluster. *)
Definition reached_node (i : nat) (l : list action) (n : nat) : Raft :=
  default (NewRaft i n) (nodes (reached l n) !! i).

Lemma election_safety_witness :
  state (reached_node 1 first_leads 3) = Leader /\ (1 = 1)%nat.
Proof.
  split; [by vm_compute|].
  apply (election_safety 3 (reached first_leads 3) (reached first_leads 3) 1 1
    (reached_node 1 first_leads 3) (reached_node 1 first_leads 3));
    [apply reached_steps|apply rtc_refl|by vm_compute|by vm_compute|by vm_compute|by vm_compute|reflexivity].
Defined.

Lemma election_timer_runs_witness : electionTimer (reached_node 2 first_leads 3) = true.
Proof.
  apply (election_timer_runs 3 (reached first_leads 3) 2 (reached_node 2 first_leads 3));
    [apply reached_steps|by vm_compute|by vm_compute].
Defined.

(** A cluster of one node never has a leader: the votes are counted
    when a response arrives, and there is nobody to respond.  It stays without
    messages, and every proposal is dropped. *)
Theorem single_node_never_leads c i r cmd :
  steps (init 1) c -> nodes c !! i = Some r ->
  state r <> Leader /\ handlePropose cmd r = (r, []) /\ net c = [].
Proof.
  intros Hsteps Hr. enough (net c = [] /\ forall i r, nodes c !! i = Some r -> NodeID r = 1%nat /\ Peers r = 1%nat /\ state r <> Leader)
    as [Hn Hall].
  { destruct (Hall i r Hr) as (_ & _ & Hl). split_and!; [done| |done]. unfold handlePropose. by rewrite decide_True. }
  clear i r cmd Hr. remember (init 1) as c0 eqn:Hc0.
  assert (net c0 = [] /\ forall i r, nodes c0 !! i = Some r -> NodeID r = 1%nat /\ Peers r = 1%nat /\ state r <> Leader) as H0.
  { subst c0. split; [done|]. intros i r [-> ?]%init_lookup. cbn. split_and!; [lia|done|done]. }
  clear Hc0. induction Hsteps as [c|c c1 c2 Hs _ IH]; [exact H0|]. apply IH. clear IH. destruct H0 as [Hn Hall].
  assert (forall i h r, nodes c !! i = Some r -> (h r).2 = [] ->
    NodeID (h r).1 = 1%nat /\ Peers (h r).1 = 1%nat /\ state (h r).1 <> Leader ->
    net (run_at i h r (net c) c) = [] /\
    forall j s, nodes (run_at i h r (net c) c) !! j = Some s -> NodeID s = 1%nat /\ Peers s = 1%nat /\ state s <> Leader) as Hrun.
  { intros i h r Hr Ho Hh. cbn. rewrite Hn, Ho. split; [done|]. intros j s.
    rewrite lookup_insert. case_decide; [|apply Hall]. by intros [= <-]. }
  destruct Hs as [m pre post r Hnet _|m pre post Hnet|i r Hr _|i r Hr _|i r cmd Hr];
    [rewrite Hn in Hnet; by destruct pre|rewrite Hn in Hnet; by destruct pre| | |];
    destruct (Hall i r Hr) as (Hid & Hp & Hl); apply Hrun; try done.
  - unfold handleElectionTimeout, broadcastRequestVote, other_peers. cbv zeta. rewrite decide_False by done.
    cbn. destruct (Last (log r)). by rewrite Hp, Hid.
  - unfold handleElectionTimeout. cbv zeta. by rewrite decide_False.
  - unfold handleHeartbeatTimeout. cbv zeta. by rewrite decide_True.
  - unfold handleHeartbeatTimeout. cbv zeta. by rewrite decide_True.
  - unfold handlePropose. by rewrite decide_True.
  - unfold handlePropose. by rewrite decide_True.
Qed.

Lemma single_node_never_leads_witness :
  state (reached_node 1 [Elect 1; Elect 1; ProposeAt 1 []] 1) = Candidate /\
  handlePropose [] (reached_node 1 [Elect 1; Elect 1; ProposeAt 1 []] 1) = (reached_node 1 [Elect 1; Elect 1; ProposeAt 1 []] 1, []).
Proof.
  split; [by vm_compute|].
  apply (single_node_never_leads (reached [Elect 1; Elect 1; ProposeAt 1 []] 1) 1); [apply reached_steps|by vm_compute].
Defined.

(** State machine safety does not hold.  There is a run of three nodes,
    without lost messages or crashes, after which two of them have applied different
    commands at the same index: node 1 commits two commands on the acknowledgement of
    node 2, a late copy of the first request cuts the second command off at node 2,
    which then wins the next election and commits another command in its place. *)
Theorem committed_command_replaced :
  exists c r s index cmd cmd', steps (init 3) c /\ nodes c !! 1%nat = Some r /\ nodes c !! 2%nat = Some s /\
    (index, cmd) ∈ applied r /\ (index, cmd') ∈ applied s /\ cmd <> cmd'.
Proof.
  pose (l := first_leads ++ [ProposeAt 1 [Byte.x02]; Deliver 3; Deliver 4; Deliver 1; Elect 2; Deliver 5; Deliver 5;
             ProposeAt 2 [Byte.x03]; Deliver 6; Deliver 6; Deliver 6; Deliver 6]).
  exists (reached l 3), (reached_node 1 l 3), (reached_node 2 l 3), 2%nat, [Byte.x02], [Byte.x03].
  split_and!; [apply reached_steps|by vm_compute|by vm_compute| | |done].
  - replace (applied (reached_node 1 l 3)) with [(1%nat, [Byte.x01]); (2%nat, [Byte.x02])] by (by vm_compute). set_solver.
  - replace (applied (reached_node 2 l 3)) with [(1%nat, [Byte.x01]); (2%nat, [Byte.x03])] by (by vm_compute). set_solver.
Qed.
