(* ===== verification/RaftLog.v ===== *)
(** * A cluster of Raft nodes: the logs

    Two logs that have an entry of the same index and term are equal up to it, and every node hands its commands to the
    application one per index, in order.  The invariant remembers the log each term's leader had last: every log is, up to each
    of its entries, the beginning of the log of that entry's leader. *)

From stdpp Require Import base tactics numbers list gmap sets fin_maps.
From S2P Require Import Prelude.
From S2P Require Import Raft.
From S2P Require Import RaftSafety.

Open Scope nat_scope.

(** ** Logs *)

(** [H t] is the log of the leader of term [t], empty if there was none. *)
Record traced (H : nat -> list LogEntry) (l : list LogEntry) : Prop := {
  tr_head : l !! 0 = Some (mkLogEntry 0 0 []);
  tr_index p e : l !! p = Some e -> Index e = p;
  tr_prefix p e : l !! p = Some e -> p <> 0 -> 1 <= Term e /\ take (S p) l `prefix_of` H (Term e);
}.

Lemma traced_length H l : traced H l -> 0 < length l.
Proof. intros [Hh _ _]. by eapply lookup_lt_Some. Qed.

Lemma traced_Last H l : traced H l -> S (Last l).1 = length l.
Proof.
  intros Ht. pose proof (traced_length H l Ht) as Hlen. unfold Last. rewrite last_lookup.
  destruct (lookup_lt_is_Some_2 l (Nat.pred (length l)) ltac:(lia)) as [e He]. rewrite He. cbn.
  rewrite (tr_index H l Ht _ _ He). lia.
Qed.

Lemma traced_mono H H' l : (forall t, H t `prefix_of` H' t) -> traced H l -> traced H' l.
Proof.
  intros Hm [H1 H2 H3]. split; [done|done|]. intros p e He Hp. destruct (H3 p e He Hp) as [? ?].
  split; [done|]. by etrans.
Qed.

(** Beginnings of traced logs. *)
Lemma traced_prefix H l l' : traced H l -> l' `prefix_of` l -> l' <> [] -> traced H l'.
Proof.
  intros [H1 H2 H3] Hpre Hne. assert (forall p e, l' !! p = Some e -> l !! p = Some e) as Hlook.
  { intros p e He. by eapply prefix_lookup_Some. }
  split.
  - destruct l' as [|e l']; [done|]. rewrite <-H1. symmetry. by apply (Hlook 0 e).
  - eauto.
  - intros p e He Hp. destruct (H3 p e (Hlook p e He) Hp) as [? Ht]. split; [done|].
    etrans; [|exact Ht]. destruct Hpre as [k ->]. apply lookup_lt_Some in He. rewrite take_app_le by lia. done.
Qed.

(** ** What the leaders sent *)

Record sent_ok (H : nat -> list LogEntry) (O : nat -> nat) (m : message) (req : AppendEntriesRequest) : Prop := {
  so_led : H (ae_Term req) <> [];
  so_from : from m = O (ae_Term req);
  so_prev : 0 < ae_PrevLogIndex req ->
    ae_PrevLogTerm req = 0 \/ exists e, H (ae_Term req) !! ae_PrevLogIndex req = Some e /\ Term e = ae_PrevLogTerm req;
  so_entries : ae_Entries req `prefix_of` drop (S (ae_PrevLogIndex req)) (H (ae_Term req));
}.

Lemma drop_prefix {A} k (l l' : list A) x : l `prefix_of` l' -> x `prefix_of` drop k l -> x `prefix_of` drop k l'.
Proof.
  intros [y ->] Hx. destruct (decide (k <= length l)).
  - rewrite drop_app_le by done. etrans; [exact Hx|]. by apply prefix_app_r.
  - rewrite drop_ge in Hx by lia. apply prefix_nil_inv in Hx as ->. apply prefix_nil.
Qed.

Lemma prefix_not_nil {A} (l l' : list A) : l `prefix_of` l' -> l <> [] -> l' <> [].
Proof. intros Hp Hne ->. by apply prefix_nil_inv in Hp. Qed.

Lemma sent_mono H H' O O' m req :
  (forall t, H t `prefix_of` H' t) -> (forall t, H t <> [] -> O' t = O t) -> sent_ok H O m req -> sent_ok H' O' m req.
Proof.
  intros Hm Ho [H1 H2 H3 H4]. split.
  - exact (prefix_not_nil _ _ (Hm _) H1).
  - by rewrite Ho by done.
  - intros Hp. destruct (H3 Hp) as [?|(e & He & ?)]; [by left|right]. exists e. split; [exact (prefix_lookup_Some _ _ _ _ He (Hm _))|done].
  - exact (drop_prefix _ _ _ _ (Hm _) H4).
Qed.

(** A log that accepts the entries becomes the beginning of the leader's log. *)
Lemma accepted_prefix H O m req l :
  (H (ae_Term req) <> [] -> traced H (H (ae_Term req))) -> traced H l -> sent_ok H O m req ->
  (0 < ae_PrevLogIndex req -> exists e, l !! ae_PrevLogIndex req = Some e /\ Term e = ae_PrevLogTerm req) ->
  take (S (ae_PrevLogIndex req)) l ++ ae_Entries req `prefix_of` H (ae_Term req).
Proof.
  intros Hh Hl [Hled _ Hprev Hent] Hcons. specialize (Hh Hled). set (p := ae_PrevLogIndex req) in *. set (h := H (ae_Term req)) in *.
  assert (take (S p) l = take (S p) h) as Htake.
  { destruct (decide (p = 0)) as [Hz|Hz].
    - rewrite Hz. erewrite !(take_S_r _ 0) by (eapply tr_head; eassumption). done.
    - destruct (Hcons ltac:(lia)) as (e & He & Het). destruct (tr_prefix H l Hl p e He Hz) as [Hpos Hpre].
      destruct (Hprev ltac:(lia)) as [Hzero|(e' & He' & Het')]; [lia|].
      destruct (tr_prefix H h Hh p e' He' Hz) as [_ Hpre']. rewrite Het', <-Het in Hpre'.
      apply lookup_lt_Some in He, He'. destruct (prefix_weak_total _ _ _ Hpre Hpre') as [Hx|Hx].
      + apply (prefix_length_eq _ _ Hx). rewrite !length_take. lia.
      + symmetry. apply (prefix_length_eq _ _ Hx). rewrite !length_take. lia. }
  rewrite Htake. destruct Hent as [k Hk]. exists k. rewrite <-app_assoc, <-Hk. by rewrite take_drop.
Qed.

(** ** What was applied *)

(** Everything committed is applied, one command per index, in order. *)
Definition applied_ok (r : Raft) : Prop := commitIndex r <= lastApplied r /\ (applied r).*1 = seq 1 (lastApplied r).

Lemma apply_loop_log fuel r : log (apply_loop fuel r) = log r.
Proof. revert r. induction fuel as [|fuel IH]; intros r; [done|]. cbn [apply_loop]. case_match; [by rewrite IH|done]. Qed.

Lemma apply_loop_ok H fuel r :
  traced H (log r) -> commitIndex r < length (log r) -> (applied r).*1 = seq 1 (lastApplied r) ->
  commitIndex r <= lastApplied r + fuel -> applied_ok (apply_loop fuel r).
Proof.
  revert r. induction fuel as [|fuel IH]; intros r Ht Hc Ha Hf; cbn [apply_loop]; [split; [lia|done]|].
  destruct (Nat.ltb_spec (lastApplied r) (commitIndex r)); [|split; [lia|done]].
  destruct (lookup_lt_is_Some_2 (log r) (S (lastApplied r)) ltac:(lia)) as [e He].
  assert (Get (S (lastApplied r)) (log r) = Some e) as Hg.
  { unfold Get. rewrite (proj2 (Nat.leb_gt _ _)) by lia. done. }
  rewrite Hg. apply IH; [done|done| |cbn; lia].
  change ((applied r ++ [(Index e, Command e)]).*1 = seq 1 (S (lastApplied r))).
  rewrite fmap_app, Ha, seq_S. cbn. by rewrite (tr_index H _ Ht _ _ He).
Qed.

Lemma applyCommitted_ok H k r :
  traced H (log r) -> k < length (log r) -> applied_ok r -> applied_ok (applyCommitted (set_commit k r)).
Proof. intros Ht Hk [_ Ha]. eapply apply_loop_ok; cbn; [done|done|done|lia]. Qed.

Lemma advance_ok H r : traced H (log r) -> applied_ok r -> applied_ok (advanceCommitIndex r) /\ log (advanceCommitIndex r) = log r.
Proof.
  intros Ht Ha. unfold advanceCommitIndex. case_decide; [done|]. pose proof (traced_length H _ Ht).
  destruct (commit_loop_spec (length (log r)) (S (commitIndex r)) r) as (k & -> & Hk & Hor & _); [lia|lia|lia|].
  split; [|unfold applyCommitted; by rewrite apply_loop_log].
  destruct Hor as [->|(_ & _ & e & [Hlen _]%Get_Some & _)]; [|eapply applyCommitted_ok; [done|lia|done]].
  destruct Ha as [Hc Ha]. unfold applyCommitted. cbn [commitIndex set_commit lastApplied].
  replace (commitIndex r - lastApplied r) with 0 by lia. by split.
Qed.

(** ** The invariant *)

Record node_ok (H : nat -> list LogEntry) (r : Raft) : Prop := {
  no_log : traced H (log r);
  no_term : state r <> Follower -> 1 <= currentTerm r;
  no_applied : applied_ok r;
}.

(** [O t] is the node that led term [t]; as long as its term is [t], it leads. *)
Record LogInv (H : nat -> list LogEntry) (O : nat -> nat) (c : cluster) : Prop := {
  li_owner t : H t <> [] -> exists r, nodes c !! O t = Some r /\ t <= currentTerm r /\ (currentTerm r = t -> state r = Leader);
  li_leader i r : nodes c !! i = Some r -> state r = Leader -> O (currentTerm r) = i /\ H (currentTerm r) = log r;
  li_node i r : nodes c !! i = Some r -> node_ok H r;
  li_hist t : H t <> [] -> traced H (H t);
  li_apart m : m ∈ net c -> from m <> to m;
  li_sent m req : m ∈ net c -> content m = AE req -> sent_ok H O m req;
}.

(** What a node sends: to others, and entries of its term's log. *)
Definition out_ok (H : nat -> list LogEntry) (O : nat -> nat) (out : list message) : Prop :=
  forall m, m ∈ out -> from m <> to m /\ forall req, content m = AE req -> sent_ok H O m req.

(** The node's role after an event that makes no leader. *)
Definition no_new_leader (r r' : Raft) : Prop :=
  currentTerm r' = currentTerm r /\ (state r' = state r /\ log r' = log r \/ state r <> Leader /\ state r' <> Leader) \/
  currentTerm r < currentTerm r' /\ state r' <> Leader.

Lemma li_update H O c i r r' net0 out :
  LogInv H O c -> nodes c !! i = Some r -> no_new_leader r r' -> node_ok H r' -> net0 ⊆+ net c -> out_ok H O out ->
  LogInv H O (mkCluster (<[i := r']> (nodes c)) (net0 ++ out)).
Proof.
  intros [I1 I2 I3 I4 I5 I6] Hr Hrole Hok Hnet Hout.
  assert (forall m, m ∈ net0 -> m ∈ net c) as Hin by (intros m Hm; by eapply elem_of_submseteq).
  split; cbn [nodes net].
  - intros t Ht. destruct (I1 t Ht) as (s & Hs & Hle & Hl). rewrite lookup_insert. case_decide as He; [|eauto].
    rewrite He in Hr. rewrite Hr in Hs. injection Hs as <-. exists r'. split; [done|].
    destruct Hrole as [(-> & Hc)|(Hlt & _)]; [|split; lia]. split; [done|]. intros Ht'. specialize (Hl Ht').
    destruct Hc as [[-> _]|[]]; done.
  - intros j s. rewrite lookup_insert. case_decide as He; [|apply I2]. intros [= <-] Hl. subst j.
    destruct Hrole as [(-> & [[Hst ->]|[_ Hn]])|(_ & Hn)]; [|done|done]. apply (I2 i r Hr). congruence.
  - intros j s. rewrite lookup_insert. case_decide as He; [|apply I3]. by intros [= <-].
  - done.
  - intros m [Hm|Hm]%elem_of_app; [by apply I5, Hin|by apply Hout].
  - intros m req [Hm|Hm]%elem_of_app Hc; [by apply I6; [apply Hin|]|by apply Hout].
Qed.

(** A longer history. *)
Lemma li_node_mono H H' r : (forall t, H t `prefix_of` H' t) -> node_ok H r -> node_ok H' r.
Proof. intros Hm [? ? ?]. split; [by eapply traced_mono|done|done]. Qed.

(** ** The handlers *)

Lemma out_nil H O : out_ok H O [].
Proof. by intros m ?%not_elem_of_nil. Qed.

Lemma out_single H O m : from m <> to m -> (forall req, content m <> AE req) -> out_ok H O [m].
Proof. intros Hm Hc m' ->%list_elem_of_singleton. split; [done|]. intros req Hr. by destruct (Hc req). Qed.

(** Of a leader whose log is the history of its term. *)
Lemma send_ok H O peer r :
  traced H (log r) -> O (currentTerm r) = NodeID r -> H (currentTerm r) = log r -> peer <> NodeID r ->
  out_ok H O (sendAppendEntriesTo peer r).
Proof.
  intros Ht Ho Hh Hp m. unfold sendAppendEntriesTo. destruct (nextIndex r !! peer) as [next|]; [|by intros ?%not_elem_of_nil].
  intros ->%list_elem_of_singleton. split; [done|]. intros req [= <-].
  split; cbn [ae_Term ae_PrevLogIndex ae_PrevLogTerm ae_Entries from].
  - rewrite Hh. intros Hn. pose proof (traced_length H _ Ht) as Hl. rewrite Hn in Hl. cbn in Hl. lia.
  - done.
  - rewrite Hh. intros Hz. rewrite (proj2 (Nat.ltb_lt _ _) Hz). destruct (Get (next - 1) (log r)) as [e|] eqn:He; [right|by left].
    exists e. split; [by apply Get_Some in He as [_ ?]|done].
  - rewrite Hh. unfold Slice. destruct (_ <=? _); [apply prefix_nil|].
    replace (S (next - 1)) with (if next <? 1 then 1 else next) by (destruct (Nat.ltb_spec next 1); lia). apply prefix_take.
Qed.

Lemma broadcast_ok H O r :
  traced H (log r) -> O (currentTerm r) = NodeID r -> H (currentTerm r) = log r -> out_ok H O (broadcastAppendEntries r).
Proof.
  intros Ht Ho Hh m. unfold broadcastAppendEntries. rewrite list_elem_of_In, in_concat. intros (l & Hl & Hm).
  apply list_elem_of_In, list_elem_of_fmap in Hl as (p & -> & Hp). apply list_elem_of_In in Hm.
  apply list_elem_of_filter in Hp as [Hp _]. by apply (send_ok H O p r).
Qed.

Lemma request_vote_ok H O r : out_ok H O (broadcastRequestVote r).
Proof.
  intros m. unfold broadcastRequestVote. destruct (Last (log r)). intros (p & -> & [Hp _]%list_elem_of_filter)%list_elem_of_fmap.
  cbn. split; [congruence|done].
Qed.

(** Events that change neither log nor what is applied. *)
Definition untouched (r r' : Raft) : Prop :=
  log r' = log r /\ commitIndex r' = commitIndex r /\ lastApplied r' = lastApplied r /\ applied r' = applied r.

Lemma untouched_ok H r r' : untouched r r' -> (state r' <> Follower -> 1 <= currentTerm r') -> node_ok H r -> node_ok H r'.
Proof. intros (Hl & Hc & Ha & Hd) Ht [H1 H2 H3]. split; [by rewrite Hl|done|]. unfold applied_ok. by rewrite Hc, Ha, Hd. Qed.

(** The same role in the same term, or a follower in a later one. *)
Definition keeps_role (r r' : Raft) : Prop :=
  currentTerm r' = currentTerm r /\ state r' = state r \/ currentTerm r < currentTerm r' /\ state r' = Follower.

Lemma keeps_role_ok H r r' : untouched r r' -> keeps_role r r' -> node_ok H r -> no_new_leader r r' /\ node_ok H r'.
Proof.
  intros Hu Hk Hn. split.
  - destruct Hk as [[Ht Hs]|[Ht Hs]]; [left|right]; (split; [done|]); [left; split; [done|apply Hu]|by rewrite Hs].
  - eapply untouched_ok; [done| |done]. destruct Hk as [[-> ->]|[_ Hs]]; [apply Hn|by rewrite Hs].
Qed.

Lemma becomeFollower_keeps t r : currentTerm r < t -> untouched r (becomeFollower t r) /\ keeps_role r (becomeFollower t r).
Proof. intros Ht. unfold becomeFollower. rewrite (proj2 (Nat.ltb_lt _ _) Ht). split; [done|]. by right. Qed.

Lemma request_vote_keeps sender req r :
  untouched r (handleRequestVote sender req r).1 /\ keeps_role r (handleRequestVote sender req r).1 /\
  exists g t, (handleRequestVote sender req r).2 = [mkMsg (NodeID r) sender (RVR (mkRVR t g))].
Proof.
  unfold handleRequestVote. destruct (Nat.ltb_spec (rv_Term req) (currentTerm r)); [split_and!; [done|by left|by eexists _, _]|].
  cbv zeta. set (r1 := if currentTerm r <? rv_Term req then becomeFollower (rv_Term req) r else r).
  assert (untouched r r1 /\ keeps_role r r1 /\ NodeID r1 = NodeID r) as (Hu & Hk & Hid).
  { unfold r1. destruct (Nat.ltb_spec (currentTerm r) (rv_Term req)) as [Hlt|]; [|by split_and!; [|left|]].
    destruct (becomeFollower_keeps _ _ Hlt) as [? ?]. split_and!; [done|done|]. unfold becomeFollower. by destruct (_ <? _). }
  destruct (Last (log r1)). destruct (_ && _); cbn; (split_and!; [apply Hu|exact Hk|rewrite Hid; by eexists _, _]).
Qed.

Lemma append_response_keeps H O sender resp r :
  node_ok H r -> (state r = Leader -> O (currentTerm r) = NodeID r /\ H (currentTerm r) = log r) -> sender <> NodeID r ->
  no_new_leader r (handleAppendEntriesResponse sender resp r).1 /\ node_ok H (handleAppendEntriesResponse sender resp r).1 /\
  out_ok H O (handleAppendEntriesResponse sender resp r).2.
Proof.
  intros Hn Hl Hs. unfold handleAppendEntriesResponse. destruct (Nat.ltb_spec (currentTerm r) (aer_Term resp)) as [Hlt|].
  { destruct (becomeFollower_keeps _ _ Hlt) as [Hu Hk]. destruct (keeps_role_ok H _ _ Hu Hk Hn). split_and!; [done|done|apply out_nil]. }
  destruct (_ || _) eqn:Ho; [split_and!; [left; split; [done|by left]|done|apply out_nil]|].
  apply orb_false_elim in Ho as [_ Hst%bool_decide_eq_false]. assert (state r = Leader) as Hlead by (by apply dec_stable).
  destruct (Hl Hlead) as [Ho Hh]. destruct (aer_Success resp); cbv zeta; cbn [fst snd].
  - match goal with |- context [advanceCommitIndex ?x] => set (r1 := x) end.
    assert (untouched r r1 /\ currentTerm r1 = currentTerm r /\ state r1 = state r) as (Hu & Ht & Hst1).
    { unfold r1. by case_match. }
    assert (node_ok H r1) as Hn1 by (eapply untouched_ok; [done|rewrite Ht, Hst1; apply Hn|done]).
    destruct (advance_ok H r1 (no_log _ _ Hn1) (no_applied _ _ Hn1)) as [Ha Hlog].
    destruct (advanceCommitIndex_vote r1) as [[= _ _ Hct _ Hcs _ _] _]. split_and!; [| |apply out_nil].
    + left. split; [congruence|]. left. split; [congruence|]. rewrite Hlog. apply Hu.
    + split; [rewrite Hlog; apply Hn1|rewrite Hcs, Hct; apply Hn1|done].
  - match goal with |- context [sendAppendEntriesTo _ ?x] => set (r1 := x) end.
    assert (untouched r r1 /\ keeps_role r r1 /\ currentTerm r1 = currentTerm r /\ NodeID r1 = NodeID r)
      as (Hu & Hk & Ht & Hid) by (unfold r1; case_match; split_and!; by try left).
    destruct (keeps_role_ok H _ _ Hu Hk Hn) as [Hnew Hn1]. split_and!; [done|done|]. apply send_ok; [apply Hn1|congruence| |congruence].
    rewrite Ht, Hh. symmetry. apply Hu.
Qed.

(** The check of the entry before the new ones. *)
Definition consistent (req : AppendEntriesRequest) (l : list LogEntry) : bool :=
  if 0 <? ae_PrevLogIndex req then
    match Get (ae_PrevLogIndex req) l with Some entry => bool_decide (Term entry = ae_PrevLogTerm req) | None => false end
  else true.

Lemma consistent_spec req l : consistent req l = true -> 0 < ae_PrevLogIndex req ->
  exists e, l !! ae_PrevLogIndex req = Some e /\ Term e = ae_PrevLogTerm req.
Proof.
  unfold consistent. intros Hc Hp. rewrite (proj2 (Nat.ltb_lt _ _) Hp) in Hc. destruct (Get _ l) as [e|] eqn:He; [|done].
  exists e. split; [by apply Get_Some in He as [_ ?]|by apply bool_decide_eq_true in Hc].
Qed.

Lemma Truncate_take n l : Truncate n l = take n l.
Proof. unfold Truncate. destruct (Nat.ltb_spec n (length l)); [done|]. by rewrite take_ge. Qed.

(** Storing the entries of a request that passed the check. *)
Lemma stored_ok H O m req r :
  node_ok H r -> (H (ae_Term req) <> [] -> traced H (H (ae_Term req))) -> sent_ok H O m req -> consistent req (log r) = true ->
  node_ok H (match ae_Entries req with
             | [] => r
             | entries => set_log (Append entries (Truncate (S (ae_PrevLogIndex req)) (log r))) r
             end).
Proof.
  intros [H1 H2 H3] Hh Hs Hc. destruct (ae_Entries req) as [|e es] eqn:He; [by split|]. split; [|done|done].
  cbn [log set_log]. unfold Append. rewrite Truncate_take. eapply traced_prefix; [apply Hh, Hs| |by destruct (take _ _)].
  rewrite <-He. by eapply accepted_prefix, consistent_spec.
Qed.

(** Following the leader's commit index. *)
Lemma followed_ok H req r : node_ok H r ->
  let r' := if commitIndex r <? ae_LeaderCommit req then
              let '(lastIdx, _) := Last (log r) in applyCommitted (set_commit (Nat.min (ae_LeaderCommit req) lastIdx) r)
            else r in
  node_ok H r' /\ vote_state r' = vote_state r.
Proof.
  intros Hn. cbv zeta. destruct (_ <? _); [|done]. pose proof (traced_Last H _ (no_log _ _ Hn)) as Hlast.
  destruct (Last (log r)) as [i t]. cbn [fst] in Hlast. split; [|by rewrite applyCommitted_vote].
  pose proof (applyCommitted_vote (set_commit (Nat.min (ae_LeaderCommit req) i) r)) as [= _ _ Ht _ Hs _ _]. split.
  - unfold applyCommitted. rewrite apply_loop_log. apply Hn.
  - rewrite Ht, Hs. apply Hn.
  - eapply applyCommitted_ok; [apply Hn|lia|apply Hn].
Qed.

Lemma append_entries_keeps H O m sender req r :
  node_ok H r -> (H (ae_Term req) <> [] -> traced H (H (ae_Term req))) -> sent_ok H O m req ->
  (state r = Leader -> ae_Term req <> currentTerm r) ->
  no_new_leader r (handleAppendEntries sender req r).1 /\ node_ok H (handleAppendEntries sender req r).1 /\
  exists resp, (handleAppendEntries sender req r).2 = [mkMsg (NodeID r) sender (AER resp)].
Proof.
  intros Hn Hh Hs Hl. unfold handleAppendEntries. destruct (Nat.ltb_spec (ae_Term req) (currentTerm r)).
  { split_and!; [left; split; [done|by left]|done|by eexists]. }
  cbv zeta. set (r1 := if currentTerm r <? ae_Term req then becomeFollower (ae_Term req) r else r).
  set (r2 := set_role Follower (ae_LeaderID req) (resetElectionTimer r1)).
  assert (untouched r r2 /\ NodeID r2 = NodeID r /\ currentTerm r2 = ae_Term req /\ state r2 = Follower) as (Hu & Hid & Ht2 & Hst2).
  { unfold r2, r1. destruct (Nat.ltb_spec (currentTerm r) (ae_Term req)) as [Hlt|]; [|by split_and!; cbn; try lia].
    unfold becomeFollower. rewrite (proj2 (Nat.ltb_lt _ _) Hlt). done. }
  clearbody r2. assert (node_ok H r2) as Hn2 by (eapply untouched_ok; [done|by rewrite Hst2|done]).
  assert (forall r', node_ok H r' -> vote_state r' = vote_state r2 -> forall b, let x := ae_respond sender req b r' in
    no_new_leader r x.1 /\ node_ok H x.1 /\ exists resp, x.2 = [mkMsg (NodeID r) sender (AER resp)]) as Hend.
  { intros r' Hn' [= H1 _ H3 _ H5 _ _] b. cbn. split_and!; [|done|eexists; by rewrite H1, Hid].
    destruct (decide (ae_Term req = currentTerm r)) as [He|He]; [left|right]; (split; [congruence || lia|]).
    - right. split; [|congruence]. intros Hlead. by apply Hl.
    - congruence. }
  fold (consistent req (log r2)). destruct (consistent req (log r2)) eqn:Hc; cbn [negb]; [|by apply Hend].
  pose proof (stored_ok H O m req r2 Hn2 Hh Hs Hc) as Hn3.
  set (r3 := match ae_Entries req with [] => r2 | entries => set_log (Append entries (Truncate (S (ae_PrevLogIndex req)) (log r2))) r2 end) in *.
  assert (vote_state r3 = vote_state r2) as Hv by (unfold r3; by destruct (ae_Entries req)).
  destruct (followed_ok H req r3 Hn3) as [Hn4 Hv4]. apply Hend; [exact Hn4|]. etrans; [exact Hv4|exact Hv].
Qed.

(** ** A leader's log grows *)

Definition with_log (t : nat) (l : list LogEntry) (H : nat -> list LogEntry) : nat -> list LogEntry := fun u => if decide (u = t) then l else H u.
Definition with_owner (t i : nat) (O : nat -> nat) : nat -> nat := fun u => if decide (u = t) then i else O u.

Lemma with_log_mono t l H : H t `prefix_of` l -> forall u, H u `prefix_of` with_log t l H u.
Proof. intros Hp u. unfold with_log. case_decide; [by subst|done]. Qed.

(** Node [i] leads the term it is in, and its log is the beginning of the new one. *)
Lemma li_lead H O c i r r' net0 out (t := currentTerm r) (H' := with_log t (log r') H) (O' := with_owner t i O) :
  LogInv H O c -> nodes c !! i = Some r -> currentTerm r' = t -> state r' = Leader ->
  (H t = [] \/ O t = i) -> H t `prefix_of` log r' -> node_ok H' r' -> net0 ⊆+ net c -> out_ok H' O' out ->
  LogInv H' O' (mkCluster (<[i := r']> (nodes c)) (net0 ++ out)).
Proof.
  intros [I1 I2 I3 I4 I5 I6] Hr Ht' Hlead Hown Hpre Hn' Hnet Hout.
  assert (forall m, m ∈ net0 -> m ∈ net c) as Hin by (intros m Hm; by eapply elem_of_submseteq).
  pose proof (with_log_mono t (log r') H Hpre) as Hmono.
  assert (forall u, H u <> [] -> O' u = O u) as Hsame.
  { intros u Hu. unfold O', with_owner. case_decide; [|done]. subst u. by destruct Hown. }
  split; cbn [nodes net].
  - intros u Hu. rewrite lookup_insert. unfold O', H', with_log, with_owner in *. destruct (decide (u = t)) as [->|Hne].
    { exists r'. rewrite decide_True by done. split_and!; [done|lia|done]. }
    destruct (I1 u Hu) as (s & Hs & Hle & Hl). case_decide as He; [|eauto]. rewrite He in Hr. rewrite Hr in Hs. injection Hs as <-.
    exists r'. split_and!; [done|fold t in Hle; lia|lia].
  - intros j s. rewrite lookup_insert. case_decide as He.
    + intros [= <-] _. rewrite Ht'. unfold O', H', with_log, with_owner. by rewrite !decide_True.
    + intros Hs Hsl. destruct (I2 j s Hs Hsl) as [Ho Hh]. pose proof (no_log _ _ (I3 j s Hs)) as Htr.
      assert (H (currentTerm s) <> []) as Hne.
      { rewrite Hh. intros Hnil. pose proof (traced_length H _ Htr) as Hlen. rewrite Hnil in Hlen. cbn in Hlen. lia. }
      rewrite Hsame by done. split; [done|]. unfold H', with_log. case_decide as Hst; [|done]. rewrite Hst in *. destruct Hown; congruence.
  - intros j s. rewrite lookup_insert. case_decide as He; [by intros [= <-]|]. intros Hs. eapply li_node_mono; [exact Hmono|by eapply I3].
  - intros u Hu. unfold H' at 2. unfold with_log. destruct (decide (u = t)) as [->|Hne]; [apply Hn'|].
    unfold H', with_log in Hu. rewrite decide_False in Hu by done. eapply traced_mono; [exact Hmono|by apply I4].
  - intros m [Hm|Hm]%elem_of_app; [by apply I5, Hin|by apply Hout].
  - intros m req [Hm|Hm]%elem_of_app Hc; [|by apply Hout]. eapply sent_mono; [exact Hmono|exact Hsame|]. by apply I6; [apply Hin|].
Qed.

(** The last entry of a leader's log may be of its own term. *)
Lemma traced_snoc H l e t (l' := l ++ [e]) :
  traced H l -> H t `prefix_of` l' -> Index e = length l -> Term e = t -> 1 <= t -> traced (with_log t l' H) l'.
Proof.
  intros Htr Hp Hi Ht Hpos. pose proof (with_log_mono t l' H Hp) as Hmono. destruct (traced_mono _ _ _ Hmono Htr) as [H1 H2 H3].
  unfold l' at 2. split.
  - rewrite lookup_app_l; [done|]. by eapply traced_length.
  - intros p x [Hx|[Hx Hy]]%lookup_app_Some; [by eapply H2|]. apply list_lookup_singleton_Some in Hy as [Hy ->]. lia.
  - intros p x [Hx|[Hx Hy]]%lookup_app_Some Hne.
    + destruct (H3 p x Hx Hne) as [? ?]. split; [done|]. apply lookup_lt_Some in Hx. by rewrite take_app_le by lia.
    + apply list_lookup_singleton_Some in Hy as [Hy <-]. split; [lia|]. unfold with_log. rewrite decide_True by done.
      unfold l'. apply prefix_take.
Qed.

(** ** The steps *)

Lemma vote_response_keeps H resp r :
  node_ok H r -> (handleRequestVoteResponse resp r).2 = [] /\
  (no_new_leader r (handleRequestVoteResponse resp r).1 /\ node_ok H (handleRequestVoteResponse resp r).1 \/
   state r = Candidate /\ untouched r (handleRequestVoteResponse resp r).1 /\
   currentTerm (handleRequestVoteResponse resp r).1 = currentTerm r /\ state (handleRequestVoteResponse resp r).1 = Leader).
Proof.
  intros Hn. unfold handleRequestVoteResponse. destruct (Nat.ltb_spec (currentTerm r) (rvr_Term resp)) as [Hlt|].
  { destruct (becomeFollower_keeps _ _ Hlt) as [Hu Hk]. destruct (keeps_role_ok H _ _ Hu Hk Hn). split; [done|]. by left. }
  assert (no_new_leader r r /\ node_ok H r) as Hid by (split; [left; split; [done|by left]|done]).
  destruct (_ || _) eqn:Ho; [split; [done|by left]|]. apply orb_false_elim in Ho as [_ Hst%bool_decide_eq_false].
  destruct (rvr_VoteGranted resp); [|split; [done|by left]]. split; [done|]. cbv zeta. cbn [fst votesNeeded votesReceived set_votes].
  assert (state r = Candidate) as Hc by (by apply dec_stable). destruct (_ <=? _).
  - right. split; [done|]. unfold becomeLeader. destruct (Last _) as [i t]. done.
  - left. apply keeps_role_ok; [done|by left|done].
Qed.

Lemma election_keeps H O r :
  node_ok H r -> no_new_leader r (handleElectionTimeout r).1 /\ node_ok H (handleElectionTimeout r).1 /\ out_ok H O (handleElectionTimeout r).2.
Proof.
  intros Hn. unfold handleElectionTimeout. cbv zeta. cbn [state set_timers]. case_decide as Hl; cbn [fst snd].
  - split_and!; [left; split; [done|by left]|apply (untouched_ok H r); [done|exact (no_term _ _ Hn)|done]|apply out_nil].
  - split_and!; [right; cbn; split; [lia|done]| |apply request_vote_ok]. apply (untouched_ok H r); [done|cbn; lia|done].
Qed.

(** A command is appended to the log of the leader. *)
Lemma propose_leads H O c i r cmd (h := handlePropose cmd) :
  LogInv H O c -> nodes c !! i = Some r -> NodeID r = i -> state r = Leader -> exists l,
  LogInv (with_log (currentTerm r) l H) (with_owner (currentTerm r) i O) (run_at i h r (net c) c).
Proof.
  intros HL Hr Hid Hlead. destruct (li_leader _ _ _ HL i r Hr Hlead) as [Ho Hh]. pose proof (li_node _ _ _ HL i r Hr) as Hn.
  unfold run_at, h, handlePropose. rewrite decide_False by (by intros Hx; apply Hx).
  pose proof (traced_Last H _ (no_log _ _ Hn)) as Hlast. destruct (Last (log r)) as [lastIdx lastTerm]. cbn [fst] in Hlast.
  set (e := mkLogEntry (S lastIdx) (currentTerm r) cmd). set (r1 := set_log (Append [e] (log r)) r). cbv zeta. cbn [fst snd].
  set (H' := with_log (currentTerm r) (log r ++ [e]) H). set (O' := with_owner (currentTerm r) i O).
  assert (1 <= currentTerm r) as Hpos by (apply (no_term _ _ Hn); by rewrite Hlead).
  assert (traced H' (log r1)) as Htr.
  { apply traced_snoc; [apply Hn|rewrite Hh; by apply prefix_app_r|done|done|done]. }
  destruct (advance_ok H' r1 Htr (no_applied _ _ Hn)) as [Ha Hlog].
  destruct (advanceCommitIndex_vote r1) as [[= _ _ Hct _ Hcs _ _] _]. exists (log (advanceCommitIndex r1)).
  assert (log (advanceCommitIndex r1) = log r ++ [e]) as Hl1 by (by rewrite Hlog).
  apply (li_lead H O c i r); [done|done|by rewrite Hct|by rewrite Hcs|by right|rewrite Hl1, Hh; by apply prefix_app_r| |done|].
  - rewrite Hl1. fold H'. split; [by rewrite Hlog|by rewrite Hct|done].
  - rewrite Hl1. fold H' O'. assert (O' (currentTerm r) = NodeID r) as Ho'.
    { unfold O', with_owner. by rewrite decide_True. }
    apply broadcast_ok; [done|exact Ho'|]. change (H' (currentTerm r) = log r ++ [e]). unfold H', with_log. by rewrite decide_True.
Qed.

Lemma elected_leads n G L C G' L' C' H O c i r r' net0 :
  Inv n G L C c -> LogInv H O c -> (forall t, H t <> [] -> L t (O t)) -> nodes c !! i = Some r ->
  state r = Candidate -> untouched r r' -> currentTerm r' = currentTerm r -> state r' = Leader -> net0 ⊆+ net c ->
  Inv n G' L' C' (mkCluster (<[i := r']> (nodes c)) (net0 ++ [])) -> (forall t i, L t i -> L' t i) ->
  LogInv (with_log (currentTerm r) (log r') H) (with_owner (currentTerm r) i O) (mkCluster (<[i := r']> (nodes c)) (net0 ++ [])).
Proof.
  intros HI HL Hown Hr Hc Hu Ht Hlead Hnet HI' HLL. pose proof (li_node _ _ _ HL i r Hr) as Hn.
  assert (H (currentTerm r) = []) as Hnil.
  { apply dec_stable. intros Hne. assert (O (currentTerm r) = i) as Ho.
    { eapply (led_once n); [exact HI'|apply HLL, Hown, Hne|]. rewrite <-Ht.
      apply (iv_leader _ _ _ _ _ HI' i r'); [cbn; apply lookup_insert_eq|done]. }
    destruct (li_owner _ _ _ HL _ Hne) as (s & Hs & _ & Hsl). rewrite Ho in Hs. rewrite Hr in Hs. injection Hs as <-.
    specialize (Hsl eq_refl). congruence. }
  apply li_lead; [done|done|done|done|by left|rewrite Hnil; apply prefix_nil| |done|apply out_nil].
  eapply li_node_mono; [apply with_log_mono; rewrite Hnil; apply prefix_nil|]. eapply untouched_ok; [done| |done].
  intros _. rewrite Ht. apply (no_term _ _ Hn). by rewrite Hc.
Qed.

(** Histories whose owners led. *)
Definition led_by (L : nat -> nat -> Prop) (H : nat -> list LogEntry) (O : nat -> nat) : Prop := forall t, H t <> [] -> L t (O t).

Lemma led_by_with L L' H O t i l :
  led_by L H O -> (forall t i, L t i -> L' t i) -> L' t i -> led_by L' (with_log t l H) (with_owner t i O).
Proof. intros Hl HLL Hi u Hu. unfold with_log, with_owner in *. case_decide; [by subst|]. by apply HLL, Hl. Qed.

Lemma led_by_mono L L' H O : led_by L H O -> (forall t i, L t i -> L' t i) -> led_by L' H O.
Proof. intros Hl HLL t Ht. by apply HLL, Hl. Qed.

Lemma li_deliver n G L C G' L' C' H O c m r pre post (c' := run_at (to m) (handleRPC m) r (pre ++ post) c) :
  Inv n G L C c -> LogInv H O c -> led_by L H O -> net c = pre ++ m :: post -> nodes c !! to m = Some r ->
  Inv n G' L' C' c' -> (forall t i, L t i -> L' t i) -> exists H' O', LogInv H' O' c' /\ led_by L' H' O'.
Proof.
  intros HI HL Hled Hnet Hr HI' HLL. pose proof (without_submseteq _ _ _ _ Hnet) as Hsub.
  destruct (iv_node _ _ _ _ _ HI _ _ Hr) as (Hid & _). pose proof (li_node _ _ _ HL _ _ Hr) as Hn.
  assert (m ∈ net c) as Hm by (rewrite Hnet; set_solver +). pose proof (li_apart _ _ _ HL m Hm) as Hap.
  assert (forall h, no_new_leader r (h r).1 -> node_ok H (h r).1 -> out_ok H O (h r).2 ->
    exists H' O', LogInv H' O' (run_at (to m) h r (pre ++ post) c) /\ led_by L' H' O') as Hup.
  { intros h H1 H2 H3. exists H, O. split; [by eapply li_update|by eapply led_by_mono]. }
  unfold c', handleRPC in *. destruct (content m) as [req|resp|req|resp] eqn:Hc.
  - destruct (append_entries_keeps H O m (from m) req r Hn (li_hist _ _ _ HL _) (li_sent _ _ _ HL m req Hm Hc)) as (H1 & H2 & resp & H3).
    { intros Hlead Ht. destruct (li_leader _ _ _ HL _ _ Hr Hlead) as [Ho _]. apply Hap.
      rewrite (so_from _ _ _ _ (li_sent _ _ _ HL m req Hm Hc)), Ht. done. }
    apply Hup; [done|done|]. rewrite H3, Hid. by apply out_single.
  - destruct (append_response_keeps H O (from m) resp r Hn) as (H1 & H2 & H3); [|by rewrite Hid|by apply Hup].
    intros Hlead. rewrite Hid. by apply (li_leader _ _ _ HL _ _ Hr).
  - destruct (request_vote_keeps (from m) req r) as (Hu & Hk & g & t & Hout). destruct (keeps_role_ok H _ _ Hu Hk Hn).
    apply Hup; [done|done|]. rewrite Hout, Hid. by apply out_single.
  - destruct (vote_response_keeps H resp r Hn) as [Hout [[H1 H2]|(Hcand & Hu & Ht & Hlead)]].
    { apply Hup; [done|done|]. rewrite Hout. apply out_nil. }
    unfold run_at in *. rewrite Hout in *. eexists _, _. split; [by eapply elected_leads|]. eapply led_by_with; [done|done|].
    rewrite <-Ht. apply (iv_leader _ _ _ _ _ HI' (to m) _); [cbn; apply lookup_insert_eq|done].
Qed.

Lemma li_step n G L C G' L' C' H O c c' :
  Inv n G L C c -> LogInv H O c -> led_by L H O -> step c c' -> Inv n G' L' C' c' -> (forall t i, L t i -> L' t i) ->
  exists H' O', LogInv H' O' c' /\ led_by L' H' O'.
Proof.
  intros HI HL Hled Hs HI' HLL.
  assert (forall i r h, nodes c !! i = Some r -> no_new_leader r (h r).1 -> node_ok H (h r).1 -> out_ok H O (h r).2 ->
    exists H' O', LogInv H' O' (run_at i h r (net c) c) /\ led_by L' H' O') as Hup.
  { intros i r h Hr H1 H2 H3. exists H, O. split; [by eapply li_update|by eapply led_by_mono]. }
  destruct Hs as [m pre post r Hnet Hr|m pre post Hnet|i r Hr _|i r Hr _|i r cmd Hr].
  - by eapply li_deliver.
  - exists H, O. split; [|by eapply led_by_mono]. destruct HL as [I1 I2 I3 I4 I5 I6].
    assert (forall x, x ∈ pre ++ post -> x ∈ net c) as Hin by (intros x; rewrite Hnet; set_solver +). split; eauto.
  - destruct (election_keeps H O r (li_node _ _ _ HL _ _ Hr)) as (H1 & H2 & H3). by eapply Hup.
  - pose proof (li_node _ _ _ HL _ _ Hr) as Hn. destruct (iv_node _ _ _ _ _ HI _ _ Hr) as (Hid & _).
    apply Hup; [done| | |]; unfold handleHeartbeatTimeout; cbv zeta; case_decide as Hl.
    1,2: left; split; [done|by left].
    1,2: by apply (untouched_ok H r); [|exact (no_term _ _ Hn)|].
    + apply out_nil.
    + cbn [snd]. destruct (li_leader _ _ _ HL _ _ Hr) as [Ho Hh]; [exact Hl|].
      apply broadcast_ok; [apply Hn|cbn; congruence|done].
  - destruct (iv_node _ _ _ _ _ HI _ _ Hr) as (Hid & _). destruct (decide (state r = Leader)) as [Hl|Hl].
    + destruct (propose_leads H O c i r cmd HL Hr Hid Hl) as (l & HL'). eexists _, _. split; [exact HL'|].
      eapply led_by_with; [done|done|]. apply HLL. by apply (iv_leader _ _ _ _ _ HI i r).
    + unfold handlePropose in *. apply Hup; [done| | |]; rewrite decide_True by done;
        [left; split; [done|by left]|by eapply li_node|apply out_nil].
Qed.

Lemma init_log n : LogInv (fun _ => []) (fun _ => 0) (init n).
Proof.
  assert (forall t e, [] !! t = Some (e : LogEntry) -> False) as Hnil by done.
  split; try done; try (by intros m ?%not_elem_of_nil); try (by intros m ? ?%not_elem_of_nil).
  - by intros i r [-> _]%init_lookup.
  - intros i r [-> _]%init_lookup. split; [|done|by split; cbn]. split; [done| |].
    + intros [|p] e; [by intros [= <-]|done].
    + by intros [|p] e.
Qed.

Lemma log_inv n c : steps (init n) c -> exists H O, LogInv H O c.
Proof.
  intros Hs. assert (exists G L C H O, Inv n G L C (init n) /\ LogInv H O (init n) /\ led_by L H O) as H0.
  { eexists _, _, _, _, _. split_and!; [apply init_inv|apply init_log|]. intros t Ht. by destruct Ht. }
  enough (exists G L C H O, Inv n G L C c /\ LogInv H O c /\ led_by L H O) as (G & L & C & H & O & _ & HL & _) by eauto.
  induction Hs as [c|c c1 c2 Hstep _ IH]; [done|]. apply IH. destruct H0 as (G & L & C & H & O & HI & HL & Hled).
  destruct (inv_step n _ _ _ _ _ HI Hstep) as (G' & L' & C' & HI' & HLL).
  destruct (li_step n _ _ _ _ _ _ _ _ _ _ HI HL Hled Hstep HI' HLL) as (H' & O' & HL' & Hled'). eauto 10.
Qed.

(** ** Properties *)

(** C9 (invariant): log matching.  In every state a cluster can reach, if the logs of two nodes have an entry with the same index and
    term, they are equal up to this entry, whatever was lost, reordered, truncated or overwritten before. *)
Theorem log_matching n c i j r s p e f :
  steps (init n) c -> nodes c !! i = Some r -> nodes c !! j = Some s ->
  log r !! p = Some e -> log s !! p = Some f -> Term e = Term f -> take (S p) (log r) = take (S p) (log s).
Proof.
  intros Hs Hr Hs' He Hf Ht. destruct (log_inv n c Hs) as (H & O & HL).
  pose proof (no_log _ _ (li_node _ _ _ HL i r Hr)) as H1. pose proof (no_log _ _ (li_node _ _ _ HL j s Hs')) as H2.
  destruct (decide (p = 0)) as [->|Hp].
  { erewrite !(take_S_r _ 0) by (eapply tr_head; eassumption). done. }
  destruct (tr_prefix _ _ H1 p e He Hp) as [_ P1]. destruct (tr_prefix _ _ H2 p f Hf Hp) as [_ P2]. rewrite Ht in P1.
  apply lookup_lt_Some in He, Hf. destruct (prefix_weak_total _ _ _ P1 P2) as [Hx|Hx]; [|symmetry];
    (apply (prefix_length_eq _ _ Hx); rewrite !length_take; lia).
Qed.

(** C10 (functional): commands are applied once each, in order.  In every state a cluster can reach, each node has handed to the
    application exactly one command for each index from 1 to its last applied one, in this order, and everything it has committed
    is applied. *)
Theorem applied_in_order n c i r :
  steps (init n) c -> nodes c !! i = Some r ->
  (applied r).*1 = seq 1 (lastApplied r) /\ commitIndex r <= lastApplied r.
Proof.
  intros Hs Hr. destruct (log_inv n c Hs) as (H & O & HL). destruct (no_applied _ _ (li_node _ _ _ HL i r Hr)). done.
Qed.

(** ** An example *)

(** Three nodes; the first leads, is given two commands and gets them to the second. *)
Definition two_commands : list action := first_leads ++ [ProposeAt 1 [Byte.x02]; Deliver 3; Deliver 4].

Lemma log_matching_witness :
  exists e f, log (reached_node 1 two_commands 3) !! 2 = Some e /\ log (reached_node 2 two_commands 3) !! 2 = Some f /\
    take 3 (log (reached_node 1 two_commands 3)) = take 3 (log (reached_node 2 two_commands 3)).
Proof.
  eexists _, _. split; [by vm_compute|]. split; [by vm_compute|].
  eapply (log_matching 3 (reached two_commands 3) 1 2 (reached_node 1 two_commands 3) (reached_node 2 two_commands 3) 2);
    [apply reached_steps|by vm_compute|by vm_compute|by vm_compute|by vm_compute|reflexivity].
Defined.

Lemma applied_in_order_witness :
  lastApplied (reached_node 1 two_commands 3) = 2 /\ (applied (reached_node 1 two_commands 3)).*1 = seq 1 2.
Proof.
  split; [by vm_compute|]. change 2 with (lastApplied (reached_node 1 two_commands 3)).
  apply (applied_in_order 3 (reached two_commands 3) 1 (reached_node 1 two_commands 3)); [apply reached_steps|by vm_compute].
Defined.
