(* ===== verification/RaftLoop.v ===== *)
(** * The event loop of a Raft node (raft/raft.go)

    A node's events pass through channels of bounded capacity into one loop, which takes one of them at a time.  Whatever the loops
    of a cluster's nodes do, with full channels, refused proposals and nodes that are shut down, is a run of the cluster of
    RaftSafety.v, so what is proved there holds of them. *)

From stdpp Require Import base tactics numbers list gmap sets fin_maps.
From S2P Require Import Prelude.
From S2P Require Import Raft.
From S2P Require Import RaftSafety.

Open Scope nat_scope.

(** ** A node with its channels *)

(** [shutdownCh]: whether the channel is closed; [running]: whether the loop runs.  The apply channel is the field [applied] of the
    node; that it can be full only delays the loop. *)
Record process : Type := mkProcess { p_raft : Raft; rpcCh : list message; proposeCh : list bytes; shutdownCh : bool; running : bool }.

Definition rpc_buffer : nat := 128.
Definition propose_buffer : nat := 64.

Definition new_process (nodeID peers : nat) : process := mkProcess (NewRaft nodeID peers) [] [] false false.

Definition Start (p : process) : process := mkProcess (p_raft p) (rpcCh p) (proposeCh p) (shutdownCh p) true.

(** Closing a closed channel panics. *)
Definition Shutdown (p : process) : outcome process :=
  if shutdownCh p then Panic else Ret (mkProcess (p_raft p) (rpcCh p) (proposeCh p) true (running p)).

Definition Propose (cmd : bytes) (p : process) : bool * process :=
  if decide (state (p_raft p) <> Leader) then (false, p)
  else if length (proposeCh p) <? propose_buffer
  then (true, mkProcess (p_raft p) (rpcCh p) (proposeCh p ++ [cmd]) (shutdownCh p) (running p))
  else (false, p).

Definition get_State (p : process) : State := state (p_raft p).
Definition get_Term (p : process) : nat := currentTerm (p_raft p).
Definition LeaderID (p : process) : nat := leaderID (p_raft p).

(** What other goroutines send to the node waits while the channel is full. *)
Definition send_rpc (m : message) (p : process) : option process :=
  if length (rpcCh p) <? rpc_buffer
  then Some (mkProcess (p_raft p) (rpcCh p ++ [m]) (proposeCh p) (shutdownCh p) (running p)) else None.

(** [draw] is a number below [base], as [rand.Int63n] gives it; it panics unless [base] is positive. *)
Definition randomTimeout (draw base : Z) : outcome Z :=
  if (base <=? 0)%Z then Panic else Ret (int64 (base + draw)).

(** The cases of the loop's [select]. *)
Inductive event : Type := EvRPC | EvPropose | EvElection | EvHeartbeat | EvShutdown.

Definition with_raft (x : Raft * list message) (rpcs : list message) (cmds : list bytes) (p : process) : process * list message :=
  (mkProcess x.1 rpcs cmds (shutdownCh p) (running p), x.2).

(** One turn of the loop; [None] when the case is not ready. *)
Definition run (ev : event) (p : process) : option (process * list message) :=
  let r := p_raft p in
  if negb (running p) then None
  else match ev with
  | EvRPC => match rpcCh p with [] => None | m :: q => Some (with_raft (handleRPC m r) q (proposeCh p) p) end
  | EvPropose => match proposeCh p with [] => None | cmd :: q => Some (with_raft (handlePropose cmd r) (rpcCh p) q p) end
  | EvElection => if electionTimer r then Some (with_raft (handleElectionTimeout r) (rpcCh p) (proposeCh p) p) else None
  | EvHeartbeat => if heartbeatTimer r then Some (with_raft (handleHeartbeatTimeout r) (rpcCh p) (proposeCh p) p) else None
  | EvShutdown => if shutdownCh p then Some (mkProcess r (rpcCh p) (proposeCh p) true false, []) else None
  end.

Lemma randomTimeout_bounds draw base :
  (0 <= draw < base)%Z -> (2 * base <= max_int64)%Z -> exists d, randomTimeout draw base ⇓ d /\ (base <= d < 2 * base)%Z.
Proof.
  intros Hd Hb. unfold randomTimeout. rewrite (proj2 (Z.leb_gt _ _)) by lia. eexists. split; [done|].
  rewrite int64_id by (unfold in_int64, min_int64; lia). lia.
Qed.

(** ** The nodes of a cluster *)

(** [flying]: messages that have not reached a channel. *)
Record system : Type := mkSystem { procs : gmap nat process; flying : list message }.

Definition start_all (n : nat) : system := mkSystem (list_to_map ((fun i => (i, Start (new_process i n))) <$> seq 1 n)) [].

Inductive sys_step (s : system) : system -> Prop :=
| sys_arrive m pre post p p' :
    flying s = pre ++ m :: post -> procs s !! to m = Some p -> send_rpc m p = Some p' ->
    sys_step s (mkSystem (<[to m := p']> (procs s)) (pre ++ post))
| sys_lose m pre post : flying s = pre ++ m :: post -> sys_step s (mkSystem (procs s) (pre ++ post))
| sys_run i ev p p' out :
    procs s !! i = Some p -> run ev p = Some (p', out) -> sys_step s (mkSystem (<[i := p']> (procs s)) (flying s ++ out))
| sys_propose i cmd p : procs s !! i = Some p -> sys_step s (mkSystem (<[i := (Propose cmd p).2]> (procs s)) (flying s))
| sys_shutdown i p p' : procs s !! i = Some p -> Shutdown p ⇓ p' -> sys_step s (mkSystem (<[i := p']> (procs s)) (flying s)).

(** ** The simulation *)

(** The messages in the channels. *)
Definition queued (ps : gmap nat process) : list message := concat (rpcCh <$> (map_to_list ps).*2).

Lemma queued_insert ps i p : queued (<[i := p]> ps) ≡ₚ rpcCh p ++ queued (delete i ps).
Proof.
  unfold queued. rewrite <-insert_delete_eq.
  assert (map_to_list (<[i := p]> (delete i ps)) ≡ₚ (i, p) :: map_to_list (delete i ps)) as Hp
    by (apply map_to_list_insert, lookup_delete_eq).
  by rewrite Hp.
Qed.

Lemma queued_lookup ps i p : ps !! i = Some p -> queued ps ≡ₚ rpcCh p ++ queued (delete i ps).
Proof. intros Hp. rewrite <-(insert_id ps i p Hp) at 1. apply queued_insert. Qed.

(** The cluster the system stands for: the same nodes; messages in channels are still under way. *)
Record simulates (s : system) (c : cluster) : Prop := {
  sim_nodes : nodes c = p_raft <$> procs s;
  sim_net : net c ≡ₚ flying s ++ queued (procs s);
}.

(** A change of channels that adds no message. *)
Lemma sim_same s c i p p' fl :
  simulates s c -> procs s !! i = Some p -> p_raft p' = p_raft p -> fl ++ rpcCh p' ≡ₚ flying s ++ rpcCh p ->
  simulates (mkSystem (<[i := p']> (procs s)) fl) c.
Proof.
  intros [H1 H2] Hp Hr Hq. split; cbn.
  - rewrite fmap_insert, Hr, H1. symmetry. apply insert_id. by rewrite lookup_fmap, Hp.
  - rewrite H2, queued_insert, (queued_lookup _ _ _ Hp), !(assoc_L (++)). by rewrite Hq.
Qed.

(** An event of a node. *)
Lemma sim_event s c i p p' h net0 :
  simulates s c -> procs s !! i = Some p -> p_raft p' = (h (p_raft p)).1 ->
  net0 ≡ₚ flying s ++ rpcCh p' ++ queued (delete i (procs s)) ->
  simulates (mkSystem (<[i := p']> (procs s)) (flying s ++ (h (p_raft p)).2)) (run_at i h (p_raft p) net0 c).
Proof.
  intros [H1 H2] Hp Hr Hnet. split; cbn.
  - by rewrite fmap_insert, Hr, H1.
  - rewrite Hnet, queued_insert. solve_Permutation.
Qed.

(** What a turn of the loop does to the cluster. *)
Lemma sim_run s c i ev p p' out :
  simulates s c -> procs s !! i = Some p -> (forall m, m ∈ rpcCh p -> to m = i) -> run ev p = Some (p', out) ->
  exists c', steps c c' /\ simulates (mkSystem (<[i := p']> (procs s)) (flying s ++ out)) c'.
Proof.
  intros Hsim Hp Hto Hrun. pose proof Hsim as [H1 H2].
  assert (nodes c !! i = Some (p_raft p)) as Hr by (by rewrite H1, lookup_fmap, Hp).
  pose proof H2 as Hnet. rewrite (queued_lookup _ _ _ Hp) in Hnet. unfold run in Hrun. destruct (running p); [|done]. cbn in Hrun.
  destruct ev.
  - destruct (rpcCh p) as [|m q] eqn:Hq; [done|]. injection Hrun as <- <-.
    assert (exists pre post, net c = pre ++ m :: post) as (pre & post & Hsplit).
    { apply list_elem_of_split. rewrite Hnet. set_solver +. }
    assert (to m = i) as Hi by (apply Hto; constructor).
    exists (run_at i (handleRPC m) (p_raft p) (pre ++ post) c). split.
    + apply rtc_once. rewrite <-Hi. eapply step_deliver; [done|by rewrite Hi].
    + apply (sim_event s c i p); [done|done|done|]. cbn. apply (Permutation_cons_inv (a := m)).
      rewrite Permutation_middle, <-Hsplit, Hnet. solve_Permutation.
  - destruct (proposeCh p) as [|cmd q]; [done|]. injection Hrun as <- <-. eexists. split; [by apply rtc_once, step_propose|].
    by apply (sim_event s c i p (mkProcess _ _ _ _ _) (handlePropose cmd)).
  - destruct (electionTimer (p_raft p)) eqn:He; [|done]. injection Hrun as <- <-. eexists. split; [by apply rtc_once, step_election|].
    by apply (sim_event s c i p (mkProcess _ _ _ _ _) handleElectionTimeout).
  - destruct (heartbeatTimer (p_raft p)) eqn:He; [|done]. injection Hrun as <- <-. eexists. split; [by apply rtc_once, step_heartbeat|].
    by apply (sim_event s c i p (mkProcess _ _ _ _ _) handleHeartbeatTimeout).
  - destruct (shutdownCh p); [|done]. injection Hrun as <- <-. exists c. split; [done|].
    eapply sim_same; [done|done|done|]. by rewrite app_nil_r.
Qed.

(** Channels hold messages for their node. *)
Definition addressed (s : system) : Prop := forall i p m, procs s !! i = Some p -> m ∈ rpcCh p -> to m = i.

Lemma run_rpcs ev p p' out m : run ev p = Some (p', out) -> m ∈ rpcCh p' -> m ∈ rpcCh p.
Proof.
  unfold run. destruct (running p); [|done]. destruct ev; cbn; repeat case_match; intros [= <- <-]; cbn; try done.
  all: repeat match goal with H : _ = _ :: _ |- _ => rewrite H end; set_solver +.
Qed.

Lemma addressed_insert s i p' fl :
  addressed s -> (forall m, m ∈ rpcCh p' -> to m = i) -> addressed (mkSystem (<[i := p']> (procs s)) fl).
Proof. intros Ha Hp j q m. cbn. rewrite lookup_insert. case_decide; [intros [= <-]; subst; apply Hp|apply Ha]. Qed.

Lemma step_addressed s s' : addressed s -> sys_step s s' -> addressed s'.
Proof.
  intros Ha Hs. destruct Hs as [m pre post p p' _ Hp Hq|m pre post _|i ev p p' out Hp Hrun|i cmd p Hp|i p p' Hp Hsh]; [|exact Ha|..].
  - apply addressed_insert; [done|]. unfold send_rpc in Hq. destruct (_ <? _); [|done]. injection Hq as <-. cbn.
    intros m' [Hm|Hm]%elem_of_app; [by eapply Ha|]. by apply list_elem_of_singleton in Hm as ->.
  - apply addressed_insert; [done|]. intros m Hm. eapply Ha; [done|by eapply run_rpcs].
  - apply addressed_insert; [done|]. intros m. unfold Propose. case_decide; [|destruct (_ <? _)]; exact (Ha i p m Hp).
  - apply addressed_insert; [done|]. unfold Shutdown in Hsh. destruct (shutdownCh p); [done|]. injection Hsh as <-. intros m. exact (Ha i p m Hp).
Qed.

Lemma sim_step s s' c : addressed s -> simulates s c -> sys_step s s' -> exists c', steps c c' /\ simulates s' c'.
Proof.
  intros Ha Hsim Hs. pose proof Hsim as [H1 H2]. destruct Hs as [m pre post p p' Hf Hp Hq|m pre post Hf|i ev p p' out Hp Hrun|i cmd p Hp|i p p' Hp Hsh].
  - exists c. split; [done|]. unfold send_rpc in Hq. destruct (_ <? _); [|done]. injection Hq as <-.
    eapply sim_same; [done|done|done|]. cbn. rewrite Hf. solve_Permutation.
  - assert (exists l l', net c = l ++ m :: l') as (l & l' & Hsplit).
    { apply list_elem_of_split. rewrite H2, Hf. set_solver +. }
    exists (mkCluster (nodes c) (l ++ l')). split; [by eapply rtc_once, step_lose|]. split; [done|]. cbn.
    apply (Permutation_cons_inv (a := m)). rewrite Permutation_middle, <-Hsplit, H2, Hf. solve_Permutation.
  - by eapply sim_run; [| |intros m; apply Ha|].
  - exists c. split; [done|]. unfold Propose. case_decide; [|destruct (_ <? _)]; by eapply sim_same.
  - exists c. split; [done|]. unfold Shutdown in Hsh. destruct (shutdownCh p); [done|]. injection Hsh as <-. by eapply sim_same.
Qed.

Lemma start_lookup n i p : procs (start_all n) !! i = Some p -> p = Start (new_process i n).
Proof.
  unfold start_all. cbn. intros H%elem_of_list_to_map_2. by apply list_elem_of_fmap in H as (j & [= -> ->] & Hj).
Qed.

Lemma queued_nil ps : (forall i p, ps !! i = Some p -> rpcCh p = []) -> queued ps = [].
Proof.
  intros Hps. apply Permutation_nil_r. induction ps as [|i p ps Hi IH] using map_ind; [done|].
  rewrite queued_insert, (Hps i p) by apply lookup_insert_eq. rewrite delete_id by done. apply IH.
  intros j q Hq. apply (Hps j q). rewrite lookup_insert_ne; [done|]. by intros ->; rewrite Hi in Hq.
Qed.

Lemma start_simulates n : addressed (start_all n) /\ simulates (start_all n) (init n).
Proof.
  assert (forall i p, procs (start_all n) !! i = Some p -> rpcCh p = []) as Hrpc by (by intros i p ->%start_lookup).
  split; [intros i p m Hp Hm; rewrite (Hrpc i p Hp) in Hm; by apply not_elem_of_nil in Hm|]. split.
  - cbn. unfold init. cbn. induction (seq 1 n) as [|i l IH]; cbn; [by rewrite fmap_empty|]. by rewrite fmap_insert, <-IH.
  - cbn. by rewrite queued_nil.
Qed.

(** C11 (refinement): the event loops implement the protocol.  Start the loops of [n] nodes; let messages reach their channels, wait
    while these are full, or be lost, let clients propose and nodes be shut down, and let each loop take any case of its [select] that
    is ready.  The states the nodes reach are those of a run of the abstract cluster, whose steps are whole handlers. *)
Theorem event_loops_refine n s :
  rtc sys_step (start_all n) s -> exists c, steps (init n) c /\ nodes c = p_raft <$> procs s.
Proof.
  intros Hs. destruct (start_simulates n) as [Ha Hsim].
  enough (exists c, steps (init n) c /\ simulates s c) as (c & Hc & [Hn _]) by eauto.
  assert (exists c, steps (init n) c /\ simulates (start_all n) c) as H0 by eauto using rtc_refl. clear Hsim.
  induction Hs as [s|s s1 s2 Hstep _ IH]; [done|]. destruct H0 as (c & Hc & Hsim).
  destruct (sim_step s s1 c Ha Hsim Hstep) as (c1 & Hc1 & Hsim1). apply IH; [by eapply step_addressed|].
  exists c1. split; [by etrans|done].
Qed.

(** ** An example *)

(** The first of three nodes stands for election; its request reaches the channel of the second, which then handles it; the third is
    shut down. *)
Definition one (i : nat) (s : system) : process := default (new_process i 3) (procs s !! i).
Definition turn (i : nat) (ev : event) (s : system) : system :=
  match run ev (one i s) with Some (p, out) => mkSystem (<[i := p]> (procs s)) (flying s ++ out) | None => s end.
Definition arrive (s : system) : system :=
  match flying s with
  | m :: fl => match send_rpc m (one (to m) s) with Some p => mkSystem (<[to m := p]> (procs s)) fl | None => s end
  | [] => s
  end.
Definition halt (i : nat) (s : system) : system :=
  match Shutdown (one i s) with Ret p => mkSystem (<[i := p]> (procs s)) (flying s) | _ => s end.

Definition voted : system := halt 3 (turn 2 EvRPC (arrive (turn 1 EvElection (start_all 3)))).

Lemma one_lookup i s : is_Some (procs s !! i) -> procs s !! i = Some (one i s).
Proof. unfold one. by intros [p ->]. Qed.

Lemma turn_steps i ev s : is_Some (procs s !! i) -> rtc sys_step s (turn i ev s).
Proof.
  intros Hp%one_lookup. unfold turn. destruct (run ev (one i s)) as [[p out]|] eqn:Hr; [|done]. by eapply rtc_once, sys_run.
Qed.

Lemma arrive_steps s : (forall m, m ∈ flying s -> is_Some (procs s !! to m)) -> rtc sys_step s (arrive s).
Proof.
  intros Hall. unfold arrive. destruct (flying s) as [|m fl] eqn:Hf; [done|].
  destruct (send_rpc m (one (to m) s)) as [p|] eqn:Hs; [|done]. apply rtc_once.
  eapply (sys_arrive s m [] fl); [done|apply one_lookup, Hall; constructor|done].
Qed.

Lemma halt_steps i s : is_Some (procs s !! i) -> rtc sys_step s (halt i s).
Proof. intros Hp%one_lookup. unfold halt. destruct (Shutdown (one i s)) eqn:Hs; [|done..]. by eapply rtc_once, sys_shutdown. Qed.

Lemma test_Some {A} (o : option A) : (if o then true else false) = true -> is_Some o.
Proof. by destruct o. Qed.

Lemma voted_reached : rtc sys_step (start_all 3) voted.
Proof.
  unfold voted. etrans; [|apply halt_steps, test_Some; vm_compute; reflexivity].
  etrans; [|apply turn_steps, test_Some; vm_compute; reflexivity].
  etrans; [apply (turn_steps 1 EvElection), test_Some; vm_compute; reflexivity|].
  apply arrive_steps, Forall_forall. repeat constructor; apply test_Some; vm_compute; reflexivity.
Qed.

Lemma event_loops_refine_witness :
  votedFor (p_raft (one 2 voted)) = 1 /\ exists c, steps (init 3) c /\ nodes c = p_raft <$> procs voted.
Proof. split; [by vm_compute|]. apply (event_loops_refine 3 voted voted_reached). Defined.

(** Of 65 proposals a leader's loop has not taken yet, the last is refused. *)
Example propose_refused r :
  state r = Leader -> (Propose [] (mkProcess r [] (replicate 64 []) false true)).1 = false.
Proof. intros Hl. unfold Propose. cbn [p_raft]. by rewrite decide_False by (by intros Hx; apply Hx). Qed.
