(* ===== verification/RaftCmd.v ===== *)
(** * Replicated commands (net/raft_cmd.go)

    A write that goes through the Raft log: the command as it is serialised, what
    applying it does to the cache of a node, and the proposal that waits for it.
    JSON is an interface.  The Raft node is its role and whether it takes a
    proposal; what it applies while a proposal waits is an argument. *)

From Stdlib Require Import Strings.Byte Strings.String.
From stdpp Require Import base tactics numbers list gmap sets fin_maps strings pretty.
From S2P Require Import Prelude.
From S2P Require Import Policy.
From S2P Require Import DHash.
From S2P Require Import Raft.
From S2P Require Import Bytes.
From S2P Require Import Wire.
From S2P Require Import WireSet.
From S2P Require Import WireExt.
From S2P Require Import Shard.
From S2P Require Import Rehash.
From S2P Require Import Cache.
From S2P Require Import CacheExt.

Open Scope Z_scope.

(** ** Commands of the string protocol (net/protocol.go, net/protocol_ext.go) *)

Definition CmdGet : Z := 1.
Definition CmdSet : Z := 2.
Definition CmdDel : Z := 3.
Definition CmdLen : Z := 4.
Definition CmdCleanup : Z := 5.
Definition CmdStats : Z := 6.

Definition CmdExists : Z := 64.
Definition CmdType : Z := 65.
Definition CmdExpire : Z := 66.
Definition CmdExpireAt : Z := 67.
Definition CmdPExpire : Z := 68.
Definition CmdPExpireAt : Z := 69.
Definition CmdTTL : Z := 70.
Definition CmdPTTL : Z := 71.
Definition CmdPersist : Z := 72.
Definition CmdKeys : Z := 73.

(** ** What an operation takes from outside *)

(** The clock and the random choices of one operation on the cache, and the matcher of [Keys]. *)
Record env : Type := mkEnv {
  e_now : Z;
  e_rnd : nat;
  e_perm : list nat;
  e_draw : nat -> nat;
  e_Match : string -> string -> bool;
}.

(** ** Messages of errors *)

Section Messages.
(** [strconv.Quote]. *)
Variable Quote : string -> string.

(** [err.Error()]. *)
Definition Error (e : error) : string :=
  match e with
  | ErrKeyNotFound => "key not found"
  | ErrKeyEmpty => "key cannot be empty"
  | ErrValueNil => "value cannot be nil"
  | ErrNegativeTTL => "ttl cannot be negative"
  | ErrCacheClosed => "cache is closed"
  | ErrInvalidShards => "shard count must be power of two and >= 1"
  | ErrUnknownPolicy => "unknown eviction policy"
  | ErrUnknownRehasher => "unknown rehasher"
  | ErrFieldNotFound => "field not found"
  | ErrIndexOutOfRange => "index out of range"
  | ErrInvalidIncr => "value is not an integer or float"
  | ErrNotLeader => "not leader"
  | ErrServerClosed => "server closed"
  | ErrInvalidCommand => "invalid command"
  | ErrReadTimeout => "read timeout"
  | ErrConnClosed => "connection closed"
  | ErrBadResponse => "bad response from server"
  | NumError fn input out_of_range =>
      "strconv." ++ fn ++ ": parsing " ++ Quote input ++ ": " ++
      (if out_of_range then "value out of range" else "invalid syntax")
  | ErrMsg msg => msg
  end%string.
End Messages.

(** ** Commands *)

Record RaftCommand {float64 : Type} : Type := mkRC {
  rc_ReqID : Z;
  rc_Op : Z;
  rc_Key : string;
  rc_Value : option bytes;
  rc_TTL : Z;
  rc_Field : string;
  rc_Fields : list string;
  rc_FvPairs : list string;
  rc_DeltaI64 : Z;
  rc_DeltaF64 : float64;
  rc_Elems : list string;
  rc_Index : Z;
  rc_Start : Z;
  rc_Stop : Z;
  rc_Count : Z;
  rc_Pivot : string;
  rc_Before : bool;
}.
Arguments RaftCommand : clear implicits.
Arguments mkRC {_}.

(** [sliceResult] is never written nor read: it is left out. *)
Record raftResult {float64 : Type} : Type := mkRR {
  rr_err : option error;
  rr_int : Z;
  rr_bool : bool;
  rr_str : string;
  rr_float : float64;
}.
Arguments raftResult : clear implicits.
Arguments mkRR {_}.

(** [json.Marshal] and [json.Unmarshal] on commands. *)
Class Json (float64 : Type) := {
  Marshal : RaftCommand float64 -> result error bytes;
  Unmarshal : bytes -> result error (RaftCommand float64);
}.

Definition write_ops : list Z :=
  [CmdSet; CmdDel; CmdCleanup; CmdSAdd; CmdSRem; CmdSPop; CmdHSet; CmdHSetNX; CmdHDel; CmdHMSet; CmdHIncrBy;
   CmdHIncrByFloat; CmdLPush; CmdRPush; CmdLPop; CmdRPop; CmdLSet; CmdLRem; CmdLTrim; CmdLInsert].

Definition isRaftWriteOp (cmd : Z) : bool := one_of write_ops cmd.

(** [string(rc.Value)]. *)
Definition text_of (v : option bytes) : string := string_of (val v).

Section RaftCmd.
Context `{MI : MapIter} `{EP : EvictionPolicy P} `{FO : FloatOps float64} `{FB : FloatBits float64} `{JS : Json float64}.
Notation Cache := (Cache P).
Notation RaftCommand := (RaftCommand float64).
Notation raftResult := (raftResult float64).

(** ** The state of a server that matters to requests *)

(** [raftNode = None]: Raft is not used.  [raftPending] are the requests that wait
    for their command; [delivered] what was sent on their channels. *)
Record Server : Type := mkServer {
  srv_cache : Cache;
  raftNode : option State;
  raftPending : gset Z;
  delivered : gmap Z raftResult;
  raftNextReqID : Z;
  totalRequests : Z;
}.

Definition with_cache (c : Cache) (s : Server) : Server :=
  mkServer c (raftNode s) (raftPending s) (delivered s) (raftNextReqID s) (totalRequests s).
Definition with_pending (p : gset Z) (d : gmap Z raftResult) (s : Server) : Server :=
  mkServer (srv_cache s) (raftNode s) p d (raftNextReqID s) (totalRequests s).

Definition nextRaftReqID (s : Server) : Z * Server :=
  let id := wrapU 64 (raftNextReqID s + 1) in
  (id, mkServer (srv_cache s) (raftNode s) (raftPending s) (delivered s) id (totalRequests s)).

(** ** Applying a command *)

(** [n, err := ...; res.intResult = int64(n); res.err = err] and the like. *)
Definition int_result (r : result error Z) : raftResult :=
  match r with Ok n => mkRR None n false EmptyString fzero | Err e => mkRR (Some e) 0 false EmptyString fzero end.
Definition bool_result (r : result error bool) : raftResult :=
  match r with Ok b => mkRR None 0 b EmptyString fzero | Err e => mkRR (Some e) 0 false EmptyString fzero end.
Definition str_result (r : result error string) : raftResult :=
  match r with Ok s => mkRR None 0 false s fzero | Err e => mkRR (Some e) 0 false EmptyString fzero end.
Definition float_result (r : result error float64) : raftResult :=
  match r with Ok f => mkRR None 0 false EmptyString f | Err e => mkRR (Some e) 0 false EmptyString fzero end.
Definition err_result (e : option error) : raftResult := mkRR e 0 false EmptyString fzero.
Definition unit_result (r : result error unit) : raftResult :=
  err_result (match r with Ok _ => None | Err e => Some e end).

(** [ttl = time.Duration(ms) * time.Millisecond], if positive. *)
Definition ms_ttl (ms : Z) : Z := if ms >? 0 then int64 (ms * 1000000) else 0.

Definition apply_command (e : env) (rc : RaftCommand) (c : Cache) : outcome (raftResult * Cache) :=
  let key := rc_Key rc in
  let via {A} (f : A -> raftResult) (m : outcome (A * Cache)) := '(r, c) ← m; mret (f r, c) in
  let op := rc_Op rc in
  if op =? CmdSet then via err_result (Cache.Set_ (e_now e) key (rc_Value rc) (Some (ms_ttl (rc_TTL rc))) c)
  else if op =? CmdDel then via err_result (Cache.Del (e_now e) key c)
  else if op =? CmdCleanup then via (fun _ => err_result None) (Cleanup (e_now e) c)
  else if op =? CmdHSet then via int_result (HSet key (rc_Field rc) (text_of (rc_Value rc)) c)
  else if op =? CmdHSetNX then via bool_result (HSetNX key (rc_Field rc) (text_of (rc_Value rc)) c)
  else if op =? CmdHDel then via int_result (HDel key (rc_Fields rc) c)
  else if op =? CmdHIncrBy then via int_result (HIncrBy key (rc_Field rc) (rc_DeltaI64 rc) c)
  else if op =? CmdHIncrByFloat then via float_result (HIncrByFloat key (rc_Field rc) (rc_DeltaF64 rc) c)
  else if op =? CmdHMSet then via unit_result (HMSet key (rc_FvPairs rc) c)
  else if op =? CmdLPush then via int_result (LPush key (rc_Elems rc) c)
  else if op =? CmdRPush then via int_result (RPush key (rc_Elems rc) c)
  else if op =? CmdLPop then via str_result (LPop key c)
  else if op =? CmdRPop then via str_result (RPop key c)
  else if op =? CmdLSet then via unit_result (LSet key (rc_Index rc) (text_of (rc_Value rc)) c)
  else if op =? CmdLRem then via int_result (LRem key (rc_Count rc) (text_of (rc_Value rc)) c)
  else if op =? CmdLTrim then via unit_result (LTrim key (rc_Start rc) (rc_Stop rc) c)
  else if op =? CmdLInsert then via int_result (LInsert key (rc_Before rc) (rc_Pivot rc) (text_of (rc_Value rc)) c)
  else if op =? CmdSAdd then via int_result (SAdd key (rc_Elems rc) c)
  else if op =? CmdSRem then via int_result (SRem key (rc_Elems rc) c)
  else if op =? CmdSPop then via str_result (SPop (e_rnd e) key c)
  else Ret (err_result (Some (ErrMsg ("unsupported raft op: " ++ pretty op))), c).

Definition notifyRaftPending (reqID : Z) (res : raftResult) (s : Server) : Server :=
  if reqID =? 0 then s
  else if decide (reqID ∈ raftPending s) then
    with_pending (raftPending s ∖ {[reqID]}) (<[reqID := res]> (delivered s)) s
  else s.

(** The callback for a committed entry. *)
Definition onRaftApply (e : env) (command : bytes) (s : Server) : outcome Server :=
  match Unmarshal command with
  | Err err => Ret (notifyRaftPending 0 (err_result (Some err)) s)
  | Ok rc =>
      '(res, c) ← apply_command e rc (srv_cache s);
      let s := with_cache c s in
      mret (if rc_ReqID rc >? 0 then notifyRaftPending (rc_ReqID rc) res s else s)
  end.

Fixpoint apply_all (l : list (env * bytes)) (s : Server) : outcome Server :=
  match l with
  | [] => Ret s
  | (e, command) :: l => s ← onRaftApply e command s; apply_all l s
  end.

(** ** Proposing a command *)

(** While a proposal waits: whether the node took it, and what it applied until the
    result came or the wait ended. *)
Record waiting : Type := mkWait { accepted : bool; meanwhile : bytes -> list (env * bytes) }.

Definition set_ReqID (id : Z) (rc : RaftCommand) : RaftCommand :=
  mkRC id (rc_Op rc) (rc_Key rc) (rc_Value rc) (rc_TTL rc) (rc_Field rc) (rc_Fields rc) (rc_FvPairs rc)
    (rc_DeltaI64 rc) (rc_DeltaF64 rc) (rc_Elems rc) (rc_Index rc) (rc_Start rc) (rc_Stop rc) (rc_Count rc)
    (rc_Pivot rc) (rc_Before rc).

Definition raftPropose (w : waiting) (rc : RaftCommand) (s : Server) : outcome (result error raftResult * Server) :=
  match raftNode s with
  | None => Ret (Err (ErrMsg "raft not initialized"), s)
  | Some role =>
      if decide (role <> Leader) then Ret (Err (ErrMsg "not leader"), s)
      else
        let '(id, s) := nextRaftReqID s in
        match Marshal (set_ReqID id rc) with
        | Err e => Ret (Err e, s)
        | Ok data =>
            let s := with_pending ({[id]} ∪ raftPending s) (delete id (delivered s)) s in
            if negb (accepted w) then
              Ret (Err (ErrMsg "raft propose failed"), with_pending (raftPending s ∖ {[id]}) (delivered s) s)
            else
              s ← apply_all (meanwhile w data) s;
              match delivered s !! id with
              | Some res => mret (Ok res, s)
              | None => mret (Err (ErrMsg "raft apply timeout"), with_pending (raftPending s ∖ {[id]}) (delivered s) s)
              end
        end
  end.

End RaftCmd.
Arguments Server _ _ : clear implicits.
