(* ===== verification/Server.v ===== *)
(** * The server: from a frame to the cache and back (net/server.go, net/server_ext.go)

    The handlers of the four kinds of requests, with and without Raft, and one pass
    of a connection's read loop.  Each handler is a function of the request and the
    server; [process_*] is the response, [process*] its bytes.  What a request takes
    from outside (clock, random choices, pooled buffers, what others do while it
    waits) is one argument. *)

From Stdlib Require Import Strings.Byte Strings.String.
From stdpp Require Import base tactics numbers list gmap sets fin_maps strings.
From S2P Require Import Prelude.
From S2P Require Import Policy.
From S2P Require Import DHash.
From S2P Require Import Raft.
From S2P Require Import Bytes.
From S2P Require Import Wire.
From S2P Require Import WireSet.
From S2P Require Import WireExt.
From S2P Require Import Shard.
From S2P Require Import Rehash.
From S2P Require Import Cache.
From S2P Require Import CacheExt.
From S2P Require Import RaftCmd.

Open Scope Z_scope.

Section Server.
Context `{MI : MapIter} `{EP : EvictionPolicy P} `{FO : FloatOps float64} `{FB : FloatBits float64} `{JS : Json float64}.
Variable Quote : string -> string.
Notation Cache := (Cache P).
Notation Server := (Server P float64).
Notation Error := (Error Quote).
Notation HashRequest := (@HashRequest float64).
Notation HashResponse := (@HashResponse float64).

(** What a request takes from outside: the operation's environment, the wait for
    Raft, old bytes of the pooled buffers and what follows the payload in its buffer,
    [json.Marshal(s.Stats())], and, for the blocking pops, the readings of the clock
    and what other connections do to the cache during each sleep. *)
Record request_env : Type := mkReqEnv {
  q_env : env;
  q_wait : waiting;
  q_stale : bytes;
  q_rest : bytes;
  q_stats : result error bytes;
  q_clock : nat -> Z;
  q_others : nat -> Cache -> Cache;
  q_fuel : nat;
}.

(** The response to an operation's result. *)
Definition answer {A R} (ok : A -> R) (fail : error -> R) (m : outcome (result error A * Cache)) : outcome (R * Cache) :=
  '(r, c) ← m; mret (match r with Ok a => ok a | Err e => fail e end, c).

(** The same on the server, whose cache the operation works on. *)
Definition on_cache {R} (f : Cache -> outcome (R * Cache)) (s : Server) : outcome (R * Server) :=
  '(r, c) ← f (srv_cache s); mret (r, with_cache c s).

(** [err == mcache.ErrKeyNotFound]. *)
Definition not_found (e : error) : bool := bool_decide (e = ErrKeyNotFound).

(** ** String and key commands *)

Definition resp_ok (v : option bytes) : Response := mkResponse StatusOK v EmptyString.
Definition resp_err (msg : string) : Response := mkResponse StatusErr None msg.
Definition resp_fail (e : error) : Response := resp_err (Error e).
Definition resp_flag (b : bool) : Response := resp_ok (Some (be 1 (if b then 1 else 0))).
Definition resp_num (n : Z) : Response := resp_ok (Some (be 8 (wrapU 64 n))).
Definition resp_error (e : option error) : Response :=
  match e with Some e => resp_fail e | None => resp_ok None end.

Definition encode_keys (keys : list string) : bytes := be 4 (Z.of_nat (length keys)) ++ counted_all 2 keys.

(** The direct path of [process]: the switch over the commands. *)
Definition process_direct (q : request_env) (req : Request) (c : Cache) : outcome (Response * Cache) :=
  let e := q_env q in let now := e_now e in
  let key := Wire.Key req in let cmd := Wire.Cmd req in let ttl := Wire.TTL req in
  let bool_answer := answer resp_flag resp_fail in
  let num_answer := answer resp_num resp_fail in
  if cmd =? CmdGet then
    answer (fun v => resp_ok (Some v))
      (fun e => if not_found e then mkResponse StatusNotFound None EmptyString else resp_fail e)
      (Cache.Get now key c)
  else if cmd =? CmdSet then
    '(e, c) ← Cache.Set_ now key (Wire.Value req) (Some (ms_ttl ttl)) c; mret (resp_error e, c)
  else if cmd =? CmdDel then '(e, c) ← Cache.Del now key c; mret (resp_error e, c)
  else if cmd =? CmdLen then n ← Cache.Len now c; mret (resp_num n, c)
  else if cmd =? CmdCleanup then '(n, c) ← Cleanup now c; mret (resp_num n, c)
  else if cmd =? CmdStats then
    Ret (match q_stats q with Ok data => resp_ok (Some data) | Err e => resp_fail e end, c)
  else if cmd =? CmdExists then bool_answer (Exists now key c)
  else if cmd =? CmdType then answer (fun t => resp_ok (Some (be 1 t))) resp_fail (Type_ now key c)
  else if cmd =? CmdExpire then bool_answer (Expire now key (ttl ÷ 1000) c)
  else if cmd =? CmdExpireAt then bool_answer (ExpireAt now key (ttl ÷ 1000) c)
  else if cmd =? CmdPExpire then bool_answer (PExpire now key ttl c)
  else if cmd =? CmdPExpireAt then bool_answer (PExpireAt now key ttl c)
  else if cmd =? CmdTTL then num_answer (CacheExt.TTL now key c)
  else if cmd =? CmdPTTL then num_answer (PTTL now key c)
  else if cmd =? CmdPersist then bool_answer (Persist now key c)
  else if cmd =? CmdKeys then
    r ← CacheExt.Keys (e_Match e) now key c;
    mret (match r with Ok keys => resp_ok (Some (encode_keys keys)) | Err e => resp_fail e end, c)
  else Ret (resp_fail ErrInvalidCommand, c).

(** The command a string request is replicated as. *)
Definition req_to_raft (req : Request) : RaftCommand float64 :=
  mkRC 0 (Wire.Cmd req) (Wire.Key req) (Wire.Value req) (Wire.TTL req) EmptyString [] [] 0 fzero [] 0 0 0 0 EmptyString false.

Definition process (q : request_env) (req : Request) (s : Server) : outcome (Response * Server) :=
  match raftNode s with
  | Some role =>
      if isRaftWriteOp (Wire.Cmd req) then
        if decide (role <> Leader) then Ret (resp_err "not leader", s)
        else
          '(r, s) ← raftPropose (q_wait q) (req_to_raft req) s;
          mret (match r with Err e => resp_fail e | Ok _ => resp_ok None end, s)
      else on_cache (process_direct q req) s
  | None => on_cache (process_direct q req) s
  end.

(** The shape the Raft paths of the other kinds share. *)
Definition via_raft {R} (q : request_env) (cmd : Z) (rc : RaftCommand float64) (fail : string -> R)
    (reply : raftResult float64 -> R) (direct : Cache -> outcome (R * Cache)) (s : Server) : outcome (R * Server) :=
  match raftNode s with
  | Some role =>
      if isRaftWriteOp cmd then
        if decide (role <> Leader) then Ret (fail "not leader"%string, s)
        else
          '(r, s) ← raftPropose (q_wait q) rc s;
          mret (match r with Err e => fail (Error e) | Ok res => reply res end, s)
      else on_cache direct s
  | None => on_cache direct s
  end.

(** ** Set commands *)

Definition set_resp (cmd status changed : Z) (member : bool) (card : Z) (elems : list string) (msg : string) : SetResponse :=
  mkSetResponse cmd status changed member card elems msg.
Definition set_fail (cmd : Z) (msg : string) : SetResponse := set_resp cmd StatusErr 0 false 0 [] msg.
Definition set_missing (cmd : Z) : SetResponse := set_resp cmd StatusNotFound 0 false 0 [] EmptyString.
Definition set_changed (cmd n : Z) : SetResponse := set_resp cmd StatusOK (wrapU 64 n) false 0 [] EmptyString.
Definition set_elems (cmd : Z) (l : list string) : SetResponse := set_resp cmd StatusOK 0 false 0 l EmptyString.

Definition process_set (q : request_env) (req : SetRequest) (c : Cache) : outcome (SetResponse * Cache) :=
  let cmd := sq_Cmd req in let key := sq_Key req in
  let fail e := set_fail cmd (Error e) in
  let pure (r : result error (option (list string))) :=
    Ret (match r with Ok l => set_elems cmd (default [] l) | Err e => fail e end, c) in
  if cmd =? CmdSAdd then answer (set_changed cmd) fail (SAdd key (sq_Elems req) c)
  else if cmd =? CmdSRem then answer (set_changed cmd) fail (SRem key (sq_Elems req) c)
  else if cmd =? CmdSIsMember then
    answer (fun b => set_resp cmd StatusOK 0 b 0 [] EmptyString) fail
      (SIsMember key (default EmptyString (sq_Elems req !! 0%nat)) c)
  else if cmd =? CmdSMembers then answer (fun l => set_elems cmd (default [] l)) fail (SMembers key c)
  else if cmd =? CmdSCard then
    answer (fun n => set_resp cmd StatusOK 0 false (wrapU 64 n) [] EmptyString) fail (SCard key c)
  else if cmd =? CmdSPop then
    answer (fun x => set_elems cmd [x]) (fun e => if not_found e then set_missing cmd else fail e)
      (SPop (e_rnd (q_env q)) key c)
  else if cmd =? CmdSRandMember then
    answer (fun l => set_elems cmd (default [] l)) fail
      (SRandMember (e_perm (q_env q)) (e_draw (q_env q)) key (sq_Count req) c)
  else if cmd =? CmdSUnion then pure (SUnion (sq_Keys req) c)
  else if cmd =? CmdSInter then pure (SInter (sq_Keys req) c)
  else if cmd =? CmdSDiff then pure (SDiff (sq_Keys req) c)
  else Ret (fail ErrInvalidCommand, c).

Definition setReqToRaft (req : SetRequest) : RaftCommand float64 :=
  let elems := if one_of [CmdSAdd; CmdSRem] (sq_Cmd req) then sq_Elems req else [] in
  mkRC 0 (sq_Cmd req) (sq_Key req) None 0 EmptyString [] [] 0 fzero elems 0 0 0 0 EmptyString false.

Definition raftResultToSetResponse (cmd : Z) (res : raftResult float64) : SetResponse :=
  match rr_err res with
  | Some e => if not_found e && (cmd =? CmdSPop) then set_missing cmd else set_fail cmd (Error e)
  | None =>
      if one_of [CmdSAdd; CmdSRem] cmd then set_changed cmd (rr_int res)
      else if cmd =? CmdSPop then set_elems cmd [rr_str res]
      else set_fail cmd "unsupported raft set op"
  end.

Definition processSet (q : request_env) (req : SetRequest) (s : Server) : outcome (option bytes * Server) :=
  '(resp, s) ← via_raft q (sq_Cmd req) (setReqToRaft req) (set_fail (sq_Cmd req))
                 (raftResultToSetResponse (sq_Cmd req)) (process_set q req) s;
  mret (EncodeSetResponse resp, s).

(** ** Hash commands *)

Definition hash_resp (cmd status i : Z) (b : bool) (str : string) (m : option (gmap string string)) (sl : list string)
    (any : list (option string)) (f : float64) (msg : string) : HashResponse :=
  mkHashResponse cmd status i b str m sl any f msg.
Definition hash_fail (cmd : Z) (msg : string) : HashResponse :=
  hash_resp cmd StatusErr 0 false EmptyString None [] [] fzero msg.
Definition hash_missing (cmd : Z) : HashResponse :=
  hash_resp cmd StatusNotFound 0 false EmptyString None [] [] fzero EmptyString.
Definition hash_int (cmd n : Z) : HashResponse := hash_resp cmd StatusOK n false EmptyString None [] [] fzero EmptyString.
Definition hash_bool (cmd : Z) (b : bool) : HashResponse :=
  hash_resp cmd StatusOK 0 b EmptyString None [] [] fzero EmptyString.
Definition hash_slice (cmd : Z) (l : list string) : HashResponse :=
  hash_resp cmd StatusOK 0 false EmptyString None l [] fzero EmptyString.
Definition hash_float (cmd : Z) (f : float64) : HashResponse :=
  hash_resp cmd StatusOK 0 false EmptyString None [] [] f EmptyString.
Definition hash_done (cmd : Z) : HashResponse := hash_int cmd 0.

Definition process_hash (req : HashRequest) (c : Cache) : outcome (HashResponse * Cache) :=
  let cmd := hq_Cmd req in let key := hq_Key req in let field := hq_Field req in
  let fail e := hash_fail cmd (Error e) in
  let fail_found e := if not_found e then hash_missing cmd else fail e in
  if cmd =? CmdHSet then answer (hash_int cmd) fail (HSet key field (hq_Value req) c)
  else if cmd =? CmdHSetNX then answer (hash_bool cmd) fail (HSetNX key field (hq_Value req) c)
  else if cmd =? CmdHGet then
    answer (fun v => hash_resp cmd StatusOK 0 false v None [] [] fzero EmptyString) fail_found (HGet key field c)
  else if cmd =? CmdHDel then answer (hash_int cmd) fail (HDel key (hq_Fields req) c)
  else if cmd =? CmdHExists then answer (hash_bool cmd) fail (HExists key field c)
  else if cmd =? CmdHGetAll then
    answer (fun m => hash_resp cmd StatusOK 0 false EmptyString (Some m) [] [] fzero EmptyString) fail_found (HGetAll key c)
  else if cmd =? CmdHKeys then answer (hash_slice cmd) fail_found (HKeys key c)
  else if cmd =? CmdHVals then answer (hash_slice cmd) fail_found (HVals key c)
  else if cmd =? CmdHLen then answer (hash_int cmd) fail (HLen key c)
  else if cmd =? CmdHStrLen then answer (hash_int cmd) fail (HStrLen key field c)
  else if cmd =? CmdHIncrBy then answer (hash_int cmd) fail (HIncrBy key field (hq_DeltaI64 req) c)
  else if cmd =? CmdHIncrByFloat then answer (hash_float cmd) fail (HIncrByFloat key field (hq_DeltaF64 req) c)
  else if cmd =? CmdHMGet then
    answer (fun l => hash_resp cmd StatusOK 0 false EmptyString None [] l fzero EmptyString) fail (HMGet key (hq_Fields req) c)
  else if cmd =? CmdHMSet then answer (fun _ => hash_done cmd) fail (HMSet key (hq_FvPairs req) c)
  else Ret (fail ErrInvalidCommand, c).

Definition hashReqToRaft (req : HashRequest) : RaftCommand float64 :=
  let cmd := hq_Cmd req in
  let base value fields pairs di df :=
    mkRC 0 cmd (hq_Key req) value 0 (hq_Field req) fields pairs di df [] 0 0 0 0 EmptyString false in
  if one_of [CmdHSet; CmdHSetNX] cmd then base (Some (bytes_of (hq_Value req))) [] [] 0 fzero
  else if cmd =? CmdHDel then base None (hq_Fields req) [] 0 fzero
  else if cmd =? CmdHIncrBy then base None [] [] (hq_DeltaI64 req) fzero
  else if cmd =? CmdHIncrByFloat then base None [] [] 0 (hq_DeltaF64 req)
  else if cmd =? CmdHMSet then base None [] (hq_FvPairs req) 0 fzero
  else base None [] [] 0 fzero.

Definition raftResultToHashResponse (cmd : Z) (res : raftResult float64) : HashResponse :=
  match rr_err res with
  | Some e => hash_fail cmd (Error e)
  | None =>
      if one_of [CmdHSet; CmdHDel; CmdHIncrBy] cmd then hash_int cmd (rr_int res)
      else if cmd =? CmdHSetNX then hash_bool cmd (rr_bool res)
      else if cmd =? CmdHIncrByFloat then hash_float cmd (rr_float res)
      else if cmd =? CmdHMSet then hash_done cmd
      else hash_fail cmd "unsupported raft hash op"
  end.

Definition processHash (q : request_env) (req : HashRequest) (s : Server) : outcome (option bytes * Server) :=
  '(resp, s) ← via_raft q (hq_Cmd req) (hashReqToRaft req) (hash_fail (hq_Cmd req))
                 (raftResultToHashResponse (hq_Cmd req)) (process_hash req) s;
  mret (EncodeHashResponse resp, s).

(** ** List commands *)

Definition list_resp (cmd status i : Z) (b : bool) (str : string) (sl : list string) (ps : list Z) (msg : string) : ListResponse :=
  mkListResponse cmd status i b str sl ps msg.
Definition list_fail (cmd : Z) (msg : string) : ListResponse := list_resp cmd StatusErr 0 false EmptyString [] [] msg.
Definition list_missing (cmd : Z) : ListResponse := list_resp cmd StatusNotFound 0 false EmptyString [] [] EmptyString.
Definition list_int (cmd n : Z) : ListResponse := list_resp cmd StatusOK n false EmptyString [] [] EmptyString.
Definition list_str (cmd : Z) (x : string) : ListResponse := list_resp cmd StatusOK 0 false x [] [] EmptyString.
Definition list_true (cmd : Z) : ListResponse := list_resp cmd StatusOK 0 true EmptyString [] [] EmptyString.
Definition list_done (cmd : Z) : ListResponse := list_int cmd 0.

(** The polling loop of BLPop and BRPop: try, look at the clock, sleep.  Attempt [i] is
    followed by reading [i + 1] of the clock and, if it goes on, by what the others do. *)
Fixpoint poll (fuel : nat) (q : request_env) (cmd deadline : Z) (pop : Cache -> outcome (result error string * Cache))
    (i : nat) (c : Cache) : outcome (ListResponse * Cache) :=
  match fuel with
  | O => NoFuel
  | S fuel =>
      '(r, c) ← pop c;
      match r with
      | Ok elem => mret (list_str cmd elem, c)
      | Err _ =>
          if deadline <? q_clock q (S i) then mret (list_missing cmd, c)
          else poll fuel q cmd deadline pop (S i) (q_others q i c)
      end
  end.

(** [if req.Timeout > 0 { ... }] and the single attempt after it; reading 0 of the
    clock sets the deadline. *)
Definition blocking_pop (q : request_env) (cmd timeout : Z) (pop : Cache -> outcome (result error string * Cache))
    (c : Cache) : outcome (ListResponse * Cache) :=
  if timeout >? 0 then poll (q_fuel q) q cmd (q_clock q 0 + int64 (timeout * 1000000)) pop 0 c
  else
    answer (list_str cmd) (fun e => if not_found e then list_missing cmd else list_fail cmd (Error e)) (pop c).

Definition process_list (q : request_env) (req : ListRequest) (c : Cache) : outcome (ListResponse * Cache) :=
  let cmd := lq_Cmd req in let key := lq_Key req in
  let fail e := list_fail cmd (Error e) in
  let fail_found e := if not_found e then list_missing cmd else fail e in
  if cmd =? CmdLPush then answer (list_int cmd) fail (LPush key (lq_Elements req) c)
  else if cmd =? CmdRPush then answer (list_int cmd) fail (RPush key (lq_Elements req) c)
  else if cmd =? CmdLPop then answer (list_str cmd) fail_found (LPop key c)
  else if cmd =? CmdRPop then answer (list_str cmd) fail_found (RPop key c)
  else if cmd =? CmdLLen then answer (list_int cmd) fail (LLen key c)
  else if cmd =? CmdLRange then
    answer (fun l => list_resp cmd StatusOK 0 false EmptyString l [] EmptyString) fail_found
      (LRange key (lq_Start req) (lq_Stop req) c)
  else if cmd =? CmdLIndex then answer (list_str cmd) fail_found (LIndex key (lq_Index req) c)
  else if cmd =? CmdLSet then
    answer (fun _ => list_true cmd) fail_found (LSet key (lq_Index req) (lq_Value req) c)
  else if cmd =? CmdLRem then answer (list_int cmd) fail (LRem key (lq_Count req) (lq_Value req) c)
  else if cmd =? CmdLTrim then answer (fun _ => list_done cmd) fail (LTrim key (lq_Start req) (lq_Stop req) c)
  else if cmd =? CmdLInsert then
    answer (list_int cmd) fail (LInsert key (lq_Before req) (lq_Pivot req) (lq_Value req) c)
  else if cmd =? CmdBLPop then blocking_pop q cmd (lq_Timeout req) (LPop key) c
  else if cmd =? CmdBRPop then blocking_pop q cmd (lq_Timeout req) (RPop key) c
  else if cmd =? CmdLPos then
    answer (fun l => list_resp cmd StatusOK 0 false EmptyString [] l EmptyString) fail
      (LPos key (lq_Value req) (lq_Rank req) (lq_Count req) (lq_MaxLen req) c)
  else Ret (fail ErrInvalidCommand, c).

Definition listReqToRaft (req : ListRequest) : RaftCommand float64 :=
  let cmd := lq_Cmd req in
  let base value elems index start stop count pivot before :=
    mkRC 0 cmd (lq_Key req) value 0 EmptyString [] [] 0 fzero elems index start stop count pivot before in
  let value := Some (bytes_of (lq_Value req)) in
  if one_of [CmdLPush; CmdRPush] cmd then base None (lq_Elements req) 0 0 0 0 EmptyString false
  else if cmd =? CmdLSet then base value [] (lq_Index req) 0 0 0 EmptyString false
  else if cmd =? CmdLRem then base value [] 0 0 0 (lq_Count req) EmptyString false
  else if cmd =? CmdLTrim then base None [] 0 (lq_Start req) (lq_Stop req) 0 EmptyString false
  else if cmd =? CmdLInsert then base value [] 0 0 0 0 (lq_Pivot req) (lq_Before req)
  else base None [] 0 0 0 0 EmptyString false.

Definition raftResultToListResponse (cmd : Z) (res : raftResult float64) : ListResponse :=
  match rr_err res with
  | Some e => if not_found e then list_missing cmd else list_fail cmd (Error e)
  | None =>
      if one_of [CmdLPush; CmdRPush; CmdLRem; CmdLInsert] cmd then list_int cmd (rr_int res)
      else if one_of [CmdLPop; CmdRPop] cmd then list_str cmd (rr_str res)
      else if cmd =? CmdLSet then list_true cmd
      else if cmd =? CmdLTrim then list_done cmd
      else list_fail cmd "unsupported raft list op"
  end.

Definition processList (q : request_env) (req : ListRequest) (s : Server) : outcome (option bytes * Server) :=
  '(resp, s) ← via_raft q (lq_Cmd req) (listReqToRaft req) (list_fail (lq_Cmd req))
                 (raftResultToListResponse (lq_Cmd req)) (process_list q req) s;
  mret (EncodeListResponse resp, s).

(** ** Jobs and connections *)

Inductive job : Type :=
| KvJob (req : Request)
| SetJob (req : SetRequest)
| HashJob (req : HashRequest)
| ListJob (req : ListRequest).

(** [payload := getBuf(1 + len(raw)); payload[0] = cmd; copy(payload[1:], raw)]. *)
Definition prefixed (stale : bytes) (cmd : Z) (raw : option bytes) : bytes :=
  let payload := getBuf stale (1 + length (val raw)) in
  blit 1 (val raw) (blit 0 (be 1 cmd) payload).

Definition processRequest (q : request_env) (j : job) (s : Server) : outcome (bytes * Server) :=
  match j with
  | HashJob req => '(raw, s) ← processHash q req s; mret (prefixed (q_stale q) (hq_Cmd req) raw, s)
  | ListJob req => '(raw, s) ← processList q req s; mret (prefixed (q_stale q) (lq_Cmd req) raw, s)
  | SetJob req => '(raw, s) ← processSet q req s; mret (prefixed (q_stale q) (sq_Cmd req) raw, s)
  | KvJob req => '(resp, s) ← process q req s; mret (EncodeResponse (q_stale q) resp, s)
  end.

Definition FrameTypeRequest : Z := 0.
Definition FrameTypeResponse : Z := 1.

(** The kind of a request, from the first byte of its payload, and its decoding. *)
Definition decode_job (p : slice) : outcome (result string job) :=
  b ← at_ p 0;
  let cmd := byte_val b in
  let kind {A} (wrap : A -> job) (msg : string) (r : result error A) : result string job :=
    match r with Ok req => Ok (wrap req) | Err _ => Err msg end in
  if IsHashCmd cmd then r ← DecodeHashRequest p; mret (kind HashJob "invalid hash request"%string r)
  else if IsListCmd cmd then r ← DecodeListRequest p; mret (kind ListJob "invalid list request"%string r)
  else if (CmdSAdd <=? cmd) && (cmd <=? CmdSDiff) then
    r ← DecodeSetRequest p; mret (kind SetJob "invalid set request"%string r)
  else r ← DecodeRequestPayload p; mret (kind KvJob "invalid request"%string r).

Definition count_request (s : Server) : Server :=
  mkServer (srv_cache s) (raftNode s) (raftPending s) (delivered s) (raftNextReqID s) (wrapU 64 (totalRequests s + 1)).

(** One pass of [handleConn]'s loop on a frame: the payload written back, if any. *)
Definition handle_frame (q : request_env) (f : Frame) (s : Server) : outcome (option bytes * Server) :=
  if negb (FType f =? FrameTypeRequest) then Ret (None, s)
  else
    let bad msg := EncodeResponse (q_stale q) (resp_err msg) in
    match val (Payload f) with
    | [] => Ret (Some (bad "empty request"%string), s)
    | p =>
        r ← decode_job (payload p (q_rest q));
        match r with
        | Err msg => Ret (Some (bad msg), s)
        | Ok j =>
            '(out, s) ← processRequest q j (count_request s);
            mret (Some out, s)
        end
    end.

(** [writeResponseFrame]. *)
Definition response_frame (streamID : Z) (out : bytes) : Frame := mkFrame streamID FrameTypeResponse 0 (Some out).

(** The loop of [handleConn] on the frames of a connection, one environment per frame:
    the frames it writes.  It ends at the first read error; a panic ends it too. *)
Fixpoint handle_conn (qs : list request_env) (r : bytes) (s : Server) : outcome (list Frame * Server) :=
  match qs with
  | [] => Ret ([], s)
  | q :: qs =>
      match DecodeFrame r with
      | (Err _, _) => Ret ([], s)
      | (Ok f, r) =>
          '(out, s) ← handle_frame q f s;
          '(frames, s) ← handle_conn qs r s;
          mret (match out with Some out => response_frame (StreamID f) out :: frames | None => frames end, s)
      end
  end.

End Server.
