(* ===== verification/Client.v ===== *)
(** * The client (net/client.go, net/client_ext.go)

    A connection numbers its requests, keeps a channel per request in flight and
    hands each response it reads to the channel of its number.  A method of the
    client is a request and what it makes of the response; [begin_call] is the part
    of [do], [doSet], [doHash] and [doList] up to the write, [deliver] one pass of
    the read loop, [end_call] the wait and the clean-up. *)

From Stdlib Require Import Strings.Byte Strings.String.
From stdpp Require Import base tactics numbers list gmap sets fin_maps strings.
From S2P Require Import Prelude.
From S2P Require Import Bytes.
From S2P Require Import Wire.
From S2P Require Import WireSet.
From S2P Require Import WireExt.
From S2P Require Import RaftCmd.
From S2P Require Import Server.

Open Scope Z_scope.

(** ** Calls *)

Section Calls.
Context `{FB : FloatBits float64}.
Notation HashRequest := (@HashRequest float64).
Notation HashResponse := (@HashResponse float64).

(** A request of one of the four kinds and the reading of its response. *)
Inductive call (A : Type) : Type :=
| KvCall (req : Request) (read : Response -> result error A)
| SetCall (req : SetRequest) (read : SetResponse -> result error A)
| HashCall (req : HashRequest) (read : HashResponse -> result error A)
| ListCall (req : ListRequest) (read : ListResponse -> result error A).
Arguments KvCall {A} _ _.
Arguments SetCall {A} _ _.
Arguments HashCall {A} _ _.
Arguments ListCall {A} _ _.

(** [serverError]; an [errorString] is the error of its message. *)
Definition serverError (msg : string) : error := if decide (msg = "not leader"%string) then ErrNotLeader else ErrMsg msg.

(** *** Strings *)

(** [if resp.Status != StatusOK { return ..., err }]. *)
Definition kv_ok {A} (err : string -> error) (ok : Response -> result error A) (resp : Response) : result error A :=
  if negb (Status resp =? StatusOK) then Err (err (ErrMsg_ resp)) else ok resp.

(** [int(binary.BigEndian.Uint64(resp.Value))]. *)
Definition int_value (resp : Response) : Z := int64 (unbe (take 8 (val (RValue resp)))).

Definition counter (resp : Response) : result error Z :=
  if (length (val (RValue resp)) <? 8)%nat then Err ErrBadResponse else Ok (int_value resp).

Definition get (key : string) : call (option bytes) :=
  KvCall (mkRequest CmdGet key None 0) (fun resp =>
    if Status resp =? StatusNotFound then Err ErrKeyNotFound else kv_ok serverError (fun resp => Ok (RValue resp)) resp).
Definition set (key : string) (value : option bytes) (ttl : Z) : call unit :=
  KvCall (mkRequest CmdSet key value (if ttl >? 0 then ttl ÷ 1000000 else 0)) (kv_ok serverError (fun _ => Ok tt)).
Definition del (key : string) : call unit :=
  KvCall (mkRequest CmdDel key None 0) (kv_ok serverError (fun _ => Ok tt)).
Definition lenCmd : call Z := KvCall (mkRequest CmdLen EmptyString None 0) (kv_ok serverError counter).
Definition cleanupCmd : call Z := KvCall (mkRequest CmdCleanup EmptyString None 0) (kv_ok serverError counter).
Definition statsCmd : call (option bytes) :=
  KvCall (mkRequest CmdStats EmptyString None 0) (kv_ok serverError (fun resp => Ok (RValue resp))).

(** *** Keys *)

(** [len(resp.Value) > 0 && resp.Value[0] == 1]. *)
Definition flag_value (resp : Response) : result error bool :=
  Ok (match val (RValue resp) with b :: _ => byte_val b =? 1 | [] => false end).
Definition long_value (resp : Response) : result error Z :=
  Ok (if (8 <=? length (val (RValue resp)))%nat then int_value resp else 0).

(** The loop of [keysCmd]. *)
Fixpoint read_keys (n : nat) (p : bytes) (off : nat) (acc : list string) : list string :=
  match n with
  | O => acc
  | S n =>
      if (length p <? off + 2)%nat then acc
      else
        let kl := Z.to_nat (unbe (take 2 (drop off p))) in
        let off := (off + 2)%nat in
        if (length p <? off + kl)%nat then acc
        else read_keys n p (off + kl) (acc ++ [string_of (take kl (drop off p))])
  end.

Definition existsCmd (key : string) : call bool := KvCall (mkRequest CmdExists key None 0) (kv_ok ErrMsg flag_value).
Definition typeCmd (key : string) : call Z :=
  KvCall (mkRequest CmdType key None 0)
    (kv_ok ErrMsg (fun resp => Ok (match val (RValue resp) with b :: _ => byte_val b | [] => 0 end))).
Definition expireCmd (key : string) (seconds : Z) : call bool :=
  KvCall (mkRequest CmdExpire key None (int64 (seconds * 1000))) (kv_ok ErrMsg flag_value).
Definition pExpireCmd (key : string) (ms : Z) : call bool :=
  KvCall (mkRequest CmdPExpire key None ms) (kv_ok ErrMsg flag_value).
Definition ttlCmd (key : string) : call Z := KvCall (mkRequest CmdTTL key None 0) (kv_ok ErrMsg long_value).
Definition pttlCmd (key : string) : call Z := KvCall (mkRequest CmdPTTL key None 0) (kv_ok ErrMsg long_value).
Definition persistCmd (key : string) : call bool := KvCall (mkRequest CmdPersist key None 0) (kv_ok ErrMsg flag_value).
Definition keysCmd (pattern : string) : call (list string) :=
  KvCall (mkRequest CmdKeys pattern None 0) (kv_ok ErrMsg (fun resp =>
    let v := val (RValue resp) in
    Ok (if (length v <? 4)%nat then [] else read_keys (Z.to_nat (unbe (take 4 v))) v 4 []))).

(** *** Sets *)

Definition set_ok {A} (ok : SetResponse -> A) (resp : SetResponse) : result error A :=
  if negb (sr_Status resp =? StatusOK) then Err (serverError (sr_ErrMsg resp)) else Ok (ok resp).
Definition set_key (cmd : Z) (key : string) : SetRequest := mkSetRequest cmd key [] 0 [].

Definition sAdd (key : string) (elems : list string) : call Z :=
  SetCall (mkSetRequest CmdSAdd key elems 0 []) (set_ok (fun resp => int64 (sr_Changed resp))).
Definition sRem (key : string) (elems : list string) : call Z :=
  SetCall (mkSetRequest CmdSRem key elems 0 []) (set_ok (fun resp => int64 (sr_Changed resp))).
Definition sIsMember (key elem : string) : call bool :=
  SetCall (mkSetRequest CmdSIsMember key [elem] 0 []) (set_ok sr_IsMember).
Definition sMembers (key : string) : call (list string) := SetCall (set_key CmdSMembers key) (set_ok sr_Elems).
Definition sCard (key : string) : call Z :=
  SetCall (set_key CmdSCard key) (set_ok (fun resp => int64 (sr_Card resp))).
Definition sPop (key : string) : call string :=
  SetCall (set_key CmdSPop key) (fun resp =>
    if sr_Status resp =? StatusNotFound then Err ErrKeyNotFound
    else set_ok (fun resp => default EmptyString (sr_Elems resp !! 0%nat)) resp).
Definition sRandMember (key : string) (count : Z) : call (list string) :=
  SetCall (mkSetRequest CmdSRandMember key [] (wrapS 32 count) []) (set_ok sr_Elems).
Definition sUnion (keys : list string) : call (list string) :=
  SetCall (mkSetRequest CmdSUnion EmptyString [] 0 keys) (set_ok sr_Elems).
Definition sInter (keys : list string) : call (list string) :=
  SetCall (mkSetRequest CmdSInter EmptyString [] 0 keys) (set_ok sr_Elems).
Definition sDiff (keys : list string) : call (list string) :=
  SetCall (mkSetRequest CmdSDiff EmptyString [] 0 keys) (set_ok sr_Elems).

(** *** Hashes *)

Definition hash_ok {A} (ok : HashResponse -> A) (resp : HashResponse) : result error A :=
  if negb (hp_Status resp =? StatusOK) then Err (ErrMsg (hp_ErrMsg resp)) else Ok (ok resp).
(** [if resp.Status == StatusNotFound { return ..., mcache.ErrKeyNotFound }] first. *)
Definition hash_found {A} (ok : HashResponse -> A) (resp : HashResponse) : result error A :=
  if hp_Status resp =? StatusNotFound then Err ErrKeyNotFound else hash_ok ok resp.
Definition hash_req (cmd : Z) (key field value : string) (fields pairs : list string) : HashRequest :=
  mkHashRequest cmd key field value fields pairs 0 fzero.

Definition hSet (key field value : string) : call Z :=
  HashCall (hash_req CmdHSet key field value [] []) (hash_ok (fun resp => int64 (hp_Int resp))).
Definition hSetNX (key field value : string) : call bool :=
  HashCall (hash_req CmdHSetNX key field value [] []) (hash_ok hp_Bool).
Definition hGet (key field : string) : call string :=
  HashCall (hash_req CmdHGet key field EmptyString [] []) (hash_found hp_Str).
Definition hDel (key : string) (fields : list string) : call Z :=
  HashCall (hash_req CmdHDel key EmptyString EmptyString fields []) (hash_ok (fun resp => int64 (hp_Int resp))).
Definition hExists (key field : string) : call bool :=
  HashCall (hash_req CmdHExists key field EmptyString [] []) (hash_ok hp_Bool).
Definition hGetAll (key : string) : call (option (gmap string string)) :=
  HashCall (hash_req CmdHGetAll key EmptyString EmptyString [] []) (hash_found hp_Map).
Definition hKeys (key : string) : call (list string) :=
  HashCall (hash_req CmdHKeys key EmptyString EmptyString [] []) (hash_ok hp_Slice).
Definition hVals (key : string) : call (list string) :=
  HashCall (hash_req CmdHVals key EmptyString EmptyString [] []) (hash_ok hp_Slice).
Definition hLen (key : string) : call Z :=
  HashCall (hash_req CmdHLen key EmptyString EmptyString [] []) (hash_ok (fun resp => int64 (hp_Int resp))).
Definition hStrLen (key field : string) : call Z :=
  HashCall (hash_req CmdHStrLen key field EmptyString [] []) (hash_ok (fun resp => int64 (hp_Int resp))).
Definition hIncrBy (key field : string) (delta : Z) : call Z :=
  HashCall (mkHashRequest CmdHIncrBy key field EmptyString [] [] delta fzero) (hash_ok hp_Int).
Definition hIncrByFloat (key field : string) (delta : float64) : call float64 :=
  HashCall (mkHashRequest CmdHIncrByFloat key field EmptyString [] [] 0 delta) (hash_ok hp_Float).
Definition hmGet (key : string) (fields : list string) : call (list (option string)) :=
  HashCall (hash_req CmdHMGet key EmptyString EmptyString fields []) (hash_ok hp_Any).
Definition hmSet (key : string) (fvPairs : list string) : call unit :=
  HashCall (hash_req CmdHMSet key EmptyString EmptyString [] fvPairs) (hash_ok (fun _ => tt)).

(** *** Lists *)

Definition list_ok {A} (ok : ListResponse -> A) (resp : ListResponse) : result error A :=
  if negb (lp_Status resp =? StatusOK) then Err (ErrMsg (lp_ErrMsg resp)) else Ok (ok resp).
Definition list_found {A} (ok : ListResponse -> A) (resp : ListResponse) : result error A :=
  if lp_Status resp =? StatusNotFound then Err ErrKeyNotFound else list_ok ok resp.
Definition int_result (resp : ListResponse) : Z := int64 (lp_Int resp).

Definition lPush (key : string) (elems : list string) : call Z :=
  ListCall (mkListRequest CmdLPush key elems EmptyString 0 0 0 0 EmptyString false 0 0 0) (list_ok int_result).
Definition rPush (key : string) (elems : list string) : call Z :=
  ListCall (mkListRequest CmdRPush key elems EmptyString 0 0 0 0 EmptyString false 0 0 0) (list_ok int_result).
Definition lPop (key : string) : call string :=
  ListCall (mkListRequest CmdLPop key [] EmptyString 0 0 0 0 EmptyString false 0 0 0) (list_found lp_Str).
Definition rPop (key : string) : call string :=
  ListCall (mkListRequest CmdRPop key [] EmptyString 0 0 0 0 EmptyString false 0 0 0) (list_found lp_Str).
Definition lLen (key : string) : call Z :=
  ListCall (mkListRequest CmdLLen key [] EmptyString 0 0 0 0 EmptyString false 0 0 0) (list_ok int_result).
Definition lRange (key : string) (start stop : Z) : call (list string) :=
  ListCall (mkListRequest CmdLRange key [] EmptyString 0 start stop 0 EmptyString false 0 0 0) (list_ok lp_Slice).
Definition lIndex (key : string) (index : Z) : call string :=
  ListCall (mkListRequest CmdLIndex key [] EmptyString index 0 0 0 EmptyString false 0 0 0) (list_found lp_Str).
Definition lSet (key : string) (index : Z) (value : string) : call unit :=
  ListCall (mkListRequest CmdLSet key [] value index 0 0 0 EmptyString false 0 0 0) (list_found (fun _ => tt)).
Definition lRem (key : string) (count : Z) (value : string) : call Z :=
  ListCall (mkListRequest CmdLRem key [] value 0 0 0 count EmptyString false 0 0 0) (list_ok int_result).
Definition lTrim (key : string) (start stop : Z) : call unit :=
  ListCall (mkListRequest CmdLTrim key [] EmptyString 0 start stop 0 EmptyString false 0 0 0) (list_ok (fun _ => tt)).
Definition lInsert (key : string) (before : bool) (pivot value : string) : call Z :=
  ListCall (mkListRequest CmdLInsert key [] value 0 0 0 0 pivot before 0 0 0) (list_ok int_result).
(** [timeout.Milliseconds()]. *)
Definition bLPop (key : string) (timeout : Z) : call string :=
  ListCall (mkListRequest CmdBLPop key [] EmptyString 0 0 0 0 EmptyString false (timeout ÷ 1000000) 0 0) (list_found lp_Str).
Definition bRPop (key : string) (timeout : Z) : call string :=
  ListCall (mkListRequest CmdBRPop key [] EmptyString 0 0 0 0 EmptyString false (timeout ÷ 1000000) 0 0) (list_found lp_Str).
Definition lPos (key value : string) (rank count maxLen : Z) : call (list Z) :=
  ListCall (mkListRequest CmdLPos key [] value 0 0 0 count EmptyString false 0 rank maxLen) (list_ok lp_Pos).

(** ** A connection *)

(** The channels of requests in flight by stream number; a channel holds one response. *)
Notation chans R := (gmap Z (option R)).

Record clientConn : Type := mkConn {
  nextStreamID : Z;
  cc_closed : bool;
  pendingMap : chans Response;
  pendingSetMap : chans SetResponse;
  pendingHashMap : chans HashResponse;
  pendingListMap : chans ListResponse;
}.

Definition new_conn : clientConn := mkConn 0 false ∅ ∅ ∅ ∅.

Definition with_maps (kv : chans Response) (se : chans SetResponse) (ha : chans HashResponse) (li : chans ListResponse)
    (cc : clientConn) : clientConn := mkConn (nextStreamID cc) (cc_closed cc) kv se ha li.

(** [atomic.AddUint32(&cc.nextStreamID, 1)], once more if it gave 0. *)
Definition next_stream (n : Z) : Z := let n := wrapU 32 (n + 1) in if n =? 0 then wrapU 32 (n + 1) else n.

(** [pendingMap.Store(streamID, respCh)] and [pendingMap.Delete(streamID)], on the map of the call's kind. *)
Definition store {A} (c : call A) (id : Z) (cc : clientConn) : clientConn :=
  let '(mkConn n cl kv se ha li) := cc in
  match c with
  | KvCall _ _ => mkConn n cl (<[id := None]> kv) se ha li
  | SetCall _ _ => mkConn n cl kv (<[id := None]> se) ha li
  | HashCall _ _ => mkConn n cl kv se (<[id := None]> ha) li
  | ListCall _ _ => mkConn n cl kv se ha (<[id := None]> li)
  end.
Definition forget {A} (c : call A) (id : Z) (cc : clientConn) : clientConn :=
  let '(mkConn n cl kv se ha li) := cc in
  match c with
  | KvCall _ _ => mkConn n cl (delete id kv) se ha li
  | SetCall _ _ => mkConn n cl kv (delete id se) ha li
  | HashCall _ _ => mkConn n cl kv se (delete id ha) li
  | ListCall _ _ => mkConn n cl kv se ha (delete id li)
  end.

(** The payload of a call; a nil one is [None]. *)
Definition request_payload {A} (stale : bytes) (c : call A) : option bytes :=
  match c with
  | KvCall req _ => Some (EncodeRequest stale req)
  | SetCall req _ => EncodeSetRequest req
  | HashCall req _ => EncodeHashRequest req
  | ListCall req _ => EncodeListRequest req
  end.

Definition markBad (cc : clientConn) : clientConn :=
  let '(mkConn n _ kv se ha li) := cc in mkConn n true kv se ha li.

(** Up to the write: the stream number and the bytes written, or an error.
    [write = Some e]: writing fails with [e]. *)
Definition begin_call {A} (stale1 stale2 : bytes) (write : option error) (c : call A) (cc : clientConn) :
    result error (Z * bytes) * clientConn :=
  if cc_closed cc then (Err ErrConnClosed, cc)
  else
    let id := next_stream (nextStreamID cc) in
    let cc := mkConn id (cc_closed cc) (pendingMap cc) (pendingSetMap cc) (pendingHashMap cc) (pendingListMap cc) in
    let cc := store c id cc in
    match request_payload stale1 c with
    | None => (Err ErrBadResponse, forget c id cc)
    | Some p =>
        match write with
        | Some e => (Err e, forget c id (markBad cc))
        | None => (Ok (id, Encode stale2 (mkFrame id FrameTypeRequest 0 (Some p))), cc)
        end
    end.

(** [select { case ch <- resp: default: }] on the channel of [id], if there is one. *)
Definition send {R} (id : Z) (resp : R) (m : chans R) : chans R :=
  match m !! id with Some None => <[id := Some resp]> m | _ => m end.

(** [if err != nil { resp = malformed }]. *)
Definition or_malformed {R} (bad : R) (r : result error R) : R := match r with Ok resp => resp | Err _ => bad end.

(** One frame in the read loop; [rest] follows the payload in its buffer. *)
Definition deliver (rest : bytes) (f : Frame) (cc : clientConn) : outcome clientConn :=
  if negb (FType f =? FrameTypeResponse) then Ret cc
  else
    let id := StreamID f in
    let '(mkConn n cl kv se ha li) := cc in
    match val (Payload f) with
    | [] => Ret cc
    | b :: p =>
        let cmd := byte_val b in
        if IsHashCmd cmd then
          r ← DecodeHashResponse (payload p rest) cmd;
          let bad := mkHashResponse 0 StatusErr 0 false EmptyString None [] [] fzero "malformed hash response" in
          mret (mkConn n cl kv se (send id (or_malformed bad r) ha) li)
        else if IsListCmd cmd then
          r ← DecodeListResponse (payload p rest) cmd;
          let bad := mkListResponse 0 StatusErr 0 false EmptyString [] [] "malformed list response" in
          mret (mkConn n cl kv se ha (send id (or_malformed bad r) li))
        else if (CmdSAdd <=? cmd) && (cmd <=? CmdSDiff) then
          r ← DecodeSetResponse (payload p rest) cmd;
          let bad := mkSetResponse 0 StatusErr 0 false 0 [] "malformed set response" in
          mret (mkConn n cl kv (send id (or_malformed bad r) se) ha li)
        else
          r ← DecodeResponsePayload (payload (b :: p) rest);
          let bad := mkResponse StatusErr None "malformed response" in
          mret (mkConn n cl (send id (or_malformed bad r) kv) se ha li)
    end.

(** [closeAllPending]: every call that waits is answered with the error.  The code also
    takes the channels out of the maps; a full channel takes no other response either. *)
Definition closeAllPending (msg : string) (cc : clientConn) : clientConn :=
  let fill {R} (resp : R) (o : option R) := match o with None => Some resp | o => o end in
  with_maps
    (fill (mkResponse StatusErr None msg) <$> pendingMap cc)
    (fill (mkSetResponse 0 StatusErr 0 false 0 [] msg) <$> pendingSetMap cc)
    (fill (mkHashResponse 0 StatusErr 0 false EmptyString None [] [] fzero msg) <$> pendingHashMap cc)
    (fill (mkListResponse 0 StatusErr 0 false EmptyString [] [] msg) <$> pendingListMap cc) cc.

Definition close (cc : clientConn) : clientConn := closeAllPending "connection closed" (markBad cc).

(** The recovery of the read loop calls [closeAllPending(nil)], which dereferences the
    nil error for the first call it finds. *)
Definition recovered (cc : clientConn) : outcome clientConn :=
  if decide (pendingMap cc = ∅ /\ pendingSetMap cc = ∅ /\ pendingHashMap cc = ∅ /\ pendingListMap cc = ∅)
  then Ret cc else Panic.

(** The read loop on a stream, for as many frames as there are buffers; [text] is [err.Error()]. *)
Fixpoint readLoop (text : error -> string) (rests : list bytes) (r : bytes) (cc : clientConn) : outcome clientConn :=
  match rests with
  | [] => Ret cc
  | rest :: rests =>
      match DecodeFrame r with
      | (Err e, _) => Ret (closeAllPending (text e) cc)
      | (Ok f, r) =>
          match deliver rest f cc with
          | Ret cc => readLoop text rests r cc
          | _ => recovered cc
          end
      end
  end.

(** The wait ends: the response in the channel, or the timeout; then the clean-up. *)
Definition received {A} (c : call A) (id : Z) (cc : clientConn) : result error A :=
  let wait {R} (m : chans R) (read : R -> result error A) :=
    match m !! id with Some (Some resp) => read resp | _ => Err ErrReadTimeout end in
  match c with
  | KvCall _ read => wait (pendingMap cc) read
  | SetCall _ read => wait (pendingSetMap cc) read
  | HashCall _ read => wait (pendingHashMap cc) read
  | ListCall _ read => wait (pendingListMap cc) read
  end.
Definition end_call {A} (c : call A) (id : Z) (cc : clientConn) : result error A * clientConn :=
  (received c id cc, forget c id cc).

(** ** The pool of connections *)

Record Client : Type := mkClient { conns : list clientConn; nextConn : Z }.

(** Round robin; a pool of no connections divides by zero. *)
Definition pickConn (c : Client) : outcome (nat * Client) :=
  let n := wrapU 32 (nextConn c + 1) in
  let count := wrapU 32 (Z.of_nat (length (conns c))) in
  if count =? 0 then Panic else Ret (Z.to_nat (n mod count), mkClient (conns c) n).

Definition Close (c : Client) : Client := mkClient (close <$> conns c) (nextConn c).

End Calls.
Arguments KvCall {_ A} _ _.
Arguments SetCall {_ A} _ _.
Arguments HashCall {_ A} _ _.
Arguments ListCall {_ A} _ _.
Arguments call _ _ : clear implicits.
Arguments clientConn _ : clear implicits.
