(* ===== verification/Network.v ===== *)
(** * Client, wire and server together

    Calls in flight on one connection: the client writes the frames of several
    requests, the server reads and answers them one by one, the client reads the
    answers.  Each call gets the answer to its own request, as if the handlers had
    been called with the decoded requests in that order. *)

From Stdlib Require Import Strings.Byte Strings.String.
From stdpp Require Import base tactics numbers list gmap sets fin_maps strings.
From S2P Require Import Prelude.
From S2P Require Import Policy.
From S2P Require Import DHash.
From S2P Require Import Bytes.
From S2P Require Import Wire.
From S2P Require Import WireSet.
From S2P Require Import WireExt.
From S2P Require Import WireExtSpec.
From S2P Require Import RaftCmd.
From S2P Require Import Server.
From S2P Require Import Client.

Open Scope Z_scope.

#[local] Opaque be.

(** ** Stream numbers *)

(** They run through 1 .. 2^32 - 1 and start again. *)
Definition streams : Z := 2 ^ 32 - 1.

Lemma next_stream_mod n : 0 <= n < 2 ^ 32 -> next_stream n = n mod streams + 1.
Proof.
  intros Hn. unfold next_stream, wrapU, streams. destruct (decide (n = 2 ^ 32 - 1)) as [->|Hne]; [done|].
  destruct (decide (n = 2 ^ 32 - 2)) as [->|Hne']; [done|].
  rewrite Z.mod_small by lia. destruct (Z.eqb_spec (n + 1) 0); [lia|]. rewrite Z.mod_small by lia. done.
Qed.

Lemma next_stream_range n : 0 <= n < 2 ^ 32 -> 0 < next_stream n < 2 ^ 32.
Proof.
  intros Hn. rewrite next_stream_mod by done. pose proof (Z.mod_pos_bound n streams). unfold streams in *. lia.
Qed.

(** The numbers of the next [k] calls. *)
Fixpoint stream_ids (k : nat) (n : Z) : list Z :=
  match k with O => [] | S k => next_stream n :: stream_ids k (next_stream n) end.

Lemma length_stream_ids k n : length (stream_ids k n) = k.
Proof. revert n. induction k as [|k IH]; intros n; cbn; [done|by rewrite IH]. Qed.

Lemma stream_ids_lookup k n i :
  0 <= n < 2 ^ 32 -> (i < k)%nat -> stream_ids k n !! i = Some ((n + Z.of_nat i) mod streams + 1).
Proof.
  revert n i. induction k as [|k IH]; intros n i Hn Hi; [lia|]. destruct i as [|i]; cbn [stream_ids lookup list_lookup].
  - by rewrite next_stream_mod, Z.add_0_r.
  - pose proof (next_stream_range n Hn). rewrite IH by lia. do 2 f_equal. rewrite next_stream_mod by done.
    replace (n mod streams + 1 + Z.of_nat i) with (n mod streams + (1 + Z.of_nat i)) by lia.
    rewrite Z.add_mod_idemp_l by (unfold streams; lia). f_equal. lia.
Qed.

Lemma NoDup_stream_ids k n : 0 <= n < 2 ^ 32 -> Z.of_nat k <= streams -> NoDup (stream_ids k n).
Proof.
  intros Hn Hk. apply NoDup_alt. intros i j x Hi Hj.
  pose proof (length_stream_ids k n) as Hl.
  pose proof (lookup_lt_Some _ _ _ Hi) as Hlt. pose proof (lookup_lt_Some _ _ _ Hj) as Hlt'. rewrite Hl in *.
  rewrite stream_ids_lookup in Hi, Hj by done. simplify_eq.
  assert ((n + Z.of_nat i) mod streams = (n + Z.of_nat j) mod streams) as Heq by lia.
  assert ((Z.of_nat i - Z.of_nat j) mod streams = 0) as Hz.
  { replace (Z.of_nat i - Z.of_nat j) with (n + Z.of_nat i - (n + Z.of_nat j)) by lia.
    rewrite Zminus_mod, Heq, Z.sub_diag. done. }
  apply Z.mod_divide in Hz as [d Hd]; [|unfold streams; lia]. unfold streams in *. nia.
Qed.

Section Network.
Context `{MI : MapIter} `{EP : EvictionPolicy P} `{FO : FloatOps float64} `{FB : FloatBits float64} `{FL : !FloatBitsLaws float64} `{JS : Json float64}.
Variable Quote : string -> string.
Notation Server := (Server P float64).
Notation job := (@job float64).
Notation request_env := (@request_env P).
Notation call := (call float64).
Notation clientConn := (clientConn float64).

(** ** What the server answers, before it is encoded *)

Inductive reply : Type :=
| KvReply (resp : Response)
| SetReply (resp : SetResponse)
| HashReply (resp : @HashResponse float64)
| ListReply (resp : ListResponse).

Definition respond (q : request_env) (j : job) (s : Server) : outcome (reply * Server) :=
  match j with
  | KvJob req => '(r, s) ← process Quote q req s; mret (KvReply r, s)
  | SetJob req =>
      '(r, s) ← via_raft Quote q (sq_Cmd req) (setReqToRaft req) (set_fail (sq_Cmd req))
                  (raftResultToSetResponse Quote (sq_Cmd req)) (process_set Quote q req) s;
      mret (SetReply r, s)
  | HashJob req =>
      '(r, s) ← via_raft Quote q (hq_Cmd req) (hashReqToRaft req) (hash_fail (hq_Cmd req))
                  (raftResultToHashResponse Quote (hq_Cmd req)) (process_hash Quote req) s;
      mret (HashReply r, s)
  | ListJob req =>
      '(r, s) ← via_raft Quote q (lq_Cmd req) (listReqToRaft req) (list_fail (lq_Cmd req))
                  (raftResultToListResponse Quote (lq_Cmd req)) (process_list Quote q req) s;
      mret (ListReply r, s)
  end.

Definition encode_reply (stale : bytes) (r : reply) : bytes :=
  match r with
  | KvReply r => EncodeResponse stale r
  | SetReply r => prefixed stale (sr_Cmd r) (EncodeSetResponse r)
  | HashReply r => prefixed stale (hp_Cmd r) (EncodeHashResponse r)
  | ListReply r => prefixed stale (lp_Cmd r) (EncodeListResponse r)
  end.

(** The command of a reply is that of the request. *)
Definition same_cmd (j : job) (r : reply) : Prop :=
  match j, r with
  | KvJob _, KvReply _ => True
  | SetJob req, SetReply r => sr_Cmd r = sq_Cmd req
  | HashJob req, HashReply r => hp_Cmd r = hq_Cmd req
  | ListJob req, ListReply r => lp_Cmd r = lq_Cmd req
  | _, _ => False
  end.

Lemma answer_post {A R} (Q : R -> Prop) (ok : A -> R) fail (m : outcome (result error A * Cache.Cache P)) r c :
  (forall a, Q (ok a)) -> (forall e, Q (fail e)) -> answer ok fail m ⇓ (r, c) -> Q r.
Proof.
  intros Hok Hfail. unfold answer. destruct m as [[[a|e] c']| |]; cbn; try done; intros [= <- <-]; auto.
Qed.

(** Walks through the switch over the commands. *)
Ltac each_cmd :=
  repeat match goal with |- (if ?b then _ else _) ⇓ _ -> _ => destruct b end.

Lemma process_set_cmd (q : request_env) req c r c' : process_set Quote q req c ⇓ (r, c') -> sr_Cmd r = sq_Cmd req.
Proof.
  unfold process_set. each_cmd;
    try (apply (answer_post (fun r => sr_Cmd r = sq_Cmd req)); [done|intros e; by repeat case_match]);
    try (intros [= <- _]; by repeat case_match).
Qed.

Lemma process_hash_cmd req (c : Cache.Cache P) r c' : process_hash Quote req c ⇓ (r, c') -> hp_Cmd r = hq_Cmd req.
Proof.
  unfold process_hash. each_cmd;
    try (apply (answer_post (fun r => hp_Cmd r = hq_Cmd req)); [done|intros e; by repeat case_match]).
  by intros [= <- _].
Qed.

Lemma poll_cmd fuel (q : request_env) cmd deadline pop i c r c' : poll fuel q cmd deadline pop i c ⇓ (r, c') -> lp_Cmd r = cmd.
Proof.
  revert i c. induction fuel as [|fuel IH]; intros i c; cbn; [done|].
  destruct (pop c) as [[[a|e] c1]| |]; cbn; try done; [by intros [= <- _]|]. case_match; [by intros [= <- _]|apply IH].
Qed.

Lemma blocking_pop_cmd (q : request_env) cmd timeout pop c r c' : blocking_pop Quote q cmd timeout pop c ⇓ (r, c') -> lp_Cmd r = cmd.
Proof.
  unfold blocking_pop. case_match; [apply poll_cmd|].
  apply (answer_post (fun r => lp_Cmd r = cmd)); [done|intros e; by repeat case_match].
Qed.

Lemma process_list_cmd (q : request_env) req c r c' : process_list Quote q req c ⇓ (r, c') -> lp_Cmd r = lq_Cmd req.
Proof.
  unfold process_list. each_cmd; try apply blocking_pop_cmd;
    try (apply (answer_post (fun r => lp_Cmd r = lq_Cmd req)); [done|intros e; by repeat case_match]).
  by intros [= <- _].
Qed.

Lemma via_raft_post {R} (Q : R -> Prop) q cmd rc fail (reply : _ -> R) direct s r s' :
  (forall msg, Q (fail msg)) -> (forall res, Q (reply res)) -> (forall c r c', direct c ⇓ (r, c') -> Q r) ->
  via_raft Quote q cmd rc fail reply direct s ⇓ (r, s') -> Q r.
Proof.
  intros Hf Hr Hd. assert (on_cache direct s ⇓ (r, s') -> Q r) as Hon.
  { unfold on_cache. destruct (direct (srv_cache s)) as [[x c]| |] eqn:Hx; cbn; try done. intros [= <- _]. eauto. }
  unfold via_raft. destruct (raftNode s); [|done]. case_match; [|done]. case_decide; [by intros [= <- _]|].
  destruct (raftPropose _ _ _) as [[[res|e] s1]| |]; cbn; try done; intros [= <- _]; auto.
Qed.

Lemma respond_cmd q j s r s' : respond q j s ⇓ (r, s') -> same_cmd j r.
Proof.
  destruct j as [req|req|req|req]; cbn [respond]; intros H.
  - destruct (process Quote q req s) as [[x s1]| |]; cbn in H; try done. by injection H as <- _.
  - destruct (via_raft _ _ _ _ _ _ _ s) as [[x s1]| |] eqn:Hv; cbn in H; try done. injection H as <- _.
    revert Hv. apply (via_raft_post (fun r => sr_Cmd r = sq_Cmd req)); [done| |intros c x' c'; apply process_set_cmd].
    intros res. unfold raftResultToSetResponse. by repeat case_match.
  - destruct (via_raft _ _ _ _ _ _ _ s) as [[x s1]| |] eqn:Hv; cbn in H; try done. injection H as <- _.
    revert Hv. apply (via_raft_post (fun r => hp_Cmd r = hq_Cmd req)); [done| |intros c x' c'; apply process_hash_cmd].
    intros res. unfold raftResultToHashResponse. by repeat case_match.
  - destruct (via_raft _ _ _ _ _ _ _ s) as [[x s1]| |] eqn:Hv; cbn in H; try done. injection H as <- _.
    revert Hv. apply (via_raft_post (fun r => lp_Cmd r = lq_Cmd req)); [done| |intros c x' c'; apply process_list_cmd].
    intros res. unfold raftResultToListResponse. by repeat case_match.
Qed.

Lemma processRequest_respond q j s :
  processRequest Quote q j s = '(r, s) ← respond q j s; mret (encode_reply (q_stale q) r, s).
Proof.
  pose proof (respond_cmd q j s) as Hc.
  destruct j as [req|req|req|req]; cbn [processRequest respond] in *; unfold processSet, processHash, processList;
    [by destruct (process Quote q req s) as [[x s1]| |]|..];
    destruct (via_raft _ _ _ _ _ _ _ _) as [[x s1]| |]; cbn in *; try done;
    specialize (Hc _ _ eq_refl); cbn in Hc; by rewrite Hc.
Qed.

(** ** Decoding at the server *)

Lemma prefixed_layout stale cmd raw : prefixed stale cmd raw = be 1 cmd ++ val raw.
Proof.
  unfold prefixed. pose proof (blits_all [be 1 cmd; val raw] (getBuf stale (1 + length (val raw)))) as H.
  cbn [blits concat] in H. rewrite length_be, app_nil_r in H. rewrite <-H; [done|].
  rewrite length_getBuf, length_app, length_be. lia.
Qed.

(** Requests that fit the wire, and the jobs the server makes of them. *)
Definition kv_command (cmd : Z) : Prop :=
  IsHashCmd cmd = false /\ IsListCmd cmd = false /\ (CmdSAdd <=? cmd) && (cmd <=? CmdSDiff) = false.

Definition wf_call {A} (c : call A) : Prop :=
  match c with
  | KvCall req _ => wf_request req /\ kv_command (Cmd req)
  | SetCall req _ => wf_set_request req
  | HashCall req _ => wf_hash_request req
  | ListCall req _ => wf_list_request req
  end.

Definition job_of {A} (c : call A) : job :=
  match c with
  | KvCall req _ => KvJob (mkRequest (Cmd req) (Key req) (norm_value (Value req)) (TTL req))
  | SetCall req _ => SetJob (norm_set_request req)
  | HashCall req _ => HashJob (norm_hash_request req)
  | ListCall req _ => ListJob (norm_list_request req)
  end.

Definition call_cmd {A} (c : call A) : Z :=
  match c with
  | KvCall req _ => Cmd req
  | SetCall req _ => sq_Cmd req
  | HashCall req _ => hq_Cmd req
  | ListCall req _ => lq_Cmd req
  end.

(** The first byte of a payload is the command. *)
Lemma request_first {A} (c : call A) stale bs :
  request_payload stale c = Some bs -> exists q, bs = be 1 (call_cmd c) ++ q.
Proof.
  destruct c as [req read|req read|req read|req read]; cbn [request_payload call_cmd].
  - intros [= <-]. rewrite EncodeRequest_layout. by eexists.
  - unfold EncodeSetRequest. intros H. repeat case_match; simplify_eq; rewrite <-?(assoc_L (++)); by eexists.
  - unfold EncodeHashRequest. intros H. repeat case_match; simplify_eq; rewrite <-?(assoc_L (++)); by eexists.
  - unfold EncodeListRequest. intros H. repeat case_match; simplify_eq; rewrite <-?(assoc_L (++)); by eexists.
Qed.

(** The commands of the four kinds do not overlap. *)
Lemma set_cmd_kind cmd : cmd ∈ set_cmds ->
  0 <= cmd < 256 /\ IsHashCmd cmd = false /\ IsListCmd cmd = false /\ (CmdSAdd <=? cmd) && (cmd <=? CmdSDiff) = true.
Proof.
  unfold set_cmds. rewrite !elem_of_cons. intros H.
  repeat (destruct H as [->|H]; [by vm_compute|]). by apply not_elem_of_nil in H.
Qed.

Lemma hash_cmd_kind cmd : cmd ∈ hash_cmds -> 0 <= cmd < 256 /\ IsHashCmd cmd = true.
Proof.
  unfold hash_cmds. rewrite !elem_of_cons. intros H.
  repeat (destruct H as [->|H]; [by vm_compute|]). by apply not_elem_of_nil in H.
Qed.

Lemma list_cmd_kind cmd : cmd ∈ list_cmds -> 0 <= cmd < 256 /\ IsHashCmd cmd = false /\ IsListCmd cmd = true.
Proof.
  unfold list_cmds. rewrite !elem_of_cons. intros H.
  repeat (destruct H as [->|H]; [by vm_compute|]). by apply not_elem_of_nil in H.
Qed.

Lemma call_cmd_byte {A} (c : call A) : wf_call c -> 0 <= call_cmd c < 256.
Proof.
  destruct c; cbn; [by intros [[? _] _]|intros []|intros []|intros []];
    [by apply set_cmd_kind|by apply hash_cmd_kind|by apply list_cmd_kind].
Qed.

Lemma decode_job_call {A} (c : call A) stale rest bs :
  wf_call c -> request_payload stale c = Some bs -> decode_job (payload bs rest) ⇓ (Ok (job_of c)).
Proof.
  intros Hwf Hbs. destruct (request_first c stale bs Hbs) as [q Hq]. unfold decode_job.
  destruct (status_here (call_cmd c) q rest (call_cmd_byte c Hwf)) as (b & Hb & Hcmd). rewrite <-Hq in Hb.
  rewrite Hb. cbn [mbind outcome_bind]. rewrite Hcmd.
  destruct c as [req read|req read|req read|req read]; cbn [wf_call request_payload call_cmd job_of] in *.
  - destruct Hwf as [Hwf (-> & -> & ->)]. injection Hbs as <-. by rewrite decode_request.
  - destruct (set_cmd_kind _ (wq_cmd _ Hwf)) as (_ & -> & -> & ->). by rewrite (set_request_decodes _ _ rest Hwf Hbs).
  - destruct (hash_cmd_kind _ (wh_cmd _ Hwf)) as (_ & ->). by rewrite (hash_request_decodes _ _ rest Hwf Hbs).
  - destruct (list_cmd_kind _ (wl_cmd _ Hwf)) as (_ & -> & ->). by rewrite (list_request_decodes _ _ rest Hwf Hbs).
Qed.

(** The server's pass over the frame of a call. *)
Lemma handle_call {A} (c : call A) q stale id flags bs s :
  wf_call c -> request_payload stale c = Some bs ->
  handle_frame Quote q (mkFrame id FrameTypeRequest flags (Some bs)) s =
    '(r, s) ← respond q (job_of c) (count_request s); mret (Some (encode_reply (q_stale q) r), s).
Proof.
  intros Hwf Hbs. unfold handle_frame. cbn [FType Payload]. rewrite Z.eqb_refl. cbn [negb].
  destruct (request_first c stale bs Hbs) as [x Hx]. pose proof (decode_job_call c stale (q_rest q) bs Hwf Hbs) as Hd.
  destruct bs as [|b p].
  { exfalso. apply (f_equal length) in Hx. rewrite length_app, length_be in Hx. cbn in Hx. lia. }
  change (val (Some (b :: p))) with (b :: p). cbv beta iota. rewrite Hd. cbn [mbind outcome_bind]. rewrite processRequest_respond.
  by destruct (respond q (job_of c) (count_request s)) as [[r s1]| |].
Qed.

(** ** Delivery at the client *)

(** Replies that fit the wire, and what arrives: the message of a set error is what
    its encoder writes after the status. *)
Definition wf_reply (r : reply) : Prop :=
  match r with
  | KvReply r => wf_response r /\ Status r <= StatusNotFound
  | SetReply r => sr_Cmd r ∈ set_cmds /\ (sr_Status r = StatusErr \/ wf_set_response r)
  | HashReply r => wf_hash_response r
  | ListReply r => wf_list_response r
  end.

Definition norm_set_reply (r : SetResponse) : SetResponse :=
  if sr_Status r =? StatusErr
  then mkSetResponse (sr_Cmd r) StatusErr 0 false 0 [] (string_of (drop 1 (val (EncodeSetResponse r))))
  else norm_set_response r.

Definition norm_reply (r : reply) : reply :=
  match r with
  | KvReply r => KvReply (mkResponse (Status r) (norm_value (RValue r)) (ErrMsg_ r))
  | SetReply r => SetReply (norm_set_reply r)
  | HashReply r => HashReply (norm_hash_response r)
  | ListReply r => ListReply (norm_list_response r)
  end.

Definition put_reply (id : Z) (r : reply) (cc : clientConn) : clientConn :=
  let '(mkConn n cl kv se ha li) := cc in
  match r with
  | KvReply r => mkConn n cl (send id r kv) se ha li
  | SetReply r => mkConn n cl kv (send id r se) ha li
  | HashReply r => mkConn n cl kv se (send id r ha) li
  | ListReply r => mkConn n cl kv se ha (send id r li)
  end.

Lemma set_error_decodes r bs st cmd :
  sr_Cmd r ∈ set_cmds -> sr_Status r = StatusErr -> EncodeSetResponse r = Some bs ->
  DecodeSetResponse (payload bs st) cmd ⇓ (Ok (mkSetResponse cmd StatusErr 0 false 0 [] (string_of (drop 1 bs)))).
Proof.
  intros Hcmd Hs He. assert (exists x, bs = be 1 StatusErr ++ x /\ x <> []) as (x & -> & Hx).
  { unfold EncodeSetResponse in He. rewrite Hs in He.
    repeat case_match; simplify_eq; eexists; (split; [done|]); intros Hn;
      apply (f_equal length) in Hn; unfold counted in Hn; rewrite ?length_app, ?length_be in Hn; cbn in Hn; lia. }
  unfold DecodeSetResponse. rewrite len_payload, length_app, length_be.
  assert (0 < length x)%nat as Hl by (destruct x; cbn; [done|lia]).
  rewrite (proj2 (Z.ltb_ge _ _)) by lia. destruct (status_here StatusErr x st) as (b & -> & Hb); [done|].
  cbn [mbind outcome_bind]. rewrite Hb, Z.eqb_refl, Z.gtb_ltb, (proj2 (Z.ltb_lt _ _)) by lia. cbn [andb].
  change (drop 1 (be 1 StatusErr ++ x)) with (drop (length (be 1 StatusErr)) (be 1 StatusErr ++ x)).
  rewrite drop_app_length. unfold payload. rewrite <-(assoc_L (++)).
  eapply bind_ret; [|done]. rewrite text_skip by (rewrite length_be; lia). apply text_here; rewrite length_be; lia.
Qed.

Lemma encode_set_some r : sr_Cmd r ∈ set_cmds -> exists bs, EncodeSetResponse r = Some bs.
Proof.
  intros Hc. pose proof (set_resp_cases _ Hc) as Hcase. unfold EncodeSetResponse.
  destruct Hcase as [H1|[H1 [H2|[H2 [H3|[H3 [H4|[H4 H5]]]]]]]]; rewrite ?H1, ?H2, ?H3, ?H4, ?H5; by eexists.
Qed.

Lemma encode_hash_some (r : @HashResponse float64) : hp_Cmd r ∈ hash_cmds -> exists bs, EncodeHashResponse r = Some bs.
Proof.
  unfold EncodeHashResponse. case_match; [by eexists|]. unfold hash_cmds. rewrite !elem_of_cons. intros Hc.
  repeat (destruct Hc as [->|Hc]; [by eexists|]). by apply not_elem_of_nil in Hc.
Qed.

Lemma encode_list_some r : lp_Cmd r ∈ list_cmds -> exists bs, EncodeListResponse r = Some bs.
Proof.
  unfold EncodeListResponse. case_match; [by eexists|]. unfold list_cmds. rewrite !elem_of_cons. intros Hc.
  repeat (destruct Hc as [->|Hc]; [by eexists|]). by apply not_elem_of_nil in Hc.
Qed.

(** A payload after the byte of its command. *)
Lemma be1_cons z : 0 <= z < 256 -> exists b, be 1 z = [b] /\ byte_val b = z.
Proof. intros Hz. exists (byte_of z). split; [done|]. rewrite byte_val_of. by apply Z.mod_small. Qed.

Lemma deliver_reply stale rest id r cc :
  wf_reply r -> deliver rest (response_frame id (encode_reply stale r)) cc ⇓ (put_reply id (norm_reply r) cc).
Proof.
  intros Hwf. destruct cc as [n cl kv se ha li]. unfold deliver, response_frame. cbn [FType StreamID Payload].
  rewrite Z.eqb_refl. cbn [negb]. destruct r as [r|r|r|r]; cbn [encode_reply wf_reply norm_reply put_reply] in *.
  - destruct Hwf as [Hwf Hst]. pose proof (decode_response stale rest r Hwf) as Hd.
    destruct (be1_cons (Status r)) as (b & Hb & Hbv); [apply Hwf|].
    assert (exists p, EncodeResponse stale r = b :: p) as [p Hp].
    { rewrite EncodeResponse_layout. unfold response_fields. cbn [concat]. rewrite Hb. by eexists. }
    rewrite Hp in *. change (val (Some (b :: p))) with (b :: p). cbv beta iota zeta. rewrite Hbv.
    destruct Hwf as ((Hs & _) & _). assert (Status r = 0 \/ Status r = 1 \/ Status r = 2) as Hcase by (unfold StatusNotFound in *; lia).
    assert (kv_command (Status r)) as (-> & -> & ->) by (destruct Hcase as [->|[->| ->]]; by vm_compute).
    by rewrite Hd.
  - destruct Hwf as [Hc Hwf]. destruct (encode_set_some r Hc) as [bs Hbs]. rewrite prefixed_layout, Hbs.
    destruct (set_cmd_kind _ Hc) as (Hr & H1 & H2 & H3). destruct (be1_cons _ Hr) as (b & -> & Hb).
    change (val (Some bs)) with bs. change (val (Some ([b] ++ bs))) with (b :: bs). cbv beta iota zeta. rewrite Hb, H1, H2, H3.
    unfold norm_set_reply. destruct (Z.eqb_spec (sr_Status r) StatusErr) as [He|He].
    + rewrite (set_error_decodes r bs rest _ Hc He Hbs). by rewrite Hbs.
    + destruct Hwf as [?|Hwf]; [done|]. by rewrite (set_response_decodes r bs rest Hwf Hbs).
  - destruct (encode_hash_some r (whp_cmd _ Hwf)) as [bs Hbs]. rewrite prefixed_layout, Hbs.
    destruct (hash_cmd_kind _ (whp_cmd _ Hwf)) as (Hr & H1). destruct (be1_cons _ Hr) as (b & -> & Hb).
    change (val (Some bs)) with bs. change (val (Some ([b] ++ bs))) with (b :: bs). cbv beta iota zeta. rewrite Hb, H1.
    by rewrite (hash_response_decodes r bs rest Hwf Hbs).
  - destruct (encode_list_some r (wlp_cmd _ Hwf)) as [bs Hbs]. rewrite prefixed_layout, Hbs.
    destruct (list_cmd_kind _ (wlp_cmd _ Hwf)) as (Hr & H1 & H2). destruct (be1_cons _ Hr) as (b & -> & Hb).
    change (val (Some bs)) with bs. change (val (Some ([b] ++ bs))) with (b :: bs). cbv beta iota zeta. rewrite Hb, H1, H2.
    by rewrite (list_response_decodes r bs rest Hwf Hbs).
Qed.

(** ** Channels *)

(** The channel of a call, whatever its kind. *)
Definition chan {A} (c : call A) (id : Z) (cc : clientConn) : option (option reply) :=
  match c with
  | KvCall _ _ => option_map KvReply <$> pendingMap cc !! id
  | SetCall _ _ => option_map SetReply <$> pendingSetMap cc !! id
  | HashCall _ _ => option_map HashReply <$> pendingHashMap cc !! id
  | ListCall _ _ => option_map ListReply <$> pendingListMap cc !! id
  end.

(** A reply of the kind a call expects, and what the call makes of it. *)
Definition same_kind {A} (c : call A) (r : reply) : Prop :=
  match c, r with
  | KvCall _ _, KvReply _ | SetCall _ _, SetReply _ | HashCall _ _, HashReply _ | ListCall _ _, ListReply _ => True
  | _, _ => False
  end.

Definition read_reply {A} (c : call A) (r : reply) : result error A :=
  match c, r with
  | KvCall _ read, KvReply r => read r
  | SetCall _ read, SetReply r => read r
  | HashCall _ read, HashReply r => read r
  | ListCall _ read, ListReply r => read r
  | _, _ => Err ErrReadTimeout
  end.

Lemma received_chan {A} (c : call A) id cc r :
  chan c id cc = Some (Some r) -> received c id cc = read_reply c r.
Proof.
  destruct c; cbn; (destruct (_ !! id) as [[x|]|]; cbn; by intros [= <-]).
Qed.

Lemma chan_store {A B} (c : call A) (c' : call B) id id' cc :
  chan c id (store c' id' cc) = if decide (id = id') then match c, c' with
    | KvCall _ _, KvCall _ _ | SetCall _ _, SetCall _ _ | HashCall _ _, HashCall _ _ | ListCall _ _, ListCall _ _ => Some None
    | _, _ => chan c id cc end else chan c id cc.
Proof.
  destruct cc, c, c'; cbn; rewrite ?lookup_insert; repeat case_decide; subst; try done.
Qed.

Lemma chan_put_same {A} (c : call A) id r cc :
  same_kind c r -> chan c id cc = Some None -> chan c id (put_reply id r cc) = Some (Some r).
Proof.
  destruct cc, c, r; cbn; try done; intros _; unfold send; (destruct (_ !! id) as [[x|]|] eqn:Hx; cbn; try done);
    intros _; by rewrite lookup_insert_eq.
Qed.

Lemma chan_put_other {A} (c : call A) id id' r cc : id <> id' -> chan c id (put_reply id' r cc) = chan c id cc.
Proof.
  intros Hne. destruct cc, c, r; cbn; try done; unfold send; repeat case_match; try done; by rewrite lookup_insert_ne.
Qed.

Lemma respond_kind {A} (c : call A) r : same_cmd (job_of c) r -> same_kind c (norm_reply r).
Proof. by destruct c, r. Qed.

(** ** Calls in flight *)

(** A call with the buffers it meets on its way and what its request takes from outside. *)
Record flight : Type := mkFlight {
  fl_type : Type;
  fl_call : call fl_type;
  fl_env : request_env;
  fl_pools : bytes * bytes * bytes;
  fl_rest : bytes;
}.

(** The client writes the requests one after the other. *)
Fixpoint start (fs : list flight) (cc : clientConn) : result error (list Z * bytes) * clientConn :=
  match fs with
  | [] => (Ok ([], []), cc)
  | f :: fs =>
      match begin_call (fl_pools f).1.1 (fl_pools f).1.2 None (fl_call f) cc with
      | (Err e, cc) => (Err e, cc)
      | (Ok (id, bs), cc) =>
          match start fs cc with
          | (Err e, cc) => (Err e, cc)
          | (Ok (ids, rest), cc) => (Ok (id :: ids, bs ++ rest), cc)
          end
      end
  end.

(** The handlers, called with the decoded requests in this order. *)
Fixpoint serve (fs : list flight) (s : Server) : outcome (list reply * Server) :=
  match fs with
  | [] => Ret ([], s)
  | f :: fs =>
      '(r, s) ← respond (fl_env f) (job_of (fl_call f)) (count_request s);
      '(rs, s) ← serve fs s;
      mret (r :: rs, s)
  end.

(** The stream of the answers. *)
Definition answers (fs : list flight) (frames : list Frame) : bytes :=
  concat (zip_with (fun f frame => Encode (fl_pools f).2 frame) fs frames).

(** A payload that fits a frame. *)
Definition fits_frame (bs : bytes) : Prop := Z.of_nat (length bs) <= MaxPayloadSize.

Definition wf_flight (f : flight) : Prop :=
  wf_call (fl_call f) /\ exists bs, request_payload (fl_pools f).1.1 (fl_call f) = Some bs /\ fits_frame bs.

Definition wf_answer (f : flight) (r : reply) : Prop :=
  wf_reply r /\ fits_frame (encode_reply (q_stale (fl_env f)) r).

Definition request_frame (f : flight) (id : Z) : Frame :=
  mkFrame id FrameTypeRequest 0 (request_payload (fl_pools f).1.1 (fl_call f)).

Lemma start_ok fs cc :
  cc_closed cc = false -> 0 <= nextStreamID cc < 2 ^ 32 -> Z.of_nat (length fs) <= streams -> Forall wf_flight fs ->
  let ids := stream_ids (length fs) (nextStreamID cc) in
  exists cc1,
    start fs cc = (Ok (ids, concat (zip_with (fun f id => Encode (fl_pools f).1.2 (request_frame f id)) fs ids)), cc1) /\
    (forall A (c : call A) id, id ∉ ids -> chan c id cc1 = chan c id cc) /\
    forall i f id, fs !! i = Some f -> ids !! i = Some id -> chan (fl_call f) id cc1 = Some None.
Proof.
  intros Hcl Hn Hlen Hwf. pose proof (NoDup_stream_ids _ _ Hn Hlen) as HND. clear Hlen. revert cc Hcl Hn HND.
  induction fs as [|f fs IH]; intros cc Hcl Hn HND ids; [by exists cc|]. unfold ids. clear ids.
  apply Forall_cons in Hwf as [(_ & bs & Hbs & _) Hwf]. cbn [length stream_ids] in *. apply NoDup_cons in HND as [Hid HND].
  set (id := next_stream (nextStreamID cc)) in *. cbn [start]. unfold begin_call. rewrite Hcl. fold id. rewrite Hbs.
  set (cc0 := store _ id _). assert (nextStreamID cc0 = id /\ cc_closed cc0 = false) as [Hn0 Hcl0].
  { unfold cc0. destruct (fl_call f); cbn; auto. }
  destruct (IH Hwf cc0) as (cc1 & -> & Hother & Hmine); [done|rewrite Hn0; pose proof (next_stream_range _ Hn); lia|by rewrite Hn0|].
  rewrite Hn0 in *. exists cc1. split_and!.
  - cbn [zip_with concat]. by rewrite <-Hbs.
  - intros A c i [Hi1 Hi2]%not_elem_of_cons. rewrite Hother by done. unfold cc0. rewrite chan_store, decide_False by done.
    by destruct c.
  - intros [|i] f' id'; cbn; [|apply Hmine]. intros [= <-] [= <-]. rewrite Hother by done. unfold cc0.
    rewrite chan_store, decide_True by done. by destruct (fl_call f).
Qed.

(** The frames of the answers. *)
Fixpoint reply_frames (fs : list flight) (ids : list Z) (rs : list reply) : list Frame :=
  match fs, ids, rs with
  | f :: fs, id :: ids, r :: rs => response_frame id (encode_reply (q_stale (fl_env f)) r) :: reply_frames fs ids rs
  | _, _, _ => []
  end.

Lemma norm_payload bs : bs <> [] -> norm_value (Some bs) = Some bs.
Proof. by destruct bs. Qed.

Lemma request_nonempty {A} (c : call A) stale bs : request_payload stale c = Some bs -> bs <> [].
Proof.
  intros (x & ->)%request_first Hn. apply (f_equal length) in Hn. rewrite length_app, length_be in Hn. cbn in Hn. lia.
Qed.

Lemma handle_conn_calls fs ids s rs s' :
  length ids = length fs -> Forall wf_flight fs -> Forall (fun id => 0 <= id < 2 ^ 32) ids -> serve fs s ⇓ (rs, s') ->
  handle_conn Quote (fl_env <$> fs) (concat (zip_with (fun f id => Encode (fl_pools f).1.2 (request_frame f id)) fs ids)) s
    ⇓ (reply_frames fs ids rs, s').
Proof.
  revert ids s rs. induction fs as [|f fs IH]; intros ids s rs Hl Hwf Hids Hs; [by injection Hs as <- <-|].
  destruct ids as [|id ids]; [done|]. apply Forall_cons in Hwf as [(Hc & bs & Hbs & Hfit) Hwf].
  apply Forall_cons in Hids as [Hid Hids]. rewrite fmap_cons. cbn [handle_conn zip_with concat].
  assert (wf_frame (request_frame f id)) as Hframe.
  { unfold request_frame. rewrite Hbs. repeat split; cbn; try lia; done. }
  rewrite decode_frame by done. cbv beta iota zeta.
  assert (norm_frame (request_frame f id) = mkFrame id FrameTypeRequest 0 (Some bs)) as ->.
  { unfold norm_frame, request_frame. cbn [StreamID FType Flags Payload]. rewrite Hbs, norm_payload; [done|].
    by eapply request_nonempty. }
  rewrite (handle_call (fl_call f) _ (fl_pools f).1.1) by done. cbn [serve] in Hs.
  destruct (respond _ _ _) as [[r s1]| |]; cbn [mbind outcome_bind] in *; try done.
  destruct (serve fs s1) as [[rs1 s2]| |] eqn:Hs1; cbn in Hs; try done.
  injection Hs as <- <-. injection Hl as Hl.
  eapply bind_ret; [done|]. cbv beta iota. eapply bind_ret; [by apply IH|done].
Qed.

Lemma serve_cmds fs s rs s' : serve fs s ⇓ (rs, s') -> Forall2 (fun f r => same_cmd (job_of (fl_call f)) r) fs rs.
Proof.
  revert s rs. induction fs as [|f fs IH]; intros s rs; cbn; [by intros [= <- _]|].
  destruct (respond _ _ _) as [[r s1]| |] eqn:Hr; cbn; try done.
  destruct (serve fs s1) as [[rs1 s2]| |] eqn:Hs1; cbn; try done. intros [= <- <-].
  constructor; [by eapply respond_cmd|by eapply IH].
Qed.

(** The client after it has read the answers. *)
Fixpoint put_all (ids : list Z) (rs : list reply) (cc : clientConn) : clientConn :=
  match ids, rs with
  | id :: ids, r :: rs => put_all ids rs (put_reply id (norm_reply r) cc)
  | _, _ => cc
  end.

Lemma encode_reply_nonempty stale r : encode_reply stale r <> [].
Proof.
  destruct r; cbn [encode_reply]; rewrite ?prefixed_layout, ?EncodeResponse_layout; unfold response_fields; cbn [concat];
    intros Hn; apply (f_equal length) in Hn; rewrite length_app, length_be in Hn; cbn in Hn; lia.
Qed.

Lemma readLoop_answers text fs ids rs cc :
  length ids = length fs -> Forall (fun id => 0 <= id < 2 ^ 32) ids -> Forall2 wf_answer fs rs ->
  readLoop text (fl_rest <$> fs) (answers fs (reply_frames fs ids rs)) cc ⇓ (put_all ids rs cc).
Proof.
  intros Hl Hids Hw. revert ids cc Hl Hids. induction Hw as [|f r fs rs [Hr Hfit] _ IH]; intros [|id ids] cc Hl Hids; try done.
  apply Forall_cons in Hids as [Hid Hids]. unfold answers. cbn [fmap list_fmap readLoop reply_frames zip_with concat put_all].
  assert (wf_frame (response_frame id (encode_reply (q_stale (fl_env f)) r))) as Hframe by (repeat split; cbn; try lia; done).
  rewrite decode_frame by done. cbv beta iota.
  assert (norm_frame (response_frame id (encode_reply (q_stale (fl_env f)) r)) =
    response_frame id (encode_reply (q_stale (fl_env f)) r)) as ->.
  { unfold norm_frame, response_frame. cbn [StreamID FType Flags Payload].
    by rewrite norm_payload by apply encode_reply_nonempty. }
  rewrite deliver_reply by done. apply IH; [by injection Hl|done].
Qed.

Lemma chan_put_all_other {A} (c : call A) id ids rs cc : id ∉ ids -> chan c id (put_all ids rs cc) = chan c id cc.
Proof.
  revert rs cc. induction ids as [|i ids IH]; intros [|r rs] cc Hi; try done. apply not_elem_of_cons in Hi as [H1 H2].
  cbn [put_all]. rewrite IH by done. by apply chan_put_other.
Qed.

Lemma chan_put_all fs ids rs cc :
  NoDup ids -> Forall2 (fun f r => same_cmd (job_of (fl_call f)) r) fs rs ->
  (forall i f id, fs !! i = Some f -> ids !! i = Some id -> chan (fl_call f) id cc = Some None) ->
  forall i f id r, fs !! i = Some f -> ids !! i = Some id -> rs !! i = Some r ->
    chan (fl_call f) id (put_all ids rs cc) = Some (Some (norm_reply r)).
Proof.
  intros HND H2. revert ids cc HND. induction H2 as [|f r fs rs Hc _ IH]; intros ids cc HND Hwait i f' id r' Hf Hid Hr; [done|].
  destruct ids as [|id0 ids]; [done|]. apply NoDup_cons in HND as [Hni HND]. cbn [put_all].
  destruct i as [|i]; cbn in Hf, Hid, Hr; simplify_eq.
  - rewrite chan_put_all_other by done. apply chan_put_same; [by apply respond_kind|]. by apply (Hwait 0%nat f' id).
  - eapply IH; eauto. intros j fj idj Hfj Hidj. rewrite chan_put_other; [by apply (Hwait (S j) fj idj)|].
    intros ->. apply Hni. by eapply list_elem_of_lookup_2.
Qed.

(** Calls in flight on one connection.  A client writes any number of
    requests, of any kinds, to a connection before it reads; the server handles the
    stream; the client reads the answers.  Then every call returns what it makes of
    the reply its own request got, and the replies and the server are those of
    calling the handlers with the requests, one after the other. *)
Lemma multiplexed_calls text fs cc s rs s' :
  cc_closed cc = false -> 0 <= nextStreamID cc < 2 ^ 32 -> Z.of_nat (length fs) <= streams -> Forall wf_flight fs ->
  serve fs s ⇓ (rs, s') -> Forall2 wf_answer fs rs ->
  exists ids bs cc1 frames cc2,
    length ids = length fs /\ start fs cc = (Ok (ids, bs), cc1) /\
    handle_conn Quote (fl_env <$> fs) bs s ⇓ (frames, s') /\
    readLoop text (fl_rest <$> fs) (answers fs frames) cc1 ⇓ cc2 /\
    forall i f id r, fs !! i = Some f -> ids !! i = Some id -> rs !! i = Some r ->
      received (fl_call f) id cc2 = read_reply (fl_call f) (norm_reply r).
Proof.
  intros Hcl Hn Hlen Hwf Hs Hans. destruct (start_ok fs cc Hcl Hn Hlen Hwf) as (cc1 & Hstart & _ & Hwait).
  set (ids := stream_ids (length fs) (nextStreamID cc)) in *.
  assert (length ids = length fs) as Hl by apply length_stream_ids.
  assert (Forall (fun id => 0 <= id < 2 ^ 32) ids) as Hids.
  { apply Forall_lookup. intros i id Hi. pose proof (lookup_lt_Some _ _ _ Hi). unfold ids in *.
    rewrite stream_ids_lookup in Hi by lia. injection Hi as <-. pose proof (Z.mod_pos_bound (nextStreamID cc + Z.of_nat i) streams).
    unfold streams in *. lia. }
  eexists ids, _, cc1, (reply_frames fs ids rs), (put_all ids rs cc1). split_and!.
  - exact Hl.
  - exact Hstart.
  - by apply handle_conn_calls.
  - by apply readLoop_answers.
  - intros i f id r Hf Hid Hr. apply received_chan. eapply chan_put_all; eauto using NoDup_stream_ids, serve_cmds.
Qed.

End Network.
