(* ===== verification/Remote.v ===== *)
(** * A remote cache is the cache

    What a client's method returns, with the request encoded, handled by a server
    without Raft, and the reply encoded and read: the result of the operation on the
    server's cache, up to what the wire does to errors and to empty values. *)

From Stdlib Require Import Strings.Byte Strings.String.
From stdpp Require Import base tactics numbers list gmap sets fin_maps strings.
From S2P Require Import Prelude.
From S2P Require Import Policy.
From S2P Require Import Policies.
From S2P Require Import DHash.
From S2P Require Import Bytes.
From S2P Require Import Wire.
From S2P Require Import WireSet.
From S2P Require Import WireExt.
From S2P Require Import WireExtSpec.
From S2P Require Import Shard.
From S2P Require Import ShardTyped.
From S2P Require Import Rehash.
From S2P Require Import Cache.
From S2P Require Import CacheSpec.
From S2P Require Import CacheExt.
From S2P Require Import CacheExtSpec.
From S2P Require Import RaftCmd.
From S2P Require Import Server.
From S2P Require Import Client.
From S2P Require Import Network.

Open Scope Z_scope.

#[local] Opaque be.

Section Remote.
Context `{MI : MapIter} `{EP : EvictionPolicy P} `{FO : FloatOps float64} `{FB : FloatBits float64} `{FL : !FloatBitsLaws float64} `{JS : Json float64}.
Variable Quote : string -> string.
Notation Cache := (Cache P).
Notation Server := (Server P float64).
Notation request_env := (@request_env P).
Notation call := (call float64).
Notation Error := (Error Quote).

(** ** The client's methods as operations of the cache *)

(** A call whose result is changed by [f]. *)
Definition map_call {A B} (f : A -> B) (c : call A) : call B :=
  let g r := match r with Ok a => Ok (f a) | Err e => Err e end in
  match c with
  | KvCall req read => KvCall req (fun r => g (read r))
  | SetCall req read => SetCall req (fun r => g (read r))
  | HashCall req read => HashCall req (fun r => g (read r))
  | ListCall req read => ListCall req (fun r => g (read r))
  end.

(** The method for each operation on collections.  A slice from the wire is never nil;
    nor is a map. *)
Definition call_of {A} (o : ext_op A) : call A :=
  match o in ext_op A return call A with
  | XSAdd key elems => sAdd key elems
  | XSRem key elems => sRem key elems
  | XSIsMember key elem => sIsMember key elem
  | XSMembers key => map_call Some (sMembers key)
  | XSCard key => sCard key
  | XSPop _ key => sPop key
  | XSRandMember _ _ key count => map_call Some (sRandMember key count)
  | XSUnion keys => map_call Some (sUnion keys)
  | XSInter keys => map_call Some (sInter keys)
  | XSDiff keys => map_call Some (sDiff keys)
  | XHSet key field value => hSet key field value
  | XHSetNX key field value => hSetNX key field value
  | XHGet key field => hGet key field
  | XHDel key fields => hDel key fields
  | XHExists key field => hExists key field
  | XHGetAll key => map_call (default ∅) (hGetAll key)
  | XHKeys key => hKeys key
  | XHVals key => hVals key
  | XHLen key => hLen key
  | XHStrLen key field => hStrLen key field
  | XHIncrBy key field delta => hIncrBy key field delta
  | XHMGet key fields => hmGet key fields
  | XHMSet key fvPairs => hmSet key fvPairs
  | XLPush key elems => lPush key elems
  | XRPush key elems => rPush key elems
  | XLPop key => lPop key
  | XRPop key => rPop key
  | XLLen key => lLen key
  | XLRange key start stop => lRange key start stop
  | XLIndex key index => lIndex key index
  | XLSet key index value => lSet key index value
  | XLRem key count value => lRem key count value
  | XLTrim key start stop => lTrim key start stop
  | XLInsert key before pivot value => lInsert key before pivot value
  | XLPos key value rank count maxLen => lPos key value rank count maxLen
  end.

(** ** What the client sees of a result *)

(** How an operation treats an error: sets lose the message and keep as many zero
    bytes as their encoder writes, some methods know a missing key. *)
Inductive error_style : Type := Garbled (zeros : nat) | GarbledFound (zeros : nat) | Plain | Found | Unknown.

Definition style_of {A} (o : ext_op A) : error_style :=
  match o with
  | XSAdd _ _ | XSRem _ _ | XSCard _ => Garbled 8
  | XSIsMember _ _ => Garbled 1
  | XSPop _ _ => GarbledFound 2
  | XSMembers _ | XSRandMember _ _ _ _ | XSUnion _ | XSInter _ | XSDiff _ => Garbled 4
  | XHGet _ _ | XHGetAll _ | XLPop _ | XRPop _ | XLIndex _ _ | XLSet _ _ _ => Found
  | XHKeys _ | XHVals _ | XLRange _ _ _ => Unknown
  | _ => Plain
  end.

Definition zeros (n : nat) : error := ErrMsg (string_of (replicate n x00)).

(** A missing key is an error without a message in the methods that do not know it. *)
Definition seen_error (st : error_style) (e : error) : error :=
  match st with
  | Garbled n => zeros n
  | GarbledFound n => if not_found e then ErrKeyNotFound else zeros n
  | Plain => ErrMsg (Error e)
  | Found => if not_found e then ErrKeyNotFound else ErrMsg (Error e)
  | Unknown => if not_found e then ErrMsg EmptyString else ErrMsg (Error e)
  end.

(** A nil slice arrives as an empty one. *)
Definition seen_value {A} (o : ext_op A) : A -> A :=
  match o in ext_op A return A -> A with
  | XSMembers _ | XSRandMember _ _ _ _ | XSUnion _ | XSInter _ | XSDiff _ => fun l => Some (default [] l)
  | _ => fun a => a
  end.

Definition seen {A} (o : ext_op A) (r : result error A) : result error A :=
  match r with Ok a => Ok (seen_value o a) | Err e => Err (seen_error (style_of o) e) end.

(** Results that fit the wire. *)
Definition fit_strings (l : list string) : Prop := Forall (fits 2) l /\ Z.of_nat (length l) < 2 ^ 32.

Definition fits_value {A} (o : ext_op A) : A -> Prop :=
  match o in ext_op A return A -> Prop with
  | XSAdd _ _ | XSRem _ _ | XSCard _ | XHSet _ _ _ | XHDel _ _ | XHLen _ | XHStrLen _ _ | XHIncrBy _ _ _
  | XLPush _ _ | XRPush _ _ | XLLen _ | XLRem _ _ _ | XLInsert _ _ _ _ => in_int64
  | XSMembers _ | XSRandMember _ _ _ _ | XSUnion _ | XSInter _ | XSDiff _ => fun l =>
      fit_strings (default [] l) /\ slen (default EmptyString (default [] l !! 0%nat)) + 3 < 2 ^ 16
  | XSPop _ _ => fun x => slen x + 3 < 2 ^ 16
  | XHGet _ _ | XLPop _ | XRPop _ | XLIndex _ _ => fits 4
  | XHGetAll _ => fun m => Forall pair_fits (map_iter m) /\ Z.of_nat (size m) < 2 ^ 32
  | XHKeys _ | XHVals _ | XLRange _ _ _ => fit_strings
  | XHMGet _ _ => fun l => Forall any_fits l /\ Z.of_nat (length l) < 2 ^ 32
  | XLPos _ _ _ _ _ => fun l => Forall in_int64 l /\ Z.of_nat (length l) < 2 ^ 32
  | XSIsMember _ _ | XHSetNX _ _ _ | XHExists _ _ | XHMSet _ _ | XLSet _ _ _ | XLTrim _ _ _ => fun _ => True
  end.

Definition fits_result {A} (o : ext_op A) (r : result error A) : Prop :=
  match r with Ok a => fits_value o a | Err e => fits 2 (Error e) end.

(** The random choices of the operation are those of the request; a count is sent in 32 bits. *)
Definition same_draws {A} (q : request_env) (o : ext_op A) : Prop :=
  match o with
  | XSPop rnd _ => e_rnd (q_env q) = rnd
  | XSRandMember perm draw _ count => e_perm (q_env q) = perm /\ e_draw (q_env q) = draw /\ - 2 ^ 31 <= count < 2 ^ 31
  | _ => True
  end.

(** ** The server's side *)

(** The job of a call whose request has no field the command does not use. *)
Definition plain_job {A} (c : call A) : @job float64 :=
  match c with
  | KvCall req _ => KvJob req
  | SetCall req _ => SetJob req
  | HashCall req _ => HashJob req
  | ListCall req _ => ListJob req
  end.

Lemma job_call_of {A} (o : ext_op A) :
  job_of (call_of o) =
  match o with
  | XHMSet key pairs => HashJob (hash_req CmdHMSet key EmptyString EmptyString [] (even_part pairs))
  | _ => plain_job (call_of o)
  end.
Proof. destruct o; reflexivity. Qed.

(** An unpaired last element is ignored by the hash itself as well. *)
Lemma HMSet_even pairs h : DHash.HMSet (even_part pairs) h = DHash.HMSet pairs h.
Proof.
  assert (forall n pairs h, (length pairs <= n)%nat -> DHash.HMSet (even_part pairs) h = DHash.HMSet pairs h) as Hn.
  { induction n as [|n IH]; intros l h' Hl; [by destruct l; [|cbn in Hl; lia]|].
    destruct l as [|f [|v l]]; [done|done|]. cbn in Hl.
    assert (even_part (f :: v :: l) = f :: v :: even_part l) as ->.
    { unfold even_part. change (length (f :: v :: l)) with (2 + length l)%nat.
      replace ((2 + length l) / 2)%nat with (S (length l / 2)).
      - by replace (2 * S (length l / 2))%nat with (S (S (2 * (length l / 2)))) by lia.
      - replace (2 + length l)%nat with (length l + 1 * 2)%nat by lia. rewrite Nat.div_add by lia. lia. }
    cbn. apply IH. lia. }
  by eapply Hn.
Qed.

Lemma HMSet_call_even key pairs (c : Cache) : HMSet key (even_part pairs) c = HMSet key pairs c.
Proof.
  unfold HMSet, call_shard, try_shard, checked, on_shard. destruct (validateOpen c); [done|]. case_decide; [done|].
  destruct (getShard c key) as [sh| |]; [|done..]. cbn [mbind outcome_bind]. unfold ShardTyped.hmSet, in_hash. by rewrite HMSet_even.
Qed.

(** Decides the switch over literal commands. *)
Ltac switch :=
  repeat match goal with
  | |- context [?a =? ?b] =>
      let v := eval vm_compute in (a =? b) in
      lazymatch v with true => change (a =? b) with true | false => change (a =? b) with false end
  end; cbv beta iota.

Lemma int64_wrap z : in_int64 z -> int64 (wrapU 64 z) = z.
Proof.
  intros Hz. rewrite <-(int64_id z Hz) at 2. unfold int64, wrapS, wrapU. by rewrite Z.add_mod_idemp_l by lia.
Qed.

Lemma wrapS32_small z : - 2 ^ 31 <= z < 2 ^ 31 -> wrapS 32 z = z.
Proof. intros Hz. unfold wrapS. change (32 - 1) with 31. rewrite Z.mod_small by lia. lia. Qed.

Lemma respond_set (q : request_env) req (s : Server) resp c :
  raftNode s = None -> process_set Quote q req (srv_cache s) ⇓ (resp, c) ->
  respond Quote q (SetJob req) s ⇓ (SetReply resp, with_cache c s).
Proof. intros Hr Hp. cbn [respond]. unfold via_raft, on_cache. by rewrite Hr, Hp. Qed.

Lemma respond_hash (q : request_env) req (s : Server) resp c :
  raftNode s = None -> process_hash Quote req (srv_cache s) ⇓ (resp, c) ->
  respond Quote q (HashJob req) s ⇓ (HashReply resp, with_cache c s).
Proof. intros Hr Hp. cbn [respond]. unfold via_raft, on_cache. by rewrite Hr, Hp. Qed.

Lemma respond_list (q : request_env) req (s : Server) resp c :
  raftNode s = None -> process_list Quote q req (srv_cache s) ⇓ (resp, c) ->
  respond Quote q (ListJob req) s ⇓ (ListReply resp, with_cache c s).
Proof. intros Hr Hp. cbn [respond]. unfold via_raft, on_cache. by rewrite Hr, Hp. Qed.

(** Runs the handler's branch for the command of the operation. *)
Ltac branch lem Hraft Hstep :=
  eexists; split;
  [ apply lem; [exact Hraft|];
    unfold process_set, process_hash, process_list, plain_job; cbn -[Z.eqb]; switch; unfold answer; rewrite ?Hstep; reflexivity
  | ].

(** *** What comes back *)

Create HintDb remote.

Lemma wrap64_range z : 0 <= wrapU 64 z < 2 ^ 64.
Proof. by apply wrapU_range. Qed.

Lemma fits_empty n : fits n EmptyString.
Proof. unfold fits, slen. cbn. lia. Qed.

Lemma fit_nil : fit_strings [].
Proof. by split. Qed.

Lemma in_int64_0 : in_int64 0.
Proof. by split. Qed.

Ltac known := apply (bool_decide_unpack _); vm_compute; exact I.

#[local] Hint Resolve wrap64_range fits_empty fit_nil in_int64_0 Forall_nil_2 : remote.
#[local] Hint Extern 1 (_ ∈ _) => known : remote.
#[local] Hint Extern 1 (_ < _) => reflexivity : remote.
#[local] Hint Extern 1 (_ <= _ < _) => by split : remote.

Lemma set_ok_wf cmd changed member card elems :
  cmd ∈ set_cmds -> 0 <= changed < 2 ^ 64 -> 0 <= card < 2 ^ 64 -> fit_strings elems ->
  slen (default EmptyString (elems !! 0%nat)) + 3 < 2 ^ 16 ->
  wf_reply (SetReply (set_resp cmd StatusOK changed member card elems EmptyString) : @reply float64).
Proof. intros Hc ? ? [? ?] ?. split; [done|]. right. by split. Qed.

Lemma set_fail_wf cmd msg : cmd ∈ set_cmds -> wf_reply (SetReply (set_fail cmd msg) : @reply float64).
Proof. split; [done|by left]. Qed.

Lemma set_missing_wf cmd : cmd ∈ set_cmds -> wf_reply (SetReply (set_missing cmd) : @reply float64).
Proof. split; [done|right]. split; cbn; auto with remote. Qed.

Lemma hash_wf cmd status i b str m sl any f msg :
  cmd ∈ hash_cmds -> 0 <= status < 256 -> in_int64 i -> fits 4 str ->
  Forall pair_fits (map_iter (default ∅ m)) -> Z.of_nat (size (default ∅ m)) < 2 ^ 32 ->
  fit_strings sl -> Forall any_fits any -> Z.of_nat (length any) < 2 ^ 32 -> fits 2 msg ->
  wf_reply (HashReply (hash_resp cmd status i b str m sl any f msg) : @reply float64).
Proof. intros ? ? ? ? ? ? [? ?] ? ? ?. by split. Qed.

Lemma list_wf cmd status i b str sl ps msg :
  cmd ∈ list_cmds -> 0 <= status < 256 -> in_int64 i -> fits 4 str -> fit_strings sl ->
  Forall in_int64 ps -> Z.of_nat (length ps) < 2 ^ 32 -> fits 2 msg ->
  wf_reply (ListReply (list_resp cmd status i b str sl ps msg) : @reply float64).
Proof. intros ? ? ? ? [? ?] ? ? ?. by split. Qed.

Lemma no_pairs : Forall pair_fits (map_iter (∅ : gmap string string)).
Proof. 
  assert (map_iter (∅ : gmap string string) = []) as ->; [|done].
  apply length_zero_iff_nil. rewrite length_map_iter. apply map_size_empty.
Qed.

#[local] Hint Resolve set_ok_wf set_fail_wf set_missing_wf hash_wf list_wf no_pairs : remote.

(** The reply of a branch fits the wire, and what is read of it. *)
Ltac fits_wire :=
  unfold list_done, hash_done, set_changed, set_elems, hash_fail, hash_missing, hash_int, hash_bool, hash_slice,
    hash_float, list_fail, list_missing, list_int, list_str, list_true;
  destruct_and?; auto 6 with remote.

Ltac reads_back Hf :=
  first
  [ reflexivity
  | etransitivity; [|apply (f_equal Ok), (int64_wrap _ Hf)]; reflexivity
  | etransitivity; [|apply (f_equal Ok), (int64_id _ Hf)]; reflexivity ].

Ltac back := intros Hf; cbn [fits_result fits_value] in Hf; split; [fits_wire | reads_back Hf].

Lemma fit_one x : slen x + 3 < 2 ^ 16 -> fit_strings [x].
Proof. intros H. split; [|by cbn]. constructor; [|done]. unfold fits. cbn. lia. Qed.
#[local] Hint Resolve fit_one : remote.

(** An operation: its branch, then its two results. *)
Ltac found_or_not :=
  lazymatch goal with |- context [if not_found ?e then _ else _] => destruct (not_found e) | _ => idtac end.

Ltac both_results r :=
  destruct r as [x|e];
  [ lazymatch type of x with unit => destruct x | _ => idtac end; back
  | cbn [seen style_of seen_error]; found_or_not; back ].

Lemma remote_step {A} (o : ext_op A) (q : request_env) (s : Server) r c' :
  raftNode s = None -> same_draws q o -> ext_step o (srv_cache s) ⇓ (r, c') ->
  exists rep, respond Quote q (job_of (call_of o)) s ⇓ (rep, with_cache c' s) /\
    (fits_result o r -> wf_reply rep /\ read_reply (call_of o) (norm_reply rep) = seen o r).
Proof.
  intros Hraft Hd Hstep. rewrite job_call_of. destruct o; cbn [ext_step] in Hstep;
    try (branch respond_set Hraft Hstep; both_results r; fail);
    try (branch respond_hash Hraft Hstep; both_results r; fail);
    try (branch respond_list Hraft Hstep; both_results r; fail).
  - cbn in Hd. subst. branch respond_set Hraft Hstep. destruct r as [x|e]; [|cbn [seen style_of seen_error]; found_or_not; back].
    intros Hf; cbn [fits_result fits_value] in Hf. split; [fits_wire|]. destruct (decide (x = "")) as [->|Hx]; [reflexivity|].
    transitivity (Ok (A := string) (E := error) (default "" ((if decide (x = "") then [] else [x]) !! 0%nat))); [reflexivity|].
    by rewrite decide_False.
  - destruct Hd as (<- & <- & Hc). cbn [call_of map_call plain_job sRandMember]. rewrite (wrapS32_small _ Hc).
    branch respond_set Hraft Hstep. both_results r.
  - injection Hstep as <- <-. branch respond_set Hraft Hraft. both_results (SUnion keys (srv_cache s)).
  - injection Hstep as <- <-. branch respond_set Hraft Hraft. both_results (SInter keys (srv_cache s)).
  - injection Hstep as <- <-. branch respond_set Hraft Hraft. both_results (SDiff keys (srv_cache s)).
  - rewrite <-HMSet_call_even in Hstep. generalize dependent (even_part fvPairs). intros pairs Hstep. branch respond_hash Hraft Hstep. both_results r.
Qed.

(** ** Strings and keys *)

Inductive kv_op : Type -> Type :=
| KGet (key : string) : kv_op (option bytes)
| KSet (key : string) (value : option bytes) (ttl : Z) : kv_op unit
| KDel (key : string) : kv_op unit
| KLen : kv_op Z
| KCleanup : kv_op Z
| KExists (key : string) : kv_op bool
| KType (key : string) : kv_op Z
| KExpire (key : string) (seconds : Z) : kv_op bool
| KPExpire (key : string) (ms : Z) : kv_op bool
| KTTL (key : string) : kv_op Z
| KPTTL (key : string) : kv_op Z
| KPersist (key : string) : kv_op bool
| KKeys (pattern : string) : kv_op (list string).

Definition unit_of (e : option error) : result error unit := match e with Some e => Err e | None => Ok tt end.

(** The operation on the cache; the clock and the matcher are those of the request. *)
Definition kv_step {A} (e : env) (o : kv_op A) : Cache -> outcome (result error A * Cache) :=
  let now := e_now e in
  match o in kv_op A return Cache -> outcome (result error A * Cache) with
  | KGet key => fun c =>
      '(r, c) ← Get now key c; mret (match r with Ok v => Ok (Some v) | Err e => Err e end, c)
  | KSet key value ttl => fun c => '(e, c) ← Set_ now key value (Some ttl) c; mret (unit_of e, c)
  | KDel key => fun c => '(e, c) ← Cache.Del now key c; mret (unit_of e, c)
  | KLen => fun c => n ← Len now c; mret (Ok n, c)
  | KCleanup => fun c => '(n, c) ← Cleanup now c; mret (Ok n, c)
  | KExists key => Exists now key
  | KType key => Type_ now key
  | KExpire key seconds => Expire now key seconds
  | KPExpire key ms => PExpire now key ms
  | KTTL key => CacheExt.TTL now key
  | KPTTL key => PTTL now key
  | KPersist key => Persist now key
  | KKeys pattern => fun c => r ← CacheExt.Keys (e_Match e) now pattern c; mret (r, c)
  end.

Definition kv_call {A} (o : kv_op A) : call A :=
  match o in kv_op A return call A with
  | KGet key => get key
  | KSet key value ttl => set key value ttl
  | KDel key => del key
  | KLen => lenCmd
  | KCleanup => cleanupCmd
  | KExists key => existsCmd key
  | KType key => typeCmd key
  | KExpire key seconds => expireCmd key seconds
  | KPExpire key ms => pExpireCmd key ms
  | KTTL key => ttlCmd key
  | KPTTL key => pttlCmd key
  | KPersist key => persistCmd key
  | KKeys pattern => keysCmd pattern
  end.

(** Arguments the wire keeps: an empty value would arrive as nil, a lifetime goes in
    milliseconds. *)
Definition kv_kept {A} (o : kv_op A) : Prop :=
  match o with
  | KSet _ value ttl => value <> Some [] /\ ttl <= max_int64 /\ (1000000 | Z.max ttl 0)
  | KExpire _ seconds => in_int64 (seconds * 1000)
  | _ => True
  end.

Definition kv_seen_error {A} (o : kv_op A) (e : error) : error :=
  match o with
  | KGet _ => if not_found e then ErrKeyNotFound else serverError (Error e)
  | KSet _ _ _ | KDel _ | KLen | KCleanup => serverError (Error e)
  | _ => ErrMsg (Error e)
  end.

(** An empty value arrives as nil. *)
Definition kv_seen {A} (o : kv_op A) (r : result error A) : result error A :=
  match r with
  | Err e => Err (kv_seen_error o e)
  | Ok a => Ok (match o in kv_op A return A -> A with KGet _ => norm_value | _ => fun a => a end a)
  end.

Definition kv_fits {A} (o : kv_op A) (r : result error A) : Prop :=
  match r with
  | Err e => fits 2 (Error e)
  | Ok a =>
      match o in kv_op A return A -> Prop with
      | KGet _ => fun v => Z.of_nat (length (val v)) < 2 ^ 32
      | KType _ => fun t => 0 <= t < 256
      | KLen | KCleanup | KTTL _ | KPTTL _ => in_int64
      | KKeys _ => fun keys => fit_strings keys /\ Z.of_nat (length (encode_keys keys)) < 2 ^ 32
      | _ => fun _ => True
      end a
  end.

Lemma respond_kv (q : request_env) req (s : Server) resp c :
  raftNode s = None -> process_direct Quote q req (srv_cache s) ⇓ (resp, c) ->
  respond Quote q (KvJob req) s ⇓ (KvReply resp, with_cache c s).
Proof. intros Hr Hp. cbn [respond]. unfold process, on_cache. by rewrite Hr, Hp. Qed.

(** *** Values of the replies *)

Lemma resp_wf status v msg :
  0 <= status <= StatusNotFound -> Z.of_nat (length (val v)) < 2 ^ 32 -> fits 2 msg ->
  wf_reply (KvReply (mkResponse status v msg) : @reply float64).
Proof.
  unfold fits, slen. change (256 ^ Z.of_nat 2) with (2 ^ 16). unfold StatusNotFound. intros [? ?] ? ?.
  rewrite length_bytes_of in *.
  split; [|done]. split_and!; cbn [Status RValue ErrMsg_]; lia.
Qed.

Lemma norm_be n z : norm_value (Some (be (S n) z)) = Some (be (S n) z).
Proof.
  destruct (be (S n) z) as [|b l] eqn:Hb; [|done]. pose proof (length_be (S n) z) as Hl. by rewrite Hb in Hl.
Qed.

Lemma take_be n z : take n (be n z) = be n z.
Proof. apply take_ge. rewrite length_be. lia. Qed.

Lemma int_value_num n : in_int64 n ->
  int_value (mkResponse StatusOK (norm_value (Some (be 8 (wrapU 64 n)))) EmptyString) = n.
Proof.
  intros Hn. rewrite norm_be. unfold int_value. change (val (RValue _)) with (be 8 (wrapU 64 n)).
  rewrite take_be, unbe_be_small by apply wrap64_range. by apply int64_wrap.
Qed.

Lemma read_keys_all keys pre acc :
  Forall (fits 2) keys -> read_keys (length keys) (pre ++ counted_all 2 keys) (length pre) acc = acc ++ keys.
Proof.
  intros Hf. revert pre acc. induction Hf as [|k keys Hk _ IH]; intros pre acc; cbn [read_keys length]; [by rewrite app_nil_r|].
  unfold fits in Hk. change (256 ^ Z.of_nat 2) with (2 ^ 16) in Hk.
  assert (pre ++ counted_all 2 (k :: keys) = (pre ++ counted 2 k) ++ counted_all 2 keys) as Hsplit by (by rewrite <-(assoc_L (++))).
  assert (drop (length pre) (pre ++ counted_all 2 (k :: keys)) = counted 2 k ++ counted_all 2 keys) as Hdrop by (by rewrite drop_app_length).
  assert (drop (length pre + 2) (pre ++ counted_all 2 (k :: keys)) = bytes_of k ++ counted_all 2 keys) as Hdrop2.
  { rewrite <-drop_drop, Hdrop. unfold counted. rewrite <-(assoc_L (++)). apply drop_app_length'. by rewrite length_be. }
  assert (take 2 (counted 2 k ++ counted_all 2 keys) = be 2 (slen k)) as Htake.
  { unfold counted. rewrite <-(assoc_L (++)). apply take_app_length'. by rewrite length_be. }
  assert (0 <= slen k) by (unfold slen; lia).
  rewrite Hdrop, Htake, unbe_be_small by done. rewrite Hdrop2. unfold slen in *.
  assert (length (pre ++ counted_all 2 (k :: keys)) = length pre + 2 + length (bytes_of k) + length (counted_all 2 keys))%nat as ->.
  { rewrite Hsplit. unfold counted. rewrite !length_app, length_be. lia. }
  rewrite (proj2 (Nat.ltb_ge _ _)) by lia. rewrite Nat2Z.id, (proj2 (Nat.ltb_ge _ _)) by lia.
  rewrite take_app_length, string_of_list_byte_of_string, Hsplit.
  replace (length pre + 2 + length (bytes_of k))%nat with (length (pre ++ counted 2 k)).
  - rewrite IH, <-(assoc_L (++)). done.
  - unfold counted. rewrite !length_app, length_be. lia.
Qed.

Lemma ttl_kept ttl : ttl <= max_int64 -> (1000000 | Z.max ttl 0) ->
  Z.max (ms_ttl (if ttl >? 0 then ttl ÷ 1000000 else 0)) 0 = Z.max ttl 0.
Proof.
  unfold max_int64. intros Hmax [k Hk]. destruct (Z.gtb_spec ttl 0) as [Hp|Hp]; [|cbn; lia].
  replace ttl with (k * 1000000) in * by lia. rewrite Z.quot_mul by lia. unfold ms_ttl.
  rewrite Z.gtb_ltb, (proj2 (Z.ltb_lt _ _)) by lia. rewrite int64_id; [done|]. unfold in_int64, min_int64, max_int64. lia.
Qed.

(** A lifetime in milliseconds sets the same entry. *)
Lemma Set_ttl now key value t u (c : Cache) : Z.max t 0 = Z.max u 0 -> Set_ now key value (Some t) c = Set_ now key value (Some u) c.
Proof. intros Ht. unfold Set_. by rewrite Ht. Qed.

Ltac kv_branch Hraft Hstep :=
  eexists; split;
  [ apply respond_kv; [exact Hraft|];
    unfold process_direct; cbn -[Z.eqb]; switch; unfold answer; rewrite ?Hstep; reflexivity
  | ].

Lemma flag_back (b : bool) : flag_value (mkResponse StatusOK (norm_value (Some (be 1 (if b then 1 else 0)))) EmptyString) = Ok b.
Proof. by destruct b. Qed.

Lemma long_back n : in_int64 n ->
  long_value (mkResponse StatusOK (norm_value (Some (be 8 (wrapU 64 n)))) EmptyString) = Ok n.
Proof.
  intros Hn. unfold long_value. rewrite int_value_num, norm_be by done. change (val (RValue _)) with (be 8 (wrapU 64 n)).
  by rewrite length_be.
Qed.

Lemma counter_back n : in_int64 n ->
  counter (mkResponse StatusOK (norm_value (Some (be 8 (wrapU 64 n)))) EmptyString) = Ok n.
Proof.
  intros Hn. unfold counter. rewrite int_value_num, norm_be by done. change (val (RValue _)) with (be 8 (wrapU 64 n)).
  by rewrite length_be.
Qed.

Lemma type_back t : 0 <= t < 256 ->
  match val (norm_value (Some (be 1 t))) with b :: _ => byte_val b | [] => 0 end = t.
Proof. intros Ht. rewrite norm_be. destruct (be1_cons t Ht) as (b & -> & Hb). done. Qed.

Lemma keys_back keys : fit_strings keys ->
  (let v := val (norm_value (Some (encode_keys keys))) in
   if (length v <? 4)%nat then [] else read_keys (Z.to_nat (unbe (take 4 v))) v 4 []) = keys.
Proof.
  intros [Hf Hn]. assert (norm_value (Some (encode_keys keys)) = Some (encode_keys keys)) as ->.
  { apply norm_payload. unfold encode_keys. intros Hx%(f_equal length). rewrite length_app, length_be in Hx. cbn in Hx. lia. }
  change (val (Some _)) with (encode_keys keys). cbv zeta. unfold encode_keys.
  rewrite length_app, length_be. cbn [Nat.add Nat.ltb Nat.leb].
  rewrite take_app_length' by (by rewrite length_be). rewrite unbe_be_small, Nat2Z.id by (change (256 ^ Z.of_nat 4) with (2 ^ 32); lia).
  pose proof (read_keys_all keys (be 4 (Z.of_nat (length keys))) [] Hf) as Hr. by rewrite length_be in Hr.
Qed.

#[local] Hint Resolve resp_wf : remote.
#[local] Hint Extern 1 (_ <= _ <= _) => by split : remote.
#[local] Hint Extern 2 (Z.of_nat (length (val (Some (be _ _)))) < _) => change (val (Some ?x)) with x; rewrite length_be : remote.

Ltac kv_wire := unfold resp_error, resp_flag, resp_num, resp_fail, resp_err, resp_ok; destruct_and?; auto with remote.

Ltac kv_back lem := intros Hf; cbn [kv_fits] in Hf; split; [kv_wire | first [reflexivity | apply lem; tauto | exact (f_equal Ok (lem _ Hf)) | exact (f_equal Ok (lem _ (proj1 Hf)))]].

Ltac kv_both r lem := destruct r as [x|e]; [kv_back lem | cbn [kv_seen kv_seen_error]; found_or_not; kv_back lem].

Lemma kv_remote_step {A} (o : kv_op A) (q : request_env) (s : Server) r c' :
  raftNode s = None -> kv_kept o -> kv_step (q_env q) o (srv_cache s) ⇓ (r, c') ->
  exists rep, respond Quote q (job_of (kv_call o)) s ⇓ (rep, with_cache c' s) /\
    (kv_fits o r -> wf_reply rep /\ read_reply (kv_call o) (norm_reply rep) = kv_seen o r).
Proof.
  intros Hraft Hk Hstep. destruct o; cbn [kv_step] in Hstep; cbn [kv_call job_of get].
  - destruct (Get _ _ _) as [[x c]| |] eqn:Hx; cbn in Hstep; try done. injection Hstep as <- <-. kv_branch Hraft Hx.
    destruct x as [x|e]; [kv_back flag_back | cbn [kv_seen kv_seen_error]; found_or_not; kv_back flag_back].
  - destruct Hk as (Hv & Hmax & Hdiv). rewrite (Set_ttl _ _ _ _ _ _ (eq_sym (ttl_kept _ Hmax Hdiv))) in Hstep.
    assert (norm_value value = value) as Hnv by (by destruct value as [[]|]).
    destruct (Set_ _ _ _ _ _) as [[[x|] c]| |] eqn:Hx; cbn in Hstep; try done; injection Hstep as <- <-;
      (eexists; split; [apply respond_kv; [exact Hraft|]; unfold process_direct; cbn [Wire.Cmd Wire.Key Wire.Value Wire.TTL]; switch; rewrite Hnv, Hx; reflexivity|]); kv_back flag_back.
  - destruct (Cache.Del _ _ _) as [[[x|] c]| |] eqn:Hx; cbn in Hstep; try done; injection Hstep as <- <-; kv_branch Hraft Hx; kv_back flag_back.
  - destruct (Len _ _) as [n| |] eqn:Hx; cbn in Hstep; try done; injection Hstep as <- <-; kv_branch Hraft Hx; kv_back counter_back.
  - destruct (Cleanup _ _) as [[n c]| |] eqn:Hx; cbn in Hstep; try done; injection Hstep as <- <-; kv_branch Hraft Hx; kv_back counter_back.
  - kv_branch Hraft Hstep. kv_both r flag_back.
  - kv_branch Hraft Hstep. kv_both r type_back.
  - cbn in Hk. cbn [job_of expireCmd]. rewrite (int64_id _ Hk).
    assert ((seconds * 1000) ÷ 1000 = seconds) as Hs by (by apply Z.quot_mul).
    eexists. split; [apply respond_kv; [exact Hraft|]; unfold process_direct; cbn [Wire.Cmd Wire.Key Wire.Value Wire.TTL]; switch; rewrite Hs; unfold answer; rewrite Hstep; reflexivity|].
    kv_both r flag_back.
  - kv_branch Hraft Hstep. kv_both r flag_back.
  - kv_branch Hraft Hstep. kv_both r long_back.
  - kv_branch Hraft Hstep. kv_both r long_back.
  - kv_branch Hraft Hstep. kv_both r flag_back.
  - destruct (CacheExt.Keys _ _ _ _) as [x| |] eqn:Hx; cbn in Hstep; try done; injection Hstep as <- <-; kv_branch Hraft Hx.
    kv_both x keys_back.
Qed.

(** ** A client's session *)

(** An operation a client can ask for. *)
Inductive remote_op : Type -> Type :=
| RKv {A} (o : kv_op A) : remote_op A
| RExt {A} (o : ext_op A) : remote_op A
| RHIncrByFloat (key field : string) (delta : float64) : remote_op float64.

Definition remote_call {A} (o : remote_op A) : call A :=
  match o with RKv o => kv_call o | RExt o => call_of o | RHIncrByFloat key field delta => hIncrByFloat key field delta end.

(** The operation on a cache in the same process. *)
Definition local_step {A} (e : env) (o : remote_op A) : Cache -> outcome (result error A * Cache) :=
  match o with RKv o => kv_step e o | RExt o => ext_step o | RHIncrByFloat key field delta => HIncrByFloat key field delta end.

Definition op_kept {A} (q : request_env) (o : remote_op A) : Prop :=
  match o with RKv o => kv_kept o | RExt o => same_draws q o | RHIncrByFloat _ _ _ => True end.
Definition op_fits {A} (o : remote_op A) : result error A -> Prop :=
  match o with
  | RKv o => kv_fits o
  | RExt o => fits_result o
  | RHIncrByFloat _ _ _ => fun r => match r with Ok _ => True | Err e => fits 2 (Error e) end
  end.
Definition op_seen {A} (o : remote_op A) : result error A -> result error A :=
  match o with
  | RKv o => kv_seen o
  | RExt o => seen o
  | RHIncrByFloat _ _ _ => fun r => match r with Ok x => Ok x | Err e => Err (ErrMsg (Error e)) end
  end.

Lemma op_step {A} (o : remote_op A) (q : request_env) (s : Server) r c' :
  raftNode s = None -> op_kept q o -> local_step (q_env q) o (srv_cache s) ⇓ (r, c') ->
  exists rep, respond Quote q (job_of (remote_call o)) s ⇓ (rep, with_cache c' s) /\
    (op_fits o r -> wf_reply rep /\ read_reply (remote_call o) (norm_reply rep) = op_seen o r).
Proof.
  destruct o; cbn [local_step remote_call op_kept op_fits op_seen]; [apply kv_remote_step|apply remote_step|].
  intros Hraft _ Hstep. change (job_of (hIncrByFloat key field delta)) with (plain_job (hIncrByFloat key field delta)).
  branch respond_hash Hraft Hstep. destruct r; back.
Qed.

(** An operation with the buffers it meets and what its request takes from outside. *)
Record parcel : Type := mkParcel {
  pc_type : Type;
  pc_op : remote_op pc_type;
  pc_env : request_env;
  pc_pools : bytes * bytes * bytes;
  pc_rest : bytes;
}.

Definition flight_of (p : parcel) : flight :=
  mkFlight (pc_type p) (remote_call (pc_op p)) (pc_env p) (pc_pools p) (pc_rest p).

(** The results of a list of operations, each of its own type. *)
Fixpoint results (ps : list parcel) : Type :=
  match ps with [] => unit | p :: ps => result error (pc_type p) * results ps end.

(** The operations on a cache in the same process, one after the other. *)
Fixpoint local_run (ps : list parcel) (c : Cache) : outcome (results ps * Cache) :=
  match ps with
  | [] => Ret (tt, c)
  | p :: ps =>
      '(r, c) ← local_step (q_env (pc_env p)) (pc_op p) c;
      '(rs, c) ← local_run ps c;
      mret ((r, rs), c)
  end.

Fixpoint results_fit (ps : list parcel) : results ps -> Prop :=
  match ps with [] => fun _ => True | p :: ps => fun '(r, rs) => op_fits (pc_op p) r /\ results_fit ps rs end.

(** Every call returned what its operation gave. *)
Fixpoint all_returned (ps : list parcel) (ids : list Z) (cc : clientConn float64) : results ps -> Prop :=
  match ps with
  | [] => fun _ => True
  | p :: ps => fun '(r, rs) =>
      match ids with
      | [] => False
      | id :: ids => received (remote_call (pc_op p)) id cc = op_seen (pc_op p) r /\ all_returned ps ids cc rs
      end
  end.

(** What the replies are read as. *)
Fixpoint all_read (ps : list parcel) (reps : list (@reply float64)) : results ps -> Prop :=
  match ps with
  | [] => fun _ => reps = []
  | p :: ps => fun '(r, rs) =>
      match reps with
      | [] => False
      | rep :: reps =>
          wf_reply rep /\ read_reply (remote_call (pc_op p)) (norm_reply rep) = op_seen (pc_op p) r /\ all_read ps reps rs
      end
  end.

Lemma serve_local ps (s : Server) rs c' :
  raftNode s = None -> Forall (fun p => op_kept (pc_env p) (pc_op p)) ps -> local_run ps (srv_cache s) ⇓ (rs, c') ->
  results_fit ps rs ->
  exists reps s', serve Quote (flight_of <$> ps) s ⇓ (reps, s') /\ srv_cache s' = c' /\ all_read ps reps rs.
Proof.
  intros Hr Hk. revert s rs Hr. induction Hk as [|p ps Hp _ IH]; intros s rs Hr Hrun Hfit; cbn [local_run] in Hrun.
  { injection Hrun as <- <-. by exists [], s. }
  destruct (local_step _ _ _) as [[r c1]| |] eqn:Hstep; cbn in Hrun; try done.
  destruct (local_run ps c1) as [[rs1 c2]| |] eqn:Hrest; cbn in Hrun; try done. injection Hrun as <- <-.
  destruct Hfit as [Hfit Hfits].
  destruct (op_step (pc_op p) (pc_env p) (count_request s) r c1) as (rep & Hresp & Hread); [done..|].
  destruct (Hread Hfit) as [Hwf Hsee].
  destruct (IH (with_cache c1 (count_request s)) rs1) as (reps & s' & Hserve & Hc & Hall); [done..|].
  exists (rep :: reps), s'. split_and!; try done. rewrite fmap_cons. cbn [serve].
  eapply bind_ret; [exact Hresp|]. cbv beta iota. eapply bind_ret; [exact Hserve|]. done.
Qed.

Lemma all_read_wf ps reps rs :
  all_read ps reps rs ->
  Forall2 (fun f r => fits_frame (encode_reply (q_stale (fl_env f)) r)) (flight_of <$> ps) reps ->
  Forall2 wf_answer (flight_of <$> ps) reps.
Proof.
  revert reps. induction ps as [|p ps IH]; intros reps; cbn [all_read]; [intros -> _; constructor|].
  destruct rs as [r rs]. destruct reps as [|rep reps]; [done|]. intros (Hwf & _ & Hall). rewrite fmap_cons.
  intros [Hfit Hfits]%Forall2_cons. constructor; [by split|by eapply IH].
Qed.

Lemma all_received ps ids reps cc rs :
  length ids = length ps -> all_read ps reps rs ->
  (forall i f id r, (flight_of <$> ps) !! i = Some f -> ids !! i = Some id -> reps !! i = Some r ->
     received (fl_call f) id cc = read_reply (fl_call f) (norm_reply r)) ->
  all_returned ps ids cc rs.
Proof.
  revert ids reps. induction ps as [|p ps IH]; intros ids reps Hl Hall Hrec; [done|]. destruct rs as [r rs].
  destruct ids as [|id ids]; [done|]. destruct reps as [|rep reps]; [done|]. destruct Hall as (_ & Hsee & Hall).
  cbn [all_returned]. split.
  - rewrite <-Hsee. by apply (Hrec 0%nat (flight_of p) id rep).
  - apply (IH rs ids reps); [by injection Hl|done|]. intros i f id' r' Hf Hid Hr. by apply (Hrec (S i) f id' r').
Qed.

(** C13 (refinement): a remote cache is the cache.  A client makes any operations of
    its interface, strings, keys, sets, hashes and lists, any number of them in flight
    at once on one connection to a server without Raft; the requests are encoded,
    framed, decoded, handled, and the answers come back the same way.  If the
    operations on a cache in the same process return, and what they take and give fits
    the wire, then every method returns what its operation returns there, up to what
    the wire does to errors and to empty values ([op_seen]), and the server's cache is
    the local one. *)
Theorem remote_cache_is_cache text ps cc (s : Server) rs c' :
  cc_closed cc = false -> 0 <= nextStreamID cc < 2 ^ 32 -> Z.of_nat (length ps) <= streams ->
  Forall wf_flight (flight_of <$> ps) -> Forall (fun p => op_kept (pc_env p) (pc_op p)) ps -> raftNode s = None ->
  local_run ps (srv_cache s) ⇓ (rs, c') -> results_fit ps rs ->
  (forall reps s', serve Quote (flight_of <$> ps) s ⇓ (reps, s') ->
     Forall2 (fun f r => fits_frame (encode_reply (q_stale (fl_env f)) r)) (flight_of <$> ps) reps) ->
  exists ids bs cc1 frames s' cc2,
    start (flight_of <$> ps) cc = (Ok (ids, bs), cc1) /\
    handle_conn Quote (pc_env <$> ps) bs s ⇓ (frames, s') /\
    readLoop text (pc_rest <$> ps) (answers (flight_of <$> ps) frames) cc1 ⇓ cc2 /\
    srv_cache s' = c' /\ all_returned ps ids cc2 rs.
Proof.
  intros Hcl Hn Hlen Hwf Hk Hr Hrun Hfit Hframes.
  destruct (serve_local ps s rs c' Hr Hk Hrun Hfit) as (reps & s' & Hserve & Hc & Hall).
  pose proof (all_read_wf ps reps rs Hall (Hframes _ _ Hserve)) as Hans.
  destruct (multiplexed_calls Quote text (flight_of <$> ps) cc s reps s') as (ids & bs & cc1 & frames & cc2 & Hl & H1 & H2 & H3 & H4);
    [done|done|by rewrite length_fmap|done..|].
  rewrite <-!list_fmap_compose in *. rewrite length_fmap in Hl.
  exists ids, bs, cc1, frames, s', cc2. split_and!; try done. by eapply all_received.
Qed.

End Remote.

(** ** A session *)

#[local] Existing Instance trie_order.
#[local] Existing Instance pattern_bits.
#[local] Existing Instance pattern_laws.

(** Numbers for the session: no text is a number. *)
#[local] Instance demo_floats : FloatOps pattern :=
  {| fadd := fun x y => to_pattern (Float64bits x + Float64bits y);
     ParseFloat := fun s => Err (NumError "ParseFloat" s false); FormatFloat := fun _ => "0"%string |}.

(** No command is serialised without Raft. *)
#[local] Instance demo_json : Json pattern :=
  {| Marshal := fun _ => Err ErrInvalidCommand; Unmarshal := fun _ => Err ErrInvalidCommand |}.

Definition demo_request_env : @request_env Policies.policy :=
  mkReqEnv (mkEnv 5 0 [] (fun _ => 0%nat) (fun _ _ => true)) (mkWait false (fun _ => [])) [x2a] [xff] (Ok [])
    (fun _ => 0) (fun _ c => c) 0.
Definition demo_parcel {A} (o : @remote_op pattern A) : @parcel Policies.policy pattern :=
  mkParcel A o demo_request_env ([x01; x02], [], [x03]) [x04].
Definition demo_parcels : list (@parcel Policies.policy pattern) :=
  [demo_parcel (RKv (KSet "a" (Some [x2a]) 0)); demo_parcel (RExt (XSAdd "s" ["x"; "y"]%string));
   demo_parcel (RKv (KGet "a")); demo_parcel (RExt (XLPop "l")); demo_parcel (RKv (KKeys "*"))].
Definition demo_results : results demo_parcels :=
  (Ok tt, (Ok 2, (Ok (Some [x2a]), (Err ErrKeyNotFound, (Ok ["a"; "s"]%string, tt))))).
Definition demo_server : Server Policies.policy pattern := mkServer (demo_cache 2 0) None ∅ ∅ 0 0.

Lemma demo_run : exists c', local_run demo_parcels (srv_cache demo_server) ⇓ (demo_results, c').
Proof. eexists. vm_compute. reflexivity. Qed.

#[local] Instance fits_frame_dec bs : Decision (fits_frame bs).
Proof. unfold fits_frame. apply _. Defined.

Definition demo_fits (o : outcome (list (@reply pattern) * Server Policies.policy pattern)) : bool :=
  match o with
  | Ret (reps, _) => bool_decide (Forall2 (fun f r => fits_frame (encode_reply (q_stale (fl_env f)) r)) (flight_of <$> demo_parcels) reps)
  | _ => true
  end.

Lemma demo_frames reps s' :
  serve (fun s => s) (flight_of <$> demo_parcels) demo_server ⇓ (reps, s') ->
  Forall2 (fun f r => fits_frame (encode_reply (q_stale (fl_env f)) r)) (flight_of <$> demo_parcels) reps.
Proof.
  intros H. assert (demo_fits (serve (fun s => s) (flight_of <$> demo_parcels) demo_server) = true) as Hb by (vm_compute; reflexivity).
  rewrite H in Hb. by apply bool_decide_eq_true in Hb.
Qed.

Lemma demo_flights : Forall wf_flight (flight_of <$> demo_parcels).
Proof.
  repeat constructor; try (apply (bool_decide_unpack _); vm_compute; exact I); try (eexists; split; [reflexivity|]; vm_compute; discriminate); try discriminate.
Qed.

Lemma remote_cache_is_cache_witness :
  exists ids cc2, all_returned (fun s => s) demo_parcels ids cc2 demo_results.
Proof.
  destruct demo_run as [c' Hrun].
  destruct (remote_cache_is_cache (fun s => s) (fun _ => "EOF"%string) demo_parcels new_conn demo_server demo_results c')
    as (ids & _ & _ & _ & _ & cc2 & _ & _ & _ & _ & H).
  - reflexivity.
  - split; [discriminate|reflexivity].
  - discriminate.
  - apply demo_flights.
  - repeat constructor; try discriminate. by exists 0.
  - reflexivity.
  - exact Hrun.
  - repeat split; repeat constructor; try discriminate.
  - apply demo_frames.
  - exists ids, cc2. exact H.
Defined.
