(* ===== verification/ServerLoops.v ===== *)
(** * The loops of the server: read timeouts and workers (net/server.go)

    The loop of [handleConn] goes on after a read timeout.  Between frames this is harmless: the connection is served as if it had
    never paused.  In the middle of a frame the bytes already read are lost, and what arrives next is taken for a new frame.
    The pool of workers, to which nothing sends jobs, answers each job it would be sent, a panic included. *)

From Stdlib Require Import Strings.Byte Strings.String.
From stdpp Require Import base tactics numbers list gmap sets fin_maps strings pretty.
From S2P Require Import Prelude.
From S2P Require Import Policy.
From S2P Require Import Policies.
From S2P Require Import DHash.
From S2P Require Import Raft.
From S2P Require Import Bytes.
From S2P Require Import Wire.
From S2P Require Import WireSet.
From S2P Require Import WireExt.
From S2P Require Import WireExtSpec.
From S2P Require Import Shard.
From S2P Require Import Rehash.
From S2P Require Import Cache.
From S2P Require Import CacheSpec.
From S2P Require Import CacheExt.
From S2P Require Import RaftCmd.
From S2P Require Import Server.
From S2P Require Import Client.
From S2P Require Import Network.
From S2P Require Import Remote.

Open Scope Z_scope.

(** What arrives before each timeout; the stream ends after the last piece. *)
Notation arrivals := (list bytes).

Inductive read_error : Type := TimedOut | Failed.

(** [io.ReadFull]: what was read before a timeout is gone. *)
Definition read_full (n : nat) (a : arrivals) : result read_error bytes * arrivals :=
  match a with
  | [] => (Err Failed, [])
  | ch :: rest =>
      if (n <=? length ch)%nat then (Ok (take n ch), drop n ch :: rest)
      else match rest with [] => (Err Failed, []) | _ => (Err TimedOut, rest) end
  end.

Definition read_frame (a : arrivals) : result read_error Frame * arrivals :=
  match read_full 10 a with
  | (Err e, a) => (Err e, a)
  | (Ok header, a) =>
      let payloadLen := unbe (take 4 header) in
      if payloadLen >? MaxPayloadSize then (Err Failed, a)
      else
        let f p := mkFrame (unbe (take 4 (drop 4 header))) (unbe (take 1 (drop 8 header))) (unbe (take 1 (drop 9 header))) p in
        if payloadLen >? 0 then
          match read_full (Z.to_nat payloadLen) a with
          | (Err e, a) => (Err e, a)
          | (Ok p, a) => (Ok (f (Some p)), a)
          end
        else (Ok (f None), a)
  end.

Section Timeouts.
Context `{MI : MapIter} `{EP : EvictionPolicy P} `{FO : FloatOps float64} `{FB : FloatBits float64} `{JS : Json float64}.
Variable Quote : string -> string.
Notation Cache := (Cache P).
Notation Server := (Server P float64).

(** The loop, one environment per frame; [fuel] bounds its passes. *)
Fixpoint handleConn (fuel : nat) (qs : list request_env) (a : arrivals) (s : Server) : outcome (list Frame * Server) :=
  match fuel, qs with
  | O, _ => NoFuel
  | _, [] => Ret ([], s)
  | S fuel, q :: qs' =>
      match read_frame a with
      | (Err TimedOut, a) => handleConn fuel qs a s
      | (Err Failed, _) => Ret ([], s)
      | (Ok f, a) =>
          '(out, s) ← handle_frame Quote q f s;
          '(frames, s) ← handleConn fuel qs' a s;
          mret (match out with Some out => response_frame (StreamID f) out :: frames | None => frames end, s)
      end
  end.

Lemma read_full_ok n ch rest x r : ReadFull n ch = (Ok x, r) -> read_full n (ch :: rest) = (Ok x, r :: rest).
Proof. unfold ReadFull, read_full. case_match; [|done]. by intros [= <- <-]. Qed.

Lemma read_full_last n ch e r : ReadFull n ch = (Err e, r) -> read_full n [ch] = (Err Failed, []).
Proof. unfold ReadFull, read_full. by case_match. Qed.

Lemma read_frame_ok ch rest f r : DecodeFrame ch = (Ok f, r) -> read_frame (ch :: rest) = (Ok f, r :: rest).
Proof.
  unfold DecodeFrame, read_frame. destruct (ReadFull 10 ch) as [[header|] r1] eqn:H1; [|done].
  rewrite (read_full_ok _ _ rest _ _ H1). cbv zeta. case_match; [done|]. case_match; [|by intros [= <- <-]].
  destruct (ReadFull _ r1) as [[p|] r2] eqn:H2; [|done]. rewrite (read_full_ok _ _ rest _ _ H2). by intros [= <- <-].
Qed.

Lemma read_frame_last ch e r : DecodeFrame ch = (Err e, r) -> exists a, read_frame [ch] = (Err Failed, a).
Proof.
  unfold DecodeFrame, read_frame. destruct (ReadFull 10 ch) as [[header|] r1] eqn:H1; [|by rewrite (read_full_last _ _ _ _ H1); eauto].
  rewrite (read_full_ok _ _ [] _ _ H1). cbv zeta. case_match; [eauto|]. case_match; [|done].
  destruct (ReadFull _ r1) as [[p|] r2] eqn:H2; [done|]. rewrite (read_full_last _ _ _ _ H2). eauto.
Qed.

(** A piece of whole frames. *)
Inductive whole : bytes -> Prop :=
| whole_nil : whole []
| whole_cons stale f l : wf_frame f -> whole l -> whole (Encode stale f ++ l).

(** Timeouts between frames change nothing, whatever comes after the last of them. *)
Lemma timeouts_between_frames (pieces : list bytes) tail qs (s : Server) fuel :
  Forall whole pieces -> (length qs + length pieces < fuel)%nat ->
  handleConn fuel qs (pieces ++ [tail]) s = handle_conn Quote qs (concat pieces ++ tail) s.
Proof.
  revert pieces tail qs s. induction fuel as [|fuel IH]; intros pieces tail qs s Hall Hf; [lia|]. destruct qs as [|q qs]; [done|].
  cbn [handleConn handle_conn]. cbn in Hf. destruct pieces as [|p pieces].
  - cbn [app concat]. destruct (DecodeFrame tail) as [[f|e] r] eqn:Hd.
    + rewrite (read_frame_ok _ [] _ _ Hd). destruct (handle_frame Quote q f s) as [[out s1]| |]; [|done..]. cbn in Hf |- *.
      pose proof (IH [] r qs s1 ltac:(done) ltac:(cbn; lia)) as Hi. cbn in Hi. by rewrite Hi.
    + destruct (read_frame_last _ _ _ Hd) as [a ->]. done.
  - apply Forall_cons in Hall as [Hp Hall]. destruct Hp as [|stale f l Hwf Hl].
    + assert (read_frame ([] :: pieces ++ [tail]) = (Err TimedOut, pieces ++ [tail])) as Hr.
      { unfold read_frame, read_full. cbn. by destruct pieces. }
      cbn [app] in Hr |- *. rewrite Hr. rewrite (IH pieces tail (q :: qs) s Hall) by (cbn in *; lia). done.
    + assert (DecodeFrame (Encode stale f ++ l) = (Ok (norm_frame f), l)) as Hd by (by apply decode_frame).
      cbn [app concat]. rewrite (read_frame_ok _ (pieces ++ [tail]) _ _ Hd), <-!(assoc_L (++)), decode_frame by done.
      destruct (handle_frame Quote q (norm_frame f) s) as [[out s1]| |]; [|done..]. cbn [mbind outcome_bind].
      change (l :: pieces ++ [tail]) with ((l :: pieces) ++ [tail]). rewrite (IH (l :: pieces) tail qs s1) by (by constructor || (cbn in *; lia)).
      cbn [concat]. by rewrite <-(assoc_L (++)).
Qed.

(** ** Workers *)

(** What waits in the channel of jobs: the stream, the job, its environment, and the server a panic would leave behind. *)
Record queued_job : Type := mkQueued { qj_stream : Z; qj_job : @job float64; qj_env : @request_env P; qj_left : Server }.

(** A panic is recovered and answered. *)
Definition processJob (j : queued_job) (s : Server) : outcome (Frame * Server) :=
  match processRequest Quote (qj_env j) (qj_job j) s with
  | Ret (payload, s) => Ret (response_frame (qj_stream j) payload, s)
  | Panic => Ret (response_frame (qj_stream j) (EncodeResponse (q_stale (qj_env j)) (resp_err "internal server error")), qj_left j)
  | NoFuel => NoFuel
  end.

Fixpoint worker (jobCh : list queued_job) (s : Server) : outcome (list Frame * Server) :=
  match jobCh with
  | [] => Ret ([], s)
  | j :: jobCh => '(f, s) ← processJob j s; '(fs, s) ← worker jobCh s; mret (f :: fs, s)
  end.

(** The encoded responses of a connection in the order of its channel. *)
Definition writeLoop (writeCh : list (Z * bytes)) : list Frame := (fun '(streamID, payload) => response_frame streamID payload) <$> writeCh.

(** A worker answers every job, on its stream and in order. *)
Lemma worker_answers jobs (s : Server) :
  worker jobs s <> Panic /\ forall fs s', worker jobs s ⇓ (fs, s') -> StreamID <$> fs = qj_stream <$> jobs.
Proof.
  revert s. induction jobs as [|j jobs IH]; intros s; cbn; [split; [done|by intros fs s' [= <- _]]|].
  assert (processJob j s = NoFuel \/ exists f s1, processJob j s ⇓ (f, s1) /\ StreamID f = qj_stream j) as [->|(f & s1 & -> & Hf)].
  { unfold processJob. destruct (processRequest _ _ _ _) as [[p s1]| |]; eauto 6. }
  - by split.
  - cbn. destruct (IH s1) as [Hn Hr]. destruct (worker jobs s1) as [[fs s2]| |]; cbn; [|done..].
    split; [done|]. intros fs' s' [= <- _]. cbn. by rewrite Hf, (Hr fs s2).
Qed.

End Timeouts.

(** ** A timeout in the middle of a frame *)

#[local] Existing Instance trie_order.
#[local] Existing Instance pattern_bits.
#[local] Existing Instance demo_floats.
#[local] Existing Instance demo_json.

(** A value that is the frame of another request, on stream 7: the deletion of the key "a". *)
Definition inner_frame : bytes := Encode [] (mkFrame 7 FrameTypeRequest 0 (Some (EncodeRequest [] (mkRequest CmdDel "a" None 0)))).
Definition outer_frame : bytes := Encode [] (mkFrame 1 FrameTypeRequest 0 (Some (EncodeRequest [] (mkRequest CmdSet "k" (Some inner_frame) 0)))).

(** One frame that stores a value: if a timeout comes when all but the value has arrived, the server does not store it but carries
    out the request the value spells, and answers on a stream the client has not used. *)
Example timeout_runs_the_value (pieces := [take 26 outer_frame; drop 26 outer_frame]) :
  concat pieces = outer_frame /\
  match handle_conn (fun s => s) [demo_request_env] outer_frame demo_server with Ret (fs, _) => StreamID <$> fs | _ => [] end = [1] /\
  match handleConn (fun s => s) 4 [demo_request_env; demo_request_env] pieces demo_server with Ret (fs, _) => StreamID <$> fs | _ => [] end = [7].
Proof. split_and!; vm_compute; reflexivity. Qed.
