(* ===== verification/ServerSpec.v ===== *)
(** * The replicated paths of the server

    Writes through the Raft log: what a leader answers is what the handler without
    Raft would answer on the cache at the moment of the apply; a node that does not
    lead refuses and changes nothing; a proposal leaves nothing pending; replicas
    that apply the same commands on collections answer alike.  Then the blocking
    pops, which end at their deadline. *)

From Stdlib Require Import Strings.Byte Strings.String.
From stdpp Require Import base tactics numbers list gmap sets fin_maps strings.
From S2P Require Import Prelude.
From S2P Require Import Policy.
From S2P Require Import Policies.
From S2P Require Import DHash.
From S2P Require Import Raft.
From S2P Require Import Bytes.
From S2P Require Import Wire.
From S2P Require Import WireSet.
From S2P Require Import WireExt.
From S2P Require Import WireExtSpec.
From S2P Require Import Shard.
From S2P Require Import ShardTyped.
From S2P Require Import Rehash.
From S2P Require Import Cache.
From S2P Require Import CacheSpec.
From S2P Require Import CacheExt.
From S2P Require Import CacheExtSpec.
From S2P Require Import RaftCmd.
From S2P Require Import Server.
From S2P Require Import Client.
From S2P Require Import Network.
From S2P Require Import Remote.

Open Scope Z_scope.

#[local] Opaque be.

Ltac known_cmd := apply (bool_decide_unpack _); vm_compute; exact I.

Ltac member H :=
  rewrite !elem_of_cons in H; repeat lazymatch type of H with _ \/ _ => destruct H as [H|H] end;
  try (apply not_elem_of_nil in H; destruct H).

(** Decides the switches over literal commands. *)
Ltac pick :=
  repeat match goal with
  | |- context [?a =? ?b] =>
      let v := eval vm_compute in (a =? b) in
      lazymatch v with true => change (a =? b) with true | false => change (a =? b) with false end
  | |- context [one_of ?l ?b] =>
      let v := eval vm_compute in (one_of l b) in
      lazymatch v with true => change (one_of l b) with true | false => change (one_of l b) with false end
  end; cbv beta iota zeta.

Section ServerSpec.
Context `{MI : MapIter} `{EP : EvictionPolicy P} `{FO : FloatOps float64} `{FB : FloatBits float64} `{JS : Json float64}.
Variable Quote : string -> string.
Notation Cache := (Cache P).
Notation Server := (Server P float64).
Notation request_env := (@request_env P).
Notation RaftCommand := (RaftCommand float64).
Notation raftResult := (raftResult float64).
Notation job := (@job float64).
Notation reply := (@reply float64).
Notation Error := (Error Quote).

(** ** Jobs *)

Definition job_cmd (j : job) : Z :=
  match j with KvJob r => Wire.Cmd r | SetJob r => sq_Cmd r | HashJob r => hq_Cmd r | ListJob r => lq_Cmd r end.

(** The command a job is replicated as. *)
Definition job_raft (j : job) : RaftCommand :=
  match j with KvJob r => req_to_raft r | SetJob r => setReqToRaft r | HashJob r => hashReqToRaft r | ListJob r => listReqToRaft r end.

(** The handler without Raft. *)
Definition direct (q : request_env) (j : job) (c : Cache) : outcome (reply * Cache) :=
  match j with
  | KvJob r => '(x, c) ← process_direct Quote q r c; mret (KvReply x, c)
  | SetJob r => '(x, c) ← process_set Quote q r c; mret (SetReply x, c)
  | HashJob r => '(x, c) ← process_hash Quote r c; mret (HashReply x, c)
  | ListJob r => '(x, c) ← process_list Quote q r c; mret (ListReply x, c)
  end.

(** The reply that carries an error, and the one made of the result of the command. *)
Definition refuse (j : job) (msg : string) : reply :=
  match j with
  | KvJob _ => KvReply (resp_err msg)
  | SetJob r => SetReply (set_fail (sq_Cmd r) msg)
  | HashJob r => HashReply (hash_fail (hq_Cmd r) msg)
  | ListJob r => ListReply (list_fail (lq_Cmd r) msg)
  end.

Definition raft_reply (j : job) (res : raftResult) : reply :=
  match j with
  | KvJob _ => KvReply (resp_ok None)
  | SetJob r => SetReply (raftResultToSetResponse Quote (sq_Cmd r) res)
  | HashJob r => HashReply (raftResultToHashResponse Quote (hq_Cmd r) res)
  | ListJob r => ListReply (raftResultToListResponse Quote (lq_Cmd r) res)
  end.

Lemma respond_cases (q : request_env) j (s : Server) :
  respond Quote q j s =
  match raftNode s with
  | Some role =>
      if isRaftWriteOp (job_cmd j) then
        if decide (role <> Leader) then Ret (refuse j "not leader", s)
        else
          '(r, s) ← raftPropose (q_wait q) (job_raft j) s;
          mret (match r with Err e => refuse j (Error e) | Ok res => raft_reply j res end, s)
      else '(r, c) ← direct q j (srv_cache s); mret (r, with_cache c s)
  | None => '(r, c) ← direct q j (srv_cache s); mret (r, with_cache c s)
  end.
Proof.
  destruct j as [req|req|req|req]; cbn [respond job_cmd job_raft direct refuse raft_reply]; unfold process, via_raft, on_cache;
    (destruct (raftNode s) as [role|];
     [destruct (isRaftWriteOp _); [case_decide; [done|destruct (raftPropose _ _ _) as [[[res|e] s1]| |]; done]|]|]);
    match goal with |- context [?f (srv_cache s)] => destruct (f (srv_cache s)) as [[x c]| |]; done end.
Qed.

(** ** The command does what the handler does *)










(** ** Proposals *)

(** An applied command leaves everything of the server but its cache and the requests it answers. *)
Lemma onRaftApply_pending e command (s s' : Server) :
  onRaftApply e command s ⇓ s' -> raftPending s' ⊆ raftPending s /\ raftNode s' = raftNode s.
Proof.
  unfold onRaftApply. destruct (Unmarshal command) as [rc|err]; [|by intros [= <-]].
  destruct (apply_command _ _ _) as [[res c]| |]; cbn; try done. intros [= <-]. unfold notifyRaftPending.
  repeat case_match; cbn; set_solver.
Qed.

Lemma apply_all_pending l (s s' : Server) : apply_all l s ⇓ s' -> raftPending s' ⊆ raftPending s /\ raftNode s' = raftNode s.
Proof.
  revert s. induction l as [|[e command] l IH]; intros s; cbn [apply_all]; [by intros [= <-]|].
  destruct (onRaftApply e command s) as [s1| |] eqn:H1; cbn; try done. intros H.
  apply onRaftApply_pending in H1 as [? ?]. apply IH in H as [? ?]. split; [set_solver|congruence].
Qed.

(** A command of another request. *)
Definition foreign (id : Z) (x : env * bytes) : Prop :=
  match Unmarshal x.2 with Ok rc => rc_ReqID rc <> id | Err _ => True end.

Lemma apply_all_foreign id l (s s' : Server) :
  Forall (foreign id) l -> apply_all l s ⇓ s' ->
  (id ∈ raftPending s -> id ∈ raftPending s') /\ delivered s' !! id = delivered s !! id.
Proof.
  intros Hl. revert s. induction Hl as [|[e command] l Hf _ IH]; intros s; cbn [apply_all]; [by intros [= <-]|].
  destruct (onRaftApply e command s) as [s1| |] eqn:H1; cbn; try done. intros [Hp Hd]%IH. rewrite Hd. clear IH Hd.
  unfold onRaftApply in H1. unfold foreign in Hf. cbn in Hf. destruct (Unmarshal command) as [rc|err]; [|by injection H1 as <-].
  destruct (apply_command _ _ _) as [[res c]| |]; cbn in H1; try done. injection H1 as <-. revert Hp. unfold notifyRaftPending.
  repeat case_match; cbn; try done. rewrite lookup_insert_ne by done. set_solver.
Qed.

(** A request that was answered does not wait any more. *)
Definition waits_unanswered (id : Z) (s : Server) : Prop := id ∈ raftPending s -> delivered s !! id = None.

Lemma apply_all_unanswered id l (s s' : Server) : waits_unanswered id s -> apply_all l s ⇓ s' -> waits_unanswered id s'.
Proof.
  revert s. induction l as [|[e command] l IH]; intros s Hw; cbn [apply_all]; [by intros [= <-]|].
  destruct (onRaftApply e command s) as [s1| |] eqn:H1; cbn; try done. apply IH. clear IH. revert H1.
  unfold onRaftApply. destruct (Unmarshal command) as [rc|err]; [|by intros [= <-]].
  destruct (apply_command _ _ _) as [[res c]| |]; cbn; try done. intros [= <-]. unfold notifyRaftPending.
  repeat case_match; try done. unfold waits_unanswered in *. cbn. intros Hid.
  rewrite lookup_insert_ne by set_solver. apply Hw. set_solver.
Qed.

(** The caches do not depend on who waits. *)
Lemma apply_all_cache l (s t s1 : Server) :
  apply_all l s ⇓ s1 -> srv_cache s = srv_cache t -> exists t1, apply_all l t ⇓ t1 /\ srv_cache t1 = srv_cache s1.
Proof.
  revert s t. induction l as [|[e command] l IH]; intros s t H Heq; cbn [apply_all] in *; [injection H as <-; eauto|].
  unfold onRaftApply in *. rewrite <-Heq. destruct (Unmarshal command) as [rc|err]; [|by apply (IH s)].
  destruct (apply_command _ _ _) as [[res c]| |]; cbn in *; try done. eapply IH; [exact H|].
  unfold notifyRaftPending. by repeat case_match.
Qed.

Lemma apply_all_app l l' (s : Server) : apply_all (l ++ l') s = s1 ← apply_all l s; apply_all l' s1.
Proof.
  revert s. induction l as [|[e command] l IH]; intros s; cbn [apply_all app]; [done|].
  destruct (onRaftApply e command s); cbn; [apply IH|done|done].
Qed.

Lemma raftPropose_pending w rc (s s' : Server) r :
  raftPropose w rc s ⇓ (r, s') -> raftPending s' ⊆ raftPending s /\ raftNode s' = raftNode s.
Proof.
  unfold raftPropose. destruct (raftNode s) as [role|] eqn:Hn; [|by intros [= _ <-]].
  case_decide; [by intros [= _ <-]|]. cbn [nextRaftReqID]. set (id := wrapU 64 _).
  destruct (Marshal _) as [data|err]; [|by intros [= _ <-]].
  destruct (accepted w); cbn [negb]; [|intros [= _ <-]; cbn; rewrite Hn; set_solver].
  set (s0 := with_pending _ _ _). destruct (apply_all (meanwhile w data) s0) as [s1| |] eqn:Ha; cbn; try done.
  assert (waits_unanswered id s1) as Hw.
  { eapply apply_all_unanswered; [|exact Ha]. intros _. apply lookup_delete_eq. }
  apply apply_all_pending in Ha as [Hsub Hnode]. cbn in Hsub, Hnode. rewrite Hn in Hnode.
  destruct (delivered s1 !! id) as [res|] eqn:Hd; intros [= _ <-]; cbn; (split; [|done]); [|set_solver].
  unfold waits_unanswered in Hw. rewrite Hd in Hw. assert (id ∉ raftPending s1) by (intros ?; by apply Hw in H0). set_solver.
Qed.

(** The command [rc'] a proposal of [rc] is read back as, applied after those of [before]. *)
Lemma propose_applied w rc rc' (s s1 : Server) before e data res c :
  let id := wrapU 64 (raftNextReqID s + 1) in
  raftNode s = Some Leader -> accepted w = true -> 0 < id ->
  Marshal (set_ReqID id rc) = Ok data -> Unmarshal data = Ok rc' -> rc_ReqID rc' = id ->
  meanwhile w data = before ++ [(e, data)] -> Forall (foreign id) before -> apply_all before s ⇓ s1 ->
  apply_command e rc' (srv_cache s1) ⇓ (res, c) ->
  exists s', raftPropose w rc s ⇓ (Ok res, s') /\ srv_cache s' = c.
Proof.
  intros id Hn Hacc Hid Hm Hu Hrid Hmean Hfor Hb Happ. unfold raftPropose. rewrite Hn, decide_False by (intros H; by apply H).
  cbn [nextRaftReqID]. fold id. rewrite Hm, Hacc. cbn [negb]. set (s0 := with_pending _ _ _). rewrite Hmean, apply_all_app.
  destruct (apply_all_cache before s s0 s1 Hb eq_refl) as (t1 & Ht & Hc). rewrite Ht. cbn [mbind outcome_bind apply_all].
  destruct (apply_all_foreign id before s0 t1 Hfor Ht) as [Hp _]. specialize (Hp ltac:(cbn; set_solver)).
  unfold onRaftApply. rewrite Hu, Hc, Happ. cbn [mbind outcome_bind]. rewrite Hrid, Z.gtb_ltb, (proj2 (Z.ltb_lt _ _)) by done.
  unfold notifyRaftPending. rewrite (proj2 (Z.eqb_neq _ _)) by lia. rewrite decide_True by done. cbn. rewrite lookup_insert_eq. eauto.
Qed.

(** ** What JSON keeps of a command *)




(** ** Replicas *)

(** A command on a collection whose effect is the same wherever it is applied. *)
Definition deterministic_ops : list Z :=
  [CmdSAdd; CmdSRem; CmdHSet; CmdHSetNX; CmdHDel; CmdHMSet; CmdHIncrBy; CmdHIncrByFloat; CmdLPush; CmdRPush;
   CmdLPop; CmdRPop; CmdLSet; CmdLRem; CmdLTrim; CmdLInsert].

Definition replicable (command : bytes) : Prop :=
  match Unmarshal command with Ok rc => rc_Op rc ∈ deterministic_ops | Err _ => True end.

Lemma HIncrByFloat_alike key field delta c d :
  alike c d -> alike_out (HIncrByFloat (P := P) key field delta c) (HIncrByFloat key field delta d).
Proof.
  apply local_alike. intros s t (Hs & Hh & Hl). unfold ShardTyped.hIncrByFloat, in_hash. rewrite <-Hh.
  destruct (DHash.HIncrByFloat field delta _) as [r h]. split; [done|]. split; [|split].
  - split; [done|]. split; [cbn; by rewrite !lookup_insert_eq|done].
  - apply touches_hashes. intros k Hk. by rewrite lookup_insert_ne.
  - apply touches_hashes. intros k Hk. by rewrite lookup_insert_ne.
Qed.

Lemma alike_map {A B} (f : A -> B) (x y : outcome (A * Cache)) :
  alike_out x y -> alike_out ('(r, c) ← x; mret (f r, c)) ('(r, c) ← y; mret (f r, c)).
Proof. destruct x as [[a c]| |], y as [[b d]| |]; cbn; try done. by intros [-> ?]. Qed.

Lemma alike_returns {A} (x y : outcome (A * Cache)) :
  alike_out x y -> (exists r c, x ⇓ (r, c)) -> exists r c d, x ⇓ (r, c) /\ y ⇓ (r, d) /\ alike c d.
Proof.
  destruct x as [[a c]| |], y as [[b d]| |]; cbn; try done; intros H (r & c1 & Hx); try done.
  destruct H as [-> H]. exists b, c, d. split_and!; done.
Qed.

Lemma HIncrByFloat_returns key field delta c : placed c -> exists r c', HIncrByFloat (P := P) key field delta c ⇓ (r, c').
Proof.
  intros Hp. unfold HIncrByFloat, try_shard, checked, validateOpen. rewrite (pl_open c Hp). case_decide; [eauto|].
  destruct (pl_home c Hp key) as [s Hs]. rewrite (on_shard_home key _ c s Hs). cbn. destruct (ShardTyped.hIncrByFloat _ _ _ s). eauto.
Qed.

(** The operation of the cache a command stands for. *)
Lemma apply_as_ext rc :
  rc_Op rc ∈ deterministic_ops -> rc_Op rc <> CmdHIncrByFloat ->
  exists A (o : ext_op A) (f : result error A -> raftResult),
    no_rand o = true /\ forall e c, apply_command (P := P) e rc c = '(r, c) ← ext_step o c; mret (f r, c).
Proof.
  set (key := rc_Key rc). set (v := text_of (rc_Value rc)).
  assert (forall A (o : ext_op A) f, no_rand o = true ->
    (forall e c, apply_command (P := P) e rc c = '(r, c) ← ext_step o c; mret (f r, c)) ->
    exists A (o : ext_op A) (f : result error A -> raftResult),
      no_rand o = true /\ forall e c, apply_command (P := P) e rc c = '(r, c) ← ext_step o c; mret (f r, c)) as Hex by eauto.
  intros Hop Hne. unfold deterministic_ops in Hop. member Hop;
    [ apply (Hex _ (XSAdd key (rc_Elems rc)) RaftCmd.int_result) | apply (Hex _ (XSRem key (rc_Elems rc)) RaftCmd.int_result)
    | apply (Hex _ (XHSet key (rc_Field rc) v) RaftCmd.int_result) | apply (Hex _ (XHSetNX key (rc_Field rc) v) bool_result)
    | apply (Hex _ (XHDel key (rc_Fields rc)) RaftCmd.int_result) | apply (Hex _ (XHMSet key (rc_FvPairs rc)) unit_result)
    | apply (Hex _ (XHIncrBy key (rc_Field rc) (rc_DeltaI64 rc)) RaftCmd.int_result) | done
    | apply (Hex _ (XLPush key (rc_Elems rc)) RaftCmd.int_result) | apply (Hex _ (XRPush key (rc_Elems rc)) RaftCmd.int_result)
    | apply (Hex _ (XLPop key) str_result) | apply (Hex _ (XRPop key) str_result)
    | apply (Hex _ (XLSet key (rc_Index rc) v) unit_result) | apply (Hex _ (XLRem key (rc_Count rc) v) RaftCmd.int_result)
    | apply (Hex _ (XLTrim key (rc_Start rc) (rc_Stop rc)) unit_result)
    | apply (Hex _ (XLInsert key (rc_Before rc) (rc_Pivot rc) v) RaftCmd.int_result) ];
    try reflexivity; intros e c; unfold apply_command; rewrite Hop; pick; reflexivity.
Qed.

Lemma apply_alike e e' rc c d :
  rc_Op rc ∈ deterministic_ops -> alike c d ->
  exists res c' d', apply_command e rc c ⇓ (res, c') /\ apply_command e' rc d ⇓ (res, d') /\ alike c' d'.
Proof.
  intros Hop Hcd. pose proof Hcd as (Hp & _). apply alike_returns; destruct (decide (rc_Op rc = CmdHIncrByFloat)) as [Hfl|Hfl].
  - unfold apply_command. rewrite Hfl. pick. by apply alike_map, HIncrByFloat_alike.
  - destruct (apply_as_ext rc Hop Hfl) as (A & o & f & _ & Ho). rewrite !Ho. by apply alike_map, ext_step_alike.
  - unfold apply_command. rewrite Hfl. pick.
    destruct (HIncrByFloat_returns (rc_Key rc) (rc_Field rc) (rc_DeltaF64 rc) c Hp) as (r & c' & ->). cbn. eauto.
  - destruct (apply_as_ext rc Hop Hfl) as (A & o & f & Hno & Ho). rewrite Ho.
    destruct (ext_step_returns o c Hp Hno) as (r & c' & ->). cbn. eauto.
Qed.

Lemma apply_all_alike l l' (s t : Server) :
  l.*2 = l'.*2 -> Forall replicable (l.*2) -> alike (srv_cache s) (srv_cache t) ->
  exists s' t', apply_all l s ⇓ s' /\ apply_all l' t ⇓ t' /\ alike (srv_cache s') (srv_cache t').
Proof.
  revert l' s t. induction l as [|[e command] l IH]; intros [|[e' command'] l'] s t Heq Hrep Hal; try done; [by exists s, t|].
  cbn in Heq. injection Heq as <- Heq. apply Forall_cons in Hrep as [Hc Hrep]. unfold replicable in Hc. cbn [snd] in Hc.
  cbn [apply_all]. unfold onRaftApply. destruct (Unmarshal command) as [rc|err]; [|by apply IH].
  destruct (apply_alike e e' rc _ _ Hc Hal) as (res & c' & d' & -> & -> & Hal'). cbn.
  apply IH; [done|done|]. unfold notifyRaftPending. by repeat case_match.
Qed.

(** ** Blocking pops *)

(** What a blocking pop may do: attempts from number [i] on, until one succeeds or one
    fails after the deadline. *)
Inductive tries (q : request_env) (deadline : Z) (pop : Cache -> outcome (result error string * Cache)) :
    nat -> Cache -> result error string -> Cache -> Prop :=
| try_ok i c x c' : pop c ⇓ (Ok x, c') -> tries q deadline pop i c (Ok x) c'
| try_late i c e c' : pop c ⇓ (Err e, c') -> deadline < q_clock q (S i) -> tries q deadline pop i c (Err e) c'
| try_again i c e c1 r c' :
    pop c ⇓ (Err e, c1) -> q_clock q (S i) <= deadline -> tries q deadline pop (S i) (q_others q i c1) r c' ->
    tries q deadline pop i c r c'.

Lemma poll_ends (I : Cache -> Prop) (q : request_env) cmd deadline pop n fuel i c :
  (forall c, I c -> exists r c', pop c ⇓ (r, c') /\ I c') -> (forall i c, I c -> I (q_others q i c)) ->
  deadline < q_clock q (S n) -> (i <= n)%nat -> (n < i + fuel)%nat -> I c ->
  exists r c', tries q deadline pop i c r c' /\ I c' /\
    poll fuel q cmd deadline pop i c ⇓ (match r with Ok x => list_str cmd x | Err _ => list_missing cmd end, c').
Proof.
  intros Hpop Hoth Hlate. revert i c. induction fuel as [|fuel IH]; intros i c Hi Hf Hc; [lia|]. cbn [poll].
  destruct (Hpop c Hc) as (r & c1 & Hp & Hc1). rewrite Hp. cbn [mbind outcome_bind]. destruct r as [x|e].
  - exists (Ok x), c1. split_and!; try done. by apply try_ok.
  - destruct (Z.ltb_spec deadline (q_clock q (S i))) as [Hl|Hl].
    + exists (Err e), c1. split_and!; try done. by eapply try_late.
    + assert (i <> n) by (intros ->; lia).
      destruct (IH (S i) (q_others q i c1)) as (r & c' & Ht & Hc' & Hr); [lia|lia|by apply Hoth|].
      exists r, c'. split_and!; try done. by eapply try_again.
Qed.

(** The pop of a blocking command. *)
Definition pop_of (req : ListRequest) : Cache -> outcome (result error string * Cache) :=
  if lq_Cmd req =? CmdBLPop then LPop (lq_Key req) else RPop (lq_Key req).

Lemma pop_returns req c : placed c -> exists r c', pop_of req c ⇓ (r, c') /\ placed c'.
Proof.
  intros Hp. assert (forall o : ext_op string, no_rand o = true -> exists r c', ext_step o c ⇓ (r, c') /\ placed c') as Hstep.
  { intros o Ho. assert (alike c c) as Hcc by (split_and!; [done|done|]; intros k s t H1 H2; simplify_eq; done).
    destruct (ext_step_returns o c Hp Ho) as (r & c' & Hs). pose proof (ext_step_alike o c c Hcc) as Hal.
    rewrite Hs in Hal. exists r, c'. split; [done|apply Hal]. }
  unfold pop_of. destruct (_ =? _); [by apply (Hstep (XLPop _))|by apply (Hstep (XRPop _))].
Qed.

(** ** Properties *)


(** C16 (invariant): no request is left waiting.  Whatever bytes a connection sends and
    whatever the Raft node does, when the connection's loop returns, only requests of
    other connections wait for the Raft log. *)
Theorem no_request_left_waiting qs bs (s : Server) frames s' :
  handle_conn Quote qs bs s ⇓ (frames, s') -> raftPending s' ⊆ raftPending s.
Proof.
  revert bs s frames. induction qs as [|q qs IH]; intros bs s frames; cbn [handle_conn]; [by intros [= _ <-]|].
  destruct (DecodeFrame bs) as [[f|err] rest]; [|by intros [= _ <-]].
  destruct (handle_frame Quote q f s) as [[out s1]| |] eqn:Hf; cbn; try done.
  destruct (handle_conn Quote qs rest s1) as [[frames1 s2]| |] eqn:Hc; cbn; try done. intros [= _ <-].
  apply IH in Hc. enough (raftPending s1 ⊆ raftPending s) by set_solver. clear Hc. revert Hf.
  unfold handle_frame. destruct (negb _); [by intros [= _ <-]|]. destruct (val (Payload f)) as [|b p]; [by intros [= _ <-]|].
  destruct (decode_job _) as [[j|msg]| |]; cbn; try done; [|by intros [= _ <-]].
  rewrite processRequest_respond, respond_cases. destruct (raftNode (count_request s)); [destruct (isRaftWriteOp _)|].
  - case_decide; [by intros [= _ <-]|]. destruct (raftPropose _ _ _) as [[x s3]| |] eqn:Hp; cbn; try done.
    intros [= _ <-]. by apply raftPropose_pending in Hp as [? _].
  - destruct (direct q j _) as [[x c]| |]; cbn; try done. by intros [= _ <-].
  - destruct (direct q j _) as [[x c]| |]; cbn; try done. by intros [= _ <-].
Qed.

Lemma refuse_wf j msg :
  fits 2 msg ->
  match j with
  | KvJob _ => True
  | SetJob r => sq_Cmd r ∈ set_cmds
  | HashJob r => hq_Cmd r ∈ hash_cmds
  | ListJob r => lq_Cmd r ∈ list_cmds
  end -> wf_reply (refuse j msg).
Proof.
  destruct j; cbn [refuse]; intros Hm Hc.
  - by apply resp_wf.
  - by apply set_fail_wf.
  - apply hash_wf; eauto using fits_empty, fit_nil, in_int64_0, no_pairs, Forall_nil_2; done.
  - apply list_wf; eauto using fits_empty, fit_nil, in_int64_0, Forall_nil_2; done.
Qed.

(** What the client of a node that does not lead gets for a write. *)
Definition refused {A} (o : @remote_op float64 A) : error :=
  match o with
  | RKv _ => ErrNotLeader
  | RExt o => seen_error Quote (style_of o) (ErrMsg "not leader")
  | RHIncrByFloat _ _ _ => ErrMsg "not leader"
  end.

(** C18 (error): a node that does not lead refuses every replicated write and changes
    nothing.  Its client gets [ErrNotLeader] from the string methods, the message from
    those of hashes and lists, and only zero bytes from those of sets. *)
Theorem follower_refuses_writes {A} (o : remote_op A) (q : request_env) (s : Server) role :
  raftNode s = Some role -> role <> Leader -> isRaftWriteOp (call_cmd (remote_call o)) = true ->
  exists rep, respond Quote q (job_of (remote_call o)) s ⇓ (rep, s) /\ wf_reply rep /\
    read_reply (remote_call o) (norm_reply rep) = Err (refused o).
Proof.
  intros Hn Hrole Hw. exists (refuse (job_of (remote_call o)) "not leader").
  assert (job_cmd (job_of (remote_call o)) = call_cmd (remote_call o)) as Hcmd.
  { destruct o as [? o|? o|]; [destruct o|destruct o|]; reflexivity. }
  rewrite respond_cases, Hn, Hcmd, Hw, decide_True by done. split; [done|].
  split; [apply refuse_wf; [done|]|]; (destruct o as [? o|? o|]; [destruct o|destruct o|]);
    first [discriminate Hw | exact I | known_cmd | reflexivity].
Qed.

Context `{PL : !PolicyLaws P}.

(** C17 (termination): a blocking pop ends.  If reading [n + 1] of the clock is past the
    deadline, BLPop and BRPop return within [n + 1] attempts, whatever other
    connections do to the cache between them: with the element of the first attempt
    that finds one, or "not found" after the first attempt that ends late. *)
Theorem blocking_pop_ends (q : request_env) req c n :
  lq_Cmd req ∈ [CmdBLPop; CmdBRPop] -> 0 < lq_Timeout req -> placed c ->
  (forall i c, placed c -> placed (q_others q i c)) -> (n < q_fuel q)%nat ->
  q_clock q 0 + int64 (lq_Timeout req * 1000000) < q_clock q (S n) ->
  exists r c', tries q (q_clock q 0 + int64 (lq_Timeout req * 1000000)) (pop_of req) 0 c r c' /\ placed c' /\
    process_list Quote q req c ⇓
      (match r with Ok x => list_str (lq_Cmd req) x | Err _ => list_missing (lq_Cmd req) end, c').
Proof.
  intros Hcmd Ht Hp Hoth Hf Hlate.
  destruct (poll_ends placed q (lq_Cmd req) _ (pop_of req) n (q_fuel q) 0 c (pop_returns req) Hoth Hlate)
    as (r & c' & Htries & Hp' & Hpoll); [lia|lia|done|].
  exists r, c'. split_and!; [done|done|]. rewrite <-Hpoll. unfold process_list, blocking_pop.
  rewrite (proj2 (Z.gtb_lt _ _)) by lia. destruct req as [cmd key elems value index start stop count pivot before timeout rank maxLen].
  cbn [lq_Cmd lq_Key lq_Timeout] in *. unfold pop_of. cbn [lq_Cmd lq_Key]. member Hcmd; subst cmd; by pick.
Qed.

(** A replicated write on a string always reports success.  The result of
    the applied command, an error of [Set] or [Del] or the count of [Cleanup], is
    dropped; the client's [Cleanup] then fails on the empty value although the cache
    was cleaned. *)
Theorem raft_hides_results (q : request_env) req (s s1 : Server) before e data res c :
  let id := wrapU 64 (raftNextReqID s + 1) in
  isRaftWriteOp (Wire.Cmd req) = true -> raftNode s = Some Leader -> accepted (q_wait q) = true -> 0 < id ->
  Marshal (set_ReqID id (req_to_raft req)) = Ok data -> Unmarshal data = Ok (set_ReqID id (req_to_raft req)) ->
  meanwhile (q_wait q) data = before ++ [(e, data)] -> Forall (foreign id) before ->
  apply_all before s ⇓ s1 -> apply_command e (req_to_raft req) (srv_cache s1) ⇓ (res, c) ->
  (exists s', respond Quote q (KvJob req) s ⇓ (KvReply (resp_ok None), s') /\ srv_cache s' = c) /\
  read_reply (float64 := float64) cleanupCmd (norm_reply (KvReply (resp_ok None))) = Err ErrBadResponse.
Proof.
  intros id Hw Hn Hacc Hid Hm Hu Hmean Hfor Hb Happ. split; [|reflexivity].
  destruct (propose_applied (q_wait q) (req_to_raft req) _ s s1 before e data res c Hn Hacc Hid Hm Hu eq_refl Hmean Hfor Hb Happ)
    as (s' & Hp & Hc).
  exists s'. split; [|done]. rewrite respond_cases, Hn. cbn [job_cmd job_raft]. rewrite Hw, decide_False by (intros H; by apply H).
  by rewrite Hp.
Qed.

End ServerSpec.

(** ** Replicas that iterate over their maps in orders of their own *)

Section Replicas.
Context `{EP : EvictionPolicy P} `{FO : FloatOps float64} `{FB : FloatBits float64} `{JS : Json float64}.
Context `{PL : !PolicyLaws P}.
Notation Server := (Server P float64).

Lemma apply_order (m m' : MapIter) e (rc : RaftCommand float64) (c : Cache P) :
  rc_Op rc ∈ deterministic_ops -> apply_command (MI := m) e rc c = apply_command (MI := m') e rc c.
Proof.
  intros Hop. unfold deterministic_ops in Hop. member Hop; unfold apply_command; rewrite Hop; pick; reflexivity.
Qed.

Lemma apply_all_order (m m' : MapIter) l (s : Server) :
  Forall replicable (l.*2) -> apply_all (MI := m) l s = apply_all (MI := m') l s.
Proof.
  revert s. induction l as [|[e command] l IH]; intros s Hl; [done|]. cbn in Hl. apply Forall_cons in Hl as [Hc Hl].
  cbn [apply_all]. assert (onRaftApply (MI := m) e command s = onRaftApply (MI := m') e command s) as ->.
  { unfold onRaftApply. unfold replicable in Hc. destruct (Unmarshal command) as [rc|err]; [|done]. by rewrite (apply_order m m'). }
  destruct (onRaftApply _ _ s); cbn; [by apply IH|done|done].
Qed.

(** C15 (refinement): replicas agree.  Two nodes start with new caches, with any options
    and so any number of shards, and apply the same commands on sets, hashes and lists
    other than SPop, each with its own clock, its own waiting requests and its own map
    orders.  Both apply them all, and from then on both return from every run of
    collection operations without SPop and SRandMember, with the same results; the
    elements of SMembers, SUnion, SInter, SDiff, HKeys and HVals may come in different
    orders, since every call iterates over Go's maps in an order of its own. *)
Theorem replicas_agree policies o o' (s t : Server) (m m' : MapIter) l l' :
  registry_ok policies -> New policies rehash_registry o = Ok (srv_cache s) ->
  New policies rehash_registry o' = Ok (srv_cache t) -> l.*2 = l'.*2 -> Forall replicable (l.*2) ->
  exists s' t', apply_all (MI := m) l s ⇓ s' /\ apply_all (MI := m') l' t ⇓ t' /\
    forall (ord ord' : nat -> MapIter) ops, Forall (fun o => settled (projT2 o) = true) ops ->
      exists rs c' rs' d', ordered_run ord ops (srv_cache s') ⇓ (rs, c') /\
        ordered_run ord' ops (srv_cache t') ⇓ (rs', d') /\ same_results ops rs rs'.
Proof.
  intros Hreg Hs Ht Heq Hrep. apply (New_blank (MI := m)) in Hs, Ht; [|done|done].
  destruct (apply_all_alike (MI := m) l l' s t Heq Hrep (blank_alike _ _ Hs Ht)) as (s' & t' & Hls & Hlt & Hal).
  exists s', t'. split; [done|]. split; [by rewrite (apply_all_order m' m) by (by rewrite <-Heq)|].
  intros ord ord' ops Hops. destruct (ordered_run_alike ops ord ord' _ _ Hal Hops) as (rs & c' & rs' & d' & H1 & H2 & H3 & _).
  by exists rs, c', rs', d'.
Qed.

End Replicas.

(** ** Concrete runs *)

#[local] Existing Instance trie_order.
#[local] Existing Instance pattern_bits.
#[local] Existing Instance pattern_laws.
#[local] Existing Instance demo_floats.

Definition demo_sadd : SetRequest := mkSetRequest CmdSAdd "s" ["x"; "y"]%string 0 [].
Definition demo_cleanup : Request := mkRequest CmdCleanup EmptyString None 0.
Definition demo_push : RaftCommand pattern :=
  mkRC 7 CmdLPush "l" None 0 EmptyString [] [] 0 fzero ["a"%string] 0 0 0 0 EmptyString false.

(** A serialisation of three commands. *)
#[local] Instance demo_raft_json : Json pattern := {|
  Marshal rc :=
    if rc_Op rc =? CmdSAdd then Ok [x00] else if rc_Op rc =? CmdCleanup then Ok [x01]
    else if rc_Op rc =? CmdLPush then Ok [x02] else Err ErrInvalidCommand;
  Unmarshal data :=
    match data with
    | [x00] => Ok (set_ReqID 1 (setReqToRaft demo_sadd))
    | [x01] => Ok (set_ReqID 1 (req_to_raft demo_cleanup))
    | [x02] => Ok demo_push
    | _ => Err ErrInvalidCommand
    end |}.

Definition demo_env : env := q_env demo_request_env.

(** The node applies a push of another client, then the command proposed. *)
Definition demo_leader_env : @request_env Policies.policy :=
  mkReqEnv demo_env (mkWait true (fun data => [(demo_env, [x02]); (demo_env, data)])) [] [] (Ok []) (fun i => Z.of_nat i * 1000000)
    (fun _ c => c) 4.
Definition demo_node (role : State) : Server Policies.policy pattern := mkServer (demo_cache 2 0) (Some role) ∅ ∅ 0 0.

Lemma demo_foreign : Forall (foreign (JS := demo_raft_json) 1) [(demo_env, [x02])].
Proof. repeat constructor. discriminate. Qed.

Definition is_ret {A} (o : outcome A) : bool := match o with Ret _ => true | _ => false end.



Definition demo_before : Server Policies.policy pattern :=
  match apply_all (JS := demo_raft_json) [(demo_env, [x02])] (demo_node Leader) with Ret s => s | _ => demo_node Leader end.

Lemma demo_before_eq : apply_all (JS := demo_raft_json) [(demo_env, [x02])] (demo_node Leader) ⇓ demo_before.
Proof.
  unfold demo_before. destruct (apply_all _ _) eqn:H; [done|exfalso..];
    (assert (is_ret (apply_all (JS := demo_raft_json) [(demo_env, [x02])] (demo_node Leader)) = true) as Hr by (vm_compute; reflexivity));
    by rewrite H in Hr.
Qed.


Lemma is_ret_some {A} (o : outcome A) : is_ret o = true -> exists a, o ⇓ a.
Proof. destruct o; try done. eauto. Qed.

Definition demo_stream : bytes := Encode [] (mkFrame 1 FrameTypeRequest 0 (EncodeSetRequest demo_sadd)).

Lemma no_request_left_waiting_witness :
  exists frames s', handle_conn (JS := demo_raft_json) (fun s => s) [demo_leader_env] demo_stream (demo_node Leader) ⇓ (frames, s') /\
    raftPending s' ⊆ ∅.
Proof.
  destruct (is_ret_some (handle_conn (JS := demo_raft_json) (fun s => s) [demo_leader_env] demo_stream (demo_node Leader))
    ltac:(vm_compute; reflexivity)) as [[frames s'] H].
  exists frames, s'. split; [exact H|].
  apply (no_request_left_waiting (JS := demo_raft_json) (fun s => s) [demo_leader_env] demo_stream (demo_node Leader) frames s' H).
Defined.

Lemma follower_refuses_writes_witness :
  exists rep, respond (JS := demo_raft_json) (fun s => s) demo_leader_env (job_of (remote_call (RExt (XSAdd "s" ["x"%string]))))
    (demo_node Follower) ⇓ (rep, demo_node Follower).
Proof.
  destruct (follower_refuses_writes (JS := demo_raft_json) (fun s => s) (RExt (XSAdd "s" ["x"%string])) demo_leader_env
    (demo_node Follower) Follower) as (rep & H & _); [reflexivity|discriminate|reflexivity|].
  exists rep. exact H.
Defined.

Definition demo_other_node : Server Policies.policy pattern := mkServer (demo_cache 4 64) (Some Follower) ∅ ∅ 0 0.
Definition demo_log (e : env) : list (env * bytes) := [(e, [x02]); (e, [x00]); (e, [xff])].

Lemma replicas_agree_witness :
  exists s' t', apply_all (MI := trie_order) (JS := demo_raft_json) (demo_log demo_env) (demo_node Leader) ⇓ s' /\
    apply_all (MI := reverse_order) (JS := demo_raft_json) (demo_log (mkEnv 9 1 [] (fun _ => 1%nat) (fun _ _ => false))) demo_other_node ⇓ t' /\
    exists rs c' rs' d', ordered_run (fun _ => trie_order) [existT _ (XSMembers "s")] (srv_cache s') ⇓ (rs, c') /\
      ordered_run (fun _ => reverse_order) [existT _ (XSMembers "s")] (srv_cache t') ⇓ (rs', d') /\
      same_results [existT _ (XSMembers "s")] rs rs'.
Proof.
  destruct (replicas_agree (JS := demo_raft_json) policyRegistry (demo_options 2 0) (demo_options 4 64) (demo_node Leader)
    demo_other_node trie_order reverse_order (demo_log demo_env) (demo_log (mkEnv 9 1 [] (fun _ => 1%nat) (fun _ _ => false))))
    as (s' & t' & Hs & Ht & Hall); [apply policyRegistry_ok|apply demo_new|apply demo_new_four|reflexivity| |].
  - repeat constructor; apply (bool_decide_unpack _); vm_compute; exact I.
  - exists s', t'. split; [exact Hs|]. split; [exact Ht|]. apply Hall. repeat constructor.
Defined.

Definition demo_blpop : ListRequest := mkListRequest CmdBLPop "l" [] EmptyString 0 0 0 0 EmptyString false 1 0 0.

Lemma blocking_pop_ends_witness :
  exists r c', process_list (fun s => s) demo_leader_env demo_blpop (demo_cache 2 0) ⇓ (r, c').
Proof.
  destruct (blocking_pop_ends (fun s => s) demo_leader_env demo_blpop (demo_cache 2 0) 1) as (r & c' & _ & _ & H);
    [apply list_elem_of_here|reflexivity|eapply blank_placed, New_blank; [apply policyRegistry_ok|apply demo_new]
    |intros i c Hc; exact Hc|cbn; lia|reflexivity|].
  exact (ex_intro _ _ (ex_intro _ c' H)).
Defined.

Lemma raft_hides_results_witness :
  exists s', respond (JS := demo_raft_json) (fun s => s) demo_leader_env (KvJob demo_cleanup) (demo_node Leader)
    ⇓ (KvReply (resp_ok None), s').
Proof.
  assert (is_ret (apply_command demo_env (req_to_raft demo_cleanup) (srv_cache demo_before)) = true) as Hr by (vm_compute; reflexivity).
  destruct (is_ret_some _ Hr) as [[res c] Hc].
  destruct (raft_hides_results (JS := demo_raft_json) (fun s => s) demo_leader_env demo_cleanup (demo_node Leader) demo_before
    [(demo_env, [x02])] demo_env [x01] res c) as [(s' & H & _) _];
    [reflexivity|reflexivity|reflexivity|reflexivity|reflexivity|reflexivity|reflexivity|apply demo_foreign|apply demo_before_eq|exact Hc|].
  exists s'. exact H.
Defined.
