(* ===== verification/Pipeline.v ===== *)
(** * Pipelines (net/pipeline.go) and the pool of buffers (net/protocol.go)

    A pipeline collects requests on one connection, writes them at once and reads the
    responses.  The payloads live in buffers that come from a pool and go back to it;
    here buffers have names, so that two requests can share one.  Which buffer the
    pool hands out is an argument. *)

From Stdlib Require Import Strings.Byte Strings.String.
From stdpp Require Import base tactics numbers list gmap sets fin_maps strings.
From S2P Require Import Prelude.
From S2P Require Import Bytes.
From S2P Require Import Wire.
From S2P Require Import WireSet.
From S2P Require Import WireExt.
From S2P Require Import RaftCmd.
From S2P Require Import Server.
From S2P Require Import Client.
From S2P Require Import WireExtSpec.
From S2P Require Import Network.

Open Scope Z_scope.

#[local] Opaque be.

(** ** The pool *)

(** The contents of every buffer, as long as its capacity, the names in the pool and
    the next name. *)
Record buffers : Type := mkBuffers { heap : gmap nat bytes; pool : list nat; next_buf : nat }.

Definition contents (bs : buffers) (b : nat) : bytes := default [] (heap bs !! b).

(** [make([]byte, n)]. *)
Definition alloc (n : nat) (bs : buffers) : nat * buffers :=
  let b := next_buf bs in (b, mkBuffers (<[b := replicate n x00]> (heap bs)) (pool bs) (S b)).

Definition with_pool (l : list nat) (bs : buffers) : buffers := mkBuffers (heap bs) l (next_buf bs).

(** [bufPool.Get()]: an element of the pool, or a new buffer of 256 bytes. *)
Definition pool_get (pick : option nat) (bs : buffers) : nat * buffers :=
  match pick with
  | Some i =>
      match pool bs !! i with
      | Some b => (b, with_pool (delete i (pool bs)) bs)
      | None => alloc 256 bs
      end
  | None => alloc 256 bs
  end.

Definition get_buf (pick : option nat) (size : nat) (bs : buffers) : nat * buffers :=
  if (4096 <? size)%nat then alloc size bs
  else
    let '(b, bs) := pool_get pick bs in
    if (size <=? length (contents bs b))%nat then (b, bs)
    else alloc size (with_pool (pool bs ++ [b]) bs).

Definition putBuf (b : nat) (bs : buffers) : buffers :=
  if (length (contents bs b) <=? 4096)%nat then with_pool (pool bs ++ [b]) bs else bs.

(** A slice of a buffer from its start: [buf[:n]]. *)
Notation buf_slice := (nat * nat)%type.

Definition read_slice (bs : buffers) (p : buf_slice) : bytes := take p.2 (contents bs p.1).

(** [req.EncodePayload()], into a buffer of the pool. *)
Definition EncodePayload (pick : option nat) (req : Request) (bs : buffers) : buf_slice * buffers :=
  let size := length (EncodeRequest [] req) in
  let '(b, bs) := get_buf pick size bs in
  let old := contents bs b in
  ((b, size), mkBuffers (<[b := EncodeRequest old req ++ drop size old]> (heap bs)) (pool bs) (next_buf bs)).

Section Pipelines.
Context `{FB : FloatBits float64}.
Notation clientConn := (clientConn float64).

(** ** Pipelines *)

(** A frame is its stream number and its payload; the channels are those of the
    connection under the stream numbers. *)
Record Pipeline : Type := mkPipeline {
  frames : list (Z * buf_slice);
  payloads : list buf_slice;
  ids : list Z;
  written : bool;
  writeErr : option error;
}.

Definition NewPipeline : Pipeline := mkPipeline [] [] [] false None.

Definition ErrPipelineClosed : error := ErrMsg "pipeline: already flushed, must reset before reuse".
Definition ErrPipelineNotFlushed : error := ErrMsg "pipeline: must flush before reading responses".

(** The connection, the pool and the pipeline. *)
Record world : Type := mkWorld { w_conn : clientConn; w_bufs : buffers; w_pipe : Pipeline }.

Definition set_pending (m : gmap Z (option Response)) (cc : clientConn) : clientConn :=
  with_maps m (pendingSetMap cc) (pendingHashMap cc) (pendingListMap cc) cc.

Definition Add (pick : option nat) (req : Request) (w : world) : result error unit * world :=
  let '(mkWorld cc bs p) := w in
  if written p then (Err ErrPipelineClosed, w)
  else if cc_closed cc then (Err ErrConnClosed, w)
  else
    let id := next_stream (nextStreamID cc) in
    let cc := mkConn id (cc_closed cc) (<[id := None]> (pendingMap cc)) (pendingSetMap cc) (pendingHashMap cc) (pendingListMap cc) in
    let '(payload, bs) := EncodePayload pick req bs in
    (Ok tt, mkWorld cc bs
       (mkPipeline (frames p ++ [(id, payload)]) (payloads p ++ [payload]) (ids p ++ [id]) (written p) (writeErr p))).

(** Gives back the payloads of the frames and forgets the requests. *)
Definition cleanup (w : world) : world :=
  let '(mkWorld cc bs p) := w in
  mkWorld (set_pending (foldl (fun m id => delete id m) (pendingMap cc) (ids p)) cc)
    (foldl (fun bs f => putBuf f.2.1 bs) bs (frames p)) p.

(** [for _, frame := range p.frames { frame.Encode(...) }]: the bytes written and the
    error of the first write that fails; [fail i] is the error of write [i]. *)
Fixpoint write_frames (stale : bytes) (fail : nat -> option error) (i : nat) (bs : buffers) (fs : list (Z * buf_slice)) :
    bytes * option error :=
  match fs with
  | [] => ([], None)
  | (id, payload) :: fs =>
      match fail i with
      | Some e => ([], Some e)
      | None =>
          let '(out, e) := write_frames stale fail (S i) bs fs in
          (Encode stale (mkFrame id FrameTypeRequest 0 (Some (read_slice bs payload))) ++ out, e)
      end
  end.

(** The error, the bytes written and what is left. *)
Definition FlushWrite (stale : bytes) (fail : nat -> option error) (w : world) : (option error * bytes) * world :=
  let '(mkWorld cc bs p) := w in
  if written p then ((writeErr p, []), w)
  else
    let p := mkPipeline (frames p) (payloads p) (ids p) true (writeErr p) in
    if cc_closed cc then ((Some ErrConnClosed, []), cleanup (mkWorld cc bs p))
    else if decide (frames p = []) then ((None, []), mkWorld cc bs p)
    else
      match write_frames stale fail 0 bs (frames p) with
      | (out, Some e) =>
          ((Some e, out), cleanup (mkWorld (markBad cc) bs (mkPipeline (frames p) (payloads p) (ids p) true (Some e))))
      | (out, None) =>
          ((None, out), mkWorld cc (foldl (fun bs s => putBuf s.1 bs) bs (payloads p))
                          (mkPipeline (frames p) [] (ids p) true (writeErr p)))
      end.

Definition timed_out : Response := mkResponse StatusErr None "pipeline read timeout".

(** The loops over the channels.  [deadline]: whether there is one, and whether it has
    passed before response [i] is awaited.  Without a deadline an empty channel blocks. *)
Fixpoint await (deadline : option (nat -> bool)) (i : nat) (m : gmap Z (option Response)) (l : list Z) :
    outcome (list Response * option error) :=
  match l with
  | [] => Ret ([], None)
  | id :: l' =>
      let late := ((fun _ => timed_out) <$> l, Some ErrReadTimeout) in
      let next resp := '(rs, e) ← await deadline (S i) m l'; mret (resp :: rs, e) in
      match deadline, m !! id with
      | Some passed, Some (Some resp) => if passed i : bool then Ret late else next resp
      | Some passed, _ => Ret late
      | None, Some (Some resp) => next resp
      | None, _ => NoFuel
      end
  end.

Definition ReadResponses (deadline : option (nat -> bool)) (w : world) :
    outcome (result error (list Response * option error) * world) :=
  if negb (written (w_pipe w)) then Ret (Err ErrPipelineNotFlushed, w)
  else
    r ← await deadline 0 (pendingMap (w_conn w)) (ids (w_pipe w));
    mret (Ok r, cleanup w).

Fixpoint add_all (reqs : list (option nat * Request)) (w : world) : result error unit * world :=
  match reqs with
  | [] => (Ok tt, w)
  | (pick, req) :: reqs =>
      match Add pick req w with
      | (Err e, w) => (Err e, w)
      | (Ok _, w) => add_all reqs w
      end
  end.

(** [meanwhile] is what the read loop does to the connection before the responses are awaited. *)
Definition DoBatch (stale : bytes) (fail : nat -> option error) (deadline : option (nat -> bool))
    (meanwhile : bytes -> clientConn -> clientConn) (reqs : list (option nat * Request)) (w : world) :
    outcome (result error (list Response * option error) * world) :=
  match add_all reqs w with
  | (Err e, w) => Ret (Err e, w)
  | (Ok _, w) =>
      match FlushWrite stale fail w with
      | ((Some e, _), w) => Ret (Err e, w)
      | ((None, out), w) =>
          ReadResponses deadline (mkWorld (meanwhile out (w_conn w)) (w_bufs w) (w_pipe w))
      end
  end.

Definition Len (p : Pipeline) : nat := length (frames p).

Definition Reset (w : world) : world :=
  let w := if written (w_pipe w) then w else cleanup w in
  mkWorld (w_conn w) (w_bufs w) NewPipeline.

(** ** Buffers that are not shared *)

(** The buffers in use and those of the pool are all different, and older than the next. *)
Definition distinct (used : list nat) (bs : buffers) : Prop :=
  NoDup (used ++ pool bs) /\ Forall (fun b => b < next_buf bs)%nat (used ++ pool bs).

Lemma distinct_nin used bs b : distinct used bs -> b = next_buf bs -> b ∉ used ++ pool bs.
Proof. intros [_ Hf] -> Hb. rewrite Forall_forall in Hf. specialize (Hf _ Hb). lia. Qed.

(** What handing out buffer [b] may change. *)
Definition handed (used : list nat) (bs : buffers) (b : nat) (bs' : buffers) : Prop :=
  distinct (used ++ [b]) bs' /\ (forall u, u ∈ used ++ pool bs -> contents bs' u = contents bs u) /\
  pool bs ⊆ b :: pool bs'.

Lemma distinct_snoc used b bs :
  NoDup (b :: used ++ pool bs) -> Forall (fun b => b < next_buf bs)%nat (b :: used ++ pool bs) -> distinct (used ++ [b]) bs.
Proof.
  intros Hn Hf. assert ((used ++ [b]) ++ pool bs ≡ₚ b :: used ++ pool bs) as Hp.
  { rewrite <-(assoc_L (++)). cbn. symmetry. apply Permutation_middle. }
  split; by rewrite Hp.
Qed.

Lemma alloc_handed used n bs b bs' : distinct used bs -> alloc n bs = (b, bs') -> handed used bs b bs' /\ contents bs' b = replicate n x00.
Proof.
  intros Hd [= <- <-]. pose proof (distinct_nin used bs _ Hd eq_refl) as Hni. destruct Hd as [Hn Hf]. unfold contents. cbn.
  rewrite lookup_insert_eq. split; [|done]. split; [|split].
  - apply distinct_snoc; cbn; [by constructor|]. constructor; [lia|]. eapply Forall_impl; [exact Hf|]. cbn. lia.
  - intros u Hu. unfold contents. cbn. rewrite lookup_insert_ne; [done|]. by intros <-.
  - cbn. set_solver.
Qed.

Lemma pool_get_handed used pick bs b bs' : distinct used bs -> pool_get pick bs = (b, bs') -> handed used bs b bs'.
Proof.
  intros Hd. unfold pool_get. destruct pick as [i|]; [|intros H; by apply (alloc_handed used) in H as [? _]].
  destruct (pool bs !! i) as [b'|] eqn:Hi; [|intros H; by apply (alloc_handed used) in H as [? _]].
  intros [= <- <-]. pose proof (delete_Permutation (pool bs) i b' Hi) as Hdel. split; [|split; [done|]].
  2:{ cbn. intros u Hu. by rewrite Hdel in Hu. }
  destruct Hd as [Hn Hf]. assert (used ++ pool bs ≡ₚ b' :: used ++ delete i (pool bs)) as Hp.
  { rewrite Hdel at 1. symmetry. apply Permutation_middle. }
  rewrite Hp in Hn, Hf. by apply distinct_snoc.
Qed.

Lemma get_buf_handed used pick size bs b bs' :
  distinct used bs -> get_buf pick size bs = (b, bs') -> handed used bs b bs' /\ (size <= length (contents bs' b))%nat.
Proof.
  intros Hd. unfold get_buf. destruct (Nat.ltb_spec 4096 size) as [Hbig|Hsmall].
  { intros H. apply (alloc_handed used) in H as [? Hc]; [|done]. rewrite Hc, length_replicate. auto. }
  destruct (pool_get pick bs) as [b0 bs0] eqn:Hg. pose proof (pool_get_handed used _ _ _ _ Hd Hg) as (Hd0 & Hc0 & Hs0).
  destruct (Nat.leb_spec size (length (contents bs0 b0))) as [Hfit|Hnot]; [by intros [= <- <-]|].
  intros H. assert (distinct used (with_pool (pool bs0 ++ [b0]) bs0)) as Hd1.
  { destruct Hd0 as [Hn Hf]. assert ((used ++ [b0]) ++ pool bs0 ≡ₚ used ++ pool bs0 ++ [b0]) as Hp
      by (rewrite <-(assoc_L (++)); apply Permutation_app_head; cbn; symmetry; by rewrite Permutation_app_comm).
    rewrite Hp in Hn, Hf. by split. }
  apply (alloc_handed used) in H as [(Hd2 & Hc2 & Hs2) Hc]; [|done]. cbn in Hc2, Hs2.
  rewrite Hc, length_replicate. split; [|done]. split; [done|]. split.
  - intros u Hu. rewrite <-Hc0 by done. apply Hc2. set_solver.
  - set_solver.
Qed.

(** ** The requests of a pipeline are in their buffers *)

Definition bufs_of (fs : list (Z * buf_slice)) : list nat := (fun f => f.2.1) <$> fs.

Record good (bs : buffers) (fs : list (Z * buf_slice)) (rs : list Request) : Prop := {
  good_distinct : distinct (bufs_of fs) bs;
  good_read : Forall2 (fun f r => read_slice bs f.2 = EncodeRequest [] r) fs rs;
}.

Lemma EncodeRequest_any stale req : EncodeRequest stale req = EncodeRequest [] req.
Proof. by rewrite !EncodeRequest_layout. Qed.

Lemma EncodePayload_good pick r bs fs rs id payload bs' :
  good bs fs rs -> EncodePayload pick r bs = (payload, bs') -> good bs' (fs ++ [(id, payload)]) (rs ++ [r]).
Proof.
  intros [Hd Hr]. unfold EncodePayload. destruct (get_buf _ _ _) as [b bs1] eqn:Hg. intros [= <- <-].
  destruct (get_buf_handed _ _ _ _ _ _ Hd Hg) as [(Hd1 & Hc & _) Hlen]. set (bs2 := mkBuffers _ _ _).
  assert (bufs_of (fs ++ [(id, (b, length (EncodeRequest [] r)))]) = bufs_of fs ++ [b]) as Hb by (unfold bufs_of; by rewrite fmap_app).
  split; [rewrite Hb; exact Hd1|]. apply Forall2_app.
  - apply Forall2_same_length_lookup. apply Forall2_same_length_lookup in Hr as [Hl Hr]. split; [done|].
    intros i f q Hf Hq. rewrite <-(Hr i f q Hf Hq). unfold read_slice.
    assert (f.2.1 ∈ bufs_of fs) as Hin by (apply list_elem_of_fmap; exists f; split; [done|by eapply list_elem_of_lookup_2]).
    rewrite <-(Hc f.2.1) by set_solver. unfold contents, bs2. cbn. rewrite lookup_insert_ne; [done|]. intros Heq.
    destruct Hd1 as [Hn _]. rewrite <-(assoc_L (++)) in Hn. apply NoDup_app in Hn as (_ & Hn & _). apply (Hn f.2.1); [done|].
    rewrite <-Heq. cbn. set_solver.
  - constructor; [|done]. unfold read_slice, contents, bs2. cbn [fst snd heap]. rewrite lookup_insert_eq. cbn [default].
    set (old := default [] (heap bs1 !! b)). rewrite (EncodeRequest_any old). apply take_app_length.
Qed.

(** ** Adding and writing *)

Lemma add_all_good reqs (w : world) rs :
  cc_closed (w_conn w) = false -> written (w_pipe w) = false -> good (w_bufs w) (frames (w_pipe w)) rs ->
  let new := stream_ids (length reqs) (nextStreamID (w_conn w)) in
  exists w', add_all reqs w = (Ok tt, w') /\ cc_closed (w_conn w') = false /\ written (w_pipe w') = false /\
    writeErr (w_pipe w') = writeErr (w_pipe w) /\
    good (w_bufs w') (frames (w_pipe w')) (rs ++ reqs.*2) /\
    (frames (w_pipe w')).*1 = (frames (w_pipe w)).*1 ++ new /\ ids (w_pipe w') = ids (w_pipe w) ++ new.
Proof.
  revert w rs. induction reqs as [|[pick r] reqs IH]; intros w rs Hcl Hwr Hg; cbn [add_all length stream_ids].
  { exists w. cbn. rewrite !app_nil_r. split_and!; done. }
  destruct w as [cc bs p]. cbn [w_conn w_bufs w_pipe] in *. unfold Add. rewrite Hwr, Hcl.
  set (id := next_stream (nextStreamID cc)). destruct (EncodePayload pick r bs) as [payload bs'] eqn:He.
  pose proof (EncodePayload_good pick r bs (frames p) rs id payload bs' Hg He) as Hg'.
  match goal with |- context [add_all reqs ?w1] => destruct (IH w1 (rs ++ [r])) as (w' & H1 & H2 & H3 & H4 & H5 & H6 & H7); [done|done|exact Hg'|] end.
  cbn [w_conn w_pipe nextStreamID frames ids] in *. exists w'. rewrite fmap_app in H6.
  split_and!; try done.
  - by rewrite <-(assoc_L (++)) in H5.
  - rewrite H6, <-(assoc_L (++)). done.
  - rewrite H7, <-(assoc_L (++)). done.
Qed.

(** The frame of a request. *)
Definition kv_frame (stale : bytes) (id : Z) (req : Request) : bytes :=
  Encode stale (mkFrame id FrameTypeRequest 0 (Some (EncodeRequest [] req))).

Lemma write_frames_good stale bs fs rs i :
  Forall2 (fun f r => read_slice bs f.2 = EncodeRequest [] r) fs rs ->
  write_frames stale (fun _ => None) i bs fs = (concat (zip_with (kv_frame stale) (fs.*1) rs), None).
Proof.
  intros H. revert i. induction H as [|[id payload] r fs rs Hr _ IH]; intros i; [done|].
  cbn [write_frames]. rewrite IH. rewrite fmap_cons. cbn [zip_with concat]. cbn in Hr. by rewrite Hr.
Qed.

Lemma await_all deadline i m l resps :
  Forall2 (fun id resp => m !! id = Some (Some resp)) l resps ->
  (forall passed, deadline = Some passed -> forall j, passed j = false) -> await deadline i m l ⇓ (resps, None).
Proof.
  intros H Hdl. revert i. induction H as [|id resp l resps Hm _ IH]; intros i; [done|]. cbn [await]. rewrite Hm.
  destruct deadline as [passed|]; [rewrite (Hdl passed eq_refl)|]; rewrite IH; done.
Qed.

(** C38 (functional): a batch.  Requests are added to a new pipeline on an open
    connection, whichever buffers the pool hands out, as long as no two owners share
    one.  Then one flush writes the frames of the requests, in order and under new
    stream numbers; and when the channels of these numbers hold responses and the
    deadline has not passed, they are returned in the order of the requests. *)
Theorem pipeline_batch stale reqs cc bs :
  cc_closed cc = false -> distinct [] bs -> reqs <> [] ->
  let ids := stream_ids (length reqs) (nextStreamID cc) in
  exists w1 w2,
    add_all reqs (mkWorld cc bs NewPipeline) = (Ok tt, w1) /\
    FlushWrite stale (fun _ => None) w1 = ((None, concat (zip_with (kv_frame stale) ids (reqs.*2))), w2) /\
    forall cc' resps deadline,
      Forall2 (fun id resp => pendingMap cc' !! id = Some (Some resp)) ids resps ->
      (forall passed, deadline = Some passed -> forall j, passed j = false) ->
      exists w3, ReadResponses deadline (mkWorld cc' (w_bufs w2) (w_pipe w2)) ⇓ (Ok (resps, None), w3).
Proof.
  intros Hcl Hd Hne ids0. destruct (add_all_good reqs (mkWorld cc bs NewPipeline) []) as (w1 & H1 & H2 & H3 & H4 & H5 & H6 & H7); [done|done|by split|].
  cbn in H6, H7. destruct w1 as [cc1 bs1 p1]. cbn [w_conn w_pipe w_bufs] in *. eexists _, _. split; [exact H1|].
  unfold FlushWrite. rewrite H3, H2. cbn [frames payloads ids writeErr]. rewrite decide_False.
  2:{ intros Hnil. rewrite Hnil in H6. by destruct reqs. }
  rewrite (write_frames_good stale bs1 (frames p1) (reqs.*2) 0 (good_read _ _ _ H5)), H6. split; [done|].
  intros cc' resps deadline Hm Hdl. unfold ReadResponses. cbn [w_pipe w_conn written negb ids].
  rewrite H7. subst ids0. rewrite (await_all deadline 0 _ _ resps Hm Hdl). cbn. eauto.
Qed.

(** ** Buffers given back twice *)

Definition size_of (r : Request) : nat := length (EncodeRequest [] r).

(** One buffer of 256 bytes and [n] entries for it in the pool. *)
Definition one_buffer (c : bytes) (n : nat) : buffers := mkBuffers {[0%nat := c]} (replicate n 0%nat) 1.

Lemma contents_one c n : contents (one_buffer c n) 0 = c.
Proof. unfold contents, one_buffer. cbn. by rewrite lookup_singleton_eq. Qed.

Definition overwrite (r : Request) (c : bytes) : bytes := EncodeRequest [] r ++ drop (size_of r) c.

Lemma length_overwrite r c : length c = 256%nat -> (size_of r <= 256)%nat -> length (overwrite r c) = 256%nat.
Proof. unfold overwrite, size_of. intros Hc Hs. rewrite length_app, length_drop. lia. Qed.

Lemma EncodePayload_from pick r bs b bs1 :
  pool_get pick bs = (b, bs1) -> (size_of r <= 256)%nat -> length (contents bs1 b) = 256%nat ->
  EncodePayload pick r bs =
    ((b, size_of r), mkBuffers (<[b := overwrite r (contents bs1 b)]> (heap bs1)) (pool bs1) (next_buf bs1)).
Proof.
  intros Hg Hs Hl. unfold EncodePayload, get_buf. fold (size_of r). rewrite (proj2 (Nat.ltb_ge _ _)) by lia.
  rewrite Hg, (proj2 (Nat.leb_le _ _)) by lia. by rewrite (EncodeRequest_any (contents bs1 b)).
Qed.

Lemma EncodePayload_first r : (size_of r <= 256)%nat ->
  EncodePayload None r (mkBuffers ∅ [] 0) = ((0%nat, size_of r), one_buffer (overwrite r (replicate 256 x00)) 0).
Proof.
  intros Hs. rewrite (EncodePayload_from None r _ 0 (one_buffer (replicate 256 x00) 0)); [|done|done|].
  - rewrite contents_one. unfold one_buffer. cbn [heap pool next_buf]. by rewrite insert_singleton_eq.
  - by rewrite contents_one, length_replicate.
Qed.

Lemma EncodePayload_again r c n : (size_of r <= 256)%nat -> length c = 256%nat ->
  EncodePayload (Some 0%nat) r (one_buffer c (S n)) = ((0%nat, size_of r), one_buffer (overwrite r c) n).
Proof.
  intros Hs Hc. rewrite (EncodePayload_from _ r _ 0 (one_buffer c n)); [|done|done|by rewrite contents_one].
  rewrite contents_one. unfold one_buffer. cbn [heap pool next_buf]. by rewrite insert_singleton_eq.
Qed.

Lemma putBuf_one c n : length c = 256%nat -> putBuf 0 (one_buffer c n) = one_buffer c (S n).
Proof.
  intros Hc. unfold putBuf. rewrite contents_one, (proj2 (Nat.leb_le _ _)) by lia. unfold with_pool, one_buffer. cbn [pool heap next_buf].
  f_equal. symmetry. apply replicate_cons_app.
Qed.

Lemma read_overwritten r r' c n : size_of r = size_of r' ->
  read_slice (one_buffer (overwrite r' c) n) (0%nat, size_of r) = EncodeRequest [] r'.
Proof. intros Hs. unfold read_slice. cbn [fst snd]. rewrite contents_one, Hs. apply take_app_length. Qed.

(** A batch of one request leaves its buffer in the pool twice. *)
Lemma batch_of_one stale r0 resp cc :
  let id1 := next_stream (nextStreamID cc) in
  let answered := fun (_ : bytes) (cc : clientConn) => set_pending (<[id1 := Some resp]> (pendingMap cc)) cc in
  cc_closed cc = false -> (size_of r0 <= 256)%nat ->
  exists cc1 c,
    DoBatch stale (fun _ => None) None answered [(None, r0)] (mkWorld cc (mkBuffers ∅ [] 0) NewPipeline) ⇓
      (Ok ([resp], None), mkWorld cc1 (one_buffer c 2) (mkPipeline [(id1, (0%nat, size_of r0))] [] [id1] true None)) /\
    cc_closed cc1 = false /\ nextStreamID cc1 = id1 /\ length c = 256%nat.
Proof.
  intros id1 answered Hcl H0.
  pose proof (length_overwrite r0 (replicate 256 x00) (length_replicate _ _) H0) as L0. set (c0 := overwrite r0 _) in *.
  eexists _, c0. split; [|split; [|split; [|exact L0]]].
  - unfold DoBatch, NewPipeline. cbn [add_all Add written]. rewrite Hcl, EncodePayload_first by done. fold c0 id1.
    cbn [app frames payloads ids writeErr]. unfold FlushWrite. cbn [written cc_closed frames payloads ids writeErr].
    rewrite decide_False by done. cbn [write_frames foldl fst]. rewrite putBuf_one by done.
    unfold ReadResponses, answered. cbn -[putBuf one_buffer Encode]. rewrite lookup_insert_eq. cbn -[putBuf one_buffer Encode].
    rewrite putBuf_one by done. done.
  - done.
  - done.
Qed.

(** A pipeline gives its buffers back twice, after the write and again
    with the responses, and later requests share them.  After a batch of one request,
    two requests of the same size that get the next two buffers of the pool are written
    as the second one, twice. *)
Theorem pipeline_sends_request_twice stale r0 r1 r2 resp cc :
  cc_closed cc = false -> (size_of r0 <= 256)%nat -> (size_of r1 <= 256)%nat -> size_of r1 = size_of r2 ->
  let id1 := next_stream (nextStreamID cc) in
  let id2 := next_stream id1 in
  let id3 := next_stream id2 in
  let answered := fun (_ : bytes) (cc : clientConn) => set_pending (<[id1 := Some resp]> (pendingMap cc)) cc in
  exists w1 w2 w3,
    DoBatch stale (fun _ => None) None answered [(None, r0)] (mkWorld cc (mkBuffers ∅ [] 0) NewPipeline) ⇓ (Ok ([resp], None), w1) /\
    add_all [(Some 0%nat, r1); (Some 0%nat, r2)] (Reset w1) = (Ok tt, w2) /\
    FlushWrite stale (fun _ => None) w2 = ((None, kv_frame stale id2 r2 ++ kv_frame stale id3 r2), w3).
Proof.
  intros Hcl H0 H1 Heq id1 id2 id3 answered. assert (size_of r2 <= 256)%nat as H2 by lia.
  destruct (batch_of_one stale r0 resp cc Hcl H0) as (cc1 & c & Hb & Hcl1 & Hn & Lc). fold id1 in Hb, Hn.
  eexists _, _, _. split; [exact Hb|]. unfold Reset, NewPipeline. cbn [w_pipe w_conn w_bufs written]. cbn [add_all Add written].
  rewrite Hcl1, EncodePayload_again by done. cbn [add_all Add written cc_closed]. rewrite Hn. fold id2. cbn [nextStreamID].
  rewrite EncodePayload_again by (done || by apply length_overwrite). fold id3. split; [reflexivity|].
  unfold FlushWrite. cbn [written cc_closed frames payloads ids writeErr app]. rewrite decide_False by done.
  cbn [write_frames]. rewrite !read_overwritten by done. rewrite app_nil_r. reflexivity.
Qed.

End Pipelines.

(** ** Concrete batches *)

#[local] Existing Instance pattern_bits.

Definition demo_get (key : string) : Request := mkRequest CmdGet key None 0.

Lemma pipeline_batch_witness :
  exists w1, add_all [(None, demo_get "a"); (Some 0%nat, demo_get "b")] (mkWorld (new_conn (float64 := pattern)) (mkBuffers ∅ [] 0) NewPipeline)
    = (Ok tt, w1).
Proof.
  destruct (pipeline_batch [] [(None, demo_get "a"); (Some 0%nat, demo_get "b")] (new_conn (float64 := pattern)) (mkBuffers ∅ [] 0))
    as (w1 & w2 & H & _); [reflexivity|split; constructor|discriminate|].
  exists w1. exact H.
Defined.

Lemma pipeline_sends_request_twice_witness :
  exists w2 w3, FlushWrite (float64 := pattern) [] (fun _ => None) w2 =
    ((None, kv_frame [] 2 (demo_get "b") ++ kv_frame [] 3 (demo_get "b")), w3).
Proof.
  destruct (pipeline_sends_request_twice [] (demo_get "x") (demo_get "a") (demo_get "b") (mkResponse 0 None EmptyString)
    (new_conn (float64 := pattern))) as (w1 & w2 & w3 & _ & _ & H);
    [reflexivity|apply Nat.leb_le; vm_compute; reflexivity|apply Nat.leb_le; vm_compute; reflexivity|reflexivity|].
  exists w2, w3. exact H.
Defined.
