(* ===== verification/Cluster.v ===== *)
(** * Clusters of servers (cluster/)

    Three topologies behind one interface: keys spread over nodes by a weighted hash
    (shard), one master with replicas to promote (sentinel), the same with reads from
    the slaves (master_slave).  A node is a position in a list, so that the master and
    the lists of replicas point to the same nodes.  The clients of the nodes are an
    interface that performs the calls of Client.v on the state of all servers; whether
    a probe answers in time and the clock are arguments of a check. *)

From Stdlib Require Import Strings.String.
From stdpp Require Import base tactics numbers list gmap sets fin_maps strings.
From S2P Require Import Prelude.
From S2P Require Import Hashing.
From S2P Require Import Bytes.
From S2P Require Import Wire.
From S2P Require Import WireSet.
From S2P Require Import WireExt.
From S2P Require Import RaftCmd.
From S2P Require Import Server.
From S2P Require Import Client.

Open Scope Z_scope.

(** ** Nodes (cluster/node.go) *)

(** [Client_]: whether the node has a client. *)
Record Node : Type := mkNode { Addr : string; Weight : Z; Client_ : bool; Healthy : bool }.

Record NodeInfo : Type := mkInfo { i_Addr : string; i_Weight : Z; i_Healthy : bool }.

Definition Info (n : Node) : NodeInfo := mkInfo (Addr n) (Weight n) (Healthy n).

(** [n.Healthy.Store(b)] on node [i]. *)
Definition set_healthy (i : nat) (b : bool) (nodes : list Node) : list Node :=
  alter (fun n => mkNode (Addr n) (Weight n) (Client_ n) b) i nodes.

Definition is_healthy (nodes : list Node) (i : nat) : bool :=
  match nodes !! i with Some n => Healthy n | None => false end.
Definition has_client (nodes : list Node) (i : nat) : bool :=
  match nodes !! i with Some n => Client_ n | None => false end.

(** [probe i]: whether node [i] answers [Len] without error before the timeout. *)
Definition probeNodeHealth (probe : nat -> bool) (nodes : list Node) (i : nat) : bool := has_client nodes i && probe i.

(** [dial]: an error, or a node with a client that counts as healthy. *)
Definition dial_node (dial : string -> option error) (addr : string) (weight : Z) : result error Node :=
  match dial addr with Some e => Err e | None => Ok (mkNode addr weight true true) end.

(** *** Health checks (cluster/health.go) *)

Fixpoint probeAll (probe : nat -> bool) (i : nat) (nodes : list Node) : list Node :=
  match nodes with
  | [] => []
  | n :: nodes =>
      (if Client_ n then mkNode (Addr n) (Weight n) (Client_ n) (probe i) else n) :: probeAll probe (S i) nodes
  end.

(** ** Clients *)

Section Cluster.
Context `{FB : FloatBits float64}.
Notation call := (call float64).

(** What the clients of all nodes do to the servers: a call on node [i]. *)
Class Clients (St : Type) := perform : forall {A}, nat -> call A -> St -> result error A * St.

Context `{CL : Clients St}.

(** [n.Client.M(...)]: without a client it is a nil dereference. *)
Definition ask {A} (nodes : list Node) (i : nat) (c : call A) (s : St) : outcome (result error A * St) :=
  if has_client nodes i then Ret (perform i c s) else Panic.

(** The loop of [Len] and [Keys] over the healthy nodes. *)
Fixpoint ask_all {A B} (nodes : list Node) (c : call A) (add : B -> A -> B) (ixs : list nat) (acc : B) (s : St) : result error B * St :=
  match ixs with
  | [] => (Ok acc, s)
  | i :: ixs =>
      if negb (is_healthy nodes i) || negb (has_client nodes i) then ask_all nodes c add ixs acc s
      else
        match perform i c s with
        | (Err e, s) => (Err e, s)
        | (Ok a, s) => ask_all nodes c add ixs (add acc a) s
        end
  end.

(** ** The interface (cluster/mode.go) *)

(** [mode_arena] are the nodes [mode_node] points to. *)
Class Mode (M : Type) := {
  mode_arena : M -> list Node;
  mode_Get : string -> M -> St -> outcome (result error (option bytes) * M * St);
  mode_Set : string -> option bytes -> Z -> M -> St -> outcome (result error unit * St);
  mode_Del : string -> M -> St -> outcome (result error unit * St);
  mode_Len : M -> St -> outcome (result error Z * St);
  mode_Nodes : M -> list NodeInfo;
  mode_node : string -> M -> outcome (result error nat);
  mode_Keys : string -> M -> St -> outcome (result error (list string) * St);
}.

(** ** Shards (cluster/shard_mode.go) *)

Definition no_node : error := ErrMsg "no healthy node available".

(** [IsMaster] is not read. *)
Record NodeConfig : Type := mkConfig { c_Addr : string; c_Weight : Z; c_IsMaster : bool }.

Notation ShardMode := (list Node).

Fixpoint dial_all (dial : string -> option error) (configs : list NodeConfig) : result error (list Node) :=
  match configs with
  | [] => Ok []
  | nc :: configs =>
      if decide (c_Addr nc = EmptyString) then dial_all dial configs
      else
        match dial_node dial (c_Addr nc) (if c_Weight nc <=? 0 then 1 else c_Weight nc) with
        | Err e => Err e
        | Ok n => match dial_all dial configs with Err e => Err e | Ok l => Ok (n :: l) end
        end
  end.

Definition newShardMode (dial : string -> option error) (configs : list NodeConfig) : result error ShardMode :=
  match dial_all dial configs with
  | Err e => Err e
  | Ok [] => Err (ErrMsg "shard mode requires at least one node")
  | Ok nodes => Ok nodes
  end.

Definition totalWeight (nodes : ShardMode) : Z :=
  foldl (fun t n => if Healthy n then int64 (t + Weight n) else t) 0 nodes.

(** The loop over the nodes, from node [i] on. *)
Fixpoint pick_from (idx cursor : Z) (i : nat) (nodes : ShardMode) : option nat :=
  match nodes with
  | [] => None
  | n :: nodes =>
      if Healthy n then
        let cursor := wrapU 32 (cursor + wrapU 32 (Weight n)) in
        if idx <? cursor then Some i else pick_from idx cursor (S i) nodes
      else pick_from idx cursor (S i) nodes
  end.

(** A total weight that is a multiple of 2^32 divides by zero. *)
Definition pickNode (key : string) (nodes : ShardMode) : outcome (option nat) :=
  let total := totalWeight nodes in
  if total =? 0 then Ret None
  else if wrapU 32 total =? 0 then Panic
  else Ret (pick_from (fnv32a key mod wrapU 32 total) 0 0 nodes).

Definition shard_node (key : string) (nodes : ShardMode) : outcome (result error nat) :=
  o ← pickNode key nodes;
  mret (match o with
        | Some i => if is_healthy nodes i then Ok i else Err no_node
        | None => Err no_node
        end).

(** [Get], [Set] and [Del] share their shape. *)
Definition shard_call {A} (key : string) (c : call A) (nodes : ShardMode) (s : St) : outcome (result error A * St) :=
  o ← pickNode key nodes;
  match o with None => Ret (Err no_node, s) | Some i => ask nodes i c s end.

Definition all_nodes (nodes : ShardMode) : list nat := seq 0 (length nodes).

#[global] Instance shard_mode : Mode ShardMode := {|
  mode_arena m := m;
  mode_Get key m s := '(r, s) ← shard_call key (get key) m s; mret (r, m, s);
  mode_Set key value ttl m s := shard_call key (set key value ttl) m s;
  mode_Del key m s := shard_call key (del key) m s;
  mode_Len m s := Ret (ask_all m lenCmd (fun t n => int64 (t + n)) (all_nodes m) 0 s);
  mode_Nodes m := Info <$> m;
  mode_node := shard_node;
  mode_Keys pattern m s := Ret (ask_all m (keysCmd pattern) (fun l keys => l ++ keys) (all_nodes m) [] s);
|}.

(** ** A master and its replicas (cluster/sentinel_mode.go, cluster/master_slave_mode.go) *)

(** [fo_others] are the replicas or slaves; [firstUnhealthyAt] is [None] for the zero time. *)
Record Failover : Type := mkFo {
  fo_nodes : list Node;
  fo_master : option nat;
  fo_others : list nat;
  firstUnhealthyAt : option Z;
}.

Definition with_nodes (nodes : list Node) (f : Failover) : Failover :=
  mkFo nodes (fo_master f) (fo_others f) (firstUnhealthyAt f).
Definition with_first (t : option Z) (f : Failover) : Failover :=
  mkFo (fo_nodes f) (fo_master f) (fo_others f) t.

(** [probeReplicas] and [probeSlaves]; without a client the probe is false as well. *)
Definition probe_others (probe : nat -> bool) (f : Failover) : Failover :=
  with_nodes (foldl (fun nodes i => set_healthy i (probeNodeHealth probe nodes i) nodes) (fo_nodes f) (fo_others f)) f.

(** The first replica that can be promoted. *)
Definition find_best (f : Failover) : option nat :=
  List.find (fun i => negb (bool_decide (fo_master f = Some i)) && (has_client (fo_nodes f) i && is_healthy (fo_nodes f) i)) (fo_others f).

(** The promoted node leaves the list, at its first place. *)
Fixpoint remove_first (i : nat) (l : list nat) : list nat :=
  match l with [] => [] | j :: l => if (j =? i)%nat then l else j :: remove_first i l end.

Definition tryFailover (f : Failover) : Failover :=
  if match fo_master f with Some m => is_healthy (fo_nodes f) m | None => false end then f
  else
    match find_best f with
    | None => f
    | Some best =>
        let others := remove_first best (fo_others f) in
        match fo_master f with
        | None => mkFo (fo_nodes f) (Some best) others None
        | Some old => mkFo (set_healthy old false (fo_nodes f)) (Some best) (others ++ [old]) None
        end
    end.

(** One tick of the loop at time [now]. *)
Definition checkAndFailover (timeout : Z) (probe : nat -> bool) (now : Z) (f : Failover) : Failover :=
  let f := probe_others probe f in
  match fo_master f with
  | None => tryFailover f
  | Some m =>
      if negb (has_client (fo_nodes f) m) then tryFailover f
      else
        let healthy := probeNodeHealth probe (fo_nodes f) m in
        let f := with_nodes (set_healthy m healthy (fo_nodes f)) f in
        if healthy then with_first None f
        else
          match firstUnhealthyAt f with
          | None => with_first (Some now) f
          | Some t => if sat64 (now - t) >=? timeout then tryFailover f else f
          end
  end.

Definition failover_Nodes (f : Failover) : list NodeInfo :=
  let info i := match fo_nodes f !! i with Some n => [Info n] | None => [] end in
  match fo_master f with Some m => info m | None => [] end ++ concat (info <$> fo_others f).

(** The master, if it is healthy. *)
Definition the_master (msg : string) (f : Failover) : result error nat :=
  match fo_master f with
  | Some m => if is_healthy (fo_nodes f) m then Ok m else Err (ErrMsg msg)
  | None => Err (ErrMsg msg)
  end.

Definition ask_master {A} (msg : string) (c : call A) (f : Failover) (s : St) : outcome (result error A * St) :=
  match the_master msg f with Err e => Ret (Err e, s) | Ok m => ask (fo_nodes f) m c s end.

Definition no_master : string := "no healthy master available".

(** *** Sentinel *)

(** Replicas that cannot be reached are left out. *)
Fixpoint dial_reachable (dial : string -> option error) (weight : Z) (addrs : list string) : list Node :=
  match addrs with
  | [] => []
  | addr :: addrs =>
      match dial_node dial addr weight with Ok n => n :: dial_reachable dial weight addrs | Err _ => dial_reachable dial weight addrs end
  end.

Definition newSentinelMode (dial : string -> option error) (master : string) (sentinels : list string) : result error Failover :=
  if decide (master = EmptyString) then Err (ErrMsg "sentinel mode requires a master address")
  else if decide (sentinels = []) then Err (ErrMsg "sentinel mode requires at least one sentinel/replica")
  else
    match dial_node dial master 0 with
    | Err e => Err e
    | Ok m =>
        match dial_reachable dial 0 sentinels with
        | [] => Err (ErrMsg "sentinel mode: no reachable replicas")
        | replicas => Ok (mkFo (m :: replicas) (Some 0%nat) (seq 1 (length replicas)) None)
        end
    end.

Record SentinelMode : Type := Sentinel { se_fo : Failover }.

#[global] Instance sentinel_mode : Mode SentinelMode := {|
  mode_arena m := fo_nodes (se_fo m);
  mode_Get key m s := '(r, s) ← ask_master no_master (get key) (se_fo m) s; mret (r, m, s);
  mode_Set key value ttl m s := ask_master no_master (set key value ttl) (se_fo m) s;
  mode_Del key m s := ask_master no_master (del key) (se_fo m) s;
  mode_Len m s := ask_master no_master lenCmd (se_fo m) s;
  mode_Nodes m := failover_Nodes (se_fo m);
  mode_node _ m := Ret (the_master no_master (se_fo m));
  mode_Keys pattern m s := ask_master no_master (keysCmd pattern) (se_fo m) s;
|}.

(** *** Master and slaves *)

Fixpoint dial_slaves (dial : string -> option error) (addrs : list string) : result error (list Node) :=
  match addrs with
  | [] => Ok []
  | addr :: addrs =>
      match dial_node dial addr 1 with
      | Err e => Err e
      | Ok n => match dial_slaves dial addrs with Err e => Err e | Ok l => Ok (n :: l) end
      end
  end.

(** [nextSlave] is the counter of the round robin. *)
Record MasterSlaveMode : Type := MasterSlave { ms_fo : Failover; nextSlave : Z }.

Definition newMasterSlaveMode (dial : string -> option error) (master : string) (slaves : list string) : result error MasterSlaveMode :=
  if decide (master = EmptyString) then Err (ErrMsg "master-slave mode requires a master address")
  else if decide (slaves = []) then Err (ErrMsg "master-slave mode requires at least one slave")
  else
    match dial_node dial master 1 with
    | Err e => Err e
    | Ok m =>
        match dial_slaves dial slaves with
        | Err e => Err e
        | Ok l => Ok (MasterSlave (mkFo (m :: l) (Some 0%nat) (seq 1 (length l)) None) 0)
        end
    end.

(** The loop of [pickSlave], at most [k] more times: the slave and the counter. *)
Fixpoint pick_slave (k : nat) (nodes : list Node) (slaves : list nat) (next : Z) : option nat * Z :=
  match k with
  | O => (None, next)
  | S k =>
      let next := wrapU 32 (next + 1) in
      match slaves !! Z.to_nat (next mod wrapU 32 (Z.of_nat (length slaves))) with
      | Some i => if is_healthy nodes i then (Some i, next) else pick_slave k nodes slaves next
      | None => (None, next)
      end
  end.

Definition pickSlave (m : MasterSlaveMode) : option nat * MasterSlaveMode :=
  let f := ms_fo m in
  let '(o, next) := pick_slave (length (fo_others f)) (fo_nodes f) (fo_others f) (nextSlave m) in
  (o, MasterSlave f next).

(** The health checks are those of the sentinel mode. *)
Definition lift_fo (g : Failover -> Failover) (m : MasterSlaveMode) : MasterSlaveMode := MasterSlave (g (ms_fo m)) (nextSlave m).
Definition probeSlaves (probe : nat -> bool) : MasterSlaveMode -> MasterSlaveMode := lift_fo (probe_others probe).
Definition ms_tryFailover : MasterSlaveMode -> MasterSlaveMode := lift_fo tryFailover.
Definition ms_checkAndFailover (timeout : Z) (probe : nat -> bool) (now : Z) : MasterSlaveMode -> MasterSlaveMode :=
  lift_fo (checkAndFailover timeout probe now).

Definition bad_master : string := "master is not healthy".

(** Reads go to a healthy slave, to the master if there is none. *)
Definition master_slave_Get (key : string) (m : MasterSlaveMode) (s : St) : outcome (result error (option bytes) * MasterSlaveMode * St) :=
  let '(o, m) := pickSlave m in
  let nodes := fo_nodes (ms_fo m) in
  '(r, s) ← match o with
            | Some i => if is_healthy nodes i then ask nodes i (get key) s else ask_master "no healthy node available" (get key) (ms_fo m) s
            | None => ask_master "no healthy node available" (get key) (ms_fo m) s
            end;
  mret (r, m, s).

#[global] Instance master_slave_mode : Mode MasterSlaveMode := {|
  mode_arena m := fo_nodes (ms_fo m);
  mode_Get := master_slave_Get;
  mode_Set key value ttl m s := ask_master bad_master (set key value ttl) (ms_fo m) s;
  mode_Del key m s := ask_master bad_master (del key) (ms_fo m) s;
  mode_Len m s := ask_master bad_master lenCmd (ms_fo m) s;
  mode_Nodes m := failover_Nodes (ms_fo m);
  mode_node _ m := Ret (the_master no_master (ms_fo m));
  mode_Keys pattern m s := ask_master no_master (keysCmd pattern) (ms_fo m) s;
|}.

(** ** The cluster manager (cluster/cluster.go, cluster/cluster_ext.go) *)

(** The modes [New] chooses from. *)
Inductive AnyMode : Type := AShard (m : ShardMode) | ASentinel (m : SentinelMode) | AMasterSlave (m : MasterSlaveMode).

(** *** Options (cluster/options.go); the error log is left out *)

Record Options : Type := mkOptions {
  o_Mode : string;
  o_Nodes : list NodeConfig;
  o_Sentinels : list string;
  o_Master : string;
  o_Slaves : list string;
  HealthCheckInterval : Z;
  HealthCheckTimeout : Z;
  FailoverTimeout : Z;
}.

Definition Option : Type := Options -> Options.

Definition WithMode (mode : string) : Option := fun o =>
  mkOptions mode (o_Nodes o) (o_Sentinels o) (o_Master o) (o_Slaves o) (HealthCheckInterval o) (HealthCheckTimeout o) (FailoverTimeout o).
Definition WithNodes (nodes : list NodeConfig) : Option := fun o =>
  mkOptions (o_Mode o) nodes (o_Sentinels o) (o_Master o) (o_Slaves o) (HealthCheckInterval o) (HealthCheckTimeout o) (FailoverTimeout o).
Definition WithSentinels (addrs : list string) : Option := fun o =>
  mkOptions (o_Mode o) (o_Nodes o) addrs (o_Master o) (o_Slaves o) (HealthCheckInterval o) (HealthCheckTimeout o) (FailoverTimeout o).
Definition WithMaster (addr : string) : Option := fun o =>
  mkOptions (o_Mode o) (o_Nodes o) (o_Sentinels o) addr (o_Slaves o) (HealthCheckInterval o) (HealthCheckTimeout o) (FailoverTimeout o).
Definition WithSlaves (addrs : list string) : Option := fun o =>
  mkOptions (o_Mode o) (o_Nodes o) (o_Sentinels o) (o_Master o) addrs (HealthCheckInterval o) (HealthCheckTimeout o) (FailoverTimeout o).
Definition WithHealthCheckInterval (d : Z) : Option := fun o =>
  mkOptions (o_Mode o) (o_Nodes o) (o_Sentinels o) (o_Master o) (o_Slaves o) d (HealthCheckTimeout o) (FailoverTimeout o).
Definition WithHealthCheckTimeout (d : Z) : Option := fun o =>
  mkOptions (o_Mode o) (o_Nodes o) (o_Sentinels o) (o_Master o) (o_Slaves o) (HealthCheckInterval o) d (FailoverTimeout o).
Definition WithFailoverTimeout (d : Z) : Option := fun o =>
  mkOptions (o_Mode o) (o_Nodes o) (o_Sentinels o) (o_Master o) (o_Slaves o) (HealthCheckInterval o) (HealthCheckTimeout o) d.

Definition defaultOptions : Options :=
  mkOptions "shard" [] [] EmptyString [] (5 * 1000000000) (2 * 1000000000) (10 * 1000000000).

Definition New (dial : string -> option error) (opts : list Option) : result error AnyMode :=
  let o := foldl (fun o opt => opt o) defaultOptions opts in
  if decide (o_Mode o = "shard"%string) then
    match newShardMode dial (o_Nodes o) with Ok m => Ok (AShard m) | Err e => Err e end
  else if decide (o_Mode o = "sentinel"%string) then
    match newSentinelMode dial (o_Master o) (o_Sentinels o) with Ok f => Ok (ASentinel (Sentinel f)) | Err e => Err e end
  else if decide (o_Mode o = "master_slave"%string) then
    match newMasterSlaveMode dial (o_Master o) (o_Slaves o) with Ok m => Ok (AMasterSlave m) | Err e => Err e end
  else Err (ErrMsg ("unknown cluster mode: " ++ o_Mode o)).

Section Manager.
Context `{MO : Mode M}.
Variable cm : M.

Definition cm_Get (key : string) (s : St) := mode_Get key cm s.
Definition cm_Set (key : string) (value : option bytes) (ttl : Z) (s : St) := mode_Set key value ttl cm s.
Definition cm_Del (key : string) (s : St) := mode_Del key cm s.
Definition cm_Len (s : St) := mode_Len cm s.
Definition cm_Nodes := mode_Nodes cm.

(** A call on the node of [key]. *)
Definition on_node {A} (key : string) (c : call A) (s : St) : outcome (result error A * St) :=
  r ← mode_node key cm;
  match r with Err e => Ret (Err e, s) | Ok i => ask (mode_arena cm) i c s end.

(** *** Hashes *)

Definition cm_HSet (key field value : string) := on_node key (hSet key field value).
Definition cm_HSetNX (key field value : string) := on_node key (hSetNX key field value).
Definition cm_HGet (key field : string) := on_node key (hGet key field).
Definition cm_HDel (key : string) (fields : list string) := on_node key (hDel key fields).
Definition cm_HExists (key field : string) := on_node key (hExists key field).
Definition cm_HGetAll (key : string) := on_node key (hGetAll key).
Definition cm_HKeys (key : string) := on_node key (hKeys key).
Definition cm_HVals (key : string) := on_node key (hVals key).
Definition cm_HLen (key : string) := on_node key (hLen key).
Definition cm_HStrLen (key field : string) := on_node key (hStrLen key field).
Definition cm_HIncrBy (key field : string) (delta : Z) := on_node key (hIncrBy key field delta).
Definition cm_HIncrByFloat (key field : string) (delta : float64) := on_node key (hIncrByFloat key field delta).
Definition cm_HMGet (key : string) (fields : list string) := on_node key (hmGet key fields).
Definition cm_HMSet (key : string) (fvPairs : list string) := on_node key (hmSet key fvPairs).

(** *** Lists *)

Definition cm_LPush (key : string) (elems : list string) := on_node key (lPush key elems).
Definition cm_RPush (key : string) (elems : list string) := on_node key (rPush key elems).
Definition cm_LPop (key : string) := on_node key (lPop key).
Definition cm_RPop (key : string) := on_node key (rPop key).
Definition cm_LLen (key : string) := on_node key (lLen key).
Definition cm_LRange (key : string) (start stop : Z) := on_node key (lRange key start stop).
Definition cm_LIndex (key : string) (index : Z) := on_node key (lIndex key index).
Definition cm_LSet (key : string) (index : Z) (value : string) := on_node key (lSet key index value).
Definition cm_LRem (key : string) (count : Z) (value : string) := on_node key (lRem key count value).
Definition cm_LTrim (key : string) (start stop : Z) := on_node key (lTrim key start stop).
Definition cm_LInsert (key : string) (before : bool) (pivot value : string) := on_node key (lInsert key before pivot value).
Definition cm_BLPop (key : string) (timeout : Z) := on_node key (bLPop key timeout).
Definition cm_BRPop (key : string) (timeout : Z) := on_node key (bRPop key timeout).
Definition cm_LPos (key value : string) (rank count maxLen : Z) := on_node key (lPos key value rank count maxLen).

(** *** Sets *)

Definition cm_SAdd (key : string) (elems : list string) := on_node key (sAdd key elems).
Definition cm_SRem (key : string) (elems : list string) := on_node key (sRem key elems).
Definition cm_SIsMember (key elem : string) := on_node key (sIsMember key elem).
Definition cm_SMembers (key : string) := on_node key (sMembers key).
Definition cm_SCard (key : string) := on_node key (sCard key).
Definition cm_SPop (key : string) := on_node key (sPop key).
Definition cm_SRandMember (key : string) (count : Z) := on_node key (sRandMember key count).

(** The operations over several sets go to the node of the first key. *)
Definition on_first {A} (keys : list string) (c : call A) (s : St) : outcome (result error A * St) :=
  match keys with [] => Ret (Err (ErrMsg "at least one key required"), s) | key :: _ => on_node key c s end.
Definition cm_SUnion (keys : list string) := on_first keys (sUnion keys).
Definition cm_SInter (keys : list string) := on_first keys (sInter keys).
Definition cm_SDiff (keys : list string) := on_first keys (sDiff keys).

(** *** Keys *)

Definition cm_Exists (key : string) := on_node key (existsCmd key).
Definition cm_Expire (key : string) (seconds : Z) := on_node key (expireCmd key seconds).
Definition cm_PExpire (key : string) (ms : Z) := on_node key (pExpireCmd key ms).
Definition cm_TTL (key : string) := on_node key (ttlCmd key).
Definition cm_PTTL (key : string) := on_node key (pttlCmd key).
Definition cm_Persist (key : string) := on_node key (persistCmd key).
Definition type_name (b : Z) : string :=
  if b =? 0 then "none" else if b =? 1 then "string" else if b =? 2 then "set" else if b =? 3 then "hash"
  else if b =? 4 then "list" else "unknown".
Definition cm_Type (key : string) (s : St) : outcome (result error string * St) :=
  '(r, s) ← on_node key (typeCmd key) s;
  mret (match r with Ok b => Ok (type_name b) | Err e => Err e end, s).
Definition cm_Keys (pattern : string) (s : St) := mode_Keys pattern cm s.

End Manager.

End Cluster.
