(* ===== verification/ClusterSpec.v ===== *)
(** * What a cluster promises

    Shards: every key goes to a healthy node, nodes own intervals of the hash as long
    as their weights, and as long as no node's health changes the cluster is one map;
    when a node comes back, it serves what it had. *)

From Stdlib Require Import Strings.Byte Strings.String.
From stdpp Require Import base tactics numbers list gmap sets fin_maps strings.
From S2P Require Import Prelude.
From S2P Require Import Hashing.
From S2P Require Import Bytes.
From S2P Require Import Wire.
From S2P Require Import WireSet.
From S2P Require Import WireExt.
From S2P Require Import WireExtSpec.
From S2P Require Import RaftCmd.
From S2P Require Import Server.
From S2P Require Import Client.
From S2P Require Import Cluster.

Open Scope Z_scope.

(** ** The weighted choice *)

Definition weight_of (n : Node) : Z := if Healthy n then Weight n else 0.
Definition sum_weights (nodes : list Node) : Z := foldr (fun n t => weight_of n + t) 0 nodes.

(** Where the interval of node [j] starts. *)
Definition before (nodes : list Node) (j : nat) : Z := sum_weights (take j nodes).

Definition positive (nodes : list Node) : Prop := Forall (fun n => 0 < Weight n) nodes.

Lemma weight_of_nonneg n : 0 < Weight n -> 0 <= weight_of n.
Proof. unfold weight_of. destruct (Healthy n); lia. Qed.

Lemma sum_nonneg nodes : positive nodes -> 0 <= sum_weights nodes.
Proof.
  induction 1 as [|n nodes Hn _ IH]; [done|]. change (sum_weights (n :: nodes)) with (weight_of n + sum_weights nodes).
  pose proof (weight_of_nonneg n Hn). lia.
Qed.

Lemma foldl_weights nodes acc :
  positive nodes -> 0 <= acc -> acc + sum_weights nodes <= max_int64 ->
  foldl (fun t n => if Healthy n then int64 (t + Weight n) else t) acc nodes = acc + sum_weights nodes.
Proof.
  intros Hp. revert acc. induction Hp as [|n nodes Hn Hp IH]; intros acc Ha Hs; cbn [foldl sum_weights foldr] in *; [lia|].
  pose proof (sum_nonneg nodes Hp). fold (sum_weights nodes) in *. unfold weight_of in *. destruct (Healthy n).
  - rewrite int64_id by (unfold in_int64, min_int64; lia). rewrite IH by lia. lia.
  - rewrite IH by lia. lia.
Qed.

Lemma totalWeight_sum nodes : positive nodes -> sum_weights nodes < 2 ^ 32 -> totalWeight nodes = sum_weights nodes.
Proof. intros Hp Hs. unfold totalWeight. rewrite foldl_weights; [lia|done|lia|unfold max_int64; lia]. Qed.

Lemma before_cons n nodes j : before (n :: nodes) (S j) = weight_of n + before nodes j.
Proof. done. Qed.

Lemma before_0 nodes : before nodes 0 = 0.
Proof. done. Qed.

(** The intervals are in the order of the nodes. *)
Lemma before_mono nodes i j n :
  positive nodes -> nodes !! i = Some n -> (i < j)%nat -> before nodes i + weight_of n <= before nodes j.
Proof.
  intros Hp. revert i j. induction Hp as [|m nodes Hm Hp IH]; intros i j Hi Hij; [done|].
  destruct j as [|j]; [lia|]. rewrite before_cons. destruct i as [|i].
  - injection Hi as ->. rewrite before_0. assert (0 <= before nodes j) by (apply sum_nonneg; by apply Forall_take). lia.
  - rewrite before_cons. specialize (IH i j Hi). lia.
Qed.

Lemma pick_from_spec nodes idx cursor i :
  positive nodes -> 0 <= cursor -> cursor + sum_weights nodes < 2 ^ 32 -> cursor <= idx < cursor + sum_weights nodes ->
  exists j n, pick_from idx cursor i nodes = Some (i + j)%nat /\ nodes !! j = Some n /\ Healthy n = true /\
    cursor + before nodes j <= idx < cursor + before nodes j + Weight n.
Proof.
  intros Hp. revert cursor i. induction Hp as [|n nodes Hn Hp IH]; intros cursor i Hc Hs Hidx; cbn [sum_weights foldr] in *; [lia|].
  fold (sum_weights nodes) in *. pose proof (sum_nonneg nodes Hp). cbn [pick_from].
  destruct (Healthy n) eqn:Hh; unfold weight_of in *; rewrite Hh in *.
  - rewrite (wrapU_small 32 (Weight n)), wrapU_small by lia. destruct (Z.ltb_spec idx (cursor + Weight n)) as [Hlt|Hge].
    + exists 0%nat, n. rewrite Nat.add_0_r, before_0. split_and!; try done; lia.
    + destruct (IH (cursor + Weight n) (S i)) as (j & n' & Hpick & Hj & Hhj & Hb); [lia..|].
      exists (S j), n'. rewrite Hpick, before_cons. unfold weight_of. rewrite Hh.
      split_and!; [f_equal; lia|done|done|lia|lia].
  - destruct (IH cursor (S i)) as (j & n' & Hpick & Hj & Hhj & Hb); [lia..|].
    exists (S j), n'. rewrite Hpick, before_cons. unfold weight_of. rewrite Hh.
    split_and!; [f_equal; lia|done|done|lia|lia].
Qed.

Lemma pickNode_spec key nodes :
  positive nodes -> 0 < sum_weights nodes < 2 ^ 32 ->
  exists j n, pickNode key nodes ⇓ Some j /\ nodes !! j = Some n /\ Healthy n = true /\
    before nodes j <= fnv32a key mod sum_weights nodes < before nodes j + Weight n.
Proof.
  intros Hp Hs. unfold pickNode. rewrite totalWeight_sum, wrapU_small by (done || lia).
  rewrite (proj2 (Z.eqb_neq _ _)) by lia. pose proof (Z.mod_pos_bound (fnv32a key) (sum_weights nodes)).
  destruct (pick_from_spec nodes (fnv32a key mod sum_weights nodes) 0 0) as (j & n & Hpick & Hj & Hh & Hb); [done|lia..|].
  exists j, n. rewrite Hpick. split_and!; try done; lia.
Qed.

(** The weighted choice of a node.  In a cluster of shards with a
    healthy node, weights of at least 1 and less than 2^32 in total, every key goes to
    a healthy node; a node owns the residues of an interval as long as its weight, and
    the intervals of different nodes do not overlap. *)
Theorem pick_node_weighted key nodes :
  positive nodes -> 0 < sum_weights nodes < 2 ^ 32 ->
  exists j n, pickNode key nodes ⇓ Some j /\ nodes !! j = Some n /\ Healthy n = true /\
    before nodes j <= fnv32a key mod sum_weights nodes < before nodes j + Weight n /\
    forall key' j', pickNode key' nodes ⇓ Some j' ->
      (j' = j <-> before nodes j <= fnv32a key' mod sum_weights nodes < before nodes j + Weight n).
Proof.
  intros Hp Hs. destruct (pickNode_spec key nodes Hp Hs) as (j & n & H1 & H2 & H3 & H4).
  exists j, n. split_and!; try done; try lia. intros key' j' Hk'.
  destruct (pickNode_spec key' nodes Hp Hs) as (i & m & Hi & Hm & Hhm & Hb). assert (i = j') as -> by congruence.
  split; [intros ->; congruence|]. intros Hin.
  destruct (decide (j' = j)) as [|Hne]; [done|]. exfalso. assert (weight_of n = Weight n /\ weight_of m = Weight m) as [Hwn Hwm].
  { unfold weight_of. by rewrite H3, Hhm. }
  destruct (decide (j' < j)%nat) as [Hlt|Hge].
  - pose proof (before_mono nodes j' j m Hp Hm Hlt). lia.
  - pose proof (before_mono nodes j j' n Hp H2 ltac:(lia)). lia.
Qed.

Section MapSpec.
Context `{FB : FloatBits float64} `{CL : Clients (float64 := float64) St}.

(** What the clients promise: each node is a map.  Keys and values are not empty and
    nothing expires. *)
Class MapClients (store : St -> nat -> gmap string bytes) : Prop := {
  mc_get i k s : k <> EmptyString -> exists s',
    perform i (get k) s = (match store s i !! k with Some v => Ok (Some v) | None => Err ErrKeyNotFound end, s') /\
    forall j, store s' j = store s j;
  mc_set i k v s : k <> EmptyString -> v <> [] -> exists s',
    perform i (set k (Some v) 0) s = (Ok tt, s') /\
    forall j, store s' j = if decide (j = i) then <[k := v]> (store s i) else store s j;
  mc_del i k s : k <> EmptyString -> exists s',
    perform i (del k) s = (Ok tt, s') /\
    forall j, store s' j = if decide (j = i) then delete k (store s i) else store s j;
  mc_len i s : Z.of_nat (size (store s i)) <= max_int64 -> exists s',
    perform i lenCmd s = (Ok (Z.of_nat (size (store s i))), s') /\ forall j, store s' j = store s j;
}.

(** ** One map *)

Inductive map_op : Type := MSet (k : string) (v : bytes) | MGet (k : string) | MDel (k : string) | MLen.
Inductive map_res : Type := RDone (r : result error unit) | RValue_ (r : result error (option bytes)) | RCount (r : result error Z).

Definition map_step (o : map_op) (m : gmap string bytes) : map_res * gmap string bytes :=
  match o with
  | MSet k v => (RDone (Ok tt), <[k := v]> m)
  | MGet k => (RValue_ (match m !! k with Some v => Ok (Some v) | None => Err ErrKeyNotFound end), m)
  | MDel k => (RDone (Ok tt), delete k m)
  | MLen => (RCount (Ok (Z.of_nat (size m))), m)
  end.

Fixpoint map_run (ops : list map_op) (m : gmap string bytes) : list map_res * gmap string bytes :=
  match ops with
  | [] => ([], m)
  | o :: ops => let '(r, m) := map_step o m in let '(rs, m) := map_run ops m in (r :: rs, m)
  end.

(** The same operations on a cluster. *)
Definition cluster_step {M : Type} {MO : Mode (St := St) M} (o : map_op) (cm : M) (s : St) : outcome (map_res * M * St) :=
  match o with
  | MSet k v => '(r, s) ← cm_Set cm k (Some v) 0 s; mret (RDone r, cm, s)
  | MGet k => '(r, cm, s) ← cm_Get cm k s; mret (RValue_ r, cm, s)
  | MDel k => '(r, s) ← cm_Del cm k s; mret (RDone r, cm, s)
  | MLen => '(r, s) ← cm_Len cm s; mret (RCount r, cm, s)
  end.

Fixpoint cluster_run {M : Type} {MO : Mode (St := St) M} (ops : list map_op) (cm : M) (s : St) : outcome (list map_res * M * St) :=
  match ops with
  | [] => Ret ([], cm, s)
  | o :: ops =>
      '(r, cm, s) ← cluster_step o cm s;
      '(rs, cm, s) ← cluster_run ops cm s;
      mret (r :: rs, cm, s)
  end.

Definition wf_op (o : map_op) : Prop :=
  match o with MSet k v => k <> EmptyString /\ v <> [] | MGet k | MDel k => k <> EmptyString | MLen => True end.

(** ** Sums over nodes *)

Fixpoint total (g : nat -> nat) (l : list nat) : nat :=
  match l with [] => 0%nat | i :: l => (g i + total g l)%nat end.

Lemma total_ext g g' l : (forall i, i ∈ l -> g i = g' i) -> total g l = total g' l.
Proof. induction l as [|i l IH]; intros H; cbn; [done|]. rewrite (H i), IH; [done|set_solver|set_solver]. Qed.

Lemma total_update g g' l j :
  NoDup l -> j ∈ l -> (forall i, i <> j -> g' i = g i) -> (total g' l + g j = total g l + g' j)%nat.
Proof.
  intros Hnd Hj Hg. induction l as [|i l IH]; [set_solver|]. apply NoDup_cons in Hnd as [Hni Hnd].
  apply elem_of_cons in Hj as [->|Hj]; cbn.
  - rewrite (total_ext g' g) by (intros x Hx; apply Hg; by intros ->). lia.
  - assert (i <> j) by (by intros ->). rewrite (Hg i) by done. specialize (IH Hnd Hj). lia.
Qed.

Context (store : St -> nat -> gmap string bytes) `{MC : !MapClients store}.

(** Nodes as [newShardMode] and the health checks leave them. *)
Record dialled (nodes : list Node) : Prop := {
  dl_positive : positive nodes;
  dl_client : Forall (fun n => Client_ n = true) nodes;
  dl_sum : 0 < sum_weights nodes < 2 ^ 32;
}.

(** The cluster holds [m]: every key at its node only. *)
Record holds (nodes : list Node) (s : St) (m : gmap string bytes) : Prop := {
  ho_owner k j : pickNode k nodes ⇓ Some j -> store s j !! k = m !! k;
  ho_other k i j : pickNode k nodes ⇓ Some j -> i <> j -> store s i !! k = None;
  ho_total : total (fun i => size (store s i)) (all_nodes nodes) = size m;
}.

Lemma owner_of nodes k : dialled nodes ->
  exists j, pickNode k nodes ⇓ Some j /\ has_client nodes j = true /\ is_healthy nodes j = true /\ (j < length nodes)%nat.
Proof.
  intros [Hp Hc Hs]. destruct (pickNode_spec k nodes Hp Hs) as (j & n & H1 & H2 & H3 & _). exists j.
  unfold has_client, is_healthy. rewrite H2. rewrite Forall_forall in Hc. split_and!; try done.
  - apply Hc. by eapply list_elem_of_lookup_2.
  - by eapply lookup_lt_Some.
Qed.

Lemma shard_call_owner {A} nodes k j (c : call float64 A) s :
  pickNode k nodes ⇓ Some j -> has_client nodes j = true -> shard_call k c nodes s ⇓ perform j c s.
Proof. intros H1 H2. unfold shard_call, ask. by rewrite H1; cbn; rewrite H2. Qed.

Lemma all_nodes_in nodes j : (j < length nodes)%nat -> j ∈ all_nodes nodes.
Proof. intros Hj. unfold all_nodes. apply elem_of_seq. lia. Qed.

Lemma NoDup_all_nodes nodes : NoDup (all_nodes nodes).
Proof. apply NoDup_seq. Qed.

(** A write of one key at its node, in the cluster and in the map. *)
Lemma holds_write nodes s s' m k j (f : gmap string bytes -> gmap string bytes) v :
  dialled nodes -> holds nodes s m -> pickNode k nodes ⇓ Some j -> (j < length nodes)%nat ->
  (forall i, store s' i = if decide (i = j) then f (store s j) else store s i) ->
  (forall m, f m !! k = v) -> (forall m k', k' <> k -> f m !! k' = m !! k') ->
  (forall m m', m !! k = m' !! k -> (size (f m) + size m' = size (f m') + size m)%nat) ->
  holds nodes s' (f m).
Proof.
  intros Hd [Ho Hx Ht] Hj Hlt Hs Hk Hother Hsize. split.
  - intros k' j' Hj'. rewrite Hs. case_decide as He.
    + subst j'. destruct (decide (k' = k)) as [->|Hne]; [by rewrite !Hk|]. rewrite !Hother by done. by apply Ho.
    + assert (k' <> k) as Hne by (intros ->; congruence). rewrite Hother by done. by apply Ho.
  - intros k' i j' Hj' Hi. rewrite Hs. case_decide as He; [|by eapply Hx]. subst i.
    assert (k' <> k) by (intros ->; congruence). rewrite Hother by done. by eapply Hx.
  - pose proof (total_update (fun i => size (store s i)) (fun i => size (store s' i)) (all_nodes nodes) j
      (NoDup_all_nodes nodes) (all_nodes_in _ _ Hlt)) as Hu.
    assert (forall i, i <> j -> size (store s' i) = size (store s i)) as Hne by (intros i Hi; by rewrite Hs, decide_False).
    specialize (Hu Hne). cbv beta in Hu. rewrite (Hs j), decide_True in Hu by done.
    specialize (Hsize (store s j) m (Ho k j Hj)). lia.
Qed.

Lemma cluster_holds_same nodes s s' m : (forall i, store s' i = store s i) -> holds nodes s m -> holds nodes s' m.
Proof.
  intros Hs [Ho Hx Ht]. split.
  - intros k j. rewrite Hs. apply Ho.
  - intros k i j. rewrite Hs. apply Hx.
  - rewrite <-Ht. apply total_ext. intros i _. by rewrite Hs.
Qed.

(** The loop of [Len]; nodes that are not asked hold nothing. *)
Lemma ask_all_len nodes ixs acc s :
  dialled nodes -> (forall i, i ∈ ixs -> (i < length nodes)%nat) ->
  (forall i, i ∈ ixs -> is_healthy nodes i = false -> size (store s i) = 0%nat) -> 0 <= acc ->
  acc + Z.of_nat (total (fun i => size (store s i)) ixs) <= max_int64 ->
  exists s', ask_all nodes lenCmd (fun t n => int64 (t + n)) ixs acc s =
      (Ok (acc + Z.of_nat (total (fun i => size (store s i)) ixs)), s') /\ forall i, store s' i = store s i.
Proof.
  intros Hd. revert acc s. induction ixs as [|i ixs IH]; intros acc s Hlen Hemp Ha Hmax; cbn [ask_all total] in *.
  { exists s. split; [do 2 f_equal; lia|done]. }
  assert (has_client nodes i = true) as Hc.
  { unfold has_client. destruct (lookup_lt_is_Some_2 nodes i (Hlen i ltac:(set_solver))) as [n Hn]. rewrite Hn.
    pose proof (dl_client _ Hd) as Hf. rewrite Forall_forall in Hf. apply Hf. by eapply list_elem_of_lookup_2. }
  rewrite Hc. cbn [negb]. rewrite orb_false_r. destruct (is_healthy nodes i) eqn:Hh; cbn [negb].
  - destruct (mc_len i s) as (s1 & -> & Hs1); [lia|].
    assert (forall l, total (fun i => size (store s1 i)) l = total (fun i => size (store s i)) l) as Ht
      by (intros l; apply total_ext; intros x _; by rewrite Hs1).
    rewrite int64_id by (unfold in_int64, min_int64; lia).
    destruct (IH (acc + Z.of_nat (size (store s i))) s1) as (s2 & -> & Hs2);
      [set_solver|intros x Hx; rewrite Hs1; apply Hemp; set_solver|lia|rewrite Ht; lia|].
    exists s2. rewrite Ht. split; [do 2 f_equal; lia|]. intros x. by rewrite Hs2, Hs1.
  - rewrite (Hemp i) in * by set_solver. apply IH; [set_solver|set_solver|done|lia].
Qed.

Lemma unhealthy_empty nodes s m i :
  dialled nodes -> holds nodes s m -> is_healthy nodes i = false -> size (store s i) = 0%nat.
Proof.
  intros Hd Hh Hi. apply map_size_empty_iff, map_empty. intros k.
  destruct (owner_of nodes k Hd) as (j & Hj & _ & Hhj & _). eapply (ho_other _ _ _ Hh); [exact Hj|]. intros ->. congruence.
Qed.

Lemma size_insert_diff (k : string) (v : bytes) (m m' : gmap string bytes) :
  m !! k = m' !! k -> (size (<[k := v]> m) + size m' = size (<[k := v]> m') + size m)%nat.
Proof. intros H. rewrite !map_size_insert, H. destruct (m' !! k); cbn; lia. Qed.

Lemma size_delete_diff (k : string) (m m' : gmap string bytes) :
  m !! k = m' !! k -> (size (delete k m) + size m' = size (delete k m') + size m)%nat.
Proof.
  intros H. rewrite !map_size_delete, H. destruct (m' !! k) eqn:Hk; cbn; [|lia].
  assert (size m <> 0%nat) by (intros Hz%map_size_empty_inv; subst m; by rewrite lookup_empty in H).
  assert (size m' <> 0%nat) by (intros Hz%map_size_empty_inv; subst m'; by rewrite lookup_empty in Hk). lia.
Qed.

Lemma cluster_step_map nodes o s m :
  dialled nodes -> holds nodes s m -> wf_op o -> Z.of_nat (size m) <= max_int64 ->
  exists s', cluster_step (M := list Node) o nodes s ⇓ ((map_step o m).1, nodes, s') /\ holds nodes s' (map_step o m).2.
Proof.
  intros Hd Hh Hwf Hmax. destruct o as [k v|k|k|]; cbn [cluster_step map_step fst snd wf_op] in *.
  - destruct Hwf as [Hk Hv]. destruct (owner_of nodes k Hd) as (j & Hj & Hc & _ & Hlt). destruct (mc_set j k v s Hk Hv) as (s' & He & Hs).
    exists s'. unfold cm_Set. cbn [mode_Set shard_mode]. rewrite (shard_call_owner nodes k j) by done. rewrite He. split; [done|].
    eapply (holds_write nodes s s' m k j (fun m => <[k := v]> m) (Some v)); try done.
    + intros m'. apply lookup_insert_eq.
    + intros m' k' Hne. by apply lookup_insert_ne.
    + intros m1 m2. apply size_insert_diff.
  - destruct (owner_of nodes k Hd) as (j & Hj & Hc & _ & _). destruct (mc_get j k s Hwf) as (s' & He & Hs).
    exists s'. unfold cm_Get. cbn [mode_Get shard_mode]. rewrite (shard_call_owner nodes k j) by done. rewrite He.
    rewrite (ho_owner _ _ _ Hh k j Hj). split; [done|]. by eapply cluster_holds_same.
  - destruct (owner_of nodes k Hd) as (j & Hj & Hc & _ & Hlt). destruct (mc_del j k s Hwf) as (s' & He & Hs).
    exists s'. unfold cm_Del. cbn [mode_Del shard_mode]. rewrite (shard_call_owner nodes k j) by done. rewrite He. split; [done|].
    eapply (holds_write nodes s s' m k j (fun m => delete k m) None); try done.
    + intros m'. apply lookup_delete_eq.
    + intros m' k' Hne. by apply lookup_delete_ne.
    + intros m1 m2. apply size_delete_diff.
  - destruct (ask_all_len nodes (all_nodes nodes) 0 s Hd) as (s' & He & Hs).
    + intros i [_ Hi]%elem_of_seq. lia.
    + intros i _. by apply (unhealthy_empty nodes s m).
    + lia.
    + rewrite (ho_total _ _ _ Hh). lia.
    + exists s'. unfold cm_Len. cbn [mode_Len shard_mode mbind outcome_bind]. rewrite He, (ho_total _ _ _ Hh).
      split; [done|]. by eapply cluster_holds_same.
Qed.

Lemma map_step_size o m : (size (map_step o m).2 <= S (size m))%nat.
Proof.
  destruct o as [k v|k|k|]; cbn [map_step snd]; [rewrite map_size_insert; destruct (m !! k); cbn; lia|lia| |lia].
  rewrite map_size_delete. destruct (m !! k); cbn; lia.
Qed.

Lemma cluster_run_map nodes ops s m :
  dialled nodes -> holds nodes s m -> Forall wf_op ops -> Z.of_nat (size m + length ops) <= max_int64 ->
  exists s', cluster_run (M := list Node) ops nodes s ⇓ ((map_run ops m).1, nodes, s') /\ holds nodes s' (map_run ops m).2.
Proof.
  intros Hd Hh Hwf. revert s m Hh. induction Hwf as [|o ops Ho _ IH]; intros s m Hh Hmax; cbn [cluster_run map_run length] in *; [by exists s|].
  destruct (cluster_step_map nodes o s m Hd Hh Ho) as (s1 & He & Hh1); [lia|]. pose proof (map_step_size o m) as Hsz.
  destruct (map_step o m) as [r m1]. cbn [fst snd] in *. rewrite He. cbn [mbind outcome_bind].
  destruct (IH s1 m1 Hh1) as (s2 & He2 & Hh2); [lia|]. rewrite He2. destruct (map_run ops m1) as [rs m2]. cbn in *. eauto.
Qed.

(** ** Where the nodes come from *)

Lemma dial_all_nodes dial configs nodes :
  dial_all dial configs = Ok nodes -> positive nodes /\ Forall (fun n => Client_ n = true) nodes.
Proof.
  revert nodes. induction configs as [|nc configs IH]; intros nodes; cbn [dial_all].
  { intros [= <-]. split; constructor. }
  case_decide; [apply IH|]. unfold dial_node. destruct (dial (c_Addr nc)); [done|].
  destruct (dial_all dial configs) as [l|] eqn:Hl; [|done]. intros [= <-]. destruct (IH l eq_refl) as [H1 H2].
  split; constructor; cbn; try done. destruct (Z.leb_spec (c_Weight nc) 0); lia.
Qed.

Lemma probeAll_nodes probe i nodes :
  positive nodes -> Forall (fun n => Client_ n = true) nodes ->
  positive (probeAll probe i nodes) /\ Forall (fun n => Client_ n = true) (probeAll probe i nodes).
Proof.
  intros Hp. revert i. induction Hp as [|n nodes Hn _ IH]; intros i Hc; cbn [probeAll]; [split; constructor|].
  apply Forall_cons in Hc as [Hcn Hc]. rewrite Hcn. destruct (IH (S i) Hc) as [H1 H2].
  split; (apply Forall_cons; split; [exact Hn || exact Hcn || reflexivity|assumption]).
Qed.

Lemma new_dialled dial configs nodes probe :
  newShardMode dial configs = Ok nodes -> 0 < sum_weights (probeAll probe 0 nodes) < 2 ^ 32 -> dialled (probeAll probe 0 nodes).
Proof.
  unfold newShardMode. destruct (dial_all dial configs) as [l|] eqn:Hl; [|done]. intros Hn Hs.
  assert (l = nodes) as -> by (destruct l; simplify_eq; done). destruct (dial_all_nodes _ _ _ Hl) as [H1 H2].
  destruct (probeAll_nodes probe 0 nodes H1 H2). by split.
Qed.

Lemma holds_empty nodes s : (forall i, store s i = ∅) -> holds nodes s ∅.
Proof.
  intros Hs. split.
  - intros k j _. by rewrite Hs.
  - intros k i j _ _. by rewrite Hs.
  - rewrite (total_ext _ (fun _ => 0%nat)) by (intros i _; by rewrite Hs, map_size_empty).
    rewrite map_size_empty. induction (all_nodes nodes); cbn; done.
Qed.

(** C24 (refinement): a cluster of shards is one map.  The nodes are dialled and probed;
    at least one is healthy.  As long as no node's health changes, any run of [Set],
    [Get], [Del] and [Len] on the cluster returns, call by call, what a single map
    returns, when the client of every node does what a map does. *)
Theorem shard_cluster_is_map dial configs nodes probe ops s :
  newShardMode dial configs = Ok nodes -> 0 < sum_weights (probeAll probe 0 nodes) < 2 ^ 32 ->
  (forall i, store s i = ∅) -> Forall wf_op ops -> Z.of_nat (length ops) <= max_int64 ->
  exists s', cluster_run (M := list Node) ops (probeAll probe 0 nodes) s ⇓ ((map_run ops ∅).1, probeAll probe 0 nodes, s').
Proof.
  intros Hnew Hsum Hs Hwf Hlen. pose proof (new_dialled dial configs nodes probe Hnew Hsum) as Hd.
  destruct (cluster_run_map _ ops s ∅ Hd (holds_empty _ s Hs) Hwf) as (s' & H & _); [by rewrite map_size_empty|].
  exists s'. exact H.
Qed.

(** A node that comes back serves what it had.  A key is written while
    its node is healthy, then overwritten while the node is not and the key belongs to
    another one; when the node is healthy again, [Get] returns the first value. *)
Theorem recovered_node_serves_stale up down k v1 v2 i j s :
  dialled up -> dialled down -> k <> EmptyString -> v1 <> [] -> v2 <> [] ->
  pickNode k up ⇓ Some i -> pickNode k down ⇓ Some j -> i <> j ->
  exists s1 s2 s3,
    cm_Set up k (Some v1) 0 s ⇓ (Ok tt, s1) /\ cm_Set down k (Some v2) 0 s1 ⇓ (Ok tt, s2) /\
    cm_Get up k s2 ⇓ (Ok (Some v1), up, s3).
Proof.
  intros Hu Hd Hk Hv1 Hv2 Hi Hj Hne.
  destruct (owner_of up k Hu) as (i' & Hi' & Hci & _). assert (i' = i) as -> by congruence.
  destruct (owner_of down k Hd) as (j' & Hj' & Hcj & _). assert (j' = j) as -> by congruence.
  destruct (mc_set i k v1 s Hk Hv1) as (s1 & He1 & Hs1). destruct (mc_set j k v2 s1 Hk Hv2) as (s2 & He2 & Hs2).
  destruct (mc_get i k s2 Hk) as (s3 & He3 & _). exists s1, s2, s3. unfold cm_Set, cm_Get. cbn [mode_Set mode_Get shard_mode].
  rewrite !(shard_call_owner up k i) by done. rewrite (shard_call_owner down k j) by done. rewrite He1, He2, He3.
  rewrite Hs2, decide_False, Hs1, decide_True, lookup_insert_eq by done. done.
Qed.

End MapSpec.

(** ** Nodes that are maps *)

#[local] Existing Instance pattern_bits.
#[local] Opaque be.

(** A server that keeps a map and knows four commands. *)
Definition map_serve (req : Request) (m : gmap string bytes) : Response * gmap string bytes :=
  if Cmd req =? CmdGet then
    (match m !! Key req with Some v => mkResponse StatusOK (Some v) EmptyString | None => mkResponse StatusNotFound None EmptyString end, m)
  else if Cmd req =? CmdSet then (mkResponse StatusOK None EmptyString, <[Key req := val (Value req)]> m)
  else if Cmd req =? CmdDel then (mkResponse StatusOK None EmptyString, delete (Key req) m)
  else if Cmd req =? CmdLen then (mkResponse StatusOK (Some (be 8 (Z.of_nat (size m)))) EmptyString, m)
  else (mkResponse StatusErr None "unknown command", m).

Notation node_maps := (gmap nat (gmap string bytes)).

Definition node_map (s : node_maps) (i : nat) : gmap string bytes := default ∅ (s !! i).

#[local] Instance map_clients : Clients (float64 := pattern) node_maps := fun A i c s =>
  match c with
  | KvCall req read => let '(resp, m) := map_serve req (node_map s i) in (read resp, <[i := m]> s)
  | _ => (Err (ErrMsg "unknown command"), s)
  end.

Lemma node_map_insert (s : node_maps) i m j : node_map (<[i := m]> s) j = if decide (j = i) then m else node_map s j.
Proof.
  unfold node_map. case_decide as He; [subst; by rewrite lookup_insert_eq|by rewrite lookup_insert_ne].
Qed.

Lemma node_map_same (s : node_maps) i j : node_map (<[i := node_map s i]> s) j = node_map s j.
Proof. rewrite node_map_insert. case_decide; by subst. Qed.

Lemma map_clients_laws : MapClients (CL := map_clients) node_map.
Proof.
  split; unfold perform, map_clients.
  - intros i k s Hk. exists (<[i := node_map s i]> s). split; [|apply node_map_same]. cbn. by destruct (node_map s i !! k).
  - intros i k v s Hk Hv. eexists. split; [reflexivity|]. apply node_map_insert.
  - intros i k s Hk. eexists. split; [reflexivity|]. apply node_map_insert.
  - intros i s Hsz. exists (<[i := node_map s i]> s). split; [|apply node_map_same]. unfold lenCmd.
    change (map_serve _ _) with (mkResponse StatusOK (Some (be 8 (Z.of_nat (size (node_map s i))))) EmptyString, node_map s i).
    unfold kv_ok, counter, int_value. cbn [Status RValue val default negb id]. rewrite length_be, take_ge by (rewrite length_be; lia).
    assert (0 <= Z.of_nat (size (node_map s i)) < 256 ^ Z.of_nat 8) by (unfold max_int64 in Hsz; lia).
    rewrite unbe_be_small by done. rewrite int64_id by (unfold in_int64, min_int64; lia). done.
Qed.

#[local] Existing Instance map_clients_laws.

Definition demo_configs : list NodeConfig := [mkConfig "a:1" 2 false; mkConfig "" 7 false; mkConfig "b:1" 0 false; mkConfig "c:1" 5 false].
Definition demo_up : list Node := [mkNode "a:1" 2 true true; mkNode "b:1" 1 true true; mkNode "c:1" 5 true true].
Definition demo_down : list Node := [mkNode "a:1" 2 true true; mkNode "b:1" 1 true true; mkNode "c:1" 5 true false].
Definition demo_ops : list map_op := [MSet "x" [x61]; MSet "y" [x62]; MSet "x" [x63]; MGet "x"; MDel "y"; MGet "y"; MLen].

Lemma pick_node_weighted_witness : exists j, pickNode "x" demo_up ⇓ Some j.
Proof.
  destruct (pick_node_weighted "x" demo_up) as (j & _ & H & _).
  - by repeat constructor.
  - vm_compute. split; reflexivity.
  - by exists j.
Defined.

Lemma shard_cluster_is_map_witness :
  exists s', cluster_run (St := node_maps) (M := list Node) demo_ops (probeAll (fun i => negb (i =? 2)%nat) 0 demo_up) ∅
    ⇓ ((map_run demo_ops ∅).1, demo_down, s').
Proof.
  apply (shard_cluster_is_map node_map (fun _ => None) demo_configs demo_up (fun i => negb (i =? 2)%nat) demo_ops ∅).
  - reflexivity.
  - vm_compute. split; reflexivity.
  - intros i. reflexivity.
  - by repeat constructor.
  - discriminate.
Defined.

Lemma recovered_node_serves_stale_witness :
  exists s1 s2 s3,
    cm_Set (St := node_maps) demo_up "x" (Some [x61]) 0 ∅ ⇓ (Ok tt, s1) /\
    cm_Set demo_down "x" (Some [x62]) 0 s1 ⇓ (Ok tt, s2) /\ cm_Get demo_up "x" s2 ⇓ (Ok (Some [x61]), demo_up, s3).
Proof.
  apply (recovered_node_serves_stale node_map demo_up demo_down "x" [x61] [x62] 2 0 ∅); try discriminate.
  - split; [by repeat constructor..|vm_compute; split; reflexivity].
  - split; [by repeat constructor..|vm_compute; split; reflexivity].
  - vm_compute. reflexivity.
  - vm_compute. reflexivity.
Defined.
