(* ===== verification/Failover.v ===== *)
(** * Failover and reads from slaves

    The master of the sentinel and master-slave modes: when it changes, to which node,
    and that it does change when it must.  A run is a list of health checks, each with
    the nodes that answered and the time.  Then the round robin over the slaves. *)

From Stdlib Require Import Strings.String.
From stdpp Require Import base tactics numbers list gmap sets fin_maps strings.
From S2P Require Import Prelude.
From S2P Require Import Bytes.
From S2P Require Import Wire.
From S2P Require Import WireSet.
From S2P Require Import WireExt.
From S2P Require Import WireExtSpec.
From S2P Require Import RaftCmd.
From S2P Require Import Server.
From S2P Require Import Client.
From S2P Require Import Cluster.
From S2P Require Import ClusterSpec.

Open Scope Z_scope.

(** ** Health bits *)

Lemma has_client_set i j b nodes : has_client (set_healthy i b nodes) j = has_client nodes j.
Proof.
  unfold has_client, set_healthy. destruct (decide (i = j)) as [->|Hne]; [|by rewrite list_lookup_alter_ne].
  rewrite list_lookup_alter_eq. by destruct (nodes !! j).
Qed.

Lemma is_healthy_set_ne i j b nodes : i <> j -> is_healthy (set_healthy i b nodes) j = is_healthy nodes j.
Proof. intros Hne. unfold is_healthy, set_healthy. by rewrite list_lookup_alter_ne. Qed.

Lemma is_healthy_set i b nodes : has_client nodes i = true -> is_healthy (set_healthy i b nodes) i = b.
Proof. unfold is_healthy, has_client, set_healthy. rewrite list_lookup_alter_eq. by destruct (nodes !! i). Qed.

(** What no check changes. *)
Definition static (n : Node) : string * Z * bool := (Addr n, Weight n, Client_ n).

Lemma static_set i b nodes : static <$> set_healthy i b nodes = static <$> nodes.
Proof.
  apply list_eq. intros j. unfold set_healthy. rewrite !list_lookup_fmap.
  destruct (decide (i = j)) as [->|Hne]; [|by rewrite list_lookup_alter_ne].
  rewrite list_lookup_alter_eq. by destruct (nodes !! j).
Qed.

Definition probe_nodes (probe : nat -> bool) (ixs : list nat) (nodes : list Node) : list Node :=
  foldl (fun nodes i => set_healthy i (probeNodeHealth probe nodes i) nodes) nodes ixs.

Lemma probe_nodes_client probe ixs nodes j : has_client (probe_nodes probe ixs nodes) j = has_client nodes j.
Proof.
  unfold probe_nodes. revert nodes. induction ixs as [|i ixs IH]; intros nodes; cbn; [done|].
  by rewrite IH, has_client_set.
Qed.

Lemma probe_nodes_static probe ixs nodes : static <$> probe_nodes probe ixs nodes = static <$> nodes.
Proof.
  unfold probe_nodes. revert nodes. induction ixs as [|i ixs IH]; intros nodes; cbn; [done|].
  by rewrite IH, static_set.
Qed.

Lemma probe_nodes_other probe ixs nodes j :
  j ∉ ixs -> is_healthy (probe_nodes probe ixs nodes) j = is_healthy nodes j.
Proof.
  unfold probe_nodes. revert nodes. induction ixs as [|i ixs IH]; intros nodes Hj; cbn; [done|].
  rewrite IH, is_healthy_set_ne by set_solver. done.
Qed.

Lemma probe_nodes_healthy probe ixs nodes j :
  j ∈ ixs -> has_client nodes j = true -> is_healthy (probe_nodes probe ixs nodes) j = probe j.
Proof.
  intros Hj Hc. unfold probe_nodes. revert nodes Hc. induction ixs as [|i ixs IH]; intros nodes Hc; [set_solver|]. cbn.
  destruct (decide (j ∈ ixs)) as [Hin|Hni]; [by apply IH; [done|rewrite has_client_set]|].
  assert (i = j) as -> by set_solver. fold (probe_nodes probe ixs (set_healthy j (probeNodeHealth probe nodes j) nodes)).
  rewrite probe_nodes_other, is_healthy_set by done. unfold probeNodeHealth. by rewrite Hc.
Qed.

(** ** Members *)

Definition members (f : Failover) : list nat := option_list (fo_master f) ++ fo_others f.

Record wired (f : Failover) : Prop := {
  wi_nodup : NoDup (members f);
  wi_client i : i ∈ members f -> has_client (fo_nodes f) i = true;
}.

Lemma remove_first_perm i l : i ∈ l -> i :: remove_first i l ≡ₚ l.
Proof.
  induction l as [|j l IH]; intros Hi; [set_solver|]. cbn. destruct (Nat.eqb_spec j i) as [->|Hne]; [done|].
  rewrite Permutation_swap, IH by set_solver. done.
Qed.

Lemma find_best_Some f b : find_best f = Some b ->
  b ∈ fo_others f /\ fo_master f <> Some b /\ is_healthy (fo_nodes f) b = true.
Proof.
  intros [Hin Hb]%List.find_some. rewrite !andb_true_iff, negb_true_iff, bool_decide_eq_false in Hb.
  split; [by apply list_elem_of_In|tauto].
Qed.

Lemma find_best_None f b : find_best f = None -> b ∈ fo_others f -> fo_master f <> Some b ->
  has_client (fo_nodes f) b = true -> is_healthy (fo_nodes f) b = false.
Proof.
  intros Hn Hb Hm Hc. pose proof (List.find_none _ _ Hn b (proj1 (list_elem_of_In _ _) Hb)) as H. cbn in H.
  rewrite bool_decide_false, Hc in H by done. exact H.
Qed.

(** No node is lost, and only the health of nodes changes. *)
Definition same_members (f f' : Failover) : Prop :=
  members f' ≡ₚ members f /\ static <$> fo_nodes f' = static <$> fo_nodes f.

#[local] Instance same_members_preorder : PreOrder same_members.
Proof.
  split; [by split|]. intros f g h [H1 H2] [H3 H4]. split; [by rewrite H3|by rewrite H4].
Qed.

Lemma same_members_nodes f nodes : static <$> nodes = static <$> fo_nodes f -> same_members f (with_nodes nodes f).
Proof. by split. Qed.

Lemma same_members_first f t : same_members f (with_first t f).
Proof. by split. Qed.

Lemma tryFailover_members f : same_members f (tryFailover f).
Proof.
  unfold tryFailover. destruct (match fo_master f with Some m => _ | None => _ end); [done|].
  destruct (find_best f) as [b|] eqn:Hb; [|done]. apply find_best_Some in Hb as (Hin & _).
  pose proof (remove_first_perm b (fo_others f) Hin) as Hp.
  destruct (fo_master f) as [old|] eqn:Hm; split; cbn; rewrite ?static_set; try done; unfold members; cbn; rewrite Hm; cbn; [|done].
  transitivity (old :: b :: remove_first b (fo_others f)); [|by rewrite Hp].
  by rewrite (app_comm_cons (remove_first b (fo_others f)) [old] b), Permutation_app_comm.
Qed.

Lemma check_members timeout probe now f : same_members f (checkAndFailover timeout probe now f).
Proof.
  unfold checkAndFailover. transitivity (probe_others probe f).
  { apply same_members_nodes. apply (probe_nodes_static probe (fo_others f) (fo_nodes f)). }
  generalize (probe_others probe f). clear f. intros f.
  destruct (fo_master f) as [m|] eqn:Hm; [|apply tryFailover_members].
  destruct (negb (has_client (fo_nodes f) m)); [apply tryFailover_members|]. set (h := probeNodeHealth probe (fo_nodes f) m).
  transitivity (with_nodes (set_healthy m h (fo_nodes f)) f); [apply same_members_nodes, static_set|].
  clearbody h. generalize (with_nodes (set_healthy m h (fo_nodes f)) f). clear f Hm. intros f.
  destruct h; [apply same_members_first|]. destruct (firstUnhealthyAt f) as [t|]; [|apply same_members_first].
  destruct (sat64 (now - t) >=? timeout); [apply tryFailover_members|done].
Qed.

Lemma static_client nodes nodes' i : static <$> nodes' = static <$> nodes -> has_client nodes' i = has_client nodes i.
Proof.
  intros H. apply (f_equal (fun l => l !! i)) in H. rewrite !list_lookup_fmap in H. unfold has_client.
  destruct (nodes' !! i), (nodes !! i); cbn in H; by simplify_eq.
Qed.

Lemma wired_same f f' : same_members f f' -> wired f -> wired f'.
Proof.
  intros [Hp Hs] [Hn Hc]. split; [by rewrite Hp|]. intros i Hi. rewrite (static_client _ _ i Hs). apply Hc. by rewrite <-Hp.
Qed.

(** ** One check *)

(** What a check does to a master [a], by what [a] answers. *)
Inductive check_result (timeout : Z) (probe : nat -> bool) (now : Z) (f : Failover) (a : nat) (f' : Failover) : Prop :=
| CheckUp :
    probe a = true -> fo_master f' = Some a -> firstUnhealthyAt f' = None -> check_result timeout probe now f a f'
| CheckDown t :
    probe a = false -> fo_master f' = Some a -> firstUnhealthyAt f' = Some t ->
    t = default now (firstUnhealthyAt f) ->
    (forall t0 b, firstUnhealthyAt f = Some t0 -> timeout <= sat64 (now - t0) -> b ∈ fo_others f -> probe b = false) ->
    check_result timeout probe now f a f'
| CheckPromote t b :
    probe a = false -> firstUnhealthyAt f = Some t -> timeout <= sat64 (now - t) -> b ∈ fo_others f -> probe b = true ->
    fo_master f' = Some b -> firstUnhealthyAt f' = None -> check_result timeout probe now f a f'.

Lemma other_health probe f a h b :
  wired f -> fo_master f = Some a -> b ∈ fo_others f ->
  is_healthy (set_healthy a h (probe_nodes probe (fo_others f) (fo_nodes f))) b = probe b /\ a <> b.
Proof.
  intros [Hn Hc] Hm Hb. assert (a <> b) as Hne.
  { unfold members in Hn. rewrite Hm in Hn. apply NoDup_cons in Hn as [Hn _]. by intros ->. }
  split; [|done]. rewrite is_healthy_set_ne, probe_nodes_healthy; [done|done| |done].
  apply Hc. unfold members. apply elem_of_app. by right.
Qed.

Lemma check_cases timeout probe now f a :
  wired f -> fo_master f = Some a -> check_result timeout probe now f a (checkAndFailover timeout probe now f).
Proof.
  intros Hw Hm. pose proof (wi_client f Hw a) as Hca. unfold members in Hca. rewrite Hm in Hca. specialize (Hca ltac:(set_solver)).
  unfold checkAndFailover, probe_others. cbn [fo_master with_nodes]. rewrite Hm. cbn [fo_nodes with_nodes].
  fold (probe_nodes probe (fo_others f) (fo_nodes f)). unfold probeNodeHealth. rewrite probe_nodes_client, Hca. cbn [negb andb].
  destruct (probe a) eqn:Hp; [by apply CheckUp|]. cbn [firstUnhealthyAt with_nodes].
  pose proof (fun b => other_health probe f a false b Hw Hm) as Hoth.
  destruct (firstUnhealthyAt f) as [t|] eqn:Ht; [|by apply (CheckDown _ _ _ _ _ _ now); rewrite ?Ht].
  destruct (Z.geb_spec (sat64 (now - t)) timeout) as [Hge|Hlt]; cycle 1.
  { eapply CheckDown; try done; [by rewrite Ht|]. intros t0 b Ht0. rewrite Ht in Ht0. injection Ht0 as <-. lia. }
  unfold tryFailover. cbn [fo_master with_nodes fo_nodes fo_others]. rewrite ?Hm. rewrite is_healthy_set by (by rewrite probe_nodes_client).
  destruct (find_best _) as [b|] eqn:Hb.
  - apply find_best_Some in Hb as (Hin & _ & Hh). cbn in Hin, Hh. rewrite (proj1 (Hoth b Hin)) in Hh. by eapply CheckPromote.
  - eapply CheckDown; try done; [by rewrite Ht|]. intros t0 b _ _ Hin. rewrite <-(proj1 (Hoth b Hin)).
    eapply find_best_None in Hb; [exact Hb|exact Hin| |]; cbn.
    + destruct (Hoth b Hin). congruence.
    + rewrite has_client_set, probe_nodes_client. apply (wi_client f Hw). unfold members. apply elem_of_app. by right.
Qed.

(** ** Runs *)

(** A check: who answers, and when. *)
Definition tick : Type := (nat -> bool) * Z.

Definition check_all (timeout : Z) (ticks : list tick) (f : Failover) : Failover :=
  foldl (fun f '(probe, now) => checkAndFailover timeout probe now f) f ticks.

Lemma check_all_snoc timeout ticks probe now f :
  check_all timeout (ticks ++ [(probe, now)]) f = checkAndFailover timeout probe now (check_all timeout ticks f).
Proof. unfold check_all. by rewrite foldl_app. Qed.

Lemma check_all_members timeout ticks f : same_members f (check_all timeout ticks f).
Proof.
  induction ticks as [|[probe now] ticks IH] using rev_ind; [done|]. rewrite check_all_snoc.
  etransitivity; [exact IH|apply check_members].
Qed.

Lemma check_all_wired timeout ticks f : wired f -> wired (check_all timeout ticks f).
Proof. apply wired_same, check_all_members. Qed.

Lemma check_all_master timeout ticks f a :
  wired f -> fo_master f = Some a -> exists b, fo_master (check_all timeout ticks f) = Some b.
Proof.
  intros Hw Hm. induction ticks as [|[probe now] ticks [b IH]] using rev_ind; [by exists a|]. rewrite check_all_snoc.
  destruct (check_cases timeout probe now _ b (check_all_wired timeout ticks f Hw) IH); eauto.
Qed.

(** [a] is the master and has not answered since the check at time [t]. *)
Definition outage (timeout : Z) (f : Failover) (a : nat) (t : Z) (ticks : list tick) : Prop :=
  exists pre probe post, ticks = pre ++ (probe, t) :: post /\
    Forall (fun p : tick => p.1 a = false) ((probe, t) :: post) /\
    fo_master (check_all timeout pre f) = Some a.

Lemma outage_snoc timeout f a t ticks (p : tick) : outage timeout f a t ticks -> p.1 a = false -> outage timeout f a t (ticks ++ [p]).
Proof.
  intros (pre & probe & post & -> & Hall & Hm) Hp. exists pre, probe, (post ++ [p]). split_and!; [by rewrite <-app_assoc| |done].
  rewrite app_comm_cons. apply Forall_app. by split; [|apply Forall_singleton].
Qed.

(** The recorded time is that of an outage of the present master. *)
Lemma first_outage timeout ticks f a t :
  wired f -> is_Some (fo_master f) -> firstUnhealthyAt f = None ->
  fo_master (check_all timeout ticks f) = Some a -> firstUnhealthyAt (check_all timeout ticks f) = Some t ->
  outage timeout f a t ticks.
Proof.
  intros Hw [m Hm] Hnone. revert a t. induction ticks as [|[probe now] ticks IH] using rev_ind; intros a t Ha Ht; [cbn in Ht; congruence|].
  rewrite check_all_snoc in Ha, Ht. destruct (check_all_master timeout ticks f m Hw Hm) as [a' Ha'].
  destruct (check_cases timeout probe now _ a' (check_all_wired timeout ticks f Hw) Ha') as [|t' Hp Hm' Ht' Hdef _|]; [congruence| |congruence].
  assert (a' = a /\ t' = t) as [-> ->] by (split; congruence).
  destruct (firstUnhealthyAt (check_all timeout ticks f)) as [t0|] eqn:H0; cbn in Hdef; subst.
  - apply outage_snoc; [by apply IH|done].
  - exists ticks, probe, []. split_and!; [done|by repeat constructor|done].
Qed.

(** ** Modes as they are created *)

Inductive created : Failover -> Prop :=
| created_sentinel dial master sentinels f : newSentinelMode dial master sentinels = Ok f -> created f
| created_master_slave dial master slaves f next : newMasterSlaveMode dial master slaves = Ok (MasterSlave f next) -> created f.

Lemma has_client_all nodes i : Forall (fun n => Client_ n = true) nodes -> (i < length nodes)%nat -> has_client nodes i = true.
Proof.
  intros Hall Hi. unfold has_client. destruct (lookup_lt_is_Some_2 nodes i Hi) as [n Hn]. rewrite Hn.
  by eapply (Forall_lookup_1 _ _ _ _ Hall).
Qed.

Lemma wired_fresh m others : Client_ m = true -> Forall (fun n => Client_ n = true) others ->
  wired (mkFo (m :: others) (Some 0%nat) (seq 1 (length others)) None).
Proof.
  intros Hm Ho. split; unfold members; cbn [fo_master fo_others fo_nodes option_list app].
  - apply (NoDup_seq 0 (S (length others))).
  - intros i Hi. apply has_client_all; [by constructor|]. cbn. apply elem_of_cons in Hi as [->|Hi]; [lia|].
    apply elem_of_seq in Hi. lia.
Qed.

Lemma dial_reachable_clients dial w addrs : Forall (fun n => Client_ n = true) (dial_reachable dial w addrs).
Proof.
  induction addrs as [|addr addrs IH]; cbn; [constructor|]. unfold dial_node. destruct (dial addr); [done|]. by constructor.
Qed.

Lemma dial_slaves_clients dial addrs l : dial_slaves dial addrs = Ok l -> Forall (fun n => Client_ n = true) l.
Proof.
  revert l. induction addrs as [|addr addrs IH]; intros l; cbn; [intros [= <-]; constructor|].
  unfold dial_node. destruct (dial addr); [done|]. destruct (dial_slaves dial addrs); [|done]. intros [= <-].
  constructor; [done|by apply IH].
Qed.

Lemma created_wired f : created f -> wired f /\ fo_master f = Some 0%nat /\ firstUnhealthyAt f = None.
Proof.
  intros [dial master sentinels f' H|dial master slaves f' next H].
  - unfold newSentinelMode, dial_node in H. case_decide; [done|]. case_decide; [done|]. destruct (dial master); [done|].
    pose proof (dial_reachable_clients dial 0 sentinels) as Hc.
    destruct (dial_reachable dial 0 sentinels) as [|n l] eqn:Hl; [done|]. injection H as <-.
    split_and!; [|done..]. by apply (wired_fresh (mkNode master 0 true true) (n :: l)).
  - unfold newMasterSlaveMode, dial_node in H. case_decide; [done|]. case_decide; [done|]. destruct (dial master); [done|].
    destruct (dial_slaves dial slaves) as [l|] eqn:Hl; [|done]. injection H as <- _.
    split_and!; [|done..]. apply (wired_fresh (mkNode master 1 true true) l); [done|by eapply dial_slaves_clients].
Qed.

(** *** What [Nodes] shows *)

Lemma failover_Nodes_members f :
  failover_Nodes f = concat ((fun i => option_list (Info <$> fo_nodes f !! i)) <$> members f).
Proof.
  unfold failover_Nodes, members. rewrite fmap_app, concat_app. f_equal.
  - destruct (fo_master f) as [m|]; cbn; [|done]. rewrite app_nil_r. by destruct (fo_nodes f !! m).
  - f_equal. apply list_fmap_ext. intros _ i _. by destruct (fo_nodes f !! i).
Qed.

Lemma Nodes_addresses f :
  i_Addr <$> failover_Nodes f = concat ((fun i => option_list ((fun x => x.1.1) <$> (static <$> fo_nodes f) !! i)) <$> members f).
Proof.
  rewrite failover_Nodes_members. induction (members f) as [|i l IH]; cbn; [done|]. rewrite fmap_app, IH. f_equal.
  rewrite list_lookup_fmap. by destruct (fo_nodes f !! i).
Qed.

(** No node is lost.  After any run of health checks the cluster has a
    master, [Nodes] lists the addresses it listed when the cluster was created, in some
    order, and no node is both the master and a replica, or a replica twice. *)
Theorem failover_keeps_nodes timeout ticks f :
  created f ->
  is_Some (fo_master (check_all timeout ticks f)) /\
  i_Addr <$> failover_Nodes (check_all timeout ticks f) ≡ₚ i_Addr <$> failover_Nodes f /\
  NoDup (members (check_all timeout ticks f)).
Proof.
  intros Hc. destruct (created_wired f Hc) as (Hw & Hm & _).
  destruct (check_all_members timeout ticks f) as [Hp Hs]. split_and!.
  - by destruct (check_all_master timeout ticks f 0 Hw Hm) as [b ->].
  - rewrite !Nodes_addresses, Hs, Hp. done.
  - apply (check_all_wired timeout ticks f Hw).
Qed.

(** C26 (safety): a failover needs an outage.  If a health check replaces the master [a]
    by [b], then [b] answered at that check, and [a] has been the master without
    answering any check since one that lies at least the failover timeout back.  So a
    master that answers is never replaced, and one missed check is not enough. *)
Theorem failover_needs_outage timeout ticks probe now f a b :
  created f -> fo_master (check_all timeout ticks f) = Some a ->
  fo_master (check_all timeout (ticks ++ [(probe, now)]) f) = Some b -> a <> b ->
  probe a = false /\ probe b = true /\ exists t, outage timeout f a t ticks /\ timeout <= sat64 (now - t).
Proof.
  intros Hc Ha Hb Hne. destruct (created_wired f Hc) as (Hw & Hm & Hfirst). rewrite check_all_snoc in Hb.
  destruct (check_cases timeout probe now _ a (check_all_wired timeout ticks f Hw) Ha) as [| |t b' Hp Ht Hto _ Hb' Hm' _]; [congruence..|].
  assert (b' = b) as -> by congruence. split_and!; [done..|]. exists t. split; [|done]. by apply first_outage; rewrite ?Hm.
Qed.

(** A promotion during a run: a check at which [a] is replaced by a node that answers. *)
Definition promotes (timeout : Z) (f : Failover) (a : nat) (past ticks : list tick) : Prop :=
  exists pre q post b, ticks = pre ++ q :: post /\
    fo_master (check_all timeout (past ++ pre) f) = Some a /\
    fo_master (check_all timeout (past ++ pre ++ [q]) f) = Some b /\ b <> a /\ q.1 b = true.

Lemma promotes_more timeout f a past ticks more : promotes timeout f a past ticks -> promotes timeout f a past (ticks ++ more).
Proof.
  intros (pre & q & post & b & -> & H). exists pre, q, (post ++ more), b. by rewrite <-app_assoc.
Qed.

(** A check of a silent master. *)
Lemma silent_check timeout f a past ticks probe now :
  wired f -> fo_master (check_all timeout (past ++ ticks) f) = Some a -> probe a = false ->
  promotes timeout f a past (ticks ++ [(probe, now)]) \/
  fo_master (check_all timeout (past ++ ticks ++ [(probe, now)]) f) = Some a /\
  firstUnhealthyAt (check_all timeout (past ++ ticks ++ [(probe, now)]) f) =
    Some (default now (firstUnhealthyAt (check_all timeout (past ++ ticks) f))) /\
  (forall t b, firstUnhealthyAt (check_all timeout (past ++ ticks) f) = Some t -> timeout <= sat64 (now - t) ->
     b ∈ members f -> b <> a -> probe b = false).
Proof.
  intros Hw Ha Hp. pose proof (check_all_wired timeout (past ++ ticks) f Hw) as Hw'.
  pose proof (check_cases timeout probe now _ a Hw' Ha) as Hck. rewrite <-check_all_snoc, <-app_assoc in Hck.
  destruct Hck as [|t Hp' Hm Hf -> Hno|t b _ Ht Hto Hb Hpb Hm _]; [congruence| |].
  - right. split_and!; [done..|]. intros t b Ht Hto Hb Hne. eapply Hno; [done..|].
    destruct (check_all_members timeout (past ++ ticks) f) as [Hperm _]. rewrite <-Hperm in Hb. unfold members in Hb. rewrite Ha in Hb.
    set_solver.
  - left. exists ticks, (probe, now), [], b. split_and!; try done. intros ->.
    pose proof (wi_nodup _ Hw') as Hnd. unfold members in Hnd. rewrite Ha in Hnd. by apply NoDup_cons in Hnd as [? _].
Qed.

(** Without a promotion the time of the first silent check is kept. *)
Lemma silent_run timeout f a past ticks q :
  wired f -> fo_master (check_all timeout past f) = Some a -> Forall (fun p : tick => p.1 a = false) (q :: ticks) ->
  promotes timeout f a past (q :: ticks) \/
  fo_master (check_all timeout (past ++ q :: ticks) f) = Some a /\
  firstUnhealthyAt (check_all timeout (past ++ q :: ticks) f) = Some (default q.2 (firstUnhealthyAt (check_all timeout past f))).
Proof.
  intros Hw Ha. induction ticks as [|[probe now] ticks IH] using rev_ind; intros Hall.
  - apply Forall_cons in Hall as [Hall _]. destruct q as [probe now]. cbn in Hall.
    destruct (silent_check timeout f a past [] probe now Hw) as [H|(H1 & H2 & _)]; [by rewrite app_nil_r|done|by left|].
    right. split; [exact H1|]. rewrite app_nil_r in H2. exact H2.
  - rewrite app_comm_cons in *. apply Forall_app in Hall as [Hall Hp]. apply Forall_cons in Hp as [Hp _]. cbn in Hp.
    destruct (IH Hall) as [H|[H1 H2]]; [left; by apply promotes_more|].
    destruct (silent_check timeout f a past (q :: ticks) probe now) as [H|(H3 & H4 & _)]; [done..|by left|].
    right. split; [exact H3|]. etransitivity; [exact H4|]. by rewrite H2.
Qed.

(** C27 (liveness): an outage ends in a failover.  The master [a] of a running cluster
    does not answer from the check at time [t0] on; the last check comes at least the
    failover timeout later and another node answers it.  Then at one of these checks [a]
    is replaced by a node that answers that check. *)
Theorem failover_happens timeout past probe0 t0 mid probe t f a b :
  created f -> fo_master (check_all timeout past f) = Some a ->
  Forall (fun q : tick => q.2 <= t0) past -> timeout <= sat64 (t - t0) ->
  Forall (fun q : tick => q.1 a = false) ((probe0, t0) :: mid ++ [(probe, t)]) ->
  b ∈ members f -> b <> a -> probe b = true ->
  promotes timeout f a past ((probe0, t0) :: mid ++ [(probe, t)]).
Proof.
  intros Hc Ha Hpast Hto Hall Hb Hne Hpb. destruct (created_wired f Hc) as (Hw & Hm & Hfirst).
  rewrite app_comm_cons in *. apply Forall_app in Hall as [Hall Hp]. apply Forall_cons in Hp as [Hp _].
  destruct (silent_run timeout f a past mid (probe0, t0) Hw Ha Hall) as [H|[H1 H2]]; [by apply promotes_more|].
  destruct (silent_check timeout f a past ((probe0, t0) :: mid) probe t) as [H|(_ & _ & Hno)]; [done..|].
  exfalso. cbn in H2. assert (default t0 (firstUnhealthyAt (check_all timeout past f)) <= t0) as Hle.
  { destruct (firstUnhealthyAt (check_all timeout past f)) as [t'|] eqn:Ht'; cbn; [|lia].
    destruct (first_outage timeout past f a t' Hw ltac:(by rewrite Hm) Hfirst Ha Ht') as (pre & p & post & -> & _).
    apply Forall_app in Hpast as [_ Hpast]. by apply Forall_cons in Hpast as [? _]. }
  rewrite (Hno _ b H2) in Hpb; try done. unfold sat64 in *. lia.
Qed.

(** ** Reads from the slaves *)

(** The positions the loop has tried since [next]. *)
Lemma pick_slave_spec k nodes slaves next :
  (0 < length slaves)%nat -> Z.of_nat (length slaves) < 2 ^ 32 -> 0 <= next -> next + Z.of_nat k < 2 ^ 32 ->
  exists o next', pick_slave k nodes slaves next = (o, next') /\ next <= next' <= next + Z.of_nat k /\
    match o with
    | Some i => i ∈ slaves /\ is_healthy nodes i = true
    | None => forall j i, next < j <= next + Z.of_nat k -> slaves !! Z.to_nat (j mod Z.of_nat (length slaves)) = Some i ->
        is_healthy nodes i = false
    end.
Proof.
  intros Hpos Hlen Hn. revert next Hn. induction k as [|k IH]; intros next Hn Hk; cbn [pick_slave].
  { exists None, next. split_and!; [done|lia..|]. intros j i Hj. lia. }
  rewrite (wrapU_small 32 (next + 1)), (wrapU_small 32 (Z.of_nat (length slaves))) by lia.
  pose proof (Z.mod_pos_bound (next + 1) (Z.of_nat (length slaves)) ltac:(lia)) as Hmod.
  destruct (lookup_lt_is_Some_2 slaves (Z.to_nat ((next + 1) mod Z.of_nat (length slaves))) ltac:(lia)) as [i Hi]. rewrite Hi.
  destruct (is_healthy nodes i) eqn:Hh.
  - exists (Some i), (next + 1). split_and!; [done|lia..|by eapply list_elem_of_lookup_2|done].
  - destruct (IH (next + 1)) as (o & next' & -> & Hr & Ho); [lia..|]. exists o, next'. split_and!; [done|lia..|].
    destruct o as [i'|]; [done|]. intros j i' Hj Hi'. destruct (decide (j = next + 1)) as [->|Hne]; [congruence|].
    apply (Ho j i'); [lia|done].
Qed.

(** A full round passes every position. *)
Lemma full_round next n p : 0 < n -> 0 <= p < n -> exists j, next < j <= next + n /\ j mod n = p.
Proof.
  intros Hn Hp. exists (next + 1 + (p - (next + 1)) mod n). pose proof (Z.mod_pos_bound (p - (next + 1)) n Hn).
  split; [lia|]. rewrite Z.add_mod_idemp_r by lia. replace (next + 1 + (p - (next + 1))) with p by lia. by apply Z.mod_small.
Qed.

Lemma pickSlave_spec (m : MasterSlaveMode) :
  let f := ms_fo m in
  0 <= nextSlave m -> nextSlave m + Z.of_nat (length (fo_others f)) < 2 ^ 32 ->
  exists o next', pickSlave m = (o, MasterSlave f next') /\
    match o with
    | Some i => i ∈ fo_others f /\ is_healthy (fo_nodes f) i = true
    | None => forall i, i ∈ fo_others f -> is_healthy (fo_nodes f) i = false
    end.
Proof.
  cbv zeta. intros Hn Hlen. unfold pickSlave. set (slaves := fo_others (ms_fo m)) in *.
  destruct slaves as [|i0 sl] eqn:Hs; [exists None, (nextSlave m); split; [done|set_solver]|]. rewrite <-Hs in *.
  assert (0 < length slaves)%nat as Hpos by (rewrite Hs; cbn; lia).
  destruct (pick_slave_spec (length slaves) (fo_nodes (ms_fo m)) slaves (nextSlave m)) as (o & next' & -> & Hr & Ho); [lia..|].
  exists o, next'. split; [done|]. destruct o as [i|]; [done|]. intros i [p Hp]%list_elem_of_lookup_1.
  pose proof (lookup_lt_Some _ _ _ Hp) as Hlt.
  destruct (full_round (nextSlave m) (Z.of_nat (length slaves)) (Z.of_nat p)) as (j & Hj & Hjm); [lia..|].
  apply (Ho j i Hj). by rewrite Hjm, Nat2Z.id.
Qed.

Section Reads.
Context `{FB : FloatBits float64} `{CL : Clients (float64 := float64) St}.

Lemma master_slave_get key (m : MasterSlaveMode) (s : St) :
  let f := ms_fo m in
  wired f -> 0 <= nextSlave m -> nextSlave m + Z.of_nat (length (fo_others f)) < 2 ^ 32 ->
  exists next',
    let m' := MasterSlave f next' in
    let asks i := cm_Get m key s ⇓ ((perform i (get key) s).1, m', (perform i (get key) s).2) in
    (exists i, i ∈ fo_others f /\ is_healthy (fo_nodes f) i = true /\ asks i) \/
    (forall i, i ∈ fo_others f -> is_healthy (fo_nodes f) i = false) /\
    match fo_master f with
    | Some a => if is_healthy (fo_nodes f) a then asks a else cm_Get m key s ⇓ (Err no_node, m', s)
    | None => cm_Get m key s ⇓ (Err no_node, m', s)
    end.
Proof.
  cbv zeta. intros Hw Hn Hlen. destruct (pickSlave_spec m Hn Hlen) as (o & next' & Hpick & Ho). exists next'.
  unfold cm_Get. cbn [mode_Get master_slave_mode]. unfold master_slave_Get. rewrite Hpick. cbn [ms_fo].
  assert (forall i, i ∈ members (ms_fo m) -> ask (fo_nodes (ms_fo m)) i (get key) s = Ret (perform i (get key) s)) as Hask.
  { intros i Hi. unfold ask. by rewrite (wi_client _ Hw i Hi). }
  destruct o as [i|].
  - left. exists i. destruct Ho as [Hin Hh]. rewrite Hh, Hask by (unfold members; set_solver).
    split_and!; [done..|]. by destruct (perform i (get key) s).
  - right. split; [done|]. unfold ask_master, the_master.
    destruct (fo_master (ms_fo m)) as [a|] eqn:Hm; [|done]. destruct (is_healthy (fo_nodes (ms_fo m)) a); [|done].
    rewrite Hask by (unfold members; rewrite Hm; set_solver). by destruct (perform a (get key) s).
Qed.

(** [Get] of a master with slaves, on every branch.  As long as the
    counter of the round robin does not wrap: if a slave is healthy, a healthy slave is
    asked; if none is, the master, provided it is healthy; otherwise the call fails and
    no server is asked. *)
Theorem master_slave_get_spec key (m : MasterSlaveMode) (s : St) :
  let f := ms_fo m in
  wired f -> 0 <= nextSlave m -> nextSlave m + Z.of_nat (length (fo_others f)) < 2 ^ 32 ->
  exists next',
    let m' := MasterSlave f next' in
    let asks i := cm_Get m key s ⇓ ((perform i (get key) s).1, m', (perform i (get key) s).2) in
    (exists i, i ∈ fo_others f /\ is_healthy (fo_nodes f) i = true /\ asks i) \/
    (forall i, i ∈ fo_others f -> is_healthy (fo_nodes f) i = false) /\
    match fo_master f with
    | Some a => if is_healthy (fo_nodes f) a then asks a else cm_Get m key s ⇓ (Err no_node, m', s)
    | None => cm_Get m key s ⇓ (Err no_node, m', s)
    end.
Proof. exact (master_slave_get key m s). Qed.

Lemma dial_slaves_all dial addrs l :
  dial_slaves dial addrs = Ok l -> length l = length addrs /\ Forall (fun n => Healthy n = true) l.
Proof.
  revert l. induction addrs as [|addr addrs IH]; intros l; cbn; [intros [= <-]; by split|].
  unfold dial_node. destruct (dial addr); [done|]. destruct (dial_slaves dial addrs) as [l'|]; [|done]. intros [= <-].
  destruct (IH l' eq_refl) as [H1 H2]. split; [cbn; by rewrite H1|by constructor].
Qed.

(** A new cluster has a slave, and all its nodes count as healthy. *)
Lemma new_master_slave dial master slaves f next :
  newMasterSlaveMode dial master slaves = Ok (MasterSlave f next) ->
  next = 0 /\ is_healthy (fo_nodes f) 0 = true /\ exists i, i ∈ fo_others f /\ is_healthy (fo_nodes f) i = true.
Proof.
  unfold newMasterSlaveMode, dial_node. case_decide; [done|]. case_decide as Hne; [done|]. destruct (dial master); [done|].
  destruct (dial_slaves dial slaves) as [l|] eqn:Hl; [|done]. intros [= <- <-]. split_and!; [done..|].
  destruct (dial_slaves_all _ _ _ Hl) as [Hlen Hh]. destruct l as [|n l]; [by destruct slaves|].
  exists 1%nat. apply Forall_cons in Hh as [Hn _]. split; [cbn; set_solver|exact Hn].
Qed.

(** Reads of the master-slave mode do not see its writes.  In a new
    cluster of servers that are maps of their own, a [Set] that succeeds is followed by
    a [Get] of that key that reports that there is no such key: the value is at the
    master, the read goes to a slave. *)
Theorem master_slave_get_misses_set store `{MC : !MapClients store} dial master slaves (m : MasterSlaveMode) k v (s : St) :
  newMasterSlaveMode dial master slaves = Ok m -> Z.of_nat (length (fo_others (ms_fo m))) < 2 ^ 32 ->
  (forall i, store s i = ∅) -> k <> EmptyString -> v <> [] ->
  exists s1 m' s2, cm_Set m k (Some v) 0 s ⇓ (Ok tt, s1) /\ cm_Get m k s1 ⇓ (Err ErrKeyNotFound, m', s2).
Proof.
  intros Hnew Hlen Hs Hk Hv. destruct m as [f next]. destruct (created_wired f (created_master_slave _ _ _ _ _ Hnew)) as (Hw & Hm & _).
  destruct (new_master_slave _ _ _ _ _ Hnew) as (-> & H0 & b & Hb & Hhb). cbn [ms_fo] in *.
  destruct (mc_set 0%nat k v s Hk Hv) as (s1 & He1 & Hs1).
  destruct (master_slave_get k (MasterSlave f 0) s1 Hw) as (next' & [(i & Hin & _ & Hget)|[Hno _]]); [done|exact Hlen| |].
  - assert (i <> 0%nat) as Hi.
    { pose proof (wi_nodup f Hw) as Hnd. unfold members in Hnd. rewrite Hm in Hnd. apply NoDup_cons in Hnd as [? _]. by intros ->. }
    destruct (mc_get i k s1 Hk) as (s2 & He2 & _). rewrite He2 in Hget. rewrite Hs1, decide_False, Hs, lookup_empty in Hget by done.
    exists s1, (MasterSlave f next'), s2. split; [|exact Hget].
    unfold cm_Set. cbn [mode_Set master_slave_mode ms_fo]. unfold ask_master, the_master, ask. rewrite Hm, H0.
    rewrite (wi_client f Hw 0) by (unfold members; rewrite Hm; set_solver). by rewrite He1.
  - rewrite Hno in Hhb by done. done.
Qed.

End Reads.

(** ** A cluster of three *)

#[local] Existing Instance pattern_bits.
#[local] Existing Instance map_clients.
#[local] Existing Instance map_clients_laws.

Definition demo_sentinel : Failover :=
  mkFo [mkNode "m:1" 0 true true; mkNode "r:1" 0 true true; mkNode "r:2" 0 true true] (Some 0%nat) [1%nat; 2%nat] None.

Lemma demo_created : created demo_sentinel.
Proof.
  apply (created_sentinel (fun a => if decide (a = "gone:1"%string) then Some ErrNotLeader else None) "m:1" ["r:1"; "gone:1"; "r:2"]%string).
  reflexivity.
Qed.

Definition up (l : list nat) (i : nat) : bool := bool_decide (i ∈ l).
Definition demo_ticks : list tick := [(up [0; 1; 2]%nat, 10); (up [2]%nat, 20); (up []%nat, 30)].

Lemma failover_keeps_nodes_witness :
  is_Some (fo_master (check_all 15 (demo_ticks ++ [(up [2]%nat, 40)]) demo_sentinel)) /\
  i_Addr <$> failover_Nodes (check_all 15 (demo_ticks ++ [(up [2]%nat, 40)]) demo_sentinel) ≡ₚ ["m:1"; "r:1"; "r:2"]%string /\
  NoDup (members (check_all 15 (demo_ticks ++ [(up [2]%nat, 40)]) demo_sentinel)).
Proof. apply (failover_keeps_nodes 15 _ demo_sentinel demo_created). Defined.

Lemma failover_needs_outage_witness : exists t, outage 15 demo_sentinel 0 t demo_ticks /\ 15 <= sat64 (40 - t).
Proof.
  apply (failover_needs_outage 15 demo_ticks (up [2]%nat) 40 demo_sentinel 0 2 demo_created); [reflexivity..|discriminate].
Defined.

Lemma failover_happens_witness :
  promotes 15 demo_sentinel 0 [(up [0; 1; 2]%nat, 10)] [(up [2]%nat, 20); (up []%nat, 30); (up [2]%nat, 40)].
Proof.
  apply (failover_happens 15 [(up [0; 1; 2]%nat, 10)] (up [2]%nat) 20 [(up []%nat, 30)] (up [2]%nat) 40 demo_sentinel 0 2 demo_created).
  - reflexivity.
  - by repeat constructor.
  - done.
  - by repeat constructor.
  - cbn. set_solver.
  - discriminate.
  - reflexivity.
Defined.

Definition demo_master_slave : MasterSlaveMode :=
  MasterSlave (mkFo [mkNode "m:1" 1 true true; mkNode "s:1" 1 true true] (Some 0%nat) [1%nat] None) 0.

Lemma master_slave_get_spec_witness :
  exists next' : Z, exists i, i ∈ [1%nat] /\ is_healthy (fo_nodes (ms_fo demo_master_slave)) i = true.
Proof.
  destruct (master_slave_get_spec (CL := map_clients) "k" demo_master_slave (∅ : node_maps)) as (next' & [(i & H1 & H2 & _)|[H _]]).
  - apply (wired_fresh (mkNode "m:1" 1 true true) [mkNode "s:1" 1 true true]); by repeat constructor.
  - done.
  - done.
  - exists next', i. done.
  - specialize (H 1%nat ltac:(by constructor)). discriminate.
Defined.

Lemma master_slave_get_misses_set_witness :
  exists s1 m' s2, cm_Set (St := node_maps) demo_master_slave "k" (Some [Byte.x61]) 0 ∅ ⇓ (Ok tt, s1) /\
    cm_Get demo_master_slave "k" s1 ⇓ (Err ErrKeyNotFound, m', s2).
Proof.
  apply (master_slave_get_misses_set node_map (fun _ => None) "m:1" ["s:1"]%string demo_master_slave "k" [Byte.x61] ∅).
  - reflexivity.
  - done.
  - intros i. reflexivity.
  - discriminate.
  - discriminate.
Defined.
