(* ===== verification/ClusterLife.v ===== *)
(** * The life of a cluster manager (cluster/)

    A manager keeps a loop of health checks and a client for each node; closing it stops the loop, waits for it, and closes the
    clients.  What the topologies differ in, one check and the nodes to close, is a class. *)

From stdpp Require Import base tactics numbers list gmap sets fin_maps strings.
From S2P Require Import Prelude.
From S2P Require Import Cluster.
From S2P Require Import ClusterSpec.
From S2P Require Import Failover.

#[local] Open Scope Z_scope.

(** [check probe now]: one turn of the loop.  [closing]: the nodes that [Close] closes, in order. *)
Class Checked (M : Type) := {
  check : (nat -> bool) -> Z -> M -> M;
  closing : M -> list nat;
}.

(** [HealthChecker] does the checks of the shards. *)
#[global] Instance shards_checked : Checked (list Node) := {|
  check probe _ nodes := probeAll probe 0 nodes;
  closing nodes := seq 0 (length nodes);
|}.

(** [timeout] is the option of the manager. *)
Definition sentinel_checked (timeout : Z) : Checked SentinelMode := {|
  check probe now m := Sentinel (checkAndFailover timeout probe now (se_fo m));
  closing m := option_list (fo_master (se_fo m)) ++ fo_others (se_fo m);
|}.

Definition master_slave_checked (timeout : Z) : Checked MasterSlaveMode := {|
  check probe now m := lift_fo (checkAndFailover timeout probe now) m;
  closing m := option_list (fo_master (ms_fo m)) ++ fo_others (ms_fo m);
|}.

Section Life.
Context {M : Type} `{CM : Checked M}.

(** [stopCh]: whether the channel is closed.  [looping]: whether the loop runs.  [clients]: the nodes whose client is open. *)
Record manager : Type := mkManager { topology : M; stopCh : bool; looping : bool; clients : gset nat }.
Implicit Types (m : manager).

(** The state after the creation; [dialled]: the nodes that could be dialled, the others have no client and closing skips them.  The
    interval of the checks is positive, since the ticker of the loop panics otherwise. *)
Definition start (dialled : nat -> bool) (t : M) : manager := mkManager t false true (list_to_set (filter dialled (closing t))).

Definition tick (probe : nat -> bool) (now : Z) m : manager := mkManager (check probe now (topology m)) (stopCh m) (looping m) (clients m).
Definition loop_returns m : manager := mkManager (topology m) (stopCh m) false (clients m).

(** [Close] closes the channel, which panics the second time, and waits; when the loop has returned it closes the nodes. *)
Definition close_begin m : outcome manager :=
  if stopCh m then Panic else Ret (mkManager (topology m) true (looping m) (clients m)).
Definition close_end m : manager := mkManager (topology m) (stopCh m) (looping m) (clients m ∖ list_to_set (closing (topology m))).

Inductive life : manager -> manager -> Prop :=
| life_tick probe now m : looping m = true -> life m (tick probe now m)
| life_return m : looping m = true -> stopCh m = true -> life m (loop_returns m)
| life_close m m' : close_begin m ⇓ m' -> life m m'.

(** Checks that may move nodes between roles but lose none. *)
Class KeepsNodes : Prop := check_keeps probe now t : list_to_set (C := gset nat) (closing (check probe now t)) = list_to_set (closing t).

Context `{KN : !KeepsNodes}.

(** Closing closes every client there is, whenever it comes: at its end no client is open, the loop has returned, and no later
    check is possible. *)
Lemma close_closes_all dialled t m :
  rtc life (start dialled t) m -> stopCh m = true -> looping m = false ->
  clients (close_end m) = ∅ /\ (forall m', rtc life (close_end m) m' -> m' = close_end m).
Proof.
  intros Hs Hst Hl. assert (clients m ⊆ list_to_set (closing (topology m))) as Hc.
  { clear Hst Hl. assert (clients (start dialled t) ⊆ list_to_set (closing (topology (start dialled t)))) as H0.
    { cbn. intros i. rewrite !elem_of_list_to_set, list_elem_of_filter. tauto. }
    induction Hs as [m|m m1 m2 Hstep _ IH]; [done|]. apply IH. destruct Hstep as [probe now m|m|m m' Hb]; cbn; [by rewrite check_keeps|done|].
    unfold close_begin in Hb. destruct (stopCh m); [done|]. by injection Hb as <-. }
  split; [cbn; set_solver +Hc|]. intros m' Hm'. apply rtc_inv in Hm' as [<-|(x & Hstep & _)]; [done|].
  exfalso. inversion Hstep as [probe now y Hy|y Hy|y y' Hb]; subst; cbn in *; [congruence..|].
  unfold close_begin in Hb. cbn in Hb. by rewrite Hst in Hb.
Qed.

(** A second [Close] panics. *)
Lemma closed_twice m m' : close_begin m ⇓ m' -> close_begin m' = Panic.
Proof. unfold close_begin. destruct (stopCh m); [done|]. by intros [= <-]. Qed.

End Life.

(** ** The topologies keep their nodes *)

Lemma length_probeAll probe i nodes : length (probeAll probe i nodes) = length nodes.
Proof. revert i. induction nodes as [|n nodes IH]; intros i; cbn; [done|]. by rewrite IH. Qed.

#[global] Instance shards_keep : KeepsNodes (M := list Node).
Proof. intros probe now nodes. cbn. by rewrite length_probeAll. Qed.

Lemma members_kept timeout probe now f :
  list_to_set (C := gset nat) (members (checkAndFailover timeout probe now f)) = list_to_set (members f).
Proof. apply set_eq. intros i. rewrite !elem_of_list_to_set. destruct (check_members timeout probe now f) as [Hp _]. by rewrite Hp. Qed.

Lemma sentinel_keeps timeout : KeepsNodes (CM := sentinel_checked timeout).
Proof. intros probe now m. apply members_kept. Qed.

Lemma master_slave_keeps timeout : KeepsNodes (CM := master_slave_checked timeout).
Proof. intros probe now m. apply members_kept. Qed.
