(* ===== verification/Monitor.v ===== *)
(** * The system monitor (monitor/)

    A monitor samples a list of collectors at every tick of its timer and keeps the last
    samples.  Collectors are an interface; here are the one that parses /proc on Linux,
    with the rates it computes from successive readings, the one of the Go runtime, and
    the one that returns nothing.  What the operating system says, the contents of files and the
    clock, is an argument of each reading. *)

From Stdlib Require Import Strings.String Strings.Ascii Floats.SpecFloat.
From stdpp Require Import base tactics numbers list gmap sets fin_maps strings.
From S2P Require Import Prelude.
From S2P Require Import Text.
From S2P Require Import Float64.
From S2P Require Import Ring.

Open Scope Z_scope.

(** ** Samples (monitor/snapshot.go) *)

Record CPUMetrics : Type := mkCPU {
  UsagePercent : float; CoreCount : Z; LoadAvg1 : float; LoadAvg5 : float; LoadAvg15 : float;
}.

Record MemoryMetrics : Type := mkMemory { Total : Z; Used : Z; Free : Z; UsedPercent : float }.

Record IOMetrics : Type := mkIO {
  Device : string; ReadBytes : Z; WriteBytes : Z; ReadOps : Z; WriteOps : Z; ReadBytesRate : float; WriteBytesRate : float;
}.

Record NetMetrics : Type := mkNet {
  Interface : string; BytesSent : Z; BytesRecv : Z; PacketsSent : Z; PacketsRecv : Z; SendRate : float; RecvRate : float;
}.

(** [NetIfs] is the field [Network]. *)
Record SystemSnapshot : Type := mkSnapshot {
  Timestamp : Z;
  CPU : option CPUMetrics;
  Memory : option MemoryMetrics;
  IO : list IOMetrics;
  NetIfs : list NetMetrics;
}.

(** [SystemSnapshot{}]; the zero time is never read. *)
Definition no_metrics : SystemSnapshot := mkSnapshot 0 None None [] [].

(** ** /proc (monitor/proc_linux.go) *)

Record cpuSample : Type := mkCpuSample { total : Z; idle : Z }.
Record ioSample : Type := mkIoSample { readBytes : Z; writeBytes : Z; readOps : Z; writeOps : Z }.
Record netSample : Type := mkNetSample { bytesSent : Z; bytesRecv : Z; packetsSent : Z; packetsRecv : Z }.

Record ProcCollector : Type := mkProc {
  prevCPU : cpuSample; prevIO : gmap string ioSample; prevNet : gmap string netSample; prevAt : Z; inited : bool;
}.
Definition NewProc : ProcCollector := mkProc (mkCpuSample 0 0) ∅ ∅ 0 false.

(** What one [Collect] finds: the files, or why they could not be opened or read, and the clock
    at its three readings. *)
Record proc_env : Type := mkProcEnv {
  f_stat : result error file; f_loadavg : result error string; f_meminfo : result error file;
  f_diskstats : result error file; f_netdev : result error file;
  t_cpu : Z; t_io : Z; t_net : Z;
}.

(** A [for] over lines whose body may panic. *)
Fixpoint each {A S : Type} (body : A -> S -> outcome S) (l : list A) (s : S) : outcome S :=
  match l with [] => Ret s | x :: l => s ← body x s; each body l s end.

(** [fields[i]]. *)
Definition field (fields : list string) (i : nat) : outcome string := deref (fields !! i).
Definition uint_field (fields : list string) (i : nat) : outcome Z := s ← field fields i; mret (uint_of s).

(** The counters of the line [cpu] of /proc/stat, and the number of lines of cores. *)
Record cpu_times : Type := mkTimes {
  user : Z; nice : Z; system : Z; idle_ : Z; iowait : Z; irq : Z; softirq : Z; steal : Z; coreCount : Z;
}.

Definition scan_stat (line : string) (t : cpu_times) : outcome cpu_times :=
  if HasPrefix line "cpu " then
    let fields := Fields line in
    if (length fields <? 8)%nat then Ret t
    else
      u ← uint_field fields 1; n ← uint_field fields 2; s ← uint_field fields 3; i ← uint_field fields 4;
      w ← uint_field fields 5; q ← uint_field fields 6; r ← uint_field fields 7;
      l ← (if (8 <? length fields)%nat then uint_field fields 8 else Ret (steal t));
      mret (mkTimes u n s i w q r l (coreCount t))
  else if HasPrefix line "cpu" then
    Ret (mkTimes (user t) (nice t) (system t) (idle_ t) (iowait t) (irq t) (softirq t) (steal t) (coreCount t + 1))
  else Ret t.

Definition total_time (t : cpu_times) : Z :=
  wrapU 64 (user t + nice t + system t + idle_ t + iowait t + irq t + softirq t + steal t).
Definition idle_time (t : cpu_times) : Z := wrapU 64 (idle_ t + iowait t).

Definition usage (now prev : cpuSample) : float :=
  let deltaTotal := wrapU 64 (total now - total prev) in
  let deltaIdle := wrapU 64 (idle now - idle prev) in
  if deltaTotal >? 0 then (int (wrapU 64 (deltaTotal - deltaIdle)) / int deltaTotal * int 100)%f64 else F64.zero.

Section Proc.
(** [strconv.ParseFloat(s, 64)] with its error ignored. *)
Context (float_of : string -> float).

Definition readLoadAvg (data : result error string) : result error (float * float * float) :=
  match data with
  | Err e => Err e
  | Ok data =>
      match Fields data with
      | a :: b :: c :: _ => Ok (float_of a, float_of b, float_of c)
      | _ => Err (ErrMsg "invalid /proc/loadavg")
      end
  end.

Definition collectCPU (env : proc_env) (c : ProcCollector) : outcome (result error CPUMetrics * ProcCollector) :=
  match f_stat env with
  | Err e => Ret (Err e, c)
  | Ok f =>
      let '(lines, err) := Scan f in
      t ← each scan_stat lines (mkTimes 0 0 0 0 0 0 0 0 0);
      match err with
      | Some e => mret (Err e, c)
      | None =>
          let sample := mkCpuSample (total_time t) (idle_time t) in
          let used := if inited c then usage sample (prevCPU c) else F64.zero in
          let '(load1, load5, load15) := match readLoadAvg (f_loadavg env) with Ok l => l | Err _ => (F64.zero, F64.zero, F64.zero) end in
          mret (Ok (mkCPU used (coreCount t) load1 load5 load15), mkProc sample (prevIO c) (prevNet c) (t_cpu env) true)
      end
  end.

Definition parseKB (line : string) : Z :=
  match Fields line with _ :: v :: _ => uint_of v | _ => 0 end.

Record mem_info : Type := mkMemInfo { mi_total : Z; mi_free : Z; mi_buffers : Z; mi_cached : Z; mi_available : Z }.

Definition scan_meminfo (line : string) (m : mem_info) : mem_info :=
  let v := parseKB line in
  if HasPrefix line "MemTotal:" then mkMemInfo v (mi_free m) (mi_buffers m) (mi_cached m) (mi_available m)
  else if HasPrefix line "MemFree:" then mkMemInfo (mi_total m) v (mi_buffers m) (mi_cached m) (mi_available m)
  else if HasPrefix line "Buffers:" then mkMemInfo (mi_total m) (mi_free m) v (mi_cached m) (mi_available m)
  else if HasPrefix line "Cached:" then mkMemInfo (mi_total m) (mi_free m) (mi_buffers m) v (mi_available m)
  else if HasPrefix line "MemAvailable:" then mkMemInfo (mi_total m) (mi_free m) (mi_buffers m) (mi_cached m) v
  else m.

Definition memory_metrics (m : mem_info) : MemoryMetrics :=
  let used := if mi_available m >? 0 then wrapU 64 (mi_total m - mi_available m)
              else wrapU 64 (mi_total m - mi_free m - mi_buffers m - mi_cached m) in
  let Total := wrapU 64 (mi_total m * 1024) in
  let Used := wrapU 64 (used * 1024) in
  mkMemory Total Used (wrapU 64 (mi_free m * 1024))
    (if Total >? 0 then (int Used / int Total * int 100)%f64 else F64.zero).

Definition collectMemory (env : proc_env) : result error MemoryMetrics :=
  match f_meminfo env with
  | Err e => Err e
  | Ok f =>
      let '(lines, err) := Scan f in
      match err with
      | Some e => Err e
      | None => Ok (memory_metrics (foldl (fun m l => scan_meminfo l m) (mkMemInfo 0 0 0 0 0) lines))
      end
  end.

(** A byte counter's rate over [dt] seconds; a counter that went back gives 0. *)
Definition rate (now prev : Z) (dt : float) : float :=
  let r := (int (int64 (int64 now - int64 prev)) / dt)%f64 in
  if (r < F64.zero)%f64 then F64.zero else r.

Definition rates (ok : bool) (dt : float) (now1 prev1 now2 prev2 : Z) : float * float :=
  if ok && (dt > F64.zero)%f64 then (rate now1 prev1 dt, rate now2 prev2 dt) else (F64.zero, F64.zero).

Definition scan_diskstats (now : Z) (line : string) (st : list IOMetrics * ProcCollector) : outcome (list IOMetrics * ProcCollector) :=
  let '(results, c) := st in
  let fields := Fields line in
  if (length fields <? 14)%nat then Ret st
  else
    device ← field fields 2;
    if HasPrefix device "loop" || HasPrefix device "ram" then Ret st
    else
      ro ← uint_field fields 3; rs ← uint_field fields 5; wo ← uint_field fields 7; ws ← uint_field fields 9;
      let rb := wrapU 64 (rs * 512) in
      let wb := wrapU 64 (ws * 512) in
      let dt := Seconds (sat64 (now - prevAt c)) in
      let '(rr, wr) := match prevIO c !! device with
        | Some prev => rates (inited c) dt rb (readBytes prev) wb (writeBytes prev)
        | None => (F64.zero, F64.zero) end in
      mret (results ++ [mkIO device rb wb ro wo rr wr],
            mkProc (prevCPU c) (<[device := mkIoSample rb wb ro wo]> (prevIO c)) (prevNet c) (prevAt c) (inited c)).

Definition collectIO (env : proc_env) (c : ProcCollector) : outcome (result error (list IOMetrics) * ProcCollector) :=
  match f_diskstats env with
  | Err e => Ret (Err e, c)
  | Ok f =>
      let '(lines, err) := Scan f in
      '(results, c) ← each (scan_diskstats (t_io env)) lines ([], c);
      mret (match err with Some e => Err e | None => Ok results end, c)
  end.

(** The guard asks for nine fields; the tenth is read. *)
Definition scan_netdev (now : Z) (line : string) (st : list NetMetrics * ProcCollector) : outcome (list NetMetrics * ProcCollector) :=
  let '(results, c) := st in
  match Cut ":" line with
  | None => Ret st
  | Some (iface, rest) =>
      let iface := TrimSpace iface in
      if decide (iface = "lo"%string) then Ret st
      else
        let fields := Fields rest in
        if (length fields <? 9)%nat then Ret st
        else
          br ← uint_field fields 0; pr ← uint_field fields 1; bs ← uint_field fields 8; ps ← uint_field fields 9;
          let dt := Seconds (sat64 (now - prevAt c)) in
          let '(rr, sr) := match prevNet c !! iface with
            | Some prev => rates (inited c) dt br (bytesRecv prev) bs (bytesSent prev)
            | None => (F64.zero, F64.zero) end in
          mret (results ++ [mkNet iface bs br ps pr sr rr],
                mkProc (prevCPU c) (prevIO c) (<[iface := mkNetSample bs br ps pr]> (prevNet c)) (prevAt c) (inited c))
  end.

Definition collectNet (env : proc_env) (c : ProcCollector) : outcome (result error (list NetMetrics) * ProcCollector) :=
  match f_netdev env with
  | Err e => Ret (Err e, c)
  | Ok f =>
      let '(lines, err) := Scan f in
      '(results, c) ← each (scan_netdev (t_net env)) (drop 2 lines) ([], c);
      mret (match err with Some e => Err e | None => Ok results end, c)
  end.

Definition or_nil {A} (r : result error (list A)) : list A := match r with Ok l => l | Err _ => [] end.
Definition or_none {A} (r : result error A) : option A := match r with Ok a => Some a | Err _ => None end.

(** [Collect] of the /proc collector: a part that cannot be read is left out. *)
Definition collectProc (env : proc_env) (c : ProcCollector) : outcome (result error SystemSnapshot * ProcCollector) :=
  '(cpu, c) ← collectCPU env c;
  let mem := collectMemory env in
  '(io, c) ← collectIO env c;
  '(net, c) ← collectNet env c;
  mret (Ok (mkSnapshot 0 (or_none cpu) (or_none mem) (or_nil io) (or_nil net)), c).

End Proc.

(** ** The Go runtime (monitor/runtime.go) *)

Record MemStats : Type := mkMemStats { Alloc : Z; Sys : Z; GOMAXPROCS : Z }.

Definition collectRuntime (ms : MemStats) : SystemSnapshot :=
  mkSnapshot 0 (Some (mkCPU F64.zero (GOMAXPROCS ms) F64.zero F64.zero F64.zero))
    (Some (mkMemory 0 (Alloc ms) (wrapU 64 (Sys ms - Alloc ms))
      (if Sys ms >? 0 then (int (Alloc ms) / int (Sys ms) * int 100)%f64 else F64.zero))) [] [].

(** ** Collectors (monitor/collector.go) *)

(** [E] is what a call of [Collect] finds outside. *)
Class Collector (C E : Type) : Type := {
  collector_name : C -> string;
  Collect : E -> C -> outcome (result error SystemSnapshot * C);
}.

#[export] Instance proc_collector (float_of : string -> float) : Collector ProcCollector proc_env :=
  {| collector_name := fun _ => "proc"%string; Collect := collectProc float_of |}.

#[export] Instance runtime_collector : Collector unit MemStats :=
  {| collector_name := fun _ => "runtime"%string; Collect := fun ms c => Ret (Ok (collectRuntime ms), c) |}.

(** monitor/noop.go *)
Definition noop_collector : Collector unit unit :=
  {| collector_name := fun _ => "noop"%string; Collect := fun _ c => Ret (Ok no_metrics, c) |}.

(** monitor/proc_other.go *)
Definition unsupported_collector : Collector unit unit :=
  {| collector_name := fun _ => "proc"%string;
     Collect := fun _ c => Ret (Err (ErrMsg "ProcCollector is only supported on Linux"), c) |}.

(** ** The monitor (monitor/monitor.go, monitor/options.go)

    Collectors are distinct objects, kept with their state in the options. *)

Module Mon.
Section Monitor.
Context `{CI : Collector C E}.

Record Options : Type := mkOptions { interval : Z; capacity : Z; collectors : list C }.

Definition NewOptions : Options := mkOptions (5 * 1000000000) 60 [].
Definition WithInterval (d : Z) (o : Options) : Options := mkOptions d (capacity o) (collectors o).
Definition WithCapacity (n : Z) (o : Options) : Options := mkOptions (interval o) (if n <? 1 then 1 else n) (collectors o).
Definition WithCollectors (c : list C) (o : Options) : Options := mkOptions (interval o) (capacity o) c.

Record Monitor : Type := mkMonitor {
  opts : Options; samples : list SystemSnapshot; pos : Z; count : Z; full : bool;
  ticking : bool;   (** the ticker is not [nil] *)
}.

Definition New (o : Options) : Monitor := mkMonitor o [] 0 0 false false.

Definition Start (m : Monitor) : outcome Monitor :=
  if ticking m then Ret m
  else
    _ ← NewTicker (interval (opts m));
    mret (mkMonitor (opts m) (samples m) (pos m) (count m) (full m) true).

Definition Stop (m : Monitor) : Monitor :=
  if ticking m then mkMonitor (opts m) (samples m) (pos m) (count m) (full m) false else m.

Definition sample_at (m : Monitor) (i : Z) : outcome SystemSnapshot :=
  if i <? 0 then Panic else deref (samples m !! Z.to_nat i).

Definition Latest (m : Monitor) : outcome (option SystemSnapshot) :=
  match samples m with
  | [] => Ret None
  | _ =>
      s ← sample_at m (if negb (full m) then Z.of_nat (length (samples m)) - 1
                       else Z.rem (pos m - 1 + capacity (opts m)) (capacity (opts m)));
      mret (Some s)
  end.

(** The loop of [History] from [i] on. *)
Fixpoint history_from (m : Monitor) (i : Z) (n : nat) : outcome (list SystemSnapshot) :=
  match n with
  | O => Ret []
  | S n =>
      s ← sample_at m (Z.rem (pos m + i) (capacity (opts m)));
      l ← history_from m (i + 1) n;
      mret (s :: l)
  end.

Definition History (m : Monitor) : outcome (list SystemSnapshot) :=
  if negb (full m) then Ret (samples m) else history_from m 0 (length (samples m)).

Definition Count (m : Monitor) : Z := count m.

(** What a collector found replaces or extends what the earlier ones found. *)
Definition merge (snap partial : SystemSnapshot) : SystemSnapshot :=
  mkSnapshot (Timestamp snap) (CPU partial ∪ CPU snap) (Memory partial ∪ Memory snap)
    (IO snap ++ IO partial) (NetIfs snap ++ NetIfs partial).

Fixpoint gather (env : nat -> E) (cs : list C) (snap : SystemSnapshot) : outcome (list C * SystemSnapshot) :=
  match cs with
  | [] => Ret ([], snap)
  | c :: cs =>
      '(r, c) ← Collect (env 0%nat) c;
      let snap := match r with Ok partial => merge snap partial | Err _ => snap end in
      '(cs, snap) ← gather (fun i => env (S i)) cs snap;
      mret (c :: cs, snap)
  end.

(** The second half of [collect], under the lock. *)
Definition record_sample (snap : SystemSnapshot) (m : Monitor) : outcome Monitor :=
  let cap := capacity (opts m) in
  let n := int64 (count m + 1) in
  if Z.of_nat (length (samples m)) <? cap then
    let ring := samples m ++ [snap] in
    mret (mkMonitor (opts m) ring (pos m) n (if Z.of_nat (length ring) =? cap then true else full m) (ticking m))
  else
    _ ← sample_at m (pos m);
    mret (mkMonitor (opts m) (<[Z.to_nat (pos m) := snap]> (samples m)) (Z.rem (pos m + 1) cap) n (full m) (ticking m)).

(** [collect], with the sample it stored. *)
Definition collect (now : Z) (env : nat -> E) (m : Monitor) : outcome (option SystemSnapshot * Monitor) :=
  match collectors (opts m) with
  | [] => Ret (None, m)
  | cs =>
      '(cs, snap) ← gather env cs (mkSnapshot now None None [] []);
      m ← record_sample snap (mkMonitor (mkOptions (interval (opts m)) (capacity (opts m)) cs) (samples m) (pos m) (count m) (full m) (ticking m));
      mret (Some snap, m)
  end.

(** What happens to a monitor: its methods, and ticks, which the goroutine handles while it runs. *)
Inductive event : Type := EStart | EStop | ETick (now : Z) (env : nat -> E).

Definition step (ev : event) (m : Monitor) : outcome (option SystemSnapshot * Monitor) :=
  match ev with
  | EStart => m ← Start m; mret (None, m)
  | EStop => Ret (None, Stop m)
  | ETick now env => if ticking m then collect now env m else Ret (None, m)
  end.

(** A run and the samples it took, oldest first. *)
Fixpoint run (evs : list event) (m : Monitor) : outcome (list SystemSnapshot * Monitor) :=
  match evs with
  | [] => Ret ([], m)
  | ev :: evs =>
      '(o, m) ← step ev m;
      '(h, m) ← run evs m;
      mret (option_list o ++ h, m)
  end.

End Monitor.
Arguments Options : clear implicits.
Arguments Monitor : clear implicits.
End Mon.
