(* ===== verification/MonitorSpec.v ===== *)
(** * The system monitor: what it keeps and what its numbers mean

    The monitor keeps the last samples of the ticks it was running at; the percentages of the
    /proc collector are percentages when the kernel's counters behave; its rates are
    never negative. *)

From Stdlib Require Import ZArith Lia Strings.String Strings.Ascii Floats.SpecFloat.
From stdpp Require Import base tactics numbers list gmap sets fin_maps strings.
From S2P Require Import Prelude.
From S2P Require Import DHash.
From S2P Require Import Text.
From S2P Require Import Float64.
From S2P Require Import Ring.
From S2P Require Import Monitor.

Open Scope Z_scope.

(** ** The samples that are kept *)

Section Kept.
Context `{CI : Collector C E}.
Import Mon.
Implicit Types (m : Monitor C) (h : list SystemSnapshot).

Record keeps m h : Prop := {
  k_ring : ring_buffer (samples m) (pos m) (capacity (opts m)) h;
  k_full : full m = bool_decide (Z.of_nat (length (samples m)) = capacity (opts m));
  k_count : count m = int64 (Z.of_nat (length h));
}.

Lemma keeps_new (o : Options C) : 1 <= capacity o -> keeps (New o) [].
Proof. intros Hc. split; [by apply ring_buffer_empty| |done]. cbn. symmetry. apply bool_decide_eq_false. lia. Qed.

Lemma sample_at_nonneg m i : 0 <= i -> sample_at m i = deref (samples m !! Z.to_nat i).
Proof. intros Hi. unfold sample_at. by destruct (Z.ltb_spec i 0); [lia|]. Qed.

Lemma int64_succ z : int64 (int64 z + 1) = int64 (z + 1).
Proof.
  unfold int64, wrapS. f_equal. replace ((z + _) mod _ - _ + 1 + _) with ((z + 2 ^ (64 - 1)) mod 2 ^ 64 + 1) by lia.
  rewrite Zplus_mod_idemp_l. f_equal. lia.
Qed.

Lemma record_keeps snap m h : keeps m h -> exists m', record_sample snap m ⇓ m' /\ keeps m' (h ++ [snap]) /\
  opts m' = opts m /\ ticking m' = ticking m.
Proof.
  intros [Hr Hf Hn]. pose proof Hr as [Hc Hl Hh _ _]. unfold record_sample. rewrite Hn, int64_succ.
  replace (Z.of_nat (length h) + 1) with (Z.of_nat (length (h ++ [snap]))) by (rewrite length_app; cbn; lia).
  destruct (Z.ltb_spec (Z.of_nat (length (samples m))) (capacity (opts m))) as [Hlt|Hge].
  - eexists. split; [reflexivity|]. split; [|done]. split; cbn; [by apply ring_buffer_append| |done].
    rewrite Hf. destruct (Z.eqb_spec (Z.of_nat (length (samples m ++ [snap]))) (capacity (opts m))) as [He|He];
      [by rewrite bool_decide_eq_true_2|]. rewrite !bool_decide_eq_false_2 by lia. done.
  - rewrite sample_at_nonneg by lia. destruct (lookup_lt_is_Some_2 (samples m) (Z.to_nat (pos m)) ltac:(lia)) as [y ->].
    eexists. split; [reflexivity|]. split; [|done]. split; cbn; [by apply ring_buffer_overwrite| |done].
    by rewrite length_insert.
Qed.

Lemma history_from_spec m h i n : keeps m h -> full m = true -> 0 <= i -> i + Z.of_nat n <= capacity (opts m) ->
  history_from m i n ⇓ take n (drop (Z.to_nat i) (recent (Z.to_nat (capacity (opts m))) h)).
Proof.
  intros [Hr Hf _] Hfull. rewrite Hf in Hfull. apply bool_decide_eq_true in Hfull. pose proof Hr as [Hc Hl Hh _ _]. revert i.
  induction n as [|n IH]; intros i Hi Hn; cbn [history_from]; [by rewrite take_0|].
  rewrite sample_at_nonneg by (rewrite Z.rem_mod_nonneg by lia; apply Z.mod_pos_bound; lia).
  rewrite (ring_buffer_lookup _ _ _ h) by (done || lia).
  destruct (lookup_lt_is_Some_2 (recent (Z.to_nat (capacity (opts m))) h) (Z.to_nat i)) as [w Hw]; [rewrite length_recent; lia|].
  rewrite Hw, (drop_S _ _ _ Hw). cbn [deref mbind outcome_bind take]. rewrite IH by lia. cbn. do 3 f_equal. f_equal. lia.
Qed.

Lemma History_keeps m h : keeps m h -> History m ⇓ recent (Z.to_nat (capacity (opts m))) h.
Proof.
  intros Hk. pose proof Hk as [Hr Hf _]. pose proof Hr as [Hc Hl Hh _ _]. unfold History. destruct (full m) eqn:Hfull; cbn [negb].
  - rewrite (history_from_spec m h) by (done || lia). symmetry in Hf. apply bool_decide_eq_true in Hf.
    rewrite drop_0, take_ge; [done|]. rewrite length_recent. lia.
  - symmetry in Hf. apply bool_decide_eq_false in Hf. rewrite (ring_buffer_filling _ _ _ _ Hr) by lia. by rewrite recent_all by lia.
Qed.

Lemma Latest_keeps m h : keeps m h -> Latest m ⇓ last h.
Proof.
  intros [Hr Hf _]. pose proof Hr as [Hc Hl Hh _ _]. unfold Latest. destruct (samples m) as [|s0 ss] eqn:Hs.
  { assert (h = []) as -> by (apply nil_length_inv; cbn in Hl; lia). done. }
  rewrite <-Hs in *. assert (0 < length (samples m))%nat as Hpos by (rewrite Hs; cbn; lia). clear Hs.
  destruct (last h) as [w|] eqn:Hw; [|apply last_None in Hw as ->; cbn in Hl; lia].
  destruct (full m); cbn [negb]; symmetry in Hf; rewrite sample_at_nonneg.
  - apply bool_decide_eq_true in Hf. replace (pos m - 1 + capacity (opts m)) with (pos m + (capacity (opts m) - 1)) by lia.
    rewrite (ring_buffer_lookup _ _ _ h) by (done || lia). rewrite <-(recent_last (Z.to_nat (capacity (opts m)))), last_lookup in Hw by lia.
    rewrite length_recent in Hw. replace (Z.to_nat (capacity (opts m) - 1)) with (pred (Nat.min (Z.to_nat (capacity (opts m))) (length h))) by lia. by rewrite Hw.
  - rewrite Z.rem_mod_nonneg by lia. apply Z.mod_pos_bound. lia.
  - apply bool_decide_eq_false in Hf. rewrite (ring_buffer_filling _ _ _ _ Hr) in * by lia. rewrite last_lookup in Hw.
    replace (Z.to_nat (Z.of_nat (length h) - 1)) with (pred (length h)) by lia. by rewrite Hw.
  - lia.
Qed.

(** The times of the ticks a monitor handles: those between a [Start] and the next [Stop]. *)
Fixpoint handled (on : bool) (evs : list (event (E := E))) : list Z :=
  match evs with
  | [] => []
  | EStart :: evs => handled true evs
  | EStop :: evs => handled false evs
  | ETick now _ :: evs => if on then now :: handled on evs else handled on evs
  end.

Lemma gather_timestamp cs : forall env snap cs' snap', gather env cs snap ⇓ (cs', snap') ->
  Timestamp snap' = Timestamp snap /\ length cs' = length cs.
Proof.
  induction cs as [|c cs IH]; intros env snap cs' snap' H; cbn [gather] in H; [by simplify_eq|].
  destruct (Collect (env 0%nat) c) as [[r c']| |]; [cbn [mbind outcome_bind] in H|done..].
  destruct (gather _ cs _) as [[cs1 snap1]| |] eqn:Hg; [|done..]. injection H as <- <-.
  apply IH in Hg as [Ht Hlen]. rewrite Ht. split; [by destruct r|cbn; lia].
Qed.

Definition no_panic : Prop := forall env (c : C), exists r c', Collect env c ⇓ (r, c').

Lemma gather_returns (Hnp : no_panic) cs : forall env snap, exists cs' snap', gather env cs snap ⇓ (cs', snap').
Proof.
  induction cs as [|c cs IH]; intros env snap; cbn [gather]; [eauto|].
  destruct (Hnp (env 0%nat) c) as (r & c' & ->). cbn [mbind outcome_bind].
  edestruct IH as (cs1 & snap1 & ->). cbn. eauto.
Qed.

Lemma run_keeps (Hnp : no_panic) evs : forall m h, keeps m h -> 0 < interval (opts m) -> collectors (opts m) <> [] ->
  exists h' m', run evs m ⇓ (h', m') /\ keeps m' (h ++ h') /\ capacity (opts m') = capacity (opts m) /\
    Timestamp <$> h' = handled (ticking m) evs.
Proof.
  induction evs as [|ev evs IH]; intros m h Hk Hi Hc; cbn [run]; [exists [], m; by rewrite app_nil_r|].
  assert (forall on, opts (mkMonitor (opts m) (samples m) (pos m) (count m) (full m) on) = opts m) as Ho by done.
  destruct ev as [| |now env]; cbn [step].
  - destruct (IH (mkMonitor (opts m) (samples m) (pos m) (count m) (full m) true) h) as (h' & m' & H); [by destruct Hk; split|done|done|].
    exists h', m'. unfold Start. destruct (ticking m) eqn:Ht; cbn [mbind outcome_bind].
    + destruct m; cbn in Ht |- *; subst; cbn in H |- *. destruct H as (-> & H). done.
    + rewrite NewTicker_ok by done. cbn [mbind outcome_bind mret outcome_ret]. destruct H as (-> & H). done.
  - destruct (IH (mkMonitor (opts m) (samples m) (pos m) (count m) (full m) false) h) as (h' & m' & H); [by destruct Hk; split|done|done|].
    exists h', m'. assert (Stop m = mkMonitor (opts m) (samples m) (pos m) (count m) (full m) false) as ->.
    { unfold Stop. destruct (ticking m) eqn:Ht; [done|]. destruct m; cbn in *; by subst. }
    cbn [mbind outcome_bind]. destruct H as (-> & H). done.
  - destruct (ticking m) eqn:Ht; cbn [handled].
    + unfold collect. destruct (collectors (opts m)) as [|c cs] eqn:Hcs; [done|].
      destruct (gather_returns Hnp (c :: cs) env (mkSnapshot now None None [] [])) as (cs' & snap & Hg).
      rewrite Hg. apply gather_timestamp in Hg as [Hts Hlen]. cbn [mbind outcome_bind].
      edestruct (record_keeps snap) as (m1 & -> & Hk1 & Ho1 & Ht1); [by destruct Hk; split|].
      cbn [mbind outcome_bind mret outcome_ret option_list]. rewrite Ht in Ht1. cbn in Ht1.
      destruct (IH m1 _ Hk1) as (h' & m' & -> & Hk' & Hcap & Hh'); [by rewrite Ho1|rewrite Ho1; by destruct cs'|].
      exists (snap :: h'), m'. rewrite <-app_assoc in Hk'. rewrite Ho1 in Hcap. rewrite Ht1 in Hh'. split_and!; [done..|].
      by rewrite fmap_cons, Hh', Hts.
    + destruct (IH m h Hk Hi Hc) as (h' & m' & Hm). exists h', m'. rewrite Ht in Hm. cbn [mbind outcome_bind]. destruct Hm as (-> & Hm). done.
Qed.

(** A monitor is the list of the last samples.  Take any sequence of [Start],
    [Stop] and ticks on a new monitor with a positive interval, a positive capacity and collectors that do not
    panic.  There was one sample for each tick while it was started, stamped with the time of that tick;
    [History] returns the last [capacity] of them, oldest first, [Latest] the last one, and [Count] how many
    there were in all. *)
Theorem monitor_keeps_last (o : Options C) evs :
  1 <= capacity o -> 0 < interval o -> collectors o <> [] -> no_panic ->
  exists h m, run evs (New o) ⇓ (h, m) /\ Timestamp <$> h = handled false evs /\
    History m ⇓ recent (Z.to_nat (capacity o)) h /\ Latest m ⇓ last h /\ Count m = int64 (Z.of_nat (length h)).
Proof.
  intros Hc Hi Hne Hnp. destruct (run_keeps Hnp evs (New o) [] (keeps_new o Hc) Hi Hne) as (h & m & Hrun & Hk & Hcap & Ht).
  exists h, m. cbn [app] in Hk. split_and!; [done|done| |by apply Latest_keeps|apply Hk].
  rewrite (History_keeps m h Hk), Hcap. done.
Qed.

End Kept.

(** ** Percentages *)

(** Counters that grew, by less than 2^53 in all, and no more idle time than time. *)
Definition grows (prev now : cpuSample) : Prop :=
  0 <= total prev <= total now /\ 0 <= idle prev <= idle now /\
  idle now - idle prev <= total now - total prev < 2 ^ 53 /\ total now < 2 ^ 64 /\ idle now < 2 ^ 64.

Lemma usage_within prev now : grows prev now -> within F64.zero (int 100) (usage now prev).
Proof.
  intros (Ht & Hi & Hd & Hb & Hb'). unfold usage. cbv zeta.
  rewrite (wrapU_small 64 (total now - total prev)), (wrapU_small 64 (idle now - idle prev)) by lia.
  destruct (Z.gtb_spec (total now - total prev) 0); [|done]. rewrite wrapU_small by lia. apply percent_within; lia.
Qed.

Definition percent (x : float) : Prop := within F64.zero (int 100) x.

(** The use of the processor is a percentage.  When the /proc collector reads /proc/stat
    successfully, and the counters in it did not go back since the last reading (with less than 2^53 units
    of time between the two), [UsagePercent], computed with the roundings of float64, is between 0 and
    100; in the first reading it is 0. *)
Theorem cpu_usage_is_percentage float_of env c m c' :
  collectCPU float_of env c ⇓ (Ok m, c') -> grows (prevCPU c) (prevCPU c') ->
  percent (UsagePercent m) /\ (inited c = false -> UsagePercent m = F64.zero).
Proof.
  unfold collectCPU. destruct (f_stat env) as [f|e]; [|done]. destruct (Scan f) as [lines [err|]].
  { by destruct (each _ _ _). }
  destruct (each _ _ _) as [t| |]; [cbn [mbind outcome_bind]|done..].
  destruct (match readLoadAvg _ _ with Ok l => l | Err _ => _ end) as [[l1 l5] l15]. intros [= <- <-]. cbn [prevCPU UsagePercent].
  intros Hg. split; [|by intros ->]. destruct (inited c); [by apply usage_within|done].
Qed.

(** What /proc/meminfo says of a machine: less is available than there is, and there are less than 2^53 bytes. *)
Definition plausible (m : mem_info) : Prop :=
  0 <= mi_available m <= mi_total m /\ mi_total m * 1024 < 2 ^ 53 /\
  0 <= mi_free m /\ 0 <= mi_buffers m /\ 0 <= mi_cached m /\ mi_free m + mi_buffers m + mi_cached m <= mi_total m.

Lemma memory_percent m : plausible m ->
  percent (UsedPercent (memory_metrics m)) /\ 0 <= Used (memory_metrics m) <= Total (memory_metrics m).
Proof.
  intros (Ha & Ht & Hf & Hb & Hc & Hs). unfold memory_metrics. cbn [UsedPercent Used Total]. rewrite (wrapU_small 64 (mi_total m * 1024)) by lia.
  set (used := if mi_available m >? 0 then _ else _).
  assert (0 <= used <= mi_total m) as Hu by (unfold used; destruct (Z.gtb_spec (mi_available m) 0); rewrite wrapU_small by lia; lia).
  rewrite (wrapU_small 64 (used * 1024)) by lia. split; [|lia].
  destruct (Z.gtb_spec (mi_total m * 1024) 0); [|done]. apply percent_within; lia.
Qed.

(** ** Rates *)

Definition rate_ok (r : float) : Prop := F64.leb F64.zero r = true.

Lemma rate_nonneg now prev dt : F64.valid dt -> F64.ltb F64.zero dt = true -> rate_ok (rate now prev dt).
Proof.
  intros Hv Hp. unfold rate. destruct (F64.ltb _ F64.zero) eqn:Hlt; [done|]. apply not_less_nonneg; [|done].
  apply finite_div_positive; [apply of_Z_valid|done| |done]. apply of_Z_finite.
  pose proof (int64_range (int64 now - int64 prev)) as [Hlo Hhi]. unfold min_int64, max_int64 in *. lia.
Qed.

Lemma rates_nonneg ok d n1 p1 n2 p2 r1 r2 : rates ok (Seconds d) n1 p1 n2 p2 = (r1, r2) -> rate_ok r1 /\ rate_ok r2.
Proof.
  unfold rates. destruct (ok && _) eqn:H; [|by intros [= <- <-]]. apply andb_true_iff in H as [_ Hp].
  intros [= <- <-]. split; apply rate_nonneg; (done || apply Seconds_valid).
Qed.

Definition io_ok (m : IOMetrics) : Prop := rate_ok (ReadBytesRate m) /\ rate_ok (WriteBytesRate m).
Definition net_ok (m : NetMetrics) : Prop := rate_ok (SendRate m) /\ rate_ok (RecvRate m).

Lemma uint_field_reads fields i : (i < length fields)%nat -> exists v, uint_field fields i ⇓ v.
Proof. intros Hi. unfold uint_field, field. destruct (lookup_lt_is_Some_2 fields i Hi) as [v ->]. by eexists. Qed.

(** Reads the next field of the goal, which the guard says is there. *)
Ltac read_field :=
  match goal with |- context [uint_field ?fs ?i] =>
    let v := fresh "v" in destruct (uint_field_reads fs i) as [v ->]; [lia|]; cbn [mbind outcome_bind] end.

Lemma scan_stat_returns line t : exists t', scan_stat line t ⇓ t'.
Proof.
  unfold scan_stat. destruct (HasPrefix line "cpu "); [|destruct (HasPrefix line "cpu"); eauto].
  destruct (Nat.ltb_spec (length (Fields line)) 8); [eauto|]. do 7 read_field.
  destruct (Nat.ltb_spec 8 (length (Fields line))); [read_field|]; by eexists.
Qed.

Lemma scan_diskstats_step now line results c : Forall io_ok results -> exists results' c',
  scan_diskstats now line (results, c) ⇓ (results', c') /\ Forall io_ok results'.
Proof.
  intros Hok. unfold scan_diskstats. set (fields := Fields line).
  destruct (Nat.ltb_spec (length fields) 14); [eauto|]. unfold field.
  destruct (lookup_lt_is_Some_2 fields 2 ltac:(lia)) as [device ->]. cbn [deref mbind outcome_bind].
  destruct (_ || _); [eauto|]. do 4 read_field. destruct (prevIO c !! device) as [prev|].
  - destruct (rates _ _ _ _ _ _) as [rr wr] eqn:Hr. apply rates_nonneg in Hr. eexists _, _. split; [done|].
    apply Forall_app. split; [done|]. by apply Forall_singleton.
  - eexists _, _. split; [done|]. apply Forall_app. split; [done|]. by apply Forall_singleton.
Qed.

(** A line of an interface that has not exactly nine fields: the kernel writes sixteen. *)
Definition complete_line (line : string) : bool :=
  match Cut ":" line with Some (_, rest) => negb (length (Fields rest) =? 9)%nat | None => true end.

Lemma scan_netdev_step now line results c : complete_line line = true -> Forall net_ok results -> exists results' c',
  scan_netdev now line (results, c) ⇓ (results', c') /\ Forall net_ok results'.
Proof.
  unfold complete_line, scan_netdev. intros Hc Hok. destruct (Cut ":" line) as [[iface rest]|]; [|eauto].
  apply negb_true_iff, Nat.eqb_neq in Hc. case_decide; [eauto|]. set (fields := Fields rest) in *.
  destruct (Nat.ltb_spec (length fields) 9); [eauto|]. do 4 read_field. destruct (prevNet c !! TrimSpace iface) as [prev|].
  - destruct (rates _ _ _ _ _ _) as [rr sr] eqn:Hr. apply rates_nonneg in Hr as [Hr Hs]. eexists _, _. split; [done|].
    apply Forall_app. split; [done|]. by apply Forall_singleton.
  - eexists _, _. split; [done|]. apply Forall_app. split; [done|]. by apply Forall_singleton.
Qed.

(** A loop whose body returns for the lines at hand returns. *)
Lemma each_returns {A S} (I : S -> Prop) (P : A -> Prop) (body : A -> S -> outcome S) l s :
  (forall x s, P x -> I s -> exists s', body x s ⇓ s' /\ I s') -> Forall P l -> I s -> exists s', each body l s ⇓ s' /\ I s'.
Proof.
  intros Hb Hl. revert s. induction Hl as [|x l Hx _ IH]; intros s Hs; cbn [each]; [eauto|].
  destruct (Hb x s Hx Hs) as (s1 & -> & H1). by apply IH.
Qed.

Section ProcSpec.
Context (float_of : string -> float).

Lemma collectCPU_returns env c : exists r c', collectCPU float_of env c ⇓ (r, c').
Proof.
  unfold collectCPU. destruct (f_stat env) as [f|e]; [|eauto]. destruct (Scan f) as [lines err].
  destruct (each_returns (fun _ => True) (fun _ => True) scan_stat lines (mkTimes 0 0 0 0 0 0 0 0 0)) as (t & -> & _).
  - intros line t _ _. destruct (scan_stat_returns line t) as [t' Ht]. eauto.
  - by apply Forall_true.
  - done.
  - cbn [mbind outcome_bind]. destruct err; [by eexists _, _|]. destruct (match readLoadAvg _ _ with Ok l => l | Err _ => _ end) as [[l1 l5] l15]. by eexists _, _.
Qed.

Lemma collectIO_returns env c : exists r c', collectIO env c ⇓ (r, c') /\ Forall io_ok (or_nil r).
Proof.
  unfold collectIO. destruct (f_diskstats env) as [f|e]; [|by eexists _, _]. destruct (Scan f) as [lines err].
  destruct (each_returns (fun st => Forall io_ok st.1) (fun _ => True) (scan_diskstats (t_io env)) lines ([], c)) as ([rs c'] & -> & Hok).
  - intros line [rs c1] _ H. destruct (scan_diskstats_step (t_io env) line rs c1 H) as (rs' & c' & Hs & H'). by exists (rs', c').
  - by apply Forall_true.
  - done.
  - eexists _, _. split; [done|]. by destruct err.
Qed.

Definition complete_netdev (env : proc_env) : Prop :=
  match f_netdev env with Ok f => forallb complete_line (drop 2 (Scan f).1) = true | Err _ => True end.

Lemma collectNet_returns env c : complete_netdev env -> exists r c', collectNet env c ⇓ (r, c') /\ Forall net_ok (or_nil r).
Proof.
  unfold complete_netdev, collectNet. destruct (f_netdev env) as [f|e]; [|by eexists _, _]. destruct (Scan f) as [lines err].
  cbn [fst]. intros Hl.
  destruct (each_returns (fun st => Forall net_ok st.1) (fun l => complete_line l = true) (scan_netdev (t_net env)) (drop 2 lines) ([], c)) as ([rs c'] & -> & Hok).
  - intros line [rs c1] Hline H. destruct (scan_netdev_step (t_net env) line rs c1 Hline H) as (rs' & c' & Hs & H'). by exists (rs', c').
  - apply Forall_forall. intros l Hin. rewrite forallb_forall in Hl. by apply Hl, list_elem_of_In.
  - done.
  - eexists _, _. split; [done|]. by destruct err.
Qed.

(** The /proc collector returns, and its rates are never negative.  Whatever the files say
    or however reading them fails, as long as no line of an interface in /proc/net/dev has exactly nine
    fields, [Collect] neither panics nor fails, and all rates of bytes it reports, over counters that may
    wrap or be reset and with the roundings of float64, are numbers that are not negative. *)
Theorem proc_collect_returns env c : complete_netdev env ->
  exists snap c', collectProc float_of env c ⇓ (Ok snap, c') /\ Forall io_ok (IO snap) /\ Forall net_ok (NetIfs snap).
Proof.
  intros Hn. unfold collectProc. destruct (collectCPU_returns env c) as (cpu & c1 & ->). cbn [mbind outcome_bind].
  destruct (collectIO_returns env c1) as (io & c2 & -> & Hio). cbn [mbind outcome_bind].
  destruct (collectNet_returns env c2 Hn) as (net & c3 & -> & Hnet). by eexists _, _.
Qed.

End ProcSpec.

(** ** Runs *)

Definition text (lines : list string) : result error file :=
  Ok (mkFile (Join lines (String newline EmptyString)) None).

(** A machine with four cores whose first disk has read [sectors] sectors; the processor has been busy
    for [busy] of [all] units of time.  The readings of one call are a millisecond apart. *)
Definition machine (now busy all sectors : Z) : proc_env :=
  let n := Strconv.FormatInt in
  mkProcEnv
    (text [Join ["cpu "; n busy; "0"; "0"; n (all - busy); "0"; "0"; "0"] " "; "cpu0 1"; "cpu1 1"; "cpu2 1"; "cpu3 1"])
    (Ok "0.50 0.40 0.30 1/200 4711") (text ["MemTotal: 1000 kB"; "MemFree: 100 kB"; "MemAvailable: 250 kB"])
    (text [Join ["8 0 sda 10 0"; n sectors; "0 20 0 0 0 0 0 0"] " "; "7 0 loop0 1 1 1 1 1 1 1 1 1 1 1"])
    (text ["Inter-| Receive"; " face |bytes"; "    lo: 5 5 0 0 0 0 0 0 5 5 0 0 0 0 0 0"; "  eth0: 700 7 0 0 0 0 0 0 900 9 0 0 0 0 0 0"])
    now (now + 1000000) (now + 2000000).

Definition no_float (s : string) : float := F64.zero.
Definition got {A} (o : outcome A) (d : A) : A := match o with Ret a => a | _ => d end.
Definition first_reading : ProcCollector := (got (collectProc no_float (machine 1000000000 100 400 0) NewProc) (Err ErrKeyEmpty, NewProc)).2.
Definition second_reading : result error SystemSnapshot * ProcCollector :=
  got (collectProc no_float (machine 6000000000 175 500 1000) first_reading) (Err ErrKeyEmpty, NewProc).

(** The collector sees what the machine did between the two readings: 75 of 100 units busy, 750 of 1000 kB used. *)
Example second_reading_values :
  match second_reading with
  | (Ok s, _) => (UsagePercent <$> CPU s, CoreCount <$> CPU s, UsedPercent <$> Memory s, Device <$> IO s, Interface <$> NetIfs s)
                 = (Some (int 75), Some 4, Some (int 75), ["sda"], ["eth0"])
  | _ => False end.
Proof. vm_compute. reflexivity. Qed.

(** Both rates are over the time since the reading of the processor in the same call, a millisecond, and not over the
    five seconds since the counter was last read: 512000 bytes in five seconds are reported as 512 MB/s. *)
Example rate_over_wrong_interval :
  match second_reading with
  | (Ok s, _) => ReadBytes <$> IO s = [512000] /\
                 forallb (fun r => (int 511000000 <= r)%f64 && (r <= int 513000000)%f64) (ReadBytesRate <$> IO s) = true
  | _ => False end.
Proof. vm_compute. split; reflexivity. Qed.

(** A line of nine fields passes the guard and makes the collector panic. *)
Example nine_fields_panic :
  collectNet (mkProcEnv (Err ErrKeyEmpty) (Err ErrKeyEmpty) (Err ErrKeyEmpty) (Err ErrKeyEmpty)
    (text ["h1"; "h2"; "eth0: 1 2 3 4 5 6 7 8 9"]) 0 0 0) NewProc = Panic.
Proof. reflexivity. Qed.

Lemma cpu_usage_is_percentage_witness :
  exists m c', collectCPU no_float (machine 6000000000 175 500 1000) first_reading ⇓ (Ok m, c') /\ percent (UsagePercent m).
Proof.
  destruct (collectCPU no_float (machine 6000000000 175 500 1000) first_reading) as [[[m|] c']| |] eqn:H; try (vm_compute in H; congruence).
  exists m, c'. split; [done|]. apply (cpu_usage_is_percentage _ _ _ _ _ H).
  assert (prevCPU c' = mkCpuSample 500 325) as -> by (vm_compute in H; by injection H as _ <-).
  replace (prevCPU first_reading) with (mkCpuSample 400 300) by (by vm_compute). unfold grows. cbn. lia.
Defined.

Lemma proc_collect_returns_witness :
  exists snap c', collectProc no_float (machine 6000000000 175 500 1000) first_reading ⇓ (Ok snap, c') /\ Forall io_ok (IO snap) /\ Forall net_ok (NetIfs snap).
Proof.
  apply proc_collect_returns. vm_compute. reflexivity.
Defined.

Lemma monitor_keeps_last_witness :
  let o := Mon.mkOptions 5 2 [tt] in
  let evs := [Mon.ETick 1 (fun _ => tt); Mon.EStart; Mon.ETick 2 (fun _ => tt); Mon.ETick 3 (fun _ => tt); Mon.ETick 4 (fun _ => tt); Mon.EStop; Mon.ETick 5 (fun _ => tt)] in
  exists h m, Mon.run (CI := noop_collector) evs (Mon.New o) ⇓ (h, m) /\ Timestamp <$> h = [2; 3; 4] /\
    Mon.History m ⇓ recent 2 h /\ Mon.Latest m ⇓ last h /\ Mon.Count m = 3.
Proof.
  intros o evs. destruct (monitor_keeps_last (CI := noop_collector) o evs) as (h & m & H1 & H2 & H3 & H4 & H5);
    [cbn; lia|cbn; lia|done|intros [] []; by eexists _, _|].
  exists h, m. split_and!; [done|done|done|done|]. rewrite H5. apply (f_equal length) in H2. rewrite length_fmap in H2. by rewrite H2.
Defined.
