(* ===== verification/Cli.v ===== *)
(** * The command line's client (cli/client.go)

    Every command of the command line is a call of a method of [cmdClient], which goes to a
    cluster when one is configured and to a single server otherwise.  A method with its
    arguments is a value of [method]; the sections of the file are the cases of it. *)

From Stdlib Require Import Strings.String.
From stdpp Require Import base tactics numbers list gmap sets fin_maps strings.
From S2P Require Import Prelude.
From S2P Require Import Bytes.
From S2P Require Import Wire.
From S2P Require Import WireSet.
From S2P Require Import WireExt.
From S2P Require Import RaftCmd.
From S2P Require Import Server.
From S2P Require Import Client.
From S2P Require Import Remote.
From S2P Require Import Cluster.
From S2P Require Import Duration.

Open Scope Z_scope.

(** ** Methods *)

Inductive kv_method : Type -> Type :=
| MGet (key : string) : kv_method (option bytes)
| MSet (key : string) (value : option bytes) (ttl : Z) : kv_method unit
| MDel (key : string) : kv_method unit
| MLen : kv_method Z
| MCleanup : kv_method Z
| MStats : kv_method (option bytes).

Inductive hash_method (float64 : Type) : Type -> Type :=
| MHSet (key field value : string) : hash_method float64 Z
| MHSetNX (key field value : string) : hash_method float64 bool
| MHGet (key field : string) : hash_method float64 string
| MHDel (key : string) (fields : list string) : hash_method float64 Z
| MHExists (key field : string) : hash_method float64 bool
| MHGetAll (key : string) : hash_method float64 (option (gmap string string))
| MHKeys (key : string) : hash_method float64 (list string)
| MHVals (key : string) : hash_method float64 (list string)
| MHLen (key : string) : hash_method float64 Z
| MHStrLen (key field : string) : hash_method float64 Z
| MHIncrBy (key field : string) (delta : Z) : hash_method float64 Z
| MHIncrByFloat (key field : string) (delta : float64) : hash_method float64 float64
| MHMGet (key : string) (fields : list string) : hash_method float64 (list (option string))
| MHMSet (key : string) (fvPairs : list string) : hash_method float64 unit.
Arguments MHSet {_}. Arguments MHSetNX {_}. Arguments MHGet {_}. Arguments MHDel {_}. Arguments MHExists {_}.
Arguments MHGetAll {_}. Arguments MHKeys {_}. Arguments MHVals {_}. Arguments MHLen {_}. Arguments MHStrLen {_}.
Arguments MHIncrBy {_}. Arguments MHIncrByFloat {_}. Arguments MHMGet {_}. Arguments MHMSet {_}.

Inductive list_method : Type -> Type :=
| MLPush (key : string) (elems : list string) : list_method Z
| MRPush (key : string) (elems : list string) : list_method Z
| MLPop (key : string) : list_method string
| MRPop (key : string) : list_method string
| MLLen (key : string) : list_method Z
| MLRange (key : string) (start stop : Z) : list_method (list string)
| MLIndex (key : string) (index : Z) : list_method string
| MLSet (key : string) (index : Z) (value : string) : list_method unit
| MLRem (key : string) (count : Z) (value : string) : list_method Z
| MLTrim (key : string) (start stop : Z) : list_method unit
| MLInsert (key : string) (before : bool) (pivot value : string) : list_method Z
| MBLPop (key : string) (timeout : Z) : list_method string
| MBRPop (key : string) (timeout : Z) : list_method string
| MLPos (key value : string) (rank count maxLen : Z) : list_method (list Z).

Inductive set_method : Type -> Type :=
| MSAdd (key : string) (elems : list string) : set_method Z
| MSRem (key : string) (elems : list string) : set_method Z
| MSIsMember (key elem : string) : set_method bool
| MSMembers (key : string) : set_method (list string)
| MSCard (key : string) : set_method Z
| MSPop (key : string) : set_method string
| MSRandMember (key : string) (count : Z) : set_method (list string)
| MSUnion (keys : list string) : set_method (list string)
| MSInter (keys : list string) : set_method (list string)
| MSDiff (keys : list string) : set_method (list string).

Inductive key_method : Type -> Type :=
| MExists (key : string) : key_method bool
| MType (key : string) : key_method string
| MExpire (key : string) (seconds : Z) : key_method bool
| MPExpire (key : string) (ms : Z) : key_method bool
| MTTL (key : string) : key_method Z
| MPTTL (key : string) : key_method Z
| MPersist (key : string) : key_method bool
| MKeys (pattern : string) : key_method (list string).

Inductive method (float64 A : Type) : Type :=
| KvM (m : kv_method A)
| HashM (m : hash_method float64 A)
| ListM (m : list_method A)
| SetM (m : set_method A)
| KeyM (m : key_method A).
Arguments KvM {_ _}. Arguments HashM {_ _}. Arguments ListM {_ _}. Arguments SetM {_ _}. Arguments KeyM {_ _}.

(** [typeToString] of cli/key.go. *)
Definition typeToString (t : Z) : string :=
  if t =? 1 then "string" else if t =? 2 then "set" else if t =? 3 then "hash" else if t =? 4 then "list" else "none".

Section CmdClient.
Context `{FB : FloatBits float64}.
Notation call := (call float64).
Notation method := (method float64).

(** ** One server *)

Definition direct_kv {A} (m : kv_method A) : call A :=
  match m with
  | MGet key => get key
  | MSet key value ttl => set key value ttl
  | MDel key => del key
  | MLen => lenCmd
  | MCleanup => cleanupCmd
  | MStats => statsCmd
  end.

Definition direct_hash {A} (m : hash_method float64 A) : call A :=
  match m with
  | MHSet key field value => hSet key field value
  | MHSetNX key field value => hSetNX key field value
  | MHGet key field => hGet key field
  | MHDel key fields => hDel key fields
  | MHExists key field => hExists key field
  | MHGetAll key => hGetAll key
  | MHKeys key => hKeys key
  | MHVals key => hVals key
  | MHLen key => hLen key
  | MHStrLen key field => hStrLen key field
  | MHIncrBy key field delta => hIncrBy key field delta
  | MHIncrByFloat key field delta => hIncrByFloat key field delta
  | MHMGet key fields => hmGet key fields
  | MHMSet key fvPairs => hmSet key fvPairs
  end.

Definition direct_list {A} (m : list_method A) : call A :=
  match m with
  | MLPush key elems => lPush key elems
  | MRPush key elems => rPush key elems
  | MLPop key => lPop key
  | MRPop key => rPop key
  | MLLen key => lLen key
  | MLRange key start stop => lRange key start stop
  | MLIndex key index => lIndex key index
  | MLSet key index value => lSet key index value
  | MLRem key count value => lRem key count value
  | MLTrim key start stop => lTrim key start stop
  | MLInsert key before pivot value => lInsert key before pivot value
  | MBLPop key timeout => bLPop key timeout
  | MBRPop key timeout => bRPop key timeout
  | MLPos key value rank count maxLen => lPos key value rank count maxLen
  end.

Definition direct_set {A} (m : set_method A) : call A :=
  match m with
  | MSAdd key elems => sAdd key elems
  | MSRem key elems => sRem key elems
  | MSIsMember key elem => sIsMember key elem
  | MSMembers key => sMembers key
  | MSCard key => sCard key
  | MSPop key => sPop key
  | MSRandMember key count => sRandMember key count
  | MSUnion keys => sUnion keys
  | MSInter keys => sInter keys
  | MSDiff keys => sDiff keys
  end.

Definition direct_key {A} (m : key_method A) : call A :=
  match m with
  | MExists key => existsCmd key
  | MType key => map_call typeToString (typeCmd key)
  | MExpire key seconds => expireCmd key seconds
  | MPExpire key ms => pExpireCmd key ms
  | MTTL key => ttlCmd key
  | MPTTL key => pttlCmd key
  | MPersist key => persistCmd key
  | MKeys pattern => keysCmd pattern
  end.

Definition direct {A} (m : method A) : call A :=
  match m with
  | KvM m => direct_kv m | HashM m => direct_hash m | ListM m => direct_list m | SetM m => direct_set m | KeyM m => direct_key m
  end.

(** ** A cluster *)

Section Dispatch.
Context `{CL : !Clients (float64 := float64) St} `{MO : !Mode (St := St) M}.

Definition cluster_hash {A} (m : hash_method float64 A) (cm : M) : St -> outcome (result error A * St) :=
  match m with
  | MHSet key field value => cm_HSet cm key field value
  | MHSetNX key field value => cm_HSetNX cm key field value
  | MHGet key field => cm_HGet cm key field
  | MHDel key fields => cm_HDel cm key fields
  | MHExists key field => cm_HExists cm key field
  | MHGetAll key => cm_HGetAll cm key
  | MHKeys key => cm_HKeys cm key
  | MHVals key => cm_HVals cm key
  | MHLen key => cm_HLen cm key
  | MHStrLen key field => cm_HStrLen cm key field
  | MHIncrBy key field delta => cm_HIncrBy cm key field delta
  | MHIncrByFloat key field delta => cm_HIncrByFloat cm key field delta
  | MHMGet key fields => cm_HMGet cm key fields
  | MHMSet key fvPairs => cm_HMSet cm key fvPairs
  end.

Definition cluster_list {A} (m : list_method A) (cm : M) : St -> outcome (result error A * St) :=
  match m with
  | MLPush key elems => cm_LPush cm key elems
  | MRPush key elems => cm_RPush cm key elems
  | MLPop key => cm_LPop cm key
  | MRPop key => cm_RPop cm key
  | MLLen key => cm_LLen cm key
  | MLRange key start stop => cm_LRange cm key start stop
  | MLIndex key index => cm_LIndex cm key index
  | MLSet key index value => cm_LSet cm key index value
  | MLRem key count value => cm_LRem cm key count value
  | MLTrim key start stop => cm_LTrim cm key start stop
  | MLInsert key before pivot value => cm_LInsert cm key before pivot value
  | MBLPop key timeout => cm_BLPop cm key timeout
  | MBRPop key timeout => cm_BRPop cm key timeout
  | MLPos key value rank count maxLen => cm_LPos cm key value rank count maxLen
  end.

Definition cluster_set {A} (m : set_method A) (cm : M) : St -> outcome (result error A * St) :=
  match m with
  | MSAdd key elems => cm_SAdd cm key elems
  | MSRem key elems => cm_SRem cm key elems
  | MSIsMember key elem => cm_SIsMember cm key elem
  | MSMembers key => cm_SMembers cm key
  | MSCard key => cm_SCard cm key
  | MSPop key => cm_SPop cm key
  | MSRandMember key count => cm_SRandMember cm key count
  | MSUnion keys => cm_SUnion cm keys
  | MSInter keys => cm_SInter cm keys
  | MSDiff keys => cm_SDiff cm keys
  end.

Definition cluster_key {A} (m : key_method A) (cm : M) : St -> outcome (result error A * St) :=
  match m with
  | MExists key => cm_Exists cm key
  | MType key => cm_Type cm key
  | MExpire key seconds => cm_Expire cm key seconds
  | MPExpire key ms => cm_PExpire cm key ms
  | MTTL key => cm_TTL cm key
  | MPTTL key => cm_PTTL cm key
  | MPersist key => cm_Persist cm key
  | MKeys pattern => cm_Keys cm pattern
  end.

(** [cc_direct]: the server of the direct client. *)
Record cmdClient : Type := mkCmdClient { cc_direct : nat; cc_cluster : option M }.

Definition ask_direct {A} (m : method A) (cc : cmdClient) (s : St) : outcome (result error A * cmdClient * St) :=
  let '(r, s) := perform (cc_direct cc) (direct m) s in Ret (r, cc, s).

Definition in_cluster {A} (cm : M) (cc : cmdClient) (op : M -> St -> outcome (result error A * St)) (s : St) :
    outcome (result error A * cmdClient * St) :=
  '(r, s) ← op cm s; mret (r, cc, s).

(** [Cleanup] and [Stats] always go to the direct client. *)
Definition cluster_kv {A} (m : kv_method A) (cm : M) (cc : cmdClient) : St -> outcome (result error A * cmdClient * St) :=
  match m with
  | MGet key => fun s => '(r, cm, s) ← cm_Get cm key s; mret (r, mkCmdClient (cc_direct cc) (Some cm), s)
  | MSet key value ttl => in_cluster cm cc (fun cm => cm_Set cm key value ttl)
  | MDel key => in_cluster cm cc (fun cm => cm_Del cm key)
  | MLen => in_cluster cm cc cm_Len
  | MCleanup => ask_direct (KvM MCleanup) cc
  | MStats => ask_direct (KvM MStats) cc
  end.

(** A method of [cmdClient]. *)
Definition run_method {A} (m : method A) (cc : cmdClient) (s : St) : outcome (result error A * cmdClient * St) :=
  match cc_cluster cc with
  | None => ask_direct m cc s
  | Some cm =>
      match m with
      | KvM m => cluster_kv m cm cc s
      | HashM m => in_cluster cm cc (cluster_hash m) s
      | ListM m => in_cluster cm cc (cluster_list m) s
      | SetM m => in_cluster cm cc (cluster_set m) s
      | KeyM m => in_cluster cm cc (cluster_key m) s
      end
  end.

End Dispatch.

End CmdClient.
Arguments cmdClient : clear implicits.

(** ** The cluster's configuration *)

Record clusterNodeConfig : Type := mkNodeCfg { y_Addr : string; y_Weight : Z; y_IsMaster : bool }.

Record clusterFileConfig : Type := mkFileCfg {
  y_Mode : string; y_Nodes : list clusterNodeConfig; y_Sentinels : list string; y_Master : string; y_Slaves : list string;
  y_HealthCheckInterval : string; y_HealthCheckTimeout : string; y_FailoverTimeout : string;
}.

(** [if d, err := time.ParseDuration(text); err == nil && d > 0 { field = d }]. *)
Definition positive_duration (text : string) (old : Z) : Z :=
  match ParseDuration text with Some d => if d >? 0 then d else old | None => old end.

(** What [loadClusterConfig] makes of a parsed file and the configuration so far: nodes are added,
    the rest is replaced. *)
Definition apply_cluster_config (cfg : clusterFileConfig) (o : Cluster.Options) : Cluster.Options :=
  Cluster.mkOptions (y_Mode cfg) (o_Nodes o ++ ((fun n => mkConfig (y_Addr n) (y_Weight n) (y_IsMaster n)) <$> y_Nodes cfg))
    (y_Sentinels cfg) (y_Master cfg) (y_Slaves cfg)
    (positive_duration (y_HealthCheckInterval cfg) (HealthCheckInterval o))
    (positive_duration (y_HealthCheckTimeout cfg) (HealthCheckTimeout o))
    (positive_duration (y_FailoverTimeout cfg) (FailoverTimeout o)).

(** [fmt.Errorf] with [%w] and a prefix; [text] is the message of an error. *)
Definition wrap (text : error -> string) (prefix : string) (e : error) : error := ErrMsg (prefix +:+ text e).

(** The YAML decoder is a third party's. *)
Definition loadClusterConfig (text : error -> string) (yaml : string -> result error clusterFileConfig) (data : result error string)
    (o : Cluster.Options) : result error Cluster.Options :=
  match data with
  | Err e => Err (wrap text "read cluster config: " e)
  | Ok data =>
      match yaml data with
      | Err e => Err (wrap text "parse cluster config: " e)
      | Ok cfg => Ok (apply_cluster_config cfg o)
      end
  end.

(** The package's variables that decide what a command's client is. *)
Record cli_config : Type := mkCliConfig { clusterConfigPath : string; clusterCfg : Cluster.Options; useCluster : bool }.

Definition EnableCluster (opts : Cluster.Options) (g : cli_config) : cli_config := mkCliConfig (clusterConfigPath g) opts true.

(** The configuration file, when one is named. *)
Definition load_config (text : error -> string) (yaml : string -> result error clusterFileConfig) (data : result error string)
    (g : cli_config) : result error cli_config :=
  if decide (clusterConfigPath g = EmptyString) then Ok g
  else match loadClusterConfig text yaml data (clusterCfg g) with
       | Err e => Err e
       | Ok o => Ok (mkCliConfig (clusterConfigPath g) o true)
       end.

(** [direct]: whether the direct client connects; [dial]: whether the nodes do. *)
Definition newCmdClient (text : error -> string) (yaml : string -> result error clusterFileConfig) (data : result error string)
    (direct : option error) (dial : string -> option error) (g : cli_config) : result error (cmdClient AnyMode) * cli_config :=
  match load_config text yaml data g with
  | Err e => (Err e, g)
  | Ok g =>
      match direct with
      | Some e => (Err e, g)
      | None =>
          if useCluster g then
            let o := clusterCfg g in
            match Cluster.New dial [WithMode (o_Mode o); WithNodes (o_Nodes o); WithSentinels (o_Sentinels o); WithMaster (o_Master o);
                WithSlaves (o_Slaves o); WithHealthCheckInterval (HealthCheckInterval o); WithHealthCheckTimeout (HealthCheckTimeout o);
                WithFailoverTimeout (FailoverTimeout o)] with
            | Err e => (Err e, g)
            | Ok cm => (Ok (mkCmdClient 0 (Some cm)), g)
            end
          else (Ok (mkCmdClient 0 None), g)
      end
  end.
