(* ===== verification/Repl.v ===== *)
(** * The prompt (cli/repl.go)

    A line is split into words; the first names a command, whose handler checks the number of
    words, calls a method of the client and prints its result.  A handler is a function of the words to what
    happens: something is printed, the session ends, or a method is called and its result printed.
    What is printed is kept as the calls of [fmt] with their arguments; the log of requests is left out. *)

From Stdlib Require Import Strings.String Strings.Ascii Floats.SpecFloat.
From stdpp Require Import base tactics numbers list gmap sets fin_maps strings.
From S2P Require Import Prelude.
From S2P Require Import DHash.
From S2P Require Import Text.
From S2P Require Import Float64.
From S2P Require Import Duration.
From S2P Require Import Bytes.
From S2P Require Import Wire.
From S2P Require Import WireExt.
From S2P Require Import RaftCmd.
From S2P Require Import Client.
From S2P Require Import Cluster.
From S2P Require Import Cli.
Import Strconv.

Open Scope Z_scope.

Section Repl.
Context `{MI : MapIter} `{FB : FloatBits float64} `{FO : FloatOps float64}.
Notation method := (method float64).

(** ** Printing *)

Inductive arg : Type := AInt (n : Z) | AStr (s : string) | AErr (e : error) | AFloat (f : float64) | ANum (f : float).
Inductive printed : Type := Printf (format : string) (args : list arg) | Println (args : list arg) | Print (text : string).

Definition boolToInt (b : bool) : Z := if b then 1 else 0.

Definition integer (n : Z) : list printed := [Printf "(integer) %d\n" [AInt n]].
Definition flag (b : bool) : list printed := integer (boolToInt b).
Definition quoted (s : string) : list printed := [Printf "%q\n" [AStr s]].
Definition numbered (l : list string) : list printed := imap (fun i e => Printf "%d) %s\n" [AInt (Z.of_nat i + 1); AStr e]) l.
Definition done_ok : list printed := [Println [AStr "OK"]].

(** ** Handlers *)

(** [show] gets the time the call took, in nanoseconds. *)
Inductive action : Type :=
| Bye
| Say (out : list printed)
| Ask {A : Type} (m : method A) (show : Z -> A -> list printed).

Notation handler := (list string -> outcome action).

(** [parts[i]]. *)
Definition part (parts : list string) (i : nat) : outcome string := deref (parts !! i).

Definition ask {A} (m : method A) (show : A -> list printed) : outcome action := Ret (Ask m (fun _ => show)).

(** [if len(parts) < min { fmt.Println(usage); continue }]. *)
Definition need (min : nat) (usage : string) (parts : list string) (body : outcome action) : outcome action :=
  if (length parts <? min)%nat then Ret (Say [Println [AStr usage]]) else body.

(** [fmt.Sscanf(s, "%d", &count)]: the digits the text begins with, with a sign; otherwise [count] keeps its value. *)
Fixpoint digits_of (s : string) : string :=
  match s with
  | String c t => match digit c with Some _ => String c (digits_of t) | None => EmptyString end
  | EmptyString => EmptyString
  end.
Definition int_prefix (s : string) : string :=
  match s with
  | String c t => if bool_decide (c = "+"%char) || bool_decide (c = "-"%char) then String c (digits_of t) else digits_of s
  | EmptyString => EmptyString
  end.
Definition scan_int (s : string) (count : Z) : Z := match ParseInt (int_prefix s) with Ok n => n | Err _ => count end.

(** [v, _ := strconv.ParseFloat(s, 64)]: [bad] is the value that comes with an error. *)
Definition float_of (bad : string -> float64) (s : string) : float64 := match ParseFloat s with Ok f => f | Err _ => bad s end.

(** *** Strings and the server *)

Definition repl_exit (parts : list string) : outcome action := Ret Bye.

Definition repl_help_text : string :=
  "Available REPL commands:
  KV:   get, set, del, len, cleanup, ping, stats
  Set:  sadd, srem, sismember, smembers, scard, spop, srandmember, sunion, sinter, sdiff
  Hash: hset, hget, hdel, hexists, hgetall, hkeys, hvals, hlen, hstrlen, hincrby, hincrbyfloat, hmget, hmset, hsetnx
  List: lpush, rpush, lpop, rpop, blpop, brpop, llen, lrange, lindex, lset, lrem, ltrim, linsert, lpos
  Key:  exists, type, expire, pexpire, ttl, pttl, persist, keys
  help, exit / quit".
Definition repl_help (parts : list string) : outcome action := Ret (Say [Println [AStr repl_help_text]]).

Definition repl_get (parts : list string) : outcome action :=
  need 2 "usage: get <key>" parts (
    key ← part parts 1;
    ask (KvM (MGet key)) (fun v => [Println [AStr (string_of (val v))]])).

(** The value is one word, or all words up to a last one that is a duration. *)
Definition set_value (parts : list string) (value : string) : string * Z :=
  if (3 <? length parts)%nat then
    match ParseDuration (default EmptyString (last parts)) with
    | Some d => (Join (take (length parts - 3) (drop 2 parts)) " ", d)
    | None => (Join (drop 2 parts) " ", 0)
    end
  else (value, 0).

Definition repl_set (parts : list string) : outcome action :=
  need 3 "usage: set <key> <value> [ttl]" parts (
    key ← part parts 1; value ← part parts 2;
    let '(value, ttl) := set_value parts value in
    ask (KvM (MSet key (Some (bytes_of value)) ttl)) (fun _ => done_ok)).

Definition repl_del (parts : list string) : outcome action :=
  need 2 "usage: del <key>" parts (key ← part parts 1; ask (KvM (MDel key)) (fun _ => done_ok)).

Definition repl_len (parts : list string) : outcome action := ask (KvM MLen) (fun n => [Println [AInt n]]).

Definition repl_cleanup (parts : list string) : outcome action :=
  ask (KvM MCleanup) (fun n => [Printf "removed %d expired entries\n" [AInt n]]).

(** [float64(time.Since(start).Microseconds())/1000.0]. *)
Definition repl_ping (parts : list string) : outcome action :=
  Ret (Ask (KvM MLen) (fun elapsed _ => [Printf "PONG (%.3fms)\n" [ANum (int (elapsed ÷ 1000) / int 1000)%f64]])).

Definition repl_stats (addr : string) (parts : list string) : outcome action :=
  ask (KvM MLen) (fun n => [Printf "entries: %d\n" [AInt n]; Printf "server:  %s\n" [AStr addr]]).

(** *** Sets *)

Definition repl_sadd (parts : list string) : outcome action :=
  need 3 "usage: sadd <key> <element>" parts (key ← part parts 1; ask (SetM (MSAdd key [Join (drop 2 parts) " "])) integer).
Definition repl_srem (parts : list string) : outcome action :=
  need 3 "usage: srem <key> <element>" parts (key ← part parts 1; ask (SetM (MSRem key [Join (drop 2 parts) " "])) integer).
Definition repl_sismember (parts : list string) : outcome action :=
  need 3 "usage: sismember <key> <element>" parts (key ← part parts 1; ask (SetM (MSIsMember key (Join (drop 2 parts) " "))) flag).
Definition repl_smembers (parts : list string) : outcome action :=
  need 2 "usage: smembers <key>" parts (key ← part parts 1; ask (SetM (MSMembers key)) numbered).
Definition repl_scard (parts : list string) : outcome action :=
  need 2 "usage: scard <key>" parts (key ← part parts 1; ask (SetM (MSCard key)) integer).
Definition repl_spop (parts : list string) : outcome action :=
  need 2 "usage: spop <key>" parts (key ← part parts 1; ask (SetM (MSPop key)) quoted).
Definition repl_srandmember (parts : list string) : outcome action :=
  need 2 "usage: srandmember <key> [count]" parts (
    key ← part parts 1;
    count ← (if (2 <? length parts)%nat then c ← part parts 2; mret (scan_int c 1) else Ret 1);
    ask (SetM (MSRandMember key count)) (fun l => e ← l; quoted e)).
Definition repl_sunion (parts : list string) : outcome action :=
  need 2 "usage: sunion <key> [key...]" parts (ask (SetM (MSUnion (drop 1 parts))) numbered).
Definition repl_sinter (parts : list string) : outcome action :=
  need 2 "usage: sinter <key> [key...]" parts (ask (SetM (MSInter (drop 1 parts))) numbered).
Definition repl_sdiff (parts : list string) : outcome action :=
  need 2 "usage: sdiff <key> [key...]" parts (ask (SetM (MSDiff (drop 1 parts))) numbered).

(** *** Hashes *)

Definition repl_hset (parts : list string) : outcome action :=
  need 4 "usage: hset <key> <field> <value>" parts (
    key ← part parts 1; field ← part parts 2; value ← part parts 3; ask (HashM (MHSet key field value)) integer).
Definition repl_hget (parts : list string) : outcome action :=
  need 3 "usage: hget <key> <field>" parts (key ← part parts 1; field ← part parts 2; ask (HashM (MHGet key field)) quoted).
Definition repl_hdel (parts : list string) : outcome action :=
  need 3 "usage: hdel <key> <field> [field...]" parts (key ← part parts 1; ask (HashM (MHDel key (drop 2 parts))) integer).
Definition repl_hexists (parts : list string) : outcome action :=
  need 3 "usage: hexists <key> <field>" parts (key ← part parts 1; field ← part parts 2; ask (HashM (MHExists key field)) flag).
Definition repl_hgetall (parts : list string) : outcome action :=
  need 2 "usage: hgetall <key>" parts (
    key ← part parts 1;
    ask (HashM (MHGetAll key)) (fun all => (fun '(k, v) => Printf "  %s: %s\n" [AStr k; AStr v]) <$> map_iter (default ∅ all))).
Definition repl_hkeys (parts : list string) : outcome action :=
  need 2 "usage: hkeys <key>" parts (key ← part parts 1; ask (HashM (MHKeys key)) numbered).
Definition repl_hvals (parts : list string) : outcome action :=
  need 2 "usage: hvals <key>" parts (key ← part parts 1; ask (HashM (MHVals key)) numbered).
Definition repl_hlen (parts : list string) : outcome action :=
  need 2 "usage: hlen <key>" parts (key ← part parts 1; ask (HashM (MHLen key)) integer).
Definition repl_hstrlen (parts : list string) : outcome action :=
  need 3 "usage: hstrlen <key> <field>" parts (key ← part parts 1; field ← part parts 2; ask (HashM (MHStrLen key field)) integer).
Definition repl_hincrby (parts : list string) : outcome action :=
  need 4 "usage: hincrby <key> <field> <delta>" parts (
    delta ← part parts 3; key ← part parts 1; field ← part parts 2; ask (HashM (MHIncrBy key field (int_of delta))) integer).
Definition repl_hincrbyfloat (bad : string -> float64) (parts : list string) : outcome action :=
  need 4 "usage: hincrbyfloat <key> <field> <delta>" parts (
    delta ← part parts 3; key ← part parts 1; field ← part parts 2;
    ask (HashM (MHIncrByFloat key field (float_of bad delta))) (fun n => [Printf "%g\n" [AFloat n]])).
Definition show_any (i : nat) (v : option string) : printed :=
  match v with
  | None => Printf "%d) (nil)\n" [AInt (Z.of_nat i + 1)]
  | Some v => Printf "%d) %v\n" [AInt (Z.of_nat i + 1); AStr v]
  end.
Definition repl_hmget (parts : list string) : outcome action :=
  need 3 "usage: hmget <key> <field> [field...]" parts (
    key ← part parts 1; ask (HashM (MHMGet key (drop 2 parts))) (fun vals => imap show_any vals)).
Definition repl_hmset (parts : list string) : outcome action :=
  need 4 "usage: hmset <key> <field> <value> [field value...]" parts (
    key ← part parts 1; ask (HashM (MHMSet key (drop 2 parts))) (fun _ => done_ok)).
Definition repl_hsetnx (parts : list string) : outcome action :=
  need 4 "usage: hsetnx <key> <field> <value>" parts (
    key ← part parts 1; field ← part parts 2; value ← part parts 3; ask (HashM (MHSetNX key field value)) flag).

(** *** Lists *)

Definition repl_lpush (parts : list string) : outcome action :=
  need 3 "usage: lpush <key> <element> [element...]" parts (key ← part parts 1; ask (ListM (MLPush key (drop 2 parts))) integer).
Definition repl_rpush (parts : list string) : outcome action :=
  need 3 "usage: rpush <key> <element> [element...]" parts (key ← part parts 1; ask (ListM (MRPush key (drop 2 parts))) integer).
Definition repl_lpop (parts : list string) : outcome action :=
  need 2 "usage: lpop <key>" parts (key ← part parts 1; ask (ListM (MLPop key)) quoted).
Definition repl_rpop (parts : list string) : outcome action :=
  need 2 "usage: rpop <key>" parts (key ← part parts 1; ask (ListM (MRPop key)) quoted).
Definition repl_llen (parts : list string) : outcome action :=
  need 2 "usage: llen <key>" parts (key ← part parts 1; ask (ListM (MLLen key)) integer).
Definition repl_lrange (parts : list string) : outcome action :=
  need 4 "usage: lrange <key> <start> <stop>" parts (
    start ← part parts 2; stop ← part parts 3; key ← part parts 1;
    ask (ListM (MLRange key (int_of start) (int_of stop))) numbered).
Definition repl_lindex (parts : list string) : outcome action :=
  need 3 "usage: lindex <key> <index>" parts (index ← part parts 2; key ← part parts 1; ask (ListM (MLIndex key (int_of index))) quoted).
Definition repl_lset (parts : list string) : outcome action :=
  need 4 "usage: lset <key> <index> <value>" parts (
    index ← part parts 2; key ← part parts 1; value ← part parts 3; ask (ListM (MLSet key (int_of index) value)) (fun _ => done_ok)).
Definition repl_lrem (parts : list string) : outcome action :=
  need 4 "usage: lrem <key> <count> <value>" parts (
    count ← part parts 2; key ← part parts 1; value ← part parts 3; ask (ListM (MLRem key (int_of count) value)) integer).
Definition repl_ltrim (parts : list string) : outcome action :=
  need 4 "usage: ltrim <key> <start> <stop>" parts (
    start ← part parts 2; stop ← part parts 3; key ← part parts 1;
    ask (ListM (MLTrim key (int_of start) (int_of stop))) (fun _ => done_ok)).
Definition repl_linsert (parts : list string) : outcome action :=
  need 5 "usage: linsert <key> before|after <pivot> <value>" parts (
    pos ← part parts 2; key ← part parts 1; pivot ← part parts 3; value ← part parts 4;
    let before := bool_decide (pos = "before"%string) || bool_decide (pos = "BEFORE"%string) in
    ask (ListM (MLInsert key before pivot value)) integer).
(** [time.Duration(timeout)*time.Second]. *)
Definition repl_blpop (parts : list string) : outcome action :=
  need 3 "usage: blpop <key> <timeout_seconds>" parts (
    timeout ← part parts 2; key ← part parts 1; ask (ListM (MBLPop key (int64 (int_of timeout * 1000000000)))) quoted).
Definition repl_brpop (parts : list string) : outcome action :=
  need 3 "usage: brpop <key> <timeout_seconds>" parts (
    timeout ← part parts 2; key ← part parts 1; ask (ListM (MBRPop key (int64 (int_of timeout * 1000000000)))) quoted).
Definition part_or (parts : list string) (i : nat) (d : Z) : outcome Z :=
  if (i <? length parts)%nat then s ← part parts i; mret (int_of s) else Ret d.
Definition repl_lpos (parts : list string) : outcome action :=
  need 3 "usage: lpos <key> <value> [rank] [count] [maxlen]" parts (
    rank ← part_or parts 3 1; count ← part_or parts 4 1; maxLen ← part_or parts 5 0;
    key ← part parts 1; value ← part parts 2;
    ask (ListM (MLPos key value rank count maxLen)) (fun l => p ← l; integer p)).

(** *** Keys *)

Definition repl_exists (parts : list string) : outcome action :=
  need 2 "usage: exists <key>" parts (key ← part parts 1; ask (KeyM (MExists key)) flag).
Definition repl_type (parts : list string) : outcome action :=
  need 2 "usage: type <key>" parts (key ← part parts 1; ask (KeyM (MType key)) (fun t => [Println [AStr t]])).
Definition repl_expire (parts : list string) : outcome action :=
  need 3 "usage: expire <key> <seconds>" parts (sec ← part parts 2; key ← part parts 1; ask (KeyM (MExpire key (int_of sec))) flag).
Definition repl_pexpire (parts : list string) : outcome action :=
  need 3 "usage: pexpire <key> <milliseconds>" parts (ms ← part parts 2; key ← part parts 1; ask (KeyM (MPExpire key (int_of ms))) flag).
Definition repl_ttl (parts : list string) : outcome action :=
  need 2 "usage: ttl <key>" parts (key ← part parts 1; ask (KeyM (MTTL key)) integer).
Definition repl_pttl (parts : list string) : outcome action :=
  need 2 "usage: pttl <key>" parts (key ← part parts 1; ask (KeyM (MPTTL key)) integer).
Definition repl_persist (parts : list string) : outcome action :=
  need 2 "usage: persist <key>" parts (key ← part parts 1; ask (KeyM (MPersist key)) flag).
Definition repl_keys (parts : list string) : outcome action :=
  need 2 "usage: keys <pattern>" parts (pattern ← part parts 1; ask (KeyM (MKeys pattern)) numbered).

(** ** The switch *)

Definition commands (addr : string) (bad : string -> float64) : list (string * handler) :=
  [("exit", repl_exit); ("quit", repl_exit); ("help", repl_help);
   ("get", repl_get); ("set", repl_set); ("del", repl_del); ("len", repl_len); ("cleanup", repl_cleanup); ("ping", repl_ping);
   ("stats", repl_stats addr);
   ("sadd", repl_sadd); ("srem", repl_srem); ("sismember", repl_sismember); ("smembers", repl_smembers); ("scard", repl_scard);
   ("spop", repl_spop); ("srandmember", repl_srandmember); ("sunion", repl_sunion); ("sinter", repl_sinter); ("sdiff", repl_sdiff);
   ("hset", repl_hset); ("hget", repl_hget); ("hdel", repl_hdel); ("hexists", repl_hexists); ("hgetall", repl_hgetall);
   ("hkeys", repl_hkeys); ("hvals", repl_hvals); ("hlen", repl_hlen); ("hstrlen", repl_hstrlen); ("hincrby", repl_hincrby);
   ("hincrbyfloat", repl_hincrbyfloat bad); ("hmget", repl_hmget); ("hmset", repl_hmset); ("hsetnx", repl_hsetnx);
   ("lpush", repl_lpush); ("rpush", repl_rpush); ("lpop", repl_lpop); ("rpop", repl_rpop); ("llen", repl_llen);
   ("lrange", repl_lrange); ("lindex", repl_lindex); ("lset", repl_lset); ("lrem", repl_lrem); ("ltrim", repl_ltrim);
   ("linsert", repl_linsert); ("blpop", repl_blpop); ("brpop", repl_brpop); ("lpos", repl_lpos);
   ("exists", repl_exists); ("type", repl_type); ("expire", repl_expire); ("pexpire", repl_pexpire); ("ttl", repl_ttl);
   ("pttl", repl_pttl); ("persist", repl_persist); ("keys", repl_keys)]%string.

(** The case of a switch: the first label equal to [cmd]. *)
Fixpoint case_of {B} (cmd : string) (table : list (string * B)) : option B :=
  match table with
  | [] => None
  | (name, h) :: table => if String.eqb cmd name then Some h else case_of cmd table
  end.

Definition unknown_command (cmd : string) : list printed :=
  [Printf "Unknown command: %q. Type 'help' for available commands.\n" [AStr cmd]].

(** A line that was read: empty lines are skipped. *)
Definition interpret (addr : string) (bad : string -> float64) (line : string) : outcome action :=
  match Fields (TrimSpace line) with
  | [] => Ret (Say [])
  | cmd :: args =>
      match case_of cmd (commands addr bad) with
      | Some h => h (cmd :: args)
      | None => Ret (Say (unknown_command cmd))
      end
  end.

(** ** The session *)

Context `{CL : !Clients (float64 := float64) St} `{MO : !Mode (St := St) M}.

(** The lines that end in a newline; [ReadString] returns what follows the last one with an error, and the
    session ends. *)
Fixpoint read_lines (s : string) : list string :=
  match s with
  | EmptyString => []
  | String a t =>
      if decide (a = newline) then String a EmptyString :: read_lines t
      else match read_lines t with [] => [] | l :: ls => String a l :: ls end
  end.

(** [elapsed] is the time a call takes. *)
Definition perform_action (act : action) (elapsed : Z) (cc : cmdClient M) (s : St) : outcome (list printed * bool * cmdClient M * St) :=
  match act with
  | Bye => Ret ([Println [AStr "Bye."]], false, cc, s)
  | Say out => Ret (out, true, cc, s)
  | Ask m show =>
      '(r, cc, s) ← run_method m cc s;
      mret (match r with Err e => [Println [AStr "Error:"; AErr e]] | Ok a => show elapsed a end, true, cc, s)
  end.

Definition prompt : printed := Print "> ".

(** The loop of [Run], with the time the call of each line takes: everything printed, and the state at the end. *)
Fixpoint repl_loop (addr : string) (bad : string -> float64) (elapsed : nat -> Z) (lines : list string) (cc : cmdClient M) (s : St) :
    outcome (list printed * cmdClient M * St) :=
  match lines with
  | [] => Ret ([prompt; Println []], cc, s)
  | line :: lines =>
      act ← interpret addr bad line;
      '(out, go, cc, s) ← perform_action act (elapsed 0%nat) cc s;
      if go : bool then
        '(out', cc, s) ← repl_loop addr bad (fun i => elapsed (S i)) lines cc s;
        mret (prompt :: out ++ out', cc, s)
      else mret (prompt :: out, cc, s)
  end.

Definition replCmd (version addr : string) (bad : string -> float64) (elapsed : nat -> Z) (stdin : string) (cc : cmdClient M) (s : St) :
    outcome (list printed * cmdClient M * St) :=
  '(out, cc, s) ← repl_loop addr bad elapsed (read_lines stdin) cc s;
  mret (Printf "mcache %s connected to %s\n" [AStr version; AStr addr] ::
        Println [AStr "Type 'help' for available commands, 'exit' to quit."] :: out, cc, s).

End Repl.
Arguments action : clear implicits.
Arguments printed : clear implicits.
Arguments arg : clear implicits.
