(* ===== verification/ReplSpec.v ===== *)
(** * The prompt: what a line does

    No line makes the prompt panic; a line typed for a method of the client calls that method with
    those arguments; and a session is the sequence of its calls. *)

From Stdlib Require Import ZArith Lia Strings.String Strings.Ascii Floats.SpecFloat.
From stdpp Require Import base tactics numbers list gmap sets fin_maps strings pretty.
From S2P Require Import Prelude.
From S2P Require Import DHash.
From S2P Require Import Text.
From S2P Require Import Float64.
From S2P Require Import Duration.
From S2P Require Import Bytes.
From S2P Require Import Wire.
From S2P Require Import WireExt.
From S2P Require Import RaftCmd.
From S2P Require Import Client.
From S2P Require Import Cluster.
From S2P Require Import WireExtSpec.
From S2P Require Import ClusterSpec.
From S2P Require Import Cli.
From S2P Require Import Repl.
Import Strconv.

#[local] Open Scope string_scope.
#[local] Open Scope list_scope.
#[local] Open Scope Z_scope.

Section ReplSpec.
Context `{MI : MapIter} `{FB : FloatBits float64} `{FO : FloatOps float64}.
Notation method := (method float64).
Notation action := (action float64).
Variables (addr : string) (bad : string -> float64).

(** ** No line panics *)

Lemma part_reads parts i : (i < length parts)%nat -> exists s, part parts i ⇓ s.
Proof. intros Hi. unfold part. destruct (lookup_lt_is_Some_2 parts i Hi) as [s ->]. by exists s. Qed.

Lemma part_or_reads parts i d : exists n, part_or parts i d ⇓ n.
Proof.
  unfold part_or. destruct (Nat.ltb_spec i (length parts)) as [Hi|]; [|by eexists].
  destruct (part_reads parts i Hi) as [s ->]. by eexists.
Qed.

Ltac head_of t := lazymatch t with ?f _ => head_of f | _ => t end.

(** A handler that asks for enough words reads only words that are there. *)
Ltac handler_returns :=
  let parts := fresh "parts" in intros parts;
  lazymatch goal with |- exists act, ?h = Ret act => let f := head_of h in unfold f end;
  unfold need; try lazymatch goal with |- context [(length parts <? ?n)%nat] => destruct (Nat.ltb_spec (length parts) n); [by eexists|] end;
  repeat match goal with
  | |- context [part parts ?i] => destruct (part_reads parts i) as [? ->]; [lia|]; cbn [mbind outcome_bind]
  | |- context [part_or parts ?i ?d] => destruct (part_or_reads parts i d) as [? ->]; cbn [mbind outcome_bind]
  | |- context [(2 <? length parts)%nat] => destruct (Nat.ltb_spec 2 (length parts))
  | |- context [set_value parts ?v] => destruct (set_value parts v)
  end; by eexists.

Lemma handlers_return : Forall (fun '(_, h) => forall parts, exists act : action, h parts ⇓ act) (commands addr bad).
Proof. unfold commands. repeat (apply Forall_cons; split; [handler_returns|]). by apply Forall_nil. Qed.

Lemma case_of_elem {B} cmd (table : list (string * B)) h : case_of cmd table = Some h -> (cmd, h) ∈ table.
Proof.
  induction table as [|[name h'] table IH]; [done|]. cbn [case_of]. destruct (String.eqb_spec cmd name) as [->|].
  - intros [= ->]. apply list_elem_of_here.
  - intros H. by apply list_elem_of_further, IH.
Qed.

Lemma interpret_returns line : exists act, interpret addr bad line ⇓ act.
Proof.
  unfold interpret. destruct (Fields (TrimSpace line)) as [|cmd args]; [by eexists|].
  destruct (case_of cmd (commands addr bad)) as [h|] eqn:Hc; [|by eexists].
  apply case_of_elem in Hc. pose proof (proj1 (Forall_forall _ _) handlers_return _ Hc) as H. apply H.
Qed.

(** ** Lines for methods *)

Definition fits (n : Z) : bool := (min_int64 <=? n) && (n <=? max_int64).

Lemma fits_spec n : fits n = true <-> in_int64 n.
Proof. unfold fits, in_int64. rewrite andb_true_iff, !Z.leb_le. done. Qed.

Definition num (n : Z) : option string := if fits n then Some (FormatInt n) else None.

(** A time in whole seconds, as a number of seconds. *)
Definition secs (t : Z) : option string :=
  if fits t then if (t mod 1000000000 =? 0) then Some (FormatInt (t / 1000000000)) else None else None.

Definition typed_kv {A} (m : kv_method A) : option (list string) :=
  match m with
  | MGet key => Some ["get"; key]
  | MSet key (Some value) ttl =>
      if ttl =? 0 then Some ["set"; key; string_of value]
      else if 0 <? ttl then s ← secs ttl; Some ["set"; key; string_of value; s +:+ "s"]
      else None
  | MSet _ None _ => None
  | MDel key => Some ["del"; key]
  | MLen => Some ["len"]
  | MCleanup => Some ["cleanup"]
  | MStats => None
  end.

Definition typed_hash {A} (m : hash_method float64 A) : option (list string) :=
  match m with
  | MHSet key field value => Some ["hset"; key; field; value]
  | MHSetNX key field value => Some ["hsetnx"; key; field; value]
  | MHGet key field => Some ["hget"; key; field]
  | MHDel key (f :: fields) => Some ("hdel" :: key :: f :: fields)
  | MHExists key field => Some ["hexists"; key; field]
  | MHGetAll key => Some ["hgetall"; key]
  | MHKeys key => Some ["hkeys"; key]
  | MHVals key => Some ["hvals"; key]
  | MHLen key => Some ["hlen"; key]
  | MHStrLen key field => Some ["hstrlen"; key; field]
  | MHIncrBy key field delta => d ← num delta; Some ["hincrby"; key; field; d]
  | MHMGet key (f :: fields) => Some ("hmget" :: key :: f :: fields)
  | MHMSet key (f :: v :: pairs) => Some ("hmset" :: key :: f :: v :: pairs)
  | MHIncrByFloat _ _ _ | MHDel _ [] | MHMGet _ [] | MHMSet _ _ => None
  end.

Definition typed_list {A} (m : list_method A) : option (list string) :=
  match m with
  | MLPush key (e :: elems) => Some ("lpush" :: key :: e :: elems)
  | MRPush key (e :: elems) => Some ("rpush" :: key :: e :: elems)
  | MLPush _ [] | MRPush _ [] => None
  | MLPop key => Some ["lpop"; key]
  | MRPop key => Some ["rpop"; key]
  | MLLen key => Some ["llen"; key]
  | MLRange key start stop => a ← num start; b ← num stop; Some ["lrange"; key; a; b]
  | MLIndex key index => i ← num index; Some ["lindex"; key; i]
  | MLSet key index value => i ← num index; Some ["lset"; key; i; value]
  | MLRem key count value => n ← num count; Some ["lrem"; key; n; value]
  | MLTrim key start stop => a ← num start; b ← num stop; Some ["ltrim"; key; a; b]
  | MLInsert key before pivot value => Some ["linsert"; key; if before then "before" else "after"; pivot; value]
  | MBLPop key timeout => t ← secs timeout; Some ["blpop"; key; t]
  | MBRPop key timeout => t ← secs timeout; Some ["brpop"; key; t]
  | MLPos key value rank count maxLen => r ← num rank; c ← num count; m ← num maxLen; Some ["lpos"; key; value; r; c; m]
  end.

Definition typed_set {A} (m : set_method A) : option (list string) :=
  match m with
  | MSAdd key [e] => Some ["sadd"; key; e]
  | MSRem key [e] => Some ["srem"; key; e]
  | MSAdd _ _ | MSRem _ _ => None
  | MSIsMember key elem => Some ["sismember"; key; elem]
  | MSMembers key => Some ["smembers"; key]
  | MSCard key => Some ["scard"; key]
  | MSPop key => Some ["spop"; key]
  | MSRandMember key count => n ← num count; Some ["srandmember"; key; n]
  | MSUnion (k :: keys) => Some ("sunion" :: k :: keys)
  | MSInter (k :: keys) => Some ("sinter" :: k :: keys)
  | MSDiff (k :: keys) => Some ("sdiff" :: k :: keys)
  | MSUnion [] | MSInter [] | MSDiff [] => None
  end.

Definition typed_key {A} (m : key_method A) : option (list string) :=
  match m with
  | MExists key => Some ["exists"; key]
  | MType key => Some ["type"; key]
  | MExpire key seconds => n ← num seconds; Some ["expire"; key; n]
  | MPExpire key ms => n ← num ms; Some ["pexpire"; key; n]
  | MTTL key => Some ["ttl"; key]
  | MPTTL key => Some ["pttl"; key]
  | MPersist key => Some ["persist"; key]
  | MKeys pattern => Some ["keys"; pattern]
  end.

(** The words to type for a method, if the prompt can express its arguments. *)
Definition typed {A} (m : method A) : option (list string) :=
  match m with
  | KvM m => typed_kv m | HashM m => typed_hash m | ListM m => typed_list m | SetM m => typed_set m | KeyM m => typed_key m
  end.

Notation words ws := (Forall (fun w => word w = true) ws).

Lemma interpret_words cmd args h : words (cmd :: args) -> case_of cmd (commands addr bad) = Some h ->
  interpret addr bad (Join (cmd :: args) " " +:+ String newline EmptyString) = h (cmd :: args).
Proof.
  intros Hw Hc. unfold interpret. rewrite Fields_TrimSpace, Fields_join_end by done. by rewrite Hc.
Qed.

Lemma num_int_of n s : num n = Some s -> int_of s = n.
Proof. unfold num. destruct (fits n) eqn:Hf; [|done]. intros [= <-]. by apply int_of_FormatInt, fits_spec. Qed.

Lemma secs_int_of t s : secs t = Some s -> int64 (int_of s * 1000000000) = t.
Proof.
  unfold secs. destruct (fits t) eqn:Ht; [|done]. apply fits_spec in Ht. destruct (Z.eqb_spec (t mod 1000000000) 0) as [H0|]; [|done]. intros [= <-].
  pose proof (Z.div_mod t 1000000000 ltac:(lia)) as Hd. rewrite H0, Z.add_0_r in Hd. set (q := t / 1000000000) in *. clearbody q.
  assert (in_int64 q) as Hq by (clear -Ht Hd; unfold in_int64, min_int64, max_int64 in *; lia).
  rewrite int_of_FormatInt by done. rewrite int64_id; [lia|]. by replace (q * 1000000000) with t by lia.
Qed.

Lemma digits_of_pretty_go n : forall s, digits_of s = s -> digits_of (pretty_N_go n s) = pretty_N_go n s.
Proof.
  induction (N.lt_wf_0 n) as [n _ IH]. intros s Hs. destruct (decide (n = 0%N)) as [->|Hz]; [by rewrite pretty_N_go_0|].
  rewrite pretty_N_go_step by lia. apply IH; [apply N.div_lt; lia|]. cbn [digits_of].
  rewrite digit_pretty_N_char by (apply N.mod_lt; lia). by rewrite Hs.
Qed.

Lemma int_prefix_FormatInt n : int_prefix (FormatInt n) = FormatInt n.
Proof.
  assert (forall p, digits_of (pretty (N.pos p)) = pretty (N.pos p)) as Hd.
  { intros p. unfold pretty, pretty_N. rewrite decide_False by done. by apply digits_of_pretty_go. }
  unfold FormatInt, pretty, pretty_Z. destruct n as [|p|p]; [done|..]; change (pretty p) with (pretty (N.pos p)).
  - destruct (pretty_N_head (N.pos p) "+"%char eq_refl) as (c & s & Hp & Hplus).
    destruct (pretty_N_head (N.pos p) "-"%char eq_refl) as (c' & s' & Hp' & Hminus).
    pose proof (Hd p) as Hdp. rewrite Hp in *. injection Hp' as <- <-. unfold int_prefix. by rewrite !bool_decide_false.
  - change (int_prefix (String "-" (pretty (N.pos p))) = String "-" (pretty (N.pos p))). cbn [int_prefix].
    rewrite (bool_decide_true ("-"%char = "-"%char)) by done. rewrite orb_true_r. by rewrite Hd.
Qed.

Lemma num_scan n s : num n = Some s -> scan_int s 1 = n.
Proof.
  unfold num. destruct (fits n) eqn:Hf; [|done]. apply fits_spec in Hf. intros [= <-].
  unfold scan_int. by rewrite int_prefix_FormatInt, ParseInt_FormatInt.
Qed.

Lemma secs_duration t s : secs t = Some s -> 0 < t -> ParseDuration (s +:+ "s") = Some t.
Proof.
  unfold secs. destruct (fits t) eqn:Ht; [|done]. apply fits_spec in Ht. destruct (Z.eqb_spec (t mod 1000000000) 0) as [H0|]; [|done]. intros [= <-] Hpos.
  pose proof (Z.div_mod t 1000000000 ltac:(lia)) as Hd. rewrite H0, Z.add_0_r in Hd. set (q := t / 1000000000) in *. clearbody q.
  rewrite ParseDuration_seconds; [f_equal; lia|]. unfold in_int64, max_int64 in Ht. lia.
Qed.

(** Takes apart a number in the words and rewrites what the handler reads back. *)
Ltac read_back :=
  repeat match goal with
  | H : mbind _ (num ?n) = _ |- _ => let E := fresh "E" in destruct (num n) eqn:E; cbn [mbind option_bind] in H; [|done]
  | H : mbind _ (secs ?n) = _ |- _ => let E := fresh "E" in destruct (secs n) eqn:E; cbn [mbind option_bind] in H; [|done]
  end.

Ltac type_line :=
  lazymatch goal with H : Some _ = Some _ |- _ => injection H as <- end;
  eexists; (erewrite interpret_words; [|done|reflexivity]);
  repeat match goal with
  | E : num ?n = Some ?s |- context [MSRandMember] => rewrite <-(num_scan n s E)
  | E : num ?n = Some ?s |- _ => rewrite <-(num_int_of n s E); clear E
  | E : secs ?n = Some ?s |- _ => rewrite <-(secs_int_of n s E); clear E
  end; reflexivity.

Lemma typed_kv_line {A} (m : kv_method A) ws : typed_kv m = Some ws -> words ws ->
  exists show, interpret addr bad (Join ws " " +:+ String newline EmptyString) ⇓ Ask (KvM m) show.
Proof.
  destruct m as [key|key [value|] ttl|key| | |]; cbn [typed_kv]; intros H Hw; try done; try type_line.
  destruct (Z.eqb_spec ttl 0) as [->|Hne].
  - injection H as <-. eexists. erewrite interpret_words; [|done|reflexivity].
    rewrite <-(list_byte_of_string_of_list_byte value) at 2. reflexivity.
  - destruct (Z.ltb_spec 0 ttl); [|done]. read_back. injection H as <-. eexists. erewrite interpret_words; [|done|reflexivity].
    unfold repl_set, need, set_value, part. cbn [length Nat.ltb Nat.leb lookup list_lookup deref mbind outcome_bind last default from_option].
    change (id (s +:+ "s")) with (s +:+ "s"). rewrite (secs_duration ttl s) by done. rewrite <-(list_byte_of_string_of_list_byte value) at 2. reflexivity.
Qed.

Lemma typed_hash_line {A} (m : hash_method float64 A) ws : typed_hash m = Some ws -> words ws ->
  exists show, interpret addr bad (Join ws " " +:+ String newline EmptyString) ⇓ Ask (HashM m) show.
Proof. destruct m as [| | |? []| | | | | | | | |? []|? [|? []]]; cbn [typed_hash]; intros H Hw; read_back; try done; type_line. Qed.

Lemma typed_list_line {A} (m : list_method A) ws : typed_list m = Some ws -> words ws ->
  exists show, interpret addr bad (Join ws " " +:+ String newline EmptyString) ⇓ Ask (ListM m) show.
Proof. destruct m as [? []|? []| | | | | | | | |? []| | |]; cbn [typed_list]; intros H Hw; read_back; try done; type_line. Qed.

Lemma typed_set_line {A} (m : set_method A) ws : typed_set m = Some ws -> words ws ->
  exists show, interpret addr bad (Join ws " " +:+ String newline EmptyString) ⇓ Ask (SetM m) show.
Proof. destruct m as [? [|? []]|? [|? []]| | | | | |[]|[]|[]]; cbn [typed_set]; intros H Hw; read_back; try done; type_line. Qed.

Lemma typed_key_line {A} (m : key_method A) ws : typed_key m = Some ws -> words ws ->
  exists show, interpret addr bad (Join ws " " +:+ String newline EmptyString) ⇓ Ask (KeyM m) show.
Proof. destruct m; cbn [typed_key]; intros H Hw; read_back; try done; type_line. Qed.

Lemma typed_line {A} (m : method A) ws : typed m = Some ws -> words ws ->
  exists show, interpret addr bad (Join ws " " +:+ String newline EmptyString) ⇓ Ask m show.
Proof.
  destruct m; cbn [typed]; [apply typed_kv_line|apply typed_hash_line|apply typed_list_line|apply typed_set_line|apply typed_key_line].
Qed.

(** ** Sessions *)

Context `{CL : !Clients (float64 := float64) St} `{MO : !Mode (St := St) M}.

(** A method with the words that are typed for it. *)
Record request : Type := mkRequest { q_type : Type; q_method : method q_type; q_words : list string }.

Definition typable (q : request) : Prop := typed (q_method q) = Some (q_words q) /\ words (q_words q).

Definition line_of (q : request) : string := Join (q_words q) " " +:+ String newline EmptyString.

(** What is typed in a session. *)
Definition stdin_of (qs : list request) : string := foldr (fun q s => line_of q +:+ s) EmptyString qs.

(** The calls of a session, one after the other. *)
Fixpoint run_methods (qs : list request) (cc : cmdClient M) (s : St) : outcome (cmdClient M * St) :=
  match qs with
  | [] => Ret (cc, s)
  | q :: qs => '(_, cc, s) ← run_method (q_method q) cc s; run_methods qs cc s
  end.

Fixpoint no_newline (s : string) : bool :=
  match s with EmptyString => true | String c s => bool_decide (c <> newline) && no_newline s end.

Lemma no_newline_app a b : no_newline (a +:+ b) = no_newline a && no_newline b.
Proof.
  induction a as [|c a IH]; [done|]. change (String c a +:+ b) with (String c (a +:+ b)). cbn [no_newline]. by rewrite IH, andb_assoc.
Qed.

Lemma no_space_no_newline w : no_space w = true -> no_newline w = true.
Proof.
  induction w as [|c w IH]; [done|]. cbn [no_space no_newline]. intros [Hc%Nat.eqb_eq Hw]%andb_true_iff.
  rewrite IH by done. rewrite andb_true_r. apply bool_decide_eq_true. by intros ->.
Qed.

Lemma words_no_newline ws : words ws -> no_newline (Join ws " ") = true.
Proof.
  intros Hws. destruct Hws as [|w ws Hw Hws]; [done|]. revert w Hw. induction Hws as [|v ws Hv _ IH]; intros w Hw.
  - apply no_space_no_newline. auto with mcache.
  - change (Join (w :: v :: ws) " ") with (w +:+ (" " +:+ Join (v :: ws) " ")). rewrite !no_newline_app, IH by done.
    by rewrite no_space_no_newline by auto with mcache.
Qed.

Lemma read_lines_app l r : no_newline l = true ->
  read_lines (l +:+ String newline r) = (l +:+ String newline EmptyString) :: read_lines r.
Proof.
  induction l as [|c l IH]; [done|]. cbn [no_newline]. intros [Hc%bool_decide_eq_true Hl]%andb_true_iff.
  change (String c l +:+ String newline r) with (String c (l +:+ String newline r)). cbn [read_lines].
  rewrite decide_False by done. by rewrite IH.
Qed.

Lemma read_lines_stdin qs : Forall typable qs -> read_lines (stdin_of qs) = line_of <$> qs.
Proof.
  induction 1 as [|q qs [_ Hw] _ IH]; [done|]. rewrite fmap_cons, <-IH.
  assert (stdin_of (q :: qs) = Join (q_words q) " " +:+ String newline (stdin_of qs)) as ->.
  { change (stdin_of (q :: qs)) with (line_of q +:+ stdin_of qs). unfold line_of. by rewrite append_assoc. }
  by apply read_lines_app, words_no_newline.
Qed.

Lemma repl_loop_calls qs : Forall typable qs -> forall elapsed cc s,
  (fun '(_, cc, s) => (cc, s)) <$> repl_loop addr bad elapsed (line_of <$> qs) cc s = run_methods qs cc s.
Proof.
  induction 1 as [|q qs [Ht Hw] _ IH]; intros elapsed cc s; [done|]. rewrite fmap_cons. cbn [repl_loop run_methods].
  destruct (typed_line (q_method q) (q_words q) Ht Hw) as [show Hs]. fold (line_of q) in Hs. rewrite Hs.
  cbn [mbind outcome_bind perform_action]. destruct (run_method (q_method q) cc s) as [[[r cc1] s1]| |]; [|done..].
  cbn [mbind outcome_bind mret outcome_ret]. rewrite <-(IH (fun i => elapsed (S i)) cc1 s1).
  by destruct (repl_loop _ _ _ _ _ _) as [[[out cc2] s2]| |].
Qed.

(** C32 (roundtrip): a session at the prompt is the sequence of the calls that were typed.  Take any methods of the
    client with arguments that can be typed as words (keys, fields and values without white space, numbers in decimal,
    times in seconds).  The session whose input is one line for each leaves the client and the servers as
    calling the methods in this order does, on a single server or a cluster; lines are read, split and matched against
    the commands so that no call is lost, added or changed. *)
Theorem repl_session_calls version elapsed qs cc s : Forall typable qs ->
  (fun '(_, cc, s) => (cc, s)) <$> replCmd version addr bad elapsed (stdin_of qs) cc s = run_methods qs cc s.
Proof.
  intros Hqs. unfold replCmd. rewrite read_lines_stdin by done. rewrite <-(repl_loop_calls qs Hqs elapsed).
  by destruct (repl_loop _ _ _ _ _ _) as [[[out cc2] s2]| |].
Qed.

(** A line that does not call a method. *)
Definition harmless (act : action) : bool := match act with Ask _ _ => false | _ => true end.

(** No input makes the prompt panic.  Every line, of any bytes, is understood: it prints something,
    ends the session, or calls a method; and a line whose first word is no command, or which has no
    words, calls none. *)
Theorem repl_reads_anything line :
  (exists act, interpret addr bad line ⇓ act) /\
  (match Fields line with [] => True | cmd :: _ => case_of cmd (commands addr bad) = None end ->
   exists act, interpret addr bad line ⇓ act /\ harmless act = true).
Proof.
  split; [apply interpret_returns|]. unfold interpret. rewrite Fields_TrimSpace. destruct (Fields line) as [|cmd args].
  - intros _. by eexists.
  - intros ->. by eexists.
Qed.

End ReplSpec.

(** ** A session on a cluster of three maps *)

#[local] Existing Instance pattern_bits.
#[local] Existing Instance map_clients.
#[local] Existing Instance trie_order.
#[local] Instance no_floats : FloatOps pattern :=
  {| fadd := fun x _ => x; ParseFloat := fun _ => Err ErrKeyEmpty; FormatFloat := fun _ => EmptyString |}.

Definition no_number : string -> pattern := fun _ => fzero.

Definition demo_session : list (request (float64 := pattern)) :=
  [mkRequest _ (KvM (Cli.MSet "x" (Some (bytes_of "a")) 5000000000)) ["set"; "x"; "a"; "5s"];
   mkRequest _ (KvM (Cli.MGet "x")) ["get"; "x"];
   mkRequest _ (ListM (MLRange "l" 0 (-1))) ["lrange"; "l"; "0"; "-1"];
   mkRequest _ (KvM Cli.MLen) ["len"]].

Lemma repl_session_calls_witness :
  (fun '(_, cc, s) => (cc, s)) <$>
    replCmd (St := node_maps) (M := list Node) "1.0" "127.0.0.1:11211" no_number (fun _ => 0) (stdin_of demo_session)
      (mkCmdClient 0 (Some demo_up)) ∅
  = run_methods demo_session (mkCmdClient 0 (Some demo_up)) ∅ /\
  read_lines (stdin_of demo_session) = (fun l => l +:+ String newline EmptyString) <$> ["set x a 5s"; "get x"; "lrange l 0 -1"; "len"].
Proof.
  split; [|by vm_compute]. apply repl_session_calls.
  repeat (apply Forall_cons; split); try (apply Forall_nil; exact I); (split; [vm_compute; reflexivity|]);
    repeat (apply Forall_cons; split; [vm_compute; reflexivity|]); apply Forall_nil; exact I.
Defined.

Lemma repl_reads_anything_witness :
  exists act, interpret (float64 := pattern) "127.0.0.1:11211" no_number "  frobnicate x" ⇓ act /\ harmless act = true.
Proof. apply (repl_reads_anything "127.0.0.1:11211" no_number "  frobnicate x"). reflexivity. Defined.

(** A number that cannot be read is 0, without a message: the element at index 0 is overwritten. *)
Example bad_number_is_zero :
  exists show, interpret (float64 := pattern) "a" no_number "lset l last v" ⇓ Ask (ListM (MLSet "l" 0 "v")) show.
Proof. by eexists. Qed.
