(* ===== verification/Commands.v ===== *)
(** * The commands of the command line (cli/*.go)

    A command checks the number of its arguments, calls a method of the client and prints the
    result, or exits with a message.  The parsing of flags and the dispatch to a command belong to a third-party
    package; its checks of the number of arguments are modelled as it documents them.
    What is printed is kept as the calls of [fmt], and the log of requests is left out. *)

From Stdlib Require Import Strings.String Strings.Ascii Floats.SpecFloat.
From stdpp Require Import base tactics numbers list gmap sets fin_maps strings.
From S2P Require Import Prelude.
From S2P Require Import DHash.
From S2P Require Import Text.
From S2P Require Import Float64.
From S2P Require Import Bytes.
From S2P Require Import Wire.
From S2P Require Import WireExt.
From S2P Require Import RaftCmd.
From S2P Require Import Client.
From S2P Require Import Cluster.
From S2P Require Import Cli.
From S2P Require Import Repl.
Import Strconv.

#[local] Open Scope string_scope.
#[local] Open Scope list_scope.
#[local] Open Scope Z_scope.

(** The number of arguments a command takes. *)
Inductive positional : Type := NoArgs | ExactArgs (n : nat) | MinimumNArgs (n : nat) | RangeArgs (lo hi : nat).

Definition accepts (p : positional) (n : nat) : bool :=
  match p with
  | NoArgs => (n =? 0)%nat
  | ExactArgs k => (n =? k)%nat
  | MinimumNArgs k => (k <=? n)%nat
  | RangeArgs lo hi => (lo <=? n)%nat && (n <=? hi)%nat
  end.

Section Commands.
Context `{MI : MapIter} `{FB : FloatBits float64} `{FO : FloatOps float64}.
Notation method := (method float64).
Notation printed := (printed float64).

(** [CExit]: a message on the standard error stream and exit code 1.  [on_connect] and [on_call] go before the
    errors of connecting and of the call. *)
Inductive cmd_action : Type :=
| CExit (out : printed)
| CRun {A : Type} (m : method A) (on_connect on_call : string) (show : Z -> A -> list printed).

Record command : Type := mkCommand { c_name : string; c_args : positional; c_run : list string -> outcome cmd_action }.

(** [exitError]. *)
Definition exitError (format : string) (args : list (arg float64)) : cmd_action := CExit (Printf ("Error: " +:+ format +:+ "\n") args).

Definition runs {A} (m : method A) (show : A -> list printed) : outcome cmd_action := Ret (CRun m "" "" (fun _ => show)).

Definition println (s : string) : list printed := [Println [AStr s]].
Definition println_int (n : Z) : list printed := [Println [AInt n]].
Definition println_flag (b : bool) : list printed := println (if b then "1" else "0").
Definition println_all (l : list string) : list printed := (fun s => Println [AStr s]) <$> l.
Definition println_ok {A} (_ : A) : list printed := println "OK".

(** ** Strings (cli/cache.go, cli/ping.go, cli/stats.go) *)

Definition getCmd : command := mkCommand "get" (ExactArgs 1) (fun args =>
  key ← part args 0; runs (KvM (MGet key)) (fun v => println (string_of (val v)))).
Definition setCmd (setTTL : Z) : command := mkCommand "set" (MinimumNArgs 2) (fun args =>
  key ← part args 0; value ← part args 1;
  let value := if (2 <? length args)%nat then Join (drop 1 args) " " else value in
  runs (KvM (MSet key (Some (bytes_of value)) setTTL)) println_ok).
Definition delCmd : command := mkCommand "del" (ExactArgs 1) (fun args =>
  key ← part args 0; runs (KvM (MDel key)) println_ok).
Definition lenCmd : command := mkCommand "len" NoArgs (fun args => runs (KvM MLen) println_int).
Definition cleanupCmd : command := mkCommand "cleanup" NoArgs (fun args =>
  runs (KvM MCleanup) (fun n => [Printf "removed %d expired entries\n" [AInt n]])).
(** The errors of this command say what failed. *)
Definition pingCmd : command := mkCommand "ping" NoArgs (fun args =>
  Ret (CRun (KvM MLen) "connect: " "ping: " (fun elapsed _ => [Printf "PONG (%.3fms)\n" [ANum (int (elapsed ÷ 1000) / int 1000)%f64]]))).
Definition statsCmd (addr : string) : command := mkCommand "stats" NoArgs (fun args =>
  runs (KvM MLen) (fun n => [Printf "entries: %d\n" [AInt n]; Printf "server:  %s\n" [AStr addr]])).

(** ** Keys (cli/key.go) *)

Definition existsCmd : command := mkCommand "exists" (ExactArgs 1) (fun args =>
  key ← part args 0; runs (KeyM (MExists key)) println_flag).
Definition typeCmd : command := mkCommand "type" (ExactArgs 1) (fun args =>
  key ← part args 0; runs (KeyM (MType key)) println).
Definition expireCmd : command := mkCommand "expire" (ExactArgs 2) (fun args =>
  seconds ← part args 1; key ← part args 0; runs (KeyM (MExpire key (int_of seconds))) println_flag).
Definition pexpireCmd : command := mkCommand "pexpire" (ExactArgs 2) (fun args =>
  ms ← part args 1; key ← part args 0; runs (KeyM (MPExpire key (int_of ms))) println_flag).
Definition ttlCmd : command := mkCommand "ttl" (ExactArgs 1) (fun args =>
  key ← part args 0; runs (KeyM (MTTL key)) println_int).
Definition pttlCmd : command := mkCommand "pttl" (ExactArgs 1) (fun args =>
  key ← part args 0; runs (KeyM (MPTTL key)) println_int).
Definition persistCmd : command := mkCommand "persist" (ExactArgs 1) (fun args =>
  key ← part args 0; runs (KeyM (MPersist key)) println_flag).
Definition keysCmd : command := mkCommand "keys" (ExactArgs 1) (fun args =>
  pattern ← part args 0; runs (KeyM (MKeys pattern)) println_all).

(** ** Sets (cli/set.go) *)

Definition sAddCmd : command := mkCommand "sadd" (MinimumNArgs 2) (fun args =>
  key ← part args 0; runs (SetM (MSAdd key (drop 1 args))) (fun n => [Printf "%d\n" [AInt n]])).
Definition sRemCmd : command := mkCommand "srem" (MinimumNArgs 2) (fun args =>
  key ← part args 0; runs (SetM (MSRem key (drop 1 args))) (fun n => [Printf "%d\n" [AInt n]])).
Definition sIsMemberCmd : command := mkCommand "sismember" (MinimumNArgs 2) (fun args =>
  key ← part args 0; runs (SetM (MSIsMember key (Join (drop 1 args) " "))) println_flag).
Definition sMembersCmd : command := mkCommand "smembers" (ExactArgs 1) (fun args =>
  key ← part args 0; runs (SetM (MSMembers key)) println_all).
Definition sCardCmd : command := mkCommand "scard" (ExactArgs 1) (fun args =>
  key ← part args 0; runs (SetM (MSCard key)) println_int).
Definition sPopCmd : command := mkCommand "spop" (ExactArgs 1) (fun args =>
  key ← part args 0; runs (SetM (MSPop key)) println).
Definition sRandMemberCmd : command := mkCommand "srandmember" (RangeArgs 1 2) (fun args =>
  key ← part args 0;
  count ← (if (1 <? length args)%nat then c ← part args 1; mret (scan_int c 1) else Ret 1);
  runs (SetM (MSRandMember key count)) println_all).
Definition sUnionCmd : command := mkCommand "sunion" (MinimumNArgs 1) (fun args => runs (SetM (MSUnion args)) println_all).
Definition sInterCmd : command := mkCommand "sinter" (MinimumNArgs 1) (fun args => runs (SetM (MSInter args)) println_all).
Definition sDiffCmd : command := mkCommand "sdiff" (MinimumNArgs 1) (fun args => runs (SetM (MSDiff args)) println_all).

(** ** Hashes (cli/hash.go) *)

Definition hSetCmd : command := mkCommand "hset" (ExactArgs 3) (fun args =>
  key ← part args 0; field ← part args 1; value ← part args 2; runs (HashM (MHSet key field value)) println_int).
Definition hGetCmd : command := mkCommand "hget" (ExactArgs 2) (fun args =>
  key ← part args 0; field ← part args 1; runs (HashM (MHGet key field)) println).
Definition hDelCmd : command := mkCommand "hdel" (MinimumNArgs 2) (fun args =>
  key ← part args 0; runs (HashM (MHDel key (drop 1 args))) println_int).
Definition hExistsCmd : command := mkCommand "hexists" (ExactArgs 2) (fun args =>
  key ← part args 0; field ← part args 1; runs (HashM (MHExists key field)) println_flag).
Definition hGetAllCmd : command := mkCommand "hgetall" (ExactArgs 1) (fun args =>
  key ← part args 0;
  runs (HashM (MHGetAll key)) (fun all => (fun '(k, v) => Printf "%s: %s\n" [AStr k; AStr v]) <$> map_iter (default ∅ all))).
Definition hKeysCmd : command := mkCommand "hkeys" (ExactArgs 1) (fun args =>
  key ← part args 0; runs (HashM (MHKeys key)) println_all).
Definition hValsCmd : command := mkCommand "hvals" (ExactArgs 1) (fun args =>
  key ← part args 0; runs (HashM (MHVals key)) println_all).
Definition hLenCmd : command := mkCommand "hlen" (ExactArgs 1) (fun args =>
  key ← part args 0; runs (HashM (MHLen key)) println_int).
Definition hStrLenCmd : command := mkCommand "hstrlen" (ExactArgs 2) (fun args =>
  key ← part args 0; field ← part args 1; runs (HashM (MHStrLen key field)) println_int).
Definition hIncrByCmd : command := mkCommand "hincrby" (ExactArgs 3) (fun args =>
  delta ← part args 2;
  match ParseInt delta with
  | Err e => Ret (exitError "invalid delta: %v" [AErr e])
  | Ok delta => key ← part args 0; field ← part args 1; runs (HashM (MHIncrBy key field delta)) println_int
  end).
Definition hIncrByFloatCmd : command := mkCommand "hincrbyfloat" (ExactArgs 3) (fun args =>
  delta ← part args 2;
  match ParseFloat delta with
  | Err e => Ret (exitError "invalid delta: %v" [AErr e])
  | Ok delta =>
      key ← part args 0; field ← part args 1;
      runs (HashM (MHIncrByFloat key field delta)) (fun n => [Println [AFloat n]])
  end).
Definition hmGetCmd : command := mkCommand "hmget" (MinimumNArgs 2) (fun args =>
  key ← part args 0;
  runs (HashM (MHMGet key (drop 1 args))) (fun vals => (fun v => Println [AStr (default "(nil)" v)]) <$> vals)).
Definition hmSetCmd : command := mkCommand "hmset" (MinimumNArgs 3) (fun args =>
  key ← part args 0; runs (HashM (MHMSet key (drop 1 args))) println_ok).
Definition hSetNXCmd : command := mkCommand "hsetnx" (ExactArgs 3) (fun args =>
  key ← part args 0; field ← part args 1; value ← part args 2; runs (HashM (MHSetNX key field value)) println_flag).

(** ** Lists (cli/list.go) *)

Definition lPushCmd : command := mkCommand "lpush" (MinimumNArgs 2) (fun args =>
  key ← part args 0; runs (ListM (MLPush key (drop 1 args))) println_int).
Definition rPushCmd : command := mkCommand "rpush" (MinimumNArgs 2) (fun args =>
  key ← part args 0; runs (ListM (MRPush key (drop 1 args))) println_int).
Definition lPopCmd : command := mkCommand "lpop" (ExactArgs 1) (fun args => key ← part args 0; runs (ListM (MLPop key)) println).
Definition rPopCmd : command := mkCommand "rpop" (ExactArgs 1) (fun args => key ← part args 0; runs (ListM (MRPop key)) println).
Definition lLenCmd : command := mkCommand "llen" (ExactArgs 1) (fun args => key ← part args 0; runs (ListM (MLLen key)) println_int).
Definition lRangeCmd : command := mkCommand "lrange" (ExactArgs 3) (fun args =>
  start ← part args 1; stop ← part args 2; key ← part args 0;
  runs (ListM (MLRange key (int_of start) (int_of stop))) println_all).
Definition lIndexCmd : command := mkCommand "lindex" (ExactArgs 2) (fun args =>
  index ← part args 1; key ← part args 0; runs (ListM (MLIndex key (int_of index))) println).
Definition lSetCmd : command := mkCommand "lset" (ExactArgs 3) (fun args =>
  index ← part args 1; key ← part args 0; value ← part args 2; runs (ListM (MLSet key (int_of index) value)) println_ok).
Definition lRemCmd : command := mkCommand "lrem" (ExactArgs 3) (fun args =>
  count ← part args 1; key ← part args 0; value ← part args 2; runs (ListM (MLRem key (int_of count) value)) println_int).
Definition lTrimCmd : command := mkCommand "ltrim" (ExactArgs 3) (fun args =>
  start ← part args 1; stop ← part args 2; key ← part args 0;
  runs (ListM (MLTrim key (int_of start) (int_of stop))) println_ok).
Definition lInsertCmd : command := mkCommand "linsert" (ExactArgs 4) (fun args =>
  pos ← part args 1;
  let go before := key ← part args 0; pivot ← part args 2; value ← part args 3; runs (ListM (MLInsert key before pivot value)) println_int in
  if bool_decide (pos = "before") || bool_decide (pos = "BEFORE") then go true
  else if bool_decide (pos = "after") || bool_decide (pos = "AFTER") then go false
  else Ret (exitError "expected 'before' or 'after', got %q" [AStr pos])).
Definition bLPopCmd : command := mkCommand "blpop" (ExactArgs 2) (fun args =>
  timeout ← part args 1; key ← part args 0; runs (ListM (MBLPop key (int64 (int_of timeout * 1000000000)))) println).
Definition bRPopCmd : command := mkCommand "brpop" (ExactArgs 2) (fun args =>
  timeout ← part args 1; key ← part args 0; runs (ListM (MBRPop key (int64 (int_of timeout * 1000000000)))) println).
Definition lPosCmd : command := mkCommand "lpos" (MinimumNArgs 2) (fun args =>
  rank ← part_or args 2 1; count ← part_or args 3 1; maxLen ← part_or args 4 0;
  key ← part args 0; value ← part args 1;
  runs (ListM (MLPos key value rank count maxLen)) (fun l => (fun p => Println [AInt p]) <$> l)).

(** The commands that call the cache, by the files they are in. *)
Definition rootCmd (setTTL : Z) (addr : string) : list command :=
  [getCmd; setCmd setTTL; delCmd; lenCmd; cleanupCmd; pingCmd; statsCmd addr] ++
  [existsCmd; typeCmd; expireCmd; pexpireCmd; ttlCmd; pttlCmd; persistCmd; keysCmd] ++
  [sAddCmd; sRemCmd; sIsMemberCmd; sMembersCmd; sCardCmd; sPopCmd; sRandMemberCmd; sUnionCmd; sInterCmd; sDiffCmd] ++
  [hSetCmd; hGetCmd; hDelCmd; hExistsCmd; hGetAllCmd; hKeysCmd; hValsCmd; hLenCmd; hStrLenCmd; hIncrByCmd; hIncrByFloatCmd;
   hmGetCmd; hmSetCmd; hSetNXCmd] ++
  [lPushCmd; rPushCmd; lPopCmd; rPopCmd; lLenCmd; lRangeCmd; lIndexCmd; lSetCmd; lRemCmd; lTrimCmd; lInsertCmd; bLPopCmd; bRPopCmd; lPosCmd].

(** ** Running a command *)

(** How the process ends: well, with a message and code 1, or refused for the number of its arguments. *)
Inductive ending : Type := Success | Failure (message : cmd_action) | BadUsage.

Context `{CL : !Clients (float64 := float64) St} `{MO : !Mode (St := St) M}.

(** [connect]: the client or the error of [newCmdClient]; what is printed, the end, and the servers. *)
Definition execute (c : command) (args : list string) (connect : result error (cmdClient M)) (elapsed : Z) (s : St) :
    outcome (list printed * ending * St) :=
  if negb (accepts (c_args c) (length args)) then Ret ([], BadUsage, s)
  else
    act ← c_run c args;
    match act with
    | CExit _ => mret ([], Failure act, s)
    | CRun m on_connect on_call show =>
        match connect with
        | Err e => mret ([], Failure (exitError (on_connect +:+ "%v") [AErr e]), s)
        | Ok cc =>
            '(r, _, s) ← run_method m cc s;
            mret (match r with
                  | Err e => ([], Failure (exitError (on_call +:+ "%v") [AErr e]), s)
                  | Ok a => (show elapsed a, Success, s)
                  end)
        end
    end.

End Commands.
Arguments cmd_action : clear implicits.
Arguments command : clear implicits.

(** ** Sizes and bars (cli/monitor.go) *)

(** The loop of [humanBytes], with [exp] passes so far: each divides by 1024, so seven are enough for 64 bits. *)
Fixpoint human_loop (fuel : nat) (n div exp : Z) : outcome (Z * Z) :=
  match fuel with
  | O => NoFuel
  | S fuel => if n >=? 1024 then human_loop fuel (n / 1024) (wrapU 64 (div * 1024)) (exp + 1) else Ret (div, exp)
  end.

(** The number that is printed, with two decimals, and its unit. *)
Inductive human : Type := Plain (b : Z) | Scaled (x : float) (unit : ascii).

Definition humanBytes (b : Z) : outcome human :=
  if b <? 1024 then Ret (Plain b)
  else
    '(div, exp) ← human_loop 7 (b / 1024) 1024 0;
    unit ← deref (String.get (Z.to_nat exp) "KMGTPE");
    mret (Scaled (int b / int div)%f64 unit).

(** [strings.Repeat(s, n)] panics for a negative count. *)
Definition Repeat (c : ascii) (n : Z) : outcome string :=
  if n <? 0 then Panic else Ret (string_of_list_ascii (replicate (Z.to_nat n) c)).

Definition renderBar (percent : float) (width : Z) : outcome string :=
  let percent := if (percent < F64.zero)%f64 then F64.zero else percent in
  let percent := if (percent > int 100)%f64 then int 100 else percent in
  let filled := F64.to_int (percent / int 100 * int width)%f64 in
  let filled := if filled >? width then width else filled in
  let empty := int64 (width - filled) in
  full ← Repeat "=" filled;
  rest ← Repeat "-" empty;
  mret ("[" +:+ full +:+ rest +:+ "]").
