(* ===== verification/CommandsSpec.v ===== *)
(** * The command line: agreement with the prompt, configuration and displays *)

From Stdlib Require Import ZArith Lia Strings.String Strings.Ascii Floats.SpecFloat.
From stdpp Require Import base tactics numbers list gmap sets fin_maps strings.
From S2P Require Import Prelude.
From S2P Require Import DHash.
From S2P Require Import Text.
From S2P Require Import Float64.
From S2P Require Import Bytes.
From S2P Require Import Wire.
From S2P Require Import WireExt.
From S2P Require Import WireExtSpec.
From S2P Require Import RaftCmd.
From S2P Require Import Client.
From S2P Require Import Cluster.
From S2P Require Import Cli.
From S2P Require Import Repl.
From S2P Require Import ReplSpec.
From S2P Require Import Commands.
Import Strconv.

#[local] Open Scope string_scope.
#[local] Open Scope list_scope.
#[local] Open Scope Z_scope.

(** ** A command and a line *)

Section Agreement.
Context `{MI : MapIter} `{FB : FloatBits float64} `{FO : FloatOps float64}.
Variables (setTTL : Z) (addr : string) (bad : string -> float64).

(** Words that can be typed: none is empty, none has a blank. *)
Notation words ws := (Forall (fun w => word w = true) ws).

(** The handler of the prompt, given these words, calls the method [act] calls. *)
Definition handler_does (name : string) (args : list string) (act : cmd_action float64) : Prop :=
  match act with
  | CExit _ => True
  | CRun m _ _ _ => exists h show, case_of name (commands addr bad) = Some h /\ h (name :: args) ⇓ Ask m show
  end.

(** The line that consists of these words, with a blank between two of them, calls the method [act] calls. *)
Definition prompt_does (name : string) (args : list string) (act : cmd_action float64) : Prop :=
  match act with
  | CExit _ => True
  | CRun m _ _ _ => exists show, interpret addr bad (Join (name :: args) " " +:+ String newline EmptyString) ⇓ Ask m show
  end.

Lemma handler_prompt name args act : words (name :: args) -> handler_does name args act -> prompt_does name args act.
Proof.
  intros Hw. destruct act as [|m ? ? ?]; [done|]. intros (h & sh & Hc & Hh). exists sh.
  by rewrite (interpret_words addr bad name args h Hw Hc).
Qed.

(** The commands whose words the prompt reads differently: it takes a last duration of [set] for the time to live, and
    the words after a key of [sadd] and [srem] for one element. *)
Definition read_differently (name : string) : bool := String.eqb name "set" || String.eqb name "sadd" || String.eqb name "srem".

Definition agrees (c : command float64) : Prop := forall args,
  accepts (c_args c) (length args) = true -> read_differently (c_name c) = false ->
  exists act, c_run c args ⇓ act /\ handler_does (c_name c) args act.

Ltac by_words :=
  let args := fresh "args" in
  intros args; destruct args as [|? [|? [|? [|? [|? args]]]]]; cbn [length accepts c_args]; intros Ha Hn; try done;
  eexists; (split; [reflexivity|]); cbn [handler_does]; eexists _, _; (split; [reflexivity|]); reflexivity.

Lemma int_of_ok s n : ParseInt s = Ok n -> int_of s = n.
Proof. unfold int_of. by intros ->. Qed.

Lemma hIncrBy_agrees : agrees hIncrByCmd.
Proof.
  intros [|key [|field [|delta [|? ?]]]] Ha Hn; try done. cbn [c_run hIncrByCmd part lookup list_lookup deref mbind outcome_bind].
  destruct (ParseInt delta) as [n|e] eqn:Hp; [|by eexists]. eexists. split; [reflexivity|]. eexists _, _. split; [reflexivity|].
  rewrite <-(int_of_ok _ _ Hp). reflexivity.
Qed.

Lemma hIncrByFloat_agrees : agrees hIncrByFloatCmd.
Proof.
  intros [|key [|field [|delta [|? ?]]]] Ha Hn; try done. cbn [c_run hIncrByFloatCmd part lookup list_lookup deref mbind outcome_bind].
  destruct (ParseFloat delta) as [f|e] eqn:Hp; [|by eexists]. eexists. split; [reflexivity|]. eexists _, _. split; [reflexivity|].
  assert (float_of bad delta = f) as <- by (unfold float_of; by rewrite Hp). reflexivity.
Qed.

Lemma lInsert_agrees : agrees lInsertCmd.
Proof.
  intros [|key [|pos [|pivot [|value [|? ?]]]]] Ha Hn; try done. cbn [c_run lInsertCmd part lookup list_lookup deref mbind outcome_bind].
  destruct (bool_decide (pos = "before") || bool_decide (pos = "BEFORE")) eqn:Hb;
    [|destruct (bool_decide (pos = "after") || bool_decide (pos = "AFTER")); [|by eexists]].
  all: eexists; (split; [reflexivity|]); eexists _, _; (split; [reflexivity|]); rewrite <-Hb; reflexivity.
Qed.

Lemma commands_agree : Forall agrees (rootCmd setTTL addr).
Proof.
  unfold rootCmd. rewrite !Forall_app. split_and!;
  repeat first [apply Forall_nil; exact I|apply Forall_cons; split; [first [apply hIncrBy_agrees|apply hIncrByFloat_agrees|apply lInsert_agrees|by_words]|]].
Qed.

Lemma command_names : Forall (fun c : command float64 => word (c_name c) = true) (rootCmd setTTL addr).
Proof. unfold rootCmd. rewrite !Forall_app. split_and!; repeat (constructor; [reflexivity|]); constructor. Qed.

(** C33 (equivalence): the command line and the prompt do the same.  For every command of the command line that calls the
    cache, other than set, sadd and srem, and every list of arguments it accepts that can be typed at the prompt (none is
    empty and none has a blank: the prompt splits the line at blanks and has no quotes): running it does not panic, and
    unless it exits with a message about an argument, interpreting the line that consists of the name and the arguments calls
    the same method with the same arguments. *)
Theorem command_is_line c args : c ∈ rootCmd setTTL addr -> accepts (c_args c) (length args) = true ->
  read_differently (c_name c) = false -> words args ->
  exists act, c_run c args ⇓ act /\ prompt_does (c_name c) args act.
Proof.
  intros Hc Ha Hn Hw. destruct (proj1 (Forall_forall _ _) commands_agree c Hc args Ha Hn) as (act & Hrun & Hh).
  exists act. split; [done|]. apply handler_prompt; [|done]. apply Forall_cons. split; [|done].
  by apply (proj1 (Forall_forall _ _) command_names).
Qed.

End Agreement.

#[local] Existing Instance pattern_bits.
#[local] Existing Instance trie_order.
#[local] Instance no_floats : FloatOps pattern :=
  {| fadd := fun x _ => x; ParseFloat := fun _ => Err ErrKeyEmpty; FormatFloat := fun _ => EmptyString |}.

Lemma command_is_line_witness :
  exists act, c_run (float64 := pattern) lRangeCmd ["l"; "0"; "-1"] ⇓ act /\
    prompt_does "127.0.0.1:11211" (fun _ => fzero) "lrange" ["l"; "0"; "-1"] act.
Proof.
  apply (command_is_line 0 "127.0.0.1:11211" (fun _ => fzero) lRangeCmd ["l"; "0"; "-1"]); [|reflexivity|reflexivity|].
  2:{ repeat constructor. }
  unfold rootCmd. rewrite !elem_of_app. right. right. right. right. do 5 apply list_elem_of_further. apply list_elem_of_here.
Defined.

(** A time to live that is not a whole number is 0: the key expires at once, without a message. *)
Example bad_expiry_is_now :
  exists on_connect on_call show, c_run (float64 := pattern) expireCmd ["k"; "5m"] ⇓ CRun (KeyM (MExpire "k" 0)) on_connect on_call show.
Proof. by eexists _, _, _. Qed.

(** ** The configuration of a cluster *)

Definition no_options : Cluster.Options := Cluster.mkOptions "" [] [] "" [] 0 0 0.

(** The example of the help text: a mode and two nodes. *)
Definition help_example : clusterFileConfig :=
  mkFileCfg "shard" [mkNodeCfg "127.0.0.1:11212" 1 false; mkNodeCfg "127.0.0.1:11213" 1 false] [] "" [] "" "" "".

(** A file without durations leaves the interval of the health checks at 0, where a cluster's default is five seconds. *)
Example missing_interval_is_zero :
  HealthCheckInterval (apply_cluster_config help_example no_options) = 0 /\ HealthCheckInterval defaultOptions = 5000000000.
Proof. by vm_compute. Qed.

(** A process that makes a second client, as the monitor command does when it watches, loads the file again and has every node
    twice. *)
Lemma config_loaded_twice cfg o :
  let nodes := (fun n => mkConfig (y_Addr n) (y_Weight n) (y_IsMaster n)) <$> y_Nodes cfg in
  o_Nodes (apply_cluster_config cfg (apply_cluster_config cfg o)) = o_Nodes o ++ nodes ++ nodes.
Proof. cbn. by rewrite <-app_assoc. Qed.

(** ** Displays *)

(** The loop of [humanBytes] stops at the largest power of 1024 that is not above the number. *)
Lemma human_loop_spec b fuel : forall k, 0 <= k -> 7 <= k + Z.of_nat fuel -> 1024 ^ (k + 1) <= b < 2 ^ 64 ->
  exists j, 0 <= j < 6 /\ human_loop fuel (b / 1024 ^ (k + 1)) (1024 ^ (k + 1)) k ⇓ (1024 ^ (j + 1), j) /\
    1024 ^ (j + 1) <= b < 1024 ^ (j + 2).
Proof.
  induction fuel as [|fuel IH]; intros k Hk Hf Hb.
  - assert (1024 ^ 7 <= 1024 ^ (k + 1)) by (apply Z.pow_le_mono_r; lia). lia.
  - cbn [human_loop]. assert (0 < 1024 ^ (k + 1)) as Hp by (apply Z.pow_pos_nonneg; lia).
    assert (1024 ^ (k + 2) = 1024 * 1024 ^ (k + 1)) as H2 by (rewrite <-Z.pow_succ_r by lia; f_equal; lia).
    destruct (Z.geb_spec (b / 1024 ^ (k + 1)) 1024) as [Hge|Hlt].
    + assert (1024 ^ (k + 2) <= b) as Hle.
      { pose proof (Z.mul_div_le b (1024 ^ (k + 1)) Hp). nia. }
      rewrite Z.div_div by lia. rewrite wrapU_small by lia.
      replace (1024 ^ (k + 1) * 1024) with (1024 ^ (k + 1 + 1)) by (rewrite (Z.pow_add_r 1024 (k + 1) 1) by lia; lia).
      apply IH; [lia|lia|]. replace (k + 1 + 1) with (k + 2) by lia. lia.
    + exists k. split; [|split; [done|]].
      * split; [done|]. destruct (decide (k < 6)); [done|]. assert (1024 ^ 7 <= 1024 ^ (k + 1)) by (apply Z.pow_le_mono_r; lia). lia.
      * split; [lia|]. pose proof (Z.mod_pos_bound b (1024 ^ (k + 1)) Hp). pose proof (Z.div_mod b (1024 ^ (k + 1)) ltac:(lia)). nia.
Qed.

(** Every 64-bit size is displayed, in the unit that makes the number at least 1 and below 1024. *)
Lemma human_bytes_unit b : 1024 <= b < 2 ^ 64 -> exists j unit, 0 <= j < 6 /\ String.get (Z.to_nat j) "KMGTPE" = Some unit /\
  humanBytes b ⇓ Scaled (int b / int (1024 ^ (j + 1)))%f64 unit /\ 1024 ^ (j + 1) <= b < 1024 ^ (j + 2).
Proof.
  intros Hb. unfold humanBytes. destruct (Z.ltb_spec b 1024); [lia|].
  destruct (human_loop_spec b 7 0 ltac:(lia) ltac:(lia) ltac:(lia)) as (j & Hj & Hl & Hr). change (1024 ^ (0 + 1)) with 1024 in Hl.
  rewrite Hl. cbn [mbind outcome_bind].
  assert (exists unit, String.get (Z.to_nat j) "KMGTPE" = Some unit) as [unit Hu].
  { assert (Z.to_nat j < 6)%nat as Hn by lia. clear -Hn.
    destruct (Z.to_nat j) as [|[|[|[|[|[|n]]]]]]; [by eexists..|lia]. }
  rewrite Hu. by exists j, unit.
Qed.

(** Clamping to [0, 100]. *)
Definition clamp_percent (p : float) : float :=
  let p := if (p < F64.zero)%f64 then F64.zero else p in if (p > int 100)%f64 then int 100 else p.

Lemma clamp_percent_within p : F64.valid p -> F64.is_nan p = false ->
  F64.valid (clamp_percent p) /\ within F64.zero (int 100) (clamp_percent p).
Proof.
  intros Hv Hn. unfold clamp_percent. cbv zeta. set (q := if (p < F64.zero)%f64 then F64.zero else p).
  assert (F64.valid q /\ F64.leb F64.zero q = true) as [Hq H0].
  { unfold q. destruct (p < F64.zero)%f64 eqn:Hlt; [done|]. split; [done|]. by apply not_less_nonneg. }
  destruct (q > int 100)%f64 eqn:Hgt; [by split; [apply of_Z_valid|]|]. split; [done|]. split; [done|].
  assert (int 100 = S754_finite false 7036874417766400 (-46)) as Hc by reflexivity. pose proof (of_Z_valid 100) as Hvc.
  rewrite Hc in *. by apply not_above.
Qed.

Lemma Repeat_length c n : 0 <= n -> exists s, Repeat c n ⇓ s /\ Z.of_nat (String.length s) = n.
Proof.
  intros Hn. unfold Repeat. destruct (Z.ltb_spec n 0); [lia|]. eexists. split; [done|].
  assert (forall k, String.length (string_of_list_ascii (replicate k c)) = k) as Hk by (induction k; cbn; congruence).
  rewrite Hk. lia.
Qed.

Lemma length_append a b : String.length (a +:+ b) = (String.length a + String.length b)%nat.
Proof. induction a as [|c a IH]; [done|]. change (S (String.length (a +:+ b)) = S (String.length a) + String.length b)%nat. lia. Qed.

(** A bar is as wide as it should be, whatever the percentage, if that is a number. *)
Lemma render_bar_width percent width : F64.valid percent -> F64.is_nan percent = false -> 0 < width < 2 ^ 53 ->
  exists s, renderBar percent width ⇓ s /\ Z.of_nat (String.length s) = width + 2.
Proof.
  intros Hv Hn Hw. unfold renderBar. fold (clamp_percent percent). destruct (clamp_percent_within percent Hv Hn) as [Hvc Hc].
  assert (int 100 = S754_finite false 7036874417766400 (-46)) as H100 by reflexivity. pose proof (of_Z_valid 100) as Hv100.
  destruct (of_Z_exact width Hw) as (mw & ew & Hew & _). pose proof (of_Z_valid width) as Hvw.
  assert (within F64.zero (int width) (clamp_percent percent / int 100 * int width)%f64) as Hf.
  { rewrite H100, Hew in *. apply mul_within; [by apply div_valid|done|by apply div_within]. }
  apply to_int_within in Hf; [|apply mul_valid; [by apply div_valid|done]|done].
  set (filled := F64.to_int _) in *. destruct (Z.gtb_spec filled width); [lia|]. rewrite int64_id by (unfold in_int64, min_int64, max_int64; lia).
  destruct (Repeat_length "=" filled ltac:(lia)) as (a & -> & Ha). destruct (Repeat_length "-" (width - filled) ltac:(lia)) as (b & Hb & Hlb).
  cbn [mbind outcome_bind]. rewrite Hb. eexists. split; [reflexivity|].
  rewrite !length_append. cbn [String.length]. lia.
Qed.
