(* ===== verification/Mbr.v ===== *)
(** * The decision engine (mbr/)

    Whether to grow the cache or to go on evicting: a collector turns counters of the
    cache and samples of the system into a window of features, a ring buffer keeps the
    last windows, a scorecard decides, a PID controller measures the distance to a
    memory target, a loop reports changes of the decision, and an executor resizes the
    cache and drives the migration.  Floating-point numbers are those of Float64.v, each
    operation rounded by itself (fused operations, which the language allows, are not
    used on amd64); the clock and the samples of the monitor are arguments. *)

From Stdlib Require Import Strings.String Floats.SpecFloat.
From stdpp Require Import base tactics numbers list gmap sets fin_maps strings.
From S2P Require Import Prelude.
From S2P Require Import Policy.
From S2P Require Import Policies.
From S2P Require Import Shard.
From S2P Require Import Rehash.
From S2P Require Import Cache.
From S2P Require Import Float64.
From S2P Require Import Monitor.

Open Scope Z_scope.

(** ** Types (mbr/types.go) *)

Inductive Decision : Type := DecisionEvict | DecisionMigrate.
#[global] Instance Decision_eq_dec : EqDecision Decision.
Proof. solve_decision. Defined.

Inductive MigrationState : Type := MigrationIdle | MigrationRunning | MigrationPaused | MigrationCompleted.
#[global] Instance MigrationState_eq_dec : EqDecision MigrationState.
Proof. solve_decision. Defined.

Inductive PolicyKind : Type := PolicyUnknown | PolicyNoop | PolicyLRU | PolicyLFU.

Record WindowStats : Type := mkStats {
  MemUsageRatio : float;
  MemGrowthRate : float;
  KeysGrowthRate : float;
  HitRate : float;
  EvictionsPerSec : float;
  AvgEvictedIdle : float;
  NewKeysRate : float;
  ReadWriteRatio : float;
  CPUUtil : float;
  DiskIOPressure : float;
  NetUtil : float;
  RehashActive : bool;
  RehashTempMem : float;
  MigrationActive : bool;
  ClientOutputBufferUsage : float;
  ReplBacklogUsage : float;
  AofRewriteBufferSize : float;
  LargeInputBufClients : Z;
  CurrentEvictionPolicy : PolicyKind;
  PIDSetpointDeviation : float;
}.

(** ** The ring buffer (mbr/matrix.go) *)

Record FeatureMatrix : Type := mkMatrix { m_buf : list WindowStats; m_head : Z; m_size : Z; m_capacity : Z }.

Definition NewFeatureMatrix (capacity : Z) : FeatureMatrix :=
  mkMatrix [] 0 0 (if capacity <? 1 then 60 else capacity).

(** [m.buf[i]], with the bounds check of the language. *)
Definition buf_at (m : FeatureMatrix) (i : Z) : outcome WindowStats :=
  if i <? 0 then Panic else deref (m_buf m !! Z.to_nat i).

Definition Push (stats : WindowStats) (m : FeatureMatrix) : outcome FeatureMatrix :=
  if m_size m <? m_capacity m then Ret (mkMatrix (m_buf m ++ [stats]) (m_head m) (m_size m + 1) (m_capacity m))
  else
    _ ← buf_at m (m_head m);
    mret (mkMatrix (<[Z.to_nat (m_head m) := stats]> (m_buf m)) (Z.rem (m_head m + 1) (m_capacity m)) (m_size m) (m_capacity m)).

(** The loop of [GetRecent]: [n] more reads from [start + i]. *)
Fixpoint read_from (m : FeatureMatrix) (start i : Z) (n : nat) : outcome (list WindowStats) :=
  match n with
  | O => Ret []
  | S n =>
      w ← buf_at m (Z.rem (start + i) (m_capacity m));
      l ← read_from m start (i + 1) n;
      mret (w :: l)
  end.

(** A negative length makes [make] panic. *)
Definition GetRecent (n : Z) (m : FeatureMatrix) : outcome (list WindowStats) :=
  if m_size m =? 0 then Ret []
  else
    let n := if n >? m_size m then m_size m else n in
    if n <? 0 then Panic
    else if m_size m <? m_capacity m then Ret (drop (Z.to_nat (m_size m - n)) (m_buf m))
    else read_from m (Z.rem (m_head m - n + m_capacity m) (m_capacity m)) 0 (Z.to_nat n).

Definition MatrixLen (m : FeatureMatrix) : Z := m_size m.

Definition Last (m : FeatureMatrix) : outcome (option WindowStats) :=
  if m_size m =? 0 then Ret None
  else
    w ← buf_at m (if m_size m <? m_capacity m then m_size m - 1
                  else Z.rem (m_head m - 1 + m_capacity m) (m_capacity m));
    mret (Some w).

Definition Capacity (m : FeatureMatrix) : Z := m_capacity m.

(** ** The scorecard (mbr/scorecard.go) *)

Record ScoreWeights : Type := mkWeights {
  w_MemGrowth : float; w_HitRate : float; w_NewKeys : float; w_EvictionPressure : float; w_BufferPenalty : float;
}.

Definition DefaultWeights : ScoreWeights := mkWeights (pc 35) (pc 25) (pc 20) (pc 15) (pc 5).

Definition migrateThreshold : float := pc 55.
Definition consecutiveWindows : Z := 2.
Definition falsePressureFactor : float := pc 60.
Definition migrationSuppressionFactor : float := pc 30.

Definition memGrowthScore (rate : float) : float :=
  (if rate <= F64.zero then F64.zero else if rate >= pc 5 then F64.one else rate / pc 5)%f64.

Definition hitRateScore (rate : float) : float :=
  (if rate >= pc 95 then F64.zero else if rate <= pc 70 then F64.one else (pc 95 - rate) / pc 25)%f64.

Definition newKeysScore (rate : float) : float :=
  (if rate >= pc 50 then F64.one else if rate <= pc 10 then F64.zero else (rate - pc 10) / pc 40)%f64.

Definition evictionPressureScore (eps : float) : float :=
  (if eps >= int 100 then F64.one else if eps <= int 10 then F64.zero else (eps - int 10) / int 90)%f64.

Definition keysGrowthScore (rate : float) : float :=
  (if rate <= F64.zero then F64.zero else if rate >= int 500 then F64.one else rate / int 500)%f64.

(** [if usage > 0.8 { score -= (usage - 0.8) / 0.2 }]. *)
Definition usage_penalty (usage score : float) : float :=
  (if usage > pc 80 then score - (usage - pc 80) / pc 20 else score)%f64.

Definition aof_penalty (size score : float) : float :=
  (let aofMB := size / int (1024 * 1024) in
   if aofMB > int 512 then
     let over := (aofMB - int 512) / int 512 in
     score - (if over > F64.one then F64.one else over)
   else score)%f64.

Definition clients_penalty (n : Z) (score : float) : float :=
  if n >? 0 then
    (let c := int n in score - (if c > int 10 then int 10 else c) / int 10)%f64
  else score.

Definition minus_one : float := SFopp F64.one.

Definition bufferPenalty (stats : WindowStats) : float :=
  let score := F64.zero in
  let score := usage_penalty (ClientOutputBufferUsage stats) score in
  let score := usage_penalty (ReplBacklogUsage stats) score in
  let score := aof_penalty (AofRewriteBufferSize stats) score in
  let score := clients_penalty (LargeInputBufClients stats) score in
  if (score < minus_one)%f64 then minus_one else score.

Definition isFalsePressure (stats : WindowStats) : bool :=
  (ClientOutputBufferUsage stats > pc 80)%f64 || (AofRewriteBufferSize stats > int (512 * 1024 * 1024))%f64 ||
  (LargeInputBufClients stats >? 0).

Definition clamp01 (v : float) : float :=
  (if v < F64.zero then F64.zero else if v > F64.one then F64.one else v)%f64.

(** The weighted sum of the factors, with [bufPen] as the last one. *)
Definition weighted (stats : WindowStats) (weights : ScoreWeights) (bufPen : float) : float :=
  let growthScore := F64.max (memGrowthScore (MemGrowthRate stats)) (keysGrowthScore (KeysGrowthRate stats) * pc 80)%f64 in
  clamp01 (w_MemGrowth weights * growthScore + w_HitRate weights * hitRateScore (HitRate stats) +
           w_NewKeys weights * newKeysScore (NewKeysRate stats) +
           w_EvictionPressure weights * evictionPressureScore (EvictionsPerSec stats) +
           w_BufferPenalty weights * bufPen)%f64.

(** The two dampings. *)
Definition damped (stats : WindowStats) (raw : float) : float :=
  let raw := if isFalsePressure stats then (raw * falsePressureFactor)%f64 else raw in
  if RehashActive stats || MigrationActive stats then (raw * migrationSuppressionFactor)%f64 else raw.

Definition recomputeScore (stats : WindowStats) (weights : ScoreWeights) : float :=
  damped stats (weighted stats weights (if isFalsePressure stats then minus_one else bufferPenalty stats)).

Definition Decide (stats : WindowStats) (matrix : FeatureMatrix) (weights : ScoreWeights) : outcome (Decision * float) :=
  let final := damped stats (weighted stats weights (bufferPenalty stats)) in
  if (final > migrateThreshold)%f64 then
    recent ← GetRecent (consecutiveWindows + 1) matrix;
    if consecutiveWindows + 1 <=? Z.of_nat (length recent) then
      let ok := forallb (fun w => negb (recomputeScore w weights <= migrateThreshold)%f64) (take (Z.to_nat consecutiveWindows) recent) in
      mret (if ok then DecisionMigrate else DecisionEvict, final)
    else if 1 <=? Z.of_nat (length recent) then
      mret (if (final > pc 65)%f64 then DecisionMigrate else DecisionEvict, final)
    else mret (DecisionEvict, final)
  else Ret (DecisionEvict, final).

(** ** The PID controller (mbr/pid.go) *)

Record PIDConfig : Type := mkPIDConfig { c_Kp : float; c_Ki : float; c_Kd : float; c_Setpoint : float; c_Min : float; c_Max : float }.

Definition DefaultPIDConfig : PIDConfig := mkPIDConfig F64.one (pc 10) (pc 5) (pc 60) minus_one F64.one.

Record PIDController : Type := mkPID {
  Kp : float; Ki : float; Kd : float;
  setpoint : float; integral : float; prevError : float;
  outputMin : float; outputMax : float;
}.

Definition NewPIDController (cfg : PIDConfig) : PIDController :=
  mkPID (c_Kp cfg) (c_Ki cfg) (c_Kd cfg) (c_Setpoint cfg) F64.zero F64.zero (c_Min cfg) (c_Max cfg).

(** The integral that explains the clamped output; none if it is not a number. *)
Definition back_integral (p : PIDController) (output proportional derivative : float) : float :=
  let i := ((output - proportional - derivative) / Ki p)%f64 in
  if F64.is_inf i || F64.is_nan i then F64.zero else i.

Definition Compute_ (measured dt : float) (p : PIDController) : float * PIDController :=
  if (dt <= F64.zero)%f64 then (F64.zero, p)
  else
    let error := (setpoint p - measured)%f64 in
    let proportional := (Kp p * error)%f64 in
    let sum := (integral p + error * dt)%f64 in
    let derivative := (Kd p * (error - prevError p) / dt)%f64 in
    let output := (proportional + Ki p * sum + derivative)%f64 in
    let done integral := mkPID (Kp p) (Ki p) (Kd p) (setpoint p) integral error (outputMin p) (outputMax p) in
    if (output > outputMax p)%f64 then (outputMax p, done (back_integral p (outputMax p) proportional derivative))
    else if (output < outputMin p)%f64 then (outputMin p, done (back_integral p (outputMin p) proportional derivative))
    else (output, done sum).

Definition Setpoint (p : PIDController) : float := setpoint p.
Definition UpdateSetpoint (sp : float) (p : PIDController) : PIDController :=
  mkPID (Kp p) (Ki p) (Kd p) sp (integral p) (prevError p) (outputMin p) (outputMax p).
Definition Reset (p : PIDController) : PIDController :=
  mkPID (Kp p) (Ki p) (Kd p) (setpoint p) F64.zero F64.zero (outputMin p) (outputMax p).

(** ** What is read of the monitor's samples *)

Definition s_CPU (sn : SystemSnapshot) : option float := UsagePercent <$> CPU sn.
Definition s_Memory (sn : SystemSnapshot) : option float := UsedPercent <$> Memory sn.
Definition s_IO (sn : SystemSnapshot) : list (float * float) := (fun m => (ReadBytesRate m, WriteBytesRate m)) <$> IO sn.
Definition s_Network (sn : SystemSnapshot) : list (float * float) := (fun m => (SendRate m, RecvRate m)) <$> NetIfs sn.

(** ** The collector (mbr/collector.go) *)

(** [p_lastMemUpdateTime] is only read once it is set. *)
Record Provider : Type := mkProvider {
  p_pid : option PIDController;
  hits : Z; misses : Z; sets : Z; evictions : Z; evictIdle : Z; evictCnt : Z;
  migrationActive : bool;
  prevKeys : Z; prevHit : Z; prevMiss : Z; prevEvict : Z; prevSets : Z;
  smoothedMemGrowth : float; lastMemRatio : float; lastMemUpdateTime : Z; memRatioInitialized : bool;
  lastCollect : Z;
}.

Definition NewDefaultStatsProvider (now : Z) (pid : option PIDController) : Provider :=
  mkProvider pid 0 0 0 0 0 0 false 0 0 0 0 0 F64.zero F64.zero 0 false now.

Definition SetMigrationActive (active : bool) (p : Provider) : Provider :=
  mkProvider (p_pid p) (hits p) (misses p) (sets p) (evictions p) (evictIdle p) (evictCnt p) active
    (prevKeys p) (prevHit p) (prevMiss p) (prevEvict p) (prevSets p)
    (smoothedMemGrowth p) (lastMemRatio p) (lastMemUpdateTime p) (memRatioInitialized p) (lastCollect p).
Definition IsMigrationActive (p : Provider) : bool := migrationActive p.

(** *** The observer *)

Definition count (h m s e n : Z) (p : Provider) : Provider :=
  mkProvider (p_pid p) (int64 (hits p + h)) (int64 (misses p + m)) (wrapU 64 (sets p + s)) (int64 (evictions p + e))
    (evictIdle p) (wrapU 64 (evictCnt p + n)) (migrationActive p)
    (prevKeys p) (prevHit p) (prevMiss p) (prevEvict p) (prevSets p)
    (smoothedMemGrowth p) (lastMemRatio p) (lastMemUpdateTime p) (memRatioInitialized p) (lastCollect p).

Definition observe (e : event) (p : Provider) : Provider :=
  match e with
  | OnHit _ => count 1 0 0 0 0 p
  | OnMiss _ => count 0 1 0 0 0 p
  | OnSet _ => count 0 0 1 0 0 p
  | OnEvict _ => count 0 0 0 1 1 p
  | _ => p
  end.

(** *** Features *)

Section Collect.
Context `{MI : MapIter} `{EP : EvictionPolicy P}.
Notation Cache := (Cache P).

Definition policy_kind (name : string) : PolicyKind :=
  if decide (name = "noop"%string) then PolicyNoop
  else if decide (name = "lru"%string) then PolicyLRU
  else if decide (name = "lfu"%string) then PolicyLFU
  else PolicyUnknown.

(** The growth rate of the memory ratio, the ratio and the time it was seen. *)
Definition mem_growth (now : Z) (newRatio : float) (p : Provider) : float * float * Z :=
  if memRatioInitialized p then
    let elapsed := Seconds (sat64 (now - lastMemUpdateTime p)) in
    if negb (F64.eqb newRatio (lastMemRatio p)) && (elapsed > F64.zero)%f64 then
      (((newRatio - lastMemRatio p) / elapsed)%f64, newRatio, now)
    else (smoothedMemGrowth p, lastMemRatio p, lastMemUpdateTime p)
  else (smoothedMemGrowth p, newRatio, now).

(** The sum of both rates over all devices, relative to [full]. *)
Definition io_pressure (full : Z) (rates : list (float * float)) : float :=
  let '(r, w) := foldl (fun '(r, w) '(a, b) => ((r + a)%f64, (w + b)%f64)) (F64.zero, F64.zero) rates in
  clamp01 ((r + w) / int full)%f64.

Definition GetLatestStats (now : Z) (snap : option SystemSnapshot) (c : Cache) (p : Provider) : outcome (WindowStats * Provider) :=
  let dt := Seconds (sat64 (now - lastCollect p)) in
  let dt := if (dt <= F64.zero)%f64 then pc 50 else dt in
  currentKeys ← Len now c;
  let keyDelta := int64 (currentKeys - prevKeys p) in
  let keyDelta := if keyDelta <? 0 then 0 else keyDelta in
  let h := hits p in
  let m := misses p in
  let totalAccess := int64 (h + m) in
  let totalDelta := int64 (int64 (h - prevHit p) + int64 (m - prevMiss p)) in
  let hitRate := if totalAccess >? 0 then (int h / int totalAccess)%f64 else F64.zero in
  let evictRate := if (dt > F64.zero)%f64 then (int (int64 (evictions p - prevEvict p)) / dt)%f64 else F64.zero in
  let idle := if evictCnt p >? 0 then (int (evictIdle p) / int (evictCnt p) / int 1000000000)%f64 else F64.zero in
  let s := sets p in
  let sDelta := wrapU 64 (s - prevSets p) in
  let newKeys := if totalDelta >? 0 then (int sDelta / int totalDelta)%f64 else if sDelta >? 0 then F64.one else F64.zero in
  let reads := int64 (totalDelta - int64 sDelta) in
  let rw := if (s >? 0) && (reads >? 0) then (int reads / int sDelta)%f64 else F64.zero in
  let cpu := match snap with Some sn => match s_CPU sn with Some u => (u / int 100)%f64 | None => F64.zero end | None => F64.zero end in
  let mem := match snap with Some sn => s_Memory sn | None => None end in
  let memRatio := match mem with Some u => (u / int 100)%f64 | None => F64.zero end in
  let '(growth, ratio, time) := match mem with
    | Some u => mem_growth now (u / int 100)%f64 p
    | None => (smoothedMemGrowth p, lastMemRatio p, lastMemUpdateTime p) end in
  let disk := match snap with Some sn => io_pressure (100 * 1024 * 1024) (s_IO sn) | None => F64.zero end in
  let net := match snap with Some sn => io_pressure (125 * 1024 * 1024) (s_Network sn) | None => F64.zero end in
  let '(deviation, pid) := match p_pid p with
    | Some pid => let '(d, pid) := Compute_ memRatio dt pid in (d, Some pid)
    | None => (F64.zero, None) end in
  mret (mkStats memRatio (if mem then growth else F64.zero) (int keyDelta / dt)%f64 hitRate evictRate idle newKeys rw cpu disk net
          (IsRehashing (rehasher c)) F64.zero (migrationActive p) F64.zero F64.zero F64.zero 0
          (policy_kind (EvictionPolicyName c)) deviation,
        mkProvider pid h m s (evictions p) (evictIdle p) (evictCnt p) (migrationActive p)
          currentKeys h m (evictions p) s growth ratio time (memRatioInitialized p || (if mem then true else false)) now).

End Collect.

(** ** The executor (mbr/migrator.go) *)

Record MigratorConfig : Type := mkMigrator {
  CheckInterval : Z;
  MaxMigrationTime : Z;
  PauseOnCPUThreshold : float;
  PauseOnMemThreshold : float;
  TargetLoadPerShard : Z;
  MinShards : Z;
  MaxShards : Z;
}.

Definition DefaultMigratorConfig : MigratorConfig :=
  mkMigrator (100 * 1000000) (5 * 60 * 1000000000) (pc 80) (pc 85) 512 4 1024.

(** [g_StartTime] is [None] for the zero time. *)
Record MigrationProgress : Type := mkProgress {
  g_State : MigrationState;
  g_OldShards : Z;
  g_NewShards : Z;
  g_MigratedKeys : Z;
  g_RemainingKeys : Z;
  g_StartTime : option Z;
  g_ElapsedSecs : float;
  g_PauseReason : string;
}.

Definition no_progress (s : MigrationState) : MigrationProgress := mkProgress s 0 0 0 0 None F64.zero EmptyString.

Record Executor : Type := mkExecutor { e_cfg : MigratorConfig; e_paused : bool; Progress : MigrationProgress }.

Definition NewMigrationExecutor (cfg : MigratorConfig) : Executor := mkExecutor cfg false (no_progress MigrationIdle).

Definition IsActive (e : Executor) : bool :=
  bool_decide (g_State (Progress e) = MigrationRunning) || bool_decide (g_State (Progress e) = MigrationPaused).

Definition with_progress (g : MigrationProgress) (e : Executor) : Executor := mkExecutor (e_cfg e) (e_paused e) g.
Definition with_paused (b : bool) (e : Executor) : Executor := mkExecutor (e_cfg e) b (Progress e).

Definition updateProgress (now : Z) (state : MigrationState) (pauseReason : string) (e : Executor) : Executor :=
  let p := Progress e in
  let start := default now (g_StartTime p) in
  with_progress (mkProgress state (g_OldShards p) (g_NewShards p) (g_MigratedKeys p) (g_RemainingKeys p) (Some start)
                   (Seconds (sat64 (now - start))) pauseReason) e.

(** [snap] is [None] without a monitor or a sample. *)
Definition shouldPause (snap : option SystemSnapshot) (cfg : MigratorConfig) : bool :=
  match snap with
  | None => false
  | Some sn =>
      match s_CPU sn with Some u => (u > PauseOnCPUThreshold cfg * int 100)%f64 | None => false end ||
      match s_Memory sn with Some u => (u > PauseOnMemThreshold cfg * int 100)%f64 | None => false end
  end.

(** [1 << bits.Len(uint(n - 1))]. *)
Definition nextPowerOfTwo (n : Z) : Z := if n <=? 1 then 1 else int64 (Z.shiftl 1 (Z.log2 (n - 1) + 1)).

Definition effective_load (snap : option SystemSnapshot) (cfg : MigratorConfig) : Z :=
  let load := TargetLoadPerShard cfg in
  match snap with
  | Some sn =>
      match s_Memory sn with
      | Some used =>
          let memRatio := (used / int 100)%f64 in
          if (memRatio > pc 60)%f64 then
            let pressure := ((memRatio - pc 60) / pc 40)%f64 in
            let adjusted := F64.to_int (int load * (F64.one - pressure * pc 75))%f64 in
            if adjusted <? 64 then 64 else adjusted
          else load
      | None => load
      end
  | None => load
  end.

(** A target load of 0 divides by zero. *)
Definition calculateTargetShards (snap : option SystemSnapshot) (currentKeys : Z) (cfg : MigratorConfig) : outcome Z :=
  let load := effective_load snap cfg in
  if load =? 0 then Panic
  else
    let target := int64 (Z.quot currentKeys load) in
    let target := if target <? MinShards cfg then MinShards cfg else target in
    let target := if target >? MaxShards cfg then MaxShards cfg else target in
    Ret (nextPowerOfTwo target).

Section Execute.
Context `{MI : MapIter} `{EP : EvictionPolicy P}.
Notation Cache := (Cache P).

(** What the executor shares with other goroutines. *)
Record World : Type := mkWorld { w_cache : Cache; w_provider : option Provider }.

Definition with_cache (c : Cache) (w : World) : World := mkWorld c (w_provider w).
Definition signal (active : bool) (w : World) : World := mkWorld (w_cache w) (SetMigrationActive active <$> w_provider w).

Definition canceled : error := ErrMsg "context canceled".

(** One wake-up of [waitResume]: what others did, whether the context is done, the sample. *)
Record wake : Type := mkWake { wk_others : World -> World; wk_done : bool; wk_snap : option SystemSnapshot }.

(** Whether the context was done. *)
Fixpoint resume_loop (wakes : list wake) (cfg : MigratorConfig) (w : World) : outcome (bool * World) :=
  match wakes with
  | [] => NoFuel
  | k :: wakes =>
      let w := wk_others k w in
      if wk_done k then Ret (true, w)
      else if shouldPause (wk_snap k) cfg then resume_loop wakes cfg w
      else Ret (false, w)
  end.

Definition waitResume (wakes : list wake) (cfg : MigratorConfig) (w : World) : outcome (bool * World) :=
  _ ← NewTicker (CheckInterval cfg);
  resume_loop wakes cfg w.

(** Each pass of [forceComplete] reads the clock; others run while it sleeps. *)
Fixpoint force_loop (passes : list (Z * (World -> World))) (w : World) : outcome World :=
  if IsRehashing (rehasher (w_cache w)) then
    match passes with
    | [] => NoFuel
    | (now, others) :: passes =>
        '(_, c) ← Get now "__mbr_force_complete__" (w_cache w);
        force_loop passes (others (with_cache c w))
    end
  else Ret w.

Definition forceComplete (passes : list (Z * (World -> World))) (e : Executor) (w : World) : outcome (Executor * World) :=
  w ← force_loop passes w;
  mret (with_progress (no_progress MigrationCompleted) e, w).

(** One turn of the loop of [Execute]: what others did while it waited, whether the
    context is done, the clock, the sample, and what happens inside the two waits. *)
Record turn : Type := mkTurn {
  tn_others : World -> World;
  tn_done : bool;
  tn_now : Z;
  tn_snap : option SystemSnapshot;
  tn_wakes : list wake;
  tn_force : list (Z * (World -> World));
}.

(** [if e.shouldPause() { ... }]: whether the context was done. *)
Definition pause (t : turn) (e : Executor) (w : World) : outcome (bool * Executor * World) :=
  if shouldPause (tn_snap t) (e_cfg e) then
    let e := updateProgress (tn_now t) MigrationPaused "system_overload" (with_paused true e) in
    '(stop, w) ← waitResume (tn_wakes t) (e_cfg e) w;
    let e := with_paused false e in
    mret (stop, if (stop : bool) then e else updateProgress (tn_now t) MigrationRunning EmptyString e, w)
  else Ret (false, e, w).

Fixpoint execute_loop (turns : list turn) (start old new : Z) (e : Executor) (w : World) :
    outcome (option error * Executor * World) :=
  if IsRehashing (rehasher (w_cache w)) then
    match turns with
    | [] => NoFuel
    | t :: turns =>
        let w := tn_others t w in
        if tn_done t then Ret (Some canceled, e, w)
        else
          '(stop, e, w) ← pause t e w;
          if (stop : bool) then Ret (Some canceled, e, w)
          else
            '(e, w) ← (if sat64 (tn_now t - start) >? MaxMigrationTime (e_cfg e) then forceComplete (tn_force t) e w else Ret (e, w));
            execute_loop turns start old new e w
    end
  else Ret (None, with_progress (mkProgress MigrationCompleted old new 0 0 (Some start) F64.zero EmptyString) e, w).

Definition Execute (now : Z) (snap : option SystemSnapshot) (turns : list turn) (e : Executor) (w : World) :
    outcome (option error * Executor * World) :=
  let c := w_cache w in
  if IsRehashing (rehasher c) then Ret (None, e, w)
  else
    currentKeys ← Len now c;
    targetShards ← calculateTargetShards snap currentKeys (e_cfg e);
    let currentShards := ShardCount c in
    if targetShards <=? currentShards then Ret (None, e, w)
    else
      match Resize targetShards c with
      | (Some err, c) => Ret (Some err, e, with_cache c w)
      | (None, c) =>
          let w := signal true (with_cache c w) in
          let e := updateProgress now MigrationRunning EmptyString e in
          _ ← NewTicker (CheckInterval (e_cfg e));
          '(r, e, w) ← execute_loop turns now currentShards targetShards e w;
          mret (r, e, signal false w)
      end.

(** ** The loops (mbr/loop.go) *)

Record DecisionEvent : Type := mkEvent { ev_Decision : Decision; ev_Score : float; ev_Timestamp : Z; ev_Stats : WindowStats }.

(** A tick of [RunDecisionLoop]: the features, the clock, and whether the channel has room. *)
Record decision_tick : Type := mkTick { tk_stats : WindowStats; tk_now : Z; tk_room : bool }.

(** [prev] is [None] for the empty decision the loop starts with. *)
Definition decide_step (weights : ScoreWeights) (t : decision_tick) (m : FeatureMatrix) (prev : option Decision) :
    outcome (option DecisionEvent * FeatureMatrix * option Decision) :=
  m ← Push (tk_stats t) m;
  '(decision, score) ← Decide (tk_stats t) m weights;
  mret (if bool_decide (prev <> Some decision) && tk_room t
        then (Some (mkEvent decision score (tk_now t) (tk_stats t)), m, Some decision)
        else (None, m, prev)).

Fixpoint decision_loop (weights : ScoreWeights) (ticks : list decision_tick) (m : FeatureMatrix) (prev : option Decision) :
    outcome (list DecisionEvent * FeatureMatrix) :=
  match ticks with
  | [] => Ret ([], m)
  | t :: ticks =>
      '(o, m, prev) ← decide_step weights t m prev;
      '(evs, m) ← decision_loop weights ticks m prev;
      mret (option_list o ++ evs, m)
  end.

(** *** Options of the loop *)

Record loopConfig : Type := mkLoopConfig {
  l_interval : Z; l_matrixCapacity : Z; l_pid : PIDConfig; l_weights : ScoreWeights; l_migratorCfg : MigratorConfig;
}.
Definition defaultLoopConfig : loopConfig :=
  mkLoopConfig (500 * 1000000) 60 DefaultPIDConfig DefaultWeights DefaultMigratorConfig.

Definition loop_config (opts : list (loopConfig -> loopConfig)) : loopConfig := foldl (fun c opt => opt c) defaultLoopConfig opts.

(** The goroutine, until its context is done after [ticks]. *)
Definition RunDecisionLoop (opts : list (loopConfig -> loopConfig)) (ticks : list decision_tick) (m : FeatureMatrix) :
    outcome (list DecisionEvent * FeatureMatrix) :=
  let cfg := loop_config opts in
  _ ← NewTicker (l_interval cfg);
  decision_loop (l_weights cfg) ticks m None.

(** The executor's loop on one event. *)
Definition on_decision (ev : DecisionEvent) (now : Z) (snap : option SystemSnapshot) (turns : list turn) (e : Executor) (w : World) :
    outcome (Executor * World) :=
  if negb (bool_decide (ev_Decision ev = DecisionMigrate)) then Ret (e, w)
  else if IsRehashing (rehasher (w_cache w)) || IsActive e then Ret (e, w)
  else '(_, e, w) ← Execute now snap turns e w; mret (e, w).

End Execute.

(** *** Options (mbr/loop.go, mbr/config.go) *)

Record MbrOptions : Type := mkMbrOptions {
  MatrixCapacity : Z; DecisionInterval : Z; o_PID : PIDConfig; o_Weights : ScoreWeights; o_Migration : MigratorConfig;
}.
Definition NewOptions : MbrOptions := mkMbrOptions 60 (500 * 1000000) DefaultPIDConfig DefaultWeights DefaultMigratorConfig.
Definition WithMatrixCapacity (n : Z) (o : MbrOptions) : MbrOptions :=
  mkMbrOptions (if n <? 1 then 1 else n) (DecisionInterval o) (o_PID o) (o_Weights o) (o_Migration o).
Definition WithDecisionInterval (d : Z) (o : MbrOptions) : MbrOptions :=
  mkMbrOptions (MatrixCapacity o) d (o_PID o) (o_Weights o) (o_Migration o).
Definition WithPID (cfg : PIDConfig) (o : MbrOptions) : MbrOptions :=
  mkMbrOptions (MatrixCapacity o) (DecisionInterval o) cfg (o_Weights o) (o_Migration o).
Definition WithWeights (w : ScoreWeights) (o : MbrOptions) : MbrOptions :=
  mkMbrOptions (MatrixCapacity o) (DecisionInterval o) (o_PID o) w (o_Migration o).
Definition WithMigration (cfg : MigratorConfig) (o : MbrOptions) : MbrOptions :=
  mkMbrOptions (MatrixCapacity o) (DecisionInterval o) (o_PID o) (o_Weights o) cfg.

Definition loop_WithInterval (d : Z) (c : loopConfig) : loopConfig :=
  mkLoopConfig d (l_matrixCapacity c) (l_pid c) (l_weights c) (l_migratorCfg c).
Definition loop_WithMatrixCapacity (n : Z) (c : loopConfig) : loopConfig :=
  mkLoopConfig (l_interval c) n (l_pid c) (l_weights c) (l_migratorCfg c).
Definition loop_WithPID (cfg : PIDConfig) (c : loopConfig) : loopConfig :=
  mkLoopConfig (l_interval c) (l_matrixCapacity c) cfg (l_weights c) (l_migratorCfg c).
Definition loop_WithWeights (w : ScoreWeights) (c : loopConfig) : loopConfig :=
  mkLoopConfig (l_interval c) (l_matrixCapacity c) (l_pid c) w (l_migratorCfg c).
Definition loop_WithMigratorConfig (cfg : MigratorConfig) (c : loopConfig) : loopConfig :=
  mkLoopConfig (l_interval c) (l_matrixCapacity c) (l_pid c) (l_weights c) cfg.
