(* ===== verification/MbrScore.v ===== *)
(** * The scorecard stays in range

    Every factor of the scorecard lies in the range its comment gives, whatever the
    features are; the score lies between 0 and 1; and it never calls for a migration
    while one is under way. *)

From Stdlib Require Import ZArith Lia Floats.SpecFloat.
From stdpp Require Import base tactics numbers list strings.
From S2P Require Import Prelude.
From S2P Require Import Policy.
From S2P Require Import Policies.
From S2P Require Import Shard.
From S2P Require Import Rehash.
From S2P Require Import Cache.
From S2P Require Import CacheSpec.
From S2P Require Import Float64.
From S2P Require Import Monitor.
From S2P Require Import Mbr.

Open Scope Z_scope.

(** ** Order *)

Lemma compare_swap x y : SFcompare y x = CompOpp <$> SFcompare x y.
Proof.
  assert (forall a b, Pos.compare_cont Eq b a = CompOpp (Pos.compare_cont Eq a b)) as Hp by (intros a b; apply Pos.compare_antisym).
  destruct x as [[]|[]| |[] mx ex], y as [[]|[]| |[] my ey]; try done; cbn [SFcompare fmap option_fmap option_map]; f_equal;
    rewrite (Z.compare_antisym ex ey), (Hp mx my); destruct (ex ?= ey), (Pos.compare_cont Eq mx my); done.
Qed.

Lemma compare_nan x y : SFcompare x y = None <-> F64.is_nan x = true \/ F64.is_nan y = true.
Proof. destruct x as [sx|sx| |sx mx ex], y as [sy|sy| |sy my ey]; cbn; intuition discriminate. Qed.

Lemma not_leb x y : F64.is_nan x = false -> F64.is_nan y = false -> F64.leb x y = false -> F64.leb y x = true.
Proof.
  intros Hx Hy. unfold F64.leb, SFleb. rewrite (compare_swap x y). destruct (SFcompare x y) as [[]|] eqn:Hc; cbn; try done.
  apply compare_nan in Hc as [?|?]; congruence.
Qed.

Lemma not_ltb x y : F64.is_nan x = false -> F64.is_nan y = false -> F64.ltb x y = false -> F64.leb y x = true.
Proof.
  intros Hx Hy. unfold F64.leb, F64.ltb, SFltb, SFleb. rewrite (compare_swap x y).
  destruct (SFcompare x y) as [[]|] eqn:Hc; cbn; try done. apply compare_nan in Hc as [?|?]; congruence.
Qed.

Lemma ltb_leb x y : F64.ltb x y = true -> F64.leb x y = true.
Proof. unfold F64.ltb, F64.leb, SFltb, SFleb. by destruct (SFcompare x y) as [[]|]. Qed.

(** A positive constant. *)
Definition positive (c : float) : bool := match c with S754_finite false _ _ => true | _ => false end.

(** The value of a positive float. *)
Definition value_of (c : float) : Z := match c with S754_finite false m e => units (Zpos m) e | _ => 0 end.

Lemma positive_inv c : positive c = true -> exists m e, c = S754_finite false m e.
Proof. destruct c as [| | |[] m e]; try done. eauto. Qed.

(** Between two positive constants. *)
Lemma between_inv lo hi x : F64.valid x -> F64.valid lo -> F64.valid hi -> positive lo = true -> positive hi = true ->
  F64.leb lo x = true -> F64.leb x hi = true ->
  exists m e, x = S754_finite false m e /\ value_of lo <= units (Zpos m) e <= value_of hi.
Proof.
  intros Hx Hlo Hhi (ml & el & ->)%positive_inv (mh & eh & ->)%positive_inv H1 H2.
  destruct x as [|[]| |[] m e]; try done. exists m, e. split; [done|].
  apply leb_units in H1; [|done..]. apply leb_units in H2; [|done..]. by cbn.
Qed.

Lemma within_weaken c d x : F64.valid x -> F64.valid c -> F64.valid d -> positive c = true -> positive d = true ->
  value_of c <= value_of d -> within F64.zero c x -> within F64.zero d x.
Proof.
  intros Hx Hc Hd (mc & ec & ->)%positive_inv (md & ed & ->)%positive_inv Hv Hw.
  destruct (within_inv _ _ Hx Hw eq_refl) as [[s ->]|(m & e & ->)]; [by destruct s|]. destruct Hw as [H1 H2].
  split; [done|]. apply leb_units in H2; [|done..]. apply leb_units; [done..|]. cbn in Hv. lia.
Qed.

(** Above [c] and not [d]. *)
Lemma not_above_threshold c d x : F64.valid x -> F64.valid c -> F64.valid d -> positive c = true -> positive d = true ->
  value_of c <= value_of d -> within F64.zero c x -> F64.ltb d x = false.
Proof.
  intros Hx Hc Hd Hpc Hpd Hv Hw. destruct (within_weaken c d x Hx Hc Hd Hpc Hpd Hv Hw) as [_ Hle].
  unfold F64.leb, F64.ltb, SFleb, SFltb in *. rewrite compare_swap. by destruct (SFcompare x d) as [[]|].
Qed.

(** ** Factors *)

Lemma ratio_unit x c : F64.valid x -> F64.valid c -> positive c = true -> within F64.zero c x -> within F64.zero F64.one (F64.div x c).
Proof. intros Hx Hc (m & e & ->)%positive_inv Hw. by apply div_within. Qed.

Lemma sub_from hi lo d x : F64.valid x -> F64.valid lo -> F64.valid hi -> F64.valid d ->
  positive lo = true -> positive hi = true -> positive d = true -> value_of hi - value_of lo <= value_of d ->
  F64.leb lo x = true -> F64.leb x hi = true -> within F64.zero d (F64.sub hi x) /\ within F64.zero d (F64.sub x lo).
Proof.
  intros Hx Hlo Hhi Hd Hplo Hphi Hpd Hv H1 H2. destruct (between_inv lo hi x) as (m & e & -> & Hb); [done..|].
  apply positive_inv in Hplo as (ml & el & ->). apply positive_inv in Hphi as (mh & eh & ->). apply positive_inv in Hpd as (md & ed & ->).
  cbn [value_of] in *. split; apply sub_within; (done || lia).
Qed.

(** A factor: not a number exactly where the feature is not, otherwise in [0, 1]. *)
Definition factor (rate score : float) : Prop :=
  if F64.is_nan rate then F64.is_nan score = true else within F64.zero F64.one score.

Lemma factor_zero rate : F64.is_nan rate = false -> factor rate F64.zero.
Proof. unfold factor. by intros ->. Qed.

Lemma factor_one rate : F64.is_nan rate = false -> factor rate F64.one.
Proof. unfold factor. by intros ->. Qed.

Lemma leb_not_nan x y : F64.leb x y = true -> F64.is_nan x = false /\ F64.is_nan y = false.
Proof. by destruct x as [|[]| |[]], y as [|[]| |[]]. Qed.

Lemma nan_leb x y : F64.is_nan x = true \/ F64.is_nan y = true -> F64.leb x y = false /\ F64.ltb x y = false.
Proof. intros H%compare_nan. unfold F64.leb, F64.ltb, SFleb, SFltb. by rewrite H. Qed.

(** Constants are positive and well formed. *)
Ltac constant := solve [apply lit_valid | apply of_Z_valid | vm_compute; reflexivity | vm_compute; discriminate].

Lemma memGrowth_factor rate : F64.valid rate -> factor rate (memGrowthScore rate).
Proof.
  intros Hv. unfold memGrowthScore. destruct (F64.leb rate F64.zero) eqn:H0; [by apply factor_zero, (leb_not_nan _ _ H0)|].
  destruct (F64.leb (pc 5) rate) eqn:H1; [by apply factor_one, (leb_not_nan _ _ H1)|]. unfold factor.
  destruct (F64.is_nan rate) eqn:Hn; [by destruct rate|]. apply ratio_unit; [done|constant..|].
  split; [by apply not_leb|by apply not_leb].
Qed.

Lemma keysGrowth_factor rate : F64.valid rate -> factor rate (keysGrowthScore rate).
Proof.
  intros Hv. unfold keysGrowthScore. destruct (F64.leb rate F64.zero) eqn:H0; [by apply factor_zero, (leb_not_nan _ _ H0)|].
  destruct (F64.leb (int 500) rate) eqn:H1; [by apply factor_one, (leb_not_nan _ _ H1)|]. unfold factor.
  destruct (F64.is_nan rate) eqn:Hn; [by destruct rate|]. apply ratio_unit; [done|constant..|].
  split; [by apply not_leb|by apply not_leb].
Qed.

Lemma hitRate_factor rate : F64.valid rate -> factor rate (hitRateScore rate).
Proof.
  intros Hv. unfold hitRateScore. destruct (F64.leb (pc 95) rate) eqn:H0; [by apply factor_zero, (leb_not_nan _ _ H0)|].
  destruct (F64.leb rate (pc 70)) eqn:H1; [by apply factor_one, (leb_not_nan _ _ H1)|]. unfold factor.
  destruct (F64.is_nan rate) eqn:Hn; [by destruct rate|].
  destruct (sub_from (pc 95) (pc 70) (pc 25) rate) as [Hs _]; [done|constant..|by apply not_leb|by apply not_leb|].
  apply ratio_unit; [apply sub_valid; [constant|done]|constant..|done].
Qed.

(** [(x - lo) / d] between [lo] and [hi]. *)
Lemma ramp_factor lo hi d x : F64.valid x -> F64.valid lo -> F64.valid hi -> F64.valid d ->
  positive lo = true -> positive hi = true -> positive d = true -> value_of hi - value_of lo <= value_of d ->
  factor x (if F64.leb hi x then F64.one else if F64.leb x lo then F64.zero else F64.div (F64.sub x lo) d).
Proof.
  intros Hx Hlo Hhi Hd Hplo Hphi Hpd Hv. destruct (F64.leb hi x) eqn:H0; [by apply factor_one, (leb_not_nan _ _ H0)|].
  destruct (F64.leb x lo) eqn:H1; [by apply factor_zero, (leb_not_nan _ _ H1)|]. unfold factor.
  assert (F64.is_nan lo = false /\ F64.is_nan hi = false) as [Hnl Hnh] by (by destruct lo as [| | |[]], hi as [| | |[]]).
  destruct (F64.is_nan x) eqn:Hn.
  { by destruct x. }
  destruct (sub_from hi lo d x) as [_ Hs]; try done; [by apply not_leb|by apply not_leb|].
  apply ratio_unit; [by apply sub_valid|done..].
Qed.

Lemma newKeys_factor rate : F64.valid rate -> factor rate (newKeysScore rate).
Proof. intros Hv. apply (ramp_factor (pc 10) (pc 50) (pc 40)); [done|constant..]. Qed.

Lemma eviction_factor eps : F64.valid eps -> factor eps (evictionPressureScore eps).
Proof. intros Hv. apply (ramp_factor (int 10) (int 100) (int 90)); [done|constant..]. Qed.

(** *** The penalty *)

Lemma sub_nonneg x c : F64.valid x -> F64.valid c -> positive c = true -> F64.leb c x = true -> nonneg (F64.sub x c) = true.
Proof.
  intros Hx Hc (mc & ec & ->)%positive_inv Hle. destruct x as [|[]| |[] m e]; try done. apply leb_units in Hle; [|done..].
  rewrite <-leb_zero. apply (sub_within m e mc ec m e); try done. unfold units in *. pose proof (Z.pow_nonneg 2 (ec + 3000)). nia.
Qed.

Lemma ratio_nonneg x c : F64.valid x -> F64.valid c -> positive c = true -> nonneg x = true -> nonneg (F64.div x c) = true.
Proof. intros Hx Hc (mc & ec & ->)%positive_inv Hn. by apply div_nonneg. Qed.

(** A score that only penalties have touched. *)
Definition penalised (x : float) : Prop := F64.valid x /\ nonpos x = true.

Lemma penalise score p : penalised score -> F64.valid p -> nonneg p = true -> penalised (F64.sub score p).
Proof. intros [Hv Hn] Hp Hnn. split; [by apply sub_valid|by apply sub_nonpos]. Qed.

Lemma excess_penalty x c d : F64.valid x -> F64.valid c -> F64.valid d -> positive c = true -> positive d = true ->
  F64.ltb c x = true -> F64.valid (F64.div (F64.sub x c) d) /\ nonneg (F64.div (F64.sub x c) d) = true.
Proof.
  intros Hx Hc Hd Hpc Hpd Hlt. split; [by apply div_valid; [apply sub_valid|]|].
  apply ratio_nonneg; [by apply sub_valid|done..|]. apply sub_nonneg; [done..|by apply ltb_leb].
Qed.

Lemma usage_penalised usage score : F64.valid usage -> penalised score -> penalised (usage_penalty usage score).
Proof.
  intros Hu Hs. unfold usage_penalty. destruct (F64.ltb (pc 80) usage) eqn:H; [|done].
  destruct (excess_penalty usage (pc 80) (pc 20)) as [Hv Hn]; [done|constant..|done|]. by apply penalise.
Qed.

Lemma aof_penalised size score : F64.valid size -> penalised score -> penalised (aof_penalty size score).
Proof.
  intros Hu Hs. unfold aof_penalty. set (mb := F64.div size _). assert (F64.valid mb) as Hmb by (apply div_valid; [done|constant]).
  cbv zeta. destruct (F64.ltb (int 512) mb) eqn:H; [|done].
  destruct (excess_penalty mb (int 512) (int 512)) as [Hv Hn]; [done|constant..|done|].
  apply penalise; [done|case_match; [constant|done]|case_match; done].
Qed.

Lemma of_Z_nonneg n : 0 <= n -> nonneg (F64.of_Z n) = true.
Proof.
  intros Hn. destruct n as [|p|p]; [done| |lia]. unfold F64.of_Z. cbn [binary_normalize].
  destruct (binary_round_spec false p 0 ltac:(lia)) as (m' & e' & -> & Hm & _ & Hf & _). apply round_nonneg; [lia|done].
Qed.

Lemma clients_penalised n score : penalised score -> penalised (clients_penalty n score).
Proof.
  intros Hs. unfold clients_penalty. destruct (Z.gtb_spec n 0); [|done]. cbv zeta. set (c := if F64.ltb _ _ then _ else _).
  assert (F64.valid c /\ nonneg c = true) as [Hc Hn].
  { unfold c. case_match; [split; constant|]. split; [apply of_Z_valid|apply of_Z_nonneg; lia]. }
  apply penalise; [done|apply div_valid; [done|constant]|apply ratio_nonneg; [done|constant|constant|done]].
Qed.

Lemma penalised_zero : penalised F64.zero.
Proof. by split. Qed.

(** Every float64 is well formed; features are float64. *)
Record valid_stats (s : WindowStats) : Prop := {
  vs_mem : F64.valid (MemGrowthRate s);
  vs_keys : F64.valid (KeysGrowthRate s);
  vs_hit : F64.valid (HitRate s);
  vs_evict : F64.valid (EvictionsPerSec s);
  vs_new : F64.valid (NewKeysRate s);
  vs_out : F64.valid (ClientOutputBufferUsage s);
  vs_repl : F64.valid (ReplBacklogUsage s);
  vs_aof : F64.valid (AofRewriteBufferSize s);
}.

Lemma bufferPenalty_range stats : valid_stats stats ->
  F64.valid (bufferPenalty stats) /\ within minus_one F64.zero (bufferPenalty stats).
Proof.
  intros Hv. unfold bufferPenalty. cbv zeta. set (score := clients_penalty _ _). assert (penalised score) as [Hsv Hsn].
  { apply clients_penalised, aof_penalised; [apply Hv|]. apply usage_penalised; [apply Hv|]. apply usage_penalised; [apply Hv|apply penalised_zero]. }
  destruct (F64.ltb score minus_one) eqn:H; [split; [reflexivity|by split]|]. split; [done|].
  assert (F64.is_nan score = false) as Hnan by (by destruct score as [|[]| |[]]).
  split; [by apply not_ltb|by destruct score as [|[]| |[]]].
Qed.

(** *** The score *)

Lemma clamp_factor v : F64.valid v -> F64.valid (clamp01 v) /\ factor v (clamp01 v).
Proof.
  intros Hv. unfold clamp01, factor. destruct (F64.is_nan v) eqn:Hn; [by destruct v|].
  destruct (F64.ltb v F64.zero) eqn:H0; [done|]. destruct (F64.ltb F64.one v) eqn:H1; [split; [constant|done]|].
  split; [done|]. split; by apply not_ltb.
Qed.

Record valid_weights (w : ScoreWeights) : Prop := {
  vw_mem : F64.valid (w_MemGrowth w);
  vw_hit : F64.valid (w_HitRate w);
  vw_new : F64.valid (w_NewKeys w);
  vw_evict : F64.valid (w_EvictionPressure w);
  vw_buf : F64.valid (w_BufferPenalty w);
}.

(** Either no number, or in [0, 1]. *)
Definition score_range (x : float) : Prop := F64.valid x /\ (F64.is_nan x = true \/ within F64.zero F64.one x).

Lemma if_valid (b : bool) x y : F64.valid x -> F64.valid y -> F64.valid (if b then x else y).
Proof. by destruct b. Qed.

#[local] Hint Resolve add_valid sub_valid mul_valid div_valid max_valid lit_valid of_Z_valid if_valid : f64.
#[local] Hint Resolve vs_mem vs_keys vs_hit vs_evict vs_new vw_mem vw_hit vw_new vw_evict vw_buf : f64.

Lemma zero_valid : F64.valid F64.zero.
Proof. reflexivity. Qed.

Lemma one_valid : F64.valid F64.one.
Proof. reflexivity. Qed.
#[local] Hint Resolve zero_valid one_valid : f64.

Lemma weighted_range stats weights bufPen : valid_stats stats -> valid_weights weights -> F64.valid bufPen ->
  score_range (weighted stats weights bufPen).
Proof.
  intros Hs Hw Hb. unfold weighted. cbv zeta. set (raw := F64.add _ _). assert (F64.valid raw) as Hraw.
  { unfold raw, memGrowthScore, keysGrowthScore, hitRateScore, newKeysScore, evictionPressureScore. auto 12 with f64. }
  destruct (clamp_factor raw Hraw) as [Hv Hf]. split; [done|]. unfold factor in Hf. destruct (F64.is_nan raw); auto.
Qed.

Lemma mul_range x c : positive c = true -> F64.valid c -> score_range x ->
  F64.valid (F64.mul x c) /\ (F64.is_nan (F64.mul x c) = true \/ within F64.zero c (F64.mul x c)).
Proof.
  intros Hp Hc [Hv [Hn|Hw]]; (split; [by apply mul_valid|]).
  - left. by destruct x.
  - right. apply positive_inv in Hp as (m & e & ->). by apply mul_within.
Qed.

Lemma mul_score x c : positive c = true -> F64.valid c -> value_of c <= value_of F64.one -> score_range x -> score_range (F64.mul x c).
Proof.
  intros Hp Hc Hle Hx. destruct (mul_range x c Hp Hc Hx) as [Hv [Hn|Hw]]; (split; [done|]); [by left|right].
  by apply (within_weaken c); try done; constant.
Qed.

Lemma damped_range stats raw : score_range raw -> score_range (damped stats raw).
Proof.
  intros Hr. unfold damped. assert (score_range (if isFalsePressure stats then F64.mul raw falsePressureFactor else raw)) as Hf.
  { destruct (isFalsePressure stats); [|done]. apply mul_score; [constant|constant|constant|done]. }
  cbv zeta. destruct (RehashActive stats || MigrationActive stats); [|done]. apply mul_score; [constant|constant|constant|done].
Qed.

(** While a migration is under way the score is at most the suppression factor. *)
Lemma damped_low stats raw : score_range raw -> RehashActive stats || MigrationActive stats = true ->
  F64.ltb migrateThreshold (damped stats raw) = false.
Proof.
  intros Hr Ha. unfold damped. cbv zeta. rewrite Ha.
  assert (score_range (if isFalsePressure stats then F64.mul raw falsePressureFactor else raw)) as Hf.
  { destruct (isFalsePressure stats); [|done]. apply mul_score; [constant|constant|constant|done]. }
  destruct (mul_range _ migrationSuppressionFactor ltac:(constant) ltac:(constant) Hf) as [Hv [Hn|Hw]].
  - apply nan_leb. by right.
  - apply (not_above_threshold migrationSuppressionFactor); [done|constant|constant|constant|constant|constant|done].
Qed.

(** ** Properties *)

(** C30 (bounds): the factors of the scorecard.  Whatever the features are, each of the
    five scores lies in [0, 1], unless its feature is not a number, and then neither is
    the score; the penalty for buffers always lies in [-1, 0].  All operations round as
    float64 does. *)
Theorem scores_in_range stats :
  valid_stats stats ->
  factor (MemGrowthRate stats) (memGrowthScore (MemGrowthRate stats)) /\
  factor (HitRate stats) (hitRateScore (HitRate stats)) /\
  factor (NewKeysRate stats) (newKeysScore (NewKeysRate stats)) /\
  factor (EvictionsPerSec stats) (evictionPressureScore (EvictionsPerSec stats)) /\
  factor (KeysGrowthRate stats) (keysGrowthScore (KeysGrowthRate stats)) /\
  within minus_one F64.zero (bufferPenalty stats).
Proof.
  intros Hv. split_and!.
  - apply memGrowth_factor, Hv.
  - apply hitRate_factor, Hv.
  - apply newKeys_factor, Hv.
  - apply eviction_factor, Hv.
  - apply keysGrowth_factor, Hv.
  - by apply bufferPenalty_range.
Qed.

Lemma decide_score stats m weights d s : valid_stats stats -> valid_weights weights -> Decide stats m weights ⇓ (d, s) -> score_range s.
Proof.
  intros Hs Hw. unfold Decide. set (final := damped _ _). assert (score_range final) as Hf.
  { apply damped_range, weighted_range; [done|done|by apply bufferPenalty_range]. }
  cbv zeta. destruct (F64.ltb migrateThreshold final); [|by intros [= _ <-]].
  destruct (GetRecent _ m) as [recent| |]; cbn [mbind outcome_bind]; [|done..].
  destruct (consecutiveWindows + 1 <=? Z.of_nat (length recent)); [by intros [= _ <-]|].
  destruct (1 <=? Z.of_nat (length recent)); by intros [= _ <-].
Qed.

(** *** What the collector reports *)

Section Collected.
Context `{MI : MapIter} `{EP : EvictionPolicy P}.

Definition valid_provider (p : Provider) : Prop := F64.valid (smoothedMemGrowth p) /\ F64.valid (lastMemRatio p).

Definition valid_snapshot (snap : option SystemSnapshot) : Prop :=
  match snap with Some sn => match s_Memory sn with Some u => F64.valid u | None => True end | None => True end.

#[local] Hint Resolve Seconds_valid : f64.

Lemma mem_growth_valid now r p g r' t : valid_provider p -> F64.valid r -> mem_growth now r p = (g, r', t) ->
  F64.valid g /\ F64.valid r'.
Proof.
  intros [H1 H2] Hr. unfold mem_growth. destruct (memRatioInitialized p); [|by intros [= <- <- _]].
  destruct (_ && _); intros [= <- <- _]; auto with f64.
Qed.

Lemma GetLatestStats_valid now snap (c : Cache P) p stats p' :
  valid_provider p -> valid_snapshot snap -> GetLatestStats now snap c p ⇓ (stats, p') ->
  valid_stats stats /\ valid_provider p' /\ RehashActive stats = IsRehashing (rehasher c) /\ MigrationActive stats = migrationActive p.
Proof.
  intros Hp Hsn. unfold GetLatestStats. cbv zeta. destruct (Len now c) as [n| |]; cbn [mbind outcome_bind]; [|done..].
  set (dt := if F64.leb _ _ then _ else _). assert (F64.valid dt) as Hdt by (unfold dt; auto with f64).
  set (mem := match snap with Some sn => s_Memory sn | None => None end).
  assert (match mem with Some u => F64.valid u | None => True end) as Hmem by (by destruct snap).
  destruct (match mem with Some u => mem_growth now _ p | None => _ end) as [[g r] t] eqn:Hg.
  assert (F64.valid g /\ F64.valid r) as [Hgv Hrv].
  { destruct mem as [u|]; [|injection Hg as <- <- _; exact Hp]. apply (mem_growth_valid _ _ _ _ _ _ Hp) in Hg; [done|]. auto with f64. }
  destruct (match p_pid p with Some pid => _ | None => _ end) as [dev pid]. intros [= <- <-].
  split_and!; [|by split|done|done]. split; cbn; auto with f64. by destruct mem.
Qed.

(** C29 (safety): a migration is not decided while one is under way.  When the cache is
    rehashing or the executor has signalled a migration, the features the collector
    gathers make the scorecard return EVICT, whatever the windows before, the counters,
    the samples of the system and the weights are; the score stays in [0, 1] or is no
    number. *)
Theorem no_migration_while_migrating now snap (c : Cache P) p stats p' m weights :
  valid_provider p -> valid_snapshot snap -> valid_weights weights ->
  GetLatestStats now snap c p ⇓ (stats, p') -> IsRehashing (rehasher c) || migrationActive p = true ->
  exists s, Decide stats m weights ⇓ (DecisionEvict, s) /\ (F64.is_nan s = true \/ within F64.zero F64.one s).
Proof.
  intros Hp Hsn Hw Hget Ha. destruct (GetLatestStats_valid _ _ _ _ _ _ Hp Hsn Hget) as (Hs & _ & Hr & Hm).
  rewrite <-Hr, <-Hm in Ha. exists (damped stats (weighted stats weights (bufferPenalty stats))).
  assert (score_range (weighted stats weights (bufferPenalty stats))) as Hraw
    by (apply weighted_range; [done|done|by apply bufferPenalty_range]).
  split; [|apply damped_range; done]. unfold Decide. cbv zeta. by rewrite damped_low.
Qed.

End Collected.

(** The PID controller's output: zero without elapsed time; otherwise not a number or
    between the bounds; and a clamped output leaves a finite integral. *)
Lemma pid_output_clamped measured dt p out p' :
  F64.leb (outputMin p) (outputMax p) = true -> Compute_ measured dt p = (out, p') ->
  if F64.leb dt F64.zero then out = F64.zero /\ p' = p
  else
    prevError p' = F64.sub (setpoint p) measured /\
    (F64.is_nan out = true \/ within (outputMin p) (outputMax p) out) /\
    (integral p' = F64.add (integral p) (F64.mul (F64.sub (setpoint p) measured) dt) \/
     (out = outputMax p \/ out = outputMin p) /\ F64.is_inf (integral p') = false /\ F64.is_nan (integral p') = false).
Proof.
  intros Hb. unfold Compute_. destruct (F64.leb dt F64.zero); [by intros [= <- <-]|]. cbv zeta.
  set (o := F64.add (F64.add _ _) _). destruct (leb_not_nan _ _ Hb) as [Hmin Hmax].
  assert (forall out a b, F64.is_inf (back_integral p out a b) = false /\ F64.is_nan (back_integral p out a b) = false) as Hback.
  { intros out0 a b. unfold back_integral. set (i := F64.div _ _). by destruct (F64.is_inf i) eqn:Hi, (F64.is_nan i) eqn:Hn. }
  assert (forall x, F64.is_nan x = false -> F64.leb x x = true) as Hrefl.
  { intros x Hx. destruct (F64.leb x x) eqn:Hl; [done|]. by rewrite (not_leb x x Hx Hx Hl) in Hl. }
  destruct (F64.ltb (outputMax p) o) eqn:H1.
  { intros [= <- <-]. split_and!; [done|right; split; [done|by apply Hrefl]|right; split; [by left|apply Hback]]. }
  destruct (F64.ltb o (outputMin p)) eqn:H2.
  { intros [= <- <-]. split_and!; [done|right; split; [by apply Hrefl|done]|right; split; [by right|apply Hback]]. }
  intros [= <- <-]. cbn [prevError integral]. split_and!; [done| |by left].
  destruct (F64.is_nan o) eqn:Ho; [by left|right]. split; by apply not_ltb.
Qed.

(** ** A busy system *)

Definition hot_stats (active : bool) : WindowStats :=
  mkStats (pc 70) (pc 10) (int 900) (pc 50) (int 200) F64.zero (pc 90) F64.one F64.zero F64.zero F64.zero
    active F64.zero false F64.zero F64.zero F64.zero 3 PolicyLRU F64.zero.

Lemma hot_valid active : valid_stats (hot_stats active).
Proof. split; cbn; constant. Qed.

Lemma scores_in_range_witness : within minus_one F64.zero (bufferPenalty (hot_stats false)).
Proof. apply (scores_in_range (hot_stats false) (hot_valid false)). Defined.

#[local] Existing Instance trie_order.

(** A cache in the middle of a resize. *)
Definition resizing_cache : Cache Policies.policy := (Resize 4 (demo_cache 2 0)).2.
Definition demo_provider : Provider := NewDefaultStatsProvider 0 (Some (NewPIDController DefaultPIDConfig)).
(** A sample with a use of the processor, of memory, and the rates of one device. *)
Definition sampled (cpu : Z) (mem : option Z) (io : option (Z * Z)) : SystemSnapshot :=
  mkSnapshot 0 (Some (mkCPU (int cpu) 4 F64.zero F64.zero F64.zero)) ((fun u => mkMemory 100 u (100 - u) (int u)) <$> mem)
    (option_list ((fun '(r, w) => mkIO "sda" 0 0 0 0 (int r) (int w)) <$> io)) [].

Definition demo_snapshot : option SystemSnapshot := Some (sampled 50 (Some 70) (Some (5, 6))).

Lemma demo_collected : exists r, GetLatestStats 1000000000 demo_snapshot resizing_cache demo_provider ⇓ r.
Proof. eexists. vm_compute. reflexivity. Qed.

Lemma no_migration_while_migrating_witness :
  exists stats s, Decide stats (NewFeatureMatrix 60) DefaultWeights ⇓ (DecisionEvict, s).
Proof.
  destruct demo_collected as [[stats p'] Hget]. exists stats.
  destruct (no_migration_while_migrating 1000000000 demo_snapshot resizing_cache demo_provider stats p' (NewFeatureMatrix 60) DefaultWeights) as (s & H & _).
  - split; reflexivity.
  - apply of_Z_valid.
  - split; apply lit_valid.
  - exact Hget.
  - reflexivity.
  - by exists s.
Defined.
