(* ===== verification/MbrSpec.v ===== *)
(** * The decision engine: windows, decisions and migrations

    The ring buffer holds the last windows; a decision to migrate needs three of them in
    a row; the loop reports changes only; and the executor's migration ends. *)

From Stdlib Require Import ZArith Lia Strings.String Floats.SpecFloat.
From stdpp Require Import base tactics numbers list gmap sets fin_maps strings.
From S2P Require Import Prelude.
From S2P Require Import Policy.
From S2P Require Import Policies.
From S2P Require Import Hashing.
From S2P Require Import Shard.
From S2P Require Import Rehash.
From S2P Require Import Cache.
From S2P Require Import CacheSpec.
From S2P Require Import Float64.
From S2P Require Import Monitor.
From S2P Require Import Ring.
From S2P Require Import Mbr.
From S2P Require Import MbrScore.

Open Scope Z_scope.

(** ** The ring buffer *)

Fixpoint push_all (h : list WindowStats) (m : FeatureMatrix) : outcome FeatureMatrix :=
  match h with [] => Ret m | w :: h => m ← Push w m; push_all h m end.

(** The buffer after the pushes of [h]. *)
Record ring (m : FeatureMatrix) (h : list WindowStats) : Prop := {
  ri_buffer : ring_buffer (m_buf m) (m_head m) (m_capacity m) h;
  ri_size : m_size m = Z.of_nat (length (m_buf m));
}.

Lemma ring_new cap : ring (NewFeatureMatrix cap) [].
Proof. unfold NewFeatureMatrix. split; [|done]. apply ring_buffer_empty. cbn. destruct (Z.ltb_spec cap 1); lia. Qed.

Lemma buf_at_nonneg m i : 0 <= i -> buf_at m i = deref (m_buf m !! Z.to_nat i).
Proof. intros Hi. unfold buf_at. by destruct (Z.ltb_spec i 0); [lia|]. Qed.

Lemma ring_push m h w : ring m h -> exists m', Push w m ⇓ m' /\ ring m' (h ++ [w]) /\ m_capacity m' = m_capacity m.
Proof.
  intros [Hr Hs]. pose proof Hr as [Hc Hl Hh _ _]. unfold Push. destruct (Z.ltb_spec (m_size m) (m_capacity m)) as [Hlt|Hge].
  - eexists. split; [reflexivity|]. split; [|done]. split; cbn; [|rewrite length_app; cbn; lia].
    apply ring_buffer_append; [done|lia].
  - rewrite buf_at_nonneg by lia. destruct (lookup_lt_is_Some_2 (m_buf m) (Z.to_nat (m_head m)) ltac:(lia)) as [y ->].
    eexists. split; [reflexivity|]. split; [|done]. split; cbn; [|by rewrite length_insert].
    apply ring_buffer_overwrite; [done|lia].
Qed.

Lemma ring_push_all h m h0 : ring m h0 -> exists m', push_all h m ⇓ m' /\ ring m' (h0 ++ h) /\ m_capacity m' = m_capacity m.
Proof.
  revert m h0. induction h as [|w h IH]; intros m h0 Hr; cbn [push_all]; [exists m; by rewrite app_nil_r|].
  destruct (ring_push m h0 w Hr) as (m1 & -> & Hr1 & Hc1). destruct (IH m1 _ Hr1) as (m2 & H2 & Hr2 & Hc2).
  exists m2. rewrite <-app_assoc in Hr2. split_and!; [done|done|congruence].
Qed.

(** Reads go around the buffer. *)
Lemma read_from_spec m h start i n : ring m h -> m_size m = m_capacity m -> 0 <= start -> 0 <= i ->
  start + i + Z.of_nat n <= m_capacity m ->
  read_from m (m_head m + start) i n ⇓ take n (drop (Z.to_nat (start + i)) (recent (Z.to_nat (m_capacity m)) h)).
Proof.
  intros [Hr Hsz] Hfull Hs. pose proof Hr as [Hc Hl Hh _ _]. revert i.
  induction n as [|n IH]; intros i Hi Hn; cbn [read_from]; [by rewrite take_0|].
  rewrite <-Z.add_assoc, buf_at_nonneg by (rewrite Z.rem_mod_nonneg by lia; apply Z.mod_pos_bound; lia).
  rewrite (ring_buffer_lookup _ _ _ h) by (done || lia).
  destruct (lookup_lt_is_Some_2 (recent (Z.to_nat (m_capacity m)) h) (Z.to_nat (start + i))) as [w Hw]; [rewrite length_recent; lia|].
  rewrite Hw, (drop_S _ _ _ Hw).
  cbn [deref mbind outcome_bind take]. rewrite IH by lia. cbn. do 3 f_equal. f_equal. lia.
Qed.

Lemma read_from_rem m a i n : 0 < m_capacity m -> 0 <= a -> 0 <= i -> read_from m (Z.rem a (m_capacity m)) i n = read_from m a i n.
Proof.
  intros Hc Ha. revert i. induction n as [|n IH]; intros i Hi; cbn [read_from]; [done|]. rewrite IH by lia.
  rewrite (Z.rem_mod_nonneg a) by lia. pose proof (Z.mod_pos_bound a (m_capacity m) Hc).
  rewrite !Z.rem_mod_nonneg by lia. by rewrite Z.add_mod_idemp_l by lia.
Qed.

Lemma GetRecent_ring m h n : ring m h -> 0 <= n -> GetRecent n m ⇓ recent (Nat.min (Z.to_nat n) (Z.to_nat (m_capacity m))) h.
Proof.
  intros Hr Hn. pose proof Hr as [Hb Hs]. pose proof Hb as [Hc Hl Hh _ _]. unfold GetRecent. destruct (Z.eqb_spec (m_size m) 0) as [H0|H0].
  { assert (h = []) as -> by (apply nil_length_inv; lia). by rewrite recent_all by (cbn; lia). }
  set (k := if n >? m_size m then m_size m else n). assert (0 <= k /\ k = Z.min n (m_size m)) as [Hk Hkn] by (unfold k; destruct (Z.gtb_spec n (m_size m)); lia).
  destruct (Z.ltb_spec k 0); [lia|]. destruct (Z.ltb_spec (m_size m) (m_capacity m)) as [Hlt|Hge].
  - rewrite (ring_buffer_filling _ _ _ _ Hb) in * by lia. f_equal. unfold recent. f_equal. lia.
  - assert (m_size m = m_capacity m) as Hfull by lia. rewrite read_from_rem by lia.
    replace (m_head m - k + m_capacity m) with (m_head m + (m_capacity m - k)) by lia.
    rewrite (read_from_spec m h) by (done || lia). f_equal. unfold recent at 1. rewrite drop_drop.
    rewrite take_ge by (rewrite length_drop; lia). unfold recent. f_equal. lia.
Qed.

Lemma Last_ring m h : ring m h -> Last m ⇓ last h.
Proof.
  intros [Hb Hs]. pose proof Hb as [Hc Hl Hh _ _]. unfold Last. destruct (Z.eqb_spec (m_size m) 0) as [H0|H0].
  { assert (h = []) as -> by (apply nil_length_inv; lia). done. }
  destruct (last h) as [w|] eqn:Hw; [|apply last_None in Hw as ->; cbn in Hl; lia].
  destruct (Z.ltb_spec (m_size m) (m_capacity m)) as [Hlt|Hge]; rewrite buf_at_nonneg.
  - rewrite last_lookup in Hw. rewrite (ring_buffer_filling _ _ _ _ Hb) in * by lia.
    replace (Z.to_nat (m_size m - 1)) with (pred (length h)) by lia. by rewrite Hw.
  - lia.
  - replace (m_head m - 1 + m_capacity m) with (m_head m + (m_capacity m - 1)) by lia.
    rewrite (ring_buffer_lookup _ _ _ h) by (done || lia). rewrite <-(recent_last (Z.to_nat (m_capacity m))), last_lookup in Hw by lia.
    rewrite length_recent in Hw. replace (Z.to_nat (m_capacity m - 1)) with (pred (Nat.min (Z.to_nat (m_capacity m)) (length h))) by lia. by rewrite Hw.
  - rewrite Z.rem_mod_nonneg by lia. apply Z.mod_pos_bound. lia.
Qed.

(** C31 (refinement): the ring buffer is the list of the last windows.  After pushing any
    windows into a new buffer, [Len], [Last] and [GetRecent] return what the list of all
    pushed windows, cut to its last [capacity] elements, gives: the number of windows,
    the last one, and the last [n] in order of time. *)
Theorem matrix_is_recent cap h n :
  0 <= n ->
  let C := Z.to_nat (m_capacity (NewFeatureMatrix cap)) in
  exists m, push_all h (NewFeatureMatrix cap) ⇓ m /\
    MatrixLen m = Z.of_nat (length (recent C h)) /\
    GetRecent n m ⇓ recent (Z.to_nat n) (recent C h) /\
    Last m ⇓ last h.
Proof.
  intros Hn C. destruct (ring_push_all h _ [] (ring_new cap)) as (m & Hm & Hr & Hcap). cbn [app] in Hr. exists m.
  split; [done|]. pose proof Hr as [[_ Hl _ _ _] Hs]. split_and!.
  - unfold MatrixLen. rewrite length_recent, Hs, Hl, Hcap. unfold C. lia.
  - rewrite (GetRecent_ring m h) by done. f_equal. rewrite Hcap. fold C. destruct (decide (Z.to_nat n <= C)%nat).
    + by rewrite recent_recent, Nat.min_l.
    + rewrite Nat.min_r by lia. symmetry. apply recent_all. rewrite length_recent. lia.
  - by apply Last_ring.
Qed.

(** ** Decisions *)

(** The score the scorecard gives the present window. *)
Definition present_score (stats : WindowStats) (weights : ScoreWeights) : float :=
  damped stats (weighted stats weights (bufferPenalty stats)).

Lemma decide_migrate stats m h weights s : ring m h -> Decide stats m weights ⇓ (DecisionMigrate, s) ->
  s = present_score stats weights /\ F64.ltb migrateThreshold s = true /\
  let r := recent (Nat.min 3 (Z.to_nat (m_capacity m))) h in
  ((3 <= length r)%nat -> Forall (fun w => F64.leb (recomputeScore w weights) migrateThreshold = false) (take 2 r)) /\
  ((length r < 3)%nat -> F64.ltb (pc 65) s = true).
Proof.
  intros Hr. unfold Decide. fold (present_score stats weights). cbv zeta.
  destruct (F64.ltb migrateThreshold (present_score stats weights)) eqn:Ht; [|done].
  rewrite (GetRecent_ring m h) by done. cbn [mbind outcome_bind]. change (Z.to_nat (consecutiveWindows + 1)) with 3%nat.
  change (consecutiveWindows + 1) with 3. change (Z.to_nat consecutiveWindows) with 2%nat. set (r := recent _ h).
  destruct (Z.leb_spec 3 (Z.of_nat (length r))) as [H3|H3].
  - destruct (forallb _ (take 2 r)) eqn:Hall; [|done]. intros [= <-]. split_and!; [done|done| |lia]. intros _.
    apply Forall_forall. intros w Hw. rewrite forallb_forall in Hall. apply negb_true_iff, Hall. by apply list_elem_of_In.
  - destruct (Z.leb_spec 1 (Z.of_nat (length r))); [|done]. destruct (F64.ltb (pc 65) (present_score stats weights)) eqn:H65; [|done].
    intros [= <-]. split_and!; [done|done|lia|done].
Qed.

Lemma Decide_returns stats m h weights : ring m h -> exists d s, Decide stats m weights ⇓ (d, s).
Proof.
  intros Hr. unfold Decide. cbv zeta. destruct (F64.ltb _ _); [|eauto]. rewrite (GetRecent_ring m h) by done.
  cbn [mbind outcome_bind]. repeat case_match; eauto.
Qed.

(** The decision at every tick, reported or not. *)
Fixpoint decisions (weights : ScoreWeights) (ticks : list decision_tick) (m : FeatureMatrix) : outcome (list Decision) :=
  match ticks with
  | [] => Ret []
  | t :: ticks =>
      m ← Push (tk_stats t) m;
      '(d, _) ← Decide (tk_stats t) m weights;
      ds ← decisions weights ticks m;
      mret (d :: ds)
  end.

(** The decisions that differ from the one before. *)
Fixpoint changes (prev : option Decision) (ds : list Decision) : list Decision :=
  match ds with
  | [] => []
  | d :: ds => if decide (prev = Some d) then changes prev ds else d :: changes (Some d) ds
  end.

(** What makes the present window [t], after the windows [h], a reason to migrate. *)
Definition confirmed (weights : ScoreWeights) (capacity : Z) (h : list WindowStats) (t : WindowStats) : Prop :=
  F64.ltb migrateThreshold (present_score t weights) = true /\
  let r := recent (Nat.min 3 (Z.to_nat capacity)) (h ++ [t]) in
  ((3 <= length r)%nat -> Forall (fun w => F64.leb (recomputeScore w weights) migrateThreshold = false) (take 2 r)) /\
  ((length r < 3)%nat -> F64.ltb (pc 65) (present_score t weights) = true).

(** An event stems from a tick, and one that calls for a migration is confirmed. *)
Definition justified (weights : ScoreWeights) (capacity : Z) (h : list WindowStats) (ticks : list decision_tick) (ev : DecisionEvent) : Prop :=
  exists pre t post, ticks = pre ++ t :: post /\ ev_Stats ev = tk_stats t /\ ev_Timestamp ev = tk_now t /\
    (ev_Decision ev = DecisionMigrate -> confirmed weights capacity (h ++ (tk_stats <$> pre)) (tk_stats t)).

Lemma justified_later weights cap h t ticks ev : justified weights cap (h ++ [tk_stats t]) ticks ev -> justified weights cap h (t :: ticks) ev.
Proof.
  intros (pre & t' & post & -> & H1 & H2 & H3). exists (t :: pre), t', post. split_and!; [done|done|done|].
  intros Hd. specialize (H3 Hd). by rewrite <-app_assoc in H3.
Qed.

Lemma loop_spec weights ticks m h prev : ring m h ->
  exists evs m' ds, decision_loop weights ticks m prev ⇓ (evs, m') /\ decisions weights ticks m ⇓ ds /\
    changes prev (ev_Decision <$> evs) = ev_Decision <$> evs /\
    (Forall (fun t => tk_room t = true) ticks -> ev_Decision <$> evs = changes prev ds) /\
    Forall (justified weights (m_capacity m) h ticks) evs.
Proof.
  revert m h prev. induction ticks as [|t ticks IH]; intros m h prev Hr; cbn [decision_loop decisions].
  { by exists [], m, []. }
  unfold decide_step. destruct (ring_push m h (tk_stats t) Hr) as (m1 & -> & Hr1 & Hc1). cbn [mbind outcome_bind].
  destruct (Decide_returns (tk_stats t) m1 _ weights Hr1) as (d & s & Hd). rewrite Hd. cbn [mbind outcome_bind mret outcome_ret].
  set (send := bool_decide (prev <> Some d) && tk_room t).
  destruct (IH m1 _ (if send then Some d else prev) Hr1) as (evs & m' & ds & Hrun & Hds & Hch & Hroom & Hj). rewrite Hc1 in Hj.
  rewrite Hds. cbn [mbind outcome_bind]. assert (Forall (justified weights (m_capacity m) h (t :: ticks)) evs) as Hj'
    by (eapply Forall_impl; [exact Hj|]; intros ev; apply justified_later).
  destruct send eqn:Hsend; subst send; rewrite Hrun; cbn [mbind outcome_bind].
  - apply andb_true_iff in Hsend as [Hne%bool_decide_eq_true Hrm].
    exists (mkEvent d s (tk_now t) (tk_stats t) :: evs), m', (d :: ds). split; [reflexivity|]. split; [reflexivity|]. rewrite fmap_cons. cbn [changes ev_Decision]. rewrite !decide_False by done. split_and!; [by rewrite Hch| |].
    + intros [_ Hall]%Forall_cons. by rewrite Hroom.
    + constructor; [|done]. exists [], t, ticks. split_and!; try done. cbn. rewrite app_nil_r. intros ->.
      destruct (decide_migrate _ _ _ _ _ Hr1 Hd) as (-> & H1 & H2). by rewrite Hc1 in H2.
  - exists evs, m', (d :: ds). split; [reflexivity|]. split; [reflexivity|]. cbn [changes]. split_and!; [done| |done].
    intros [Hrm Hall]%Forall_cons. rewrite Hrm, andb_true_r in Hsend. apply bool_decide_eq_false, dec_stable in Hsend.
    by rewrite Hroom, decide_True.
Qed.

(** The decision loop reports changes.  With a positive interval, over any windows and
    with any state of the channel, the loop does not panic; no two events in a row carry the same
    decision; and as long as the channel has room the events are exactly the changes of
    the scorecard's decision. *)
Theorem decision_events_are_changes opts ticks cap :
  0 < l_interval (loop_config opts) ->
  exists evs m ds, RunDecisionLoop opts ticks (NewFeatureMatrix cap) ⇓ (evs, m) /\
    decisions (l_weights (loop_config opts)) ticks (NewFeatureMatrix cap) ⇓ ds /\
    changes None (ev_Decision <$> evs) = ev_Decision <$> evs /\
    (Forall (fun t => tk_room t = true) ticks -> ev_Decision <$> evs = changes None ds).
Proof.
  intros Hi. unfold RunDecisionLoop. rewrite NewTicker_ok by done. cbn [mbind outcome_bind].
  destruct (loop_spec (l_weights (loop_config opts)) ticks _ [] None (ring_new cap)) as (evs & m & ds & H1 & H2 & H3 & H4 & _). eauto 8.
Qed.

(** A migration is confirmed.  Every event of the loop that calls for a
    migration belongs to a window whose score is above the threshold; with two windows
    or more before it (and a buffer for three) the scores of these two were not at or
    below the threshold either, and without them its own score is above 0.65. *)
Theorem migration_needs_confirmation opts ticks cap evs m ev :
  RunDecisionLoop opts ticks (NewFeatureMatrix cap) ⇓ (evs, m) -> ev ∈ evs -> ev_Decision ev = DecisionMigrate ->
  exists pre t post, ticks = pre ++ t :: post /\ ev_Stats ev = tk_stats t /\
    confirmed (l_weights (loop_config opts)) (m_capacity (NewFeatureMatrix cap)) (tk_stats <$> pre) (tk_stats t).
Proof.
  unfold RunDecisionLoop. cbv zeta. destruct (NewTicker _); [|done|done]. cbn [mbind outcome_bind].
  intros Hrun Hin Hd. destruct (loop_spec (l_weights (loop_config opts)) ticks _ [] None (ring_new cap)) as (evs' & m' & ds & H1 & _ & _ & _ & Hj).
  rewrite Hrun in H1. injection H1 as <- <-. rewrite Forall_forall in Hj. destruct (Hj ev Hin) as (pre & t & post & -> & Hs & _ & Hc).
  exists pre, t, post. split_and!; [done|done|]. by apply Hc.
Qed.

(** ** Targets *)






(** ** Migrations *)

Section Migration.
Context `{MI : MapIter} `{EP : EvictionPolicy P} `{PL : !PolicyLaws P}.
Notation World := (World (P := P)).
Notation rehashing w := (IsRehashing (rehasher (w_cache w))).
Notation left w := (todo (rehasher (w_cache w))).









End Migration.

(** ** A run *)

#[local] Existing Instance trie_order.

Definition window (n : Z) : WindowStats :=
  mkStats F64.zero F64.zero (int n) F64.zero F64.zero F64.zero F64.zero F64.zero F64.zero F64.zero F64.zero
    false F64.zero false F64.zero F64.zero F64.zero 0 PolicyNoop F64.zero.

Lemma matrix_is_recent_witness :
  exists m, push_all [window 1; window 2; window 3] (NewFeatureMatrix 2) ⇓ m /\
    MatrixLen m = 2 /\ GetRecent 5 m ⇓ [window 2; window 3] /\ Last m ⇓ Some (window 3).
Proof. apply (matrix_is_recent 2 [window 1; window 2; window 3] 5). discriminate. Defined.

(** Cache misses, new keys and evictions, three windows long. *)
Definition busy : WindowStats :=
  mkStats (pc 70) (pc 10) (int 900) (pc 50) (int 200) F64.zero (pc 90) F64.one F64.zero F64.zero F64.zero
    false F64.zero false F64.zero F64.zero F64.zero 0 PolicyLRU F64.zero.
Definition quiet : WindowStats :=
  mkStats (pc 70) F64.zero F64.zero F64.one F64.zero F64.zero F64.zero F64.one F64.zero F64.zero F64.zero
    false F64.zero false F64.zero F64.zero F64.zero 0 PolicyLRU F64.zero.
Definition busy_ticks : list decision_tick :=
  [mkTick quiet 1 true; mkTick quiet 2 true; mkTick busy 3 true; mkTick busy 4 true; mkTick busy 5 true].

Definition events_of (o : outcome (list DecisionEvent * FeatureMatrix)) : list DecisionEvent := match o with Ret (l, _) => l | _ => [] end.
Definition busy_events : list DecisionEvent := events_of (RunDecisionLoop [] busy_ticks (NewFeatureMatrix 60)).

Lemma busy_run : exists m, RunDecisionLoop [] busy_ticks (NewFeatureMatrix 60) ⇓ (busy_events, m).
Proof.
  unfold busy_events, RunDecisionLoop. cbn [loop_config foldl defaultLoopConfig l_weights l_interval NewTicker mbind outcome_bind]. destruct (loop_spec DefaultWeights busy_ticks _ [] None (ring_new 60)) as (evs & m & _ & H & _).
  rewrite H. by exists m.
Qed.

Lemma busy_decisions : (fun ev => (ev_Decision ev, ev_Timestamp ev)) <$> busy_events = [(DecisionEvict, 1); (DecisionMigrate, 5)].
Proof. vm_compute. reflexivity. Qed.

Lemma busy_migrates : exists ev, ev ∈ busy_events /\ ev_Decision ev = DecisionMigrate.
Proof.
  pose proof busy_decisions as H. destruct busy_events as [|e [|ev [|]]]; try done. injection H as _ _ Hd _. exists ev. split; [set_solver|done].
Qed.

Lemma migration_needs_confirmation_witness :
  exists pre t post, busy_ticks = pre ++ t :: post /\ confirmed DefaultWeights 60 (tk_stats <$> pre) (tk_stats t).
Proof.
  destruct busy_run as [m Hrun]. destruct busy_migrates as (ev & Hin & Hd).
  destruct (migration_needs_confirmation [] busy_ticks 60 busy_events m ev Hrun) as (pre & t & post & H1 & _ & H2).
  - exact Hin.
  - exact Hd.
  - exists pre, t, post. split; [exact H1|exact H2].
Defined.




