(* ===== verification/Infra.v ===== *)
(** * Observers of the cache (observer.go, infra/)

    The cache reports what it does to an observer.  Several observers can be joined to one; the
    observer of infra/ passes the events on to a log, to counters of Prometheus and to batches of
    events for an analytics service.  Beside it, a registry of heartbeats and an alerter watch over
    components.

    The clock and the memory statistics are arguments.  Prometheus is a third-party package:
    counters and registries are classes.  A log keeps the entries it was given; JSON and the
    writer are left out. *)

From Stdlib Require Import Strings.String.
From stdpp Require Import base tactics numbers list gmap sets fin_maps strings.
From S2P Require Import Prelude.
From S2P Require Import Cache.

Open Scope string_scope.
Open Scope list_scope.
Open Scope Z_scope.

(** The observer interface: what an observer [Ob] does when it is called, at a given time, in the
    world [W]. *)
Class CacheObserver (Ob W : Type) := notify : Z -> event -> Ob -> W -> W.

(** ** Joined observers (observer.go) *)

(** Observers that are no joined ones are objects with a name [Ob]. *)
Inductive Observer (Ob : Type) : Type :=
| noopObserver
| MultiObserver (observers : list (Observer Ob))
| OtherObserver (o : Ob).
Arguments noopObserver {_}.
Arguments MultiObserver {_} _.
Arguments OtherObserver {_} _.

Fixpoint notify_observer `{CacheObserver Ob W} (now : Z) (e : event) (obs : Observer Ob) (w : W) : W :=
  match obs with
  | noopObserver => w
  | MultiObserver l => foldl (fun w obs => notify_observer now e obs w) w l
  | OtherObserver o => notify now e o w
  end.

(** A nil observer is [None]. *)
Fixpoint filtered {Ob} (observers : list (option (Observer Ob))) : list (Observer Ob) :=
  match observers with
  | [] => []
  | None :: l => filtered l
  | Some (MultiObserver mo) :: l => mo ++ filtered l
  | Some noopObserver :: l => filtered l
  | Some obs :: l => obs :: filtered l
  end.

Definition NewMultiObserver {Ob} (observers : list (option (Observer Ob))) : Observer Ob :=
  MultiObserver (filtered observers).

(** ** Logs (infra/logger.go) *)

(** The values of fields. *)
Inductive any : Type :=
| AStr (s : string)
| AInt (n : Z)
| ATime (t : Z).
#[global] Instance any_eq_dec : EqDecision any.
Proof. solve_decision. Defined.

Notation fields := (gmap string any).

Class Logger (L : Type) := {
  Debug : Z -> string -> fields -> L -> L;
  Info : Z -> string -> fields -> L -> L;
  Warn : Z -> string -> fields -> L -> L;
  Error : Z -> string -> fields -> L -> L;
}.

(** [maps.Copy(dst, src)]. *)
Definition maps_Copy (dst src : fields) : fields := src ∪ dst.

(** The entries encoded so far. *)
Record StdoutLogger : Type := mkStdout { encoded : list fields }.

Definition NewStdoutLogger : StdoutLogger := mkStdout [].

Definition log (now : Z) (level msg : string) (fs : fields) (l : StdoutLogger) : StdoutLogger :=
  let entry := {["ts" := ATime now; "level" := AStr level; "message" := AStr msg]} in
  mkStdout (encoded l ++ [maps_Copy entry fs]).

#[global] Instance stdout_logger : Logger StdoutLogger := {|
  Debug := fun now => log now "DEBUG";
  Info := fun now => log now "INFO";
  Warn := fun now => log now "WARN";
  Error := fun now => log now "ERROR";
|}.

(** ** Counters (infra/prometheus.go) *)

Record CounterOpts : Type := mkCounterOpts { Namespace : string; CounterName : string; Help : string }.

Class Counter (C : Type) := { NewCounter : CounterOpts -> C; Inc : C -> C }.

(** A counter starts at 0 and [Inc] adds 1 to it. *)
Class CounterLaws (C : Type) `{Counter C} := {
  Value : C -> Z;
  new_counter : forall o, Value (NewCounter o) = 0;
  inc_counter : forall c, Value (Inc c) = Value c + 1;
}.

(** [prometheus.Registerer]. *)
Class Registerer (R C : Type) := Register1 : C -> R -> option error * R.

Module Prom.

Record PrometheusExporter (C : Type) : Type := mkProm {
  hits : C; misses : C; sets : C; dels : C; evictions : C; rehashes : C;
}.
Arguments mkProm {_} _ _ _ _ _ _.
Arguments hits {_} _.
Arguments misses {_} _.
Arguments sets {_} _.
Arguments dels {_} _.
Arguments evictions {_} _.
Arguments rehashes {_} _.

Section Prom.
Context `{Counter C}.
Implicit Types (p : PrometheusExporter C).

Definition NewPrometheusExporter (namespace : string) : PrometheusExporter C :=
  let namespace := if decide (namespace = "") then "mcache" else namespace in
  mkProm
    (NewCounter (mkCounterOpts namespace "hits_total" "Total number of cache hits."))
    (NewCounter (mkCounterOpts namespace "misses_total" "Total number of cache misses."))
    (NewCounter (mkCounterOpts namespace "sets_total" "Total number of cache set operations."))
    (NewCounter (mkCounterOpts namespace "deletes_total" "Total number of cache delete operations."))
    (NewCounter (mkCounterOpts namespace "evictions_total" "Total number of cache evictions."))
    (NewCounter (mkCounterOpts namespace "rehashes_total" "Total number of rehash operations completed.")).

Fixpoint register_all `{Registerer R C} (cs : list C) (reg : R) : option error * R :=
  match cs with
  | [] => (None, reg)
  | c :: cs =>
      match Register1 c reg with
      | (Some err, reg) => (Some err, reg)
      | (None, reg) => register_all cs reg
      end
  end.

(** A nil registerer stands for the package's default one. *)
Definition Register `{Registerer R C} (DefaultRegisterer : R) (reg : option R) p : option error * R :=
  register_all [hits p; misses p; sets p; dels p; evictions p; rehashes p] (default DefaultRegisterer reg).

Definition OnHit (key : string) p : PrometheusExporter C :=
  mkProm (Inc (hits p)) (misses p) (sets p) (dels p) (evictions p) (rehashes p).
Definition OnMiss (key : string) p : PrometheusExporter C :=
  mkProm (hits p) (Inc (misses p)) (sets p) (dels p) (evictions p) (rehashes p).
Definition OnSet (key : string) p : PrometheusExporter C :=
  mkProm (hits p) (misses p) (Inc (sets p)) (dels p) (evictions p) (rehashes p).
Definition OnDel (key : string) p : PrometheusExporter C :=
  mkProm (hits p) (misses p) (sets p) (Inc (dels p)) (evictions p) (rehashes p).
Definition OnEvict (key : string) p : PrometheusExporter C :=
  mkProm (hits p) (misses p) (sets p) (dels p) (Inc (evictions p)) (rehashes p).
Definition OnRehashStart (oldShards newShards : Z) p : PrometheusExporter C := p.
Definition OnRehashDone p : PrometheusExporter C :=
  mkProm (hits p) (misses p) (sets p) (dels p) (evictions p) (Inc (rehashes p)).

End Prom.
End Prom.

(** ** Batches of events (infra/analytics.go) *)

Inductive EventType : Type := EventHit | EventMiss | EventSet | EventDel | EventEvict | EventRehash.

Record Event : Type := mkEvent { Type_ : EventType; Key : string; Timestamp : Z; Meta : option fields }.

Module Batch.

(** [flushFn] acts on the world [W]; [stopped] tells whether [stopCh] is closed. *)
Record BatchCollector (W : Type) : Type := mkBatch {
  buf : list Event;
  cap : Z;
  interval : Z;
  flushFn : option (list Event -> W -> option error * W);
  stopped : bool;
}.
Arguments mkBatch {_} _ _ _ _ _.
Arguments buf {_} _.
Arguments cap {_} _.
Arguments interval {_} _.
Arguments flushFn {_} _.
Arguments stopped {_} _.

Section Batch.
Context {W : Type}.
Implicit Types (bc : BatchCollector W).

Definition NewBatchCollector (capacity flushInterval : Z) (flushFn : option (list Event -> W -> option error * W)) :
    BatchCollector W :=
  mkBatch [] (if capacity <? 1 then 1000 else capacity)
    (if flushInterval <=? 0 then 5000000000 else flushInterval) flushFn false.

Definition with_buf (l : list Event) bc : BatchCollector W :=
  mkBatch l (cap bc) (interval bc) (flushFn bc) (stopped bc).

Definition Collect (e : Event) bc : BatchCollector W :=
  let l := if Z.of_nat (length (buf bc)) >=? cap bc then drop 1 (buf bc) else buf bc in
  with_buf (l ++ [e]) bc.

Definition Flush bc (w : W) : option error * BatchCollector W * W :=
  match buf bc with
  | [] => (None, bc, w)
  | batch =>
      let bc := with_buf [] bc in
      match flushFn bc with
      | Some f => let '(err, w) := f batch w in (err, bc, w)
      | None => (None, bc, w)
      end
  end.

(** A tick of the loop; after [Stop] the loop is gone. *)
Definition tick bc (w : W) : BatchCollector W * W :=
  if stopped bc then (bc, w) else let '(_, bc, w) := Flush bc w in (bc, w).

(** Closing the channel twice panics; the loop flushes once more and ends before [Stop] returns. *)
Definition Stop bc (w : W) : outcome (BatchCollector W * W) :=
  if stopped bc then Panic
  else
    let '(_, bc, w) := Flush bc w in
    mret (mkBatch (buf bc) (cap bc) (interval bc) (flushFn bc) true, w).

End Batch.
End Batch.

(** ** The observer of infra/ (infra/options.go, infra/observer.go) *)

Module Infra.

(** The flush function of the options acts on the world [W]; [o_logger] is a logger given by
    the caller. *)
Record Options (L W : Type) : Type := mkOptions {
  LoggerEnabled : bool;
  PrometheusEnabled : bool;
  AnalyticsEnabled : bool;
  o_logger : option L;
  AnalyticsBufferSize : Z;
  AnalyticsFlushInterval : Z;
  AnalyticsFlushFunc : option (list Event -> W -> option error * W);
}.
Arguments mkOptions {_ _} _ _ _ _ _ _ _.
Arguments LoggerEnabled {_ _} _.
Arguments PrometheusEnabled {_ _} _.
Arguments AnalyticsEnabled {_ _} _.
Arguments o_logger {_ _} _.
Arguments AnalyticsBufferSize {_ _} _.
Arguments AnalyticsFlushInterval {_ _} _.
Arguments AnalyticsFlushFunc {_ _} _.

(** A logger that is not given is a [StdoutLogger]. *)
Record Infra (L C W : Type) : Type := mkInfra {
  opts : Options L W;
  logger : option (L + StdoutLogger);
  prom : option (Prom.PrometheusExporter C);
  analytics : option (Batch.BatchCollector W);
}.
Arguments mkInfra {_ _ _} _ _ _ _.
Arguments opts {_ _ _} _.
Arguments logger {_ _ _} _.
Arguments prom {_ _ _} _.
Arguments analytics {_ _ _} _.

Section Infra.
Context `{Logger L} `{Counter C} {W : Type}.
Notation Options := (Options L W).
Notation Infra := (Infra L C W).
Implicit Types (o : Options) (inf : Infra).

Definition WithLogger (enabled : bool) o : Options :=
  mkOptions enabled (PrometheusEnabled o) (AnalyticsEnabled o) (o_logger o)
    (AnalyticsBufferSize o) (AnalyticsFlushInterval o) (AnalyticsFlushFunc o).
Definition WithLoggerInstance (l : option L) o : Options :=
  mkOptions true (PrometheusEnabled o) (AnalyticsEnabled o) l
    (AnalyticsBufferSize o) (AnalyticsFlushInterval o) (AnalyticsFlushFunc o).
Definition WithPrometheus (enabled : bool) o : Options :=
  mkOptions (LoggerEnabled o) enabled (AnalyticsEnabled o) (o_logger o)
    (AnalyticsBufferSize o) (AnalyticsFlushInterval o) (AnalyticsFlushFunc o).
Definition WithAnalytics (enabled : bool) o : Options :=
  mkOptions (LoggerEnabled o) (PrometheusEnabled o) enabled (o_logger o)
    (AnalyticsBufferSize o) (AnalyticsFlushInterval o) (AnalyticsFlushFunc o).
Definition WithAnalyticsBuffer (size : Z) o : Options :=
  mkOptions (LoggerEnabled o) (PrometheusEnabled o) (AnalyticsEnabled o) (o_logger o)
    size (AnalyticsFlushInterval o) (AnalyticsFlushFunc o).
Definition WithAnalyticsFlushInterval (d : Z) o : Options :=
  mkOptions (LoggerEnabled o) (PrometheusEnabled o) (AnalyticsEnabled o) (o_logger o)
    (AnalyticsBufferSize o) d (AnalyticsFlushFunc o).
Definition WithAnalyticsFlushFunc (fn : option (list Event -> W -> option error * W)) o : Options :=
  mkOptions (LoggerEnabled o) (PrometheusEnabled o) (AnalyticsEnabled o) (o_logger o)
    (AnalyticsBufferSize o) (AnalyticsFlushInterval o) fn.

Definition New (options : list (Options -> Options)) : Infra :=
  let o := foldl (fun o opt => opt o) (mkOptions false false false None 1000 5000000000 None) options in
  mkInfra o
    (if LoggerEnabled o then Some (match o_logger o with Some l => inl l | None => inr NewStdoutLogger end) else None)
    (if PrometheusEnabled o then Some (Prom.NewPrometheusExporter "") else None)
    (if AnalyticsEnabled o
     then Some (Batch.NewBatchCollector (AnalyticsBufferSize o) (AnalyticsFlushInterval o) (AnalyticsFlushFunc o))
     else None).

Definition RegisterPrometheus `{Registerer R C} (DefaultRegisterer : R) (reg : option R) inf : option error * R :=
  match prom inf with
  | None => (None, default DefaultRegisterer reg)
  | Some p => Prom.Register DefaultRegisterer reg p
  end.

Definition FlushAnalytics inf (w : W) : option error * Infra * W :=
  match analytics inf with
  | None => (None, inf, w)
  | Some bc =>
      let '(err, bc, w) := Batch.Flush bc w in
      (err, mkInfra (opts inf) (logger inf) (prom inf) (Some bc), w)
  end.

Definition Stop inf (w : W) : outcome (Infra * W) :=
  match analytics inf with
  | None => Ret (inf, w)
  | Some bc =>
      '(bc, w) ← Batch.Stop bc w;
      mret (mkInfra (opts inf) (logger inf) (prom inf) (Some bc), w)
  end.

(** [if inf.logger != nil { ... }] and so on. *)
Definition log_info (now : Z) (msg : string) (fs : fields) inf : Infra :=
  mkInfra (opts inf) (sum_map (Info now msg fs) (Info now msg fs) <$> logger inf) (prom inf) (analytics inf).
Definition log_warn (now : Z) (msg : string) (fs : fields) inf : Infra :=
  mkInfra (opts inf) (sum_map (Warn now msg fs) (Warn now msg fs) <$> logger inf) (prom inf) (analytics inf).
Definition to_prom (f : Prom.PrometheusExporter C -> Prom.PrometheusExporter C) inf : Infra :=
  mkInfra (opts inf) (logger inf) (f <$> prom inf) (analytics inf).
Definition collect (e : Event) inf : Infra :=
  mkInfra (opts inf) (logger inf) (prom inf) (Batch.Collect e <$> analytics inf).

Definition OnHit (now : Z) (key : string) inf : Infra :=
  let inf := log_info now "cache hit" {["key" := AStr key]} inf in
  let inf := to_prom (Prom.OnHit key) inf in
  collect (mkEvent EventHit key now None) inf.
Definition OnMiss (now : Z) (key : string) inf : Infra :=
  let inf := log_info now "cache miss" {["key" := AStr key]} inf in
  let inf := to_prom (Prom.OnMiss key) inf in
  collect (mkEvent EventMiss key now None) inf.
Definition OnSet (now : Z) (key : string) inf : Infra :=
  let inf := log_info now "cache set" {["key" := AStr key]} inf in
  let inf := to_prom (Prom.OnSet key) inf in
  collect (mkEvent EventSet key now None) inf.
Definition OnDel (now : Z) (key : string) inf : Infra :=
  let inf := log_info now "cache del" {["key" := AStr key]} inf in
  let inf := to_prom (Prom.OnDel key) inf in
  collect (mkEvent EventDel key now None) inf.
Definition OnEvict (now : Z) (key : string) inf : Infra :=
  let inf := log_warn now "cache evict" {["key" := AStr key]} inf in
  let inf := to_prom (Prom.OnEvict key) inf in
  collect (mkEvent EventEvict key now None) inf.
Definition OnRehashStart (now oldShards newShards : Z) inf : Infra :=
  let inf := log_info now "rehash start" {["old_shards" := AInt oldShards; "new_shards" := AInt newShards]} inf in
  to_prom (Prom.OnRehashStart oldShards newShards) inf.
Definition OnRehashDone (now : Z) inf : Infra :=
  let inf := log_info now "rehash done" ∅ inf in
  let inf := to_prom Prom.OnRehashDone inf in
  collect (mkEvent EventRehash "" now None) inf.

Definition on_event (now : Z) (e : event) inf : Infra :=
  match e with
  | Cache.OnHit key => OnHit now key inf
  | Cache.OnMiss key => OnMiss now key inf
  | Cache.OnSet key => OnSet now key inf
  | Cache.OnDel key => OnDel now key inf
  | Cache.OnEvict key => OnEvict now key inf
  | Cache.OnRehashStart old new => OnRehashStart now old new inf
  | Cache.OnRehashDone => OnRehashDone now inf
  end.

#[global] Instance infra_observer : CacheObserver unit Infra := fun now e _ inf => on_event now e inf.

End Infra.
End Infra.
