(* ===== verification/Alerter.v ===== *)
(** * Heartbeats and alerts (infra/heartbeat.go, infra/alerter.go)

    Components register with a timeout and report that they live; the alerter looks for the ones
    that have been silent for too long, and hands alerts to its handlers one after the other.
    The clock and the memory statistics are arguments; the loop of the alerter is a function for each case
    of its select statement. *)

From Stdlib Require Import Strings.String.
From stdpp Require Import base tactics numbers list gmap sets fin_maps strings.
From S2P Require Import Prelude.
From S2P Require Import Infra.

Open Scope string_scope.
Open Scope list_scope.
Open Scope Z_scope.

(** ** Heartbeats *)

Record HeartbeatRegistry : Type := mkRegistry { beats : gmap string Z; timeouts : gmap string Z }.

Section Registry.
Context `{MI : MapIter}.

Definition NewHeartbeatRegistry : HeartbeatRegistry := mkRegistry ∅ ∅.

Definition Register (now : Z) (id : string) (timeout : Z) (r : HeartbeatRegistry) : HeartbeatRegistry :=
  mkRegistry (<[id := now]> (beats r)) (<[id := timeout]> (timeouts r)).

Definition Unregister (id : string) (r : HeartbeatRegistry) : HeartbeatRegistry :=
  mkRegistry (delete id (beats r)) (delete id (timeouts r)).

Definition Beat (now : Z) (id : string) (r : HeartbeatRegistry) : HeartbeatRegistry :=
  mkRegistry (<[id := now]> (beats r)) (timeouts r).

Definition overdue (now : Z) (r : HeartbeatRegistry) (id : string) (timeout : Z) : bool :=
  match beats r !! id with
  | None => true
  | Some last => sat64 (now - last) >? timeout
  end.

Fixpoint expired_of (now : Z) (r : HeartbeatRegistry) (l : list (string * Z)) : list string :=
  match l with
  | [] => []
  | (id, timeout) :: l =>
      if overdue now r id timeout then id :: expired_of now r l else expired_of now r l
  end.

Definition Check (now : Z) (r : HeartbeatRegistry) : list string := expired_of now r (map_iter (timeouts r)).

Definition Stats (r : HeartbeatRegistry) : gmap string Z := beats r.

End Registry.

(** ** Alerts *)

Record Alert : Type := mkAlert {
  Level : string; Source : string; Message : string; At : Z; Metrics : fields;
}.

(** The handlers an alert goes to: what a handler named [H] does to the world [W]. *)
Class AlertHandler (H W : Type) := Handle : Z -> Alert -> H -> W -> W.

(** A handler that writes to a log, if it has one. *)
Record LogAlertHandler (L : Type) : Type := mkLogHandler { h_logger : option L }.
Arguments mkLogHandler {_} _.
Arguments h_logger {_} _.

Definition NewLogAlertHandler {L} (l : option L) : LogAlertHandler L := mkLogHandler l.

Definition log_Handle `{Logger L} (now : Z) (a : Alert) (h : LogAlertHandler L) : LogAlertHandler L :=
  match h_logger h with
  | None => h
  | Some l =>
      let fs := {["source" := AStr (Source a); "level" := AStr (Level a); "message" := AStr (Message a)]} in
      let fs := maps_Copy fs (Metrics a) in
      mkLogHandler (Some
        (if decide (Level a = "critical") then Error now "ALERT" fs l
         else if decide (Level a = "warn") then Warn now "ALERT" fs l
         else Info now "ALERT" fs l))
  end.

#[global] Instance log_alert_handler `{Logger L} : AlertHandler unit (LogAlertHandler L) :=
  fun now a _ h => log_Handle now a h.

(** [checkCount] is the loop's own; [stopped] tells whether [stopCh] is closed. *)
Record Alerter (H : Type) : Type := mkAlerter {
  a_registry : HeartbeatRegistry;
  checkInterval : Z;
  alertCh : list Alert;
  handlers : list H;
  yieldEvery : Z;
  checkCount : Z;
  stopped : bool;
}.
Arguments mkAlerter {_} _ _ _ _ _ _ _.
Arguments a_registry {_} _.
Arguments checkInterval {_} _.
Arguments alertCh {_} _.
Arguments handlers {_} _.
Arguments yieldEvery {_} _.
Arguments checkCount {_} _.
Arguments stopped {_} _.

(** The buffer of the channel of alerts. *)
Definition alert_capacity : nat := 128.

Section Alerter.
Context `{MI : MapIter} `{AH : AlertHandler H W}.
Notation Alerter := (Alerter H).
Implicit Types (a : Alerter).

Definition with_ch (q : list Alert) a : Alerter :=
  mkAlerter (a_registry a) (checkInterval a) q (handlers a) (yieldEvery a) (checkCount a) (stopped a).
Definition with_registry (r : HeartbeatRegistry) a : Alerter :=
  mkAlerter r (checkInterval a) (alertCh a) (handlers a) (yieldEvery a) (checkCount a) (stopped a).

Definition NewAlerter (registry : option HeartbeatRegistry) (checkInterval : Z) : Alerter :=
  mkAlerter (default NewHeartbeatRegistry registry)
    (if checkInterval <=? 0 then 30000000000 else checkInterval) [] [] 10 0 false.

Definition RegisterHandler (h : H) a : Alerter :=
  mkAlerter (a_registry a) (checkInterval a) (alertCh a) (handlers a ++ [h]) (yieldEvery a) (checkCount a) (stopped a).

(** Sending without blocking: an alert that finds the channel full is dropped. *)
Definition send_alert (alert : Alert) a : Alerter :=
  if decide (length (alertCh a) < alert_capacity)%nat then with_ch (alertCh a ++ [alert]) a else a.

Definition Alert_ (now : Z) (level source message : string) a : Alerter :=
  send_alert (mkAlert level source message now ∅) a.

Definition AlertWithMetrics (now : Z) (level source message : string) (metrics : fields) a : Alerter :=
  send_alert (mkAlert level source message now metrics) a.

(** One clock reading for the check and its alerts. *)
Definition checkHeartbeats (now : Z) a : Alerter :=
  foldl (fun a id => Alert_ now "critical" id "heartbeat timeout: component may be dead" a) a (Check now (a_registry a)).

(** [Sys] and [HeapSys] of the runtime's statistics, unsigned 64-bit numbers. *)
Definition emitSelfHeartbeat (now sys heapSys : Z) a : Alerter :=
  if sys >? 2 * 1024 * 1024 * 1024 then
    AlertWithMetrics now "warn" "alerter" "high memory pressure"
      {["sys_mb" := AInt (sys / 1024 / 1024); "heap_mb" := AInt (heapSys / 1024 / 1024)]} a
  else a.

Definition dispatch (now : Z) (alert : Alert) a (w : W) : W :=
  foldl (fun w h => Handle now alert h w) w (handlers a).

(** A tick of the loop. *)
Definition loop_tick (now sys heapSys : Z) a : Alerter :=
  let a := checkHeartbeats now a in
  let a := emitSelfHeartbeat now sys heapSys a in
  let n := checkCount a + 1 in
  mkAlerter (a_registry a) (checkInterval a) (alertCh a) (handlers a) (yieldEvery a)
    (if n >=? yieldEvery a then 0 else n) (stopped a).

(** The loop receives an alert, if there is one. *)
Definition loop_receive (now : Z) a (w : W) : Alerter * W :=
  match alertCh a with
  | [] => (a, w)
  | alert :: q => (with_ch q a, dispatch now alert a w)
  end.

(** Closing the channel twice panics; the loop ends. *)
Definition Stop a : outcome Alerter :=
  if stopped a then Panic
  else Ret (mkAlerter (a_registry a) (checkInterval a) (alertCh a) (handlers a) (yieldEvery a) (checkCount a) true).

End Alerter.
