(* ===== verification/InfraSpec.v ===== *)
(** * What the observers promise

    Joined observers hear every event once, the counters of Prometheus count what callers of the
    cache saw, the batches for analytics are the last events, and a silent component is reported. *)

From Stdlib Require Import Strings.String.
From stdpp Require Import base tactics numbers list gmap sets fin_maps strings.
From S2P Require Import Prelude.
From S2P Require Import Policy.
From S2P Require Import Policies.
From S2P Require Import Shard.
From S2P Require Import Rehash.
From S2P Require Import Cache.
From S2P Require Import CacheSpec.
From S2P Require Import Ring.
From S2P Require Import Infra.
From S2P Require Import Alerter.

Open Scope string_scope.
Open Scope list_scope.
Open Scope Z_scope.

(** ** Joined observers *)

Section Multi.
Context `{CO : CacheObserver Ob W}.

(** The observers behind an observer, in the order in which they are called. *)
Fixpoint behind (obs : Observer Ob) : list Ob :=
  match obs with
  | noopObserver => []
  | MultiObserver l => concat (behind <$> l)
  | OtherObserver o => [o]
  end.

Lemma notify_behind now e : forall obs w,
  notify_observer now e obs w = foldl (fun w o => notify now e o w) w (behind obs).
Proof.
  fix IH 1. intros [|l|o] w; [done| |done]. cbn [notify_observer behind]. revert w.
  induction l as [|obs l IHl]; intros w; [done|]. cbn [foldl fmap list_fmap concat]. by rewrite foldl_app, <-IH, IHl.
Qed.

Lemma behind_filtered observers :
  concat (behind <$> filtered observers) = concat ((fun o => default [] (behind <$> o)) <$> observers).
Proof.
  induction observers as [|[[|mo|o]|] l IH]; [done|done| |by rewrite !fmap_cons; cbn; f_equal|done].
  cbn [filtered fmap list_fmap concat]. rewrite fmap_app, concat_app, IH. done.
Qed.

End Multi.

(** The result of joining: every observer behind one of the arguments is called once, in order, and nothing else. *)
Lemma multi_observer_spec `{CO : CacheObserver Ob W} now e observers (w : W) :
  notify_observer now e (NewMultiObserver observers) w =
    foldl (fun w o => notify now e o w) w (concat ((fun o => default [] (behind <$> o)) <$> observers)).
Proof. rewrite notify_behind. cbn [NewMultiObserver behind]. by rewrite behind_filtered. Qed.

(** ** Counters *)

(** What a caller of the cache did. *)
Inductive fact : Type := AHit | AMiss | ASet | ADel.
#[global] Instance fact_eq_dec : EqDecision fact.
Proof. solve_decision. Defined.

(** What an event says of it. *)
Definition fact_of (e : event) : option fact :=
  match e with
  | Cache.OnHit _ => Some AHit
  | Cache.OnMiss _ => Some AMiss
  | Cache.OnSet _ => Some ASet
  | Cache.OnDel _ => Some ADel
  | _ => None
  end.

(** What the result of an operation says of it. *)
Definition facts_of_result (o : kv_op) (r : kv_result) : list fact :=
  match o, r with
  | KGet _, RVal (Ok _) => [AHit]
  | KGet _, RVal (Err ErrKeyNotFound) => [AMiss]
  | KSet _ _ _, RErr None => [ASet]
  | KDel _, RErr None => [ADel]
  | _, _ => []
  end.

Definition count (x : fact) (l : list fact) : Z := Z.of_nat (length (filter (fun y => y = x) l)).

Lemma count_app x l1 l2 : count x (l1 ++ l2) = count x l1 + count x l2.
Proof. unfold count. rewrite filter_app, length_app. lia. Qed.

(** Evaluates the counts of the goal. *)
Ltac count_up :=
  match goal with |- context [count ?x ?l] => let n := eval vm_compute in (count x l) in change (count x l) with n end.

Section Told.
Context `{MI : MapIter} `{EP : EvictionPolicy P} `{PL : !PolicyLaws P}.
Implicit Types (c : Cache P).

(** [c'] is [c] after the events [evs], which the observer was told. *)
Definition told (evs : list event) c c' : Prop :=
  trace c' = trace c ++ (pair (observer c) <$> evs) /\ observer c' = observer c.

Lemma told_nil c : told [] c c.
Proof. split; [by rewrite app_nil_r|done]. Qed.

Lemma told_app evs1 evs2 c1 c2 c3 : told evs1 c1 c2 -> told evs2 c2 c3 -> told (evs1 ++ evs2) c1 c3.
Proof.
  intros [Ht1 Ho1] [Ht2 Ho2]. split; [|congruence]. by rewrite Ht2, Ht1, Ho1, fmap_app, app_assoc.
Qed.

Lemma told_emit e c : told [e] c (emit e c).
Proof. done. Qed.

Lemma told_evicted evs c : told (Cache.OnEvict <$> evs) c (foldl (fun c ek => emit (Cache.OnEvict ek) c) c evs).
Proof.
  revert c. induction evs as [|k evs IH]; intros c; [apply told_nil|].
  apply (told_app [Cache.OnEvict k] _ _ (emit (Cache.OnEvict k) c)); [apply told_emit|apply IH].
Qed.

Lemma told_on_shard {A} key (f : shard P -> outcome (A * shard P)) c a c' :
  on_shard key f c ⇓ (a, c') -> told [] c c'.
Proof.
  unfold on_shard. destruct (getShard c key) as [s| |]; [|done..]. cbn. destruct (f s) as [[x s']| |]; [|done..].
  intros [= _ <-]. apply (told_nil c).
Qed.

Lemma told_do_step now c c' : do_step now c ⇓ c' -> exists evs, told evs c c' /\ omap fact_of evs = [].
Proof.
  unfold do_step. destruct (Step _ _ _ _) as [[[[b j] l] r]| |]; [|done..]. cbn. intros [= <-].
  destruct j; [exists [Cache.OnRehashDone]|exists []]; (split; [|done]); [done|]. apply (told_nil c).
Qed.

Lemma told_step_if now c c' : step_if_rehashing now c ⇓ c' -> exists evs, told evs c c' /\ omap fact_of evs = [].
Proof.
  unfold step_if_rehashing. destruct (IsRehashing _); [apply told_do_step|].
  intros [= <-]. exists []. split; [apply told_nil|done].
Qed.

Lemma told_del_old key c c' : del_old key c ⇓ c' -> told [] c c'.
Proof.
  unfold del_old. destruct (OldShard key (rehasher c)) as [[[i s]|]| |]; [| |done..]; cbn.
  - destruct (Shard.Del key s); [|done..]. intros [= <-]. apply (told_nil c).
  - intros [= <-]. apply told_nil.
Qed.

Lemma told_get_old now key c v c' : get_old now key c ⇓ (v, c') -> told [] c c'.
Proof.
  unfold get_old. destruct (OldShard key (rehasher c)) as [[[i s]|]| |]; [| |done..]; cbn.
  - destruct (get now key s) as [[]| |]; [|done..]. intros [= _ <-]. apply (told_nil c).
  - intros [= _ <-]. apply told_nil.
Qed.

(** What the end of a write tells: the migration moves on. *)
Lemma told_write_end now key c r c' :
  (if IsRehashing (rehasher c) then c ← del_old key c; c ← do_step now c; mret (@None error, c) else Ret (None, c)) ⇓ (r, c') ->
  r = None /\ exists evs, told evs c c' /\ omap fact_of evs = [].
Proof.
  destruct (IsRehashing _).
  - destruct (del_old key c) as [c1| |] eqn:H1; [|done..]. cbn. destruct (do_step now c1) as [c2| |] eqn:H2; [|done..].
    cbn. intros [= <- <-]. split; [done|]. destruct (told_do_step _ _ _ H2) as (evs & Ht & He). exists evs. split; [|done].
    by apply (told_app [] evs _ c1); [eapply told_del_old|].
  - intros [= <- <-]. split; [done|]. exists []. split; [apply told_nil|done].
Qed.

(** What an operation tells. *)
Definition tells (fs : list fact) c c' : Prop := exists evs, told evs c c' /\ omap fact_of evs = fs.

Lemma tells_nothing c c' : told [] c c' -> tells [] c c'.
Proof. intros Ht. by exists []. Qed.

Lemma tells_app fs1 fs2 c1 c2 c3 : tells fs1 c1 c2 -> tells fs2 c2 c3 -> tells (fs1 ++ fs2) c1 c3.
Proof.
  intros (evs1 & H1 & <-) (evs2 & H2 & <-). exists (evs1 ++ evs2). split; [by eapply told_app|by rewrite omap_app].
Qed.

Lemma tells_then fs c1 c2 c3 : told [] c1 c2 -> tells fs c2 c3 -> tells fs c1 c3.
Proof. intros H1 H2. apply (tells_app [] fs _ c2); [by apply tells_nothing|done]. Qed.

Lemma tells_emit e c c' : tells [] (emit e c) c' -> tells (omap fact_of [e]) c c'.
Proof. intros H. rewrite <-(app_nil_r (omap _ _)). eapply tells_app; [|exact H]. by exists [e]. Qed.

Lemma Set_tells now key value ttl c r c' :
  Cache.Set_ now key value ttl c ⇓ (r, c') -> tells (facts_of_result (KSet key value ttl) (RErr r)) c c'.
Proof.
  unfold Cache.Set_. destruct (validateOpen c); [intros [= <- <-]; apply tells_nothing, told_nil|].
  destruct (validateKeyValue key value); [intros [= <- <-]; apply tells_nothing, told_nil|].
  destruct value as [value|]; [|intros [= <- <-]; apply tells_nothing, told_nil].
  destruct (on_shard _ _ c) as [[ev c1]| |] eqn:H1; [|done..]. apply told_on_shard in H1. cbn [mbind outcome_bind].
  intros [-> H2]%told_write_end. apply (tells_then _ _ c1); [done|]. apply (tells_emit (Cache.OnSet key)).
  apply (tells_app [] [] _ (foldl (fun c ek => emit (Cache.OnEvict ek) c) (emit (Cache.OnSet key) c1) ev)); [|exact H2].
  exists (Cache.OnEvict <$> ev). split; [apply told_evicted|]. clear. by induction ev.
Qed.

Lemma Del_tells now key c r c' : Cache.Del now key c ⇓ (r, c') -> tells (facts_of_result (KDel key) (RErr r)) c c'.
Proof.
  unfold Cache.Del. destruct (validateOpen c); [intros [= <- <-]; apply tells_nothing, told_nil|].
  case_decide; [intros [= <- <-]; apply tells_nothing, told_nil|].
  destruct (on_shard _ _ c) as [[[] c1]| |] eqn:H1; [|done..]. apply told_on_shard in H1. cbn [mbind outcome_bind].
  intros [-> H2]%told_write_end. apply (tells_then _ _ c1); [done|]. by apply (tells_emit (Cache.OnDel key)).
Qed.

(** The end of a read. *)
Lemma tells_read now e (v : result error bytes) c r c' (step : Z -> Cache P -> outcome (Cache P)) :
  (forall c c', step now c ⇓ c' -> tells [] c c') ->
  (c ← step now (emit e c); mret (v, c)) ⇓ (r, c') -> r = v /\ tells (omap fact_of [e]) c c'.
Proof.
  intros Hs. destruct (step now (emit e c)) as [c1| |] eqn:H1; [|done..]. cbn. intros [= <- <-].
  split; [done|]. apply tells_emit. by apply Hs.
Qed.

Lemma Get_tells now key c r c' : Get now key c ⇓ (r, c') -> tells (facts_of_result (KGet key) (RVal r)) c c'.
Proof.
  unfold Get. destruct (validateOpen c) as [e|] eqn:Ho.
  { unfold validateOpen in Ho. destruct (closed c); [|done]. injection Ho as <-. intros [= <- <-]. apply tells_nothing, told_nil. }
  case_decide; [intros [= <- <-]; apply tells_nothing, told_nil|].
  destruct (on_shard _ _ c) as [[val c1]| |] eqn:H1; [|done..]. apply told_on_shard in H1. cbn [mbind outcome_bind].
  destruct val as [v|].
  { intros [-> H2]%(tells_read _ _ _ _ _ _ step_if_rehashing); [|apply told_step_if]. by apply (tells_then _ _ c1). }
  assert (forall val c2, (if IsRehashing (rehasher c1) then get_old now key c1 else Ret (None, c1)) ⇓ (val, c2) -> told [] c1 c2) as Hold.
  { intros val c2. destruct (IsRehashing _); [apply told_get_old|]. intros [= _ <-]. apply told_nil. }
  destruct (if IsRehashing _ then _ else _) as [[val c2]| |] eqn:H2; [|done..]. cbn [mbind outcome_bind].
  specialize (Hold _ _ eq_refl). intros Hr.
  apply (tells_then _ _ c1); [done|]. apply (tells_then _ _ c2); [done|]. destruct val as [v|].
  - apply (tells_read _ _ _ _ _ _ do_step) in Hr as [-> ?]; [done|apply told_do_step].
  - apply (tells_read _ _ _ _ _ _ step_if_rehashing) in Hr as [-> ?]; [done|apply told_step_if].
Qed.

Lemma kv_step_tells policies now o c r c' : kv_step policies now o c ⇓ (r, c') -> tells (facts_of_result o r) c c'.
Proof.
  destruct o as [key value ttl|key|key|n| |name]; cbn [kv_step].
  - destruct (Cache.Set_ _ _ _ _ _) as [[e c1]| |] eqn:H; [|done..]. intros [= <- <-]. by eapply Set_tells.
  - destruct (Get _ _ _) as [[e c1]| |] eqn:H; [|done..]. intros [= <- <-]. by eapply Get_tells.
  - destruct (Cache.Del _ _ _) as [[e c1]| |] eqn:H; [|done..]. intros [= <- <-]. by eapply Del_tells.
  - intros [= <- <-]. unfold Resize. repeat case_match; try apply tells_nothing, told_nil.
    by exists [Cache.OnRehashStart (Z.of_nat (length (table c))) n].
  - unfold Cleanup. destruct (closed c); [intros [= <- <-]; apply tells_nothing, told_nil|].
    destruct (each_shard _ (table c) 0) as [[t l]| |]; [|done..]. cbn.
    destruct (each_shard _ _ t) as [[t' l']| |]; [|done..]. cbn. intros [= <- <-]. apply tells_nothing, (told_nil c).
  - unfold SetEvictionPolicy. destruct (getPolicyFactory _ _); [|intros [= <- <-]; apply tells_nothing, told_nil].
    destruct (validateOpen c); [intros [= <- <-]; apply tells_nothing, told_nil|].
    destruct (each_shard _ (table c) tt) as [[t l]| |]; [|done..]. cbn.
    destruct (each_shard _ _ tt) as [[t' l']| |]; [|done..]. cbn. intros [= <- <-]. apply tells_nothing, (told_nil c).
Qed.

End Told.

Lemma New_observer `{MI : MapIter} `{EP : EvictionPolicy P} policies (o : Cache.Options) (c : Cache P) :
  Cache.New policies rehash_registry o = Ok c -> observer c = default 0%nat (o_observer o).
Proof.
  unfold Cache.New. case_match; [done|].
  set (o1 := if maxSize o <? 0 then _ else _). assert (o_observer o1 = o_observer o) as <- by (unfold o1; by case_match).
  destruct (defaultTTL o1 <? 0); [done|].
  set (o2 := if decide (evictionPolicy o1 = _) then _ else _). assert (o_observer o2 = o_observer o1) as <- by (unfold o2; by case_match).
  destruct (getPolicyFactory _ _) as [f|]; [|done]. cbn [mbind result_bind].
  set (o3 := if decide (o_rehasher o2 = _) then _ else _). assert (o_observer o3 = o_observer o2) as <- by (unfold o3; by case_match).
  destruct (GetFactory _ _) as [rf|]; [|done]. by intros [= <-].
Qed.

Section Counters.
Context `{MI : MapIter} `{EP : EvictionPolicy P} `{PL : !PolicyLaws P}.
Context `{LG : Logger L} `{CT : Counter C} `{CL : !CounterLaws C} {W : Type}.
Notation Infra := (Infra.Infra L C W).
Implicit Types (c : Cache P) (inf : Infra).

Definition counter (x : fact) (p : Prom.PrometheusExporter C) : Z :=
  match x with
  | AHit => Value (Prom.hits p)
  | AMiss => Value (Prom.misses p)
  | ASet => Value (Prom.sets p)
  | ADel => Value (Prom.dels p)
  end.

Definition deliver (now : Z) (evs : list event) inf : Infra := foldl (fun inf e => Infra.on_event now e inf) inf evs.

(** A run of a cache whose observer, named [me], is an [Infra]. *)
Fixpoint watched_run (policies : registry P) (me : nat) (ops : list (Z * kv_op)) c inf :
    outcome (list kv_result * Cache P * Infra) :=
  match ops with
  | [] => Ret ([], c, inf)
  | (now, o) :: ops =>
      '(r, c') ← kv_step policies now o c;
      let evs := drop (length (trace c)) (trace c') in
      let inf := deliver now (filter (fun e => e.1 = me) evs).*2 inf in
      '(rs, c, inf) ← watched_run policies me ops c' inf;
      mret (r :: rs, c, inf)
  end.

Lemma on_event_counts now e inf p : Infra.prom inf = Some p ->
  exists p', Infra.prom (Infra.on_event now e inf) = Some p' /\ forall x, counter x p' = counter x p + count x (omap fact_of [e]).
Proof.
  intros Hp. destruct e; cbn [Infra.on_event]; (eexists; split; [cbn; by rewrite Hp|]);
    intros []; count_up; cbn; unfold Prom.OnRehashStart; rewrite ?inc_counter; lia.
Qed.

Lemma deliver_counts now evs inf p : Infra.prom inf = Some p ->
  exists p', Infra.prom (deliver now evs inf) = Some p' /\ forall x, counter x p' = counter x p + count x (omap fact_of evs).
Proof.
  revert inf p. induction evs as [|e evs IH]; intros inf p Hp.
  - exists p. split; [done|]. intros x. unfold count. cbn. lia.
  - destruct (on_event_counts now e inf p Hp) as (p1 & Hp1 & H1). destruct (IH _ _ Hp1) as (p2 & Hp2 & H2).
    exists p2. split; [done|]. intros x. change (omap fact_of (e :: evs)) with (omap fact_of ([e] ++ evs)).
    rewrite H2, H1, omap_app, count_app. lia.
Qed.

Lemma heard_all (me : nat) (evs : list event) : (filter (fun e => e.1 = me) (pair me <$> evs)).*2 = evs.
Proof. induction evs as [|e evs IH]; [done|]. rewrite fmap_cons, filter_cons_True by done. rewrite fmap_cons. by f_equal. Qed.

Lemma watched_run_counts policies me ops c inf p rs c' : observer c = me -> Infra.prom inf = Some p ->
  kv_run policies ops c ⇓ (rs, c') ->
  exists inf' p', watched_run policies me ops c inf ⇓ (rs, c', inf') /\ Infra.prom inf' = Some p' /\
    forall x, counter x p' = counter x p + count x (concat (zip_with facts_of_result ops.*2 rs)).
Proof.
  revert c inf p rs. induction ops as [|[now o] ops IH]; intros c inf p rs Hme Hp; cbn [kv_run watched_run].
  { intros [= <- <-]. exists inf, p. split_and!; [done|done|]. intros x. unfold count. cbn. lia. }
  destruct (kv_step policies now o c) as [[r c1]| |] eqn:Hs; [|done..]. cbn [mbind outcome_bind].
  destruct (kv_run policies ops c1) as [[rs1 c2]| |] eqn:Hr; [|done..]. cbn [mbind outcome_bind]. intros [= <- <-].
  destruct (kv_step_tells _ _ _ _ _ _ Hs) as (evs & [Ht Ho] & He). rewrite Ht, drop_app_length, Hme, heard_all.
  destruct (deliver_counts now evs inf p Hp) as (p1 & Hp1 & H1).
  destruct (IH c1 (deliver now evs inf) p1 rs1) as (inf2 & p2 & -> & Hp2 & H2); [congruence|done|done|].
  exists inf2, p2. split_and!; [done|done|]. intros x.
  rewrite fmap_cons. cbn [zip_with concat snd]. rewrite H2, H1, count_app, He. lia.
Qed.

Lemma new_counters x options p : Infra.prom (Infra.New (L := L) (C := C) (W := W) options) = Some p -> counter x p = 0.
Proof.
  unfold Infra.New. cbn. destruct (Infra.PrometheusEnabled _); [|done]. intros [= <-]. destruct x; cbn; apply new_counter.
Qed.

(** C34 (equivalence): the counters of Prometheus count what callers of the cache saw.  Take a cache observed by an
    [Infra] that exports to Prometheus and any run of [Set], [Get], [Del], [Resize], [Cleanup] and changes of policy, also
    across migrations.  The run returns; afterwards the counter of hits is the number of [Get]s that returned a
    value, the counter of misses the number of those that returned [ErrKeyNotFound], and the counters of sets and
    deletions the numbers of [Set]s and [Del]s that returned no error. *)
Theorem counters_count_results policies o c ops me options :
  registry_ok policies -> Cache.New policies rehash_registry o = Ok c -> o_rehasher o <> "noop" ->
  valid_run (maxSize (Cache.opts c)) (defaultTTL (Cache.opts c)) 0 ops ->
  (roomy (maxSize o) (shardCount o) \/ Forall (fun o => is_resize o.2 = false) ops) ->
  o_observer o = Some me -> Infra.PrometheusEnabled (Infra.opts (Infra.New (C := C) options)) = true ->
  exists rs c' inf p, watched_run policies me ops c (Infra.New options) ⇓ (rs, c', inf) /\
    kv_run policies ops c ⇓ (rs, c') /\ Infra.prom inf = Some p /\
    forall x, counter x p = count x (concat (zip_with facts_of_result ops.*2 rs)).
Proof.
  intros Hreg Hnew Hno Hv Hroom Hme Hprom.
  destruct (New_ok policies o c Hreg Hnew) as (Hok & Hview & _ & _ & _ & Hk & Hres & _).
  assert (holds 0 c ∅) as Hh by (intros k t _; left; by rewrite Hview, lookup_empty).
  assert (resizable c \/ Forall (fun o => is_resize o.2 = false) ops) as Hr by (destruct Hroom; auto).
  destruct (kv_run_refines policies ops c ∅ 0 Hreg ltac:(lia) Hok (Hk Hno) Hh Hv Hr) as (rs & c' & Hrun & _).
  assert (observer c = me) as Hob.
  { by rewrite (New_observer policies o c Hnew), Hme. }
  assert (exists p, Infra.prom (Infra.New (L := L) (C := C) (W := W) options) = Some p) as [p Hp].
  { unfold Infra.New in *. cbn in *. rewrite Hprom. by eexists. }
  destruct (watched_run_counts policies me ops c (Infra.New options) p rs c' Hob Hp Hrun) as (inf & p' & Hw & Hp' & Hc).
  exists rs, c', inf, p'. split_and!; [done..|]. intros x. rewrite Hc, (new_counters x options p Hp). lia.
Qed.

End Counters.

(** ** Batches *)

Section Batches.
Context {W : Type}.
Import Batch.
Implicit Types (bc : BatchCollector W) (pending : list Event).

Inductive batch_op : Type :=
| OpCollect (e : Event)
| OpFlush
| OpTick
| OpStop.

Fixpoint batch_run (ops : list batch_op) bc (w : W) : outcome (BatchCollector W * W) :=
  match ops with
  | [] => Ret (bc, w)
  | OpCollect e :: ops => batch_run ops (Collect e bc) w
  | OpFlush :: ops => let '(_, bc, w) := Flush bc w in batch_run ops bc w
  | OpTick :: ops => let '(bc, w) := tick bc w in batch_run ops bc w
  | OpStop :: ops => '(bc, w) ← Stop bc w; batch_run ops bc w
  end.

(** The specification: the events since the last flush, of which the last [n] are sent. *)
Definition sent (n : nat) (send : list Event -> W -> option error * W) pending (w : W) : W :=
  match pending with [] => w | _ => (send (recent n pending) w).2 end.

Fixpoint batch_spec (n : nat) (send : list Event -> W -> option error * W) (ops : list batch_op) pending (ended : bool) (w : W) :
    outcome (list Event * W) :=
  match ops with
  | [] => Ret (pending, w)
  | OpCollect e :: ops => batch_spec n send ops (pending ++ [e]) ended w
  | OpFlush :: ops => batch_spec n send ops [] ended (sent n send pending w)
  | OpTick :: ops => if ended then batch_spec n send ops pending ended w else batch_spec n send ops [] ended (sent n send pending w)
  | OpStop :: ops => if ended then Panic else batch_spec n send ops [] true (sent n send pending w)
  end.

Definition holds_recent (send : list Event -> W -> option error * W) pending (ended : bool) bc : Prop :=
  1 <= cap bc /\ flushFn bc = Some send /\ stopped bc = ended /\ buf bc = recent (Z.to_nat (cap bc)) pending.

Lemma recent_nil {A} n (h : list A) : (0 < n)%nat -> recent n h = [] -> h = [].
Proof. intros Hn H. apply (f_equal length) in H. rewrite length_recent in H. destruct h; [done|]. cbn in H. lia. Qed.

Lemma Collect_recent send pending ended e bc :
  holds_recent send pending ended bc -> holds_recent send (pending ++ [e]) ended (Collect e bc).
Proof.
  intros (Hc & Hf & Hs & Hb). unfold holds_recent, Collect. cbn. split_and!; [done..|]. rewrite Hb, length_recent.
  destruct (Z.to_nat (cap bc)) as [|n] eqn:Hn; [lia|]. rewrite recent_snoc. f_equal.
  destruct (Z.geb_spec (Z.of_nat (Nat.min (S n) (length pending))) (cap bc)).
  - unfold recent. rewrite drop_drop. f_equal. lia.
  - by rewrite !recent_all by lia.
Qed.

Lemma Flush_recent send pending ended bc w : holds_recent send pending ended bc ->
  exists err bc', Flush bc w = (err, bc', sent (Z.to_nat (cap bc)) send pending w) /\ holds_recent send [] ended bc' /\ cap bc' = cap bc.
Proof.
  intros (Hc & Hf & Hs & Hb). unfold Flush. destruct (buf bc) as [|e l] eqn:Hl.
  - symmetry in Hb. apply recent_nil in Hb; [|lia]. subst. exists None, bc. split_and!; [done| |done].
    unfold holds_recent. rewrite Hl. by split_and!.
  - cbn. rewrite Hf. assert (sent (Z.to_nat (cap bc)) send pending w = (send (e :: l) w).2) as ->.
    { destruct pending; [by destruct (Z.to_nat (cap bc))|]. cbn. by rewrite Hb. }
    destruct (send (e :: l) w) as [err w']. exists err, (with_buf [] bc). by split_and!.
Qed.

Lemma batch_run_recent n send ops pending ended bc w : holds_recent send pending ended bc -> n = Z.to_nat (cap bc) ->
  (fun '(bc, w) => (buf bc, w)) <$> batch_run ops bc w =
  (fun '(pending, w) => (recent n pending, w)) <$> batch_spec n send ops pending ended w.
Proof.
  intros Hh ->. revert pending ended bc w Hh. induction ops as [|o ops IH]; intros pending ended bc w Hh.
  { destruct Hh as (_ & _ & _ & Hb). cbn. by rewrite Hb. }
  assert (stopped bc = ended) as He by apply Hh.
  destruct (Flush_recent send pending ended bc w Hh) as (err & bc' & HF & Hh' & Hcap).
  destruct o; cbn [batch_run batch_spec].
  - by rewrite <-(IH _ _ _ _ (Collect_recent _ _ _ e _ Hh)).
  - rewrite HF, <-Hcap. by apply IH.
  - unfold tick. rewrite He, HF. destruct ended; [by apply IH|]. rewrite <-Hcap. by apply IH.
  - unfold Stop. rewrite He, HF. destruct ended; [done|]. cbn [mbind outcome_bind]. rewrite <-Hcap.
    destruct Hh' as (? & ? & ? & ?).
    apply (IH [] true (mkBatch (buf bc') (cap bc') (interval bc') (flushFn bc') true)). by split_and!.
Qed.

(** The batches for analytics are the last events.  Take a new collector with any options and any
    sequence of [Collect], [Flush], ticks of its timer and [Stop].  The flush function receives, at every flush, tick or
    stop after which events were collected, the last [capacity] of the events since the last time, in order and none
    twice; after [Stop] there are no ticks, and a second [Stop] panics.  Nothing else is sent and nothing else is kept. *)
Theorem batches_are_recent capacity flushInterval send ops (w : W) :
  let n := if capacity <? 1 then 1000%nat else Z.to_nat capacity in
  (fun '(bc, w) => (buf bc, w)) <$> batch_run ops (NewBatchCollector capacity flushInterval (Some send)) w =
  (fun '(pending, w) => (recent n pending, w)) <$> batch_spec n send ops [] false w.
Proof.
  cbv zeta. apply batch_run_recent; unfold NewBatchCollector; cbn.
  - unfold holds_recent. cbn. split_and!; [destruct (Z.ltb_spec capacity 1); lia|done..|by destruct (Z.to_nat _)].
  - by destruct (capacity <? 1).
Qed.

End Batches.

(** ** Heartbeats and alerts *)

(** Operations of components on the registry. *)
Inductive reg_op : Type :=
| OpRegister (now : Z) (id : string) (timeout : Z)
| OpUnregister (id : string)
| OpBeat (now : Z) (id : string).

Definition reg_step (r : HeartbeatRegistry) (o : reg_op) : HeartbeatRegistry :=
  match o with
  | OpRegister now id timeout => Register now id timeout r
  | OpUnregister id => Unregister id r
  | OpBeat now id => Beat now id r
  end.

(** The specification, for one component: its timeout and the time it was last heard of, while it is registered. *)
Definition heard_step (id : string) (h : option (Z * Z)) (o : reg_op) : option (Z * Z) :=
  match o with
  | OpRegister now id' timeout => if decide (id' = id) then Some (timeout, now) else h
  | OpUnregister id' => if decide (id' = id) then None else h
  | OpBeat now id' => if decide (id' = id) then (fun '(timeout, _) => (timeout, now)) <$> h else h
  end.

Definition silent (now : Z) (ops : list reg_op) (id : string) : Prop :=
  exists timeout last, foldl (heard_step id) None ops = Some (timeout, last) /\ sat64 (now - last) > timeout.

Lemma registry_heard id ops r h :
  match h with
  | Some (timeout, last) => timeouts r !! id = Some timeout /\ beats r !! id = Some last
  | None => timeouts r !! id = None
  end ->
  match foldl (heard_step id) h ops with
  | Some (timeout, last) => timeouts (foldl reg_step r ops) !! id = Some timeout /\ beats (foldl reg_step r ops) !! id = Some last
  | None => timeouts (foldl reg_step r ops) !! id = None
  end.
Proof.
  revert r h. induction ops as [|o ops IH]; intros r h Hh; [done|]. cbn [foldl]. apply IH. clear IH.
  destruct o as [now id' t|id'|now id']; cbn [heard_step reg_step Register Unregister Beat beats timeouts]; case_decide; subst;
    rewrite ?lookup_insert_eq, ?lookup_delete_eq, ?lookup_insert_ne, ?lookup_delete_ne by done; try done.
  destruct h as [[t l]|]; cbn; [|done]. by destruct Hh.
Qed.

Section Alerts.
Context `{MI : MapIter} `{AH : AlertHandler H W}.
Implicit Types (a : Alerter H).

Lemma elem_of_expired now r l id : id ∈ expired_of now r l <-> exists timeout, (id, timeout) ∈ l /\ overdue now r id timeout = true.
Proof.
  induction l as [|[id' t] l IH]; cbn [expired_of]; [split; [intros Hin|intros (? & Hin & _)]; inversion Hin|].
  destruct (overdue now r id' t) eqn:Ho; rewrite ?elem_of_cons, IH; setoid_rewrite elem_of_cons.
  - split; [intros [->|(t' & ? & ?)]; eauto|intros (t' & [[= -> ->]|?] & ?); eauto].
  - split; [intros (t' & ? & ?); eauto|intros (t' & [[= -> ->]|?] & ?); [congruence|eauto]].
Qed.

Lemma NoDup_expired now r l : NoDup l.*1 -> NoDup (expired_of now r l).
Proof.
  induction l as [|[id t] l IH]; cbn [expired_of]; [by constructor|]. rewrite fmap_cons, NoDup_cons. intros [Hn Hd].
  destruct (overdue now r id t); [|by apply IH]. apply NoDup_cons. split; [|by apply IH].
  intros (t' & Hin & _)%elem_of_expired. apply Hn. cbn. apply list_elem_of_fmap. by exists (id, t').
Qed.

Lemma length_expired now r l : (length (expired_of now r l) <= length l)%nat.
Proof. induction l as [|[id t] l IH]; cbn [expired_of]; [done|]. destruct (overdue _ _ _ _); cbn; lia. Qed.

Lemma Check_silent now ops id : id ∈ Check now (foldl reg_step NewHeartbeatRegistry ops) <-> silent now ops id.
Proof.
  unfold Check, silent. rewrite elem_of_expired. pose proof (registry_heard id ops NewHeartbeatRegistry None eq_refl) as Hh.
  setoid_rewrite elem_of_map_iter. destruct (foldl (heard_step id) None ops) as [[t l]|].
  - destruct Hh as [Ht Hl]. unfold overdue. rewrite Ht, Hl. split.
    + intros (? & [= <-] & Ho). exists t, l. split; [done|]. destruct (Z.gtb_spec (sat64 (now - l)) t); [lia|done].
    + intros (? & ? & [= <- <-] & Ho). exists t. split; [done|]. destruct (Z.gtb_spec (sat64 (now - l)) t); [done|lia].
  - rewrite Hh. split; [intros (? & [=] & _)|intros (? & ? & [=] & _)].
Qed.

(** The alerts of a tick. *)
Definition timeout_alert (now : Z) (id : string) : Alert :=
  mkAlert "critical" id "heartbeat timeout: component may be dead" now ∅.

Definition pressure_alerts (now sys heapSys : Z) : list Alert :=
  if sys >? 2 * 1024 * 1024 * 1024
  then [mkAlert "warn" "alerter" "high memory pressure" now
          {["sys_mb" := AInt (sys / 1024 / 1024); "heap_mb" := AInt (heapSys / 1024 / 1024)]}]
  else [].

Lemma send_all now ids a : (length (alertCh a) + length ids <= alert_capacity)%nat ->
  foldl (fun a id => Alert_ now "critical" id "heartbeat timeout: component may be dead" a) a ids =
  with_ch (alertCh a ++ (timeout_alert now <$> ids)) a.
Proof.
  revert a. induction ids as [|id ids IH]; intros a Hl; cbn [foldl fmap list_fmap].
  - rewrite app_nil_r. by destruct a.
  - cbn in Hl. unfold Alert_ at 2, send_alert. rewrite decide_True by lia. rewrite IH.
    + cbn. by rewrite <-app_assoc.
    + cbn. rewrite length_app. cbn. lia.
Qed.

(** The loop receives [n] alerts, at the given times. *)
Fixpoint drain (n : nat) (clock : nat -> Z) a (w : W) : Alerter H * W :=
  match n with
  | 0%nat => (a, w)
  | S n => let '(a, w) := loop_receive (clock n) a w in drain n clock a w
  end.

Fixpoint handled (clock : nat -> Z) (hs : list H) (alerts : list Alert) (w : W) : W :=
  match alerts with
  | [] => w
  | alert :: alerts => handled clock hs alerts (foldl (fun w h => Handle (clock (length alerts)) alert h w) w hs)
  end.

Lemma drain_all clock a (w : W) : drain (length (alertCh a)) clock a w = (with_ch [] a, handled clock (handlers a) (alertCh a) w).
Proof.
  destruct a as [r i q hs y n s]. cbn [alertCh handlers with_ch a_registry checkInterval yieldEvery checkCount stopped].
  revert w. induction q as [|al q IH]; intros w; [done|]. cbn [length drain loop_receive alertCh]. apply IH.
Qed.

(** C35 (liveness): a silent component is reported, and no other.  Take any operations of components on the registry, an
    alerter with any handlers and room in its channel for one alert for each component and one more.  After a tick of its
    loop, and the loop receiving what waits in the channel, the handlers have received, in this order, the alerts that were
    waiting, one critical alert for each registered component not heard of for longer than its timeout, and
    a warning if the process uses more than 2 GB; then the channel is empty. *)
Theorem silence_is_reported ops now sys heapSys clock a (w : W) :
  a_registry a = foldl reg_step NewHeartbeatRegistry ops ->
  (length (alertCh a) + size (timeouts (a_registry a)) < alert_capacity)%nat ->
  exists ids, NoDup ids /\ (forall id, id ∈ ids <-> silent now ops id) /\
    let a' := loop_tick now sys heapSys a in
    drain (length (alertCh a')) clock a' w =
      (with_ch [] a', handled clock (handlers a) (alertCh a ++ (timeout_alert now <$> ids) ++ pressure_alerts now sys heapSys) w).
Proof.
  intros Hr Hroom. exists (Check now (a_registry a)).
  assert (length (Check now (a_registry a)) <= size (timeouts (a_registry a)))%nat as Hlen.
  { rewrite <-length_map_iter. apply length_expired. }
  split; [apply NoDup_expired, NoDup_map_iter_keys|]. split; [intros id; rewrite Hr; apply Check_silent|].
  cbv zeta. rewrite drain_all. f_equal. f_equal; unfold loop_tick, checkHeartbeats; rewrite send_all by lia;
    unfold emitSelfHeartbeat, pressure_alerts, AlertWithMetrics, send_alert; destruct (sys >? _); cbn; try done.
  - by rewrite decide_True by (rewrite length_app, length_fmap; lia).
  - rewrite decide_True by (rewrite length_app, length_fmap; lia). cbn. by rewrite <-app_assoc.
  - by rewrite app_nil_r.
Qed.

End Alerts.

(** ** Concrete runs *)

#[local] Existing Instance trie_order.

(** A counter that is a number. *)
#[local] Instance number_counter : Counter Z := {| NewCounter := fun _ => 0; Inc := fun n => n + 1 |}.
#[local] Instance number_counter_laws : CounterLaws Z :=
  {| Value := fun n => n; new_counter := fun _ => eq_refl; inc_counter := fun _ => eq_refl |}.

Definition watched_options : Cache.Options := WithObserver (Some 7%nat) (demo_options 2 0).

Definition watched_cache : Cache Policies.policy :=
  match Cache.New policyRegistry rehash_registry watched_options with Ok c => c | Err _ => demo_cache 2 0 end.

Definition watching : list (Infra.Options StdoutLogger unit -> Infra.Options StdoutLogger unit) :=
  [Infra.WithPrometheus true; Infra.WithLogger true].

Lemma counters_count_results_witness :
  exists rs c' inf p, watched_run (C := Z) policyRegistry 7 demo_ops watched_cache (Infra.New watching) ⇓ (rs, c', inf) /\
    kv_run policyRegistry demo_ops watched_cache ⇓ (rs, c') /\ Infra.prom inf = Some p /\
    forall x, counter x p = count x (concat (zip_with facts_of_result demo_ops.*2 rs)).
Proof.
  apply (counters_count_results policyRegistry watched_options watched_cache demo_ops 7 watching);
    [apply policyRegistry_ok|vm_compute; reflexivity|discriminate| |left; left; discriminate|reflexivity|reflexivity].
  vm_compute. repeat split; try discriminate. left; discriminate.
Defined.

(** One hit before the key expires, one miss after, and one entry of the log for each event. *)
Example watched_numbers :
  match watched_run (C := Z) policyRegistry 7 demo_ops watched_cache (Infra.New watching) with
  | Ret (_, _, inf) => (fun p => (counter AHit p, counter AMiss p, counter ASet p, counter ADel p)) <$> Infra.prom inf
  | _ => None
  end = Some (1, 1, 1, 1).
Proof. vm_compute. reflexivity. Qed.

(** A collector for two events that is given three before it is flushed. *)
Example oldest_dropped :
  let e k := mkEvent EventHit k 0 None in
  snd <$> batch_run [OpCollect (e "a"); OpCollect (e "b"); OpCollect (e "c"); OpTick; OpCollect (e "d"); OpStop; OpCollect (e "e"); OpTick]
    (Batch.NewBatchCollector 2 0 (Some (fun batch w => (None, w ++ [Key <$> batch])))) []
  = Ret [["b"; "c"]; ["d"]].
Proof. reflexivity. Qed.

(** Handlers that keep what they receive. *)
#[local] Instance journal : AlertHandler string (list (string * Alert)) := fun _ a h w => w ++ [(h, a)].

Definition two_components : list reg_op :=
  [OpRegister 0 "rehash" 100; OpRegister 5 "raft" 1000; OpBeat 50 "rehash"; OpBeat 60 "unknown"].

Definition watching_alerter : Alerter string :=
  RegisterHandler "mail" (NewAlerter (Some (foldl reg_step NewHeartbeatRegistry two_components)) 0).

Lemma silence_is_reported_witness :
  exists ids, NoDup ids /\ (forall id, id ∈ ids <-> silent 300 two_components id) /\
    let a' := loop_tick 300 0 0 watching_alerter in
    drain (length (alertCh a')) (fun _ => 301) a' [] =
      (with_ch [] a', handled (fun _ => 301) ["mail"] ([] ++ (timeout_alert 300 <$> ids) ++ pressure_alerts 300 0 0) []).
Proof.
  apply (silence_is_reported two_components 300 0 0 (fun _ => 301) watching_alerter []); [reflexivity|].
  vm_compute. lia.
Defined.

Example rehash_is_silent :
  (drain 1 (fun _ => 301) (loop_tick 300 0 0 watching_alerter) []).2 = [("mail", timeout_alert 300 "rehash")].
Proof. vm_compute. reflexivity. Qed.

(** The fields of an alert overwrite the fields of its entry in the log: the entry has the alert's level and message, and
    the word ALERT is lost. *)
Example alert_overwrites_entry :
  encoded (log 0 "ERROR" "ALERT" {["source" := AStr "raft"; "level" := AStr "critical"; "message" := AStr "silent"]} NewStdoutLogger) =
  [{["ts" := ATime 0; "source" := AStr "raft"; "level" := AStr "critical"; "message" := AStr "silent"]}].
Proof. vm_compute. reflexivity. Qed.
