(* ===== verification/RaftNet.v ===== *)
(** * Raft over TCP (net/raft_transport.go, raft/node.go, raft/config.go, raft/transport_memory.go)

    Envelopes carry the messages of Raft between nodes as JSON; the transport of a node listens for
    connections, dials its peers and hands what it receives to a channel.  A node wraps the event
    loop with the goroutine that applies committed entries.  JSON is a class; sockets are
    streams of bytes, and what the network does is an argument.  Connections have names. *)

From Stdlib Require Import Strings.String.
From stdpp Require Import base tactics numbers list gmap sets fin_maps strings pretty.
From S2P Require Import Prelude.
From S2P Require Import Bytes.
From S2P Require Import Wire.
From S2P Require Import Raft.

Open Scope string_scope.
Open Scope list_scope.
Open Scope Z_scope.

(** ** Envelopes *)

Definition raftMsgAE : Z := 1.
Definition raftMsgAER : Z := 2.
Definition raftMsgRV : Z := 3.
Definition raftMsgRVR : Z := 4.

Record raftRPCEnvelope : Type := mkEnvelope { e_Type : Z; e_Payload : bytes }.

Definition encode (e : raftRPCEnvelope) : bytes :=
  be 1 (e_Type e) ++ be 4 (wrapU 32 (Z.of_nat (length (e_Payload e)))) ++ e_Payload e.

Definition max_raft_payload : Z := 16 * 1024 * 1024.

Definition decodeRaftRPCEnvelope (r : bytes) : result error raftRPCEnvelope * bytes :=
  match ReadFull 5 r with
  | (Err e, r) => (Err e, r)
  | (Ok header, r) =>
      let t := unbe (take 1 header) in
      let payloadLen := unbe (drop 1 header) in
      if payloadLen >? max_raft_payload then (Err (ErrMsg ("raft payload too large: " +:+ pretty payloadLen)), r)
      else if payloadLen >? 0 then
        match ReadFull (Z.to_nat payloadLen) r with
        | (Err e, r) => (Err e, r)
        | (Ok p, r) => (Ok (mkEnvelope t p), r)
        end
      else (Ok (mkEnvelope t []), r)
  end.

(** ** Messages as JSON *)

(** [json.Marshal] of a message and [json.Unmarshal] into each of the four types. *)
Class RaftJson := {
  Marshal : body -> result error bytes;
  Unmarshal_AE : bytes -> result error AppendEntriesRequest;
  Unmarshal_AER : bytes -> result error AppendEntriesResponse;
  Unmarshal_RV : bytes -> result error RequestVoteRequest;
  Unmarshal_RVR : bytes -> result error RequestVoteResponse;
}.

(** What was marshalled is read back. *)
Class RaftJsonLaws `{RaftJson} := {
  json_AE : forall m p, Marshal (AE m) = Ok p -> Unmarshal_AE p = Ok m;
  json_AER : forall m p, Marshal (AER m) = Ok p -> Unmarshal_AER p = Ok m;
  json_RV : forall m p, Marshal (RV m) = Ok p -> Unmarshal_RV p = Ok m;
  json_RVR : forall m p, Marshal (RVR m) = Ok p -> Unmarshal_RVR p = Ok m;
}.

(** The envelope type of a message. *)
Definition msg_type (b : body) : Z :=
  match b with AE _ => raftMsgAE | AER _ => raftMsgAER | RV _ => raftMsgRV | RVR _ => raftMsgRVR end.

(** ** The transport *)

(** An inbound message; [rpc_Respond] is the connection a response goes to, if it has one. *)
Record RPC : Type := mkRPC { rpc_From : nat; rpc_body : body; rpc_Respond : option nat }.

(** [wg] is the counter of the wait group; [rpcClosed] tells whether the channel is closed. *)
Record TCPTransport : Type := mkTransport {
  nodeID : nat;
  localAddr : string;
  peers : gmap nat string;
  listening : bool;
  conns : gmap nat nat;
  rpcCh : list RPC;
  shutdown : bool;
  rpcClosed : bool;
  wg : Z;
}.

Definition with_wg (n : Z) (t : TCPTransport) : TCPTransport :=
  mkTransport (nodeID t) (localAddr t) (peers t) (listening t) (conns t) (rpcCh t) (shutdown t) (rpcClosed t) n.
Definition with_conns (cs : gmap nat nat) (t : TCPTransport) : TCPTransport :=
  mkTransport (nodeID t) (localAddr t) (peers t) (listening t) cs (rpcCh t) (shutdown t) (rpcClosed t) (wg t).
Definition with_rpcs (q : list RPC) (t : TCPTransport) : TCPTransport :=
  mkTransport (nodeID t) (localAddr t) (peers t) (listening t) (conns t) q (shutdown t) (rpcClosed t) (wg t).

Definition rpc_capacity : nat := 256.

Definition NewTCPTransport (nodeID : nat) (bindAddr : string) (peers : gmap nat string) : TCPTransport :=
  mkTransport nodeID bindAddr peers false ∅ [] false false 0.

(** [t.wg.Done()]: a wait group whose counter gets negative panics. *)
Definition wg_Done (t : TCPTransport) : outcome TCPTransport :=
  if wg t <=? 0 then Panic else Ret (with_wg (wg t - 1) t).

(** [listen] tells whether listening fails.  The peers to dial are those other than the node itself. *)
Definition Start (listen : option error) (t : TCPTransport) : option error * TCPTransport :=
  match listen with
  | Some err => (Some err, t)
  | None =>
      (None, mkTransport (nodeID t) (localAddr t) (peers t) true (conns t) (rpcCh t) (shutdown t) (rpcClosed t) (wg t + 1))
  end.

Definition dialled `{MapIter} (t : TCPTransport) : list (nat * string) :=
  filter (fun p => p.1 <> nodeID t) (map_iter (peers t)).

Definition LocalAddr (t : TCPTransport) : string := localAddr t.
Definition PeerAddr (peerID : nat) (t : TCPTransport) : string := default "" (peers t !! peerID).

(** A goroutine sends to the channel: it may send while there is room, it gives up after [Shutdown], and it blocks
    ([None]) when there is no room.  [abandon] chooses when it may do both.  Sending on a closed channel
    panics. *)
Definition send_rpc (abandon : bool) (rpc : RPC) (t : TCPTransport) : option (outcome TCPTransport) :=
  if shutdown t && abandon then Some (Ret t)
  else if rpcClosed t then Some Panic
  else if decide (length (rpcCh t) < rpc_capacity)%nat then Some (Ret (with_rpcs (rpcCh t ++ [rpc]) t))
  else if shutdown t then Some (Ret t)
  else None.

Section Transport.
Context `{RJ : RaftJson}.

(** The message an envelope received on connection [conn] is dispatched as; anything else is ignored. *)
Definition rpc_of (env : raftRPCEnvelope) (conn : nat) : option RPC :=
  if e_Type env =? raftMsgAE then
    match Unmarshal_AE (e_Payload env) with Ok req => Some (mkRPC 0 (AE req) (Some conn)) | Err _ => None end
  else if e_Type env =? raftMsgRV then
    match Unmarshal_RV (e_Payload env) with Ok req => Some (mkRPC 0 (RV req) (Some conn)) | Err _ => None end
  else if e_Type env =? raftMsgAER then
    match Unmarshal_AER (e_Payload env) with Ok resp => Some (mkRPC 0 (AER resp) None) | Err _ => None end
  else if e_Type env =? raftMsgRVR then
    match Unmarshal_RVR (e_Payload env) with Ok resp => Some (mkRPC 0 (RVR resp) None) | Err _ => None end
  else None.

Definition dispatch (abandon : bool) (env : raftRPCEnvelope) (conn : nat) (t : TCPTransport) : option (outcome TCPTransport) :=
  match rpc_of env conn with
  | Some rpc => send_rpc abandon rpc t
  | None => Some (Ret t)
  end.

(** How far [handleConn] has come with the bytes of a connection: it has returned, or it waits for room in the channel for the
    message of an envelope, with bytes that are still to be read. *)
Inductive conn_state : Type := ConnEnded | ConnBlocked (env : raftRPCEnvelope) (unread : bytes).

Fixpoint conn_loop (fuel : nat) (abandon : bool) (conn : nat) (r : bytes) (t : TCPTransport) : outcome (conn_state * TCPTransport) :=
  match fuel with
  | O => NoFuel
  | S fuel =>
      match decodeRaftRPCEnvelope r with
      | (Err _, _) => Ret (ConnEnded, t)
      | (Ok env, r) =>
          match dispatch abandon env conn t with
          | None => Ret (ConnBlocked env r, t)
          | Some sent => t ← sent; conn_loop fuel abandon conn r t
          end
      end
  end.

(** [handleConn] on a connection whose bytes are [r].  Every envelope has at least five bytes, so there are fewer turns than
    bytes, and one. *)
Definition handleConn (abandon : bool) (conn : nat) (r : bytes) (t : TCPTransport) : outcome (conn_state * TCPTransport) :=
  conn_loop (S (length r)) abandon conn r t.

(** What [writeResponse] writes. *)
Definition writeResponse (typ : Z) (resp : body) : bytes :=
  match Marshal resp with
  | Err _ => []
  | Ok payload => encode (mkEnvelope typ payload)
  end.

(** What the closure [Respond] of a message writes on its connection. *)
Definition respond (rpc : RPC) (resp : body) : bytes :=
  match rpc_Respond rpc, rpc_body rpc with
  | Some _, AE _ => writeResponse raftMsgAER resp
  | Some _, RV _ => writeResponse raftMsgRVR resp
  | _, _ => []
  end.

(** The connection a request goes over: the one to the peer, which the goroutine that dialled it reads as well, or one dialled
    for the request. *)
Inductive link : Type := Persistent (conn : nat) (addr : string) | Dial (addr : string).

Definition link_to (peerID : nat) (t : TCPTransport) : result error link :=
  if decide (peerID = nodeID t) then Err (ErrMsg "cannot send RPC to self")
  else
    match conns t !! peerID with
    | Some conn => Ok (Persistent conn (PeerAddr peerID t))
    | None =>
        let addr := PeerAddr peerID t in
        if decide (addr = "") then Err (ErrMsg ("unknown peer " +:+ pretty peerID)) else Ok (Dial addr)
    end.

(** [exchange] is the network: the bytes that can be read from the link after these bytes were written to it, or the
    error of dialling, writing or setting a deadline. *)
Definition sendRPC (exchange : link -> bytes -> result error bytes) (peerID : nat) (typ : Z) (payload : bytes)
    (t : TCPTransport) : result error bytes :=
  l ← link_to peerID t;
  input ← exchange l (encode (mkEnvelope typ payload));
  respEnv ← (decodeRaftRPCEnvelope input).1;
  mret (e_Payload respEnv).

Definition SendAppendEntries (exchange : link -> bytes -> result error bytes) (peerID : nat) (req : AppendEntriesRequest)
    (t : TCPTransport) : result error AppendEntriesResponse :=
  payload ← Marshal (AE req);
  respPayload ← sendRPC exchange peerID raftMsgAE payload t;
  Unmarshal_AER respPayload.

Definition SendRequestVote (exchange : link -> bytes -> result error bytes) (peerID : nat) (req : RequestVoteRequest)
    (t : TCPTransport) : result error RequestVoteResponse :=
  payload ← Marshal (RV req);
  respPayload ← sendRPC exchange peerID raftMsgRV payload t;
  Unmarshal_RVR respPayload.

End Transport.

(** ** Connections of a transport *)

(** A connection was accepted; a goroutine serves it. *)
Definition accept_conn (t : TCPTransport) : TCPTransport := with_wg (wg t + 1) t.

(** A peer was dialled; the goroutine that dialled serves the connection. *)
Definition connected (peerID conn : nat) (t : TCPTransport) : TCPTransport :=
  with_conns (<[peerID := conn]> (conns t)) t.

(** [handleConn] returns, for a connection that was accepted. *)
Definition accepted_ends (t : TCPTransport) : outcome TCPTransport := wg_Done t.

(** [handleConn] returns, for a connection that was dialled, and the goroutine forgets the connection. *)
Definition dialled_ends (peerID : nat) (t : TCPTransport) : outcome TCPTransport :=
  t ← wg_Done t;
  mret (with_conns (delete peerID (conns t)) t).

(** [Shutdown] up to the wait for the goroutines; closing the channel twice panics. *)
Definition Shutdown_begin (t : TCPTransport) : outcome TCPTransport :=
  if shutdown t then Panic
  else Ret (mkTransport (nodeID t) (localAddr t) (peers t) false ∅ (rpcCh t) true (rpcClosed t) (wg t)).

(** What follows the wait. *)
Definition Shutdown_end (t : TCPTransport) : outcome TCPTransport :=
  if rpcClosed t then Panic
  else Ret (mkTransport (nodeID t) (localAddr t) (peers t) (listening t) (conns t) (rpcCh t) (shutdown t) true (wg t)).

(** [wait] is what the goroutines do until the counter of the wait group is 0. *)
Definition Shutdown (wait : TCPTransport -> outcome TCPTransport) (t : TCPTransport) : outcome TCPTransport :=
  t ← Shutdown_begin t;
  t ← wait t;
  Shutdown_end t.

(** ** The backoff of dialling: one second more after every failure, up to 30 *)

Definition second : Z := 1000000000.

Definition next_backoff (backoff : Z) : Z := if backoff <? 30 * second then backoff + second else backoff.

(** The pauses before the next attempts, after a successful one. *)
Fixpoint backoffs (attempts : nat) (backoff : Z) : list Z :=
  match attempts with O => [] | S n => backoff :: backoffs n (next_backoff backoff) end.

(** ** Configuration (raft/config.go) *)

Record Config : Type := mkConfig {
  cfg_NodeID : nat;
  cfg_Peers : list string;
  HeartbeatInterval : Z;
  ElectionTimeout : Z;
  CommitTimeout : Z;
  MaxLogEntries : Z;
}.

Definition DefaultConfig : Config := mkConfig 0 [] 100000000 500000000 50000000 10000.

(** ** The node (raft/node.go) *)

Record Node (W : Type) : Type := mkNode {
  n_raft : Raft;
  n_onApply : option (nat * bytes -> W -> W);
  n_trans : TCPTransport;
  n_handled : nat;
  n_shutdown : bool;
}.
Arguments mkNode {_} _ _ _ _ _.
Arguments n_raft {_} _.
Arguments n_onApply {_} _.
Arguments n_trans {_} _.
Arguments n_handled {_} _.
Arguments n_shutdown {_} _.

Section Node.
Context {W : Type}.
Implicit Types (n : Node W).

Definition NewNode (cfg : Config) (trans : TCPTransport) (onApply : option (nat * bytes -> W -> W)) : Node W :=
  mkNode (NewRaft (cfg_NodeID cfg) (length (cfg_Peers cfg))) onApply trans 0 false.

(** A turn of [runApply]: the next entry on the channel goes to the callback; [None]: the channel is empty or the
    goroutine has ended. *)
Definition runApply n (w : W) : option (Node W * W) :=
  if n_shutdown n then None
  else
    msg ← applied (n_raft n) !! n_handled n;
    let w := match n_onApply n with Some f => f msg w | None => w end in
    mret (mkNode (n_raft n) (n_onApply n) (n_trans n) (S (n_handled n)) (n_shutdown n), w).

(** [Shutdown] closes a channel of the node, ends both goroutines and shuts the transport down. *)
Definition node_Shutdown (wait : TCPTransport -> outcome TCPTransport) n : outcome (Node W) :=
  if n_shutdown n then Panic
  else
    t ← Shutdown wait (n_trans n);
    mret (mkNode (n_raft n) (n_onApply n) t (n_handled n) true).

Definition node_State n : State := state (n_raft n).
Definition node_Term n : nat := currentTerm (n_raft n).
Definition node_LeaderID n : nat := leaderID (n_raft n).

End Node.

(** ** Raft at a server (net/server.go) *)

(** [InitRaft]: the transport is started, the node is created with the addresses of the peers, in any order.  The
    channel of the transport is handed to nobody. *)
Definition InitRaft `{MapIter} {W} (listen : option error) (nodeID : nat) (bindAddr : string) (peers : gmap nat string)
    (onApply : nat * bytes -> W -> W) : result (string * error) (Node W) :=
  match Start listen (NewTCPTransport nodeID bindAddr peers) with
  | (Some err, _) => Err ("raft transport: ", err)
  | (None, trans) =>
      let peerList := (map_iter peers).*2 in
      Ok (NewNode (mkConfig nodeID peerList 100000000 500000000 50000000 10000) trans (Some onApply))
  end.

Definition IsRaftLeader {W} (node : option (Node W)) : bool :=
  match node with Some n => bool_decide (node_State n = Leader) | None => false end.

(** The end of [Close]: the node is shut down, and then its transport. *)
Definition close_raft {W} (wait : TCPTransport -> outcome TCPTransport) (n : Node W) : outcome (Node W) :=
  n ← node_Shutdown wait n;
  t ← Shutdown wait (n_trans n);
  mret (mkNode (n_raft n) (n_onApply n) t (n_handled n) (n_shutdown n)).

(** ** The transport in memory (raft/transport_memory.go) *)

Module Memory.

(** A transport is known by its name; [recvCh] is the channel of the node behind it, with its capacity. *)
Record MemoryTransport : Type := mkMemory {
  m_nodeID : nat;
  m_peers : gmap nat nat;
  m_recvCh : option (nat * list RPC);
  m_closed : bool;
}.

Definition NewMemoryTransport (nodeID : nat) : MemoryTransport := mkMemory nodeID ∅ None false.
Definition RegisterPeer (id peer : nat) (t : MemoryTransport) : MemoryTransport :=
  mkMemory (m_nodeID t) (<[id := peer]> (m_peers t)) (m_recvCh t) (m_closed t).
Definition SetReceiveCh (capacity : nat) (t : MemoryTransport) : MemoryTransport :=
  mkMemory (m_nodeID t) (m_peers t) (Some (capacity, [])) (m_closed t).
Definition Shutdown (t : MemoryTransport) : MemoryTransport :=
  mkMemory (m_nodeID t) (m_peers t) (m_recvCh t) true.
Definition LocalAddr (t : MemoryTransport) : string := "mem://" +:+ pretty (m_nodeID t).
Definition PeerAddr (peerID : nat) (t : MemoryTransport) : string := "mem://" +:+ pretty peerID.

(** [deliver] of the transport named [me], among all transports. *)
Definition deliver (me peerID : nat) (rpc : RPC) (ts : gmap nat MemoryTransport) :
    outcome (option error * gmap nat MemoryTransport) :=
  t ← deref (ts !! me);
  if m_closed t then Ret (Some (ErrMsg "transport closed"), ts)
  else
    match m_peers t !! peerID with
    | None => Ret (Some (ErrMsg ("unknown peer " +:+ pretty peerID)), ts)
    | Some name =>
        peer ← deref (ts !! name);
        match m_recvCh peer with
        | None => Ret (Some (ErrMsg ("peer " +:+ pretty peerID +:+ " recvCh not set")), ts)
        | Some (capacity, q) =>
            if decide (length q < capacity)%nat then
              mret (None, <[name := mkMemory (m_nodeID peer) (m_peers peer) (Some (capacity, q ++ [rpc])) (m_closed peer)]> ts)
            else Ret (Some (ErrMsg ("peer " +:+ pretty peerID +:+ " recvCh full")), ts)
        end
    end.

(** [answer] is what the node behind the peer responds. *)
Definition SendAppendEntries (me peerID : nat) (req : AppendEntriesRequest) (answer : AppendEntriesResponse) (ts : gmap nat MemoryTransport) :
    outcome (result error AppendEntriesResponse * gmap nat MemoryTransport) :=
  '(err, ts) ← deliver me peerID (mkRPC me (AE req) (Some me)) ts;
  mret (match err with Some err => Err err | None => Ok answer end, ts).

Definition SendRequestVote (me peerID : nat) (req : RequestVoteRequest) (answer : RequestVoteResponse) (ts : gmap nat MemoryTransport) :
    outcome (result error RequestVoteResponse * gmap nat MemoryTransport) :=
  '(err, ts) ← deliver me peerID (mkRPC me (RV req) (Some me)) ts;
  mret (match err with Some err => Err err | None => Ok answer end, ts).

End Memory.
