(* ===== verification/RaftNetSpec.v ===== *)
(** * What the transport of Raft promises, and what a cluster over it does

    Envelopes survive the stream, a request and its answer survive the exchange.  But a node never receives what
    its transport receives: a cluster of servers elects nobody. *)

From Stdlib Require Import Strings.String.
From stdpp Require Import base tactics numbers list gmap sets fin_maps strings pretty relations.
From S2P Require Import Prelude.
From S2P Require Import Bytes.
From S2P Require Import Wire.
From S2P Require Import Raft.
From S2P Require Import RaftNet.

Open Scope string_scope.
Open Scope list_scope.
Open Scope Z_scope.

(** ** Envelopes *)

Definition wf_envelope (e : raftRPCEnvelope) : Prop :=
  0 <= e_Type e < 256 /\ Z.of_nat (length (e_Payload e)) <= max_raft_payload.

Lemma decode_encode e rest : wf_envelope e -> decodeRaftRPCEnvelope (encode e ++ rest) = (Ok e, rest).
Proof.
  destruct e as [t p]. intros [Ht Hp]. cbn [e_Type e_Payload] in *. unfold max_raft_payload in Hp.
  unfold encode, decodeRaftRPCEnvelope. cbn [e_Type e_Payload]. rewrite wrapU_small by lia.
  set (n := Z.of_nat (length p)) in *. set (h := be 1 t ++ be 4 n).
  replace ((be 1 t ++ be 4 n ++ p) ++ rest) with (h ++ p ++ rest) by (unfold h; by rewrite <-!app_assoc).
  change 5%nat with (length h). rewrite ReadFull_app.
  assert (unbe (take 1 h) = t) as ->. { apply (unbe_be_small 1 t). lia. }
  assert (unbe (drop 1 h) = n) as ->. { apply (unbe_be_small 4 n). lia. }
  unfold max_raft_payload. destruct (Z.gtb_spec n (16 * 1024 * 1024)); [lia|]. destruct (Z.gtb_spec n 0).
  - unfold n. by rewrite Nat2Z.id, ReadFull_app.
  - destruct p; [done|]. cbn in n. lia.
Qed.

Lemma length_encode e : length (encode e) = (5 + length (e_Payload e))%nat.
Proof. unfold encode. rewrite !length_app, !length_be. lia. Qed.

(** ** Requests and answers *)

Section Exchange.
Context `{RJ : RaftJson} `{RL : !RaftJsonLaws}.

(** A message that fits into an envelope. *)
Definition fits (b : body) (p : bytes) : Prop := Marshal b = Ok p /\ Z.of_nat (length p) <= max_raft_payload.

Lemma fits_wf b p : fits b p -> wf_envelope (mkEnvelope (msg_type b) p).
Proof. intros [_ Hp]. split; [|done]. by destruct b. Qed.

Definition is_request (b : body) : bool := match b with AE _ | RV _ => true | _ => false end.

(** How a message of another node is handed to the node: requests with the connection to answer on. *)
Definition inbound (conn : nat) (b : body) : RPC := mkRPC 0 b (if is_request b then Some conn else None).

Lemma rpc_of_fits conn b p : fits b p -> rpc_of (mkEnvelope (msg_type b) p) conn = Some (inbound conn b).
Proof.
  intros [Hm _]. destruct b; cbn.
  - by rewrite (json_AE _ _ Hm).
  - by rewrite (json_AER _ _ Hm).
  - by rewrite (json_RV _ _ Hm).
  - by rewrite (json_RVR _ _ Hm).
Qed.

(** The bytes of messages written one after the other. *)
Definition stream (msgs : list body) (ps : list bytes) : bytes :=
  concat (zip_with (fun b p => encode (mkEnvelope (msg_type b) p)) msgs ps).

(** A transport whose channel takes messages. *)
Definition receiving (t : TCPTransport) : Prop := shutdown t = false /\ rpcClosed t = false.

(** The messages that still fit into the channel. *)
Definition room (t : TCPTransport) : nat := rpc_capacity - length (rpcCh t).

Lemma send_rpc_receiving rpc t : receiving t ->
  send_rpc false rpc t = if decide (length (rpcCh t) < rpc_capacity)%nat then Some (Ret (with_rpcs (rpcCh t ++ [rpc]) t)) else None.
Proof. intros [Hs Hc]. unfold send_rpc. rewrite Hs, Hc. cbn. by case_decide. Qed.

Lemma dispatch_receiving conn b p t : fits b p -> receiving t ->
  dispatch false (mkEnvelope (msg_type b) p) conn t =
    if decide (length (rpcCh t) < rpc_capacity)%nat then Some (Ret (with_rpcs (rpcCh t ++ [inbound conn b]) t)) else None.
Proof. intros Hf Ht. unfold dispatch. rewrite (rpc_of_fits conn b p Hf). by apply send_rpc_receiving. Qed.

Lemma length_stream_cons b p msgs ps : length (stream (b :: msgs) (p :: ps)) = (5 + length p + length (stream msgs ps))%nat.
Proof. unfold stream. cbn [zip_with concat]. by rewrite length_app, length_encode. Qed.

Lemma conn_loop_messages fuel conn msgs ps t : Forall2 fits msgs ps -> receiving t -> (length (stream msgs ps) < fuel)%nat ->
  conn_loop fuel false conn (stream msgs ps) t =
    Ret (match drop (room t) (zip msgs ps) with
         | [] => ConnEnded
         | (b, p) :: rest => ConnBlocked (mkEnvelope (msg_type b) p) (stream rest.*1 rest.*2)
         end, with_rpcs (rpcCh t ++ take (room t) (inbound conn <$> msgs)) t).
Proof.
  intros Hf. revert fuel t. induction Hf as [|b p msgs ps Hb Hf IH]; intros [|fuel] t Ht Hfuel; try lia.
  { cbn. rewrite drop_nil, take_nil, app_nil_r. by destruct t. }
  rewrite length_stream_cons in Hfuel. cbn [conn_loop]. change (stream (b :: msgs) (p :: ps))
    with (encode (mkEnvelope (msg_type b) p) ++ stream msgs ps).
  rewrite (decode_encode _ _ (fits_wf b p Hb)), (dispatch_receiving conn b p t Hb Ht). case_decide as Hroom.
  - cbn [mbind outcome_bind]. rewrite IH; [|done|lia]. destruct (room t) as [|k] eqn:Hk; [unfold room in Hk; lia|].
    assert (room (with_rpcs (rpcCh t ++ [inbound conn b]) t) = k) as ->.
    { unfold room in *. cbn [rpcCh with_rpcs]. rewrite length_app. cbn [length]. lia. }
    cbn [zip_with drop fmap list_fmap take rpcCh with_rpcs]. rewrite <-app_assoc. done.
  - assert (room t = 0%nat) as -> by (unfold room; lia). cbn [drop zip_with take]. rewrite app_nil_r.
    apply Forall2_length in Hf as Hlen. rewrite fst_zip, snd_zip by lia. by destruct t.
Qed.

(** ** A request and its answer over the network *)

(** Transports by the address they listen on. *)
Definition network : Type := gmap string TCPTransport.

Definition timeout : error := ErrMsg "i/o timeout".

(** What the sender of [input] can read afterwards.  The peer serves a connection that is dialled for the request, its node
    answers what it receives on it, if it does, within the deadlines.  On the connection of the dialling goroutine that
    goroutine has read [taken] bytes of the answer first. *)
Definition exchange (net : network) (conn taken : nat) (node : RPC -> option body) (l : link) (input : bytes) : result error bytes :=
  let addr := match l with Persistent _ addr => addr | Dial addr => addr end in
  match net !! addr with
  | None => Err (ErrMsg ("dial " +:+ addr))
  | Some peer =>
      match handleConn false conn input peer with
      | Ret (_, peer') =>
          let received := drop (length (rpcCh peer)) (rpcCh peer') in
          let answers := concat ((fun rpc => match node rpc with Some resp => respond rpc resp | None => [] end) <$> received) in
          match match l with Persistent _ _ => drop taken answers | Dial _ => answers end with
          | [] => Err timeout
          | bs => Ok bs
          end
      | _ => Err timeout
      end
  end.

(** One request on a connection of its own. *)
Lemma exchange_dialled net conn taken node addr peer b p resp q :
  net !! addr = Some peer -> receiving peer -> (0 < room peer)%nat -> fits b p -> fits resp q ->
  is_request b = true -> node (inbound conn b) = Some resp -> respond (inbound conn b) resp = encode (mkEnvelope (msg_type resp) q) ->
  exchange net conn taken node (Dial addr) (encode (mkEnvelope (msg_type b) p)) = Ok (encode (mkEnvelope (msg_type resp) q)).
Proof.
  intros Hnet Hpeer Hroom Hb Hq Hr Hnode Hresp. unfold exchange. rewrite Hnet. unfold handleConn.
  replace (encode (mkEnvelope (msg_type b) p)) with (stream [b] [p]) by (unfold stream; cbn; by rewrite app_nil_r).
  rewrite conn_loop_messages; [|by apply Forall2_cons|done|lia]. destruct (room peer) as [|k]; [lia|].
  cbn [rpcCh with_rpcs fmap list_fmap take]. rewrite take_nil, drop_app_length. cbn [fmap list_fmap concat]. rewrite Hnode, Hresp, app_nil_r.
  destruct (encode _) eqn:He; [|done]. apply (f_equal length) in He. rewrite length_encode in He. done.
Qed.

(** C22 (roundtrip): messages survive the transport.  Messages written one after the other on a connection are
    dispatched by [handleConn] of the other side in this order, requests with the connection to answer on, as many as
    the channel of 256 has room for; if there are more, the goroutine blocks on the next one with the rest of the bytes
    unread.  And [SendAppendEntries] and [SendRequestVote] over a connection dialled for the request return the answer
    that the peer's node gives to this very request, when the peer's channel has room: the request is encoded, decoded and dispatched
    by the peer, its answer is written by [Respond] and decoded again.  Messages have to fit into an envelope, JSON gives
    back what it was given, and nobody shuts the transport down.  Over the connection that a goroutine of the transport
    reads as well nothing is claimed: that goroutine may take the answer. *)
Theorem raft_messages_roundtrip conn msgs ps (t0 t : TCPTransport) net taken node peerID addr peer :
  Forall2 fits msgs ps -> receiving t0 ->
  link_to peerID t = Ok (Dial addr) -> net !! addr = Some peer -> receiving peer -> (0 < room peer)%nat ->
  handleConn false conn (stream msgs ps) t0 ⇓
    (match drop (room t0) (zip msgs ps) with
     | [] => ConnEnded
     | (b, p) :: rest => ConnBlocked (mkEnvelope (msg_type b) p) (stream rest.*1 rest.*2)
     end, with_rpcs (rpcCh t0 ++ take (room t0) (inbound conn <$> msgs)) t0) /\
  (forall req p resp q, fits (AE req) p -> fits (AER resp) q -> node (inbound conn (AE req)) = Some (AER resp) ->
    SendAppendEntries (exchange net conn taken node) peerID req t = Ok resp) /\
  (forall req p resp q, fits (RV req) p -> fits (RVR resp) q -> node (inbound conn (RV req)) = Some (RVR resp) ->
    SendRequestVote (exchange net conn taken node) peerID req t = Ok resp).
Proof.
  intros Hm Ht0 Hl Hnet Hpeer Hroom. split; [apply conn_loop_messages; [done|done|lia]|].
  assert (forall b p resp q, fits b p -> fits resp q -> is_request b = true -> node (inbound conn b) = Some resp ->
    respond (inbound conn b) resp = encode (mkEnvelope (msg_type resp) q) ->
    sendRPC (exchange net conn taken node) peerID (msg_type b) p t = Ok q) as Hsend.
  { intros b p resp q Hb Hq Hr Hn Hw. unfold sendRPC. rewrite Hl. cbn [mbind result_bind].
    rewrite (exchange_dialled net conn taken node addr peer b p resp q) by done. cbn [mbind result_bind].
    rewrite <-(app_nil_r (encode _)), (decode_encode _ _ (fits_wf resp q Hq)). done. }
  split; intros req p resp q Hb Hq Hn; [unfold SendAppendEntries|unfold SendRequestVote]; rewrite (proj1 Hb); cbn [mbind result_bind].
  - pose proof (Hsend (AE req) p (AER resp) q Hb Hq eq_refl Hn) as Hs. cbn [msg_type] in Hs. rewrite Hs; [by apply json_AER, Hq|].
    unfold respond, writeResponse. cbn. by rewrite (proj1 Hq).
  - pose proof (Hsend (RV req) p (RVR resp) q Hb Hq eq_refl Hn) as Hs. cbn [msg_type] in Hs. rewrite Hs; [by apply json_RVR, Hq|].
    unfold respond, writeResponse. cbn. by rewrite (proj1 Hq).
Qed.

End Exchange.

(** ** A cluster of servers *)

(** A server's node: the state of Raft, the channel of its event loop and its transport. *)
Record member : Type := mkMember { m_raft : Raft; m_rpcCh : list RPC; m_trans : TCPTransport }.

(** Envelopes on their way, with the nodes they come from and go to. *)
Record tcp_cluster : Type := mkTcp {
  members : gmap nat member;
  requests : list (nat * nat * raftRPCEnvelope);
  responses : list (nat * nat * raftRPCEnvelope);
}.

Section Deployed.
Context `{MI : MapIter} `{RJ : RaftJson}.

Definition to_wire (src dst : nat) (b : body) : option (nat * nat * raftRPCEnvelope) :=
  match Marshal b with Ok p => Some (src, dst, mkEnvelope (msg_type b) p) | Err _ => None end.

(** The requests a handler sends, and its answers to the connection of the message it handled. *)
Definition sent_requests (out : list message) : list (nat * nat * raftRPCEnvelope) :=
  omap (fun m => if is_request (content m) then to_wire (from m) (to m) (content m) else None) out.

Definition sent_answers (i : nat) (rpc : RPC) (out : list message) : list (nat * nat * raftRPCEnvelope) :=
  match rpc_Respond rpc with
  | Some conn => omap (fun m => if is_request (content m) then None else to_wire i conn (content m)) out
  | None => []
  end.

(** The servers, as [InitRaft] leaves them; [addr] is the address of a node for the other nodes. *)
Definition deployed (n : nat) (addr : nat -> string) (i : nat) : member :=
  let peers := list_to_map ((fun i => (i, addr i)) <$> seq 1 n) in
  match InitRaft None i (addr i) peers (fun _ (w : unit) => w) with
  | Ok node => mkMember (n_raft node) [] (n_trans node)
  | Err _ => mkMember (NewRaft i n) [] (NewTCPTransport i (addr i) peers)
  end.

Definition tcp_init (n : nat) (addr : nat -> string) : tcp_cluster :=
  mkTcp (list_to_map ((fun i => (i, deployed n addr i)) <$> seq 1 n)) [] [].

Definition put (i : nat) (m : member) (c : tcp_cluster) : gmap nat member := <[i := m]> (members c).

(** What can happen: a timer fires, a client proposes, the event loop takes a message from its channel, an envelope reaches a
    transport, the answer to a request reaches the goroutine that waits for it, an envelope is lost. *)
Inductive tcp_step (c : tcp_cluster) : tcp_cluster -> Prop :=
| ts_election i m :
    members c !! i = Some m -> electionTimer (m_raft m) = true ->
    tcp_step c (mkTcp (put i (mkMember (handleElectionTimeout (m_raft m)).1 (m_rpcCh m) (m_trans m)) c)
                  (requests c ++ sent_requests (handleElectionTimeout (m_raft m)).2) (responses c))
| ts_heartbeat i m :
    members c !! i = Some m -> heartbeatTimer (m_raft m) = true ->
    tcp_step c (mkTcp (put i (mkMember (handleHeartbeatTimeout (m_raft m)).1 (m_rpcCh m) (m_trans m)) c)
                  (requests c ++ sent_requests (handleHeartbeatTimeout (m_raft m)).2) (responses c))
| ts_propose i m cmd :
    members c !! i = Some m ->
    tcp_step c (mkTcp (put i (mkMember (handlePropose cmd (m_raft m)).1 (m_rpcCh m) (m_trans m)) c)
                  (requests c ++ sent_requests (handlePropose cmd (m_raft m)).2) (responses c))
| ts_handle i m rpc q :
    members c !! i = Some m -> m_rpcCh m = rpc :: q ->
    let h := handleRPC (mkMsg (rpc_From rpc) i (rpc_body rpc)) (m_raft m) in
    tcp_step c (mkTcp (put i (mkMember h.1 q (m_trans m)) c)
                  (requests c ++ sent_requests h.2) (responses c ++ sent_answers i rpc h.2))
| ts_arrive src dst env pre post m abandon t :
    requests c = pre ++ (src, dst, env) :: post -> members c !! dst = Some m ->
    dispatch abandon env src (m_trans m) = Some (Ret t) ->
    tcp_step c (mkTcp (put dst (mkMember (m_raft m) (m_rpcCh m) t) c) (pre ++ post) (responses c))
| ts_answer src dst env pre post m rpc :
    responses c = pre ++ (src, dst, env) :: post -> members c !! dst = Some m ->
    rpc_of env src = Some rpc ->
    tcp_step c (mkTcp (put dst (mkMember (m_raft m) (m_rpcCh m ++ [mkRPC src (rpc_body rpc) None]) (m_trans m)) c)
                  (requests c) (pre ++ post))
| ts_read_by_loop src dst env pre post m abandon t :
    responses c = pre ++ (src, dst, env) :: post -> members c !! dst = Some m ->
    dispatch abandon env src (m_trans m) = Some (Ret t) ->
    tcp_step c (mkTcp (put dst (mkMember (m_raft m) (m_rpcCh m) t) c) (requests c) (pre ++ post))
| ts_lose pre x post : requests c = pre ++ x :: post -> tcp_step c (mkTcp (members c) (pre ++ post) (responses c))
| ts_lose_answer pre x post : responses c = pre ++ x :: post -> tcp_step c (mkTcp (members c) (requests c) (pre ++ post)).

(** A node that has heard of nobody. *)
Definition unheard (m : member) : Prop :=
  m_rpcCh m = [] /\ state (m_raft m) <> Leader /\ log (m_raft m) = NewLog /\ applied (m_raft m) = [].

Lemma deployed_unheard n addr i : unheard (deployed n addr i).
Proof. done. Qed.

Lemma election_unheard m : unheard m -> unheard (mkMember (handleElectionTimeout (m_raft m)).1 (m_rpcCh m) (m_trans m)).
Proof.
  intros (Hq & Hl & Hlog & Ha). unfold unheard, handleElectionTimeout. cbv zeta. rewrite decide_False by done. done.
Qed.

Lemma heartbeat_unheard m : unheard m -> unheard (mkMember (handleHeartbeatTimeout (m_raft m)).1 (m_rpcCh m) (m_trans m)).
Proof. intros (Hq & Hl & Hlog & Ha). unfold unheard, handleHeartbeatTimeout. cbv zeta. by rewrite decide_True. Qed.

Lemma propose_unheard cmd m : unheard m ->
  unheard (mkMember (handlePropose cmd (m_raft m)).1 (m_rpcCh m) (m_trans m)) /\ handlePropose cmd (m_raft m) = (m_raft m, []).
Proof. intros (Hq & Hl & Hlog & Ha). unfold unheard, handlePropose. by rewrite decide_True. Qed.

Definition nobody_heard (c : tcp_cluster) : Prop :=
  responses c = [] /\ map_Forall (fun _ m => unheard m) (members c).

Lemma step_unheard c c' : nobody_heard c -> tcp_step c c' -> nobody_heard c'.
Proof.
  intros [Hr Hall] Hs. destruct Hs as [i m Hm _|i m Hm _|i m cmd Hm|i m rpc q Hm Hq h|src dst env pre post m g t _ Hm _|
    src dst env pre post m rpc He _ _|src dst env pre post m g t He _ _|pre x post _|pre x post He];
    try (rewrite Hr in He; by destruct pre); try (destruct (Hall _ _ Hm) as [Hu _]; congruence); (split; [done|]);
    cbn [members]; try done; try apply map_Forall_insert_2; try done; pose proof (Hall _ _ Hm) as Hu.
  - by apply election_unheard.
  - by apply heartbeat_unheard.
  - by apply propose_unheard.
  - exact Hu.
Qed.

Lemma init_unheard n addr : nobody_heard (tcp_init n addr).
Proof.
  split; [done|]. intros i m Hm%elem_of_list_to_map_2. apply list_elem_of_fmap in Hm as (j & [= -> ->] & _). apply deployed_unheard.
Qed.

(** C23 (safety): a cluster of servers replicates nothing.  Take any number of servers whose nodes [InitRaft] created, and any
    run of the cluster: timers, proposals, envelopes that arrive, are answered or get lost.  No node ever leads,
    every proposal is dropped without effect, no log has an entry and no command is applied: what the transports
    receive stays in their channels, which nothing reads. *)
Theorem tcp_cluster_replicates_nothing n addr c i m cmd :
  rtc tcp_step (tcp_init n addr) c -> members c !! i = Some m ->
  state (m_raft m) <> Leader /\ handlePropose cmd (m_raft m) = (m_raft m, []) /\
  log (m_raft m) = NewLog /\ applied (m_raft m) = [] /\ responses c = [].
Proof.
  intros Hrun Hm. assert (nobody_heard c) as [Hr Hall].
  { eapply (rtc_ind_r nobody_heard); [apply init_unheard| |exact Hrun]. intros y z _ Hs Hy. by eapply step_unheard. }
  pose proof (Hall _ _ Hm) as Hu. destruct (propose_unheard cmd m Hu) as [_ Hp]. destruct Hu as (_ & Hl & Hlog & Ha). by split_and!.
Qed.

End Deployed.

(** ** The counter of goroutines *)

(** What happens to the connections of a transport. *)
Inductive conn_event : Type :=
| Accepted
| AcceptedEnds
| Dialled (peer conn : nat)
| DialledEnds (peer : nat).

Definition conn_step (t : TCPTransport) (e : conn_event) : outcome TCPTransport :=
  match e with
  | Accepted => Ret (accept_conn t)
  | AcceptedEnds => accepted_ends t
  | Dialled peer conn => Ret (connected peer conn t)
  | DialledEnds peer => dialled_ends peer t
  end.

Fixpoint conn_run (es : list conn_event) (t : TCPTransport) : outcome TCPTransport :=
  match es with [] => Ret t | e :: es => t ← conn_step t e; conn_run es t end.

Definition change (e : conn_event) : Z :=
  match e with Accepted => 1 | Dialled _ _ => 0 | _ => -1 end.

Definition total (es : list conn_event) : Z := foldr (fun e n => change e + n) 0 es.

Lemma conn_run_wg es t t' : conn_run es t ⇓ t' -> 0 <= wg t -> wg t' = wg t + total es /\ 0 <= wg t'.
Proof.
  revert t. induction es as [|e es IH]; intros t; cbn [conn_run total foldr]; [intros [= <-]; lia|].
  destruct (conn_step t e) as [t1| |] eqn:Hs; [|done..]. cbn [mbind outcome_bind]. intros Hr Hw.
  assert (wg t1 = wg t + change e /\ 0 <= wg t1) as [H1 H2].
  { destruct e; cbn [conn_step change] in *; unfold accept_conn, connected, accepted_ends, dialled_ends, wg_Done in Hs;
      try (destruct (Z.leb_spec (wg t) 0); [done|]); cbn in Hs; injection Hs as <-; cbn; lia. }
  destruct (IH t1 Hr H2). unfold total in *. lia.
Qed.

(** The goroutine of a dialled connection is not counted when it starts but when it ends: as soon as more dialled
    connections have ended than accepted ones are open, and one, the process panics. *)
Lemma dialled_connections_panic es t t1 :
  Start None t = (None, t1) -> wg t = 0 -> 1 + total es < 0 -> ~ exists t2, conn_run es t1 ⇓ t2.
Proof.
  intros [= <-] Hw Ht (t2 & Hr). apply conn_run_wg in Hr; cbn in *; lia.
Qed.

(** Two peers are dialled and go away. *)
Example two_peers_gone :
  conn_run [Dialled 2 10; Dialled 3 11; DialledEnds 2; DialledEnds 3]
    (Start None (NewTCPTransport 1 ":12001" {[2%nat := "b:12001"; 3%nat := "c:12001"]})).2 = Panic.
Proof. reflexivity. Qed.

(** Closing a server with Raft shuts its transport down twice, which panics. *)
Lemma close_raft_panics {W} wait (n : Node W) :
  n_shutdown n = false -> shutdown (n_trans n) = false -> rpcClosed (n_trans n) = false ->
  (forall t, exists t', wait t ⇓ t' /\ shutdown t' = shutdown t /\ rpcClosed t' = rpcClosed t) ->
  close_raft wait n = Panic.
Proof.
  intros Hn Ht Hc Hw. unfold close_raft, node_Shutdown, Shutdown, Shutdown_begin. rewrite Hn, Ht. cbn [mbind outcome_bind].
  match goal with |- context [wait ?t] => destruct (Hw t) as (t' & -> & Hs & Hr) end. cbn in Hs, Hr. cbn [mbind outcome_bind].
  unfold Shutdown_end. rewrite Hr, Hc. cbn. by rewrite Hs.
Qed.

(** ** Concrete messages and a concrete run *)

(** An encoding of messages without entries whose numbers fit into a byte. *)
Definition small (l : list nat) : result error bytes :=
  if forallb (fun n => n <? 256)%nat l then Ok ((fun n => byte_of (Z.of_nat n)) <$> l) else Err ErrKeyEmpty.

Definition unsmall (p : bytes) : list nat := (fun b => Z.to_nat (byte_val b)) <$> p.

Lemma unsmall_small l p : small l = Ok p -> unsmall p = l.
Proof.
  unfold small. destruct (forallb _ l) eqn:Hl; [|done]. intros [= <-]. unfold unsmall. rewrite <-list_fmap_compose.
  induction l as [|n l IH]; [done|]. cbn in Hl. apply andb_prop in Hl as [Hn Hl]. apply Nat.leb_le in Hn.
  cbn [fmap list_fmap]. f_equal; [|by apply IH]. unfold compose. rewrite byte_val_of, Z.mod_small by lia. lia.
Qed.

#[local] Instance small_json : RaftJson := {|
  Marshal := fun b =>
    match b with
    | AE (mkAE t l i k [] c) => small [t; l; i; k; c]
    | AE _ => Err ErrKeyEmpty
    | AER (mkAER t s i) => small [t; if s then 1 else 0; i]%nat
    | RV (mkRV t c i k) => small [t; c; i; k]
    | RVR (mkRVR t g) => small [t; if g then 1 else 0]%nat
    end;
  Unmarshal_AE := fun p => match unsmall p with [t; l; i; k; c] => Ok (mkAE t l i k [] c) | _ => Err ErrKeyEmpty end;
  Unmarshal_AER := fun p => match unsmall p with [t; s; i] => Ok (mkAER t (s =? 1)%nat i) | _ => Err ErrKeyEmpty end;
  Unmarshal_RV := fun p => match unsmall p with [t; c; i; k] => Ok (mkRV t c i k) | _ => Err ErrKeyEmpty end;
  Unmarshal_RVR := fun p => match unsmall p with [t; g] => Ok (mkRVR t (g =? 1)%nat) | _ => Err ErrKeyEmpty end;
|}.

#[local] Instance small_json_laws : RaftJsonLaws.
Proof.
  split.
  - intros [t l i k [|e es] c] p; cbn; [|done]. by intros ->%unsmall_small.
  - intros [t s i] p; cbn. intros ->%unsmall_small. by destruct s.
  - intros [t c i k] p; cbn. by intros ->%unsmall_small.
  - intros [t g] p; cbn. intros ->%unsmall_small. by destruct g.
Qed.

#[local] Existing Instance trie_order.

Definition three (i : nat) : string := "node" +:+ pretty i.

(** The second of three nodes answers the first; another transport has room for one message. *)
Definition demo_net : network := {["node2" := m_trans (deployed 3 three 2)]}.

Definition demo_answer (rpc : RPC) : option body :=
  match rpc_body rpc with
  | RV req => Some (RVR (mkRVR (rv_Term req) true))
  | AE req => Some (AER (mkAER (ae_Term req) true (ae_PrevLogIndex req)))
  | _ => None
  end.

Definition demo_vote : body := RV (mkRV 3 1 7 2).
Definition demo_append : body := AE (mkAE 3 1 7 2 [] 5).

Definition nearly_full : TCPTransport :=
  with_rpcs (replicate 255 (inbound 9 demo_vote)) (m_trans (deployed 3 three 3)).

Lemma raft_messages_roundtrip_witness :
  let vote : bytes := byte_of <$> [3; 1; 7; 2] in
  let append : bytes := byte_of <$> [3; 1; 7; 2; 5] in
  handleConn false 1 (stream [demo_vote; demo_append] [vote; append]) nearly_full ⇓
    (ConnBlocked (mkEnvelope raftMsgAE append) [], with_rpcs (rpcCh nearly_full ++ [inbound 1 demo_vote]) nearly_full) /\
  SendAppendEntries (exchange demo_net 1 0 demo_answer) 2 (mkAE 3 1 7 2 [] 5) (m_trans (deployed 3 three 1)) = Ok (mkAER 3 true 7) /\
  SendRequestVote (exchange demo_net 1 0 demo_answer) 2 (mkRV 3 1 7 2) (m_trans (deployed 3 three 1)) = Ok (mkRVR 3 true).
Proof.
  intros vote append.
  destruct (raft_messages_roundtrip 1 [demo_vote; demo_append] [vote; append] nearly_full (m_trans (deployed 3 three 1)) demo_net 0 demo_answer
    2 "node2" (m_trans (deployed 3 three 2))) as (H1 & H2 & H3);
    [| |vm_compute; reflexivity|reflexivity|split; reflexivity|vm_compute; lia|].
  - apply Forall2_cons; split; [split; [vm_compute; reflexivity|vm_compute; discriminate]|].
    apply Forall2_cons; split; [split; [vm_compute; reflexivity|vm_compute; discriminate]|apply Forall2_nil_2].
  - split; reflexivity.
  - split; [exact H1|]. split.
    + apply (H2 _ append _ (byte_of <$> [3; 1; 7])); [split; [vm_compute; reflexivity|vm_compute; discriminate]..|reflexivity].
    + apply (H3 _ vote _ (byte_of <$> [3; 1])); [split; [vm_compute; reflexivity|vm_compute; discriminate]..|reflexivity].
Defined.

(** On the connection the transport has dialled itself, the goroutine that reads it may take the whole answer: the request fails. *)
Example answer_taken :
  SendRequestVote (exchange demo_net 1 7 demo_answer) 2 (mkRV 3 1 7 2) (connected 2 4 (m_trans (deployed 3 three 1))) = Err timeout /\
  SendRequestVote (exchange demo_net 1 0 demo_answer) 2 (mkRV 3 1 7 2) (connected 2 4 (m_trans (deployed 3 three 1))) = Ok (mkRVR 3 true).
Proof. split; vm_compute; reflexivity. Qed.

(** The first node of three calls an election; its request reaches the second. *)
Definition asked : member :=
  mkMember (handleElectionTimeout (NewRaft 1 3)).1 [] (m_trans (deployed 3 three 1)).

Lemma tcp_cluster_replicates_nothing_witness :
  exists c, rtc tcp_step (tcp_init 3 three) c /\ members c !! 1%nat = Some asked /\
    requests c <> [] /\ state (m_raft asked) <> Leader /\ handlePropose [] (m_raft asked) = (m_raft asked, []) /\
    log (m_raft asked) = NewLog /\ applied (m_raft asked) = [] /\ responses c = [].
Proof.
  pose (m := deployed 3 three 1).
  exists (mkTcp (put 1 (mkMember (handleElectionTimeout (m_raft m)).1 (m_rpcCh m) (m_trans m)) (tcp_init 3 three))
            ([] ++ sent_requests (handleElectionTimeout (m_raft m)).2) []).
  assert (rtc tcp_step (tcp_init 3 three)
            (mkTcp (put 1 (mkMember (handleElectionTimeout (m_raft m)).1 (m_rpcCh m) (m_trans m)) (tcp_init 3 three))
               ([] ++ sent_requests (handleElectionTimeout (m_raft m)).2) [])) as Hrun.
  { apply rtc_once. apply (ts_election (tcp_init 3 three) 1 m); reflexivity. }
  split; [exact Hrun|]. split; [reflexivity|]. split; [vm_compute; discriminate|].
  apply (tcp_cluster_replicates_nothing 3 three _ 1 asked [] Hrun). reflexivity.
Defined.
