(* ===== verification/Listen.v ===== *)
(** * The life of a server (net/server.go)

    Options, the loop that accepts connections, the count of connections, statistics, and closing.  A connection is a
    name.  The loop, the handlers of connections and [Close] run side by side: each of their critical sections, and each action
    between two of them that others can see, is a step.  What a connection does while it is served is in Server.v.  The logs
    are left out. *)

From Stdlib Require Import Strings.String.
From stdpp Require Import base tactics numbers list gmap sets fin_maps strings relations.
From S2P Require Import Prelude.

Open Scope Z_scope.

(** Where the loop of [ListenAndServe] is: in [Accept]; with a connection that is not yet counted against the limit; about to
    close one that is refused; with one that is registered, [curr] being the number of connections then; with one whose number
    has been compared with the peak, before its handler is started; or it has returned. *)
Inductive stage : Type :=
| Accepting
| Accepted (id : nat)
| Refusing (id : nat)
| Registered (id : nat) (curr : Z)
| Noted (id : nat)
| Returned.

(** [open] are the sockets that are open, [handlers] the connections the wait group counts, [leaving] those of them whose handler
    has begun its deferred function and taken them off [conns]. *)
Record Listener : Type := mkListener {
  workerCount : Z;
  maxConns : Z;
  readTimeout : Z;
  writeTimeout : Z;
  gracefulTimeout : Z;
  memoryLimit : Z;
  startTime : Z;
  listening : bool;
  closed : bool;
  conns : gset nat;
  open : gset nat;
  loop : stage;
  handlers : gset nat;
  leaving : gset nat;
  peakConns : Z;
  bytesRead : Z;
  bytesWritten : Z;
  jobsClosed : bool;
}.

(** ** Options *)

Definition WithWorkers (n : Z) (s : Listener) : Listener :=
  mkListener n (maxConns s) (readTimeout s) (writeTimeout s) (gracefulTimeout s) (memoryLimit s) (startTime s) (listening s)
    (closed s) (conns s) (open s) (loop s) (handlers s) (leaving s) (peakConns s) (bytesRead s) (bytesWritten s) (jobsClosed s).
Definition WithMaxConns (n : Z) (s : Listener) : Listener :=
  mkListener (workerCount s) n (readTimeout s) (writeTimeout s) (gracefulTimeout s) (memoryLimit s) (startTime s) (listening s)
    (closed s) (conns s) (open s) (loop s) (handlers s) (leaving s) (peakConns s) (bytesRead s) (bytesWritten s) (jobsClosed s).
Definition WithReadTimeout (d : Z) (s : Listener) : Listener :=
  mkListener (workerCount s) (maxConns s) d (writeTimeout s) (gracefulTimeout s) (memoryLimit s) (startTime s) (listening s)
    (closed s) (conns s) (open s) (loop s) (handlers s) (leaving s) (peakConns s) (bytesRead s) (bytesWritten s) (jobsClosed s).
Definition WithWriteTimeout (d : Z) (s : Listener) : Listener :=
  mkListener (workerCount s) (maxConns s) (readTimeout s) d (gracefulTimeout s) (memoryLimit s) (startTime s) (listening s)
    (closed s) (conns s) (open s) (loop s) (handlers s) (leaving s) (peakConns s) (bytesRead s) (bytesWritten s) (jobsClosed s).
Definition WithGracefulShutdownTimeout (d : Z) (s : Listener) : Listener :=
  mkListener (workerCount s) (maxConns s) (readTimeout s) (writeTimeout s) d (memoryLimit s) (startTime s) (listening s)
    (closed s) (conns s) (open s) (loop s) (handlers s) (leaving s) (peakConns s) (bytesRead s) (bytesWritten s) (jobsClosed s).
Definition WithMemoryLimit (n : Z) (s : Listener) : Listener :=
  mkListener (workerCount s) (maxConns s) (readTimeout s) (writeTimeout s) (gracefulTimeout s) n (startTime s) (listening s)
    (closed s) (conns s) (open s) (loop s) (handlers s) (leaving s) (peakConns s) (bytesRead s) (bytesWritten s) (jobsClosed s).

(** The server before the options, and with the time it starts. *)
Definition new_server : Listener :=
  mkListener 256 100000 30000000000 0 0 0 0 false false ∅ ∅ Accepting ∅ ∅ 0 0 0 false.

Definition with_start (now : Z) (s : Listener) : Listener :=
  mkListener (workerCount s) (maxConns s) (readTimeout s) (writeTimeout s) (gracefulTimeout s) (memoryLimit s) now (listening s)
    (closed s) (conns s) (open s) (loop s) (handlers s) (leaving s) (peakConns s) (bytesRead s) (bytesWritten s) (jobsClosed s).

Definition NewServer (now : Z) (opts : list (Listener -> Listener)) : Listener :=
  with_start now (foldl (fun s opt => opt s) new_server opts).

(** ** Connections *)

(** The part of the state that connections change. *)
Definition with_state (l c : bool) (cs op : gset nat) (lp : stage) (hs lv : gset nat) (peak : Z) (s : Listener) : Listener :=
  mkListener (workerCount s) (maxConns s) (readTimeout s) (writeTimeout s) (gracefulTimeout s) (memoryLimit s) (startTime s)
    l c cs op lp hs lv peak (bytesRead s) (bytesWritten s) (jobsClosed s).

Definition at_stage (lp : stage) (s : Listener) : Listener :=
  with_state (listening s) (closed s) (conns s) (open s) lp (handlers s) (leaving s) (peakConns s) s.

(** [net.Listen] succeeds. *)
Definition listen (s : Listener) : Listener :=
  with_state true (closed s) (conns s) (open s) (loop s) (handlers s) (leaving s) (peakConns s) s.

(** *** The loop that accepts *)

(** [ln.Accept()] returns the connection [id]. *)
Definition accept (id : nat) (s : Listener) : Listener :=
  with_state (listening s) (closed s) (conns s) (open s ∪ {[id]}) (Accepted id) (handlers s) (leaving s) (peakConns s) s.

(** [ln.Accept()] fails: the loop returns, or goes on. *)
Definition accept_error (s : Listener) : option error * Listener :=
  if closed s then (Some ErrServerClosed, at_stage Returned s) else (None, s).

(** With the lock: too many connections, or one more. *)
Definition register (id : nat) (s : Listener) : Listener :=
  if Z.of_nat (size (conns s)) >=? maxConns s then at_stage (Refusing id) s
  else
    let cs := conns s ∪ {[id]} in
    with_state (listening s) (closed s) cs (open s) (Registered id (Z.of_nat (size cs))) (handlers s) (leaving s) (peakConns s) s.

(** [conn.Close()] of a connection that is refused. *)
Definition refuse (id : nat) (s : Listener) : Listener :=
  with_state (listening s) (closed s) (conns s) (open s ∖ {[id]}) Accepting (handlers s) (leaving s) (peakConns s) s.

(** The loop around [CompareAndSwap]; nothing else writes the peak, so the first attempt succeeds. *)
Definition note_peak (id : nat) (curr : Z) (s : Listener) : Listener :=
  with_state (listening s) (closed s) (conns s) (open s) (Noted id) (handlers s) (leaving s)
    (if curr <=? peakConns s then peakConns s else curr) s.

(** [s.wg.Add(1)] and [go s.handleConn(sc)]. *)
Definition start_handler (id : nat) (s : Listener) : Listener :=
  with_state (listening s) (closed s) (conns s) (open s) Accepting (handlers s ∪ {[id]}) (leaving s) (peakConns s) s.

(** *** What [handleConn] defers *)

(** With the lock: the connection is forgotten. *)
Definition unregister (id : nat) (s : Listener) : Listener :=
  with_state (listening s) (closed s) (conns s ∖ {[id]}) (open s) (loop s) (handlers s) (leaving s ∪ {[id]}) (peakConns s) s.

(** [sc.netConn.Close()]. *)
Definition hang_up (id : nat) (s : Listener) : Listener :=
  with_state (listening s) (closed s) (conns s) (open s ∖ {[id]}) (loop s) (handlers s) (leaving s) (peakConns s) s.

(** [s.wg.Done()]. *)
Definition finish (id : nat) (s : Listener) : Listener :=
  with_state (listening s) (closed s) (conns s) (open s) (loop s) (handlers s ∖ {[id]}) (leaving s ∖ {[id]}) (peakConns s) s.

(** [Read] and [Write] of a connection that counts. *)
Definition count_read (n : Z) (s : Listener) : Listener :=
  mkListener (workerCount s) (maxConns s) (readTimeout s) (writeTimeout s) (gracefulTimeout s) (memoryLimit s) (startTime s) (listening s)
    (closed s) (conns s) (open s) (loop s) (handlers s) (leaving s) (peakConns s)
    (if n >? 0 then wrapU 64 (bytesRead s + n) else bytesRead s) (bytesWritten s) (jobsClosed s).
Definition count_write (n : Z) (s : Listener) : Listener :=
  mkListener (workerCount s) (maxConns s) (readTimeout s) (writeTimeout s) (gracefulTimeout s) (memoryLimit s) (startTime s) (listening s)
    (closed s) (conns s) (open s) (loop s) (handlers s) (leaving s) (peakConns s) (bytesRead s)
    (if n >? 0 then wrapU 64 (bytesWritten s + n) else bytesWritten s) (jobsClosed s).

(** ** Closing *)

(** [s.closed.Store(true)]. *)
Definition close_flag (s : Listener) : Listener :=
  with_state (listening s) true (conns s) (open s) (loop s) (handlers s) (leaving s) (peakConns s) s.

(** [s.listener.Close()]. *)
Definition close_listener (s : Listener) : Listener :=
  with_state false (closed s) (conns s) (open s) (loop s) (handlers s) (leaving s) (peakConns s) s.

(** With the lock: every registered connection is closed and forgotten. *)
Definition close_conns (s : Listener) : Listener :=
  with_state (listening s) (closed s) ∅ (open s ∖ conns s) (loop s) (handlers s) (leaving s) (peakConns s) s.

(** Whether the wait can be over: the wait group counts nothing, or there is a timeout and it has passed. *)
Definition wait_over (timer : bool) (s : Listener) : bool :=
  bool_decide (handlers s = ∅) || (gracefulTimeout s >? 0) && timer.

(** [close(s.jobCh)], at the end of [Close]. *)
Definition close_end (s : Listener) : outcome Listener :=
  if jobsClosed s then Panic
  else Ret (mkListener (workerCount s) (maxConns s) (readTimeout s) (writeTimeout s) (gracefulTimeout s) (memoryLimit s) (startTime s)
         (listening s) (closed s) (conns s) (open s) (loop s) (handlers s) (leaving s) (peakConns s) (bytesRead s) (bytesWritten s) true).

(** ** Statistics *)

Record ServerStats : Type := mkStats {
  UptimeMs : Z; Connections : Z; PeakConns : Z; TotalRequests : Z; BytesRead : Z; BytesWritten : Z; Goroutines : Z;
  CacheEntries : Z; CacheMemory : Z; MemoryLimit : Z; GoVersion : string; OS : string; Arch : string;
}.

(** What the runtime says. *)
Record runtime : Type := mkRuntime { NumGoroutine : Z; Alloc : Z; Version : string; GOOS : string; GOARCH : string }.

Definition Stats (now : Z) (r : runtime) (totalRequests entries : Z) (s : Listener) : ServerStats :=
  mkStats (sat64 (now - startTime s) ÷ 1000000) (Z.of_nat (size (conns s))) (peakConns s) totalRequests (bytesRead s) (bytesWritten s)
    (NumGoroutine r) entries (Alloc r) (memoryLimit s) (Version r) (GOOS r) (GOARCH r).

(** ** The server as a state machine *)

(** What can happen while the loop accepts, connections come and go, and somebody closes the server.  Connections have
    fresh names. *)
Inductive server_step (s : Listener) : Listener -> Prop :=
| st_accept id : listening s = true -> loop s = Accepting -> id ∉ open s -> id ∉ handlers s -> server_step s (accept id s)
| st_accept_error : loop s = Accepting -> server_step s (accept_error s).2
| st_register id : loop s = Accepted id -> server_step s (register id s)
| st_refuse id : loop s = Refusing id -> server_step s (refuse id s)
| st_note_peak id curr : loop s = Registered id curr -> server_step s (note_peak id curr s)
| st_start id : loop s = Noted id -> server_step s (start_handler id s)
| st_unregister id : id ∈ handlers s -> id ∉ leaving s -> server_step s (unregister id s)
| st_hang_up id : id ∈ leaving s -> server_step s (hang_up id s)
| st_finish id : id ∈ leaving s -> id ∉ open s -> server_step s (finish id s)
| st_read n : server_step s (count_read n s)
| st_write n : server_step s (count_write n s)
| st_close_flag : server_step s (close_flag s)
| st_close_listener : closed s = true -> server_step s (close_listener s)
| st_close_conns : closed s = true -> listening s = false -> server_step s (close_conns s).

(** ** Invariants *)

(** The connection the loop has and has not registered; the one it has registered and not yet started. *)
Definition unregistered (s : Listener) : gset nat := match loop s with Accepted id | Refusing id => {[id]} | _ => ∅ end.
Definition starting (s : Listener) : gset nat := match loop s with Registered id _ | Noted id => {[id]} | _ => ∅ end.

(** The most connections the peak accounts for: between its registration and its comparison with the peak, one more. *)
Definition accounted (s : Listener) : Z := match loop s with Registered _ curr => curr | _ => peakConns s end.

Record server_ok (s : Listener) : Prop := {
  ok_limit : Z.of_nat (size (conns s)) <= Z.max 0 (maxConns s);
  ok_peak : 0 <= peakConns s <= Z.max 0 (maxConns s);
  ok_accounted : Z.of_nat (size (conns s)) <= accounted s <= Z.min (peakConns s + 1) (Z.max 0 (maxConns s));
  ok_served : conns s ⊆ handlers s ∪ starting s;
  ok_open : conns s ⊆ open s;
  ok_none_lost : open s ⊆ conns s ∪ leaving s ∪ unregistered s;
  ok_leaving : leaving s ⊆ handlers s ∖ conns s;
  ok_unregistered : unregistered s ⊆ open s ∖ conns s ∖ handlers s;
  ok_starting : starting s ## handlers s;
}.

Inductive server_option : Type :=
| OWorkers (n : Z) | OMaxConns (n : Z) | OReadTimeout (d : Z) | OWriteTimeout (d : Z) | OGraceful (d : Z) | OMemoryLimit (n : Z).

Definition option_fun (o : server_option) : Listener -> Listener :=
  match o with
  | OWorkers n => WithWorkers n
  | OMaxConns n => WithMaxConns n
  | OReadTimeout d => WithReadTimeout d
  | OWriteTimeout d => WithWriteTimeout d
  | OGraceful d => WithGracefulShutdownTimeout d
  | OMemoryLimit n => WithMemoryLimit n
  end.

(** No connection yet. *)
Definition idle (s : Listener) : Prop :=
  closed s = false /\ conns s = ∅ /\ open s = ∅ /\ loop s = Accepting /\ handlers s = ∅ /\ leaving s = ∅ /\ peakConns s = 0 /\
  jobsClosed s = false.

Lemma NewServer_idle now opts : idle (NewServer now (option_fun <$> opts)).
Proof.
  unfold NewServer. assert (forall s, idle s -> idle (foldl (fun s opt => opt s) s (option_fun <$> opts))) as H.
  { induction opts as [|o opts IH]; intros s Hs; [done|]. cbn. apply IH. by destruct o. }
  by apply (H new_server).
Qed.

Lemma idle_ok s : idle s -> server_ok s.
Proof.
  intros (Hc & Hcs & Ho & Ha & Hh & Hv & Hp & _).
  split; unfold unregistered, starting, accounted; rewrite ?Hc, ?Hcs, ?Ho, ?Ha, ?Hh, ?Hv, ?Hp, ?size_empty; try done; try lia; set_solver +.
Qed.

(** The sets of a state after a step, from those before it. *)
Ltac step_ok Hl :=
  unfold unregistered, starting, accounted in *; rewrite ?Hl in *; cbn in *.

Lemma accept_ok id s : server_ok s -> loop s = Accepting -> id ∉ open s -> id ∉ handlers s -> server_ok (accept id s).
Proof.
  intros [H1 H2 H3 H4 H5 H6 H7 H8 H9] Hl Ho Hh. unfold accept. step_ok Hl. split; step_ok Hl; try done; try lia.
  - set_solver +H5.
  - set_solver +H6.
  - set_solver +Ho Hh H5.
Qed.

Lemma register_ok id s : server_ok s -> loop s = Accepted id -> server_ok (register id s).
Proof.
  intros [H1 H2 H3 H4 H5 H6 H7 H8 H9] Hl. unfold register, at_stage. step_ok Hl. assert (id ∉ conns s) as Hni by (set_solver +H8).
  destruct (Z.geb_spec (Z.of_nat (size (conns s))) (maxConns s)).
  - split; step_ok Hl; done || lia.
  - assert (size (conns s ∪ {[id]}) = S (size (conns s))) as Hs.
    { rewrite size_union by (set_solver +Hni). rewrite size_singleton. lia. }
    split; step_ok Hl; rewrite ?Hs; try done; try lia.
    + set_solver +H4.
    + set_solver +H5 H8.
    + set_solver +H6.
    + set_solver +H7 H8.
    + set_solver +H8.
Qed.

Lemma refuse_ok id s : server_ok s -> loop s = Refusing id -> server_ok (refuse id s).
Proof.
  intros [H1 H2 H3 H4 H5 H6 H7 H8 H9] Hl. unfold refuse. step_ok Hl. split; step_ok Hl; try done; try lia.
  - set_solver +H5 H8.
  - set_solver +H6.
Qed.

Lemma note_peak_ok id curr s : server_ok s -> loop s = Registered id curr -> server_ok (note_peak id curr s).
Proof.
  intros [H1 H2 H3 H4 H5 H6 H7 H8 H9] Hl. unfold note_peak. step_ok Hl.
  assert (0 <= curr) by lia. destruct (Z.leb_spec curr (peakConns s)); split; step_ok Hl; done || lia.
Qed.

Lemma start_handler_ok id s : server_ok s -> loop s = Noted id -> server_ok (start_handler id s).
Proof.
  intros [H1 H2 H3 H4 H5 H6 H7 H8 H9] Hl. unfold start_handler. step_ok Hl. split; step_ok Hl; try done; try lia.
  - set_solver +H4.
  - set_solver +H7.
Qed.

(** The loop is where it was. *)
Ltac same_loop s :=
  change (unregistered (with_state _ _ _ _ _ _ _ _ s)) with (unregistered s);
  change (starting (with_state _ _ _ _ _ _ _ _ s)) with (starting s);
  change (accounted (with_state _ _ _ _ _ _ _ _ s)) with (accounted s).

Lemma unregister_ok id s : server_ok s -> id ∈ handlers s -> server_ok (unregister id s).
Proof.
  intros [H1 H2 H3 H4 H5 H6 H7 H8 H9] Hid.
  assert (size (conns s ∖ {[id]}) <= size (conns s))%nat by (apply subseteq_size; set_solver +).
  unfold unregister. split; same_loop s; cbn [conns open handlers leaving peakConns maxConns with_state]; try done; try lia.
  - set_solver +H4.
  - set_solver +H5.
  - intros x Hx%H6. destruct (decide (x = id)); set_solver.
  - set_solver +H7 Hid.
  - set_solver +H8.
Qed.

Lemma hang_up_ok id s : server_ok s -> id ∈ leaving s -> server_ok (hang_up id s).
Proof.
  intros [H1 H2 H3 H4 H5 H6 H7 H8 H9] Hid. unfold hang_up. split; same_loop s; cbn [conns open handlers leaving peakConns maxConns with_state]; try done; try lia.
  - set_solver +H5 H7 Hid.
  - set_solver +H6.
  - set_solver +H8 H7 Hid.
Qed.

Lemma finish_ok id s : server_ok s -> id ∈ leaving s -> id ∉ open s -> server_ok (finish id s).
Proof.
  intros [H1 H2 H3 H4 H5 H6 H7 H8 H9] Hid Ho. unfold finish. split; same_loop s; cbn [conns open handlers leaving peakConns maxConns with_state]; try done; try lia.
  - set_solver +H4 H5 Ho.
  - set_solver +H6 Ho.
  - set_solver +H7.
  - set_solver +H8.
  - set_solver +H9.
Qed.

Lemma close_conns_ok s : server_ok s -> server_ok (close_conns s).
Proof.
  intros [H1 H2 H3 H4 H5 H6 H7 H8 H9]. unfold close_conns.
  split; same_loop s; cbn [conns open handlers leaving peakConns maxConns with_state]; rewrite ?size_empty; try done; try lia.
  - set_solver +H6.
  - set_solver +H7.
  - set_solver +H8.
Qed.

Lemma accept_error_ok s : server_ok s -> loop s = Accepting -> server_ok (accept_error s).2.
Proof.
  intros [H1 H2 H3 H4 H5 H6 H7 H8 H9] Hl. unfold accept_error, at_stage. destruct (closed s); step_ok Hl; split; step_ok Hl; done || lia.
Qed.

Lemma server_step_ok s s' : server_ok s -> server_step s s' -> server_ok s'.
Proof.
  intros Hok []; [by apply accept_ok|by apply accept_error_ok|by apply register_ok|by apply refuse_ok|by apply note_peak_ok
    |by apply start_handler_ok|by apply unregister_ok|by apply hang_up_ok|by apply finish_ok| | | | |by apply close_conns_ok];
    destruct Hok; by split.
Qed.

Notation server_steps := (rtc server_step).

Lemma server_steps_ok s s' : server_ok s -> server_steps s s' -> server_ok s'.
Proof. intros Hok Hs. induction Hs as [|s s1 s' H1 _ IH]; [done|]. apply IH. by eapply server_step_ok. Qed.

Lemma server_step_options s s' : server_step s s' -> maxConns s' = maxConns s.
Proof. destruct 1; try done; unfold accept_error, register; by repeat case_match. Qed.

Lemma server_steps_options s s' : server_steps s s' -> maxConns s' = maxConns s.
Proof. induction 1 as [|s s1 s' H1 _ IH]; [done|]. rewrite IH. by apply server_step_options. Qed.

Lemma connection_limit_ok now opts s : server_steps (listen (NewServer now (option_fun <$> opts))) s -> server_ok s.
Proof. apply server_steps_ok. pose proof (idle_ok _ (NewServer_idle now opts)) as []. by split. Qed.

(** C19 (invariant): the limit on connections holds.  Over any run of a server with any options, at every moment between two
    critical sections of the loop, the handlers and [Close], at most [MaxConns] connections are registered and the peak is not
    above [MaxConns]; the peak is at least their number, but for the one connection that is registered and not yet compared with
    it; every registered connection has an open socket and is counted by the wait group, but for the one that is registered and
    not yet started; and no open socket is lost: each belongs to a registered connection, to one whose handler is about to close
    it, or to the one the loop has accepted and not yet registered or is refusing. *)
Theorem connection_limit now opts s :
  let s0 := listen (NewServer now (option_fun <$> opts)) in
  server_steps s0 s -> server_ok s /\ maxConns s = maxConns s0.
Proof. intros s0 Hs. split; [by eapply connection_limit_ok|by apply server_steps_options]. Qed.

(** *** Closing *)

(** After [close_conns], with no connection between the listener and the registration. *)
Definition closing (hs : gset nat) (s : Listener) : Prop :=
  closed s = true /\ listening s = false /\ unregistered s = ∅ /\ conns s = ∅ /\ open s ⊆ leaving s /\ handlers s ∪ starting s ⊆ hs.

Lemma closing_step hs s s' : closing hs s -> server_step s s' -> closing hs s'.
Proof.
  intros (Hc & Hl & Hu & Hcs & Ho & Hh) Hst. unfold closing.
  destruct Hst as [id Hl' _ _ _|Hlp|id Hlp|id Hlp|id curr Hlp|id Hlp|id _ _|id _|id _ Hno|n|n| | |]; try congruence;
    try (by split_and!).
  - unfold accept_error. rewrite Hc. unfold unregistered, starting in *. rewrite Hlp in *. by split_and!.
  - unfold unregistered in Hu. rewrite Hlp in Hu. by apply non_empty_singleton_L in Hu.
  - unfold unregistered in Hu. rewrite Hlp in Hu. by apply non_empty_singleton_L in Hu.
  - unfold starting in *. rewrite Hlp in Hh. by split_and!.
  - unfold starting in *. rewrite Hlp in Hh. split_and!; try done. cbn. set_solver +Hh.
  - split_and!; try done; cbn; [set_solver +Hcs|set_solver +Ho].
  - split_and!; try done. cbn. set_solver +Ho.
  - split_and!; try done; [cbn; set_solver +Ho Hno|]. change (starting (finish id s)) with (starting s). cbn [handlers finish with_state]. set_solver +Hh.
  - split_and!; try done. cbn. set_solver +Ho.
Qed.

Lemma closing_steps hs s s' : closing hs s -> server_steps s s' -> closing hs s'.
Proof. intros Hcl Hs. induction Hs as [|s1 s2 s3 Hstep _ IH]; [done|]. apply IH. by eapply closing_step. Qed.

(** The steps that are left to the handler of one connection. *)
Lemma handler_ends s id : id ∈ handlers s ->
  exists s', server_steps s s' /\ handlers s' = handlers s ∖ {[id]} /\ loop s' = loop s.
Proof.
  intros Hid.
  assert (exists s1, server_steps s s1 /\ id ∈ leaving s1 /\ handlers s1 = handlers s /\ loop s1 = loop s) as (s1 & Hs1 & Hlv & <- & <-).
  { destruct (decide (id ∈ leaving s)) as [Hlv|Hlv]; [by exists s|]. exists (unregister id s).
    split; [by apply rtc_once, st_unregister|]. split; [cbn; set_solver +|done]. }
  exists (finish id (hang_up id s1)). split; [|done]. etrans; [exact Hs1|]. eapply rtc_l; [by apply (st_hang_up s1 id)|].
  apply rtc_once, st_finish; cbn; [done|set_solver +].
Qed.

Lemma handlers_end s : exists s', server_steps s s' /\ handlers s' = ∅ /\ loop s' = loop s.
Proof.
  remember (size (handlers s)) as n eqn:Hn. revert s Hn. induction n as [n IH] using lt_wf_ind. intros s ->.
  destruct (decide (handlers s = ∅)) as [|[id Hid]%set_choose_L]; [by exists s|].
  destruct (handler_ends s id Hid) as (s1 & Hs1 & Hh1 & Hl1).
  destruct (IH (size (handlers s1))) with (s := s1) as (s' & Hs' & Hh' & Hl'); [|done|].
  { rewrite Hh1. apply subset_size. set_solver +Hid. }
  exists s'. split; [by etrans|]. split; [done|congruence].
Qed.

(** The loop starts the handler of the connection it has registered. *)
Lemma loop_starts s : exists s', server_steps s s' /\ starting s' = ∅.
Proof.
  unfold starting. destruct (loop s) as [|id|id|id curr|id|] eqn:Hl; try (by exists s; rewrite Hl).
  - exists (start_handler id (note_peak id curr s)). split; [|done]. eapply rtc_l; [by apply st_note_peak|]. by apply rtc_once, st_start.
  - exists (start_handler id s). split; [|done]. by apply rtc_once, st_start.
Qed.

Lemma closing_drains hs s : closing hs s -> server_ok s ->
  exists s', server_steps s s' /\ open s' = ∅ /\ handlers s' = ∅ /\ starting s' = ∅.
Proof.
  intros Hcl Hok. destruct (loop_starts s) as (s1 & Hs1 & Hst).
  pose proof (closing_steps _ _ _ Hcl Hs1) as Hcl1. pose proof (server_steps_ok _ _ Hok Hs1) as Hok1.
  destruct (handlers_end s1) as (s2 & Hs2 & Hh & Hl). exists s2. split; [by etrans|].
  pose proof (closing_steps _ _ _ Hcl1 Hs2) as (_ & _ & _ & _ & Ho & _). pose proof (ok_leaving _ (server_steps_ok _ _ Hok1 Hs2)) as Hlv.
  split; [set_solver +Ho Hlv Hh|]. split; [done|]. unfold starting in *. by rewrite Hl.
Qed.

(** C20 (liveness): closing a server closes its connections.  Take any run of a server up to the moment when [Close], with the
    listener closed, closes the connections, and let the loop have no connection then that it has accepted and not yet
    registered.  From then on, whatever happens, no connection is accepted or registered, only handlers that were running, or that
    of the connection the loop had just registered, run, and the only open sockets are those their handlers are about to
    close.  The steps left to the loop and the handlers, whose sockets are closed so that their reads fail, lead from every such
    state to one where no socket is open and no handler runs, and there the wait of [Close] is over, with or without a timeout. *)
Theorem close_drains now opts s s' :
  server_steps (listen (NewServer now (option_fun <$> opts))) s -> closed s = true -> listening s = false -> unregistered s = ∅ ->
  server_steps (close_conns s) s' ->
  conns s' = ∅ /\ unregistered s' = ∅ /\ open s' ⊆ leaving s' /\ handlers s' ∪ starting s' ⊆ handlers s ∪ starting s /\
  exists s'', server_steps s' s'' /\ open s'' = ∅ /\ handlers s'' = ∅ /\ starting s'' = ∅ /\ wait_over false s'' = true.
Proof.
  intros Hs Hc Hl Hu Hs'. apply connection_limit_ok in Hs as Hok.
  assert (closing (handlers s ∪ starting s) (close_conns s)) as Hb.
  { pose proof (ok_none_lost _ Hok) as H6. rewrite Hu in H6. unfold closing. split_and!; try done. cbn. set_solver +H6. }
  assert (server_ok s') as Hok' by (eapply server_steps_ok; [|exact Hs']; by apply close_conns_ok).
  pose proof (closing_steps _ _ _ Hb Hs') as Hcl. destruct (closing_drains _ s' Hcl Hok') as (s2 & Hs2 & Ho2 & Hh2 & Hst2).
  destruct Hcl as (_ & _ & ? & ? & ? & ?). split_and!; try done. exists s2. split_and!; try done.
  unfold wait_over. by rewrite bool_decide_true.
Qed.

(** A connection the listener returned just before [Close] is registered after it: it is served, and without a timeout
    [Close] waits for it. *)
Example connection_survives_close :
  let s := close_conns (close_listener (close_flag (accept 1 (listen (NewServer 0 []))))) in
  let s := start_handler 1 (note_peak 1 1 (register 1 s)) in
  closed s = true /\ open s = {[1%nat]} /\ handlers s = {[1%nat]} /\ wait_over true s = false.
Proof. cbn. split_and!; [done|set_solver +|set_solver +|]. vm_compute. reflexivity. Qed.

(** A connection that is registered when [Close] begins, and whose handler is not yet started, is not waited for: [Close] ends
    first, and the handler runs after it. *)
Example close_ends_before_handler :
  let s := register 1 (accept 1 (listen (NewServer 0 []))) in
  let s := close_conns (close_listener (close_flag s)) in
  loop s = Registered 1 1 /\ wait_over false s = true /\ handlers (start_handler 1 (note_peak 1 1 s)) = {[1%nat]}.
Proof. vm_compute. split_and!; reflexivity. Qed.

(** A second [Close] panics. *)
Lemma second_close_panics s s' : close_end s ⇓ s' -> close_end (close_conns (close_listener (close_flag s'))) = Panic.
Proof. unfold close_end. destruct (jobsClosed s); [done|]. by intros [= <-]. Qed.

(** A server for one connection, which one client uses and another is refused. *)
Definition one_server : Listener := listen (NewServer 0 (option_fun <$> [OMaxConns 1])).
Definition one_client : Listener := start_handler 1 (note_peak 1 1 (register 1 (accept 1 one_server))).
Definition refused : Listener := refuse 2 (register 2 (accept 2 one_client)).

Lemma one_client_run : server_steps one_server one_client /\ server_steps one_client refused.
Proof.
  split.
  - eapply rtc_l; [apply (st_accept _ 1); [done|done|by compute_done|by compute_done]|].
    eapply rtc_l; [by apply (st_register _ 1)|]. eapply rtc_l; [by apply (st_note_peak _ 1 1)|]. by apply rtc_once, (st_start _ 1).
  - eapply rtc_l; [apply (st_accept _ 2); [done|done|by compute_done|by compute_done]|].
    eapply rtc_l; [by apply (st_register _ 2)|]. by apply rtc_once, (st_refuse _ 2).
Qed.

Lemma connection_limit_witness :
  server_ok refused /\ maxConns refused = 1 /\ conns refused = {[1%nat]} /\ open refused = {[1%nat]} /\ peakConns refused = 1.
Proof.
  destruct (connection_limit 0 [OMaxConns 1] refused) as [Hok Hm].
  { etrans; apply one_client_run. }
  split; [exact Hok|]. split; [exact Hm|]. vm_compute. split_and!; reflexivity.
Defined.

Definition before_close : Listener := close_listener (close_flag refused).

Lemma before_close_run : server_steps one_server before_close.
Proof.
  etrans; [apply one_client_run|]. etrans; [apply one_client_run|].
  eapply rtc_l; [apply st_close_flag|]. by apply rtc_once, st_close_listener.
Qed.

Lemma close_drains_witness :
  handlers (close_conns before_close) = {[1%nat]} /\ open (close_conns before_close) ⊆ leaving (close_conns before_close) /\
  exists s'', server_steps (close_conns before_close) s'' /\ open s'' = ∅ /\ handlers s'' = ∅ /\ wait_over false s'' = true.
Proof.
  destruct (close_drains 0 [OMaxConns 1] before_close (close_conns before_close)) as (_ & _ & Ho & _ & s2 & Hs2 & Ho2 & Hh2 & _ & Hw);
    [apply before_close_run|reflexivity|reflexivity|reflexivity|apply rtc_refl|].
  split; [vm_compute; reflexivity|]. split; [exact Ho|]. exists s2. split; [exact Hs2|]. split; [exact Ho2|]. split; [exact Hh2|exact Hw].
Defined.
