(* ===== verification/Display.v ===== *)
(** * Displays of the command line (cli/monitor.go, cli/cluster_cmd.go, cli/version.go)

    The commands that show the state of a server, of a cluster's nodes, and the version.  A line that is printed is its format with
    the values that go into it. *)

From Stdlib Require Import ZArith Lia Strings.String Strings.Ascii Floats.SpecFloat.
From stdpp Require Import base tactics numbers list gmap sets fin_maps strings.
From S2P Require Import Prelude.
From S2P Require Import Float64.
From S2P Require Import Bytes.
From S2P Require Import Wire.
From S2P Require Import RaftCmd.
From S2P Require Import Client.
From S2P Require Import Cluster.
From S2P Require Import Cli.
From S2P Require Import Commands.
From S2P Require Import CommandsSpec.
From S2P Require Import Listen.

#[local] Open Scope string_scope.
#[local] Open Scope list_scope.
#[local] Open Scope Z_scope.

(** [IDuration]: nanoseconds, printed by [Duration.String]. *)
Inductive item : Type := IInt (n : Z) | IStr (s : string) | INum (x : float) | IHuman (h : human) | IDuration (d : Z).
Record line : Type := mkLine { l_format : string; l_items : list item }.

Definition plain (s : string) : line := mkLine s [].

(** The end of a command: its lines, or the error it exits with, and the prefix of that message. *)
Definition shown : Type := result (string * error) (list line).

(** ** The nodes of a cluster *)

Definition node_line (n : NodeInfo) : line :=
  mkLine "  %-20s  weight=%-4d  %s\n" [IStr (i_Addr n); IInt (i_Weight n); IStr (if i_Healthy n then "healthy" else "unhealthy")].

(** [yaml], [data] and [dial] as for the client of a command. *)
Definition clusterNodesCmd `{MO : Mode St AnyMode} (text : error -> string) (yaml : string -> result error clusterFileConfig)
    (data : result error string) (dial : string -> option error) (g : cli_config) : shown :=
  if decide (clusterConfigPath g = "") then Err ("", ErrMsg "--cluster-config is required")
  else match loadClusterConfig text yaml data (clusterCfg g) with
  | Err e => Err ("", e)
  | Ok o =>
      match Cluster.New dial [WithMode (o_Mode o); WithNodes (o_Nodes o); WithSentinels (o_Sentinels o); WithMaster (o_Master o);
          WithSlaves (o_Slaves o); WithHealthCheckInterval (HealthCheckInterval o); WithHealthCheckTimeout (HealthCheckTimeout o);
          WithFailoverTimeout (FailoverTimeout o)] with
      | Err e => Err ("", e)
      | Ok cm =>
          let nodes := cm_Nodes cm in
          Ok ([mkLine "Mode:  %s\n" [IStr (o_Mode o)]; mkLine "Nodes: %d\n\n" [IInt (Z.of_nat (length nodes))]] ++ (node_line <$> nodes))
      end
  end.

(** ** The monitor *)

(** [Duration.Round]: half away from zero, kept in range. *)
Definition Round (d m : Z) : Z :=
  if m <=? 0 then d
  else
    let r := Z.rem d m in
    if d <? 0 then
      let r := - r in
      if r + r <? m then d + r else let d1 := int64 (d - m + r) in if d1 <? d then d1 else min_int64
    else if r + r <? m then d - r else let d1 := int64 (d + m - r) in if d1 >? d then d1 else max_int64.

(** [uint64(x)]: towards zero; out of range the conversion of amd64. *)
Definition to_uint64 (x : float) : Z :=
  match x with
  | S754_zero _ => 0
  | S754_finite s m e =>
      let n := if e <? 0 then Zpos m / 2 ^ (- e) else Zpos m * 2 ^ e in
      let n := if s then - n else n in
      if (0 <=? n) && (n <? 2 ^ 64) then n else 2 ^ 63
  | _ => 2 ^ 63
  end.

(** What the runtime of the command says. *)
Record local_stats : Type := mkLocal { lo_Alloc : Z; lo_Sys : Z; lo_Goroutines : Z }.

Definition size_line (format : string) (b : Z) : outcome line := h ← humanBytes b; mret (mkLine format [IHuman h]).

Definition memory_line (stats : ServerStats) : outcome line :=
  if MemoryLimit stats >? 0 then
    let pct := (int (CacheMemory stats) / int (MemoryLimit stats) * int 100)%f64 in
    bar ← renderBar pct 20;
    used ← humanBytes (CacheMemory stats);
    limit ← humanBytes (MemoryLimit stats);
    mret (mkLine "  Heap Used:    %s / %s  %s  %.1f%%\n" [IHuman used; IHuman limit; IStr bar; INum pct])
  else size_line "  Heap Used:    %s (no limit set)\n" (CacheMemory stats).

Definition rate_lines (stats : ServerStats) : outcome (list line) :=
  if UptimeMs stats >? 0 then
    let secs := (int (UptimeMs stats) / int 1000)%f64 in
    reads ← size_line "  Read Rate:    %s/s\n" (to_uint64 (int (BytesRead stats) / secs)%f64);
    writes ← size_line "  Write Rate:   %s/s\n" (to_uint64 (int (BytesWritten stats) / secs)%f64);
    mret [reads; writes; mkLine "  Req Rate:     %.1f/s\n" [INum (int (TotalRequests stats) / secs)%f64]]
  else Ret [].

Definition stats_lines (stats : ServerStats) (lo : local_stats) : outcome (list line) :=
  memory ← memory_line stats;
  reads ← size_line "  Bytes Read:   %s\n" (BytesRead stats);
  writes ← size_line "  Bytes Written:%s\n" (BytesWritten stats);
  rates ← rate_lines stats;
  alloc ← size_line "  Heap Used:    %s\n" (lo_Alloc lo);
  sys ← size_line "  Heap Sys:     %s\n" (lo_Sys lo);
  mret ([plain "=== mcache Process Monitor ===\n";
         mkLine "Uptime:      %s\n" [IDuration (Round (int64 (UptimeMs stats * 1000000)) 1000000000)];
         mkLine "Go Version:  %s %s/%s\n" [IStr (GoVersion stats); IStr (OS stats); IStr (Arch stats)]; plain "\n";
         plain "Memory:\n"; memory; mkLine "  Goroutines:   %d\n" [IInt (Goroutines stats)]; plain "\n";
         plain "Cache:\n"; mkLine "  Entries:      %d\n" [IInt (CacheEntries stats)]; plain "\n";
         plain "Network I/O:\n"; mkLine "  Connections:  %d (peak %d)\n" [IInt (Connections stats); IInt (PeakConns stats)];
         mkLine "  Requests:     %d total\n" [IInt (TotalRequests stats)]; reads; writes] ++ rates ++
        [plain "\n"; plain "CLI Process (local):\n"; alloc; sys; mkLine "  Goroutines:   %d\n" [IInt (lo_Goroutines lo)]]).

(** [connect]: the error of [newCmdClient], if any; [data]: what [Stats] returns; [decode]: [json.Unmarshal]. *)
Definition printMonitor (connect : option error) (data : result error (option bytes)) (decode : bytes -> result error ServerStats)
    (lo : local_stats) : outcome shown :=
  match connect with
  | Some e => Ret (Err ("", e))
  | None =>
      match data with
      | Err e => Ret (Err ("", e))
      | Ok data =>
          match decode (val data) with
          | Err e => Ret (Err ("decode stats: ", e))
          | Ok stats => lines ← stats_lines stats lo; mret (Ok lines)
          end
      end
  end.

Definition versionCmd (Version GitCommit BuildTime : string) : line :=
  mkLine "mcache %s (commit: %s, built: %s)\n" [IStr Version; IStr GitCommit; IStr BuildTime].

(** ** The monitor shows what it is given *)

Definition uint64 (n : Z) : Prop := 0 <= n < 2 ^ 64.

Lemma humanBytes_returns b : uint64 b -> exists h, humanBytes b ⇓ h.
Proof.
  intros Hb. destruct (decide (b < 1024)) as [Hs|Hl].
  - exists (Plain b). unfold humanBytes. by rewrite (proj2 (Z.ltb_lt _ _) Hs).
  - destruct (human_bytes_unit b) as (j & unit & _ & _ & Hh & _); [unfold uint64 in *; lia|]. eauto.
Qed.

Lemma size_line_returns format b : uint64 b -> exists l, size_line format b ⇓ l.
Proof. intros [h Hh]%humanBytes_returns. unfold size_line. rewrite Hh. by eexists. Qed.

Lemma to_uint64_range x : uint64 (to_uint64 x).
Proof. unfold uint64, to_uint64. destruct x as [| | |s m e]; try lia. case_match eqn:H; lia. Qed.

Lemma of_Z_positive n : 0 < n < 2 ^ 64 -> F64.ltb F64.zero (int n) = true.
Proof.
  intros Hn. destruct n as [|p|p]; [lia| |lia]. change (int (Zpos p)) with (binary_round 53 1024 false p 0).
  destruct (binary_round_widens false p 0 ltac:(lia)) as (m & e & -> & Hm & He & Hf & Hu).
  rewrite (units_0 _ e He) in Hu. apply Z.mul_cancel_r in Hu; [|apply Z.pow_nonzero; lia].
  assert (- e < Zdigits2 m) as Hd.
  { assert (2 ^ (- e) <= m) as Hle by (rewrite Hu; pose proof (Z.pow_pos_nonneg 2 (- e) ltac:(lia) ltac:(lia)); nia).
    pose proof (Zdigits_ge m (- e) ltac:(lia) ltac:(lia)). lia. }
  destruct (round_aux_spec false m e loc_Exact ltac:(lia) Hf) as (m1 & e' & [He' _ _ Hr Hnorm] & ->). rewrite fexp_max in He'.
  unfold packed, finite_or_inf. destruct (Z.eqb_spec m1 0) as [->|]; [lia|]. by repeat case_match.
Qed.

Lemma mul_not_nan x m e :
  F64.valid x -> F64.is_nan x = false -> F64.valid (S754_finite false m e) -> F64.is_nan (F64.mul x (S754_finite false m e)) = false.
Proof.
  intros Hx Hn Hc. destruct x as [sx|sx| |sx mx ex]; try done. cbn [F64.mul SFmul].
  destruct (round_aux_spec (xorb sx false) (Zpos (mx * m)) (ex + e) loc_Exact ltac:(lia) (mul_pre _ _ _ _ _ _ Hx Hc)) as (m1 & e' & _ & ->).
  unfold packed, finite_or_inf. by repeat case_match.
Qed.

Lemma memory_line_returns stats : uint64 (CacheMemory stats) -> uint64 (MemoryLimit stats) -> exists l, memory_line stats ⇓ l.
Proof.
  intros Hc Hl. unfold memory_line. destruct (Z.gtb_spec (MemoryLimit stats) 0) as [Hp|]; [|by apply size_line_returns].
  set (pct := (int (CacheMemory stats) / int (MemoryLimit stats) * int 100)%f64).
  assert (int 100 = S754_finite false 7036874417766400 (-46)) as H100 by reflexivity. pose proof (of_Z_valid 100) as Hv100.
  assert (F64.valid (int (CacheMemory stats) / int (MemoryLimit stats))%f64) as Hvd by (apply div_valid; apply of_Z_valid).
  destruct (render_bar_width pct 20) as (bar & -> & _); [by apply mul_valid| |lia|].
  { unfold pct. rewrite H100 in *. apply mul_not_nan; [done| |done].
    apply finite_div_positive; [apply of_Z_valid..|apply of_Z_finite|apply of_Z_positive]; unfold uint64 in *; lia. }
  destruct (humanBytes_returns _ Hc) as [used ->], (humanBytes_returns _ Hl) as [limit ->]. by eexists.
Qed.

(** What the server and the runtime report is shown, whatever the numbers are, 64 bits wide: no size is too large for its units and
    the bar is drawn also above the limit and for an uptime below a second. *)
Lemma monitor_shows stats lo :
  uint64 (CacheMemory stats) -> uint64 (MemoryLimit stats) -> uint64 (BytesRead stats) -> uint64 (BytesWritten stats) ->
  uint64 (lo_Alloc lo) -> uint64 (lo_Sys lo) -> exists lines, stats_lines stats lo ⇓ lines.
Proof.
  intros H1 H2 H3 H4 H5 H6. unfold stats_lines. destruct (memory_line_returns stats H1 H2) as [l1 ->].
  destruct (size_line_returns "  Bytes Read:   %s\n" _ H3) as [l2 ->], (size_line_returns "  Bytes Written:%s\n" _ H4) as [l3 ->].
  assert (exists l, rate_lines stats ⇓ l) as [l4 ->].
  { unfold rate_lines. destruct (UptimeMs stats >? 0); [|by eexists]. set (secs := (int (UptimeMs stats) / int 1000)%f64).
    destruct (size_line_returns "  Read Rate:    %s/s\n" _ (to_uint64_range (int (BytesRead stats) / secs)%f64)) as [a ->].
    destruct (size_line_returns "  Write Rate:   %s/s\n" _ (to_uint64_range (int (BytesWritten stats) / secs)%f64)) as [b ->]. by eexists. }
  destruct (size_line_returns "  Heap Used:    %s\n" _ H5) as [l5 ->], (size_line_returns "  Heap Sys:     %s\n" _ H6) as [l6 ->]. by eexists.
Qed.

(** An hour and half a second of uptime is shown as an hour and a second. *)
Example uptime_rounded : Round 3600500000000 1000000000 = 3601000000000.
Proof. reflexivity. Qed.

(** One line per node, in their order. *)
Lemma cluster_nodes_listed `{MO : Mode St AnyMode} text yaml data dial g lines :
  clusterNodesCmd text yaml data dial g = Ok lines -> exists cm, drop 2 lines = node_line <$> cm_Nodes (M := AnyMode) cm.
Proof. unfold clusterNodesCmd. repeat case_match; try done. intros [= <-]. by eexists. Qed.
