(* ===== verification/Config.v ===== *)
(** * Configuration files (config.go)

    The configuration of a server as the YAML package fills it, its defaults, and the options of a cache it stands for.
    Reading the file and parsing YAML are arguments. *)

From Stdlib Require Import Strings.String Floats.SpecFloat.
From stdpp Require Import base tactics numbers list gmap sets fin_maps strings.
From S2P Require Import Prelude.
From S2P Require Import Float64.
From S2P Require Import Duration.
From S2P Require Import Cache.

Open Scope string_scope.
Open Scope list_scope.
Open Scope Z_scope.

Record CacheConfig : Type := mkCacheConfig {
  Shards : Z; MaxSize : Z; DefaultTTL : string; cc_EvictionPolicy : string; cc_Rehasher : string; CleanupInterval : string;
  ObserverEnabled : bool;
}.

Record TLSConfig : Type := mkTLS { tls_Enabled : bool; CertFile : string; KeyFile : string }.
Record AuthConfig : Type := mkAuth { auth_Enabled : bool; Token : string }.
Record LoggingConfig : Type := mkLogging { Level : string; Format : string; Output : string }.
Record MetricsConfig : Type := mkMetrics { metrics_Enabled : bool; metrics_Address : string }.

Record ServerConfig : Type := mkServerConfig {
  Address : string; Workers : Z; MaxConns : Z; ReadTimeout : string; WriteTimeout : string; GracefulShutdownTimeout : string;
  TLS : TLSConfig; Auth : AuthConfig; Logging : LoggingConfig; Metrics : MetricsConfig; MemoryLimit : string;
}.

Record MonitorConfig : Type := mkMonitorConfig { mon_Enabled : bool; mon_Interval : string; mon_Capacity : Z }.
Record ClusterConfig : Type := mkClusterConfig { cluster_Mode : string; cluster_Nodes : list string; ReplicationFactor : Z }.
Record RaftPeerConfig : Type := mkRaftPeer { peer_ID : Z; peer_Addr : string }.
Record RaftConfig : Type := mkRaftConfig { raft_Enabled : bool; raft_NodeID : Z; BindAddr : string; raft_Peers : list RaftPeerConfig }.
Record ClientConfig : Type := mkClientConfig {
  PoolSize : Z; DialTimeout : string; client_ReadTimeout : string; client_WriteTimeout : string;
}.

Record MBRMigrationConfig : Type := mkMBRMigration {
  mig_CheckInterval : string; mig_MaxMigrationTime : string; mig_PauseOnCPUThreshold : float; mig_PauseOnMemThreshold : float;
  mig_TargetLoadPerShard : Z; mig_MinShards : Z; mig_MaxShards : Z;
}.

Record MBRConfig : Type := mkMBR {
  mbr_Enabled : bool; mbr_MatrixCapacity : Z; mbr_DecisionInterval : string; mbr_Setpoint : float;
  Kp : float; Ki : float; Kd : float;
  w_MemGrowth : float; w_HitRate : float; w_NewKeys : float; w_EvictionPressure : float; w_BufferPenalty : float;
  Migration : MBRMigrationConfig;
}.

Record Config : Type := mkConfig {
  cfg_Cache : CacheConfig; cfg_Server : ServerConfig; cfg_Monitor : MonitorConfig; cfg_Cluster : ClusterConfig;
  cfg_Client : ClientConfig; cfg_MBR : MBRConfig; cfg_Raft : RaftConfig;
}.

(** [ReadFile] and [Unmarshal] are the results of reading the file and parsing its contents; an error is a text and the error it wraps. *)
Definition LoadConfig (ReadFile : string -> result error string) (Unmarshal : string -> result error Config) (path : string) :
    result (string * error) Config :=
  match ReadFile path with
  | Err err => Err ("failed to read config file: ", err)
  | Ok data =>
      match Unmarshal data with
      | Err err => Err ("failed to parse config file: ", err)
      | Ok cfg => Ok cfg
      end
  end.

(** The error is the text before that of the parser of durations. *)
Definition BuildOptions (c : CacheConfig) : result string Options :=
  let opts := WithRehasher (cc_Rehasher c) (WithEvictionPolicy (cc_EvictionPolicy c) (WithMaxSize (MaxSize c) (WithShards (Shards c) NewOptions))) in
  if decide (DefaultTTL c = "") then Ok opts
  else
    match ParseDuration (DefaultTTL c) with
    | None => Err "invalid default_ttl: "
    | Some d => Ok (WithDefaultTTL d opts)
    end.

Definition DefaultConfig : Config :=
  mkConfig
    (mkCacheConfig 16 10000 "" "lru" "incremental" "" true)
    (mkServerConfig ":11211" 256 100000 "30s" "5s" "30s" (mkTLS false "" "") (mkAuth false "")
       (mkLogging "info" "text" "stdout") (mkMetrics false "") "")
    (mkMonitorConfig false "5s" 60)
    (mkClusterConfig "standalone" [] 1)
    (mkClientConfig 4 "5s" "10s" "5s")
    (mkMBR false 60 "500ms" (pc 60) F64.one (pc 10) (pc 5) (pc 35) (pc 25) (pc 20) (pc 15) (pc 5)
       (mkMBRMigration "100ms" "5m" (pc 80) (pc 85) 512 4 1024))
    (mkRaftConfig false 1 ":12001" []).

(** ** What the options are *)

(** A lifetime in the file: none, or one that can be parsed. *)
Definition ttl_of (s : string) : option Z := if decide (s = "") then Some 0 else ParseDuration s.

Lemma BuildOptions_spec c :
  BuildOptions c = match ttl_of (DefaultTTL c) with
                   | None => Err "invalid default_ttl: "
                   | Some d => Ok (mkOptions (Shards c) (MaxSize c) d (cc_EvictionPolicy c) (cc_Rehasher c) None)
                   end.
Proof. unfold BuildOptions, ttl_of. case_decide; [done|]. by destruct (ParseDuration _). Qed.
