(* ===== verification/Boot.v ===== *)
(** * Starting a server (cli/server.go, cli/logger.go)

    The command that starts a server puts the parts together: configuration, log, observers, cache, server, Raft and the decision
    engine.  Processes, signals and the HTTP server for metrics are left out; reading the configuration is in Config.v.  [exit] of the
    process is a value. *)

From Stdlib Require Import Strings.String Strings.Ascii Floats.SpecFloat.
From stdpp Require Import base tactics numbers list gmap sets fin_maps strings.
From S2P Require Import Prelude.
From S2P Require Import Policy.
From S2P Require Import Policies.
From S2P Require Import Shard.
From S2P Require Import Rehash.
From S2P Require Import Text.
From S2P Require Import Float64.
From S2P Require Import Duration.
From S2P Require Import Cache.
From S2P Require Import Monitor.
From S2P Require Import Mbr.
From S2P Require Import Infra.
From S2P Require Import RaftNet.
From S2P Require Import Listen.
From S2P Require Import Config.

Open Scope string_scope.
Open Scope list_scope.
Open Scope Z_scope.

(** ** Letters *)

(** [strings.ToLower] and [strings.ToUpper] on ASCII letters, and the two other letters whose upper case is an ASCII letter; what they do to
    further letters makes no difference to the callers. *)
Definition lower (a : ascii) : ascii :=
  let n := N_of_ascii a in if (65 <=? n)%N && (n <=? 90)%N then ascii_of_N (n + 32) else a.
Definition upper (a : ascii) : ascii :=
  let n := N_of_ascii a in if (97 <=? n)%N && (n <=? 122)%N then ascii_of_N (n - 32) else a.

Fixpoint ToLower (s : string) : string :=
  match s with EmptyString => EmptyString | String a s => String (lower a) (ToLower s) end.

Fixpoint ToUpper (s : string) : string :=
  match s with
  | EmptyString => EmptyString
  | String a s' =>
      match s' with
      | String b s'' =>
          if ((N_of_ascii a =? 196) && (N_of_ascii b =? 177))%N then String "I" (ToUpper s'')
          else if ((N_of_ascii a =? 197) && (N_of_ascii b =? 191))%N then String "S" (ToUpper s'')
          else String (upper a) (ToUpper s')
      | EmptyString => String (upper a) EmptyString
      end
  end.

(** [strings.TrimSuffix], when there is the suffix. *)
Fixpoint cut_suffix (suffix s : string) : option string :=
  if String.eqb s suffix then Some EmptyString
  else match s with EmptyString => None | String a s => String a <$> cut_suffix suffix s end.

(** ** Logs (cli/logger.go) *)

Definition levelToIndex (level : string) : Z :=
  let l := ToLower level in
  if decide (l = "debug") then 0 else if decide (l = "info") then 1 else if decide (l = "warn") then 2
  else if decide (l = "error") then 3 else 1.

(** A log in JSON, over an inner one. *)
Record jsonLogger : Type := mkJson { inner : StdoutLogger; j_levelIdx : Z }.

(** A log in plain text: the lines it was given, with the time, level, message and fields of each. *)
Record textLogger : Type := mkText { written : list (Z * string * string * fields); t_levelIdx : Z }.

Definition write (now : Z) (level msg : string) (fs : fields) (l : textLogger) : textLogger :=
  mkText (written l ++ [(now, level, msg, fs)]) (t_levelIdx l).

#[global] Instance json_logger : Logger jsonLogger := {|
  Debug := fun now msg fs l => if j_levelIdx l >? 0 then l else mkJson (Debug now msg fs (inner l)) (j_levelIdx l);
  Info := fun now msg fs l => if j_levelIdx l >? 1 then l else mkJson (Info now msg fs (inner l)) (j_levelIdx l);
  Warn := fun now msg fs l => if j_levelIdx l >? 2 then l else mkJson (Warn now msg fs (inner l)) (j_levelIdx l);
  Error := fun now msg fs l => mkJson (Error now msg fs (inner l)) (j_levelIdx l);
|}.

#[global] Instance text_logger : Logger textLogger := {|
  Debug := fun now msg fs l => if t_levelIdx l >? 0 then l else write now "DEBUG" msg fs l;
  Info := fun now msg fs l => if t_levelIdx l >? 1 then l else write now "INFO" msg fs l;
  Warn := fun now msg fs l => if t_levelIdx l >? 2 then l else write now "WARN" msg fs l;
  Error := fun now msg fs l => write now "ERROR" msg fs l;
|}.

(** The log the configuration asks for, one of the two. *)
Inductive cli_logger : Type := LJson (l : jsonLogger) | LText (l : textLogger).

Definition on_logger (f : forall L, Logger L -> L -> L) (l : cli_logger) : cli_logger :=
  match l with LJson l => LJson (f _ _ l) | LText l => LText (f _ _ l) end.

#[global] Instance cli_loggers : Logger cli_logger := {|
  Debug := fun now msg fs => on_logger (fun _ _ => Debug now msg fs);
  Info := fun now msg fs => on_logger (fun _ _ => Info now msg fs);
  Warn := fun now msg fs => on_logger (fun _ _ => Warn now msg fs);
  Error := fun now msg fs => on_logger (fun _ _ => Error now msg fs);
|}.

(** [open] tells whether the file of the log cannot be opened; the log goes to the standard output in any case. *)
Definition initLogger (open : string -> option error) (cfg : LoggingConfig) : result string cli_logger :=
  let output := if decide (Output cfg = "") then "stdout" else Output cfg in
  match (if decide (output = "stdout") then None else open output) with
  | Some err => Err "open log file"
  | None =>
      let idx := levelToIndex (Level cfg) in
      Ok (if decide (ToLower (Format cfg) = "text") then LText (mkText [] idx) else LJson (mkJson NewStdoutLogger idx))
  end.

(** ** Sizes *)

(** The units, in the order in which they are tried. *)
Definition units : list (string * Z) :=
  [("TB", 2 ^ 40); ("GB", 2 ^ 30); ("MB", 2 ^ 20); ("KB", 2 ^ 10);
   ("TIB", 2 ^ 40); ("GIB", 2 ^ 30); ("MIB", 2 ^ 20); ("KIB", 2 ^ 10); ("B", 1)].

Fixpoint split_unit (us : list (string * Z)) (s : string) : string * Z :=
  match us with
  | [] => (s, 1)
  | (u, m) :: us =>
      match cut_suffix u s with Some rest => (rest, m) | None => split_unit us s end
  end.

(** [Sscanf] is the number at the start of a string, read with the verb %f; the conversion of a negative or too large number to
    an unsigned integer is that of the machine, which [to_uint64] says. *)
Definition parseMemoryLimit (Sscanf : string -> option float) (to_uint64 : float -> Z) (s : string) : Z :=
  if decide (s = "") then 0
  else
    let '(s, multiplier) := split_unit units (TrimSpace (ToUpper s)) in
    match Sscanf (TrimSpace s) with
    | None => 0
    | Some val => to_uint64 (val * int multiplier)%f64
    end.

(** ** The decision engine *)

Definition parse_or_zero (s : string) : Z := default 0 (ParseDuration s).

Definition buildMigratorConfig (m : MBRMigrationConfig) : MigratorConfig :=
  let d := DefaultMigratorConfig in
  mkMigrator
    (if decide (mig_CheckInterval m = "") then CheckInterval d else default (CheckInterval d) (ParseDuration (mig_CheckInterval m)))
    (if decide (mig_MaxMigrationTime m = "") then MaxMigrationTime d else default (MaxMigrationTime d) (ParseDuration (mig_MaxMigrationTime m)))
    (if (mig_PauseOnCPUThreshold m > F64.zero)%f64 then mig_PauseOnCPUThreshold m else PauseOnCPUThreshold d)
    (if (mig_PauseOnMemThreshold m > F64.zero)%f64 then mig_PauseOnMemThreshold m else PauseOnMemThreshold d)
    (if mig_TargetLoadPerShard m >? 0 then mig_TargetLoadPerShard m else TargetLoadPerShard d)
    (if mig_MinShards m >? 0 then mig_MinShards m else MinShards d)
    (if mig_MaxShards m >? 0 then mig_MaxShards m else MaxShards d).

(** The observers of the server. *)
Inductive watcher : Type := WInfra | WMbr.

(** What [startMBR] creates and starts. *)
Record engine : Type := mkEngine {
  en_options : MbrOptions;
  en_monitor : Mon.Monitor unit;
  en_pid : PIDController;
  en_matrix : FeatureMatrix;
  en_provider : Provider;
  en_observer : Observer watcher;
  en_loop : loopConfig;
  en_executor : Executor;
}.

(** The collector of the runtime is the only one.  The goroutines are started: the decision loop, which is modelled up to its first
    tick and takes the process down if it panics, and the executor, which then waits for a decision. *)
Definition startMBR (now : Z) (cfg : MBRConfig) (infraObserver : option (Observer watcher)) : outcome engine :=
  let interval := parse_or_zero (mbr_DecisionInterval cfg) in
  let interval := if interval =? 0 then 500000000 else interval in
  let migCfg := buildMigratorConfig (Migration cfg) in
  let mbrOpts :=
    WithMigration migCfg
      (WithWeights (mkWeights (w_MemGrowth cfg) (w_HitRate cfg) (w_NewKeys cfg) (w_EvictionPressure cfg) (w_BufferPenalty cfg))
         (WithPID (mkPIDConfig (Kp cfg) (Ki cfg) (Kd cfg) (mbr_Setpoint cfg) minus_one F64.one)
            (WithDecisionInterval interval (WithMatrixCapacity (mbr_MatrixCapacity cfg) Mbr.NewOptions)))) in
  let monInterval := if interval <? 500000000 then 500000000 else interval in
  let mon := Mon.New (Mon.WithCollectors [tt] (Mon.WithCapacity (mbr_MatrixCapacity cfg) (Mon.WithInterval monInterval Mon.NewOptions))) in
  mon ← Mon.Start mon;
  let pid := NewPIDController (o_PID mbrOpts) in
  let matrix := NewFeatureMatrix (MatrixCapacity mbrOpts) in
  let provider := NewDefaultStatsProvider now (Some pid) in
  let composite := NewMultiObserver [infraObserver; Some (OtherObserver WMbr)] in
  let loopOpts :=
    [loop_WithInterval (DecisionInterval mbrOpts); loop_WithMatrixCapacity (MatrixCapacity mbrOpts); loop_WithPID (o_PID mbrOpts);
     loop_WithWeights (o_Weights mbrOpts); loop_WithMigratorConfig migCfg] in
  '(_, matrix) ← RunDecisionLoop loopOpts [] matrix;
  mret (mkEngine mbrOpts mon pid matrix provider composite (loop_config loopOpts) (NewMigrationExecutor migCfg)).

(** ** The command *)

Section Boot.
Context `{MI : MapIter} `{EP : EvictionPolicy P} `{CT : Counter C} `{RG : Registerer R C}.
Notation InfraObs := (Infra.Infra cli_logger C unit).

(** What the command finds: the time, the log file, whether the address of Raft and that of the server can be listened on,
    Prometheus' default registry, and what reads sizes. *)
Record boot_env : Type := mkBootEnv {
  be_now : Z;
  be_open : string -> option error;
  be_listen : option error;
  be_address : option error;
  be_registry : R;
  be_Sscanf : string -> option float;
  be_to_uint64 : float -> Z;
}.

(** A server that runs. *)
Record started : Type := mkStarted {
  up_logger : cli_logger;
  up_cache : Cache P;
  up_infra : option InfraObs;
  up_registered : option error * R;
  up_server : Listener;
  up_raft : option (Node unit);
  up_engine : option engine;
  up_observer : Observer watcher;
}.

Inductive booted : Type := Exit (msg : string) | Up (s : started).

(** The peers of Raft as a map; of two with one number the later one counts. *)
Definition raft_peers (l : list RaftPeerConfig) : gmap nat string :=
  foldl (fun m p => <[Z.to_nat (peer_ID p) := peer_Addr p]> m) ∅ l.

Definition cache_options (cfg : Config) : result string Cache.Options :=
  opts ← BuildOptions (cfg_Cache cfg);
  let opts :=
    if mbr_Enabled (cfg_MBR cfg) && (mig_MinShards (Migration (cfg_MBR cfg)) >? 0)
    then WithShards (mig_MinShards (Migration (cfg_MBR cfg))) opts else opts in
  mret (if ObserverEnabled (cfg_Cache cfg) then WithObserver (Some 1%nat) opts else opts).

Definition infra_of (logger : cli_logger) (cfg : Config) : option InfraObs :=
  if ObserverEnabled (cfg_Cache cfg) then
    Some (Infra.New ([Infra.WithLoggerInstance (Some logger)] ++
                     (if metrics_Enabled (Metrics (cfg_Server cfg)) then [Infra.WithPrometheus true] else [])))
  else None.

Definition server_options (e : boot_env) (cfg : ServerConfig) : list (Listener -> Listener) :=
  let readTimeout := parse_or_zero (Config.ReadTimeout cfg) in
  let readTimeout := if readTimeout =? 0 then 30000000000 else readTimeout in
  [WithWorkers (Workers cfg); WithMaxConns (MaxConns cfg); WithReadTimeout readTimeout;
   WithWriteTimeout (parse_or_zero (Config.WriteTimeout cfg));
   WithGracefulShutdownTimeout (parse_or_zero (Config.GracefulShutdownTimeout cfg));
   WithMemoryLimit (parseMemoryLimit (be_Sscanf e) (be_to_uint64 e) (Config.MemoryLimit cfg))].

Definition raft_of (e : boot_env) (onApply : nat * bytes -> unit -> unit) (cfg : RaftConfig) : result (string * error) (option (Node unit)) :=
  if raft_Enabled cfg then
    node ← InitRaft (be_listen e) (Z.to_nat (raft_NodeID cfg)) (BindAddr cfg) (raft_peers (raft_Peers cfg)) onApply;
    mret (Some node)
  else Ok None.

(** The registration of counters, when they are exported. *)
Definition register_metrics (e : boot_env) (inf : option InfraObs) (cfg : ServerConfig) : option error * R :=
  match inf with
  | Some inf => if metrics_Enabled (Metrics cfg) then Infra.RegisterPrometheus (be_registry e) (Some (be_registry e)) inf else (None, be_registry e)
  | None => (None, be_registry e)
  end.

(** The goroutine of [srv.ListenAndServe]: an error is logged, and the command goes on. *)
Definition serve (e : boot_env) (srv : Listener) : Listener :=
  match be_address e with None => listen srv | Some _ => srv end.

(** What follows the creation of the cache and the server. *)
Definition start_engine (e : boot_env) (cfg : Config) (infraObs : option (Observer watcher)) (c : Cache P) :
    outcome (option engine * Observer watcher * Cache P) :=
  if mbr_Enabled (cfg_MBR cfg) then
    en ← startMBR (be_now e) (cfg_MBR cfg) infraObs;
    mret (Some en, en_observer en, SetObserver (Some 2%nat) c)
  else Ret (None, default noopObserver infraObs, c).

Definition serverCmd (policies : registry P) (rehashers : gmap string (Rehasher (shard P))) (e : boot_env)
    (onApply : nat * bytes -> unit -> unit) (cfg : Config) : outcome booted :=
  match initLogger (be_open e) (Logging (cfg_Server cfg)) with
  | Err msg => Ret (Exit msg)
  | Ok logger =>
      match cache_options cfg with
      | Err _ => Ret (Exit "build cache options")
      | Ok opts =>
          let inf := infra_of logger cfg in
          let infraObs := (fun _ => OtherObserver WInfra) <$> inf in
          let registered := register_metrics e inf (cfg_Server cfg) in
          match Cache.New policies rehashers opts with
          | Err _ => Ret (Exit "create cache")
          | Ok c =>
              let srv := NewServer (be_now e) (server_options e (cfg_Server cfg)) in
              match raft_of e onApply (cfg_Raft cfg) with
              | Err _ => Ret (Exit "raft init")
              | Ok raft =>
                  '(en, obs, c) ← start_engine e cfg infraObs c;
                  mret (Up (mkStarted logger c inf registered (serve e srv) raft en obs))
              end
          end
      end
  end.

(** ** The observers at work *)

(** The two observers of a server, and what an event does to them. *)
#[global] Instance watchers : CacheObserver watcher (InfraObs * Provider) := fun now ev w '(inf, p) =>
  match w with
  | WInfra => (Infra.on_event now ev inf, p)
  | WMbr => (inf, Mbr.observe ev p)
  end.

End Boot.
