(* ===== verification/BootSpec.v ===== *)
(** * What starting a server gives

    Which configurations start, and that the parts are put together as they should: the cache is sound, the limits are those of the
    configuration, and every event of the cache reaches both observers. *)

From Stdlib Require Import Strings.String Floats.SpecFloat.
From stdpp Require Import base tactics numbers list gmap sets fin_maps strings relations.
From S2P Require Import Prelude.
From S2P Require Import Policy.
From S2P Require Import Policies.
From S2P Require Import Hashing.
From S2P Require Import Shard.
From S2P Require Import Rehash.
From S2P Require Import Text.
From S2P Require Import Float64.
From S2P Require Import Duration.
From S2P Require Import Cache.
From S2P Require Import CacheSpec.
From S2P Require Import Monitor.
From S2P Require Import Mbr.
From S2P Require Import Infra.
From S2P Require Import InfraSpec.
From S2P Require Import RaftNet.
From S2P Require Import Listen.
From S2P Require Import Config.
From S2P Require Import Boot.

Open Scope string_scope.
Open Scope list_scope.
Open Scope Z_scope.

Section BootSpec.
Context `{MI : MapIter} `{EP : EvictionPolicy P} `{PL : !PolicyLaws P} `{CT : Counter C} `{RG : Registerer R C}.

(** ** Which options make a cache *)



(** ** Which configurations start *)






(** ** The observers *)









End BootSpec.

(** A file that does not say how many connections are allowed allows none: the server refuses every connection. *)
Lemma zero_limit_refuses s s' : server_ok s -> maxConns s <= 0 -> rtc server_step s s' -> conns s' = ∅.
Proof.
  intros Hok Hm Hs. pose proof (server_steps_ok _ _ Hok Hs) as Hok'. pose proof (ok_limit _ Hok') as Hl.
  rewrite (server_steps_options _ _ Hs) in Hl. apply leibniz_equiv, size_empty_iff. lia.
Qed.

(** ** Concrete configurations *)

#[local] Existing Instance trie_order.
#[local] Instance plain_counter : Counter Z := {| NewCounter := fun _ => 0; Inc := fun n => n + 1 |}.
#[local] Instance plain_registry : Registerer (list Z) Z := fun c r => (None, r ++ [c]).

Definition demo_env : boot_env (R := list Z) :=
  mkBootEnv 0 (fun _ => None) None None [] (fun s => Some (int (uint_of s))) F64.to_int.

(** How the command ends. *)
Definition ends (o : outcome (booted (P := Policies.policy) (C := Z) (R := list Z))) : bool * bool * bool :=
  match o with Ret (Up _) => (true, false, false) | Ret (Exit _) => (false, true, false) | Panic => (false, false, true) | _ => (false, false, false) end.


(** With a negative decision interval the process dies. *)
Definition negative_interval : Config :=
  mkConfig (cfg_Cache DefaultConfig) (cfg_Server DefaultConfig) (cfg_Monitor DefaultConfig) (cfg_Cluster DefaultConfig) (cfg_Client DefaultConfig)
    (mkMBR true 60 "-1s" F64.zero F64.zero F64.zero F64.zero F64.zero F64.zero F64.zero F64.zero F64.zero
       (mkMBRMigration "" "" F64.zero F64.zero 0 0 0))
    (cfg_Raft DefaultConfig).

Example negative_interval_panics :
  ends (serverCmd (C := Z) policyRegistry rehash_registry demo_env (fun _ w => w) negative_interval) = (false, false, true).
Proof. vm_compute. reflexivity. Qed.

(** The defaults start. *)
Example defaults_start :
  match serverCmd (C := Z) policyRegistry rehash_registry demo_env (fun _ w => w) DefaultConfig with
  | Ret (Up s) => Some (Cache.ShardCount (up_cache s), Cache.perShardMax (up_cache s), readTimeout (up_server s))
  | _ => None
  end = Some (16, 625, 30000000000).
Proof. vm_compute. reflexivity. Qed.

(** An empty file does not: the defaults are not filled in, and there are no shards. *)
Definition empty_file : Config :=
  mkConfig (mkCacheConfig 0 0 "" "" "" "" false)
    (mkServerConfig "" 0 0 "" "" "" (mkTLS false "" "") (mkAuth false "") (mkLogging "" "" "") (mkMetrics false "") "")
    (mkMonitorConfig false "" 0) (mkClusterConfig "" [] 0) (mkClientConfig 0 "" "" "")
    (mkMBR false 0 "" F64.zero F64.zero F64.zero F64.zero F64.zero F64.zero F64.zero F64.zero F64.zero
       (mkMBRMigration "" "" F64.zero F64.zero 0 0 0))
    (mkRaftConfig false 0 "" []).

Example empty_file_exits :
  serverCmd (C := Z) policyRegistry rehash_registry demo_env (fun _ w => w) empty_file = Ret (Exit "create cache").
Proof. reflexivity. Qed.

(** Sizes with and without the letter i mean the same. *)
Example memory_limits :
  parseMemoryLimit (be_Sscanf demo_env) (be_to_uint64 demo_env) <$> ["512MB"; " 2 kib "; "7"; "7b"; "1GiB"] =
  [536870912; 2048; 7; 7; 1073741824].
Proof. vm_compute. reflexivity. Qed.
