(* ===== verification/Sdk.v ===== *)
(** * The Go SDK (sdk/go) and the pool of the client (net/client.go, net/client_ext.go)

    A client of the SDK encodes values with a codec and calls the client of net/; a cluster client spreads keys over several
    servers by their hash; a pipeline batches requests.  What the clients do to the servers is the class of Cluster.v; JSON is a
    class.  The client of net/ is a pool of connections: its methods choose a connection and make the calls of Client.v. *)

From Stdlib Require Import Strings.String.
From stdpp Require Import base tactics numbers list gmap sets fin_maps strings.
From S2P Require Import Prelude.
From S2P Require Import Hashing.
From S2P Require Import Bytes.
From S2P Require Import Wire.
From S2P Require Import WireSet.
From S2P Require Import WireExt.
From S2P Require Import RaftCmd.
From S2P Require Import Client.
From S2P Require Import Pipeline.
From S2P Require Import Cluster.
From S2P Require Import Cli.

Open Scope string_scope.
Open Scope list_scope.
Open Scope Z_scope.

(** ** The pool of connections *)

Record pool_options : Type := mkPoolOptions { connCount : Z; po_readTimeout : Z; po_writeTimeout : Z; po_dialTimeout : Z }.

Definition default_pool : pool_options := mkPoolOptions 4 10000000000 5000000000 5000000000.

Definition pool_WithPoolSize (n : Z) (o : pool_options) : pool_options :=
  mkPoolOptions n (po_readTimeout o) (po_writeTimeout o) (po_dialTimeout o).
Definition WithClientReadTimeout (d : Z) (o : pool_options) : pool_options :=
  mkPoolOptions (connCount o) d (po_writeTimeout o) (po_dialTimeout o).
Definition WithClientWriteTimeout (d : Z) (o : pool_options) : pool_options :=
  mkPoolOptions (connCount o) (po_readTimeout o) d (po_dialTimeout o).
Definition pool_WithDialTimeout (d : Z) (o : pool_options) : pool_options :=
  mkPoolOptions (connCount o) (po_readTimeout o) (po_writeTimeout o) d.

Section Pool.
Context `{FB : FloatBits float64}.

(** [dial i]: whether connection [i] cannot be dialled; then the earlier ones are closed.  The result has the connections that
    were left open. *)
Fixpoint dial_pool (dial : nat -> option error) (i n : nat) : result error (list (clientConn float64)) :=
  match n with
  | O => Ok []
  | S n =>
      match dial i with
      | Some err => Err err
      | None => cs ← dial_pool dial (S i) n; mret (new_conn :: cs)
      end
  end.

(** A negative size makes the creation of the slice panic. *)
Definition pool_NewClient (dial : nat -> option error) (opts : list (pool_options -> pool_options)) :
    outcome (result error (Client (float64 := float64) * pool_options)) :=
  let o := foldl (fun o opt => opt o) default_pool opts in
  if connCount o <? 0 then Panic
  else Ret (cs ← dial_pool dial 0 (Z.to_nat (connCount o)); mret (mkClient cs 0, o)).

(** A method of the client: the connection it uses and the call it makes there. *)
Definition on_pool {A} (c : call float64 A) (cl : Client (float64 := float64)) : outcome (nat * call float64 A * Client (float64 := float64)) :=
  '(i, cl) ← pickConn cl;
  mret (i, c, cl).

Definition pool_kv {A} (m : kv_method A) := on_pool (direct_kv m).
Definition pool_set {A} (m : set_method A) := on_pool (direct_set m).
Definition pool_hash {A} (m : hash_method float64 A) := on_pool (direct_hash m).
Definition pool_list {A} (m : list_method A) := on_pool (direct_list m).

(** The type of a key is a number here, and [MType] does not pass through [pool_key]. *)
Definition pool_type (key : string) := on_pool (typeCmd (float64 := float64) key).
Definition pool_key {A} (m : key_method A) := on_pool (direct_key m).

End Pool.

(** ** Codecs (sdk/go/codec.go) *)

(** The values a caller passes; [VOther] is a value of any other type.  A nil interface is [None]. *)
Inductive value : Type := VBytes (b : option bytes) | VString (s : string) | VOther (v : nat).

(** What a caller wants a value read into. *)
Inductive target : Type := ToBytes | ToString | ToOther.

(** An interface value: its methods. *)
Record Codec : Type := mkCodec {
  Marshal : option value -> result error (option bytes);
  Unmarshal : option bytes -> option target -> result error value;
}.

(** The messages also name the type. *)
Definition raw_Marshal (v : option value) : result error (option bytes) :=
  match v with
  | Some (VBytes b) => Ok b
  | Some (VString s) => Ok (Some (bytes_of s))
  | _ => Err (ErrMsg "raw codec: unsupported type")
  end.

Definition raw_Unmarshal (data : option bytes) (v : option target) : result error value :=
  match v with
  | Some ToBytes => Ok (VBytes data)
  | Some ToString => Ok (VString (string_of (default [] data)))
  | _ => Err (ErrMsg "raw codec: unsupported target type")
  end.

Definition RawCodec : Codec := mkCodec raw_Marshal raw_Unmarshal.

(** [json.Marshal] and [json.Unmarshal] on any value. *)
Class AnyJson := {
  json_Marshal : value -> result error bytes;
  json_Unmarshal : option bytes -> target -> result error value;
}.

(** The SDK has errors of its own. *)
Definition sdk_ErrKeyEmpty : error := ErrMsg "key cannot be empty".
Definition sdk_ErrValueNil : error := ErrMsg "value cannot be nil".
Definition sdk_ErrNoNodes : error := ErrMsg "no available nodes".

Definition JSONCodec `{AnyJson} : Codec := {|
  Marshal v := match v with None => Err sdk_ErrValueNil | Some v => b ← json_Marshal v; mret (Some b) end;
  Unmarshal data v := match v with None => Err (ErrMsg "unmarshal target cannot be nil") | Some t => json_Unmarshal data t end;
|}.

(** ** Options (sdk/go/options.go) *)

Record Options : Type := mkOptions {
  Addrs : list string; PoolSize : Z; DialTimeout : Z; ReadTimeout : Z; WriteTimeout : Z; o_Codec : Codec;
}.

Definition defaultOptions : Options := mkOptions [] 4 5000000000 10000000000 5000000000 RawCodec.

Implicit Types (o : Options).

Definition WithPoolSize (n : Z) o : Options := mkOptions (Addrs o) n (DialTimeout o) (ReadTimeout o) (WriteTimeout o) (o_Codec o).
Definition WithDialTimeout (d : Z) o : Options := mkOptions (Addrs o) (PoolSize o) d (ReadTimeout o) (WriteTimeout o) (o_Codec o).
Definition WithReadTimeout (d : Z) o : Options := mkOptions (Addrs o) (PoolSize o) (DialTimeout o) d (WriteTimeout o) (o_Codec o).
Definition WithWriteTimeout (d : Z) o : Options := mkOptions (Addrs o) (PoolSize o) (DialTimeout o) (ReadTimeout o) d (o_Codec o).
Definition WithCodec (c : Codec) o : Options := mkOptions (Addrs o) (PoolSize o) (DialTimeout o) (ReadTimeout o) (WriteTimeout o) c.
Definition WithAddrs (addrs : list string) o : Options := mkOptions addrs (PoolSize o) (DialTimeout o) (ReadTimeout o) (WriteTimeout o) (o_Codec o).

(** The options of the client of net/. *)
Definition transport_options o : list (pool_options -> pool_options) :=
  [pool_WithPoolSize (PoolSize o); pool_WithDialTimeout (DialTimeout o); WithClientReadTimeout (ReadTimeout o);
   WithClientWriteTimeout (WriteTimeout o)].

(** ** A client of one server (sdk/go/client.go, sdk/go/client_ext.go) *)

(** The names the SDK gives to types. *)
Definition sdk_typeToString (b : Z) : string :=
  if b =? 0 then "none" else if b =? 1 then "string" else if b =? 2 then "set" else if b =? 3 then "hash"
  else if b =? 4 then "list" else "unknown".

Section Sdk.
Context `{FB : FloatBits float64} `{CL : !Clients (float64 := float64) St}.

(** The server of the transport, and the codec. *)
Record SdkClient : Type := mkSdk { transport : nat; codec : Codec }.
Implicit Types (c : SdkClient).

(** The client of server [i]; [dial] is whether a connection to it cannot be dialled. *)
Definition NewClient (dial : nat -> option error) (i : nat) (opts : list (Options -> Options)) : outcome (result error SdkClient) :=
  let o := foldl (fun o opt => opt o) defaultOptions opts in
  r ← pool_NewClient (float64 := float64) dial (transport_options o);
  mret (match r with Err err => Err err | Ok _ => Ok (mkSdk i (o_Codec o)) end).

(** [Quote] is [strconv.Quote], which some messages use. *)
Definition Get (Quote : string -> string) (key : string) (dest : option target) c (s : St) : result error value * St :=
  if decide (key = "") then (Err sdk_ErrKeyEmpty, s)
  else match dest with
  | None => (Err sdk_ErrValueNil, s)
  | Some _ =>
      match perform (transport c) (get key) s with
      | (Err err, s) => (Err (if decide (RaftCmd.Error Quote err = "key not found") then ErrKeyNotFound else err), s)
      | (Ok data, s) => (Unmarshal (codec c) data dest, s)
      end
  end.

Definition Set_ (key : string) (v : option value) (ttl : Z) c (s : St) : result error unit * St :=
  if decide (key = "") then (Err sdk_ErrKeyEmpty, s)
  else match v with
  | None => (Err sdk_ErrValueNil, s)
  | Some _ =>
      match Marshal (codec c) v with
      | Err err => (Err err, s)
      | Ok data => perform (transport c) (set key data ttl) s
      end
  end.

Definition Del (key : string) c (s : St) : result error unit * St :=
  if decide (key = "") then (Err sdk_ErrKeyEmpty, s) else perform (transport c) (del key) s.

Definition Len c (s : St) : result error Z * St := perform (transport c) lenCmd s.
Definition Cleanup c (s : St) : result error Z * St := perform (transport c) cleanupCmd s.

(** The methods on collections and keys pass their arguments on. *)
Definition sdk_hash {A} (m : hash_method float64 A) c (s : St) : result error A * St := perform (transport c) (direct_hash m) s.
Definition sdk_list {A} (m : list_method A) c (s : St) : result error A * St := perform (transport c) (direct_list m) s.
Definition sdk_set {A} (m : set_method A) c (s : St) : result error A * St := perform (transport c) (direct_set m) s.
Definition sdk_Type (key : string) c (s : St) : result error string * St :=
  match perform (transport c) (typeCmd key) s with
  | (Err err, s) => (Err err, s)
  | (Ok b, s) => (Ok (sdk_typeToString b), s)
  end.
Definition sdk_key {A} (m : key_method A) c : St -> result error A * St :=
  match m with
  | MType key => sdk_Type key c
  | m => perform (transport c) (direct_key m)
  end.

(** ** A client of several servers (sdk/go/cluster.go, sdk/go/cluster_ext.go) *)

Record clusterNode : Type := mkClusterNode { client : SdkClient; addr : string }.
Notation ClusterClient := (list clusterNode).
Implicit Types (cc : ClusterClient).

(** The loop over the addresses, from the [i]th on; when one fails the earlier clients are closed. *)
Fixpoint connect_all (dial : string -> nat -> option error) (opts : list (Options -> Options)) (i : nat) (addrs : list string) :
    outcome (result error ClusterClient) :=
  match addrs with
  | [] => Ret (Ok [])
  | a :: addrs =>
      r ← NewClient (dial a) i opts;
      match r with
      | Err err => Ret (Err err)
      | Ok c =>
          r ← connect_all dial opts (S i) addrs;
          mret (match r with Err err => Err err | Ok cc => Ok (mkClusterNode c a :: cc) end)
      end
  end.

Definition NewClusterClient (dial : string -> nat -> option error) (addrs : list string) (opts : list (Options -> Options)) :
    outcome (result error ClusterClient) :=
  match addrs with [] => Ret (Err sdk_ErrNoNodes) | _ => connect_all dial opts 0 addrs end.

Definition sdk_pickNode (key : string) cc : outcome SdkClient :=
  let n := Z.of_nat (length cc) in
  if n =? 1 then client <$> deref (cc !! 0%nat)
  else if wrapU 32 n =? 0 then Panic
  else client <$> deref (cc !! Z.to_nat (fnv32a key mod wrapU 32 n)).

(** [cc.pickNode(key).M(...)]. *)
Definition at_node {A} (key : string) (op : SdkClient -> St -> result error A * St) cc (s : St) : outcome (result error A * St) :=
  c ← sdk_pickNode key cc; mret (op c s).

Definition cc_Get (Quote : string -> string) (key : string) (dest : option target) := at_node key (Get Quote key dest).
Definition cc_Set (key : string) (v : option value) (ttl : Z) := at_node key (Set_ key v ttl).
Definition cc_Del (key : string) := at_node key (Del key).

(** The loops over all nodes, which stop at the first error. *)
Fixpoint over_all {A B} (op : SdkClient -> St -> result error A * St) (add : B -> A -> B) cc (acc : B) (s : St) : result error B * St :=
  match cc with
  | [] => (Ok acc, s)
  | n :: cc =>
      match op (client n) s with
      | (Err err, s) => (Err err, s)
      | (Ok a, s) => over_all op add cc (add acc a) s
      end
  end.

Definition cc_Len cc (s : St) : result error Z * St := over_all Len (fun t n => int64 (t + n)) cc 0 s.
Definition cc_Cleanup cc (s : St) : result error Z * St := over_all Cleanup (fun t n => int64 (t + n)) cc 0 s.
Definition cc_Keys (pattern : string) cc (s : St) : result error (list string) * St :=
  over_all (sdk_key (MKeys pattern)) app cc [] s.

Fixpoint cc_Stats cc (s : St) : list (string * result error (option bytes)) * St :=
  match cc with
  | [] => ([], s)
  | n :: cc =>
      let '(r, s) := perform (transport (client n)) statsCmd s in
      let '(rs, s) := cc_Stats cc s in
      ((addr n, r) :: rs, s)
  end.

(** The key a method is routed by. *)
Definition hash_key {A} (m : hash_method float64 A) : string :=
  match m with
  | MHSet k _ _ | MHSetNX k _ _ | MHGet k _ | MHDel k _ | MHExists k _ | MHGetAll k | MHKeys k | MHVals k | MHLen k | MHStrLen k _
  | MHIncrBy k _ _ | MHIncrByFloat k _ _ | MHMGet k _ | MHMSet k _ => k
  end.
Definition list_key {A} (m : list_method A) : string :=
  match m with
  | MLPush k _ | MRPush k _ | MLPop k | MRPop k | MLLen k | MLRange k _ _ | MLIndex k _ | MLSet k _ _ | MLRem k _ _ | MLTrim k _ _
  | MLInsert k _ _ _ | MBLPop k _ | MBRPop k _ | MLPos k _ _ _ _ => k
  end.
(** [None]: no key is given. *)
Definition set_route {A} (m : set_method A) : option string :=
  match m with
  | MSAdd k _ | MSRem k _ | MSIsMember k _ | MSMembers k | MSCard k | MSPop k | MSRandMember k _ => Some k
  | MSUnion ks | MSInter ks | MSDiff ks => head ks
  end.

Definition cc_hash {A} (m : hash_method float64 A) := at_node (hash_key m) (sdk_hash m).
Definition cc_list {A} (m : list_method A) := at_node (list_key m) (sdk_list m).
Definition cc_set {A} (m : set_method A) cc (s : St) : outcome (result error A * St) :=
  match set_route m with
  | Some key => at_node key (sdk_set m) cc s
  | None => Ret (Err sdk_ErrKeyEmpty, s)
  end.
Definition cc_key {A} (m : key_method A) : ClusterClient -> St -> outcome (result error A * St) :=
  match m with
  | MKeys pattern => fun cc s => Ret (cc_Keys pattern cc s)
  | MExists k => at_node k (sdk_key (MExists k))
  | MType k => at_node k (sdk_key (MType k))
  | MExpire k n => at_node k (sdk_key (MExpire k n))
  | MPExpire k n => at_node k (sdk_key (MPExpire k n))
  | MTTL k => at_node k (sdk_key (MTTL k))
  | MPTTL k => at_node k (sdk_key (MPTTL k))
  | MPersist k => at_node k (sdk_key (MPersist k))
  end.

(** ** Pipelines (sdk/go/pipeline.go) *)

Definition sdkError (msg : string) : error := if decide (msg = "not leader") then ErrNotLeader else ErrMsg ("mcache: " +:+ msg).

Definition AddSet (pick : option nat) (key : string) (v : option value) (ttl : Z) (cd : Codec) (w : world (float64 := float64)) :
    result error unit * world :=
  if decide (key = "") then (Err sdk_ErrKeyEmpty, w)
  else match v with
  | None => (Err sdk_ErrValueNil, w)
  | Some _ =>
      match Marshal cd v with
      | Err err => (Err err, w)
      | Ok data => Add pick (mkRequest CmdSet key data (if ttl >? 0 then ttl ÷ 1000000 else 0)) w
      end
  end.

Definition AddGet (pick : option nat) (key : string) (w : world (float64 := float64)) : result error unit * world :=
  if decide (key = "") then (Err sdk_ErrKeyEmpty, w) else Add pick (mkRequest CmdGet key None 0) w.

(** [meanwhile] is what the read loop does to the connection between the two calls. *)
Definition Flush (stale : bytes) (fail : nat -> option error) (deadline : option (nat -> bool))
    (meanwhile : bytes -> clientConn float64 -> clientConn float64) (w : world) :
    outcome (result error (list Response * option error) * world) :=
  match FlushWrite stale fail w with
  | ((Some err, _), w) => Ret (Err err, w)
  | ((None, out), w) => ReadResponses deadline (mkWorld (meanwhile out (w_conn w)) (w_bufs w) (w_pipe w))
  end.

Fixpoint first_error (rs : list Response) : result error unit :=
  match rs with
  | [] => Ok tt
  | r :: rs => if Status r =? StatusOK then first_error rs else Err (sdkError (ErrMsg_ r))
  end.

(** The values read so far, and why reading stopped; a missing destination is an index out of range. *)
Fixpoint read_values (cd : Codec) (dests : list (option target)) (rs : list Response) : outcome (list value * option error) :=
  match rs with
  | [] => Ret ([], None)
  | r :: rs =>
      if Status r =? StatusNotFound then Ret ([], Some ErrKeyNotFound)
      else if negb (Status r =? StatusOK) then Ret ([], Some (sdkError (ErrMsg_ r)))
      else
        match dests with
        | [] => Panic
        | dest :: dests =>
            match Unmarshal cd (RValue r) dest with
            | Err err => Ret ([], Some err)
            | Ok v => '(vs, err) ← read_values cd dests rs; mret (v :: vs, err)
            end
        end
  end.

Definition FlushSets (stale : bytes) (fail : nat -> option error) (deadline : option (nat -> bool))
    (meanwhile : bytes -> clientConn float64 -> clientConn float64) (w : world) : outcome (result error unit * world) :=
  '(r, w) ← Flush stale fail deadline meanwhile w;
  mret (match r with Err err | Ok (_, Some err) => Err err | Ok (rs, None) => first_error rs end, w).

(** The values stored through [dests], and the error. *)
Definition FlushGets (stale : bytes) (fail : nat -> option error) (deadline : option (nat -> bool))
    (meanwhile : bytes -> clientConn float64 -> clientConn float64) (cd : Codec) (dests : list (option target)) (w : world) :
    outcome (list value * option error * world) :=
  '(r, w) ← Flush stale fail deadline meanwhile w;
  match r with
  | Err err | Ok (_, Some err) => Ret ([], Some err, w)
  | Ok (rs, None) => '(vs, err) ← read_values cd dests rs; mret (vs, err, w)
  end.

End Sdk.
