(* ===== verification/SdkSpec.v ===== *)
(** * What the SDK's cluster client promises

    It places keys as the shards of cluster/ with weights of 1 would, and stored through a codec that reads what it writes, values
    are kept as in one map. *)

From Stdlib Require Import Strings.Byte Strings.String.
From stdpp Require Import base tactics numbers list gmap sets fin_maps strings.
From S2P Require Import Prelude.
From S2P Require Import Hashing.
From S2P Require Import Bytes.
From S2P Require Import Wire.
From S2P Require Import WireSet.
From S2P Require Import WireExt.
From S2P Require Import WireExtSpec.
From S2P Require Import RaftCmd.
From S2P Require Import Client.
From S2P Require Import Cluster.
From S2P Require Import ClusterSpec.
From S2P Require Import Sdk.

Open Scope Z_scope.

(** ** The specification: a map of values *)

Inductive sdk_op : Type := SSet (k : string) (v : value) | SGet (k : string) | SDel (k : string) | SLen.
Inductive sdk_res : Type := SDone (r : result error unit) | SValue (r : result error value) | SCount (r : result error Z).

Definition values_step (o : sdk_op) (m : gmap string value) : sdk_res * gmap string value :=
  match o with
  | SSet k v => (SDone (Ok tt), <[k := v]> m)
  | SGet k => (SValue (match m !! k with Some v => Ok v | None => Err ErrKeyNotFound end), m)
  | SDel k => (SDone (Ok tt), delete k m)
  | SLen => (SCount (Ok (Z.of_nat (size m))), m)
  end.

Fixpoint values_run (ops : list sdk_op) (m : gmap string value) : list sdk_res * gmap string value :=
  match ops with
  | [] => ([], m)
  | o :: ops => let '(r, m) := values_step o m in let '(rs, m) := values_run ops m in (r :: rs, m)
  end.

(** The codec writes [v] as bytes that it reads, into a target of type [t], as [v]. *)
Definition written_as (cd : Codec) (t : target) (v : value) (b : bytes) : Prop :=
  Marshal cd (Some v) = Ok (Some b) /\ b <> [] /\ Unmarshal cd (Some b) (Some t) = Ok v.

Definition sdk_wf (cd : Codec) (t : target) (o : sdk_op) : Prop :=
  match o with
  | SSet k v => k <> EmptyString /\ exists b, written_as cd t v b
  | SGet k | SDel k => k <> EmptyString
  | SLen => True
  end.

(** The bytes of a value. *)
Definition encoded (cd : Codec) (v : value) : bytes :=
  match Marshal cd (Some v) with Ok (Some b) => b | _ => [] end.

Lemma encoded_written cd t v b : written_as cd t v b -> encoded cd v = b.
Proof. unfold encoded. by intros (-> & _). Qed.

(** The nodes of a cluster client, as a cluster of shards would have them. *)
Definition shards_of (cc : list clusterNode) : list Node := (fun n => mkNode (addr n) 1 true true) <$> cc.

Section SdkMap.
Context `{FB : FloatBits float64} `{CL : Clients (float64 := float64) St}.

Definition sdk_step (Quote : string -> string) (t : target) (o : sdk_op) (cc : list clusterNode) (s : St) : outcome (sdk_res * St) :=
  match o with
  | SSet k v => '(r, s) ← cc_Set k (Some v) 0 cc s; mret (SDone r, s)
  | SGet k => '(r, s) ← cc_Get Quote k (Some t) cc s; mret (SValue r, s)
  | SDel k => '(r, s) ← cc_Del k cc s; mret (SDone r, s)
  | SLen => let '(r, s) := cc_Len cc s in mret (SCount r, s)
  end.

Fixpoint sdk_run (Quote : string -> string) (t : target) (ops : list sdk_op) (cc : list clusterNode) (s : St) : outcome (list sdk_res * St) :=
  match ops with
  | [] => Ret ([], s)
  | o :: ops =>
      '(r, s) ← sdk_step Quote t o cc s;
      '(rs, s) ← sdk_run Quote t ops cc s;
      mret (r :: rs, s)
  end.

(** ** The same placement *)

(** The clients of a cluster client: node [j] has server [j] and the codec. *)
Record connected (cd : Codec) (cc : list clusterNode) : Prop := {
  co_node j n : cc !! j = Some n -> client n = mkSdk j cd;
  co_some : cc <> [];
  co_few : Z.of_nat (length cc) < 2 ^ 32;
}.

Lemma before_shards cc j : (j <= length cc)%nat -> before (shards_of cc) j = Z.of_nat j.
Proof.
  unfold before. revert j. induction cc as [|n cc IH]; intros [|j] Hj; cbn in *; try lia.
  change (foldr _ 0 _) with (sum_weights (take j (shards_of cc))). rewrite IH; lia.
Qed.

Lemma sum_shards cc : sum_weights (shards_of cc) = Z.of_nat (length cc).
Proof.
  rewrite <-(before_shards cc (length cc)) by lia. unfold before. by rewrite take_ge by (unfold shards_of; by rewrite length_fmap).
Qed.

Lemma shards_dialled cd cc : connected cd cc -> dialled (shards_of cc).
Proof.
  intros [_ Hs Hf]. split.
  - unfold positive, shards_of. rewrite Forall_fmap. by apply Forall_true.
  - unfold shards_of. rewrite Forall_fmap. by apply Forall_true.
  - rewrite sum_shards. destruct cc; [done|]. cbn [length] in *. lia.
Qed.

Lemma same_placement cd cc k : connected cd cc ->
  exists j, sdk_pickNode k cc ⇓ mkSdk j cd /\ pickNode k (shards_of cc) ⇓ Some j /\ has_client (shards_of cc) j = true.
Proof.
  intros Hc. destruct (shards_dialled cd cc Hc) as [Hp Hcl Hs].
  destruct (pickNode_spec k (shards_of cc) Hp Hs) as (j & n & Hpick & Hj & _ & Hb). exists j.
  assert (j < length cc)%nat as Hlt by (apply lookup_lt_Some in Hj; unfold shards_of in Hj; by rewrite length_fmap in Hj).
  assert (Weight n = 1) as Hw by (unfold shards_of in Hj; rewrite list_lookup_fmap in Hj; by destruct (cc !! j); simplify_eq/=).
  rewrite before_shards, sum_shards, Hw in Hb by lia. destruct (lookup_lt_is_Some_2 cc j Hlt) as [cn Hn].
  pose proof (co_few _ _ Hc) as Hf. pose proof (Z.mod_pos_bound (fnv32a k) (Z.of_nat (length cc))) as Hm.
  split_and!; [|done|unfold has_client; rewrite Hj; rewrite Forall_forall in Hcl; apply Hcl; by eapply list_elem_of_lookup_2].
  unfold sdk_pickNode. destruct (Z.eqb_spec (Z.of_nat (length cc)) 1) as [H1|H1].
  - assert (j = 0%nat) as -> by lia. rewrite Hn. cbn. by rewrite (co_node _ _ Hc _ _ Hn).
  - rewrite wrapU_small by lia. rewrite (proj2 (Z.eqb_neq _ _)) by lia. replace (Z.to_nat _) with j by lia.
    rewrite Hn. cbn. by rewrite (co_node _ _ Hc _ _ Hn).
Qed.

(** ** The loops over all nodes *)

Lemma is_up_shards cc j : (j < length cc)%nat -> is_healthy (shards_of cc) j = true /\ has_client (shards_of cc) j = true.
Proof.
  intros Hj. unfold is_healthy, has_client, shards_of. rewrite list_lookup_fmap.
  by destruct (lookup_lt_is_Some_2 cc j Hj) as [n ->].
Qed.

Lemma over_all_shards {A B} (c : call float64 A) (add : B -> A -> B) cd cc acc s :
  connected cd cc ->
  over_all (fun n => perform (transport n) c) add cc acc s = ask_all (shards_of cc) c add (all_nodes (shards_of cc)) acc s.
Proof.
  intros Hc. unfold all_nodes, shards_of at 2. rewrite length_fmap.
  assert (forall k l acc s, (forall j n, l !! j = Some n -> transport (client n) = (k + j)%nat) -> (k + length l <= length cc)%nat ->
    over_all (fun n => perform (transport n) c) add l acc s = ask_all (shards_of cc) c add (seq k (length l)) acc s) as Hgen.
  { intros k l. revert k. induction l as [|n l IH]; intros k acc' s' Hl Hlen; cbn [over_all ask_all seq length] in *; [done|].
    destruct (is_up_shards cc k) as [-> ->]; [lia|]. cbn [negb orb]. rewrite (Hl 0%nat n eq_refl), Nat.add_0_r.
    destruct (perform k c s') as [[a|e] s1]; [|done]. apply IH; [|lia]. intros j n' Hn'. rewrite (Hl (S j) n' Hn'). lia. }
  apply Hgen; [|lia]. intros j n Hn. by rewrite (co_node _ _ Hc _ _ Hn).
Qed.

(** ** Runs *)

(** The operation on bytes that an operation on values becomes. *)
Definition bytes_op (cd : Codec) (o : sdk_op) : map_op :=
  match o with SSet k v => MSet k (encoded cd v) | SGet k => MGet k | SDel k => MDel k | SLen => MLen end.

Definition readable (cd : Codec) (t : target) (m : gmap string value) : Prop :=
  map_Forall (fun _ v => exists b, written_as cd t v b) m.

Lemma bytes_op_step cd t o m : sdk_wf cd t o -> readable cd t m ->
  readable cd t (values_step o m).2 /\ wf_op (bytes_op cd o) /\
  (map_step (bytes_op cd o) (encoded cd <$> m)).2 = encoded cd <$> (values_step o m).2.
Proof.
  intros Hwf Hr. destruct o as [k v|k|k|]; cbn [sdk_wf bytes_op values_step map_step fst snd wf_op] in *.
  - destruct Hwf as [Hk (b & Hb)]. rewrite fmap_insert. split_and!; [|done| |done].
    + apply map_Forall_insert_2; eauto.
    + rewrite (encoded_written _ _ _ _ Hb). apply Hb.
  - done.
  - rewrite fmap_delete. split_and!; [|done|done]. by apply map_Forall_delete.
  - done.
Qed.

(** What an operation answers on the bytes, read as the SDK reads it. *)
Lemma sdk_step_cluster Quote cd t o cc s s' m :
  connected cd cc -> sdk_wf cd t o -> readable cd t m ->
  cluster_step (bytes_op cd o) (shards_of cc) s ⇓ ((map_step (bytes_op cd o) (encoded cd <$> m)).1, shards_of cc, s') ->
  sdk_step Quote t o cc s ⇓ ((values_step o m).1, s').
Proof.
  intros Hc Hwf Hr. destruct o as [k v|k|k|];
    cbn [sdk_wf bytes_op values_step map_step fst snd cluster_step sdk_step] in *;
    unfold cm_Get, cm_Set, cm_Del, cm_Len; cbn [mode_Get mode_Set mode_Del mode_Len shard_mode].
  1-3: destruct (same_placement cd cc k Hc) as (j & Hp & Hj & Hcl); rewrite (shard_call_owner _ _ j) by done;
    unfold cc_Set, cc_Get, cc_Del, at_node; rewrite Hp; cbn [mbind outcome_bind mret].
  - destruct Hwf as [Hk (b & Hb)]. rewrite (encoded_written _ _ _ _ Hb). destruct Hb as (Hm & _).
    unfold Set_. cbn [codec transport]. rewrite decide_False, Hm by done.
    destruct (perform j _ s) as [r s1]. by intros [= -> ->].
  - unfold Get. rewrite decide_False by done. cbn [transport codec].
    destruct (perform j _ s) as [r s1]. rewrite lookup_fmap. destruct (m !! k) as [v|] eqn:Hv; cbn; intros [= -> ->].
    + destruct (Hr k v Hv) as (b & Hb). rewrite (encoded_written _ _ _ _ Hb). destruct Hb as (_ & _ & Hu).
      unfold mret, outcome_ret. by rewrite Hu.
    + by case_decide.
  - unfold Del. rewrite decide_False by done. cbn [transport].
    destruct (perform j _ s) as [r s1]. by intros [= -> ->].
  - unfold cc_Len. rewrite map_size_fmap. rewrite <-(over_all_shards _ _ cd) by done. change (over_all Len) with
      (over_all (St := St) (fun n => perform (transport n) lenCmd) (B := Z)).
    destruct (over_all _ _ cc 0 s) as [r s1]. by intros [= -> ->].
Qed.

End SdkMap.

(** ** Where the clients come from *)

Lemma NewClient_codec `{FB : FloatBits float64} dial i opts c :
  NewClient (float64 := float64) dial i opts ⇓ Ok c -> c = mkSdk i (o_Codec (foldl (fun o opt => opt o) defaultOptions opts)).
Proof.
  unfold NewClient. destruct (pool_NewClient dial _) as [[p|e]| |]; cbn; intros [= <-]; done.
Qed.

Lemma connect_all_nodes `{FB : FloatBits float64} dial opts i addrs cc :
  connect_all (float64 := float64) dial opts i addrs ⇓ Ok cc ->
  length cc = length addrs /\
  forall j n, cc !! j = Some n -> client n = mkSdk (i + j) (o_Codec (foldl (fun o opt => opt o) defaultOptions opts)).
Proof.
  revert i cc. induction addrs as [|a addrs IH]; intros i cc; cbn [connect_all]; [by intros [= <-]|].
  destruct (NewClient (dial a) i opts) as [[c|e]| |] eqn:Hnew; cbn [mbind outcome_bind]; try discriminate.
  destruct (connect_all dial opts (S i) addrs) as [[l|e]| |] eqn:Hl; cbn; intros [= <-]. destruct (IH (S i) l Hl) as [Hlen Hn].
  split; [cbn; by rewrite Hlen|]. intros [|j] n Hj; cbn in Hj; [injection Hj as <-; cbn; rewrite Nat.add_0_r; by eapply NewClient_codec|].
  rewrite (Hn j n Hj). f_equal. lia.
Qed.

Lemma NewClusterClient_connected `{FB : FloatBits float64} dial addrs opts cc :
  NewClusterClient (float64 := float64) dial addrs opts ⇓ Ok cc -> Z.of_nat (length addrs) < 2 ^ 32 ->
  connected (o_Codec (foldl (fun o opt => opt o) defaultOptions opts)) cc.
Proof.
  unfold NewClusterClient. destruct addrs as [|a addrs]; [done|]. intros Hc Hlen.
  destruct (connect_all_nodes dial opts 0 (a :: addrs) cc Hc) as [Hl Hn]. split; [exact Hn|by intros ->|by rewrite Hl].
Qed.

Section Refinement.
Context `{FB : FloatBits float64} `{CL : Clients (float64 := float64) St}.
Context (store : St -> nat -> gmap string bytes) `{MC : !MapClients store}.

Lemma values_step_size o m : (size (values_step o m).2 <= S (size m))%nat.
Proof.
  destruct o as [k v|k|k|]; cbn [values_step snd]; [rewrite map_size_insert; destruct (m !! k); cbn; lia|lia| |lia].
  rewrite map_size_delete. destruct (m !! k); cbn; lia.
Qed.

Lemma sdk_run_values Quote cd t ops cc s m :
  connected cd cc -> Forall (sdk_wf cd t) ops -> readable cd t m -> holds store (shards_of cc) s (encoded cd <$> m) ->
  Z.of_nat (size m + length ops) <= max_int64 ->
  exists s', sdk_run Quote t ops cc s ⇓ ((values_run ops m).1, s') /\ holds store (shards_of cc) s' (encoded cd <$> (values_run ops m).2).
Proof.
  intros Hc Hwf. revert s m. induction Hwf as [|o ops Ho _ IH]; intros s m Hr Hh Hmax; cbn [sdk_run values_run length] in *; [by exists s|].
  destruct (bytes_op_step cd t o m Ho Hr) as (Hr1 & Hop & Hm).
  destruct (cluster_step_map store _ (bytes_op cd o) s _ (shards_dialled cd cc Hc) Hh Hop) as (s1 & He & Hh1);
    [rewrite map_size_fmap; lia|].
  rewrite (sdk_step_cluster Quote cd t o cc s s1 m Hc Ho Hr He). rewrite Hm in Hh1. pose proof (values_step_size o m) as Hsz.
  destruct (values_step o m) as [r m1]. cbn [fst snd mbind outcome_bind] in *.
  destruct (IH s1 m1 Hr1 Hh1) as (s2 & He2 & Hh2); [lia|]. rewrite He2. destruct (values_run ops m1) as [rs m2]. cbn in *. eauto.
Qed.

(** C25 (refinement): a cluster client of the SDK is one map of values.  It is connected to fewer than 2^32 servers, whose clients
    do what maps do; the codec reads the values that are stored as it wrote them, and writes them as at least one byte.  Then any run
    of [Set], [Get], [Del] and [Len] returns, call by call, what one map of values returns. *)
Theorem sdk_cluster_is_map dial addrs opts cc Quote t ops s :
  NewClusterClient (float64 := float64) dial addrs opts ⇓ Ok cc -> Z.of_nat (length addrs) < 2 ^ 32 ->
  (forall i, store s i = ∅) ->
  Forall (sdk_wf (o_Codec (foldl (fun o opt => opt o) defaultOptions opts)) t) ops -> Z.of_nat (length ops) <= max_int64 ->
  exists s', sdk_run Quote t ops cc s ⇓ ((values_run ops ∅).1, s').
Proof.
  intros Hnew Hlen Hs Hwf Hmax. pose proof (NewClusterClient_connected _ _ _ _ Hnew Hlen) as Hc.
  destruct (sdk_run_values Quote _ t ops cc s ∅ Hc Hwf) as (s' & H & _).
  - apply map_Forall_empty.
  - rewrite fmap_empty. by apply holds_empty.
  - by rewrite map_size_empty.
  - by exists s'.
Qed.

End Refinement.

(** ** An example *)

(** The raw codec reads strings and bytes as it wrote them. *)
Lemma raw_string_written s : s <> EmptyString -> written_as RawCodec ToString (VString s) (bytes_of s).
Proof.
  intros Hs. split_and!; [done|by destruct s|]. unfold RawCodec, raw_Unmarshal. cbn [Unmarshal default].
  unfold id. by rewrite string_of_list_byte_of_string.
Qed.
Lemma raw_bytes_written b : b <> [] -> written_as RawCodec ToBytes (VBytes (Some b)) b.
Proof. done. Qed.

#[local] Existing Instance pattern_bits.
Open Scope string_scope.
Definition demo_sdk_ops : list sdk_op :=
  [SSet "x" (VString "a"); SSet "y" (VString "b"); SSet "x" (VString "c"); SGet "x"; SDel "y"; SGet "y"; SLen].
Definition demo_cc : list clusterNode :=
  [mkClusterNode (mkSdk 0 RawCodec) "a:1"; mkClusterNode (mkSdk 1 RawCodec) "b:1"; mkClusterNode (mkSdk 2 RawCodec) "c:1"].

Lemma sdk_cluster_is_map_witness :
  exists s', sdk_run (CL := map_clients) (fun s => s) ToString demo_sdk_ops demo_cc ∅ ⇓
    ([SDone (Ok tt); SDone (Ok tt); SDone (Ok tt); SValue (Ok (VString "c")); SDone (Ok tt); SValue (Err ErrKeyNotFound); SCount (Ok 1)], s').
Proof.
  apply (sdk_cluster_is_map (CL := map_clients) node_map (MC := map_clients_laws) (fun _ _ => None) ["a:1"; "b:1"; "c:1"] [WithPoolSize 2]
    demo_cc (fun s => s) ToString demo_sdk_ops ∅).
  - reflexivity.
  - reflexivity.
  - intros i. reflexivity.
  - repeat constructor; try done; eexists; by apply raw_string_written.
  - discriminate.
Defined.

(** A pool of no connections can be made; the first call on it divides by zero. *)
Example empty_pool_panics :
  exists cl o, pool_NewClient (float64 := pattern) (fun _ => None) [pool_WithPoolSize 0] ⇓ Ok (cl, o) /\ pickConn cl = Panic.
Proof. eexists _, _. split; reflexivity. Qed.
