(* ===== verification/SdkLife.v ===== *)
(** * Closing clients (net/client.go, sdk/go/client.go, sdk/go/cluster.go)

    Closing a client of the SDK closes the connections of its pool, and closing a cluster client does it for every node.  Afterwards
    a call through any of them is refused, and the calls that waited have an answer. *)

From Stdlib Require Import Strings.String.
From stdpp Require Import base tactics numbers list gmap sets fin_maps strings.
From S2P Require Import Prelude.
From S2P Require Import DHash.
From S2P Require Import Bytes.
From S2P Require Import Wire.
From S2P Require Import WireSet.
From S2P Require Import WireExt.
From S2P Require Import RaftCmd.
From S2P Require Import Client.
From S2P Require Import Pipeline.
From S2P Require Import Sdk.

Open Scope Z_scope.

Section Closing.
Context `{FB : FloatBits float64}.
Notation pool := (Client (float64 := float64)).

(** The pools the clients hold, by the names of their transports. *)
Implicit Types (pools : gmap nat pool) (c : SdkClient).

(** [Close] of a pool returns nil. *)
Definition sdk_Close c pools : option error * gmap nat pool := (None, alter Client.Close (transport c) pools).

(** Every node is closed; the first error is returned. *)
Definition cc_Close (nodes : list clusterNode) pools : option error * gmap nat pool :=
  foldl (fun '(firstErr, pools) n =>
    let '(err, pools) := sdk_Close (client n) pools in
    (match firstErr with None => err | Some _ => firstErr end, pools)) (None, pools) nodes.

(** [Pipeline.Len] and [Pipeline.Reset] of the SDK. *)
Definition sdk_pipeline_Len (w : world (float64 := float64)) : Z := Z.of_nat (Pipeline.Len (w_pipe w)).
Definition sdk_pipeline_Reset (w : world (float64 := float64)) : world (float64 := float64) := Pipeline.Reset w.

(** No call can be made, and none is left without an answer. *)
Definition shut (cc : clientConn float64) : Prop :=
  cc_closed cc = true /\ map_Forall (fun _ o => is_Some o) (pendingMap cc) /\ map_Forall (fun _ o => is_Some o) (pendingSetMap cc) /\
  map_Forall (fun _ o => is_Some o) (pendingHashMap cc) /\ map_Forall (fun _ o => is_Some o) (pendingListMap cc).

Lemma filled {R} (resp : R) (m : gmap Z (option R)) :
  map_Forall (fun _ o => is_Some o) ((fun o => match o with None => Some resp | o => o end) <$> m).
Proof. intros i o Ho. rewrite lookup_fmap in Ho. destruct (m !! i) as [[r|]|]; cbn in Ho; simplify_eq; eauto. Qed.

Lemma close_shut (cc : clientConn float64) : shut (close cc).
Proof. destruct cc. split; [done|]. split_and!; apply filled. Qed.

Lemma shut_refuses {A} stale1 stale2 write (c : call float64 A) (cc : clientConn float64) :
  shut cc -> (begin_call stale1 stale2 write c cc).1 = Err ErrConnClosed.
Proof. intros [Hc _]. unfold begin_call. by rewrite Hc. Qed.

Definition all_shut (p : pool) : Prop := Forall shut (conns p).

Lemma Close_shut (p : pool) : all_shut (Client.Close p).
Proof. unfold all_shut, Client.Close. cbn. apply Forall_fmap, Forall_forall. intros cc _. apply close_shut. Qed.

Lemma cc_Close_gen nodes e pools i p :
  (foldl (fun '(firstErr, pools) n => let '(err, pools) := sdk_Close (client n) pools in
     (match firstErr with None => err | Some _ => firstErr end, pools)) (e, pools) nodes).2 !! i = Some p ->
  (exists p0, pools !! i = Some p0 /\ (all_shut p0 -> all_shut p)) /\ (i ∈ (transport ∘ client) <$> nodes -> all_shut p).
Proof.
  revert e pools. induction nodes as [|n nodes IH]; intros e pools; cbn.
  { intros Hp. split; [eauto|]. by intros ?%not_elem_of_nil. }
  intros Hp. destruct (IH _ _ Hp) as [(p0 & Hp0 & Hk) Hin]. rewrite lookup_alter in Hp0. case_decide as Hi.
  - destruct (pools !! i) as [q|] eqn:Hq; [|by subst; rewrite Hq in Hp0]. subst i. rewrite Hq in Hp0. injection Hp0 as <-.
    split; [exists q; split; [done|]; intros _; apply Hk, Close_shut|]. intros _. apply Hk, Close_shut.
  - split; [eauto|]. intros [->|Hx]%elem_of_cons; [done|auto].
Qed.

(** Closing a cluster client succeeds and shuts the pools of all its nodes: calls through them are refused and those that waited are
    answered.  Pools that were shut stay so, so that a second closing is harmless. *)
Lemma closing_shuts_all nodes pools i p :
  (cc_Close nodes pools).1 = None /\
  ((cc_Close nodes pools).2 !! i = Some p -> i ∈ (transport ∘ client) <$> nodes -> all_shut p).
Proof.
  split; [|intros Hp; by apply (cc_Close_gen nodes None pools)].
  unfold cc_Close. generalize pools as ps. induction nodes as [|n nodes IH]; intros ps; [done|]. apply IH.
Qed.

End Closing.
