(* ===== verification/Process.v ===== *)
(** * Background servers (cli/daemon_unix.go, cli/stop.go, cli/kill_unix.go)

    A server starts itself again without its flag and writes the number of the new process into a file; another command reads the
    file and ends the process.  What the system answers to starting a process and to a signal is an argument. *)

From Stdlib Require Import Strings.String Strings.Ascii.
From stdpp Require Import base tactics numbers list gmap fin_maps strings.
From S2P Require Import Prelude.
From S2P Require Import DHash.
From S2P Require Import Text.
Import Strconv.

#[local] Open Scope string_scope.
#[local] Open Scope list_scope.
#[local] Open Scope Z_scope.

(** ** Starting *)

Definition daemon_args (args : list string) : list string := filter (fun a => a <> "--daemon") args.

Definition pid_line (pid : Z) : string := FormatInt pid +:+ String newline EmptyString.

Inductive daemonized : Type := NotStarted (e : error) | Started (args : list string) (pid : Z).

(** [start]: the number of the process, or why it cannot start; [written]: whether the file can be written, which nobody looks at. *)
Definition daemonize (start : list string -> result error Z) (written : bool) (serverPidFile : string) (args : list string)
    (files : gmap string string) : daemonized * gmap string string :=
  match start (daemon_args args) with
  | Err e => (NotStarted e, files)
  | Ok pid => (Started (daemon_args args) pid, if written then <[serverPidFile := pid_line pid]> files else files)
  end.

(** ** Ending *)

Inductive Signal : Type := SIGTERM | Signal0 | SIGKILL.
#[global] Instance Signal_eq : EqDecision Signal.
Proof. solve_decision. Defined.

(** [signal i s]: what the process answers to the [i]th signal. *)
Fixpoint wait_exit (signal : nat -> Signal -> option error) (i n : nat) : nat * bool :=
  match n with
  | O => (i, false)
  | S n => match signal i Signal0 with Some _ => (S i, true) | None => wait_exit signal (S i) n end
  end.

(** The result, and how many signals were sent.  [wrap] is [fmt.Errorf] with a prefix. *)
Definition killProcess (wrap : string -> error -> error) (find : option error) (signal : nat -> Signal -> option error) :
    result error unit * nat :=
  match find with
  | Some e => (Err (wrap "find process: " e), O)
  | None =>
      match signal O SIGTERM with
      | Some e => (Err (wrap "send SIGTERM: " e), 1%nat)
      | None =>
          let '(i, gone) := wait_exit signal 1 60 in
          if gone then (Ok tt, i)
          else match signal i SIGKILL with
               | Some e => (Err (wrap "send SIGKILL: " e), S i)
               | None => (Ok tt, S i)
               end
      end
  end.

(** The messages leave out what they quote. *)
Inductive stopped : Type := CannotRead | InvalidPid (text : string) | NotKilled (pid : Z) (e : error) | Stopped (pid : Z).

(** [find] and [signal] are the system's for each process; the file can be removed. *)
Definition stopCmd (wrap : string -> error -> error) (find : Z -> option error) (signal : Z -> nat -> Signal -> option error)
    (stopPidFile : string) (files : gmap string string) : stopped * gmap string string :=
  match files !! stopPidFile with
  | None => (CannotRead, files)
  | Some data =>
      let pidStr := TrimSpace data in
      match ParseInt pidStr with
      | Err _ => (InvalidPid pidStr, files)
      | Ok pid =>
          if pid <=? 0 then (InvalidPid pidStr, files)
          else match killProcess wrap (find pid) (signal pid) with
               | (Err e, _) => (NotKilled pid e, files)
               | (Ok _, _) => (Stopped pid, delete stopPidFile files)
               end
      end
  end.

(** ** What they do together *)

Lemma trim_right_word w c : ascii_space c = true -> no_space w = true -> trim_right (w +:+ String c EmptyString) = w.
Proof.
  intros Hc. induction w as [|a w IH]; intros Hw.
  { change (trim_right (String c EmptyString) = EmptyString). cbn [trim_right]. unfold all_space, Fields. cbn [split_words space_width].
    by rewrite Hc. }
  pose proof Hw as Hw'. cbn [no_space] in Hw'. apply andb_true_iff in Hw' as [_ Hw2].
  change (String a w +:+ String c EmptyString) with (String a (w +:+ String c EmptyString)). cbn [trim_right].
  assert (all_space (String a (w +:+ String c EmptyString)) = false) as ->; [|by rewrite IH].
  unfold all_space. apply bool_decide_false. unfold Fields.
  change (String a (w +:+ String c EmptyString)) with (String a w +:+ String c EmptyString). by rewrite split_word.
Qed.

Lemma TrimSpace_line n : TrimSpace (pid_line n) = FormatInt n.
Proof.
  unfold TrimSpace, pid_line. pose proof (word_FormatInt n) as Hw. destruct (FormatInt n) as [|a w] eqn:Hn; [done|].
  assert (no_space (String a w) = true) as Hs by auto with mcache.
  assert (space_width (String a w +:+ String newline EmptyString) = 0%nat) as Hz.
  { apply space_width_app; [done|]. cbn [no_space] in Hs. apply andb_true_iff in Hs as [H%Nat.eqb_eq _]. exact H. }
  replace (trim_left 0 _) with (String a w +:+ String newline EmptyString); [by apply trim_right_word|].
  change (String a w +:+ String newline EmptyString) with (String a (w +:+ String newline EmptyString)) in *.
  cbn [trim_left]. by rewrite Hz.
Qed.

(** The command that stops a server ends the process that was started, when its number was written. *)
Lemma stop_ends_started wrap start find signal file args files pid :
  0 < pid -> in_int64 pid -> start (daemon_args args) = Ok pid ->
  fst (killProcess wrap (find pid) (signal pid)) = Ok tt ->
  let '(d, files) := daemonize start true file args files in
  d = Started (daemon_args args) pid /\ fst (stopCmd wrap find signal file files) = Stopped pid.
Proof.
  intros Hpos Hin Hst Hk. unfold daemonize. rewrite Hst. split; [done|]. unfold stopCmd.
  rewrite lookup_insert_eq, TrimSpace_line, ParseInt_FormatInt by done. rewrite (proj2 (Z.leb_gt _ _)) by done.
  destruct (killProcess wrap (find pid) (signal pid)) as [[[]|e] n]; [done|]. discriminate Hk.
Qed.

Lemma wait_exit_spec signal i n :
  match wait_exit signal i n with
  | (j, true) => (i < j <= i + n)%nat /\ (exists e, signal (j - 1)%nat Signal0 = Some e) /\
                 forall k, (i <= k < j - 1)%nat -> signal k Signal0 = None
  | (j, false) => j = (i + n)%nat /\ forall k, (i <= k < i + n)%nat -> signal k Signal0 = None
  end.
Proof.
  revert i. induction n as [|n IH]; intros i; cbn [wait_exit]; [split; [lia|intros; lia]|].
  destruct (signal i Signal0) as [e|] eqn:Hs.
  { split_and!; [lia..| |intros; lia]. exists e. by replace (S i - 1)%nat with i by lia. }
  specialize (IH (S i)). destruct (wait_exit signal (S i) n) as [j []].
  - destruct IH as (H1 & H2 & H3). split_and!; [lia..|done|]. intros k Hk. destruct (decide (k = i)) as [->|]; [done|]. apply H3. lia.
  - destruct IH as [-> H]. split; [lia|]. intros k Hk. destruct (decide (k = i)) as [->|]; [done|]. apply H. lia.
Qed.

(** A process is asked to end first, and forced only after it has answered 60 times in six seconds. *)
Lemma kill_forces_last wrap signal n :
  snd (killProcess wrap None signal) = n -> (n <= 62)%nat /\
  (n = 62%nat -> signal 0%nat SIGTERM = None /\ forall k, (1 <= k <= 60)%nat -> signal k Signal0 = None).
Proof.
  unfold killProcess. destruct (signal 0%nat SIGTERM) as [e|]; [intros <-; split; [cbn; lia|intros [=]]|].
  pose proof (wait_exit_spec signal 1 60) as Hw. destruct (wait_exit signal 1 60) as [j []].
  - destruct Hw as (H1 & _). intros <-. cbn. split; [lia|]. intros. lia.
  - destruct Hw as [-> H]. destruct (signal _ SIGKILL); intros <-; (split; [cbn; clear; lia|]); intros _; (split; [done|]); intros k Hk; apply H; clear -Hk; lia.
Qed.

(** The flag in its other form is passed on, so the new process starts another in turn. *)
Example daemon_flag_value_kept : daemon_args ["server"; "--daemon=true"] = ["server"; "--daemon=true"].
Proof. reflexivity. Qed.
